(* ===== verification/_CoqProject ===== *)
-Q . S2P
Prelude.v
Clock.v
Terms.v
Store.v
Codec.v
Replication.v
Convergence.v
Invariants.v
Scenarios.v
LocalWrites.v
Gate.v
Memory.v
Cache.v
QueryView.v
IndexUpdate.v
Transitions.v
IndexMirror.v
Orphans.v
Cursors.v
Reads.v
ReadRules.v
Answers.v
DeltaAnswers.v
ViewRows.v
CrateRules.v
CrateViews.v
CrateSnapshots.v
CrateReach.v
CrateChanges.v
CrateCandidates.v
CrateDelta.v
CrateVerdicts.v
Requests.v
Deadlines.v
Budget.v
Grants.v
ShapeGraphs.v
Access.v
ShaclPaths.v
ShaclTerms.v
ShaclModel.v
ShaclEval.v
ShaclConforms.v
ShaclReports.v
ShaclVerdicts.v
ShaclResolve.v
ShaclMeaning.v
ShaclCycles.v
