(* ===== verification/Prelude.v ===== *)
(** * craqle: a verification development

    [craqle] keeps RDF graphs in an ordered key-value store, replicates them
    between actors through an operation log, answers queries from the stored
    quads or from a derived index (the query view), validates writes with SHACL
    shapes, and lets each caller see the graphs it is granted.  This library
    models the parts of [src/src] that carry that logic and proves what makes
    them correct.

    ** How the parts interact

    A local write ([src/internal/replication.rs]) turns changes into operations,
    stages them in a write batch of the store ([src/internal/store.rs]) and
    returns the batch other replicas merge.  The commit of a write batch also
    updates the query view from the net liveness changes of its quads.  A read
    ([src/internal/rdf_read.rs], [src/internal/query]) opens a cursor over the
    source keyspace or over one of the view's six orders, and filters what the
    request may see.  A validation reads through an overlay of the uncommitted
    change set ([src/internal/validation_delta.rs]); it evaluates the shapes
    ([src/internal/shacl]) and the rules of RO-Crate ([src/internal/rules.rs])
    over it.  Memory, the bounded caches, the commit gate,
    cancellation and deadlines bound and serialise all of them.

    ** Files, and the code they model

    - this file: results ([outcome], with panics), the state-and-error monad,
      machine-width arithmetic, orders and ordered-container iteration, byte
      strings.
    - [Clock]: [src/internal/core.rs] -- actors, dots, vector clocks,
      last-writer-wins tags, operations, batches, policies.
    - [Terms]: [core.rs] and [src/sync.rs] -- N-Triples texts, their parser, the
      canonical spelling, the admission check of external terms.
    - [Store]: [store.rs] -- keyspaces as maps, the write batch and its commit,
      interning, quad dot sets, graph records, tombstones.
    - [Codec], [QueryView]: the hand-written key and value encodings.
    - [Replication]: [replication.rs], [sync.rs] -- admission of batches and
      snapshots, merges, local writes, snapshot joins.
    - [Convergence], [Invariants], [LocalWrites], [Scenarios]: what follows for
      every sequence of those operations.
    - [IndexUpdate], [Transitions], [IndexMirror]: the maintenance of the query
      view by a commit, and that it mirrors the live quads.
    - [Orphans]: reachability over [hasPart] and what diagnostics persist of it.
    - [Cursors], [Reads]: access paths, raw cursors, the overlay of a change set,
      read contexts, visibility, filtering cursors, and the two read views
      behind the interface [RdfReadView].
    - [ReadRules], [Answers], [DeltaAnswers]: proof rules for reads, and that
      both views answer with exactly the rows they promise.
    - [ViewRows]: the interfaces [AnswersView] (the rows of a graph) and
      [RowsView] (the rows with their terms), which both read views meet and the
      clients of reads are proved against.
    - [CrateRules]: [rules.rs] -- summaries of change sets, the six rules, the
      walk over [hasPart], profiles, the validation of a change set and the
      checks after a merge.
    - [CrateViews], [CrateSnapshots], [CrateReach], [CrateChanges],
      [CrateCandidates]: what the reads of a rule answer over the triples of a
      graph, behind the interface [CrateView]; that the checks of a snapshot
      decide the rules; that the walk's stack decides reachability; what a
      change set can break; that the candidate checks decide the rules.
    - [CrateDelta], [CrateVerdicts]: change sets and local writes as changes of
      triples, and the verdicts on them.
    - [ShaclPaths]: [src/internal/shacl/paths.rs] -- walks of property paths,
      proved against [AnswersView].
    - [ShaclModel], [ShaclTerms], [ShaclEval]: [shacl/model.rs],
      [dependencies.rs], [term_meta.rs], [eval.rs], [targets.rs], [report.rs] --
      the plans of shapes, term metadata, the validator with its caches, every
      constraint, targets and reports.
    - [ShaclConforms], [ShaclReports], [ShaclVerdicts]: what shapes ask for over
      the rows of a graph, that an evaluation decides it against the interface
      [DataView], the loops over focus nodes, and the two views as instances.
    - [ShaclResolve]: [shacl/resolve.rs] -- plans resolved against a store.
    - [ShaclMeaning]: what compiled shapes ask for over the triples of a graph as
      text, and that resolution keeps it.
    - [ShaclCycles]: [shacl/compile.rs] -- the check for recursive shapes.
    - [Grants]: [src/auth.rs] -- actions, grants and the cached matchers of the
      built-in authorizer.
    - [ShapeGraphs]: [shacl/compile.rs] -- the walk over the imports of a shapes
      graph and the versions a compiled schema is fenced by.
    - [Access]: [src/lib.rs], [src/history.rs] -- the policy each entry point
      finds and the check it makes: graphs, snapshots, deleted graphs, the
      listing of graphs, the scope of a query, the graphs of a schema.
    - [Gate], [Memory], [Cache]: [qv_gate.rs], [memory.rs], [cache.rs].
    - [Requests], [Deadlines]: [query/context.rs], [query/deadline.rs].
    - [Budget]: [query/budget.rs], [query/worker.rs] -- the limits of a query and
      the counters its threads share.

    A definition has the name of the function or type it models, in the case of
    the source; where one Rust function is several definitions their comments
    say which part each is.

    ** What the theorems show

    Replication: replicas that merge the same batches in any two orders agree,
    the live dots are those added and not witnessed by a removal, repeated
    merges change nothing, the last local change of a quad wins, and every
    reachable store is well formed.  Query view: net transitions are the
    difference of the live quads, and a commit preserves the mirror of the six
    orders, identifiers, counters and header.  Reads: scans, existence tests and
    capped counts return exactly the live visible rows on every access path,
    and a validation reads what the commit would leave.  Crates: a local
    write changes the triples of a graph as its changes say; the rules a change
    set is judged by, read only where it touches the graph, are decided as they
    hold of the triples it leaves, so an accepted write keeps a crate a crate;
    the search for orphans ends and is exact on graphs with cycles; the checks
    after a merge list exactly the rules that fail.  SHACL: a walk returns
    exactly the values of its path within explicit bounds of edges and depth, a
    validation conforms exactly when every declared focus node does, and that of
    a change set speaks of the graph its commit leaves.  A schema means
    over the identifiers it resolves to what its plans mean over the triples as
    text, whatever the store, and the check for recursive shapes rejects exactly
    the graphs in which a shape refers to itself, as the check reads their lists.
    The verdicts are about schemas without recursion and with counts over paths
    whose capped walks are exact, which the compiler does not fully ensure.
    Access: a request is decided by its grants alone, whatever the caches hold; a
    query's rows, the graphs listed and the graphs a schema was compiled from are
    those the caller may read; a deleted graph keeps its policy; the walk over
    imports ends, is exact and refuses cycles, and the versions it gives are
    current exactly while its graphs are.
    Encodings: round trips, order and disjointness of keys; admitted terms are
    read back.  Concurrency: the gate is exclusive and fair, cancellation reaches
    every request and always completes, due deadlines fire.  Resources: caches,
    reservations and the work of a query stay in their limits.  Where the code
    does not do what it means to, a theorem or an example states what it does (a
    removal written locally is rejected by other replicas, unless its base clock
    already covers its own event; a capped walk of an alternative counts too few
    values; the change set that first declares a profile is not judged by all
    its rules; the check before a schema is compiled stops at the direct imports;
    a literal can be admitted that is not read back).

    ** Modelling choices, fuel and bounds

    Integers are [N] at their width, with saturating, checked and wrapping
    arithmetic written out; identifiers and byte arrays are the number their
    big-endian bytes denote.  Ordered maps and sets are finite maps iterated in
    key order.  Panics are values.  Loops with fuel have the fuel the model
    passes proved enough: a cursor's candidates left for the cursors, the rows
    of a graph for the orphan walk, the queue length for evictions, the number
    of distinct instants for the deadline worker, the depth limit for a
    repetition, the number of shapes for an evaluation, the shapes a graph
    mentions for the recursion check, the graphs of the store for the depth of
    the walk over imports, the quads of the store for the graphs it authorizes,
    the rows of the store and of the change
    set for the queues of the crate walk.  Its stack machine is iterated [2^d]
    times by a doubled loop, with [d] the square of those rows: an entity whose
    search broke a cycle is not cached, so the steps are bounded by the paths
    of the graph only.  Threads are interleaved steps between
    critical sections; expiry of a wait is the choice of a step.  External code is a parameter with
    its documented laws: the digest ([Blake3]), the value normalisation of
    [oxrdf] ([Oxrdf]), the patterns of [globset] ([Globset]), the growth of
    container capacities in [Cache].  A snapshot stands for what the store holds
    during one walk over imports; writes that interleave with it are fenced by
    the versions.

    ** Not modelled

    Persistence, recovery and compaction of the key-value store; the transport
    and log of [irokle]; the SPARQL algebra and evaluator of [spargebra] and
    [spareval] with the planner over them; JSON-LD import and export; full-text
    search over [tantivy]; statistics, receipts and history pages; the rebuild
    and cleanup pages of the query view; the part of the SHACL compiler that
    reads shapes through the parser of [rudof], with the selection of foci of an
    incremental validation; the authorization of a SPARQL update, which walks
    the algebra of [spargebra].  They are I/O, or work on types of crates that
    are not part of the repository. *)

From stdpp Require Export base decidable list strings gmap sorting.
From Stdlib Require Export NArith ZArith Lia.
From Stdlib Require Import Ascii.

(** ** Scope, hint database and tactics *)

Declare Scope craqle_scope.
Delimit Scope craqle_scope with craqle.

Create HintDb craqle discriminated.
Create Rewrite HintDb craqle_elem.

(** Case analysis on the scrutinee of a [match] or an [if] in the goal or in a
    hypothesis, remembering the equation. *)
Ltac split_match :=
  match goal with
  | |- context [match ?x with _ => _ end] => let E := fresh "E" in destruct x eqn:E
  | H : context [match ?x with _ => _ end] |- _ => let E := fresh "E" in destruct x eqn:E
  end.

Ltac crush := repeat (simplify_eq/= || split_match || done).

(** ** Results, errors and panics

    [Ok] and [Err] are the constructors of [std::result::Result]; [Panic] is an
    unwinding panic (a slice outside a character boundary, an [expect] on a
    broken assumption). *)

Inductive outcome (E A : Type) : Type :=
  | Ok (a : A)
  | Err (e : E)
  | Panic.
Arguments Ok {E A} a.
Arguments Err {E A} e.
Arguments Panic {E A}.

#[export] Instance outcome_ret {E} : MRet (outcome E) := λ A, @Ok E A.
#[export] Instance outcome_bind {E} : MBind (outcome E) := λ A B f m,
  match m with Ok a => f a | Err e => Err e | Panic => Panic end.
#[export] Instance outcome_fmap {E} : FMap (outcome E) := λ A B f m,
  match m with Ok a => Ok (f a) | Err e => Err e | Panic => Panic end.

Definition map_err {E F A} (f : E → F) (m : outcome E A) : outcome F A :=
  match m with Ok a => Ok a | Err e => Err (f e) | Panic => Panic end.

Definition ok_or {E A} (e : E) (o : option A) : outcome E A :=
  match o with Some a => Ok a | None => Err e end.

(** A [for] loop whose body may return early with [?]. *)
Fixpoint try_fold {E S A} (f : S → A → outcome E S) (s : S) (l : list A) : outcome E S :=
  match l with
  | [] => Ok s
  | x :: l' => s' ← f s x; try_fold f s' l'
  end.

(** [iter().map(f).collect::<Result<Vec<_>>>()]. *)
Fixpoint try_map {E A B} (f : A → outcome E B) (l : list A) : outcome E (list B) :=
  match l with
  | [] => Ok []
  | x :: l' => y ← f x; ys ← try_map f l'; Ok (y :: ys)
  end.

Lemma bind_ok {E A B} (m : outcome E A) (f : A → outcome E B) b :
  m ≫= f = Ok b ↔ ∃ a, m = Ok a ∧ f a = Ok b.
Proof. destruct m; cbn; naive_solver. Qed.

Lemma bind_err {E A B} (m : outcome E A) (f : A → outcome E B) e :
  m ≫= f = Err e ↔ m = Err e ∨ ∃ a, m = Ok a ∧ f a = Err e.
Proof. destruct m; cbn; naive_solver. Qed.

Lemma bind_panic {E A B} (m : outcome E A) (f : A → outcome E B) :
  m ≫= f = Panic ↔ m = Panic ∨ ∃ a, m = Ok a ∧ f a = Panic.
Proof. destruct m; cbn; naive_solver. Qed.

Lemma fmap_ok {E A B} (m : outcome E A) (f : A → B) b :
  f <$> m = Ok b ↔ ∃ a, m = Ok a ∧ b = f a.
Proof. destruct m; cbn; naive_solver. Qed.

Lemma try_fold_app {E S A} (f : S → A → outcome E S) s l1 l2 :
  try_fold f s (l1 ++ l2) = (s' ← try_fold f s l1; try_fold f s' l2).
Proof. revert s; induction l1 as [|x l1 IH]; intros s; cbn; [done|]. destruct (f s x); cbn; auto. Qed.

(** An invariant of every iteration is an invariant of the loop. *)
Lemma try_fold_inv {E S A} (P : S → Prop) (f : S → A → outcome E S) l s s' :
  (∀ s x s', x ∈ l → P s → f s x = Ok s' → P s') →
  P s → try_fold f s l = Ok s' → P s'.
Proof.
  revert s; induction l as [|x l IH]; intros s Hf Hs; cbn; [naive_solver|].
  intros (s1 & E1 & E2)%bind_ok.
  apply (IH s1); [|by eapply Hf, E1; [set_solver|]|done].
  intros; eapply Hf; [|done..]. set_solver.
Qed.

Lemma try_map_ok {E A B} (f : A → outcome E B) l ys :
  try_map f l = Ok ys ↔ Forall2 (λ x y, f x = Ok y) l ys.
Proof.
  revert ys; induction l as [|x l IH]; intros ys; cbn.
  - split; [intros [= <-]; constructor | by inversion 1].
  - split.
    + intros (y & Hy & (zs & Hzs & [= <-])%bind_ok)%bind_ok. constructor; [done|by apply IH].
    + inversion 1 as [|? y ? zs Hy Hzs]; simplify_eq. rewrite Hy; cbn.
      apply IH in Hzs. by rewrite Hzs.
Qed.

(** Split a hypothesis [m ≫= f = Ok b] into its steps. *)
Ltac bind_inv :=
  repeat match goal with
  | H : (_ ≫= _) = Ok _ |- _ =>
      let a := fresh "r" in let E := fresh "E" in apply bind_ok in H as (a & E & H)
  | H : (_ <$> _) = Ok _ |- _ =>
      let a := fresh "r" in let E := fresh "E" in apply fmap_ok in H as (a & E & H)
  | H : Ok _ = Ok _ |- _ => injection H as H
  end; simplify_eq/=.

(** ** Machine integers

    An unsigned [w]-bit integer is an [N]; every operation that can leave the
    range says what the source does there.  [usize] is 64 bits wide. *)

Definition max_of (w : N) : N := (2 ^ w - 1)%N.
Abbreviation u32_max := (max_of 32) (only parsing).
Abbreviation u64_max := (max_of 64) (only parsing).
Abbreviation usize_max := (max_of 64) (only parsing).
Abbreviation u128_max := (max_of 128) (only parsing).

Definition sat_add (w a b : N) : N := N.min (a + b) (max_of w).
Definition sat_sub (a b : N) : N := (a - b)%N.
Definition sat_mul (w a b : N) : N := N.min (a * b) (max_of w).
Definition wrap_add (w a b : N) : N := ((a + b) mod 2 ^ w)%N.
Definition checked_add (w a b : N) : option N :=
  if decide (a + b ≤ max_of w)%N then Some (a + b)%N else None.

Lemma sat_add_le w a b : (sat_add w a b ≤ max_of w)%N.
Proof. unfold sat_add; lia. Qed.
Lemma sat_mul_le w a b : (sat_mul w a b ≤ max_of w)%N.
Proof. unfold sat_mul; lia. Qed.
Lemma sat_add_mono w a b c : (b ≤ c → sat_add w a b ≤ sat_add w a c)%N.
Proof. unfold sat_add; lia. Qed.
Lemma sat_add_exact w a b : (a + b ≤ max_of w → sat_add w a b = a + b)%N.
Proof. unfold sat_add; lia. Qed.
#[export] Hint Resolve sat_add_le sat_mul_le sat_add_mono sat_add_exact : craqle.

(** ** Total orders

    [Ord] is the comparison a type derives; [TotalOrd] its laws.  [BTreeMap],
    [BTreeSet], [sort] and [dedup] of the source are all driven by it. *)

Class Ord (A : Type) := cmp : A → A → comparison.
#[export] Hint Mode Ord ! : typeclass_instances.

Class TotalOrd (A : Type) {O : Ord A} : Prop := {
  cmp_eq_iff (x y : A) : cmp x y = Eq ↔ x = y;
  cmp_opp (x y : A) : cmp y x = CompOpp (cmp x y);
  cmp_lt_trans (x y z : A) : cmp x y = Lt → cmp y z = Lt → cmp x z = Lt;
}.

Definition cmp_le {A} `{Ord A} (x y : A) : Prop := cmp x y ≠ Gt.
Definition cmp_lt {A} `{Ord A} (x y : A) : Prop := cmp x y = Lt.

#[export] Instance cmp_le_dec {A} `{Ord A} (x y : A) : Decision (cmp_le x y).
Proof. unfold cmp_le. apply _. Defined.
#[export] Instance cmp_lt_dec {A} `{Ord A} (x y : A) : Decision (cmp_lt x y).
Proof. unfold cmp_lt. apply _. Defined.

Section order_facts.
Context {A : Type} `{TotalOrd A}.

Lemma cmp_refl (x : A) : cmp x x = Eq.
Proof. by apply cmp_eq_iff. Qed.

Lemma cmp_gt_lt (x y : A) : cmp x y = Gt ↔ cmp y x = Lt.
Proof. rewrite (cmp_opp x y). destruct (cmp x y); naive_solver. Qed.

Lemma cmp_le_lteq (x y : A) : cmp_le x y ↔ cmp_lt x y ∨ x = y.
Proof.
  unfold cmp_le, cmp_lt. rewrite <- (cmp_eq_iff x y). destruct (cmp x y); naive_solver.
Qed.

#[export] Instance cmp_lt_strict : StrictOrder (@cmp_lt A _).
Proof.
  split.
  - intros x. unfold complement, cmp_lt. by rewrite cmp_refl.
  - intros x y z. apply cmp_lt_trans.
Qed.

#[export] Instance cmp_le_preorder : PreOrder (@cmp_le A _).
Proof.
  split.
  - intros x. apply cmp_le_lteq. by right.
  - intros x y z Hxy Hyz. apply cmp_le_lteq.
    apply cmp_le_lteq in Hxy as [Hxy| ->]; apply cmp_le_lteq in Hyz as [Hyz|<-]; auto.
    left. by etrans.
Qed.

#[export] Instance cmp_le_antisymm : AntiSymm (=) (@cmp_le A _).
Proof.
  intros x y Hxy Hyx. apply cmp_le_lteq in Hxy as [Hxy|]; [|done].
  unfold cmp_le, cmp_lt in *. rewrite (cmp_opp x y), Hxy in Hyx. done.
Qed.

#[export] Instance cmp_le_total : Total (@cmp_le A _).
Proof.
  intros x y. unfold cmp_le. rewrite (cmp_opp x y). destruct (cmp x y); naive_solver.
Qed.
End order_facts.

#[export] Instance N_ord : Ord N := N.compare.
#[export] Instance N_total_ord : TotalOrd N.
Proof.
  split; unfold cmp, N_ord.
  - intros. apply N.compare_eq_iff.
  - intros. apply N.compare_antisym.
  - intros x y z. rewrite !N.compare_lt_iff. apply N.lt_trans.
Qed.

#[export] Instance nat_ord : Ord nat := Nat.compare.
#[export] Instance nat_total_ord : TotalOrd nat.
Proof.
  split; unfold cmp, nat_ord.
  - intros. apply Nat.compare_eq_iff.
  - intros. apply Nat.compare_antisym.
  - intros x y z. rewrite !Nat.compare_lt_iff. apply Nat.lt_trans.
Qed.

#[export] Instance Z_ord : Ord Z := Z.compare.
#[export] Instance Z_total_ord : TotalOrd Z.
Proof.
  split; unfold cmp, Z_ord.
  - intros. apply Z.compare_eq_iff.
  - intros. apply Z.compare_antisym.
  - intros x y z. rewrite !Z.compare_lt_iff. apply Z.lt_trans.
Qed.

(** Lexicographic comparison, as [derive(Ord)] and tuples do it. *)
Definition then_cmp (c d : comparison) : comparison :=
  match c with Eq => d | _ => c end.

#[export] Instance prod_ord {A B} `{Ord A, Ord B} : Ord (A * B) :=
  λ x y, then_cmp (cmp x.1 y.1) (cmp x.2 y.2).
#[export] Instance prod_total_ord {A B} `{TotalOrd A, TotalOrd B} : TotalOrd (A * B).
Proof.
  split; unfold cmp, prod_ord.
  - intros [a b] [a' b']; cbn. rewrite pair_eq, <- (cmp_eq_iff a a'), <- (cmp_eq_iff b b').
    destruct (cmp a a'); cbn; naive_solver.
  - intros [a b] [a' b']; cbn. rewrite (cmp_opp a a'), (cmp_opp b b'). by destruct (cmp a a').
  - intros [a b] [a' b'] [a'' b'']; cbn.
    destruct (cmp a a') eqn:E1; cbn; [|intros _|done].
    + apply cmp_eq_iff in E1 as ->. destruct (cmp a' a''); cbn; try done. apply cmp_lt_trans.
    + destruct (cmp a' a'') eqn:E2; cbn; [|intros _|done].
      * apply cmp_eq_iff in E2 as ->. by rewrite E1.
      * by rewrite (cmp_lt_trans _ _ _ E1 E2).
Qed.

Fixpoint list_cmp {A} `{Ord A} (l k : list A) : comparison :=
  match l, k with
  | [], [] => Eq
  | [], _ :: _ => Lt
  | _ :: _, [] => Gt
  | x :: l', y :: k' => then_cmp (cmp x y) (list_cmp l' k')
  end.
#[export] Instance list_ord {A} `{Ord A} : Ord (list A) := list_cmp.
#[export] Instance list_total_ord {A} `{TotalOrd A} : TotalOrd (list A).
Proof.
  split; unfold cmp, list_ord.
  - induction x as [|x l IH]; intros [|y k]; cbn; try naive_solver.
    specialize (IH k). destruct (cmp x y) eqn:E; cbn.
    + apply cmp_eq_iff in E as ->. rewrite IH. naive_solver.
    + split; [done|]. intros [= -> ->]. by rewrite cmp_refl in E.
    + split; [done|]. intros [= -> ->]. by rewrite cmp_refl in E.
  - induction x as [|x l IH]; intros [|y k]; cbn; try done.
    rewrite IH, (cmp_opp x y). by destruct (cmp x y).
  - induction x as [|x l IH]; intros [|y k] [|z m]; cbn; try done.
    destruct (cmp x y) eqn:E1; cbn; [|intros _|done].
    + apply cmp_eq_iff in E1 as ->. destruct (cmp y z); cbn; try done. apply IH.
    + destruct (cmp y z) eqn:E2; cbn; [|intros _|done].
      * apply cmp_eq_iff in E2 as ->. by rewrite E1.
      * by rewrite (cmp_lt_trans _ _ _ E1 E2).
Qed.

(** Strings compare bytewise, as [str] does. *)
Definition string_bytes (s : string) : list N :=
  N_of_ascii <$> String.list_ascii_of_string s.
Definition bytes_string (l : list N) : string :=
  String.string_of_list_ascii (ascii_of_N <$> l).

Lemma bytes_string_bytes s : bytes_string (string_bytes s) = s.
Proof.
  unfold bytes_string, string_bytes. rewrite <- list_fmap_compose.
  rewrite (list_fmap_ext _ id); [by rewrite list_fmap_id, String.string_of_list_ascii_of_string|].
  intros i x _. apply Ascii.ascii_N_embedding.
Qed.

#[export] Instance string_bytes_inj : Inj (=) (=) string_bytes.
Proof. intros s t Heq. by rewrite <- (bytes_string_bytes s), <- (bytes_string_bytes t), Heq. Qed.

#[export] Instance string_ord : Ord string := λ s t, cmp (string_bytes s) (string_bytes t).
#[export] Instance string_total_ord : TotalOrd string.
Proof.
  split.
  - intros s t. etrans; [apply (cmp_eq_iff (string_bytes s) (string_bytes t))|].
    split; [apply (inj _) | by intros ->].
  - intros s t. exact (cmp_opp (string_bytes s) (string_bytes t)).
  - intros s t u. exact (cmp_lt_trans (string_bytes s) (string_bytes t) (string_bytes u)).
Qed.

(** ** Sorted vectors and B-tree iteration

    [BTreeMap] and [BTreeSet] are finite maps and sets that iterate in key
    order; [btree_iter], [btree_keys] and [btree_elems] are those iterations. *)

Definition sort {A} `{Ord A} (l : list A) : list A := merge_sort cmp_le l.

(** [Vec::dedup]: drops an element equal to the one before it. *)
Fixpoint dedup_from {A} `{EqDecision A} (x : A) (l : list A) : list A :=
  match l with
  | [] => []
  | y :: l' => if decide (y = x) then dedup_from x l' else y :: dedup_from y l'
  end.
Definition dedup {A} `{EqDecision A} (l : list A) : list A :=
  match l with [] => [] | x :: l' => x :: dedup_from x l' end.

Definition btree_elems {A} `{Countable A, Ord A} (X : gset A) : list A := sort (elements X).
Definition btree_keys {K V} `{Countable K, Ord K} (m : gmap K V) : list K :=
  sort ((map_to_list m).*1).
Definition btree_iter {K V} `{Countable K, Ord K} (m : gmap K V) : list (K * V) :=
  omap (λ k, (k,.) <$> m !! k) (btree_keys m).

(** [BTreeMap::range(lower..=upper)]. *)
Definition btree_range {K V} `{Countable K, Ord K} (lo hi : K) (m : gmap K V) : list (K * V) :=
  filter (λ kv, cmp_le lo kv.1 ∧ cmp_le kv.1 hi) (btree_iter m).

Section sorting.
Context {A : Type} `{TotalOrd A, EqDecision A}.

Lemma sort_perm (l : list A) : sort l ≡ₚ l.
Proof. apply merge_sort_Permutation. Qed.

Lemma elem_of_sort (x : A) l : x ∈ sort l ↔ x ∈ l.
Proof. by rewrite (sort_perm l). Qed.

Lemma sort_sorted (l : list A) : StronglySorted cmp_le (sort l).
Proof. apply StronglySorted_merge_sort; apply _. Qed.

Lemma sort_perm_eq (l k : list A) : l ≡ₚ k → sort l = sort k.
Proof.
  intros Hlk. eapply (StronglySorted_unique cmp_le); try apply sort_sorted.
  by rewrite (sort_perm l), (sort_perm k).
Qed.

Lemma elem_of_dedup_from (x y : A) l : x ∈ dedup_from y l → x ∈ l.
Proof.
  revert y; induction l as [|z l IH]; intros y; cbn; [done|].
  case_decide; rewrite !elem_of_cons; naive_solver.
Qed.

Lemma dedup_from_spec (x y : A) l : x ∈ y :: dedup_from y l ↔ x ∈ y :: l.
Proof.
  revert y; induction l as [|z l IH]; intros y; cbn; [done|].
  case_decide as Hz.
  - subst. rewrite IH. set_solver.
  - rewrite elem_of_cons, IH. set_solver.
Qed.

Lemma elem_of_dedup (x : A) l : x ∈ dedup l ↔ x ∈ l.
Proof. destruct l as [|y l]; [done|]. apply dedup_from_spec. Qed.

Lemma dedup_from_sorted (x : A) l :
  StronglySorted cmp_le (x :: l) → StronglySorted cmp_lt (x :: dedup_from x l).
Proof.
  revert x; induction l as [|y l IH]; intros x; cbn.
  { intros _. repeat constructor. }
  intros [Hl Hx]%StronglySorted_inv.
  apply Forall_cons in Hx as [Hxy Hxl].
  case_decide as Hy; [subst; by apply IH|].
  specialize (IH _ Hl). constructor; [done|].
  assert (cmp_lt x y) as Hlt by (apply cmp_le_lteq in Hxy as [|]; [done|congruence]).
  constructor; [done|].
  apply StronglySorted_inv in IH as [_ IH].
  eapply Forall_impl; [exact IH|]. intros z Hz. by etrans.
Qed.

Lemma dedup_sorted (l : list A) :
  StronglySorted cmp_le l → StronglySorted cmp_lt (dedup l).
Proof. destruct l; [constructor|apply dedup_from_sorted]. Qed.

Lemma lt_sorted_nodup (l : list A) : StronglySorted cmp_lt l → NoDup l.
Proof.
  induction 1 as [|x l Hl IH Hx]; constructor; [|done].
  intros Hin. rewrite Forall_forall in Hx. apply (irreflexivity cmp_lt x). auto.
Qed.

Lemma lt_sorted_le (l : list A) : StronglySorted cmp_lt l → StronglySorted cmp_le l.
Proof.
  induction 1 as [|x l Hl IH Hx]; constructor; [done|].
  eapply Forall_impl; [exact Hx|]. intros y Hy. apply cmp_le_lteq. by left.
Qed.

(** A strictly sorted list is determined by its elements. *)
Lemma lt_sorted_ext (l k : list A) :
  StronglySorted cmp_lt l → StronglySorted cmp_lt k → (∀ x, x ∈ l ↔ x ∈ k) → l = k.
Proof.
  intros Hl Hk Hlk. eapply (StronglySorted_unique cmp_le); auto using lt_sorted_le.
  apply NoDup_Permutation; auto using lt_sorted_nodup.
Qed.

Lemma filter_sorted (R : relation A) (P : A → Prop) `{∀ x, Decision (P x)} l :
  StronglySorted R l → StronglySorted R (filter P l).
Proof.
  induction 1 as [|x l Hl IH Hx]; [constructor|].
  rewrite filter_cons. case_decide; [|done]. constructor; [done|].
  apply Forall_forall. intros y [_ Hy]%list_elem_of_filter. rewrite Forall_forall in Hx. auto.
Qed.
End sorting.

Section btrees.
Context {K : Type} `{Countable K} `{!Ord K, !TotalOrd K}.

Lemma elem_of_btree_elems (X : gset K) x : x ∈ btree_elems X ↔ x ∈ X.
Proof. unfold btree_elems. by rewrite elem_of_sort, elem_of_elements. Qed.

Lemma btree_elems_nodup (X : gset K) : NoDup (btree_elems X).
Proof. unfold btree_elems. rewrite (sort_perm (elements X)). apply NoDup_elements. Qed.

Lemma nodup_sorted_lt (l : list K) : NoDup l → StronglySorted cmp_lt (sort l).
Proof.
  intros Hl. assert (NoDup (sort l)) as Hs by by rewrite (sort_perm l).
  pose proof (sort_sorted l) as Hsort. revert Hs Hsort. generalize (sort l) as k.
  induction k as [|x k IH]; [constructor|].
  intros [Hx Hnd]%NoDup_cons [Hk Hf]%StronglySorted_inv. constructor; [auto|].
  rewrite Forall_forall in *. intros y Hy. specialize (Hf y Hy).
  apply cmp_le_lteq in Hf as [|]; [done|congruence].
Qed.

Lemma btree_elems_sorted (X : gset K) : StronglySorted cmp_lt (btree_elems X).
Proof. apply nodup_sorted_lt, NoDup_elements. Qed.

Lemma btree_elems_length (X : gset K) : length (btree_elems X) = size X.
Proof. unfold btree_elems. by rewrite (sort_perm (elements X)). Qed.

Lemma elem_of_btree_keys {V} (m : gmap K V) k : k ∈ btree_keys m ↔ is_Some (m !! k).
Proof.
  unfold btree_keys. rewrite elem_of_sort, list_elem_of_fmap. split.
  - intros ([k' v] & -> & Hkv%elem_of_map_to_list). eauto.
  - intros [v Hv]. exists (k, v). by rewrite elem_of_map_to_list.
Qed.

Lemma btree_keys_sorted {V} (m : gmap K V) : StronglySorted cmp_lt (btree_keys m).
Proof. apply nodup_sorted_lt, NoDup_fst_map_to_list. Qed.

Lemma elem_of_btree_iter {V} (m : gmap K V) k v : (k, v) ∈ btree_iter m ↔ m !! k = Some v.
Proof.
  unfold btree_iter. rewrite list_elem_of_omap. split.
  - intros (k' & _ & Hk). destruct (m !! k') eqn:E; naive_solver.
  - intros Hk. exists k. rewrite elem_of_btree_keys, Hk. eauto.
Qed.

Lemma btree_iter_fst {V} (m : gmap K V) : (btree_iter m).*1 = btree_keys m.
Proof.
  unfold btree_iter.
  assert (∀ l, Forall (λ k, is_Some (m !! k)) l → (omap (λ k, (k,.) <$> m !! k) l).*1 = l) as Hl.
  { induction 1 as [|k l [v Hv] Hl IH]; cbn; [done|]. rewrite Hv; cbn. by f_equal. }
  apply Hl, Forall_forall. intros k. apply elem_of_btree_keys.
Qed.

Lemma btree_iter_nodup {V} (m : gmap K V) : NoDup (btree_iter m).*1.
Proof. rewrite btree_iter_fst. apply lt_sorted_nodup, btree_keys_sorted. Qed.

Lemma list_to_map_btree_iter {V} (m : gmap K V) : list_to_map (btree_iter m) = m.
Proof.
  apply map_eq; intros k. destruct (m !! k) as [v|] eqn:E.
  - apply elem_of_list_to_map_1; [apply btree_iter_nodup|]. by apply elem_of_btree_iter.
  - apply not_elem_of_list_to_map_1. rewrite btree_iter_fst, elem_of_btree_keys, E. by intros [].
Qed.

Lemma elem_of_btree_range {V} lo hi (m : gmap K V) k v :
  (k, v) ∈ btree_range lo hi m ↔ m !! k = Some v ∧ cmp_le lo k ∧ cmp_le k hi.
Proof. unfold btree_range. rewrite list_elem_of_filter, elem_of_btree_iter. naive_solver. Qed.
End btrees.

#[export] Hint Rewrite @elem_of_btree_elems @elem_of_btree_iter @elem_of_btree_keys
  @elem_of_btree_range @elem_of_sort @elem_of_dedup using (try apply _) : craqle_elem.

(** ** Big-endian bytes

    A byte is an [N] below 256.  [be_bytes n x] is [x.to_be_bytes()] for an
    [n]-byte integer. *)

Abbreviation bytes := (list N) (only parsing).

Fixpoint be_bytes (n : nat) (x : N) : bytes :=
  match n with
  | O => []
  | S n' => (x / 256 ^ N.of_nat n') mod 256 :: be_bytes n' x
  end%N.

Fixpoint of_be_bytes_acc (acc : N) (l : bytes) : N :=
  match l with [] => acc | b :: l' => of_be_bytes_acc (acc * 256 + b)%N l' end.
Definition of_be_bytes (l : bytes) : N := of_be_bytes_acc 0 l.

Definition byte_list (l : bytes) : Prop := Forall (λ b, b < 256)%N l.
#[export] Instance byte_list_dec l : Decision (byte_list l).
Proof. unfold byte_list. apply _. Defined.

Lemma be_bytes_length n x : length (be_bytes n x) = n.
Proof. induction n; cbn; auto. Qed.

Lemma be_bytes_byte_list n x : byte_list (be_bytes n x).
Proof. induction n; constructor; [apply N.mod_lt; lia|done]. Qed.

Lemma of_be_bytes_acc_spec acc l :
  of_be_bytes_acc acc l = (acc * 256 ^ N.of_nat (length l) + of_be_bytes_acc 0 l)%N.
Proof.
  revert acc; induction l as [|b l IH]; intros acc; cbn [of_be_bytes_acc length].
  - cbn. lia.
  - rewrite IH, (IH (0 * 256 + b)%N), Nat2N.inj_succ, N.pow_succ_r'. lia.
Qed.

Lemma of_be_bytes_cons b l :
  of_be_bytes (b :: l) = (b * 256 ^ N.of_nat (length l) + of_be_bytes l)%N.
Proof. unfold of_be_bytes; cbn. by rewrite of_be_bytes_acc_spec. Qed.

Lemma of_be_bytes_be n x : of_be_bytes (be_bytes n x) = (x mod 256 ^ N.of_nat n)%N.
Proof.
  induction n as [|n IH]; [by rewrite N.mod_1_r|].
  cbn [be_bytes]. rewrite of_be_bytes_cons, be_bytes_length, IH, Nat2N.inj_succ, N.pow_succ_r'.
  set (p := (256 ^ N.of_nat n)%N). assert (p ≠ 0)%N by (apply N.pow_nonzero; lia).
  rewrite (N.mul_comm 256 p), N.Div0.mod_mul_r. lia.
Qed.

Lemma of_be_bytes_lt l : byte_list l → (of_be_bytes l < 256 ^ N.of_nat (length l))%N.
Proof.
  induction 1 as [|b l Hb Hl IH]; [cbn; lia|].
  cbn [length]. rewrite of_be_bytes_cons, Nat2N.inj_succ, N.pow_succ_r'. nia.
Qed.

Lemma be_bytes_of_be l : byte_list l → be_bytes (length l) (of_be_bytes l) = l.
Proof.
  assert (∀ l m, byte_list l → be_bytes (length l) (m * 256 ^ N.of_nat (length l) + of_be_bytes l) = l)%N
    as Hgen.
  { clear l. induction l as [|b l IH]; intros m Hl; [done|].
    apply Forall_cons in Hl as [Hb Hl]. cbn [length be_bytes].
    rewrite of_be_bytes_cons, Nat2N.inj_succ, N.pow_succ_r'.
    set (p := (256 ^ N.of_nat (length l))%N). assert (p ≠ 0)%N by (apply N.pow_nonzero; lia).
    pose proof (of_be_bytes_lt l Hl) as Hlt. fold p in Hlt.
    f_equal.
    - replace (m * (256 * p) + (b * p + of_be_bytes l))%N
        with (of_be_bytes l + (m * 256 + b) * p)%N by lia.
      rewrite N.div_add, (N.div_small _ p), N.add_0_l by done.
      rewrite N.add_comm, N.Div0.mod_add. by apply N.mod_small.
    - replace (m * (256 * p) + (b * p + of_be_bytes l))%N
        with ((m * 256 + b) * p + of_be_bytes l)%N by lia. by apply IH. }
  intros Hl. by specialize (Hgen l 0%N Hl).
Qed.

Lemma be_bytes_inj n x y :
  (x < 256 ^ N.of_nat n → y < 256 ^ N.of_nat n → be_bytes n x = be_bytes n y → x = y)%N.
Proof.
  intros Hx Hy Heq. rewrite <- (N.mod_small x (256 ^ N.of_nat n)), <- (N.mod_small y (256 ^ N.of_nat n)) by done.
  by rewrite <- !of_be_bytes_be, Heq.
Qed.

Lemma list_cmp_app {A} `{TotalOrd A} (l1 k1 l2 k2 : list A) :
  length l1 = length k1 →
  list_cmp (l1 ++ l2) (k1 ++ k2) = then_cmp (list_cmp l1 k1) (list_cmp l2 k2).
Proof.
  revert k1; induction l1 as [|x l1 IH]; intros [|y k1]; cbn; try done.
  intros [= Hlen]. rewrite IH by done. by destruct (cmp x y).
Qed.

(** Big-endian bytes compare like the integers they encode. *)
Lemma be_bytes_cmp n x y :
  (x < 256 ^ N.of_nat n → y < 256 ^ N.of_nat n →
   list_cmp (be_bytes n x) (be_bytes n y) = N.compare x y)%N.
Proof.
  intros Hx Hy.
  assert (∀ n, list_cmp (be_bytes n x) (be_bytes n y)
    = N.compare (x mod 256 ^ N.of_nat n) (y mod 256 ^ N.of_nat n))%N as Hgen;
    [|by rewrite Hgen, !N.mod_small].
  clear. induction n as [|n IH]; [by rewrite !N.mod_1_r|].
  cbn [be_bytes list_cmp]. rewrite IH, Nat2N.inj_succ, N.pow_succ_r'. clear IH.
  set (p := (256 ^ N.of_nat n)%N). assert (p ≠ 0)%N by (apply N.pow_nonzero; lia).
  rewrite (N.mul_comm 256 p), !N.Div0.mod_mul_r. unfold cmp, N_ord.
  assert (x mod p < p)%N by (by apply N.mod_lt). assert (y mod p < p)%N by (by apply N.mod_lt).
  generalize dependent (x mod p)%N; intros u Hu. generalize dependent (y mod p)%N; intros v Hv.
  generalize ((x / p) mod 256)%N as a, ((y / p) mod 256)%N as b; intros a b.
  destruct (N.compare_spec a b) as [->|Hab|Hab]; cbn; symmetry.
  - destruct (N.compare_spec u v) as [->| |];
      [apply N.compare_eq_iff|apply N.compare_lt_iff|apply N.compare_gt_iff]; lia.
  - apply N.compare_lt_iff. assert (p * (a + 1) ≤ p * b)%N by (apply N.mul_le_mono_l; lia). lia.
  - apply N.compare_gt_iff. assert (p * (b + 1) ≤ p * a)%N by (apply N.mul_le_mono_l; lia). lia.
Qed.

(** ** Stateful fallible code

    A method that mutates the store through [&self] and returns a [Result]:
    what was committed before an error stays committed. *)

Definition stm (S E A : Type) : Type := S → S * outcome E A.
Definition st_ret {S E A} (a : A) : stm S E A := λ s, (s, Ok a).
Definition st_err {S E A} (e : E) : stm S E A := λ s, (s, Err e).
Definition st_bind {S E A B} (m : stm S E A) (f : A → stm S E B) : stm S E B := λ s,
  match m s with
  | (s', Ok a) => f a s'
  | (s', Err e) => (s', Err e)
  | (s', Panic) => (s', Panic)
  end.
(** A step that only reads the state. *)
Definition st_read {S E A} (f : S → outcome E A) : stm S E A := λ s, (s, f s).
(** A step that replaces the state when it succeeds. *)
Definition st_update {S E} (f : S → outcome E S) : stm S E () := λ s,
  match f s with Ok s' => (s', Ok ()) | Err e => (s, Err e) | Panic => (s, Panic) end.

(** A step that replaces the state and returns a value when it succeeds. *)
Definition st_exec {S E A} (f : S → outcome E (A * S)) : stm S E A := λ s,
  match f s with Ok (a, s') => (s', Ok a) | Err e => (s, Err e) | Panic => (s, Panic) end.

Notation "x ⇐ m ; k" := (st_bind m (λ x, k))
  (at level 20, m at level 100, k at level 200, right associativity) : craqle_scope.

(** [while] with a loop state: [step] until it is done, at most [2 ^ d] times. *)
Fixpoint st_loop {S E A B} (d : nat) (step : A → stm S E (A + B)) (a : A) : stm S E (A + B) :=
  match d with
  | O => step a
  | S d => st_bind (st_loop d step a) (λ r, match r with inl a => st_loop d step a | inr b => st_ret (inr b) end)
  end.

Lemma st_bind_ok {S E A B} (m : stm S E A) (f : A → stm S E B) s s' b :
  st_bind m f s = (s', Ok b) ↔ ∃ s1 a, m s = (s1, Ok a) ∧ f a s1 = (s', Ok b).
Proof. unfold st_bind. destruct (m s) as [s1 [a|e|]]; naive_solver. Qed.

Lemma st_read_ok {S E A} (f : S → outcome E A) s s' a :
  st_read f s = (s', Ok a) ↔ s' = s ∧ f s = Ok a.
Proof. unfold st_read. split; [by intros [= <- <-]|by intros [-> ->]]. Qed.

Lemma st_update_ok {S E} (f : S → outcome E S) s s' u :
  st_update f s = (s', Ok u) ↔ f s = Ok s'.
Proof. destruct u. unfold st_update. destruct (f s); naive_solver. Qed.

Lemma st_exec_ok {S E A} (f : S → outcome E (A * S)) s s' a :
  st_exec f s = (s', Ok a) ↔ f s = Ok (a, s').
Proof. unfold st_exec. destruct (f s) as [[]| |]; naive_solver. Qed.

Lemma map_err_ok {E F A} (f : E → F) (m : outcome E A) a : map_err f m = Ok a ↔ m = Ok a.
Proof. destruct m; naive_solver. Qed.

(** A fold whose steps commute does not depend on the order of its list. *)
Lemma foldl_perm {S A} (f : S → A → S) l k s :
  (∀ s x y, f (f s x) y = f (f s y) x) → l ≡ₚ k → foldl f s l = foldl f s k.
Proof.
  intros Hf Hlk. revert s. induction Hlk as [|x l k _ IH|x y l|l k m _ IH1 _ IH2]; intros s; cbn.
  - done.
  - apply IH.
  - by rewrite Hf.
  - by rewrite IH1, IH2.
Qed.

(** [retain] that drops nothing. *)
Lemma filter_length_eq {A} (P : A → Prop) `{∀ x, Decision (P x)} (l : list A) :
  length l = length (filter P l) → filter P l = l.
Proof.
  induction l as [|x l IH]; [done|]. rewrite filter_cons. case_decide; cbn.
  - intros [= Hl]. f_equal. auto.
  - intros Hl. pose proof (length_filter P l). lia.
Qed.

(** A loop that returns ran every iteration. *)
Lemma cons_all {A} (P : A → Prop) x l : (∀ y, y ∈ x :: l → P y) ↔ P x ∧ ∀ y, y ∈ l → P y.
Proof. setoid_rewrite elem_of_cons. naive_solver. Qed.

(** A loop of steps that cannot fail; its invariant speaks of the part of the
    list it has read. *)
Lemma try_fold_ok {E S A} (f : S → A → outcome E S) (I : list A → S → Prop) l s :
  I [] s → (∀ pre x s, x ∈ l → I pre s → ∃ s', f s x = Ok s' ∧ I (pre ++ [x]) s') →
  ∃ s', try_fold f s l = Ok s' ∧ I l s'.
Proof.
  enough (∀ pre s, I pre s → (∀ pre x s, x ∈ l → I pre s → ∃ s', f s x = Ok s' ∧ I (pre ++ [x]) s') →
    ∃ s', try_fold f s l = Ok s' ∧ I (pre ++ l) s') as Hl by exact (Hl [] s).
  clear s. induction l as [|x l IH]; intros pre s Hs Hf; cbn [try_fold].
  - exists s. by rewrite app_nil_r.
  - destruct (Hf pre x s ltac:(by left) Hs) as (s' & -> & Hs'). cbn.
    rewrite (cons_middle x pre l), app_assoc. apply IH; [done|]. intros pre' y s'' Hy. apply Hf. by right.
Qed.

Lemma try_fold_forall {E S A} (f : S → A → outcome E S) s l s' :
  try_fold f s l = Ok s' → Forall (λ x, ∃ s1 s2, f s1 x = Ok s2) l.
Proof.
  revert s; induction l as [|x l IH]; intros s; cbn; [constructor|].
  intros (s1 & E1 & E2)%bind_ok. constructor; eauto.
Qed.

Lemma filter_all {A} (P : A → Prop) `{∀ x, Decision (P x)} (l : list A) :
  Forall P l → filter P l = l.
Proof. induction 1 as [|x l Hx _ IH]; [done|]. rewrite filter_cons, decide_True by done. by f_equal. Qed.

Lemma filter_ext_in {A} (P Q : A → Prop) `{∀ x, Decision (P x)} `{∀ x, Decision (Q x)} (l : list A) :
  (∀ x, x ∈ l → P x ↔ Q x) → filter P l = filter Q l.
Proof.
  induction l as [|x l IH]; intros Hl; [done|].
  assert (P x ↔ Q x) as Hx by (apply Hl; by left).
  rewrite !filter_cons, IH by (intros y Hy; apply Hl; by right).
  destruct (decide (P x)); [by rewrite decide_True by tauto|by rewrite decide_False by tauto].
Qed.

(** ** Sizes of sets *)

Lemma size_list_le `{Countable A} (l : list A) : size (list_to_set l : gset A) ≤ length l.
Proof.
  induction l as [|x l IH]; cbn; [done|]. rewrite size_union_alt, size_singleton.
  assert (size ((list_to_set l : gset A) ∖ {[x]}) ≤ size (list_to_set l : gset A)); [|lia]. apply subseteq_size. set_solver.
Qed.

(** A set has at most the elements of one it is the image of. *)
Lemma size_image `{Countable A} `{Countable B} (f : A → option B) (X : gset A) (Y : gset B) :
  (∀ y, y ∈ Y → ∃ x, x ∈ X ∧ f x = Some y) → size Y ≤ size X.
Proof.
  intros HY. transitivity (size (list_to_set (omap f (elements X)) : gset B)).
  - apply subseteq_size. intros y Hy. destruct (HY y Hy) as (x & Hx & Hf).
    apply elem_of_list_to_set, list_elem_of_omap. exists x. split; [by apply elem_of_elements|done].
  - etransitivity; [apply size_list_le|]. unfold size, set_size. cbn. generalize (elements X). intros l.
    induction l as [|x l IH]; cbn; [done|]. destruct (f x); cbn; lia.
Qed.
