(* ===== verification/Clock.v ===== *)
(** * Replication data model ([src/internal/core.rs])

    Actors, dots, vector clocks, the last-writer-wins tags, quad operations,
    batches and replica snapshots, with the operations [core.rs] defines on
    them.  An [ActorId] or an [EventId] is 32 bytes, kept as the 256-bit integer
    those bytes denote big-endian; the derived order of the byte array is the
    order of that integer ([be_bytes_cmp] in [Prelude]).  A [GraphId] is its IRI
    and an [EncodedTerm] its N-Triples text. *)

From S2P Require Import Prelude.
From stdpp Require Import pretty.
From Stdlib Require Import Ascii.

(** ** Data *)

Abbreviation GraphId := string (only parsing).
Abbreviation EncodedTerm := string (only parsing).
Abbreviation ActorId := N (only parsing).
Abbreviation EventId := N (only parsing).

(** Display of an [ActorId] or [EventId]: two lower-case hex digits a byte. *)
Definition hex_digit (d : N) : N := if decide (d < 10)%N then (48 + d)%N else (87 + d)%N.
Definition hex_display (l : bytes) : bytes :=
  l ≫= λ b, [hex_digit (b / 16); hex_digit (b mod 16)]%N.
Definition id_display (x : N) : bytes := hex_display (be_bytes 32 x).

Record Dot := { dot_actor : ActorId; dot_counter : N }.
#[export] Instance dot_eq_dec : EqDecision Dot.
Proof. solve_decision. Defined.
#[export] Program Instance dot_countable : Countable Dot :=
  inj_countable' (λ d, (dot_actor d, dot_counter d)) (λ p, {| dot_actor := p.1; dot_counter := p.2 |}) _.
Next Obligation. by intros []. Qed.

(** The key [normalize_dots] of [store.rs] sorts by: [(actor, counter)]. *)
Definition dot_key (d : Dot) : ActorId * N := (dot_actor d, dot_counter d).
#[export] Instance dot_ord : Ord Dot := λ d e, cmp (dot_key d) (dot_key e).
#[export] Instance dot_total_ord : TotalOrd Dot.
Proof.
  split.
  - intros [a c] [b d]. etrans; [apply (cmp_eq_iff (dot_key _) (dot_key _))|].
    unfold dot_key; cbn. naive_solver.
  - intros d e. exact (cmp_opp (dot_key d) (dot_key e)).
  - intros d e f. exact (cmp_lt_trans (dot_key d) (dot_key e) (dot_key f)).
Qed.

(** ** Vector clocks *)

Module VectorClock.
Abbreviation t := (gmap ActorId N) (only parsing).

Definition new : t := ∅.

Definition advance (actor : ActorId) (counter : N) (vc : t) : t :=
  <[actor := N.max (default 0%N (vc !! actor)) counter]> vc.

Definition contains (vc : t) (dot : Dot) : bool :=
  match vc !! dot_actor dot with
  | Some seen => bool_decide (dot_counter dot ≤ seen)%N
  | None => false
  end.

Definition merge (vc other : t) : t :=
  foldl (λ acc ac, advance ac.1 ac.2 acc) vc (btree_iter other).
End VectorClock.
Arguments VectorClock.advance : simpl never.
Arguments VectorClock.contains : simpl never.
Arguments VectorClock.merge : simpl never.

(** [missing_dots] of [sync.rs]: every dot a claimed context holds that [known]
    does not cover. *)
Definition missing_dots (claim known : VectorClock.t) : list Dot :=
  filter (λ d, VectorClock.contains known d = false)
    ((λ ac, {| dot_actor := ac.1; dot_counter := ac.2 |}) <$> btree_iter claim).

(** ** Last-writer-wins tags *)

Record Tag := { tag_counter : N; tag_actor : ActorId }.
#[export] Instance tag_eq_dec : EqDecision Tag.
Proof. solve_decision. Defined.

(** Field order of the derived [Ord]: the counter, then the actor. *)
#[export] Instance tag_ord : Ord Tag := λ s t,
  cmp (tag_counter s, tag_actor s) (tag_counter t, tag_actor t).
#[export] Instance tag_total_ord : TotalOrd Tag.
Proof.
  split.
  - intros [c a] [d b]. etrans; [apply (cmp_eq_iff (c, a) (d, b))|]. naive_solver.
  - intros s t. exact (cmp_opp (tag_counter s, tag_actor s) (tag_counter t, tag_actor t)).
  - intros s t u. exact (cmp_lt_trans (tag_counter s, tag_actor s) (tag_counter t, tag_actor t)
      (tag_counter u, tag_actor u)).
Qed.

Module ContextTag.
Definition GENESIS : Tag := {| tag_counter := 0%N; tag_actor := 0%N |}.
Definition next_local (previous : Tag) (actor : ActorId) : Tag :=
  {| tag_counter := sat_add 64%N (tag_counter previous) 1%N; tag_actor := actor |}.
End ContextTag.

Module PolicyTag.
Definition GENESIS : Tag := {| tag_counter := 0%N; tag_actor := 0%N |}.
Definition next_local (previous : Tag) (actor : ActorId) : Tag :=
  {| tag_counter := sat_add 64%N (tag_counter previous) 1%N; tag_actor := actor |}.
End PolicyTag.

Record CrateRenderHints := {
  hints_context : option string;
  hints_license : option string;
  hints_license_digest : option bytes;
}.
Record TaggedRenderHints := { tagged_hints : CrateRenderHints; hints_tag : Tag }.

Record GraphTombstone := {
  tomb_graph : GraphId;
  delete_event : EventId;
  delete_actor : ActorId;
  delete_clock : VectorClock.t;
}.

(** The bytes [EventId::graph_delete] hashes, in the order it feeds them. *)
Definition graph_delete_message (graph : GraphId) (actor : ActorId) (clock : VectorClock.t) : bytes :=
  string_bytes graph ++ be_bytes 32 actor ++
  (btree_iter clock ≫= λ ac, be_bytes 32 ac.1 ++ be_bytes 8 ac.2).

(** [blake3] is not code of the repository: the digest is an argument. *)
Definition graph_delete (blake3_derive : string → bytes → EventId)
    (graph : GraphId) (actor : ActorId) (clock : VectorClock.t) : EventId :=
  blake3_derive "craqle-graph-delete-v1"%string (graph_delete_message graph actor clock).

(** ** Operations and batches *)

Inductive QuadOp :=
  | Add (subject predicate object : EncodedTerm) (dot : Dot)
  | Remove (subject predicate object : EncodedTerm) (witnessed : VectorClock.t).

Record Batch := {
  batch_graph : GraphId;
  batch_actor : ActorId;
  batch_counter : N;
  base_clock : VectorClock.t;
  batch_ops : list QuadOp;
  batch_timestamp : Z;
}.

Inductive MaterializedQuadChange :=
  | Insert (graph : GraphId) (subject predicate object : EncodedTerm)
  | Delete (graph : GraphId) (subject predicate object : EncodedTerm).

Record CrossGraphChange := { expected : GraphId; actual : GraphId }.

Definition change_graph (c : MaterializedQuadChange) : GraphId :=
  match c with Insert g _ _ _ | Delete g _ _ _ => g end.

Definition ensure_change_graph (exp act : GraphId) : outcome CrossGraphChange () :=
  if decide (exp = act) then Ok () else Err {| expected := exp; actual := act |}.

(** The loop body of [Batch::from_changes], pushing on [ops]. *)
Definition from_changes_step (graph : GraphId) (dot : Dot) (base : VectorClock.t)
    (ops : list QuadOp) (change : MaterializedQuadChange) : outcome CrossGraphChange (list QuadOp) :=
  match change with
  | Insert g s p o => _ ← ensure_change_graph graph g; Ok (ops ++ [Add s p o dot])
  | Delete g s p o => _ ← ensure_change_graph graph g; Ok (ops ++ [Remove s p o base])
  end.

Definition from_changes (graph : GraphId) (actor : ActorId) (counter : N) (base : VectorClock.t)
    (changes : list MaterializedQuadChange) (timestamp : Z) : outcome CrossGraphChange Batch :=
  let dot := {| dot_actor := actor; dot_counter := counter |} in
  ops ← try_fold (from_changes_step graph dot base) [] changes;
  Ok {| batch_graph := graph; batch_actor := actor; batch_counter := counter;
        base_clock := base; batch_ops := ops; batch_timestamp := timestamp |}.

Record SnapshotQuadState := {
  sq_subject : EncodedTerm; sq_predicate : EncodedTerm; sq_object : EncodedTerm;
  sq_dots : list Dot;
}.
Record GraphReplicaSnapshot := {
  snap_graph : GraphId;
  snap_clock : VectorClock.t;
  snap_quads : list SnapshotQuadState;
}.

(** ** Structural violations *)

Record CrateViolation := {
  code : string; message : string; pointer : string; entity_id : option string;
}.

#[local] Open Scope string_scope.

(** [strip_prefix('<')] then [strip_suffix('>')], else the whole text. *)
Definition strip_suffix_gt (s : string) : option string :=
  match rev (String.list_ascii_of_string s) with
  | (">"%char :: r)%list => Some (String.string_of_list_ascii (rev r))
  | _ => None
  end.
Definition violation_entity_id (e : string) : string :=
  match e with
  | String "<"%char e' => default e (strip_suffix_gt e')
  | _ => e
  end.

Module CrateViolation.
Definition missing_root (ptr : string) : CrateViolation :=
  {| code := "missing_root_data_entity";
     message := "missing root data entity (<./> rdf:type schema:Dataset)";
     pointer := ptr; entity_id := None |}.
Definition missing_descriptor (ptr : string) : CrateViolation :=
  {| code := "missing_metadata_descriptor";
     message := "missing metadata descriptor (ro-crate-metadata.json)";
     pointer := ptr; entity_id := Some "ro-crate-metadata.json" |}.
Definition missing_property (entity property ptr : string) : CrateViolation :=
  {| code := "missing_required_property";
     message := "missing required property `" +:+ property +:+ "` on entity `" +:+ entity +:+ "`";
     pointer := ptr; entity_id := Some entity |}.
Definition orphaned (id ptr : string) : CrateViolation :=
  let id := violation_entity_id id in
  {| code := "orphaned_data_entity";
     message := "orphaned data entity `" +:+ id +:+ "` not reachable from root";
     pointer := ptr; entity_id := Some id |}.
Definition invalid_date (count : nat) (ptr : string) : CrateViolation :=
  {| code := "invalid_date_published_cardinality";
     message := "datePublished must have exactly one value, found " +:+ pretty count;
     pointer := ptr; entity_id := None |}.
Definition invalid_date_lexical (ptr : string) : CrateViolation :=
  {| code := "invalid_date_published_lexical_value";
     message := "datePublished must be a lexically and calendrically valid date or dateTime";
     pointer := ptr; entity_id := None |}.
Definition missing_type (id ptr : string) : CrateViolation :=
  let id := violation_entity_id id in
  {| code := "entity_missing_type";
     message := "entity `" +:+ id +:+ "` is missing rdf:type";
     pointer := ptr; entity_id := Some id |}.
End CrateViolation.

(** ** Diagnostics and policies *)

Record GraphDiagnostics := { orphaned_entities : list string }.
Definition from_orphaned_entities (l : list string) : GraphDiagnostics :=
  {| orphaned_entities := dedup (sort l) |}.
Definition has_orphans (d : GraphDiagnostics) : bool :=
  bool_decide (orphaned_entities d ≠ []).

Record GraphPolicy := { public : bool; permission_paths : list string }.
Definition normalized (p : GraphPolicy) : GraphPolicy :=
  {| public := public p; permission_paths := dedup (sort (permission_paths p)) |}.
Record TaggedGraphPolicy := { policy : GraphPolicy; policy_tag : Tag }.

Module vocab.
Definition rdf_type := "http://www.w3.org/1999/02/22-rdf-syntax-ns#type".
Definition schema_dataset := "http://schema.org/Dataset".
Definition schema_creative_work := "http://schema.org/CreativeWork".
Definition schema_name := "http://schema.org/name".
Definition schema_description := "http://schema.org/description".
Definition schema_date_published := "http://schema.org/datePublished".
Definition schema_license := "http://schema.org/license".
Definition schema_has_part := "http://schema.org/hasPart".
Definition schema_about := "http://schema.org/about".
Definition schema_conforms_to := "http://schema.org/conformsTo".
Definition schema_media_object := "http://schema.org/MediaObject".
Definition schema_keywords := "http://schema.org/keywords".
Definition schema_identifier := "http://schema.org/identifier".
Definition metadata_descriptor := "ro-crate-metadata.json".
End vocab.

Definition PredicateFilter_default : list string :=
  ["http://schema.org/name"; "http://schema.org/description"; "http://schema.org/keywords"].

(** The serialised shape of a 64-byte quad cursor ([quad_cursor] in [core.rs]):
    two 32-byte halves. *)
Definition quad_cursor_serialize (value : option bytes) : option (bytes * bytes) :=
  (λ b, (take 32 b, drop 32 b)) <$> value.
Definition quad_cursor_deserialize (parts : option (bytes * bytes)) : option bytes :=
  (λ p, p.1 ++ p.2)%list <$> parts.
#[local] Close Scope string_scope.

(** ** Facts about clocks *)

(** Pointwise maximum of two optional counters, a missing one being below
    every other. *)
Definition counter_join : option N → option N → option N :=
  union_with (λ x y, Some (N.max x y)).

(** The clock order: every dot [a] covers, [b] covers. *)
Definition clock_le (a b : VectorClock.t) : Prop :=
  ∀ d, VectorClock.contains a d = true → VectorClock.contains b d = true.

Section clocks.
Implicit Types (a b c : VectorClock.t) (d : Dot).
Import VectorClock.

Lemma lookup_advance actor n a x :
  advance actor n a !! x =
    if decide (x = actor) then Some (N.max (default 0%N (a !! x)) n) else a !! x.
Proof.
  unfold advance. case_decide as Hx; [subst; by rewrite lookup_insert_eq|].
  by rewrite lookup_insert_ne.
Qed.

Lemma lookup_advance_join actor n a x :
  advance actor n a !! x = counter_join (a !! x) (({[actor := n]} : t) !! x).
Proof.
  rewrite lookup_advance. unfold counter_join. case_decide as Hx.
  - subst. rewrite lookup_singleton_eq. destruct (a !! actor); cbn; [done|]. f_equal. lia.
  - rewrite lookup_singleton_ne by done. by destruct (a !! x).
Qed.

Lemma counter_join_assoc x y z :
  counter_join x (counter_join y z) = counter_join (counter_join x y) z.
Proof. destruct x, y, z; cbn; try done. f_equal. lia. Qed.

Lemma lookup_advance_fold l a x :
  NoDup l.*1 →
  foldl (λ acc ac, advance ac.1 ac.2 acc) a l !! x
    = counter_join (a !! x) ((list_to_map l : t) !! x).
Proof.
  revert a; induction l as [|[k n] l IH]; intros a; cbn.
  { intros _. rewrite lookup_empty. by destruct (a !! x). }
  intros [Hk Hl]%NoDup_cons. rewrite IH, lookup_advance_join, <- counter_join_assoc by done.
  f_equal. destruct (decide (x = k)) as [->|Hx].
  - rewrite lookup_singleton_eq, lookup_insert_eq.
    by rewrite (not_elem_of_list_to_map_1 l k).
  - rewrite lookup_singleton_ne, lookup_insert_ne by done. by destruct (list_to_map l !! x).
Qed.

Lemma lookup_merge a b x : merge a b !! x = counter_join (a !! x) (b !! x).
Proof.
  unfold merge. rewrite lookup_advance_fold by apply btree_iter_nodup.
  by rewrite list_to_map_btree_iter.
Qed.

Lemma contains_spec a d :
  contains a d = true ↔ ∃ n, a !! dot_actor d = Some n ∧ (dot_counter d ≤ n)%N.
Proof.
  unfold contains. destruct (a !! dot_actor d); [rewrite bool_decide_eq_true|]; naive_solver.
Qed.

Lemma contains_merge a b d : contains (merge a b) d = contains a d || contains b d.
Proof.
  apply eq_bool_prop_intro. rewrite orb_True, !Is_true_true, !contains_spec.
  rewrite lookup_merge. unfold counter_join.
  destruct (a !! _) as [n|], (b !! _) as [m|]; cbn;
    split; (intros (k & [= <-] & Hk) || intros [(k & [= <-] & Hk)|(k & [= <-] & Hk)]); eauto.
  - destruct (decide (dot_counter d ≤ n)%N); [left|right]; eexists; split; eauto; lia.
  - eexists; split; [done|lia].
  - eexists; split; [done|lia].
Qed.

Lemma contains_advance x n a d :
  contains (advance x n a) d = true ↔
    contains a d = true ∨ (dot_actor d = x ∧ (dot_counter d ≤ n)%N).
Proof.
  rewrite !contains_spec, lookup_advance. case_decide as Hx.
  - subst. destruct (a !! dot_actor d) as [m|]; cbn; split.
    + intros (k & [= <-] & Hk). destruct (decide (dot_counter d ≤ m)%N); [|right; split; [done|lia]].
      left. eauto.
    + intros [(k & [= <-] & Hk)|[_ Hk]]; eexists; (split; [done|lia]).
    + intros (k & [= <-] & Hk). right; split; [done|lia].
    + intros [(k & [=] & Hk)|[_ Hk]]; eexists; (split; [done|lia]).
  - naive_solver.
Qed.

#[export] Instance clock_le_preorder : PreOrder clock_le.
Proof. split; [by intros a d|]. intros a b c Hab Hbc d Hd. auto. Qed.

Lemma clock_le_merge_l a b : clock_le a (merge a b).
Proof. intros d Hd. by rewrite contains_merge, Hd. Qed.
Lemma clock_le_merge_r a b : clock_le b (merge a b).
Proof. intros d Hd. by rewrite contains_merge, Hd, orb_true_r. Qed.
Lemma clock_le_advance x n a : clock_le a (advance x n a).
Proof. intros d Hd. apply contains_advance. by left. Qed.

(** The order is the pointwise order of the counters. *)
Lemma clock_le_pointwise a b :
  clock_le a b ↔ ∀ x n, a !! x = Some n → ∃ m, b !! x = Some m ∧ (n ≤ m)%N.
Proof.
  split.
  - intros Hab x n Hx. apply (contains_spec b {| dot_actor := x; dot_counter := n |}), Hab.
    apply contains_spec; eauto.
  - intros Hab d. rewrite !contains_spec. intros (n & Hn & Hd).
    destruct (Hab _ _ Hn) as (m & Hm & ?). exists m. split; [done|lia].
Qed.

#[export] Instance clock_le_antisymm : AntiSymm (=) clock_le.
Proof.
  intros a b Hab Hba. rewrite !clock_le_pointwise in *. apply map_eq. intros x.
  destruct (a !! x) as [n|] eqn:Ha.
  - destruct (Hab _ _ Ha) as (m & Hm & ?), (Hba _ _ Hm) as (k & Hk & ?).
    rewrite Hm. f_equal. simplify_eq. lia.
  - destruct (b !! x) as [m|] eqn:Hb; [|done]. destruct (Hba _ _ Hb) as (k & ? & _). congruence.
Qed.

Lemma elem_of_missing_dots d a b :
  d ∈ missing_dots a b ↔ a !! dot_actor d = Some (dot_counter d) ∧ contains b d = false.
Proof.
  unfold missing_dots. rewrite list_elem_of_filter, list_elem_of_fmap. split.
  - intros (Hb & [x n] & -> & Hin%elem_of_btree_iter). auto.
  - intros (Ha & Hb). split; [done|]. exists (dot_actor d, dot_counter d).
    rewrite elem_of_btree_iter. by destruct d.
Qed.

Lemma missing_dots_nil a b : missing_dots a b = [] ↔ clock_le a b.
Proof.
  rewrite clock_le_pointwise. split.
  - intros Hm x n Hx. apply (contains_spec b {| dot_actor := x; dot_counter := n |}).
    destruct (contains b _) eqn:E; [done|].
    assert ({| dot_actor := x; dot_counter := n |} ∈ missing_dots a b) as Hin
      by by apply elem_of_missing_dots.
    rewrite Hm in Hin. by apply elem_of_nil in Hin.
  - intros Hab. destruct (missing_dots a b) as [|d l] eqn:E; [done|].
    assert (d ∈ missing_dots a b) as Hin by (rewrite E; by left).
    apply elem_of_missing_dots in Hin as [Ha Hb].
    apply Hab, (contains_spec b d) in Ha. congruence.
Qed.

Lemma merge_idem a : merge a a = a.
Proof. apply map_eq; intros x. rewrite lookup_merge. destruct (a !! x); cbn; [|done]. f_equal. lia. Qed.
Lemma merge_comm a b : merge a b = merge b a.
Proof.
  apply map_eq; intros x. rewrite !lookup_merge. destruct (a !! x), (b !! x); cbn; try done. f_equal. lia.
Qed.
Lemma merge_assoc a b c : merge a (merge b c) = merge (merge a b) c.
Proof. apply map_eq; intros x. rewrite !lookup_merge. apply counter_join_assoc. Qed.

Lemma advance_comm x n y m a : advance x n (advance y m a) = advance y m (advance x n a).
Proof.
  apply map_eq; intros z. rewrite !lookup_advance.
  repeat case_decide; subst; cbn; try done. f_equal. lia.
Qed.

(** The clock merge is the join of the clock order: commutative, associative,
    idempotent, an upper bound of both clocks and below every other one; and
    [missing_dots] decides that order. *)
Theorem merge_is_join a b c :
  merge a b = merge b a ∧
  merge a (merge b c) = merge (merge a b) c ∧
  merge a a = a ∧
  (missing_dots (merge a b) c = [] ↔ missing_dots a c = [] ∧ missing_dots b c = []).
Proof.
  split; [apply merge_comm|]. split; [apply merge_assoc|]. split; [apply merge_idem|].
  rewrite !missing_dots_nil. split.
  - intros Hc. split; (etrans; [|exact Hc]); [apply clock_le_merge_l|apply clock_le_merge_r].
  - intros [Ha Hb] d. rewrite contains_merge, orb_true_iff. intros [|]; auto.
Qed.
End clocks.

#[export] Hint Resolve clock_le_merge_l clock_le_merge_r clock_le_advance : craqle.

(** ** Batches *)

(** The operation a change becomes in a batch with this dot and base clock. *)
Definition change_op (dot : Dot) (base : VectorClock.t) (c : MaterializedQuadChange) : QuadOp :=
  match c with
  | Insert _ s p o => Add s p o dot
  | Delete _ s p o => Remove s p o base
  end.

Lemma from_changes_loop graph dot base changes acc :
  try_fold (from_changes_step graph dot base) acc changes =
    match list_find (λ c, change_graph c ≠ graph) changes with
    | Some (_, c) => Err {| expected := graph; actual := change_graph c |}
    | None => Ok (acc ++ (change_op dot base <$> changes))
    end.
Proof.
  revert acc; induction changes as [|c l IH]; intros acc; cbn; [by rewrite app_nil_r|].
  assert (from_changes_step graph dot base acc c =
    if decide (graph = change_graph c) then Ok (acc ++ [change_op dot base c])
    else Err {| expected := graph; actual := change_graph c |}) as ->
    by (destruct c; cbn; unfold ensure_change_graph; by case_decide).
  destruct (decide (graph = change_graph c)) as [Hg|Hg]; cbn.
  - rewrite IH, decide_False by naive_solver.
    destruct (list_find _ l) as [[]|]; cbn; by rewrite <- ?app_assoc.
  - by rewrite decide_True by naive_solver.
Qed.

(** [Batch::from_changes] keeps every change, in order, inserts carrying the
    batch's own dot and deletes witnessing exactly the base clock; it fails
    exactly on a change of another graph, naming the first one. *)
Theorem from_changes_spec graph actor counter base changes ts :
  from_changes graph actor counter base changes ts =
    match list_find (λ c, change_graph c ≠ graph) changes with
    | Some (_, c) => Err {| expected := graph; actual := change_graph c |}
    | None => Ok {| batch_graph := graph; batch_actor := actor; batch_counter := counter;
                    base_clock := base;
                    batch_ops := change_op {| dot_actor := actor; dot_counter := counter |} base <$> changes;
                    batch_timestamp := ts |}
    end.
Proof.
  unfold from_changes. rewrite from_changes_loop. by destruct (list_find _ changes) as [[]|].
Qed.

(** A local context or policy write strictly dominates the tag it replaces until
    the counter saturates; at the maximum counter only the actor orders it. *)
Theorem next_local_dominates previous actor :
  (tag_counter previous < u64_max)%N →
  cmp_lt previous (ContextTag.next_local previous actor) ∧
  cmp_lt previous (PolicyTag.next_local previous actor) ∧
  cmp_lt ContextTag.GENESIS (ContextTag.next_local previous actor).
Proof.
  intros Hc. unfold cmp_lt, cmp, tag_ord, cmp, prod_ord, cmp, N_ord; cbn -[N.compare sat_add].
  rewrite sat_add_exact by (cbn in *; lia).
  assert (N.compare (tag_counter previous) (tag_counter previous + 1) = Lt)%N as Hlt
    by (apply N.compare_lt_iff; lia).
  assert (N.compare 0 (tag_counter previous + 1) = Lt)%N as Hz by (apply N.compare_lt_iff; lia).
  by rewrite Hlt, Hz.
Qed.

Example next_local_dominates_witness :
  cmp_lt {| tag_counter := 7%N; tag_actor := 3%N |}
    (ContextTag.next_local {| tag_counter := 7%N; tag_actor := 3%N |} 1%N).
Proof. apply (next_local_dominates {| tag_counter := 7%N; tag_actor := 3%N |} 1%N). reflexivity. Defined.
