(* ===== verification/Terms.v ===== *)
(** * Encoded RDF terms ([src/internal/core.rs], [src/sync.rs])

    The N-Triples texts the store keeps: their constructors, the parser
    [to_term] with its literal reader, the canonical spelling, and the admission
    check [check_term] of the synchronisation layer.  Texts are bytes (UTF-8); a
    slice that does not fall on a character boundary is a [Panic].  The [oxrdf]
    crate is not code of the repository: [Oxrdf] lists what is used of it. *)

From S2P Require Import Prelude Clock.
From Stdlib Require Import Ascii.

(** ** The interface of [oxrdf] *)

Class Oxrdf := {
  Literal : Type;
  new_simple_literal : bytes → Literal;
  new_typed_literal : bytes → bytes → Literal;
  new_language_tagged_literal_unchecked : bytes → bytes → Literal;
  literal_value : Literal → bytes;
  literal_language : Literal → option bytes;
  literal_display : Literal → bytes;
  blank_node_ok : bytes → bool;
}.

Inductive Term `{Oxrdf} :=
  | NamedNode (iri : bytes)
  | BlankNode (label : bytes)
  | LiteralTerm (l : Literal).

(** ** Strings as byte sequences *)

Definition term_bytes (t : EncodedTerm) : bytes := string_bytes t.

Definition b_quote : N := 34.
Definition b_backslash : N := 92.
Definition b_lt : N := 60.
Definition b_gt : N := 62.
Definition b_at : N := 64.
Definition b_underscore : N := 95.
Definition b_colon : N := 58.

(** [char::len_utf8] of the character a byte leads. *)
Definition char_width (b : N) : nat :=
  if decide (b < 128)%N then 1 else if decide (b < 224)%N then 2
  else if decide (b < 240)%N then 3 else 4.

(** [str::is_char_boundary]. *)
Definition is_char_boundary (l : bytes) (i : nat) : bool :=
  match l !! i with
  | Some b => bool_decide (b < 128 ∨ 192 ≤ b)%N
  | None => bool_decide (i = length l)
  end.

(** [&s[..i]] *)
Definition slice_to {E} (l : bytes) (i : nat) : outcome E bytes :=
  if is_char_boundary l i then Ok (take i l) else Panic.

(** [str::strip_prefix], [str::strip_suffix] and [str::starts_with]. *)
Fixpoint strip_prefix (p l : bytes) : option bytes :=
  match p, l with
  | [], _ => Some l
  | x :: p', y :: l' => if decide (x = y) then strip_prefix p' l' else None
  | _ :: _, [] => None
  end.
Definition strip_suffix (p l : bytes) : option bytes :=
  (@rev N) <$> strip_prefix (rev p) (rev l).
Definition starts_with (p l : bytes) : bool := bool_decide (is_Some (strip_prefix p l)).
Definition ends_with (p l : bytes) : bool := bool_decide (is_Some (strip_suffix p l)).

Definition hex_value (b : N) : option N :=
  if decide (48 ≤ b ≤ 57)%N then Some (b - 48)%N
  else if decide (97 ≤ b ≤ 102)%N then Some (b - 87)%N
  else if decide (65 ≤ b ≤ 70)%N then Some (b - 55)%N
  else None.

Fixpoint hex_digits (acc : N) (l : bytes) : option N :=
  match l with
  | [] => Some acc
  | b :: l' => d ← hex_value b; hex_digits (acc * 16 + d)%N l'
  end.

(** [u32::from_str_radix(_, 16).ok()]: an optional leading [+], then at least
    one digit, without overflow. *)
Definition strip_plus (l : bytes) : bytes :=
  match l with b :: l' => if decide (b = 43)%N then l' else l | [] => [] end.
Definition from_str_radix_16 (l : bytes) : option N :=
  let digits := strip_plus l in
  match digits with
  | [] => None
  | _ => n ← hex_digits 0 digits; if decide (n ≤ u32_max)%N then Some n else None
  end.

Definition parse_hex_escape {E} (value : bytes) (width : nat) : outcome E (option N) :=
  if decide (length value < width) then Ok None
  else digits ← slice_to value width; Ok (from_str_radix_16 digits).

Definition char_from_u32 (c : N) : option N :=
  if decide (c < 55296 ∨ (57344 ≤ c ≤ 1114111))%N then Some c else None.

(** The UTF-8 bytes [String::push] appends. *)
Definition utf8 (c : N) : bytes :=
  if decide (c < 128)%N then [c]
  else if decide (c < 2048)%N then [192 + c / 64; 128 + c mod 64]%N
  else if decide (c < 65536)%N then [224 + c / 4096; 128 + (c / 64) mod 64; 128 + c mod 64]%N
  else [240 + c / 262144; 128 + (c / 4096) mod 64; 128 + (c / 64) mod 64; 128 + c mod 64]%N.

(** ** Encoding *)

Definition encode (l : bytes) : EncodedTerm := bytes_string l.

Definition from_named_node (iri : string) : EncodedTerm :=
  encode (b_lt :: string_bytes iri ++ [b_gt]).
Definition from_literal `{Oxrdf} (l : Literal) : EncodedTerm := encode (literal_display l).
Definition from_blank_node (label : bytes) : EncodedTerm := encode (b_underscore :: b_colon :: label).
Definition is_rdf_star (t : EncodedTerm) : bool := starts_with [b_lt; b_lt] (term_bytes t).
Definition from_subject_id (id : string) : EncodedTerm :=
  if starts_with [b_underscore; b_colon] (string_bytes id) then id else from_named_node id.

Definition to_named_node (t : EncodedTerm) : option bytes :=
  let s := term_bytes t in
  if starts_with [b_lt] s && ends_with [b_gt] s
  then Some (take (length s - 2) (drop 1 s)) else None.

(** ** Parsing *)

Section parsing.
Context `{Oxrdf} {E : Type}.

(** The one-character escapes of [parse_ntriples_literal]. *)
Definition simple_escape (b : N) : option N :=
  if decide (b = 34)%N then Some 34%N else if decide (b = 92)%N then Some 92%N
  else if decide (b = 110)%N then Some 10%N else if decide (b = 114)%N then Some 13%N
  else if decide (b = 116)%N then Some 9%N else if decide (b = 98)%N then Some 8%N
  else if decide (b = 102)%N then Some 12%N else None.

(** Width of a numeric escape. *)
Definition numeric_escape (b : N) : option nat :=
  if decide (b = 117)%N then Some 4 else if decide (b = 85)%N then Some 8 else None.

(** The reading loop after the opening quote: the value read so far and what
    follows the closing quote, or [None] where the source returns it. *)
Fixpoint read_value (fuel : nat) (s value : bytes) : outcome E (option (bytes * bytes)) :=
  match fuel, s with
  | S fuel', b :: r =>
      if decide (b = b_quote) then Ok (Some (value, r))
      else if decide (b = b_backslash) then
        match r with
        | [] => Ok None
        | e :: r' =>
            match simple_escape e, numeric_escape e with
            | Some v, _ => read_value fuel' r' (value ++ [v])
            | None, Some width =>
                code_point ← parse_hex_escape r' width;
                match code_point ≫= char_from_u32 with
                | Some c => read_value fuel' (drop width r') (value ++ utf8 c)
                | None => Ok None
                end
            | None, None => Ok None
            end
        end
      else read_value fuel' (drop (char_width b) s) (value ++ take (char_width b) s)
  | _, _ => Ok None
  end.

(** What follows the closing quote selects the constructor. *)
Definition literal_of_rest (value rest : bytes) : option Literal :=
  match strip_prefix [b_at] rest with
  | Some lang => Some (new_language_tagged_literal_unchecked value lang)
  | None =>
      match strip_prefix [94; 94; b_lt]%N rest with
      | Some dt => new_typed_literal value <$> strip_suffix [b_gt] dt
      | None => Some (new_simple_literal value)
      end
  end.

Definition parse_ntriples_literal (s : bytes) : outcome E (option Literal) :=
  match s with
  | b :: r =>
      if decide (b = b_quote) then
        read ← read_value (length r) r [];
        Ok ('(value, rest) ← read; literal_of_rest value rest)
      else Ok None
  | [] => Ok None
  end.

Definition to_term (t : EncodedTerm) : outcome E (option Term) :=
  let s := term_bytes t in
  if starts_with [b_lt] s && ends_with [b_gt] s then
    Ok (Some (NamedNode (take (length s - 2) (drop 1 s))))
  else if starts_with [b_quote] s then
    (λ literal : option Literal, LiteralTerm <$> literal) <$> parse_ntriples_literal s
  else if starts_with [b_underscore; b_colon] s then Ok (Some (BlankNode (drop 2 s)))
  else Ok None.

Definition is_ascii_uppercase (b : N) : bool := bool_decide (65 ≤ b ≤ 90)%N.
Definition to_ascii_lowercase (l : bytes) : bytes :=
  (λ b, if is_ascii_uppercase b then (b + 32)%N else b) <$> l.

Definition canonical (t : EncodedTerm) : outcome E (option EncodedTerm) :=
  term ← (to_term t : outcome E (option Term));
  match term with
  | Some (LiteralTerm literal) =>
      let text :=
        match literal_language literal with
        | Some language =>
            if existsb is_ascii_uppercase language
            then literal_display (new_language_tagged_literal_unchecked
                   (literal_value literal) (to_ascii_lowercase language))
            else literal_display literal
        | None => literal_display literal
        end in
      Ok (if decide (encode text = t) then None else Some (encode text))
  | _ => Ok None
  end.
End parsing.

(** ** Admission ([src/sync.rs]) *)

Definition MAX_TERM_BYTES : N := 4 * 1024 * 1024.

Inductive TermShape := Iri | Blank | Lit.
Inductive Place := Subject | Predicate | Object.
#[export] Instance term_shape_eq_dec : EqDecision TermShape.
Proof. solve_decision. Defined.

Definition allows (p : Place) (shape : TermShape) : bool :=
  match p with
  | Subject => bool_decide (shape ≠ Lit)
  | Predicate => bool_decide (shape = Iri)
  | Object => true
  end.
Definition PLACES : list Place := [Subject; Predicate; Object].

(** [ch <= ' '] and the delimiters excluded from an IRIREF. *)
Definition iri_char_excluded (b : N) : bool :=
  bool_decide (b ≤ 32 ∨ b ∈ [60; 62; 34; 123; 125; 124; 94; 96; 92])%N.
Definition iri_body_ok (body : bytes) : bool :=
  bool_decide (body ≠ []) && negb (existsb iri_char_excluded body).

(** [str::split('-')]. *)
Fixpoint split_dash (l : bytes) : list bytes :=
  match l with
  | [] => [[]]
  | b :: l' =>
      if decide (b = 45)%N then [] :: split_dash l'
      else match split_dash l' with p :: ps => (b :: p) :: ps | [] => [[b]] end
  end.
Definition is_ascii_alphabetic (b : N) : bool := bool_decide (65 ≤ b ≤ 90 ∨ 97 ≤ b ≤ 122)%N.
Definition is_ascii_alphanumeric (b : N) : bool :=
  is_ascii_alphabetic b || bool_decide (48 ≤ b ≤ 57)%N.
Definition is_ascii_hexdigit (b : N) : bool := bool_decide (is_Some (hex_value b)).

Definition language_ok (tag : bytes) : bool :=
  match split_dash tag with
  | [] => false
  | primary :: parts =>
      bool_decide (primary ≠ []) && forallb is_ascii_alphabetic primary &&
      forallb (λ part, bool_decide (part ≠ []) && forallb is_ascii_alphanumeric part) parts
  end.

(** The escape table of [literal_ok]: the number of hex digits that follow. *)
Definition escape_width (b : N) : option nat :=
  if decide (b ∈ [116; 98; 110; 114; 102; 34; 39; 92])%N then Some 0 else numeric_escape b.

(** The scanning loop of [literal_ok]: what follows the closing quote. *)
Fixpoint scan_value (fuel : nat) (rest : bytes) : option bytes :=
  match fuel, rest with
  | S fuel', next :: _ =>
      let rest := drop (char_width next) rest in
      if decide (next = b_quote) then Some rest
      else if decide (next = b_backslash) then
        match rest with
        | [] => None
        | escape :: _ =>
            let rest := drop (char_width escape) rest in
            match escape_width escape with
            | None => None
            | Some width =>
                if decide (length rest < width) then None
                else if negb (is_char_boundary rest width) then None
                else if negb (forallb is_ascii_hexdigit (take width rest)) then None
                else scan_value fuel' (drop width rest)
            end
        end
      else scan_value fuel' rest
  | _, _ => None
  end.

Definition literal_ok (text : bytes) : bool :=
  match strip_prefix [b_quote] text with
  | None => false
  | Some rest =>
      match scan_value (length rest) rest with
      | None => false
      | Some [] => true
      | Some rest =>
          match strip_prefix [b_at] rest with
          | Some tag => language_ok tag
          | None =>
              match strip_prefix [94; 94; b_lt]%N rest ≫= strip_suffix [b_gt] with
              | Some datatype => iri_body_ok datatype
              | None => false
              end
          end
      end
  end.

(** The errors of [check_term], by the message they carry. *)
Inductive TermError := UnsupportedRdfStarTerm | TermTooLong | TermRejected.

Definition check_term `{Oxrdf} (t : EncodedTerm) : outcome TermError TermShape :=
  let text := term_bytes t in
  if is_rdf_star t then Err UnsupportedRdfStarTerm
  else if decide (MAX_TERM_BYTES < N.of_nat (length text))%N then Err TermTooLong
  else match strip_prefix [b_lt] text ≫= strip_suffix [b_gt] with
  | Some body => if iri_body_ok body then Ok Iri else Err TermRejected
  | None =>
      match strip_prefix [b_underscore; b_colon] text with
      | Some label => if blank_node_ok label then Ok Blank else Err TermRejected
      | None =>
          if starts_with [b_quote] text && literal_ok text then Ok Lit else Err TermRejected
      end
  end.

(** ** Prefixes and suffixes *)

Lemma strip_prefix_some p l r : strip_prefix p l = Some r ↔ l = p ++ r.
Proof.
  revert l; induction p as [|x p IH]; intros l; cbn; [naive_solver|].
  destruct l as [|y l]; [naive_solver|]. case_decide; [subst; rewrite IH|]; naive_solver.
Qed.

Lemma strip_suffix_some p l r : strip_suffix p l = Some r ↔ l = r ++ p.
Proof.
  unfold strip_suffix. rewrite fmap_Some. split.
  - intros (k & Hk%strip_prefix_some & ->).
    by rewrite <- (rev_involutive l), Hk, rev_app_distr, rev_involutive.
  - intros ->. exists (rev r). by rewrite strip_prefix_some, rev_app_distr, rev_involutive.
Qed.

Lemma starts_with_spec p l : starts_with p l = true ↔ ∃ r, l = p ++ r.
Proof. unfold starts_with, is_Some. rewrite bool_decide_eq_true. by setoid_rewrite strip_prefix_some. Qed.

Lemma ends_with_spec p l : ends_with p l = true ↔ ∃ r, l = r ++ p.
Proof. unfold ends_with, is_Some. rewrite bool_decide_eq_true. by setoid_rewrite strip_suffix_some. Qed.

Lemma string_bytes_bytes_string l : byte_list l → string_bytes (bytes_string l) = l.
Proof.
  intros Hl. unfold bytes_string, string_bytes.
  rewrite String.list_ascii_of_string_of_list_ascii, <- list_fmap_compose.
  rewrite <- (list_fmap_id l) at 2. apply list_fmap_ext. intros i b Hb. cbn.
  apply N_ascii_embedding. by eapply Forall_lookup_1 in Hl.
Qed.

Lemma string_bytes_byte_list s : byte_list (string_bytes s).
Proof.
  unfold string_bytes. apply Forall_fmap, Forall_true. intros c. apply N_ascii_bounded.
Qed.
#[export] Hint Resolve string_bytes_byte_list : craqle.

Lemma simple_escape_width e v : simple_escape e = Some v → escape_width e = Some 0 ∧ char_width e = 1.
Proof.
  unfold simple_escape. intros Hv.
  repeat case_decide; simplify_eq; split; reflexivity.
Qed.

Lemma escape_width_ascii e w : escape_width e = Some w → char_width e = 1.
Proof.
  unfold escape_width. case_decide as Hd; intros Hw.
  - rewrite !elem_of_cons, elem_of_nil in Hd. by destruct_or! Hd; subst.
  - unfold numeric_escape in Hw. repeat case_decide; simplify_eq; reflexivity.
Qed.

(** An escape accepted by the scan is a simple escape, the quote [\']
    which the reader does not know, or a numeric one. *)
Lemma escape_width_cases e w :
  escape_width e = Some w →
  (w = 0 ∧ (is_Some (simple_escape e) ∨ e = 39%N ∧ simple_escape e = None ∧ numeric_escape e = None)) ∨
  (simple_escape e = None ∧ numeric_escape e = Some w).
Proof.
  unfold escape_width. case_decide as Hd.
  - intros [= <-]. left. split; [done|].
    rewrite !elem_of_cons, elem_of_nil in Hd.
    destruct Hd as [->|[->|[->|[->|[->|[->|[->|[->|[]]]]]]]]]; try (left; by eexists); by right.
  - intros Hw. right. split; [|done]. unfold numeric_escape in Hw.
    repeat case_decide; simplify_eq; reflexivity.
Qed.

(** An escape before the closing quote that the reader does not know: an
    apostrophe, or a number that is no character. *)
Inductive unreadable_escape : bytes → Prop :=
  | ue_apostrophe r : unreadable_escape (b_backslash :: 39%N :: r)
  | ue_number e w r : numeric_escape e = Some w → hex_digits 0 (take w r) ≫= char_from_u32 = None →
      unreadable_escape (b_backslash :: e :: r)
  | ue_simple e v r : simple_escape e = Some v → unreadable_escape r → unreadable_escape (b_backslash :: e :: r)
  | ue_numeric e w r : numeric_escape e = Some w → unreadable_escape (drop w r) → unreadable_escape (b_backslash :: e :: r)
  | ue_char b r : b ≠ b_quote → b ≠ b_backslash → unreadable_escape (drop (char_width b) (b :: r)) →
      unreadable_escape (b :: r).

Lemma hex_value_range b d : hex_value b = Some d → (d < 16 ∧ 48 ≤ b < 128)%N.
Proof. unfold hex_value. intros Hd. repeat case_decide; simplify_eq; lia. Qed.

Lemma hex_digits_range acc l n :
  hex_digits acc l = Some n →
  (n < (acc + 1) * 16 ^ N.of_nat (length l))%N ∧ Forall (λ b, 48 ≤ b < 128)%N l.
Proof.
  revert acc; induction l as [|b l IH]; intros acc; cbn [hex_digits].
  { intros [= <-]. cbn. split; [lia|constructor]. }
  intros (d & Hd%hex_value_range & Hn)%bind_Some. apply IH in Hn as [Hn Hl].
  cbn [length]. rewrite Nat2N.inj_succ, N.pow_succ_r'. split; [|constructor; [lia|done]].
  eapply N.lt_le_trans; [exact Hn|].
  rewrite (N.mul_assoc (acc + 1) 16). apply N.mul_le_mono_r. lia.
Qed.

Lemma numeric_escape_width u w : numeric_escape u = Some w → w = 4 ∨ w = 8.
Proof. unfold numeric_escape. intros. repeat case_decide; naive_solver. Qed.

(** Four or eight hex digits are the number they denote. *)
Lemma from_str_radix_hex digits n :
  length digits = 4 ∨ length digits = 8 → hex_digits 0 digits = Some n → from_str_radix_16 digits = Some n.
Proof.
  intros Hw Hn. destruct (hex_digits_range _ _ _ Hn) as [Hlt Hf].
  unfold from_str_radix_16. destruct digits as [|b ds]; [cbn in *; lia|].
  assert (strip_plus (b :: ds) = b :: ds) as ->.
  { apply Forall_cons in Hf as [Hb' _]. cbn. by rewrite decide_False by lia. }
  rewrite Hn. cbn -[max_of]. rewrite decide_True; [done|].
  change (max_of 32) with 4294967295%N.
  destruct Hw as [Hw | Hw]; rewrite Hw in Hlt;
    [change (16 ^ N.of_nat 4)%N with 65536%N in Hlt|change (16 ^ N.of_nat 8)%N with 4294967296%N in Hlt]; lia.
Qed.

Lemma hex_digits_some acc l : forallb is_ascii_hexdigit l = true → is_Some (hex_digits acc l).
Proof.
  revert acc. induction l as [|b l IH]; intros acc; cbn; [by eexists|].
  intros [Hb Hl]%andb_true_iff. apply bool_decide_eq_true in Hb as [d ->]. cbn. by apply IH.
Qed.

Lemma escape_kinds_apart e v w : simple_escape e = Some v → numeric_escape e = Some w → False.
Proof. unfold simple_escape, numeric_escape. repeat case_decide; congruence. Qed.

Lemma unreadable_simple e v r : simple_escape e = Some v → unreadable_escape (b_backslash :: e :: r) ↔ unreadable_escape r.
Proof.
  intros Hv. split; [|by eapply ue_simple]. inversion 1; simplify_eq; try done; by edestruct escape_kinds_apart.
Qed.

Lemma unreadable_numeric e w r :
  numeric_escape e = Some w →
  unreadable_escape (b_backslash :: e :: r) ↔ hex_digits 0 (take w r) ≫= char_from_u32 = None ∨ unreadable_escape (drop w r).
Proof.
  intros Hw. split; [|intros [?|?]; [by eapply ue_number|by eapply ue_numeric]].
  inversion 1; simplify_eq; try done; [by left|by edestruct escape_kinds_apart|by right].
Qed.

Lemma unreadable_char b r :
  b ≠ b_quote → b ≠ b_backslash → unreadable_escape (b :: r) ↔ unreadable_escape (drop (char_width b) (b :: r)).
Proof. intros Hq Hb. split; [|by apply ue_char]. by inversion 1. Qed.

(** ** Admission and parsing agree *)

Section admission.
Context `{Oxrdf} {E : Type}.

(** What the admission scan accepts, the reader reads without a panic, to the
    same closing quote or up to an escape it does not know. *)
Lemma scan_read fuel s rest value :
  scan_value fuel s = Some rest →
  ∃ read, read_value fuel s value = (Ok read : outcome E _) ∧ (read = None ↔ unreadable_escape s) ∧
          (∀ v rest', read = Some (v, rest') → rest' = rest).
Proof.
  revert s value; induction fuel as [|fuel IH]; intros s value; [done|].
  destruct s as [|b s]; [done|]. cbn [scan_value read_value].
  destruct (decide (b = b_quote)) as [->|Hq].
  { intros [= <-]. eexists. split_and!; [done| |naive_solver]. split; [done|]. by inversion 1. }
  destruct (decide (b = b_backslash)) as [->|Hb]; [|setoid_rewrite (unreadable_char b s Hq Hb); apply IH].
  change (drop (char_width b_backslash) (b_backslash :: s)) with s.
  destruct s as [|e s]; [done|].
  destruct (escape_width e) as [w|] eqn:Ew; [|done].
  rewrite (escape_width_ascii _ _ Ew). change (drop 1 (e :: s)) with s.
  destruct (decide (length s < w)) as [|Hlen]; [done|].
  destruct (is_char_boundary s w) eqn:Hbound; cbn [negb]; [|done].
  destruct (forallb is_ascii_hexdigit (take w s)) eqn:Hhex; cbn [negb]; [|done].
  destruct (escape_width_cases _ _ Ew) as [[-> [[v Hv]|(-> & -> & ->)]]|[-> Hnum]].
  - rewrite Hv. setoid_rewrite (unreadable_simple _ _ s Hv). apply IH.
  - intros _. exists None. split_and!; [done| |naive_solver]. split; [|done]. intros _. apply ue_apostrophe.
  - rewrite Hnum. setoid_rewrite (unreadable_numeric _ _ s Hnum). unfold parse_hex_escape, slice_to. rewrite decide_False, Hbound by done.
    destruct (hex_digits_some 0 _ Hhex) as [n Hn]. cbn [mbind outcome_bind].
    assert (from_str_radix_16 (take w s) = Some n) as ->.
    { apply from_str_radix_hex; [|done]. rewrite length_take_le by lia. by eapply numeric_escape_width. }
    rewrite Hn. cbn [mbind option_bind]. destruct (char_from_u32 n) as [c|].
    + intros Hs. destruct (IH _ (value ++ utf8 c) Hs) as (read & Hr & Hnone & Hrest). exists read.
      split_and!; [done| |done]. rewrite Hnone. naive_solver.
    + intros _. exists None. split_and!; [done|naive_solver|naive_solver].
Qed.

Lemma literal_ok_parses s :
  literal_ok s = true →
  ∃ l, parse_ntriples_literal s = (Ok l : outcome E _) ∧ (l = None ↔ unreadable_escape (drop 1 s)).
Proof.
  unfold literal_ok, parse_ntriples_literal. destruct s as [|b s]; [done|]. 
  assert (strip_prefix [b_quote] (b :: s) = if decide (b_quote = b) then Some s else None) as -> by done.
  destruct (decide (b_quote = b)) as [<-|Hb]; [|done]. rewrite decide_True by done. change (drop 1 (b_quote :: s)) with s.
  destruct (scan_value _ _) as [rest|] eqn:Hs; [|done]. intros Hok.
  destruct (scan_read _ _ _ [] Hs) as (r & -> & Hnone & Hrest). eexists. split; [done|]. rewrite <- Hnone.
  destruct r as [[v rest']|]; cbn [mbind option_bind]; [|done]. rewrite (Hrest v rest' eq_refl). unfold literal_of_rest.
  destruct rest as [|c rest]; [by split|].
  destruct (strip_prefix [b_at] (c :: rest)); [by split|].
  destruct (strip_prefix [94; 94; b_lt]%N (c :: rest)) as [dt|]; [|by split].
  revert Hok. cbn [mbind option_bind]. destruct (strip_suffix [b_gt] dt); [by split|done].
Qed.
End admission.

(** ** The N-Triples literal grammar *)

(** One UTF-8 character, as far as character boundaries go: a lead byte and the
    continuation bytes it announces. *)
Definition utf8_one (b : N) (c : bytes) : Prop :=
  length (b :: c) = char_width b ∧ (b < 128 ∨ 192 ≤ b < 256)%N ∧ Forall (λ x, 128 ≤ x < 192)%N c.

Inductive utf8_text : bytes → Prop :=
  | utf8_nil : utf8_text []
  | utf8_char b c l : utf8_one b c → utf8_text l → utf8_text (b :: c ++ l).

(** [lit_chars text value]: the characters between the quotes of a literal
    and the value they denote. *)
Inductive lit_chars : bytes → bytes → Prop :=
  | lc_nil : lit_chars [] []
  | lc_char b c t v :
      b ≠ b_quote → b ≠ b_backslash → utf8_one b c →
      lit_chars t v → lit_chars (b :: c ++ t) (b :: c ++ v)
  | lc_echar e x t v :
      simple_escape e = Some x → lit_chars t v → lit_chars (b_backslash :: e :: t) (x :: v)
  | lc_uchar u width digits n c t v :
      numeric_escape u = Some width → length digits = width →
      hex_digits 0 digits = Some n → char_from_u32 n = Some c →
      lit_chars t v → lit_chars (b_backslash :: u :: digits ++ t) (utf8 c ++ v).

(** The three forms of a literal, and the constructor each denotes. *)
Inductive literal_text `{Oxrdf} : bytes → Literal → Prop :=
  | lt_simple t v : lit_chars t v → literal_text (b_quote :: t ++ [b_quote]) (new_simple_literal v)
  | lt_lang t v lang : lit_chars t v →
      literal_text (b_quote :: t ++ b_quote :: b_at :: lang)
        (new_language_tagged_literal_unchecked v lang)
  | lt_typed t v dt : lit_chars t v →
      literal_text (b_quote :: t ++ b_quote :: 94 :: 94 :: b_lt :: dt ++ [b_gt])%N
        (new_typed_literal v dt).

Section grammar.
Context `{Oxrdf} {E : Type}.

Lemma parse_hex_digits digits n t width :
  (width = 4 ∨ width = 8) → length digits = width → hex_digits 0 digits = Some n →
  is_char_boundary (digits ++ t) width = true →
  parse_hex_escape (digits ++ t) width = (Ok (Some n) : outcome E _).
Proof.
  intros Hw Hlen Hn Hb. unfold parse_hex_escape, slice_to.
  rewrite decide_False by (rewrite length_app; lia). rewrite Hb. cbn. rewrite <- Hlen, take_app_length.
  f_equal. apply from_str_radix_hex; [by rewrite Hlen|done].
Qed.

(** A grammar text never starts with a continuation byte. *)
Lemma lit_chars_boundary digits t v r :
  lit_chars t v → is_char_boundary (digits ++ t ++ b_quote :: r) (length digits) = true.
Proof.
  intros Ht. unfold is_char_boundary. rewrite lookup_app_r, Nat.sub_diag by done.
  destruct Ht as [|b c t v _ _ (_ & Hb & _) _| |]; cbn; try done.
  apply bool_decide_eq_true. lia.
Qed.

Lemma read_value_complete t v r acc fuel :
  lit_chars t v → length t < fuel →
  read_value fuel (t ++ b_quote :: r) acc = (Ok (Some (acc ++ v, r)) : outcome E _).
Proof.
  intros Ht. revert acc fuel.
  induction Ht as [|b c t v Hq Hb (Hw & _) Ht IH|e x t v Hx Ht IH|u width digits n c t v Hu Hl Hn Hc Ht IH];
    intros acc [|fuel] Hf; try (cbn in Hf; lia); cbn [read_value app].
  - by rewrite decide_True, app_nil_r by done.
  - rewrite !decide_False by done. rewrite <- Hw, <- app_assoc.
    change (b :: c ++ t ++ b_quote :: r) with ((b :: c) ++ t ++ b_quote :: r).
    rewrite drop_app_length, take_app_length, IH by (cbn in Hf; rewrite length_app in Hf; lia).
    by rewrite <- app_assoc.
  - rewrite decide_False, decide_True, Hx by done. cbn in Hf. rewrite IH by lia.
    by rewrite <- app_assoc.
  - rewrite decide_False, decide_True by done.
    assert (simple_escape u = None) as ->
      by (unfold numeric_escape in Hu; repeat case_decide; simplify_eq; reflexivity).
    rewrite Hu, <- app_assoc, (parse_hex_digits digits n); [|by eapply numeric_escape_width|done|done|].
    2: { rewrite <- Hl. by eapply lit_chars_boundary. }
    cbn. rewrite Hc, <- Hl, drop_app_length, IH
      by (cbn in Hf; rewrite length_app in Hf; lia).
    by rewrite <- app_assoc.
Qed.

Lemma parse_value_rest t v r :
  lit_chars t v →
  parse_ntriples_literal (b_quote :: t ++ b_quote :: r) = (Ok (literal_of_rest v r) : outcome E _).
Proof.
  intros Ht. unfold parse_ntriples_literal. rewrite decide_True by done.
  rewrite (read_value_complete t v) by (done || rewrite length_app; cbn; lia). done.
Qed.

(** Every text of the grammar parses, without a panic, to the literal it
    denotes. *)
Theorem literal_text_parses s l :
  literal_text s l → parse_ntriples_literal s = (Ok (Some l) : outcome E _).
Proof.
  destruct 1 as [t v Ht|t v lang Ht|t v dt Ht]; rewrite (parse_value_rest _ v) by done; [done..|].
  change (literal_of_rest v (94 :: 94 :: b_lt :: dt ++ [b_gt])%N)
    with (new_typed_literal v <$> strip_suffix [b_gt] (dt ++ [b_gt])).
  by rewrite (proj2 (strip_suffix_some [b_gt] (dt ++ [b_gt]) dt)).
Qed.

Lemma literal_text_to_term s l :
  literal_text s l → byte_list s → to_term (encode s) = (Ok (Some (LiteralTerm l)) : outcome E _).
Proof.
  intros Hs Hbytes. unfold to_term, term_bytes, encode.
  rewrite string_bytes_bytes_string by done.
  pose proof (literal_text_parses _ _ Hs) as Hp.
  assert (∃ r, s = b_quote :: r) as [r ->] by (destruct Hs; by eexists).
  change (starts_with [b_lt] (b_quote :: r)) with false.
  change (starts_with [b_quote] (b_quote :: r)) with true. cbn [andb].
  by rewrite Hp.
Qed.
(** C40: Admitted terms are read back without a panic: an IRI and a blank node to
    one, with the text that was admitted; a literal either to a literal or as
    unreadable ([None]), and it is unreadable exactly when its value holds an
    escaped apostrophe or a numeric escape of no character
    ([unreadable_escape]); a text of the N-Triples grammar is read to the
    literal it denotes. *)
Theorem check_term_reads (t : EncodedTerm) shape :
  check_term t = Ok shape →
  match shape with
  | Iri => ∃ iri, to_term t = (Ok (Some (NamedNode iri)) : outcome E _) ∧ to_named_node t = Some iri
                  ∧ iri_body_ok iri = true ∧ term_bytes t = b_lt :: iri ++ [b_gt]
  | Blank => ∃ label, to_term t = (Ok (Some (BlankNode label)) : outcome E _) ∧ blank_node_ok label = true
                  ∧ term_bytes t = b_underscore :: b_colon :: label
  | Lit => ∃ l, to_term t = (Ok (LiteralTerm <$> l) : outcome E _)
                ∧ (l = None ↔ unreadable_escape (drop 1 (term_bytes t)))
                ∧ (∀ l', literal_text (term_bytes t) l' → l = Some l')
  end.
Proof.
  unfold check_term. destruct (is_rdf_star t); [done|]. case_decide; [done|].
  unfold to_term, to_named_node. set (s := term_bytes t).
  destruct (strip_prefix [b_lt] s ≫= strip_suffix [b_gt]) as [body|] eqn:Hiri.
  - destruct (iri_body_ok body) eqn:Hok; [|done]. intros [= <-].
    apply bind_Some in Hiri as (r & Hr%strip_prefix_some & ->%strip_suffix_some).
    assert (starts_with [b_lt] s && ends_with [b_gt] s = true) as ->.
    { apply andb_true_iff. rewrite starts_with_spec, ends_with_spec. split; [by eexists|].
      exists (b_lt :: body). by rewrite Hr. }
    assert (take (length s - 2) (drop 1 s) = body) as ->; [|by exists body].
    rewrite Hr, !length_app. cbn [app drop length].
    replace (1 + (length body + 1) - 2) with (length body) by lia. apply take_app_length.
  - destruct (strip_prefix [b_underscore; b_colon] s) as [label|] eqn:Hb.
    + destruct (blank_node_ok label) eqn:Hok; [|done]. intros [= <-].
      apply strip_prefix_some in Hb. rewrite Hb. exists label. done.
    + destruct (starts_with [b_quote] s && literal_ok s) eqn:Hl; [|done]. intros [= <-].
      apply andb_true_iff in Hl as [Hq Hl]. rewrite Hq.
      destruct (literal_ok_parses (E := E) s Hl) as (l & Hp & Hnone). exists l.
      apply starts_with_spec in Hq as [r Hr]. rewrite Hp. split_and!; [by rewrite Hr|done|].
      intros l' Hl'%literal_text_parses. congruence.
Qed.
End grammar.

(** ** The canonical spelling *)

(** What [canonical] relies on of [oxrdf]: [Display] writes the N-Triples form
    of a literal whose value is valid UTF-8, and the accessors read back what
    the constructors were given. *)
Class OxrdfLaws `{Oxrdf} : Prop := {
  display_simple v : utf8_text v →
    literal_text (literal_display (new_simple_literal v)) (new_simple_literal v) ∧
    byte_list (literal_display (new_simple_literal v));
  display_lang v g : utf8_text v → byte_list g →
    literal_text (literal_display (new_language_tagged_literal_unchecked v g))
      (new_language_tagged_literal_unchecked v g) ∧
    byte_list (literal_display (new_language_tagged_literal_unchecked v g));
  display_typed v dt : utf8_text v → byte_list dt →
    literal_text (literal_display (new_typed_literal v dt)) (new_typed_literal v dt) ∧
    byte_list (literal_display (new_typed_literal v dt));
  value_lang v g : literal_value (new_language_tagged_literal_unchecked v g) = v;
  language_simple v : literal_language (new_simple_literal v) = None;
  language_lang v g : literal_language (new_language_tagged_literal_unchecked v g) = Some g;
  language_typed v dt : literal_language (new_typed_literal v dt) = None;
}.

Lemma utf8_text_app l k : utf8_text l → utf8_text k → utf8_text (l ++ k).
Proof. induction 1; cbn; [done|]. intros Hk. rewrite <- app_assoc. constructor; auto. Qed.

Lemma utf8_text_byte_list l : utf8_text l → byte_list l.
Proof.
  induction 1 as [|b c l (_ & Hb & Hc) _ IH]; constructor; [lia|].
  apply Forall_app. split; [|done]. eapply Forall_impl; [exact Hc|]. cbn. lia.
Qed.

Lemma utf8_one_ascii b : (b < 128)%N → utf8_one b [].
Proof.
  intros Hb. split; [|split; [lia|constructor]]. unfold char_width. by rewrite decide_True.
Qed.

Lemma utf8_text_ascii_cons b l : (b < 128)%N → utf8_text l → utf8_text (b :: l).
Proof. intros. change (b :: l) with (b :: [] ++ l). constructor; [by apply utf8_one_ascii|done]. Qed.

(** Dropping a leading ASCII character keeps the text valid. *)
Lemma utf8_text_ascii_inv b l : (b < 128)%N → utf8_text (b :: l) → utf8_text l.
Proof.
  intros Hb. inversion 1 as [|b' c l' (Hw & _) Hl Heq]; simplify_eq.
  unfold char_width in Hw. rewrite decide_True in Hw by done. by destruct c.
Qed.

Lemma utf8_text_ascii_drop k l : Forall (λ b, b < 128)%N k → utf8_text (k ++ l) → utf8_text l.
Proof. induction 1; cbn; [done|]. intros ?%utf8_text_ascii_inv; auto. Qed.

Lemma utf8_valid c x : char_from_u32 c = Some x → utf8_text (utf8 x).
Proof.
  unfold char_from_u32. case_decide as Hc; [intros [= <-]|done].
  assert (∀ n, (128 ≤ 128 + n mod 64 < 192)%N) as Hcont.
  { intros n. assert (n mod 64 < 64)%N as Hn by by apply N.mod_lt. revert Hn. generalize (n mod 64)%N. lia. }
  assert (c < 2048 → c / 64 < 32)%N as H2 by (intros; apply N.Div0.div_lt_upper_bound; lia).
  assert (c < 65536 → c / 4096 < 16)%N as H3 by (intros; apply N.Div0.div_lt_upper_bound; lia).
  assert (c / 262144 < 5)%N as H4 by (apply N.Div0.div_lt_upper_bound; lia).
  assert (∀ b cs, utf8_one b cs → utf8_text (b :: cs)) as Hone.
  { intros b cs Hb. rewrite <- (app_nil_r cs). apply utf8_char; [done|constructor]. }
  assert (∀ b, (192 ≤ b < 224 → char_width b = 2%nat) ∧ (224 ≤ b < 240 → char_width b = 3%nat) ∧
    (240 ≤ b → char_width b = 4%nat))%N as Hw.
  { intros b. unfold char_width. repeat case_decide; lia. }
  unfold utf8. repeat case_decide; apply Hone.
  - by apply utf8_one_ascii.
  - specialize (Hw (192 + c / 64)%N) as (Hw & _ & _). specialize (H2 ltac:(lia)).
    revert H2 Hw. generalize (c / 64)%N. intros q H2 Hw.
    split; [rewrite Hw; [done|lia]|]. split; [lia|]. by repeat constructor; apply Hcont.
  - specialize (Hw (224 + c / 4096)%N) as (_ & Hw & _). specialize (H3 ltac:(lia)).
    revert H3 Hw. generalize (c / 4096)%N. intros q H3 Hw.
    split; [rewrite Hw; [done|lia]|]. split; [lia|]. by repeat constructor; apply Hcont.
  - specialize (Hw (240 + c / 262144)%N) as (_ & _ & Hw).
    revert H4 Hw. generalize (c / 262144)%N. intros q H4 Hw.
    split; [rewrite Hw; [done|lia]|]. split; [lia|]. by repeat constructor; apply Hcont.
Qed.

Section canonical.
Context `{OxrdfLaws} {E : Type}.

(** A literal read from valid text: its value is valid UTF-8. *)
Definition literal_valid (l : Literal) : Prop :=
  ∃ v, utf8_text v ∧
    (l = new_simple_literal v ∨ (∃ g, byte_list g ∧ l = new_language_tagged_literal_unchecked v g) ∨
     ∃ dt, byte_list dt ∧ l = new_typed_literal v dt).

Lemma display_valid l : literal_valid l → literal_text (literal_display l) l ∧ byte_list (literal_display l).
Proof.
  intros (v & Hv & [->|[(g & Hg & ->)|(dt & Hdt & ->)]]);
    [by apply display_simple|by apply display_lang|by apply display_typed].
Qed.

Lemma read_value_valid fuel s acc v r :
  utf8_text s → utf8_text acc →
  read_value fuel s acc = (Ok (Some (v, r)) : outcome E _) → utf8_text v ∧ utf8_text r.
Proof.
  revert s acc; induction fuel as [|fuel IH]; intros s acc; [done|].
  intros Hs Hacc. destruct Hs as [|b c s (Hw & Hb & Hc) Hs]; [done|]. cbn [read_value].
  destruct (decide (b = b_quote)) as [->|Hq].
  { destruct c; [|discriminate Hw]. by intros [= <- <-]. }
  destruct (decide (b = b_backslash)) as [->|Hbs].
  - destruct c; [|discriminate Hw]. cbn [app]. destruct s as [|e s]; [done|].
    destruct (simple_escape e) as [x|] eqn:Hx.
    + assert (e < 128 ∧ x < 128)%N as [He Hx'].
      { unfold simple_escape in Hx. repeat case_decide; simplify_eq; lia. }
      apply IH; [by apply utf8_text_ascii_inv in Hs|]. apply utf8_text_app; [done|].
      apply utf8_text_ascii_cons; [done|constructor].
    + destruct (numeric_escape e) as [w|] eqn:Hn; [|done].
      assert (e < 128)%N as He by (unfold numeric_escape in Hn; repeat case_decide; simplify_eq; lia).
      apply utf8_text_ascii_inv in Hs; [|done].
      intros (cp & Hcp & Hr)%bind_ok.
      destruct (cp ≫= char_from_u32) as [ch|] eqn:Hch; [|done].
      apply bind_Some in Hch as (n & -> & Hch).
      unfold parse_hex_escape, slice_to in Hcp. case_decide; [done|].
      destruct (is_char_boundary s w); [|done]. injection Hcp as Hcp.
      apply (IH _ _) in Hr; [done| |by apply utf8_text_app; [|by eapply utf8_valid]].
      apply (utf8_text_ascii_drop (take w s)); [|by rewrite take_drop].
      unfold from_str_radix_16 in Hcp.
      assert (∀ l m, (m' ← hex_digits 0 l; if decide (m' ≤ u32_max)%N then Some m' else None) = Some m →
        Forall (λ b, b < 128)%N l) as Hdig.
      { intros l m (m' & Hm%hex_digits_range & _)%bind_Some.
        eapply Forall_impl; [apply Hm|]. cbn. lia. }
      destruct (take w s) as [|d ds]; [constructor|]. cbn [strip_plus] in Hcp.
      destruct (decide (d = 43)%N) as [->|Hd]; [|by eapply Hdig].
      constructor; [lia|]. destruct ds; [constructor|]. by eapply Hdig.
  - change (b :: c ++ s) with ((b :: c) ++ s). rewrite <- Hw, drop_app_length, take_app_length.
    apply IH; [done|]. apply utf8_text_app; [done|]. rewrite <- (app_nil_r c). apply utf8_char; [done|constructor].
Qed.

Lemma parse_valid s l :
  utf8_text s → parse_ntriples_literal s = (Ok (Some l) : outcome E _) → literal_valid l.
Proof.
  intros Hs. unfold parse_ntriples_literal. destruct s as [|b s]; [done|].
  case_decide as Hb; [subst|done]. apply utf8_text_ascii_inv in Hs; [|done].
  intros (read & Hr & [= Hl])%bind_ok. apply bind_Some in Hl as ([v rest] & -> & Hl).
  apply read_value_valid in Hr as [Hv Hrest%utf8_text_byte_list]; [|done|constructor].
  exists v. split; [done|]. unfold literal_of_rest in Hl.
  destruct (strip_prefix [b_at] rest) as [g|] eqn:Eg.
  - injection Hl as <-. right; left. exists g. apply strip_prefix_some in Eg as ->.
    by apply Forall_app in Hrest as [_ ?].
  - destruct (strip_prefix [94; 94; b_lt]%N rest) as [dt|] eqn:Edt; [|left; by injection Hl as <-].
    apply fmap_Some in Hl as (dt' & Hd%strip_suffix_some & ->). right; right. exists dt'.
    apply strip_prefix_some in Edt as ->. subst dt.
    by apply Forall_app in Hrest as [_ [? _]%Forall_app].
Qed.

Lemma lowercase_no_uppercase g : existsb is_ascii_uppercase (to_ascii_lowercase g) = false.
Proof.
  unfold to_ascii_lowercase. induction g as [|b g IH]; [done|].
  rewrite fmap_cons. cbn [existsb]. rewrite IH, orb_false_r.
  destruct (is_ascii_uppercase b) eqn:Hb; [|done].
  unfold is_ascii_uppercase in *. rewrite bool_decide_eq_true in Hb. apply bool_decide_eq_false. lia.
Qed.

Lemma lowercase_bytes g : byte_list g → byte_list (to_ascii_lowercase g).
Proof.
  intros Hg. unfold to_ascii_lowercase. apply Forall_fmap. eapply Forall_impl; [exact Hg|].
  intros b Hb. cbv beta in Hb. unfold compose, is_ascii_uppercase. case_bool_decide; lia.
Qed.

(** The literal whose display is the canonical text. *)
Definition canonical_literal (l : Literal) : Literal :=
  match literal_language l with
  | Some g => if existsb is_ascii_uppercase g
              then new_language_tagged_literal_unchecked (literal_value l) (to_ascii_lowercase g) else l
  | None => l
  end.

Lemma canonical_literal_valid l : literal_valid l → literal_valid (canonical_literal l).
Proof.
  intros Hl. unfold canonical_literal. destruct Hl as (v & Hv & Hl).
  assert (literal_valid l) as Hl' by by exists v.
  destruct Hl as [->|[(g & Hg & ->)|(dt & Hdt & ->)]].
  - by rewrite language_simple.
  - rewrite language_lang, value_lang. destruct (existsb _ g); [|done].
    exists v. split; [done|]. right; left. eexists; split; [by apply lowercase_bytes|done].
  - by rewrite language_typed.
Qed.

Lemma canonical_literal_idem l : canonical_literal (canonical_literal l) = canonical_literal l.
Proof.
  unfold canonical_literal at 2 3. destruct (literal_language l) as [g|] eqn:Hg;
    [|by unfold canonical_literal; rewrite Hg].
  destruct (existsb is_ascii_uppercase g) eqn:Hu; [|by unfold canonical_literal; rewrite Hg, Hu].
  unfold canonical_literal. by rewrite language_lang, lowercase_no_uppercase.
Qed.

Lemma canonical_of_literal t l :
  to_term t = (Ok (Some (LiteralTerm l)) : outcome E _) →
  canonical t = (Ok (if decide (encode (literal_display (canonical_literal l)) = t) then None
                     else Some (encode (literal_display (canonical_literal l)))) : outcome E _).
Proof.
  intros Ht. unfold canonical. rewrite Ht. cbn. unfold canonical_literal.
  destruct (literal_language l) as [g|]; [|done]. by destruct (existsb _ g).
Qed.

(** The canonical spelling of a literal is a literal text that is its own
    canonical spelling: equal literals of different spelling share one stored
    text, and canonicalising again changes nothing. *)
Theorem canonical_stable (t t' : EncodedTerm) :
  utf8_text (term_bytes t) →
  canonical t = (Ok (Some t') : outcome E _) →
  canonical t' = (Ok None : outcome E _) ∧
  ∃ l, to_term t = (Ok (Some (LiteralTerm l)) : outcome E _) ∧
       to_term t' = (Ok (Some (LiteralTerm (canonical_literal l))) : outcome E _).
Proof.
  intros Hu Hc.
  assert (∃ l, to_term t = (Ok (Some (LiteralTerm l)) : outcome E _) ∧
    parse_ntriples_literal (term_bytes t) = (Ok (Some l) : outcome E _)) as (l & Ht & Hp).
  { unfold canonical in Hc. apply bind_ok in Hc as (tm & Ht & Hc).
    destruct tm as [[| |l]|]; try done. exists l. split; [done|].
    unfold to_term in Ht. destruct (starts_with [b_lt] _ && _); [done|].
    destruct (starts_with [b_quote] _); [|by destruct (starts_with _ _)].
    apply fmap_ok in Ht as (o & -> & Ho). destruct o; naive_solver. }
  rewrite (canonical_of_literal t l Ht) in Hc. case_decide; [done|]. injection Hc as <-.
  apply parse_valid in Hp; [|done]. apply canonical_literal_valid in Hp.
  destruct (display_valid _ Hp) as [Htext Hbytes].
  pose proof (literal_text_to_term (E := E) _ _ Htext Hbytes) as Ht'.
  split; [|by exists l]. rewrite (canonical_of_literal _ _ Ht').
  by rewrite canonical_literal_idem, decide_True.
Qed.
End canonical.

(** ** Concrete inputs

    [DemoOxrdf] is one implementation of the [oxrdf] interface that meets its
    laws; the witnesses evaluate on it. *)

Module DemoOxrdf.
Inductive literal :=
  | LSimple (v : bytes) | LLang (v g : bytes) | LTyped (v dt : bytes).

Definition escape (v : bytes) : bytes :=
  v ≫= λ b, if decide (b = b_quote ∨ b = b_backslash) then [b_backslash; b] else [b].

Definition display (l : literal) : bytes :=
  match l with
  | LSimple v => b_quote :: escape v ++ [b_quote]
  | LLang v g => b_quote :: escape v ++ b_quote :: b_at :: g
  | LTyped v dt => b_quote :: escape v ++ b_quote :: 94 :: 94 :: b_lt :: dt ++ [b_gt]
  end%N.

#[export] Instance demo_oxrdf : Oxrdf := {
  Literal := literal;
  new_simple_literal := LSimple;
  new_typed_literal := LTyped;
  new_language_tagged_literal_unchecked := LLang;
  literal_value l := match l with LSimple v | LLang v _ | LTyped v _ => v end;
  literal_language l := match l with LLang _ g => Some g | _ => None end;
  literal_display := display;
  blank_node_ok label := bool_decide (label ≠ []);
}.

Lemma escape_text v : utf8_text v → lit_chars (escape v) v ∧ byte_list (escape v).
Proof.
  induction 1 as [|b c l Hb Hl [IH IHb]]; [split; constructor|].
  assert (escape (b :: c ++ l) = escape (b :: c) ++ escape l) as ->
    by (unfold escape; change (b :: c ++ l) with ((b :: c) ++ l); apply bind_app).
  destruct (decide (b = b_quote ∨ b = b_backslash)) as [Hq|Hq].
  - destruct Hb as (Hw & _). assert (c = []) as -> by (destruct Hq as [-> | ->]; by destruct c).
    destruct Hq as [-> | ->]; (split; [by apply lc_echar|by repeat constructor]).
  - assert (escape (b :: c) = b :: c) as ->.
    { destruct Hb as (_ & Hb & Hc). unfold escape. cbn. rewrite decide_False by done. cbn. f_equal.
      induction Hc as [|x c Hx Hc IHc]; [done|]. cbn. rewrite decide_False; [by rewrite IHc|].
      unfold b_quote, b_backslash. lia. }
    split; [cbn; apply lc_char; naive_solver|].
    apply Forall_app. split; [|done]. destruct Hb as (_ & Hb & Hc). constructor; [lia|].
    eapply Forall_impl; [exact Hc|]. cbn. lia.
Qed.

Lemma byte_list_parts (l k : bytes) b : byte_list l → (b < 256)%N → byte_list k → byte_list (l ++ b :: k).
Proof. intros. apply Forall_app. by repeat constructor. Qed.

#[export] Instance demo_oxrdf_laws : OxrdfLaws.
Proof.
  split; try done; cbn [literal_display demo_oxrdf display new_simple_literal new_typed_literal
      new_language_tagged_literal_unchecked].
  - intros v [Ht Hb]%escape_text. split; [by apply (@lt_simple demo_oxrdf)|].
    constructor; [done|]. apply byte_list_parts; [done|done|constructor].
  - intros v g [Ht Hb]%escape_text Hg. split; [by apply (@lt_lang demo_oxrdf)|].
    constructor; [done|]. apply byte_list_parts; [done|done|by constructor].
  - intros v dt [Ht Hb]%escape_text Hdt. split; [by apply (@lt_typed demo_oxrdf)|].
    constructor; [done|]. apply byte_list_parts; [done|done|]. repeat (constructor; [done|]).
    apply byte_list_parts; [done|done|constructor].
Qed.
End DemoOxrdf.

Lemma utf8_text_ascii l : Forall (λ b, b < 128)%N l → utf8_text l.
Proof. induction 1; [constructor|by apply utf8_text_ascii_cons]. Qed.

Section findings.
Import DemoOxrdf.
#[local] Open Scope N_scope.

(** [&value[..width]] cuts inside a two-byte character. *)
Example hex_escape_panics :
  parse_ntriples_literal [34; 92; 117; 48; 48; 48; 195; 169; 34] = (Panic : outcome unit _).
Proof. vm_compute. reflexivity. Qed.

(** [u32::from_str_radix] takes a leading [+]. *)
Example plus_sign_escape :
  parse_ntriples_literal [34; 92; 117; 43; 48; 52; 49; 34]
    = (Ok (Some (new_simple_literal [65])) : outcome unit _).
Proof. vm_compute. reflexivity. Qed.

(** The text ["\'"] is admitted by [check_term], and read as no term. *)
Theorem admitted_literal_unreadable :
  check_term (encode [34; 92; 39; 34]) = Ok Lit ∧
  to_term (encode [34; 92; 39; 34]) = (Ok None : outcome unit _) ∧
  check_term (encode [34; 92; 117; 68; 56; 48; 48; 34]) = Ok Lit ∧
  to_term (encode [34; 92; 117; 68; 56; 48; 48; 34]) = (Ok None : outcome unit _).
Proof. vm_compute. repeat split. Qed.

(** An IRI, a literal that is read, and one that is not. *)
Example check_term_reads_witness :
  (∃ iri, to_term (encode [60; 97; 62]) = (Ok (Some (NamedNode iri)) : outcome unit _) ∧
     to_named_node (encode [60; 97; 62]) = Some iri ∧ iri_body_ok iri = true ∧
     term_bytes (encode [60; 97; 62]) = b_lt :: iri ++ [b_gt]) ∧
  (∃ l, to_term (encode [34; 97; 34]) = (Ok (LiteralTerm <$> l) : outcome unit _) ∧
     (l = None ↔ unreadable_escape (drop 1 (term_bytes (encode [34; 97; 34])))) ∧
     (∀ l', literal_text (term_bytes (encode [34; 97; 34])) l' → l = Some l')) ∧
  (∃ l, to_term (encode [34; 92; 39; 34]) = (Ok (LiteralTerm <$> l) : outcome unit _) ∧
     (l = None ↔ unreadable_escape (drop 1 (term_bytes (encode [34; 92; 39; 34])))) ∧
     (∀ l', literal_text (term_bytes (encode [34; 92; 39; 34])) l' → l = Some l')).
Proof.
  split_and!; [apply (check_term_reads _ Iri)|apply (check_term_reads _ Lit)|apply (check_term_reads _ Lit)];
    vm_compute; reflexivity.
Defined.

Example literal_text_parses_witness :
  parse_ntriples_literal [34; 97; 34; 64; 101; 110]
    = (Ok (Some (new_language_tagged_literal_unchecked [97] [101; 110])) : outcome unit _).
Proof.
  apply literal_text_parses. apply (lt_lang [97] [97] [101; 110]).
  apply (lc_char 97 [] [] []); [done|done|by apply utf8_one_ascii|constructor].
Defined.

Example canonical_stable_witness :
  canonical (encode [34; 97; 34; 64; 69; 78]) = (Ok (Some (encode [34; 97; 34; 64; 101; 110])) : outcome unit _) ∧
  canonical (encode [34; 97; 34; 64; 101; 110]) = (Ok None : outcome unit _).
Proof.
  assert (canonical (encode [34; 97; 34; 64; 69; 78])
    = (Ok (Some (encode [34; 97; 34; 64; 101; 110])) : outcome unit _)) as Hc by (vm_compute; reflexivity).
  split; [exact Hc|].
  refine (proj1 (canonical_stable _ _ _ Hc)).
  apply utf8_text_ascii. refine (bool_decide_unpack _ _). vm_compute. exact I.
Defined.
End findings.
