(* ===== verification/Store.v ===== *)
(** * The quad store ([src/internal/store.rs])

    The keyspaces the replication layer reads and writes -- interned terms, quad
    dot sets, graph metadata, clocks, tombstones and log heads -- as one state
    record, and the write batch that stages changes against it until [commit].
    Values are kept decoded; their byte encodings are in [Codec].  [blake3] is
    not code of the repository: the digest is the class [Blake3].  The work
    queues, receipts, bindings and caches a commit also carries are not part of
    this state. *)

From S2P Require Import Prelude Clock Terms.

Class Blake3 := blake3 : bytes → bytes.

Abbreviation TermId := N (only parsing).

(** [hash_term]: the first 16 digest bytes, big-endian. *)
Definition hash_term `{Blake3} (term : EncodedTerm) : TermId :=
  of_be_bytes (take 16 (blake3 (string_bytes "craqle-term/v1" ++ [0%N] ++ term_bytes term))).

Record EncodedQuad := {
  quad_graph : TermId; quad_subject : TermId; quad_predicate : TermId; quad_object : TermId;
}.
#[export] Instance encoded_quad_eq_dec : EqDecision EncodedQuad.
Proof. solve_decision. Defined.
#[export] Program Instance encoded_quad_countable : Countable EncodedQuad :=
  inj_countable' (λ q, (quad_graph q, quad_subject q, quad_predicate q, quad_object q))
    (λ p, {| quad_graph := p.1.1.1; quad_subject := p.1.1.2; quad_predicate := p.1.2; quad_object := p.2 |}) _.
Next Obligation. by intros []. Qed.

Inductive StoreError :=
  | TermCollision (attempted existing : EncodedTerm)
  | TermNotFound (id : TermId)
  | GraphNotFound (graph : GraphId)
  | InvalidEncoding (context : string)
  | LimitExceeded (resource : string) (limit actual : N)
  | ReceiptConflict
  | UnsupportedIndexFormat (found supported : N)
  | QueryIndexCapacity
  | InvalidSearchState (reason : string)
  | InvalidAuthoritativeFormat
  | InvalidIndexEncoding (context : string)
  | IndexVerificationFailed (reason : string)
  | QueryIndexUnavailable (reason : string)
  | Cancelled.

Record StoredGraphMeta := {
  meta_policy : GraphPolicy;
  meta_policy_tag : Tag;
  meta_clock : VectorClock.t;
  irokle_topic : option bytes;
  rocrate_context : option string;
  rocrate_license : option string;
  rocrate_license_digest : option bytes;
  context_tag : Tag;
}.
Definition StoredGraphMeta_default : StoredGraphMeta :=
  {| meta_policy := {| public := false; permission_paths := [] |};
     meta_policy_tag := PolicyTag.GENESIS; meta_clock := VectorClock.new; irokle_topic := None;
     rocrate_context := None; rocrate_license := None; rocrate_license_digest := None;
     context_tag := ContextTag.GENESIS |}.

Record Store := {
  terms : gmap TermId EncodedTerm;
  quads : gmap EncodedQuad (list Dot);
  graph_metas : gmap TermId StoredGraphMeta;
  graph_clocks : gmap TermId VectorClock.t;
  graph_tombstones : gmap TermId GraphTombstone;
  deleted_policies : gmap TermId GraphPolicy;
  log_heads : gmap (TermId * ActorId) N;
}.
Definition empty_store : Store :=
  {| terms := ∅; quads := ∅; graph_metas := ∅; graph_clocks := ∅; graph_tombstones := ∅;
     deleted_policies := ∅; log_heads := ∅ |}.

(** ** Write batches *)

(** The insertions and removals a batch stages, one constructor per keyspace
    entry, in the order they are staged. *)
Inductive Write :=
  | PutTerm (id : TermId) (term : EncodedTerm)
  | PutQuad (quad : EncodedQuad) (dots : list Dot)
  | DelQuad (quad : EncodedQuad)
  | PutMeta (graph : TermId) (meta : StoredGraphMeta)
  | DelMeta (graph : TermId)
  | PutClock (graph : TermId) (clock : VectorClock.t)
  | DelClock (graph : TermId)
  | PutTombstone (graph : TermId) (tombstone : GraphTombstone)
  | PutDeletedPolicy (graph : TermId) (policy : GraphPolicy)
  | PutHead (graph : TermId) (actor : ActorId) (counter : N)
  | DelHead (graph : TermId) (actor : ActorId).

Inductive QuadMutation := MutInsert (quad : EncodedQuad) | MutRemove (quad : EncodedQuad).

Record WriteBatch := {
  inner : list Write;
  pending_quad_states : gmap EncodedQuad (option (list Dot));
  pending_terms : gmap TermId EncodedTerm;
  quad_mutations : list QuadMutation;
}.
Definition new_batch : WriteBatch :=
  {| inner := []; pending_quad_states := ∅; pending_terms := ∅; quad_mutations := [] |}.

Definition apply_write (st : Store) (w : Write) : Store :=
  let '{| terms := ts; quads := qs; graph_metas := ms; graph_clocks := cs;
          graph_tombstones := tb; deleted_policies := dp; log_heads := lh |} := st in
  match w with
  | PutTerm id t => {| terms := <[id := t]> ts; quads := qs; graph_metas := ms; graph_clocks := cs;
      graph_tombstones := tb; deleted_policies := dp; log_heads := lh |}
  | PutQuad q d => {| terms := ts; quads := <[q := d]> qs; graph_metas := ms; graph_clocks := cs;
      graph_tombstones := tb; deleted_policies := dp; log_heads := lh |}
  | DelQuad q => {| terms := ts; quads := delete q qs; graph_metas := ms; graph_clocks := cs;
      graph_tombstones := tb; deleted_policies := dp; log_heads := lh |}
  | PutMeta g m => {| terms := ts; quads := qs; graph_metas := <[g := m]> ms; graph_clocks := cs;
      graph_tombstones := tb; deleted_policies := dp; log_heads := lh |}
  | DelMeta g => {| terms := ts; quads := qs; graph_metas := delete g ms; graph_clocks := cs;
      graph_tombstones := tb; deleted_policies := dp; log_heads := lh |}
  | PutClock g c => {| terms := ts; quads := qs; graph_metas := ms; graph_clocks := <[g := c]> cs;
      graph_tombstones := tb; deleted_policies := dp; log_heads := lh |}
  | DelClock g => {| terms := ts; quads := qs; graph_metas := ms; graph_clocks := delete g cs;
      graph_tombstones := tb; deleted_policies := dp; log_heads := lh |}
  | PutTombstone g t => {| terms := ts; quads := qs; graph_metas := ms; graph_clocks := cs;
      graph_tombstones := <[g := t]> tb; deleted_policies := dp; log_heads := lh |}
  | PutDeletedPolicy g p => {| terms := ts; quads := qs; graph_metas := ms; graph_clocks := cs;
      graph_tombstones := tb; deleted_policies := <[g := p]> dp; log_heads := lh |}
  | PutHead g a n => {| terms := ts; quads := qs; graph_metas := ms; graph_clocks := cs;
      graph_tombstones := tb; deleted_policies := dp; log_heads := <[(g, a) := n]> lh |}
  | DelHead g a => {| terms := ts; quads := qs; graph_metas := ms; graph_clocks := cs;
      graph_tombstones := tb; deleted_policies := dp; log_heads := delete (g, a) lh |}
  end.

(** [GraphStore::commit]: the batch applies as a whole. *)
Definition commit (st : Store) (b : WriteBatch) : Store := foldl apply_write st (inner b).

Definition stage (b : WriteBatch) (w : Write) : WriteBatch :=
  {| inner := inner b ++ [w]; pending_quad_states := pending_quad_states b;
     pending_terms := pending_terms b; quad_mutations := quad_mutations b |}.

(** ** Terms *)

Section terms.
Context `{Blake3}.

Definition confirm_stored_term (stored term : EncodedTerm) : outcome StoreError () :=
  if decide (stored = term) then Ok () else Err (TermCollision term stored).

(** [encode_term_internal] with a batch.  The second look-up the source makes
    under the shard lock repeats the first one and is written once. *)
Definition encode_term_batch (st : Store) (b : WriteBatch) (term : EncodedTerm)
    : outcome StoreError (TermId * WriteBatch) :=
  let id := hash_term term in
  match pending_terms b !! id with
  | Some existing => _ ← confirm_stored_term existing term; Ok (id, b)
  | None =>
      match terms st !! id with
      | Some existing => _ ← confirm_stored_term existing term; Ok (id, b)
      | None =>
          Ok (id, {| inner := inner b ++ [PutTerm id term];
                     pending_quad_states := pending_quad_states b;
                     pending_terms := <[id := term]> (pending_terms b);
                     quad_mutations := quad_mutations b |})
      end
  end.

(** [encode_term_internal] without a batch ([encode_term], [resolve_term]):
    the term is committed at once. *)
Definition encode_term (st : Store) (term : EncodedTerm) : outcome StoreError (TermId * Store) :=
  let id := hash_term term in
  match terms st !! id with
  | Some existing => _ ← confirm_stored_term existing term; Ok (id, st)
  | None => Ok (id, apply_write st (PutTerm id term))
  end.
Definition resolve_term := encode_term.

Definition lookup_term (st : Store) (term : EncodedTerm) : outcome StoreError (option TermId) :=
  let id := hash_term term in
  match terms st !! id with
  | None => Ok None
  | Some existing => if decide (existing = term) then Ok (Some id) else Err (TermCollision term existing)
  end.

Definition decode_term (st : Store) (id : TermId) : outcome StoreError EncodedTerm :=
  ok_or (TermNotFound id) (terms st !! id).

(** A batch together with its memo table of interned terms. *)
Record BatchTermCtx := { cx_batch : WriteBatch; cx_cache : gmap EncodedTerm TermId }.

Definition resolve_term_cached (st : Store) (cx : BatchTermCtx) (term : EncodedTerm)
    : outcome StoreError (TermId * BatchTermCtx) :=
  match cx_cache cx !! term with
  | Some id => Ok (id, cx)
  | None =>
      '(id, b) ← encode_term_batch st (cx_batch cx) term;
      Ok (id, {| cx_batch := b; cx_cache := <[term := id]> (cx_cache cx) |})
  end.

Definition seed_term_cache (st : Store) (cx : BatchTermCtx) (l : list EncodedTerm)
    : outcome StoreError BatchTermCtx :=
  try_fold (λ cx term, '(_, cx) ← resolve_term_cached st cx term; Ok cx) cx l.

Definition graph_id_for (st : Store) (graph : GraphId) : outcome StoreError (option TermId) :=
  lookup_term st (from_named_node graph).
End terms.

(** ** Graph records *)

Section graphs.
Context `{Blake3}.

Definition read_graph_meta (st : Store) (graph : TermId) : option StoredGraphMeta :=
  graph_metas st !! graph.

Definition create_graph (st : Store) (graph : GraphId) : outcome StoreError Store :=
  '(graph_id, b) ← encode_term_batch st new_batch (from_named_node graph);
  match read_graph_meta st graph_id with
  | None => Ok (commit st (stage b (PutMeta graph_id StoredGraphMeta_default)))
  | Some _ => Ok st
  end.

Definition stage_graph (st : Store) (b : WriteBatch) (graph : GraphId)
    : outcome StoreError (TermId * WriteBatch) :=
  '(graph_id, b) ← encode_term_batch st b (from_named_node graph);
  match read_graph_meta st graph_id with
  | None => Ok (graph_id, stage b (PutMeta graph_id StoredGraphMeta_default))
  | Some _ => Ok (graph_id, b)
  end.

Definition contains_graph_id (st : Store) (graph_id : TermId) : bool :=
  bool_decide (is_Some (graph_metas st !! graph_id)).
Definition contains_graph (st : Store) (graph : GraphId) : outcome StoreError bool :=
  id ← graph_id_for st graph;
  match id with Some graph_id => Ok (contains_graph_id st graph_id) | None => Ok false end.

(** [snapshot_vector_clock]: the clock key, else the legacy clock of the
    metadata record. *)
Definition vector_clock_id (st : Store) (graph_id : TermId) : VectorClock.t :=
  match graph_clocks st !! graph_id with
  | Some clock => clock
  | None => meta_clock (default StoredGraphMeta_default (graph_metas st !! graph_id))
  end.
Definition get_vector_clock (st : Store) (graph : GraphId) : outcome StoreError VectorClock.t :=
  id ← graph_id_for st graph;
  match id with Some graph_id => Ok (vector_clock_id st graph_id) | None => Ok VectorClock.new end.
Definition set_vector_clock (b : WriteBatch) (graph_id : TermId) (clock : VectorClock.t) : WriteBatch :=
  stage b (PutClock graph_id clock).

(** [decode_u64(..) + 1] overflows the counter in release mode by wrapping;
    debug builds panic.  The release behaviour is modelled. *)
Definition next_counter (st : Store) (b : WriteBatch) (graph_id : TermId) (actor : ActorId)
    : N * WriteBatch :=
  let counter := match log_heads st !! (graph_id, actor) with
                 | Some head => wrap_add 64 head 1
                 | None => 1%N
                 end in
  (counter, stage b (PutHead graph_id actor counter)).

Definition graph_tombstone (st : Store) (graph : GraphId) : outcome StoreError (option GraphTombstone) :=
  id ← graph_id_for st graph;
  match id with Some graph_id => Ok (graph_tombstones st !! graph_id) | None => Ok None end.
Definition graph_tombstoned (st : Store) (graph : GraphId) : outcome StoreError bool :=
  t ← graph_tombstone st graph; Ok (bool_decide (is_Some t)).

(** [set_tagged_policy]: writes the register whatever its current tag. *)
Definition set_tagged_policy (st : Store) (graph : GraphId) (tagged : TaggedGraphPolicy)
    : outcome StoreError Store :=
  '(graph_id, b) ← encode_term_batch st new_batch (from_named_node graph);
  let meta := default StoredGraphMeta_default (read_graph_meta st graph_id) in
  Ok (commit st (stage b (PutMeta graph_id
    {| meta_policy := normalized (policy tagged); meta_policy_tag := policy_tag tagged;
       meta_clock := meta_clock meta; irokle_topic := irokle_topic meta;
       rocrate_context := rocrate_context meta; rocrate_license := rocrate_license meta;
       rocrate_license_digest := rocrate_license_digest meta; context_tag := context_tag meta |}))).

Definition graph_tagged_policy (st : Store) (graph : GraphId) : outcome StoreError TaggedGraphPolicy :=
  id ← graph_id_for st graph;
  match id with
  | None => Ok {| policy := {| public := false; permission_paths := [] |}; policy_tag := PolicyTag.GENESIS |}
  | Some graph_id =>
      let meta := default StoredGraphMeta_default (read_graph_meta st graph_id) in
      Ok {| policy := meta_policy meta; policy_tag := meta_policy_tag meta |}
  end.

(** [stage_graph_context]: a write whose tag does not exceed the stored one
    is ignored. *)
Definition stage_graph_context (st : Store) (b : WriteBatch) (graph_id : TermId)
    (tagged : TaggedRenderHints) : WriteBatch * bool :=
  let meta := default StoredGraphMeta_default (read_graph_meta st graph_id) in
  if decide (cmp_le (hints_tag tagged) (context_tag meta)) then (b, false)
  else (stage b (PutMeta graph_id
    {| meta_policy := meta_policy meta; meta_policy_tag := meta_policy_tag meta;
       meta_clock := meta_clock meta; irokle_topic := irokle_topic meta;
       rocrate_context := hints_context (tagged_hints tagged);
       rocrate_license := hints_license (tagged_hints tagged);
       rocrate_license_digest := hints_license_digest (tagged_hints tagged);
       context_tag := hints_tag tagged |}), true).
End graphs.

(** ** Quads *)

Definition normalize_dots (dots : list Dot) : list Dot := dedup (sort dots).

Definition read_quad_dots (st : Store) (key : EncodedQuad) : list Dot :=
  default [] (quads st !! key).

Definition current_quad_dots (st : Store) (b : WriteBatch) (key : EncodedQuad) : list Dot :=
  match pending_quad_states b !! key with
  | Some state => default [] state
  | None => read_quad_dots st key
  end.

Definition write_quad_state (st : Store) (b : WriteBatch) (quad : EncodedQuad) (dots : list Dot)
    : WriteBatch * bool :=
  let dots := normalize_dots dots in
  let was_live := bool_decide (current_quad_dots st b quad ≠ []) in
  let is_live := bool_decide (dots ≠ []) in
  let writes := inner b ++ [if is_live then PutQuad quad dots else DelQuad quad] in
  let states := <[quad := if is_live then Some dots else None]> (pending_quad_states b) in
  let '(mutations, changed) :=
    match was_live, is_live with
    | false, true => (quad_mutations b ++ [MutInsert quad], true)
    | true, false => (quad_mutations b ++ [MutRemove quad], true)
    | _, _ => (quad_mutations b, false)
    end in
  ({| inner := writes; pending_quad_states := states; pending_terms := pending_terms b;
      quad_mutations := mutations |}, changed).

Definition insert_quad (st : Store) (b : WriteBatch) (quad : EncodedQuad) (dot : Dot)
    : WriteBatch * bool :=
  let dots := current_quad_dots st b quad in
  if decide (dot ∈ dots) then (b, false) else write_quad_state st b quad (dots ++ [dot]).

Definition remove_quad (st : Store) (b : WriteBatch) (quad : EncodedQuad) (witnessed : VectorClock.t)
    : WriteBatch * bool :=
  let before := current_quad_dots st b quad in
  let dots := filter (λ d, VectorClock.contains witnessed d = false) before in
  if decide (length before = length dots) then (b, false) else write_quad_state st b quad dots.

Definition contains_quad (st : Store) (quad : EncodedQuad) : bool :=
  match quads st !! quad with Some dots => bool_decide (dots ≠ []) | None => false end.

(** [visit_graph_quads] and the prefix scan of one graph: its live quads, in
    key order. *)
#[export] Instance encoded_quad_ord : Ord EncodedQuad := λ q r,
  cmp (quad_graph q, quad_subject q, quad_predicate q, quad_object q)
      (quad_graph r, quad_subject r, quad_predicate r, quad_object r).
#[export] Instance encoded_quad_total_ord : TotalOrd EncodedQuad.
Proof.
  pose (key q := (quad_graph q, quad_subject q, quad_predicate q, quad_object q)).
  split.
  - intros [a b c d] [a' b' c' d']. etrans; [apply (cmp_eq_iff (a, b, c, d) (a', b', c', d'))|]. naive_solver.
  - intros q r. exact (cmp_opp (key q) (key r)).
  - intros q r s. exact (cmp_lt_trans (key q) (key r) (key s)).
Qed.

Definition graph_rows (st : Store) (graph : TermId) : list (EncodedQuad * list Dot) :=
  filter (λ row, quad_graph row.1 = graph ∧ row.2 ≠ []) (btree_iter (quads st)).

Section snapshots.
Context `{Blake3}.

Definition snapshot_row (st : Store) (row : EncodedQuad * list Dot) : outcome StoreError SnapshotQuadState :=
  s ← decode_term st (quad_subject row.1);
  p ← decode_term st (quad_predicate row.1);
  o ← decode_term st (quad_object row.1);
  Ok {| sq_subject := s; sq_predicate := p; sq_object := o; sq_dots := sort row.2 |}.

Definition sq_key (q : SnapshotQuadState) : EncodedTerm * EncodedTerm * EncodedTerm :=
  (sq_subject q, sq_predicate q, sq_object q).

(** [sort_unstable_by] on the three terms. *)
Definition sort_quads (l : list SnapshotQuadState) : list SnapshotQuadState :=
  merge_sort (λ q r, cmp_le (sq_key q) (sq_key r)) l.

Definition graph_snapshot (st : Store) (graph : GraphId) : outcome StoreError GraphReplicaSnapshot :=
  id ← graph_id_for st graph;
  match id with
  | None => Ok {| snap_graph := graph; snap_clock := VectorClock.new; snap_quads := [] |}
  | Some graph_id =>
      rows ← try_map (snapshot_row st) (graph_rows st graph_id);
      Ok {| snap_graph := graph; snap_clock := vector_clock_id st graph_id;
            snap_quads := sort_quads rows |}
  end.

(** [delete_graph_inner] as [delete_with_receipt] calls it, with a tombstone;
    of two tombstones the one with the greater event is kept. *)
Definition retained_tombstone (existing : option GraphTombstone) (tombstone : GraphTombstone)
    : GraphTombstone :=
  match existing with
  | Some existing => if decide (delete_event tombstone ≤ delete_event existing)%N then existing else tombstone
  | None => tombstone
  end.

Definition delete_graph (st : Store) (tombstone : GraphTombstone) : outcome StoreError Store :=
  let graph := tomb_graph tombstone in
  id ← graph_id_for st graph;
  '(graph_id, b) ← (match id with
                    | Some graph_id => Ok (graph_id, new_batch)
                    | None => encode_term_batch st new_batch (from_named_node graph)
                    end : outcome StoreError _);
  let deleted := normalized (meta_policy (default StoredGraphMeta_default (read_graph_meta st graph_id))) in
  let retained := retained_tombstone (graph_tombstones st !! graph_id) tombstone in
  let b := stage (stage b (PutTombstone graph_id retained)) (PutDeletedPolicy graph_id deleted) in
  let b := foldl (λ b row, (write_quad_state st b row.1 []).1) b (graph_rows st graph_id) in
  let b := stage (stage b (DelMeta graph_id)) (DelClock graph_id) in
  let heads := filter (λ ga, ga.1 = graph_id) (btree_keys (log_heads st)) in
  Ok (commit st (foldl (λ b ga, stage b (DelHead ga.1 ga.2)) b heads)).
End snapshots.

(** A digest for concrete evaluation: the hashed text itself, padded. *)
Module DemoBlake3.
#[export] Instance demo_blake3 : Blake3 := λ l, take 32 (drop 15 l ++ repeat 0%N 32).
End DemoBlake3.
