(* ===== verification/Codec.v ===== *)
(** * Key and value encodings ([src/internal/store.rs])

    Every stored key is a concatenation of fixed-width big-endian fields behind
    a tag byte; [fields] is that layout and its two laws -- injectivity and
    agreement of byte order with the lexicographic order of the fields -- carry
    the key spaces.  The values encoded by hand (dot sets, queue tokens, disk
    format, index header, index counters) are encoded and decoded as the source
    does it.  [postcard], which encodes the other values, is not code of the
    repository. *)

From S2P Require Import Prelude Clock Terms Store.

(** ** Fixed-width fields *)

Fixpoint fields (ws : list nat) (xs : list N) : bytes :=
  match ws, xs with
  | w :: ws', x :: xs' => be_bytes w x ++ fields ws' xs'
  | _, _ => []
  end.

Fixpoint read_fields (ws : list nat) (l : bytes) : list N :=
  match ws with
  | [] => []
  | w :: ws' => of_be_bytes (take w l) :: read_fields ws' (drop w l)
  end.

(** Every field in its width. *)
Definition fit (ws : list nat) (xs : list N) : Prop :=
  Forall2 (λ w x, x < 256 ^ N.of_nat w)%N ws xs.
#[export] Instance fit_dec ws xs : Decision (fit ws xs).
Proof. unfold fit. apply _. Defined.

Definition TermId_fit (t : TermId) : Prop := (t < 256 ^ 16)%N.
Definition id32_fit (x : N) : Prop := (x < 256 ^ 32)%N.
Definition u64_fit (x : N) : Prop := (x < 256 ^ 8)%N.

(** ** Scalars *)

Record DiskFormatVersion := { major : N; minor : N }.

Definition encode_disk_format (v : DiskFormatVersion) : bytes := fields [2; 2] [major v; minor v].
Definition decode_disk_format (l : bytes) : outcome StoreError DiskFormatVersion :=
  if decide (length l ≠ 4) then Err InvalidAuthoritativeFormat
  else Ok {| major := of_be_bytes (take 2 l); minor := of_be_bytes (drop 2 l) |}.

Definition decode_u64 (l : bytes) (context : string) : outcome StoreError N :=
  if decide (length l = 8) then Ok (of_be_bytes l) else Err (InvalidEncoding context).

Record DirtyTokens := { oldest : N; latest : N }.
Definition encode_dirty_tokens (t : DirtyTokens) : bytes := fields [8; 8] [oldest t; latest t].
Definition decode_dirty_tokens (l : bytes) (context : string) : outcome StoreError DirtyTokens :=
  if decide (length l = 8) then
    token ← decode_u64 l context; Ok {| oldest := token; latest := token |}
  else if decide (length l ≠ 16) then Err (InvalidEncoding context)
  else
    old ← decode_u64 (take 8 l) context; new ← decode_u64 (drop 8 l) context;
    Ok {| oldest := old; latest := new |}.

Definition decode_term_id (l : bytes) (context : string) : outcome StoreError TermId :=
  if decide (length l = 16) then Ok (of_be_bytes l) else Err (InvalidEncoding context).

(** ** Dot sets *)

Definition DOT_ENCODING_TAG : N := 68.

Definition encode_dots (dots : list Dot) : bytes :=
  DOT_ENCODING_TAG :: (dots ≫= λ d, be_bytes 32 (dot_actor d) ++ be_bytes 8 (dot_counter d)).

(** [as_chunks::<40>()] on a length already checked to be a multiple. *)
Fixpoint dot_chunks (n : nat) (l : bytes) : list Dot :=
  match n with
  | O => []
  | S n' =>
      let chunk := take 40 l in
      {| dot_actor := of_be_bytes (take 32 chunk); dot_counter := of_be_bytes (drop 32 chunk) |}
        :: dot_chunks n' (drop 40 l)
  end.

(** The untagged form is [postcard]'s, an argument. *)
Definition decode_dots (postcard : bytes → outcome StoreError (list Dot)) (l : bytes)
    : outcome StoreError (list Dot) :=
  match l with
  | tag :: payload =>
      if decide (tag = DOT_ENCODING_TAG) then
        if decide ((length payload mod 40)%nat ≠ 0%nat) then Err (InvalidEncoding "quad dots")
        else Ok (dot_chunks (length payload / 40) payload)
      else postcard l
  | [] => postcard l
  end.

Definition dots_empty (l : bytes) : bool := bool_decide (length l ≤ 1).

Definition dot_fit (d : Dot) : Prop := id32_fit (dot_actor d) ∧ u64_fit (dot_counter d).

(** ** The [quads] keys *)

Definition quad_key (q : EncodedQuad) : bytes :=
  fields [16; 16; 16; 16] [quad_graph q; quad_subject q; quad_predicate q; quad_object q].

Definition decode_quad_key (l : bytes) : outcome StoreError EncodedQuad :=
  if decide (length l ≠ 64) then Err (InvalidEncoding "quad key")
  else
    g ← decode_term_id (take 16 l) "quad graph";
    s ← decode_term_id (take 16 (drop 16 l)) "quad subject";
    p ← decode_term_id (take 16 (drop 32 l)) "quad predicate";
    o ← decode_term_id (drop 48 l) "quad object";
    Ok {| quad_graph := g; quad_subject := s; quad_predicate := p; quad_object := o |}.

Definition quad_fit (q : EncodedQuad) : Prop :=
  TermId_fit (quad_graph q) ∧ TermId_fit (quad_subject q) ∧
  TermId_fit (quad_predicate q) ∧ TermId_fit (quad_object q).

(** ** The [graphs] keys

    One function per record, as in the source; [GraphKey] lists the records. *)

Definition graph_meta_key (g : TermId) : bytes := fields [1; 16] [77; g]%N.
Definition graph_dirty_key (g s : TermId) : bytes := fields [1; 16; 16] [68; g; s]%N.
Definition graph_dirty_scope (g : TermId) : bytes := fields [1; 16] [68; g]%N.
Definition graph_dirty_prefix : bytes := [68]%N.
Definition graph_reindex_key (g : TermId) : bytes := fields [1; 16] [82; g]%N.
Definition graph_reindex_prefix : bytes := [82]%N.
Definition graph_delete_key (g : TermId) : bytes := fields [1; 16] [88; g]%N.
Definition graph_delete_prefix : bytes := [88]%N.
Definition graph_meta_prefix : bytes := [77]%N.
Definition graph_clock_key (g : TermId) : bytes := fields [1; 16] [75; g]%N.
Definition graph_diagnostics_key (g : TermId) : bytes := fields [1; 16] [79; g]%N.
Definition shacl_binding_key (data shapes : TermId) : bytes := fields [1; 16; 16] [83; data; shapes]%N.
Definition shacl_binding_prefix (data : TermId) : bytes := fields [1; 16] [83; data]%N.
Definition binding_reverse_key (dependency data shapes : TermId) : bytes :=
  fields [1; 16; 16; 16] [115; dependency; data; shapes]%N.
Definition binding_reverse_prefix (dependency : TermId) : bytes := fields [1; 16] [115; dependency]%N.
Definition shacl_pending_key (data : TermId) : bytes := fields [1; 16] [86; data]%N.
Definition shacl_pending_prefix : bytes := [86]%N.
Definition topic_clock_key (topic : N) : bytes := fields [1; 32] [67; topic]%N.
Definition topic_binding_key (topic : N) : bytes := fields [1; 32] [84; topic]%N.
Definition graph_tombstone_key (g : TermId) : bytes := fields [1; 16] [90; g]%N.
Definition deleted_policy_key (g : TermId) : bytes := fields [1; 16] [89; g]%N.
Definition replication_rejection_key (topic record : N) : bytes := fields [1; 32; 32] [74; topic; record]%N.
Definition replication_rejection_prefix : bytes := [74]%N.
Definition cursor_audit_key (topic old_digest new_digest : N) : bytes :=
  fields [1; 32; 32; 32] [65; topic; old_digest; new_digest]%N.

(** The [log] keys. *)
Definition log_head_key (g : TermId) (actor : ActorId) : bytes := fields [1; 16; 32] [72; g; actor]%N.
Definition log_head_prefix (g : TermId) : bytes := fields [1; 16] [72; g]%N.
Definition log_batch_prefix (g : TermId) : bytes := fields [1; 16] [66; g]%N.

Inductive GraphKey :=
  | KMeta (g : TermId) | KDirty (g s : TermId) | KReindex (g : TermId) | KDelete (g : TermId)
  | KClock (g : TermId) | KDiagnostics (g : TermId) | KBinding (data shapes : TermId)
  | KReverse (dependency data shapes : TermId) | KPending (data : TermId)
  | KTopicClock (topic : N) | KTopicBinding (topic : N) | KTombstone (g : TermId)
  | KDeletedPolicy (g : TermId) | KRejection (topic record : N)
  | KCursorAudit (topic old_digest new_digest : N).

Definition graph_key (k : GraphKey) : bytes :=
  match k with
  | KMeta g => graph_meta_key g
  | KDirty g s => graph_dirty_key g s
  | KReindex g => graph_reindex_key g
  | KDelete g => graph_delete_key g
  | KClock g => graph_clock_key g
  | KDiagnostics g => graph_diagnostics_key g
  | KBinding d s => shacl_binding_key d s
  | KReverse e d s => binding_reverse_key e d s
  | KPending d => shacl_pending_key d
  | KTopicClock t => topic_clock_key t
  | KTopicBinding t => topic_binding_key t
  | KTombstone g => graph_tombstone_key g
  | KDeletedPolicy g => deleted_policy_key g
  | KRejection t r => replication_rejection_key t r
  | KCursorAudit t o n => cursor_audit_key t o n
  end.

(** Tag, widths and fields of a record's key. *)
Definition graph_key_layout (k : GraphKey) : N * list nat * list N :=
  match k with
  | KMeta g => (77%N, [16], [g])
  | KDirty g s => (68%N, [16; 16], [g; s])
  | KReindex g => (82%N, [16], [g])
  | KDelete g => (88%N, [16], [g])
  | KClock g => (75%N, [16], [g])
  | KDiagnostics g => (79%N, [16], [g])
  | KBinding d s => (83%N, [16; 16], [d; s])
  | KReverse e d s => (115%N, [16; 16; 16], [e; d; s])
  | KPending d => (86%N, [16], [d])
  | KTopicClock t => (67%N, [32], [t])
  | KTopicBinding t => (84%N, [32], [t])
  | KTombstone g => (90%N, [16], [g])
  | KDeletedPolicy g => (89%N, [16], [g])
  | KRejection t r => (74%N, [32; 32], [t; r])
  | KCursorAudit t o n => (65%N, [32; 32; 32], [t; o; n])
  end.

Definition graph_key_fit (k : GraphKey) : Prop :=
  fit (graph_key_layout k).1.2 (graph_key_layout k).2.

(** ** Search queue keys *)

Inductive QueueKind := QDelete | QReindex | QSubject.
#[export] Instance queue_kind_eq_dec : EqDecision QueueKind.
Proof. solve_decision. Defined.

Record QueueCursor := {
  cur_token : N; cur_kind : QueueKind; cur_graph : TermId; cur_subject : option TermId;
}.

Definition queue_kind_tag (k : QueueKind) : N :=
  match k with QDelete => 0 | QReindex => 1 | QSubject => 2 end.
Definition decode_queue_kind (tag : N) : outcome StoreError QueueKind :=
  if decide (tag = 0)%N then Ok QDelete else if decide (tag = 1)%N then Ok QReindex
  else if decide (tag = 2)%N then Ok QSubject else Err (InvalidSearchState "queue-kind-invalid").

Definition search_order_key (c : QueueCursor) : bytes :=
  fields [1; 8; 1; 16; 16]
    [79%N; cur_token c; queue_kind_tag (cur_kind c); cur_graph c; default 0%N (cur_subject c)].

Definition decode_search_order (l : bytes) : outcome StoreError QueueCursor :=
  if decide (length l ≠ 42 ∨ l !! 0 ≠ Some 79%N) then Err (InvalidSearchState "queue-order-key-invalid")
  else
    kind ← decode_queue_kind (default 0%N (l !! 9));
    let subject := of_be_bytes (drop 26 l) in
    Ok {| cur_token := of_be_bytes (take 8 (drop 1 l)); cur_kind := kind;
          cur_graph := of_be_bytes (take 16 (drop 10 l));
          cur_subject := match kind with QSubject => Some subject | _ => None end |}.

Definition search_failure_key (c : QueueCursor) : bytes :=
  fields [1; 1; 16; 16] [70%N; queue_kind_tag (cur_kind c); cur_graph c; default 0%N (cur_subject c)].

Definition search_generation_key `{Blake3} (graph : GraphId) : bytes :=
  fields [1; 16] [71%N; hash_term (from_named_node graph)].
Definition search_stage_key `{Blake3} (graph : GraphId) : bytes :=
  fields [1; 16] [83%N; hash_term (from_named_node graph)].
Definition search_cleanup_key (generation : N) : bytes := fields [1; 8] [76%N; generation].

(** A cursor the queue holds: a subject exactly for subject work. *)
Definition cursor_wf (c : QueueCursor) : Prop :=
  (cur_kind c = QSubject ↔ is_Some (cur_subject c)) ∧
  u64_fit (cur_token c) ∧ TermId_fit (cur_graph c) ∧ TermId_fit (default 0%N (cur_subject c)).

(** ** Receipt keys *)

(** [(nanos as u64) ^ (1 << 63)] of an [i64]. *)
Definition ordered_time (nanos : Z) : N := N.lxor (Z.to_N (nanos mod 2 ^ 64)) (2 ^ 63).
Definition receipt_order_key (updated_unix_nanos : Z) (id : N) : bytes :=
  fields [8; 32] [ordered_time updated_unix_nanos; id].
Definition batch_receipt_key (graph : TermId) (actor : ActorId) (counter : N) : bytes :=
  fields [1; 1; 16; 32; 8] [0%N; 66%N; graph; actor; counter].
Definition batch_reverse_key (id : N) : bytes := fields [1; 1; 32] [0%N; 82%N; id].
Definition batch_order_key (sequence : N) : bytes := fields [1; 1; 8] [0%N; 77%N; sequence].

(** ** Laws of the field layout *)

Lemma fields_length ws xs : length ws = length xs → length (fields ws xs) = sum_list ws.
Proof.
  revert xs; induction ws as [|w ws IH]; intros [|x xs]; cbn; try done.
  intros [= Hl]. by rewrite length_app, be_bytes_length, IH.
Qed.

Lemma fields_byte_list ws xs : byte_list (fields ws xs).
Proof.
  revert xs; induction ws as [|w ws IH]; intros [|x xs]; cbn; try constructor.
  apply Forall_app. split; [apply be_bytes_byte_list|apply IH].
Qed.

Lemma read_fields_fields ws xs : fit ws xs → read_fields ws (fields ws xs) = xs.
Proof.
  induction 1 as [|w x ws xs Hx _ IH]; cbn; [done|].
  rewrite take_app_length', drop_app_length' by by rewrite be_bytes_length.
  rewrite of_be_bytes_be, N.mod_small by done. by f_equal.
Qed.

Lemma fields_inj ws xs ys : fit ws xs → fit ws ys → fields ws xs = fields ws ys → xs = ys.
Proof.
  intros Hx Hy Heq. by rewrite <- (read_fields_fields ws xs), <- (read_fields_fields ws ys), Heq.
Qed.

(** Keys compare, as byte strings, like the tuples of their fields. *)
Lemma fields_cmp ws xs ys :
  fit ws xs → fit ws ys → list_cmp (fields ws xs) (fields ws ys) = list_cmp xs ys.
Proof.
  intros Hx. revert ys; induction Hx as [|w x ws xs Hx _ IH]; intros ys Hy; inversion Hy; subst; [done|].
  cbn [fields list_cmp]. rewrite list_cmp_app by by rewrite !be_bytes_length.
  rewrite be_bytes_cmp by done. by rewrite IH.
Qed.

Lemma fit_cons w x ws xs : fit (w :: ws) (x :: xs) ↔ (x < 256 ^ N.of_nat w)%N ∧ fit ws xs.
Proof. unfold fit. by rewrite Forall2_cons. Qed.
Lemma fit_nil : fit [] [].
Proof. constructor. Qed.
#[export] Hint Resolve fit_nil : craqle.

Lemma be_bytes_one x : (x < 256)%N → be_bytes 1 x = [x].
Proof. intros Hx. cbn. by rewrite N.div_1_r, N.mod_small. Qed.

(** A key's prefix of whole fields selects exactly the keys with those fields. *)
Lemma fields_prefix ws1 ws2 xs1 ys1 ys2 :
  fit ws1 xs1 → fit (ws1 ++ ws2) (ys1 ++ ys2) → length ys1 = length ws1 →
  fields ws1 xs1 `prefix_of` fields (ws1 ++ ws2) (ys1 ++ ys2) ↔ xs1 = ys1.
Proof.
  assert (∀ ws1 ys1, length ys1 = length ws1 →
    fields (ws1 ++ ws2) (ys1 ++ ys2) = fields ws1 ys1 ++ fields ws2 ys2) as Happ.
  { clear. induction ws1 as [|w ws IH]; intros [|y ys]; cbn; try done.
    intros Hl. rewrite IH by lia. by rewrite app_assoc. }
  intros Hx Hy Hl. rewrite Happ by done.
  apply Forall2_app_inv in Hy as [Hy1 _]; [|done]. split; [|intros ->; by eexists].
  intros [k Hk]. apply (fields_inj ws1); [done|done|].
  apply app_inj_1 in Hk as [Heq _]; [done|].
  apply Forall2_length in Hx, Hy1. by rewrite !fields_length.
Qed.


Lemma graph_key_fields k :
  graph_key k = fields (1 :: (graph_key_layout k).1.2) ((graph_key_layout k).1.1 :: (graph_key_layout k).2).
Proof. by destruct k. Qed.

Lemma graph_key_tag k : graph_key k !! 0 = Some ((graph_key_layout k).1.1).
Proof. by destruct k. Qed.

Lemma layout_inj k1 k2 : graph_key_layout k1 = graph_key_layout k2 → k1 = k2.
Proof. destruct k1, k2; cbn; by intros [=]; subst. Qed.

Lemma layout_widths k1 k2 :
  (graph_key_layout k1).1.1 = (graph_key_layout k2).1.1 →
  (graph_key_layout k1).1.2 = (graph_key_layout k2).1.2.
Proof. by destruct k1, k2. Qed.

(** The records of the [graphs] keyspace never share a key: the keys of two
    different records differ, whatever identifiers they hold. *)
Theorem graph_keys_disjoint k1 k2 :
  graph_key_fit k1 → graph_key_fit k2 → graph_key k1 = graph_key k2 → k1 = k2.
Proof.
  unfold graph_key_fit. intros H1 H2 Heq.
  assert (Htag : (graph_key_layout k1).1.1 = (graph_key_layout k2).1.1).
  { assert (Some ((graph_key_layout k1).1.1) = Some ((graph_key_layout k2).1.1)) as [=];
      [|done]. by rewrite <- !graph_key_tag, Heq. }
  pose proof (layout_widths _ _ Htag) as Hw.
  apply layout_inj. rewrite (surjective_pairing (graph_key_layout k1)),
    (surjective_pairing (graph_key_layout k2)). f_equal; [by apply injective_projections|].
  rewrite !graph_key_fields, Htag, Hw in Heq. cbn [fields] in Heq.
  rewrite Hw in H1. by apply app_inv_head, fields_inj in Heq.
Qed.

Lemma graph_keys_disjoint_witness :
  graph_key_fit (KDirty 3 7) ∧ graph_key_fit (KDirty 3 7) ∧ KDirty 3 7 = KDirty 3 7.
Proof.
  assert (graph_key_fit (KDirty 3 7)) as Hf by (repeat constructor).
  split; [done|]. split; [done|]. exact (graph_keys_disjoint _ _ Hf Hf eq_refl).
Defined.

Lemma prefix_tag (t : N) l k : (t :: l) `prefix_of` k → k !! 0 = Some t.
Proof. by intros [r ->]. Qed.

(** The scan a graph's dirty subjects are read with selects exactly the dirty
    records of that graph among all the records of the keyspace. *)
Theorem dirty_scope_exact g k :
  TermId_fit g → graph_key_fit k →
  graph_dirty_scope g `prefix_of` graph_key k ↔ ∃ s, k = KDirty g s.
Proof.
  unfold graph_key_fit. intros Hg Hk.
  assert (fit [1; 16] [68; g]%N) as Hw by (apply fit_cons; split; [done|by repeat constructor]).
  assert (∀ g' s, fit [16; 16] [g'; s] → fit ([1; 16] ++ [16]) ([68; g'] ++ [s])%N) as Hr.
  { intros g' s Hgs. apply fit_cons. by split. }
  split.
  - intros Hp. pose proof (prefix_tag _ _ _ Hp) as Htag. rewrite graph_key_tag in Htag.
    destruct k as [|g' s| | | | | | | | | | | | |]; try discriminate Htag.
    apply (fields_prefix [1; 16] [16] [68; g]%N [68; g']%N [s]) in Hp; [|by auto..].
    exists s. congruence.
  - intros [s ->]. by apply (fields_prefix [1; 16] [16] [68; g]%N [68; g]%N [s]); [auto..|].
Qed.

Lemma dirty_scope_exact_witness :
  graph_dirty_scope 3 `prefix_of` graph_key (KDirty 3 9).
Proof. refine (proj2 (dirty_scope_exact 3 (KDirty 3 9) _ _) _); [done|by repeat constructor|by exists 9%N]. Defined.

(** The heads of a graph's log are exactly the keys behind its prefix. *)
Lemma log_head_prefix_exact g g' actor :
  TermId_fit g → TermId_fit g' → id32_fit actor →
  log_head_prefix g `prefix_of` log_head_key g' actor ↔ g = g'.
Proof.
  intros Hg Hg' Ha. unfold log_head_prefix, log_head_key.
  rewrite (fields_prefix [1; 16] [32] [72; g]%N [72; g']%N [actor]%N);
    [naive_solver|by repeat constructor..|done].
Qed.

(** ** Round trips *)

Lemma be_round w x : (x < 256 ^ N.of_nat w)%N → of_be_bytes (be_bytes w x) = x.
Proof. intros Hx. by rewrite of_be_bytes_be, N.mod_small. Qed.

Lemma disk_format_round v :
  (major v < 65536)%N → (minor v < 65536)%N → decode_disk_format (encode_disk_format v) = Ok v.
Proof.
  intros Hmaj Hmin. unfold decode_disk_format, encode_disk_format.
  rewrite fields_length by done. cbn [sum_list length]. rewrite decide_False by (by intros []).
  cbn [fields]. rewrite app_nil_r, take_app_length', drop_app_length' by by rewrite be_bytes_length.
  rewrite !be_round by done. by destruct v.
Qed.

Lemma decode_u64_be x context : u64_fit x → decode_u64 (be_bytes 8 x) context = Ok x.
Proof.
  intros Hx. unfold decode_u64. rewrite be_bytes_length, decide_True by done. by rewrite be_round.
Qed.

(** Queue tokens are read back; the eight-byte form of earlier stores reads as
    a range of one token. *)
Lemma dirty_tokens_round t context :
  u64_fit (oldest t) → u64_fit (latest t) →
  decode_dirty_tokens (encode_dirty_tokens t) context = Ok t ∧
  decode_dirty_tokens (be_bytes 8 (oldest t)) context = Ok {| oldest := oldest t; latest := oldest t |}.
Proof.
  intros Ho Hl. unfold decode_dirty_tokens, encode_dirty_tokens. split.
  - rewrite fields_length by done. cbn [sum_list length].
    rewrite decide_False by done. rewrite decide_False by (by intros []).
    cbn [fields]. rewrite app_nil_r, take_app_length', drop_app_length' by by rewrite be_bytes_length.
    rewrite !decode_u64_be by done. by destruct t.
  - rewrite be_bytes_length, decide_True by done. by rewrite decode_u64_be.
Qed.

Definition dot_bytes (d : Dot) : bytes := be_bytes 32 (dot_actor d) ++ be_bytes 8 (dot_counter d).

Lemma dot_bytes_length d : length (dot_bytes d) = 40.
Proof. unfold dot_bytes. by rewrite length_app, !be_bytes_length. Qed.

Lemma dots_payload_length dots : length (dots ≫= dot_bytes) = (length dots * 40)%nat.
Proof.
  induction dots as [|d dots IH]; [done|].
  rewrite bind_cons, length_app, dot_bytes_length, IH. cbn [length]. lia.
Qed.

Lemma dot_chunks_payload dots :
  Forall dot_fit dots → dot_chunks (length dots) (dots ≫= dot_bytes) = dots.
Proof.
  induction 1 as [|d dots [Ha Hc] _ IH]; [done|].
  rewrite bind_cons. cbn [length dot_chunks].
  rewrite take_app_length', drop_app_length' by by rewrite dot_bytes_length.
  rewrite IH. f_equal. unfold dot_bytes.
  rewrite take_app_length', drop_app_length' by by rewrite be_bytes_length.
  rewrite !be_round by done. by destruct d.
Qed.

(** A dot set is read back whatever the decoder of the untagged form does. *)
Theorem dots_round postcard dots :
  Forall dot_fit dots → decode_dots postcard (encode_dots dots) = Ok dots.
Proof.
  intros Hdots. unfold decode_dots, encode_dots. rewrite decide_True by done.
  fold (dots ≫= dot_bytes). rewrite dots_payload_length, Nat.Div0.mod_mul, decide_False by (by intros []).
  rewrite Nat.div_mul by done. by rewrite dot_chunks_payload.
Qed.

Lemma dots_round_witness :
  let dots := [{| dot_actor := 5; dot_counter := 1 |}; {| dot_actor := 7; dot_counter := 2 |}]%N in
  decode_dots (λ _, Err (InvalidEncoding "quad dots")) (encode_dots dots) = Ok dots.
Proof. intros dots. apply dots_round. repeat constructor. Defined.

(** A stored set is empty exactly when its value has at most the tag. *)
Lemma dots_empty_spec dots : dots_empty (encode_dots dots) = bool_decide (dots = []).
Proof.
  unfold dots_empty, encode_dots. apply bool_decide_ext. cbn [length].
  fold (dots ≫= dot_bytes). rewrite dots_payload_length. destruct dots; cbn; [naive_solver lia|].
  split; [lia|done].
Qed.

Lemma decode_term_id_be x context : TermId_fit x → decode_term_id (be_bytes 16 x) context = Ok x.
Proof.
  intros Hx. unfold decode_term_id. rewrite be_bytes_length, decide_True by done. by rewrite be_round.
Qed.

(** C39: A quad's key is read back, and the keyspace iterates in the order of the
    quads. *)
Theorem quad_key_round_order q r :
  quad_fit q → quad_fit r →
  decode_quad_key (quad_key q) = Ok q ∧ list_cmp (quad_key q) (quad_key r) = cmp q r.
Proof.
  intros (Hg & Hs & Hp & Ho) (Hg' & Hs' & Hp' & Ho'). split.
  - unfold decode_quad_key, quad_key. rewrite fields_length by done. cbn [sum_list length].
    rewrite decide_False by (by intros []). cbn [fields]. rewrite app_nil_r.
    rewrite (drop_app_ge _ _ 32), (drop_app_ge _ _ 48) by (rewrite be_bytes_length; lia).
    rewrite be_bytes_length. cbn [Nat.sub].
    rewrite (drop_app_ge _ _ 32) by (rewrite be_bytes_length; lia). rewrite be_bytes_length. cbn [Nat.sub].
    repeat (rewrite take_app_length' || rewrite drop_app_length'); try by rewrite be_bytes_length.
    rewrite !decode_term_id_be by done. by destruct q.
  - unfold quad_key. rewrite fields_cmp by by repeat constructor.
    destruct q as [a b c d], r as [a' b' c' d'].
    change (then_cmp (cmp a a') (then_cmp (cmp b b') (then_cmp (cmp c c') (then_cmp (cmp d d') Eq)))
      = then_cmp (then_cmp (then_cmp (cmp a a') (cmp b b')) (cmp c c')) (cmp d d')).
    destruct (cmp a a'), (cmp b b'), (cmp c c'), (cmp d d'); reflexivity.
Qed.

Lemma quad_key_round_order_witness :
  let q := {| quad_graph := 1; quad_subject := 2; quad_predicate := 300; quad_object := 4 |}%N in
  let r := {| quad_graph := 1; quad_subject := 2; quad_predicate := 7; quad_object := 900 |}%N in
  decode_quad_key (quad_key q) = Ok q ∧ list_cmp (quad_key q) (quad_key r) = Gt.
Proof. intros q r. exact (quad_key_round_order q r ltac:(by repeat constructor) ltac:(by repeat constructor)). Defined.

(** ** The search queue and the receipts *)

Lemma queue_kind_round k : decode_queue_kind (queue_kind_tag k) = Ok k.
Proof. by destruct k. Qed.

Lemma queue_kind_tag_lt k : (queue_kind_tag k < 256)%N.
Proof. by destruct k. Qed.

Lemma search_order_fit c :
  cursor_wf c → fit [1; 8; 1; 16; 16]
    [79%N; cur_token c; queue_kind_tag (cur_kind c); cur_graph c; default 0%N (cur_subject c)].
Proof.
  intros (_ & Ht & Hg & Hs). repeat (apply fit_cons; split); try done;
    [apply queue_kind_tag_lt|constructor].
Qed.

(** A queue cursor is read back from its key. *)
Theorem search_order_round c : cursor_wf c → decode_search_order (search_order_key c) = Ok c.
Proof.
  intros Hc. pose proof (search_order_fit c Hc) as Hfit. destruct Hc as (Hk & Ht & Hg & Hs).
  unfold decode_search_order, search_order_key.
  rewrite fields_length by done. cbn [sum_list length].
  rewrite decide_False by (intros [?|Hne]; [done|by apply Hne]).
  set (key := fields _ _).
  assert (key = be_bytes 1 79 ++ be_bytes 8 (cur_token c) ++
    be_bytes 1 (queue_kind_tag (cur_kind c)) ++ be_bytes 16 (cur_graph c) ++
    be_bytes 16 (default 0%N (cur_subject c))) as -> by (unfold key; cbn [fields]; by rewrite app_nil_r).
  rewrite (lookup_app_r _ _ 9) by (rewrite be_bytes_length; lia). rewrite be_bytes_length. cbn [Nat.sub].
  rewrite (lookup_app_r _ _ 8) by (rewrite be_bytes_length; lia). rewrite be_bytes_length. cbn [Nat.sub].
  rewrite (be_bytes_one (queue_kind_tag _)) by apply queue_kind_tag_lt. cbn [lookup list_lookup app default].
  unfold id. rewrite queue_kind_round. cbn [mbind outcome_bind].
  rewrite (drop_app_ge _ _ 1), (drop_app_ge _ _ 10), (drop_app_ge _ _ 26) by (rewrite be_bytes_length; lia).
  rewrite be_bytes_length. cbn [Nat.sub]. rewrite drop_0.
  rewrite (drop_app_ge _ _ 9), (drop_app_ge _ _ 25) by (rewrite be_bytes_length; lia).
  rewrite be_bytes_length. cbn [Nat.sub drop].
  rewrite take_app_length' by by rewrite be_bytes_length.
  rewrite !drop_0, drop_app_length', take_app_length' by by rewrite be_bytes_length.
  rewrite !be_round by done.
  destruct c as [token kind graph subject]; cbn in *. do 2 f_equal.
  assert (is_Some subject → kind = QSubject) as Hk1 by apply Hk.
  assert (kind = QSubject → is_Some subject) as Hk2 by apply Hk.
  destruct kind, subject as [x|]; cbn; try done;
    [by discriminate (Hk1 ltac:(eauto))..|by destruct (Hk2 eq_refl)].
Qed.

Lemma search_order_round_witness :
  let c := {| cur_token := 12; cur_kind := QSubject; cur_graph := 5; cur_subject := Some 9 |}%N in
  decode_search_order (search_order_key c) = Ok c.
Proof.
  intros c. apply search_order_round. split; [|by repeat split].
  split; [by eauto|done].
Defined.

(** The queue pops in token order: byte order of the keys is the order of
    token, kind, graph and subject. *)
Theorem search_order_sorted c d :
  cursor_wf c → cursor_wf d →
  list_cmp (search_order_key c) (search_order_key d) =
    list_cmp [cur_token c; queue_kind_tag (cur_kind c); cur_graph c; default 0%N (cur_subject c)]
      [cur_token d; queue_kind_tag (cur_kind d); cur_graph d; default 0%N (cur_subject d)].
Proof.
  intros Hc Hd. unfold search_order_key. by rewrite fields_cmp by by apply search_order_fit.
Qed.

Lemma lxor_top_bit x :
  (x < 2 ^ 64)%N → N.lxor x (2 ^ 63) = (if decide (x < 2 ^ 63) then x + 2 ^ 63 else x - 2 ^ 63)%N.
Proof.
  intros Hx. case_decide as Hlt.
  - rewrite N.lxor_comm, <- N.add_nocarry_lxor; [lia|].
    apply N.bits_inj. intros n. rewrite N.land_spec, N.bits_0, N.pow2_bits_eqb.
    destruct (N.eqb_spec 63 n) as [<-|]; [|done]. cbn [andb].
    destruct (decide (x = 0)%N) as [->|]; [by rewrite N.bits_0|].
    apply N.bits_above_log2, N.log2_lt_pow2; lia.
  - assert (x = N.lxor (2 ^ 63) (x - 2 ^ 63))%N as Hsplit.
    { rewrite <- N.add_nocarry_lxor; [lia|].
      apply N.bits_inj. intros n. rewrite N.land_spec, N.bits_0, N.pow2_bits_eqb.
      destruct (N.eqb_spec 63 n) as [<-|]; [|done]. cbn [andb].
      destruct (decide (x - 2 ^ 63 = 0)%N) as [->|]; [by rewrite N.bits_0|].
      apply N.bits_above_log2, N.log2_lt_pow2; lia. }
    rewrite Hsplit at 1. rewrite N.lxor_comm, <- N.lxor_assoc, N.lxor_nilpotent. apply N.lxor_0_l.
Qed.

(** The bit flip turns the order of [i64] times into the order of [u64]s. *)
Lemma ordered_time_shift t :
  (- 2 ^ 63 ≤ t < 2 ^ 63)%Z → ordered_time t = Z.to_N (t + 2 ^ 63).
Proof.
  intros Ht. unfold ordered_time.
  assert (t mod 2 ^ 64 = if decide (0 ≤ t) then t else t + 2 ^ 64)%Z as ->.
  { case_decide; [by apply Z.mod_small; lia|].
    rewrite <- (Z.mod_add t 1 (2 ^ 64)) by lia. rewrite Z.mod_small; lia. }
  rewrite lxor_top_bit by (case_decide; lia). repeat case_decide; lia.
Qed.

(** Receipts iterate by time of update, then identifier, for every pair of
    signed times. *)
Theorem receipt_order_sorted t1 id1 t2 id2 :
  (- 2 ^ 63 ≤ t1 < 2 ^ 63)%Z → (- 2 ^ 63 ≤ t2 < 2 ^ 63)%Z → id32_fit id1 → id32_fit id2 →
  list_cmp (receipt_order_key t1 id1) (receipt_order_key t2 id2) = cmp (t1, id1) (t2, id2).
Proof.
  intros Ht1 Ht2 Hi1 Hi2. unfold receipt_order_key.
  rewrite !ordered_time_shift by done.
  assert (∀ t id, (- 2 ^ 63 ≤ t < 2 ^ 63)%Z → id32_fit id →
    fit [8; 32] [Z.to_N (t + 2 ^ 63); id]) as Hfit.
  { intros t id Ht Hi. apply fit_cons. split; [|by repeat constructor].
    change (256 ^ N.of_nat 8)%N with 18446744073709551616%N. lia. }
  rewrite fields_cmp by auto.
  cbn [list_cmp]. unfold cmp at 3, prod_ord; cbn [fst snd].
  assert (cmp (Z.to_N (t1 + 2 ^ 63)) (Z.to_N (t2 + 2 ^ 63)) = cmp t1 t2) as ->.
  { unfold cmp, N_ord, Z_ord. rewrite Z2N.inj_compare by lia.
    destruct (Z.compare_spec t1 t2);
      [apply Z.compare_eq_iff|apply Z.compare_lt_iff|apply Z.compare_gt_iff]; lia. }
  by destruct (cmp t1 t2), (cmp id1 id2).
Qed.

Lemma receipt_order_sorted_witness :
  list_cmp (receipt_order_key (-5) 9) (receipt_order_key 3 1) = Lt.
Proof. exact (receipt_order_sorted (-5) 9 3 1 ltac:(lia) ltac:(lia) eq_refl eq_refl). Defined.
