(* ===== verification/Replication.v ===== *)
(** * Replication ([src/internal/replication.rs], [src/sync.rs])

    The admission checks on batches and snapshots, the application of a
    replicated batch, the local write path, and the snapshot join.  Receipts,
    diagnostics, search and SHACL follow-up work do not change the replicated
    state and are not part of it; the write and commit guards make each
    operation below atomic, so operations compose sequentially. *)

From S2P Require Import Prelude Clock Terms Store.
#[local] Open Scope craqle_scope.

(** ** Admission of batches and snapshots *)

Inductive SyncError :=
  | EnvelopeRows | EnvelopeBytes | EnvelopeDots | EnvelopeActors
  | BadTerm (e : TermError)
  | IllegalPlace (term : EncodedTerm) (place : Place)
  | DotMismatch (dot identity : Dot)
  | WitnessBeyondBase (dot : Dot)
  | DeadQuad
  | RepeatedQuad
  | RepeatedDot (dot : Dot)
  | UncoveredDot (dot : Dot).

Definition MAX_ENVELOPE_BYTES : N := 64 * 1024 * 1024.
Definition MAX_ENVELOPE_ROWS : N := 2 ^ 20.
Definition MAX_ENVELOPE_DOTS : N := 2 ^ 20.
Definition MAX_ENVELOPE_ACTORS : N := 2 ^ 16.

Record Envelope := {
  env_shapes : gmap EncodedTerm TermShape;
  env_actors : gset ActorId;
  env_bytes : N; env_rows : N; env_dots : N;
}.

Section envelope.
Context `{Oxrdf}.

Definition Envelope_new : Envelope :=
  {| env_shapes := ∅; env_actors := ∅; env_bytes := 0%N; env_rows := 0%N; env_dots := 0%N |}.

(** The body of the loop over the three terms of a quad. *)
Definition envelope_term (env : Envelope) (tp : EncodedTerm * Place) : outcome SyncError Envelope :=
  let '(term, place) := tp in
  let bytes := sat_add 64 (env_bytes env) (N.of_nat (length (term_bytes term))) in
  if decide (MAX_ENVELOPE_BYTES < bytes)%N then Err EnvelopeBytes
  else
    '(shape, shapes) ← match env_shapes env !! term with
                       | Some shape => Ok (shape, env_shapes env)
                       | None => shape ← map_err BadTerm (check_term term);
                                 Ok (shape, <[term := shape]> (env_shapes env))
                       end;
    if allows place shape
    then Ok {| env_shapes := shapes; env_actors := env_actors env; env_bytes := bytes;
               env_rows := env_rows env; env_dots := env_dots env |}
    else Err (IllegalPlace term place).

Definition envelope_quad (env : Envelope) (s p o : EncodedTerm) : outcome SyncError Envelope :=
  let rows := (env_rows env + 1)%N in
  if decide (MAX_ENVELOPE_ROWS < rows)%N then Err EnvelopeRows
  else try_fold envelope_term
    {| env_shapes := env_shapes env; env_actors := env_actors env; env_bytes := env_bytes env;
       env_rows := rows; env_dots := env_dots env |} (zip [s; p; o] PLACES).

Definition envelope_limit (env : Envelope) : outcome SyncError Envelope :=
  if decide (MAX_ENVELOPE_ACTORS < N.of_nat (size (env_actors env)))%N then Err EnvelopeActors else Ok env.

Definition envelope_clock (env : Envelope) (clock : VectorClock.t) : outcome SyncError Envelope :=
  envelope_limit {| env_shapes := env_shapes env; env_actors := env_actors env ∪ dom clock;
    env_bytes := env_bytes env; env_rows := env_rows env; env_dots := env_dots env |}.

Definition envelope_dots (env : Envelope) (dots : list Dot) : outcome SyncError Envelope :=
  let n := sat_add 64 (env_dots env) (N.of_nat (length dots)) in
  if decide (MAX_ENVELOPE_DOTS < n)%N then Err EnvelopeDots
  else envelope_limit {| env_shapes := env_shapes env;
    env_actors := env_actors env ∪ list_to_set (dot_actor <$> dots);
    env_bytes := env_bytes env; env_rows := env_rows env; env_dots := n |}.

Definition check_graph (graph : GraphId) : outcome SyncError () :=
  _ ← map_err BadTerm (check_term (from_named_node graph)); Ok ().

Definition batch_identity (b : Batch) : Dot :=
  {| dot_actor := batch_actor b; dot_counter := batch_counter b |}.

Definition check_op (base : VectorClock.t) (identity : Dot) (env : Envelope) (op : QuadOp)
    : outcome SyncError Envelope :=
  match op with
  | Add s p o dot =>
      env ← envelope_quad env s p o;
      env ← envelope_dots env [dot];
      if decide (dot = identity) then Ok env else Err (DotMismatch dot identity)
  | Remove s p o witnessed =>
      env ← envelope_quad env s p o;
      env ← envelope_clock env witnessed;
      match missing_dots witnessed base with
      | dot :: _ => Err (WitnessBeyondBase dot)
      | [] => Ok env
      end
  end.

Definition check_batch (b : Batch) : outcome SyncError () :=
  _ ← check_graph (batch_graph b);
  env ← envelope_clock Envelope_new (base_clock b);
  _ ← try_fold (check_op (base_clock b) (batch_identity b)) env (batch_ops b);
  Ok ().

(** The inner loop of [check_snapshot] over the dots of one quad. *)
Definition check_snapshot_dot (clock : VectorClock.t) (seen : gset Dot) (dot : Dot)
    : outcome SyncError (gset Dot) :=
  if decide (dot ∈ seen) then Err (RepeatedDot dot)
  else if VectorClock.contains clock dot then Ok ({[dot]} ∪ seen)
  else Err (UncoveredDot dot).

Definition check_snapshot_quad (clock : VectorClock.t)
    (acc : Envelope * gset (EncodedTerm * EncodedTerm * EncodedTerm)) (q : SnapshotQuadState)
    : outcome SyncError (Envelope * gset (EncodedTerm * EncodedTerm * EncodedTerm)) :=
  let '(env, keys) := acc in
  env ← envelope_quad env (sq_subject q) (sq_predicate q) (sq_object q);
  env ← envelope_dots env (sq_dots q);
  if decide (sq_dots q = []) then Err DeadQuad
  else if decide (sq_key q ∈ keys) then Err RepeatedQuad
  else _ ← try_fold (check_snapshot_dot clock) ∅ (sq_dots q);
       Ok (env, {[sq_key q]} ∪ keys).

Definition check_snapshot (snap : GraphReplicaSnapshot) : outcome SyncError () :=
  _ ← check_graph (snap_graph snap);
  env ← envelope_clock Envelope_new (snap_clock snap);
  _ ← try_fold (check_snapshot_quad (snap_clock snap)) (env, ∅) (snap_quads snap);
  Ok ().
End envelope.

(** ** Applying a batch *)

Inductive RejectReason := RejectSync (e : SyncError) | RejectSelfDependency (dot : Dot).
Inductive MergeError :=
  | MergeStore (e : StoreError)
  | InputRejected (reason : RejectReason)
  | MissingDependencies (dots : list Dot).

Section replication.
Context `{Oxrdf} `{Blake3}.

Abbreviation merge A := (stm Store MergeError A).
Definition of_store {A} (f : Store → outcome StoreError A) : merge A :=
  st_read (λ st, map_err MergeStore (f st)).

(** The closure of [resolve_quad]: a literal alias is stored as its canonical
    spelling. *)
Definition resolve_canonical (st : Store) (cx : BatchTermCtx) (term : EncodedTerm)
    : outcome StoreError (TermId * BatchTermCtx) :=
  c ← (canonical term : outcome StoreError (option EncodedTerm));
  match c with
  | Some canonical => resolve_term_cached st cx canonical
  | None => resolve_term_cached st cx term
  end.

Definition resolve_quad (st : Store) (cx : BatchTermCtx) (graph_id : TermId) (s p o : EncodedTerm)
    : outcome StoreError (EncodedQuad * BatchTermCtx) :=
  '(s, cx) ← resolve_canonical st cx s;
  '(p, cx) ← resolve_canonical st cx p;
  '(o, cx) ← resolve_canonical st cx o;
  Ok ({| quad_graph := graph_id; quad_subject := s; quad_predicate := p; quad_object := o |}, cx).

Definition with_batch (cx : BatchTermCtx) (b : WriteBatch) : BatchTermCtx :=
  {| cx_batch := b; cx_cache := cx_cache cx |}.

Definition op_terms (op : QuadOp) : list EncodedTerm :=
  match op with Add s p o _ | Remove s p o _ => [s; p; o] end.

(** The body of the loop of [apply_single_batch] over the operations. *)
Definition apply_op (st : Store) (graph_id : TermId) (cx : BatchTermCtx) (op : QuadOp)
    : outcome StoreError BatchTermCtx :=
  match op with
  | Add s p o dot =>
      '(quad, cx) ← resolve_quad st cx graph_id s p o;
      Ok (with_batch cx (insert_quad st (cx_batch cx) quad dot).1)
  | Remove s p o witnessed =>
      '(quad, cx) ← resolve_quad st cx graph_id s p o;
      Ok (with_batch cx (remove_quad st (cx_batch cx) quad witnessed).1)
  end.

Definition empty_cx : BatchTermCtx := {| cx_batch := new_batch; cx_cache := ∅ |}.

Definition apply_single_batch (incoming : Batch) (clock : VectorClock.t)
    (hints : option TaggedRenderHints) : merge () :=
  cx ⇐ of_store (λ st, seed_term_cache st empty_cx (batch_ops incoming ≫= op_terms));
  graph_id ⇐ st_exec (λ st, map_err MergeStore
               (resolve_term st (from_named_node (batch_graph incoming))));
  cx ⇐ of_store (λ st, try_fold (apply_op st graph_id) cx (batch_ops incoming));
  let clock := VectorClock.advance (batch_actor incoming) (batch_counter incoming) clock in
  let b := set_vector_clock (cx_batch cx) graph_id clock in
  st_update (λ st, Ok (commit st (match hints with
                                  | Some tagged => (stage_graph_context st b graph_id tagged).1
                                  | None => b
                                  end))).

(** [apply_irokle_guarded], [apply_irokle_plan]: whether the batch applied. *)
Definition apply_irokle_guarded (incoming : Batch) (hints : option TaggedRenderHints) : merge bool :=
  clock ⇐ of_store (λ st, get_vector_clock st (batch_graph incoming));
  if VectorClock.contains clock (batch_identity incoming) then st_ret false
  else _ ⇐ apply_single_batch incoming clock hints; st_ret true.

Definition ensure_graph (graph : GraphId) : merge () :=
  present ⇐ of_store (λ st, contains_graph st graph);
  if (present : bool) then st_ret ()
  else st_update (λ st, map_err MergeStore (create_graph st graph)).

Definition apply_irokle_plan (incoming : Batch) (hints : option TaggedRenderHints) : merge bool :=
  dead ⇐ of_store (λ st, graph_tombstoned st (batch_graph incoming));
  if (dead : bool) then st_ret false
  else _ ⇐ ensure_graph (batch_graph incoming);
       apply_irokle_guarded incoming hints.

Definition check_causal_base (incoming : Batch) : merge () :=
  let identity := batch_identity incoming in
  if bool_decide (0 < batch_counter incoming)%N && VectorClock.contains (base_clock incoming) identity
  then st_err (InputRejected (RejectSelfDependency identity))
  else applied ⇐ of_store (λ st, get_vector_clock st (batch_graph incoming));
       match missing_dots (base_clock incoming) applied with
       | [] => st_ret ()
       | missing => st_err (MissingDependencies missing)
       end.

Definition merge_batch (incoming : Batch) : merge bool :=
  _ ⇐ st_read (λ _, map_err (InputRejected ∘ RejectSync) (check_batch incoming));
  _ ⇐ check_causal_base incoming;
  apply_irokle_plan incoming None.

(** ** The local write path

    The branch of [commit_with_plan] that runs without a synchronisation
    service.  The checks it may make beforehand (rules, SHACL, fences) can only
    refuse the write; the changes it applies are already canonical. *)

Inductive UpdateError :=
  | UpdateStore (e : StoreError)
  | GraphDeleted (tombstone : GraphTombstone).

Definition empty_batch (actor : ActorId) (st : Store) (graph : GraphId) (now : Z)
    : outcome StoreError Batch :=
  base ← get_vector_clock st graph;
  Ok {| batch_graph := graph; batch_actor := actor; batch_counter := 0%N; base_clock := base;
        batch_ops := []; batch_timestamp := now |}.

Definition change_terms (c : MaterializedQuadChange) : list EncodedTerm :=
  match c with Insert _ s p o | Delete _ s p o => [s; p; o] end.

(** The loop body: the operation is applied with the actor's new dot, a removal
    witnessing the clock that already holds it. *)
Definition local_change (st : Store) (graph_id : TermId) (dot : Dot) (clock : VectorClock.t)
    (acc : BatchTermCtx * list QuadOp) (change : MaterializedQuadChange)
    : outcome StoreError (BatchTermCtx * list QuadOp) :=
  let '(cx, ops) := acc in
  match change with
  | Insert _ s p o =>
      '(quad, cx) ← resolve_quad st cx graph_id s p o;
      Ok (with_batch cx (insert_quad st (cx_batch cx) quad dot).1, ops ++ [Add s p o dot])
  | Delete _ s p o =>
      '(quad, cx) ← resolve_quad st cx graph_id s p o;
      Ok (with_batch cx (remove_quad st (cx_batch cx) quad clock).1, ops ++ [Remove s p o clock])
  end.

Definition local_batch (actor : ActorId) (st : Store) (graph : GraphId)
    (changes : list MaterializedQuadChange) (hints : option TaggedRenderHints) (now : Z)
    : outcome StoreError (Batch * Store) :=
  base ← get_vector_clock st graph;
  '(graph_id, b) ← stage_graph st new_batch graph;
  let '(counter, b) := next_counter st b graph_id actor in
  let dot := {| dot_actor := actor; dot_counter := counter |} in
  let clock := VectorClock.advance actor counter base in
  cx ← seed_term_cache st {| cx_batch := b; cx_cache := ∅ |} (changes ≫= change_terms);
  '(cx, ops) ← try_fold (local_change st graph_id dot clock) (cx, []) changes;
  let b := set_vector_clock (cx_batch cx) graph_id clock in
  let b := match hints with
           | Some tagged => (stage_graph_context st b graph_id tagged).1
           | None => b
           end in
  Ok ({| batch_graph := graph; batch_actor := actor; batch_counter := counter;
         base_clock := base; batch_ops := ops; batch_timestamp := now |}, commit st b).

Definition commit_local (actor : ActorId) (graph : GraphId) (changes : list MaterializedQuadChange)
    (hints : option TaggedRenderHints) (now : Z) : stm Store UpdateError Batch :=
  dead ⇐ st_read (λ st, map_err UpdateStore (graph_tombstone st graph));
  match dead with
  | Some tombstone => st_err (GraphDeleted tombstone)
  | None =>
      match changes, hints with
      | [], None => st_read (λ st, map_err UpdateStore (empty_batch actor st graph now))
      | _, _ => st_exec (λ st, map_err UpdateStore (local_batch actor st graph changes hints now))
      end
  end.

(** [canonical_changes]: writes use the canonical spelling; a delete also
    removes an alias stored before canonicalisation. *)
Definition canonical_or_self (term : EncodedTerm) : outcome StoreError EncodedTerm :=
  c ← (canonical term : outcome StoreError (option EncodedTerm)); Ok (default term c).

Definition canonical_change (change : MaterializedQuadChange) : outcome StoreError (list MaterializedQuadChange) :=
  match change with
  | Insert g s p o =>
      s' ← canonical_or_self s; p' ← canonical_or_self p; o' ← canonical_or_self o;
      Ok [Insert g s' p' o']
  | Delete g s p o =>
      s' ← canonical_or_self s; p' ← canonical_or_self p; o' ← canonical_or_self o;
      if decide ((s', p', o') = (s, p, o)) then Ok [change] else Ok [Delete g s' p' o'; change]
  end.

Definition canonical_changes (changes : list MaterializedQuadChange)
    : outcome StoreError (list MaterializedQuadChange) :=
  ls ← try_map canonical_change changes; Ok (List.concat ls).

(** ** The snapshot join *)

Abbreviation triple := (EncodedTerm * EncodedTerm * EncodedTerm)%type (only parsing).

(** [join_dots]: the dots both sides hold, and each side's dots the other
    side's context does not cover. *)
Definition join_dots (local remote : list Dot) (here there : VectorClock.t) : list Dot :=
  filter (λ d, d ∈ remote ∨ VectorClock.contains there d = false) local ++
  filter (λ d, (d ∉ local) ∧ VectorClock.contains here d = false) remote.

Definition join_union (local remote : GraphReplicaSnapshot) : gmap triple (list Dot * list Dot) :=
  let rows := foldl (λ rows q, <[sq_key q := (sq_dots q, [])]> rows) ∅ (snap_quads local) in
  foldl (λ rows q, <[sq_key q := ((default ([], []) (rows !! sq_key q)).1, sq_dots q)]> rows)
    rows (snap_quads remote).

(** [canonical_snapshot]: quads that are aliases of one another merge. *)
Definition canonical_triple (q : SnapshotQuadState) : outcome StoreError triple :=
  s ← canonical_or_self (sq_subject q);
  p ← canonical_or_self (sq_predicate q);
  o ← canonical_or_self (sq_object q);
  Ok (s, p, o).

Definition canonical_snapshot (snap : GraphReplicaSnapshot) : outcome StoreError GraphReplicaSnapshot :=
  keys ← try_map canonical_triple (snap_quads snap);
  if decide (keys = sq_key <$> snap_quads snap) then Ok snap
  else
    let quads := foldl (λ m kq, <[kq.1 := default [] (m !! kq.1) ++ sq_dots kq.2]> m)
                   (∅ : gmap triple (list Dot)) (zip keys (snap_quads snap)) in
    Ok {| snap_graph := snap_graph snap; snap_clock := snap_clock snap;
          snap_quads := (λ kd, {| sq_subject := kd.1.1.1; sq_predicate := kd.1.1.2;
                                  sq_object := kd.1.2; sq_dots := normalize_dots kd.2 |})
                        <$> btree_iter quads |}.

(** The loop body of [join_snapshot] for one row of the union. *)
Definition join_row (st : Store) (graph_id : TermId) (here there : VectorClock.t)
    (acc : BatchTermCtx * bool) (row : triple * (list Dot * list Dot))
    : outcome StoreError (BatchTermCtx * bool) :=
  let '(cx, changed) := acc in
  let '((s, p, o), (local, remote)) := row in
  let joined := join_dots local remote here there in
  let dropped := filter (λ d, d ∉ joined) local in
  let added := filter (λ d, d ∉ local) joined in
  match dropped, added with
  | [], [] => Ok (cx, changed)
  | _, _ =>
      '(quad, cx) ← resolve_quad st cx graph_id s p o;
      let insert_all b dots := foldl (λ b d, (insert_quad st b quad d).1) b dots in
      let b := insert_all (cx_batch cx) added in
      let b :=
        match dropped with
        | [] => b
        | _ =>
            let witnessed := foldl (λ w d, VectorClock.advance (dot_actor d) (dot_counter d) w)
                               VectorClock.new dropped in
            let b := (remove_quad st b quad witnessed).1 in
            insert_all b (filter (λ d, VectorClock.contains witnessed d = true) joined)
        end in
      Ok (with_batch cx b, true)
  end.

Definition quad_terms (q : SnapshotQuadState) : list EncodedTerm :=
  [sq_subject q; sq_predicate q; sq_object q].

Definition join_snapshot (snapshot : GraphReplicaSnapshot) : merge bool :=
  snapshot ⇐ of_store (λ _, canonical_snapshot snapshot);
  local ⇐ of_store (λ st, graph_snapshot st (snap_graph snapshot));
  let clock := VectorClock.merge (snap_clock local) (snap_clock snapshot) in
  cx ⇐ of_store (λ st, seed_term_cache st empty_cx
         ((snap_quads local ++ snap_quads snapshot) ≫= quad_terms));
  graph_id ⇐ st_exec (λ st, map_err MergeStore (resolve_term st (from_named_node (snap_graph snapshot))));
  acc ⇐ of_store (λ st, try_fold (join_row st graph_id (snap_clock local) (snap_clock snapshot))
         (cx, bool_decide (clock ≠ snap_clock local)) (btree_iter (join_union local snapshot)));
  let '(cx, changed) := acc in
  if (changed : bool)
  then _ ⇐ st_update (λ st, Ok (commit st (set_vector_clock (cx_batch cx) graph_id clock)));
       st_ret true
  else st_ret false.

Definition install_snapshot (snapshot : GraphReplicaSnapshot) : merge bool :=
  _ ⇐ st_read (λ _, map_err (InputRejected ∘ RejectSync) (check_snapshot snapshot));
  dead ⇐ of_store (λ st, graph_tombstoned st (snap_graph snapshot));
  if (dead : bool) then st_ret false
  else _ ⇐ ensure_graph (snap_graph snapshot);
       join_snapshot snapshot.

(** ** Net changes of a batch ([batch_changes]) *)

Record BatchQuad := { bq_key : triple; bq_was_live : bool; bq_dots : list Dot }.

(** [quad_dots]: no dots when a term is not interned. *)
Definition quad_dots (st : Store) (graph : GraphId) (k : triple) : outcome StoreError (list Dot) :=
  let '(s, p, o) := k in
  g ← graph_id_for st graph;
  match g with
  | None => Ok []
  | Some g =>
      s ← lookup_term st s;
      match s with
      | None => Ok []
      | Some s =>
          p ← lookup_term st p;
          match p with
          | None => Ok []
          | Some p =>
              o ← lookup_term st o;
              match o with
              | None => Ok []
              | Some o => Ok (read_quad_dots st {| quad_graph := g; quad_subject := s;
                                                   quad_predicate := p; quad_object := o |})
              end
          end
      end
  end.

Definition batch_quad_op (q : BatchQuad) (op : QuadOp) : BatchQuad :=
  match op with
  | Add _ _ _ dot =>
      {| bq_key := bq_key q; bq_was_live := bq_was_live q;
         bq_dots := if decide (dot ∈ bq_dots q) then bq_dots q else bq_dots q ++ [dot] |}
  | Remove _ _ _ witnessed =>
      {| bq_key := bq_key q; bq_was_live := bq_was_live q;
         bq_dots := filter (λ d, VectorClock.contains witnessed d = false) (bq_dots q) |}
  end.

Definition batch_changes_op (st : Store) (graph : GraphId) (quads : list BatchQuad) (op : QuadOp)
    : outcome StoreError (list BatchQuad) :=
  match op_terms op with
  | [s; p; o] =>
      s ← canonical_or_self s; p ← canonical_or_self p; o ← canonical_or_self o;
      let key := (s, p, o) in
      match list_find (λ q, bq_key q = key) quads with
      | Some (i, q) => Ok (<[i := batch_quad_op q op]> quads)
      | None =>
          dots ← quad_dots st graph key;
          let q := {| bq_key := key; bq_was_live := bool_decide (dots ≠ []); bq_dots := dots |} in
          Ok (quads ++ [batch_quad_op q op])
      end
  | _ => Ok quads
  end.

Definition batch_net_change (graph : GraphId) (q : BatchQuad) : option MaterializedQuadChange :=
  let '(s, p, o) := bq_key q in
  match bq_was_live q, bq_dots q with
  | false, _ :: _ => Some (Insert graph s p o)
  | true, [] => Some (Delete graph s p o)
  | _, _ => None
  end.

Definition batch_changes (st : Store) (b : Batch) : outcome StoreError (list MaterializedQuadChange) :=
  quads ← try_fold (batch_changes_op st (batch_graph b)) [] (batch_ops b);
  Ok (omap (M := list) (batch_net_change (batch_graph b)) quads).
End replication.
