(* ===== verification/Convergence.v ===== *)
(** * Convergence of replicas

    The effect of one merged batch on the store, and what follows for every
    sequence of merges: the dot sets stay normalised, a repeated batch changes
    nothing, and two replicas that merged the same batches in any two orders
    hold the same store. *)

From S2P Require Import Prelude Clock Terms Store Replication.
#[local] Open Scope craqle_scope.

(** ** Dot sets *)

(** Every stored dot set is non-empty, strictly sorted, hence without
    repetition. *)
Definition quads_wf (st : Store) : Prop :=
  map_Forall (λ _ dots, dots ≠ [] ∧ StronglySorted cmp_lt dots) (quads st).

Lemma elem_of_normalize d dots : d ∈ normalize_dots dots ↔ d ∈ dots.
Proof. unfold normalize_dots. by rewrite elem_of_dedup, elem_of_sort. Qed.

Lemma normalize_sorted dots : StronglySorted cmp_lt (normalize_dots dots).
Proof. apply dedup_sorted, sort_sorted. Qed.

Lemma normalize_nil dots : normalize_dots dots = [] ↔ dots = [].
Proof.
  split; [|by intros ->]. intros Hn. destruct dots as [|d l]; [done|].
  assert (d ∈ normalize_dots (d :: l)) as Hd by (rewrite elem_of_normalize; by left).
  rewrite Hn in Hd. by apply elem_of_nil in Hd.
Qed.

(** [normalize_dots] is the identity on what it produces. *)
Lemma normalize_sorted_id dots : StronglySorted cmp_lt dots → normalize_dots dots = dots.
Proof.
  intros Hd. apply lt_sorted_ext; [apply normalize_sorted|done|]. intros d. apply elem_of_normalize.
Qed.

(** Stores with normalised dot sets are determined by their dots. *)
Lemma quads_ext st st' :
  quads_wf st → quads_wf st' →
  (∀ k d, d ∈ read_quad_dots st k ↔ d ∈ read_quad_dots st' k) → quads st = quads st'.
Proof.
  intros Hwf Hwf' Hd. apply map_eq. intros k. specialize (Hd k). unfold read_quad_dots in Hd.
  destruct (quads st !! k) as [l|] eqn:E, (quads st' !! k) as [l'|] eqn:E'; cbn in Hd; try done.
  - f_equal. apply lt_sorted_ext; [by apply (Hwf k l)|by apply (Hwf' k l')|done].
  - destruct (Hwf k l E) as [Hne _]. destruct l as [|d l]; [done|].
    destruct (Hd d) as [Hd' _]. exfalso. apply (not_elem_of_nil d), Hd'. by left.
  - destruct (Hwf' k l' E') as [Hne _]. destruct l' as [|d l']; [done|].
    destruct (Hd d) as [_ Hd']. exfalso. apply (not_elem_of_nil d), Hd'. by left.
Qed.

(** ** Staged batches *)

(** The records a quad write leaves alone. *)
Definition frame_eq (st st' : Store) : Prop :=
  graph_metas st' = graph_metas st ∧ graph_clocks st' = graph_clocks st ∧
  graph_tombstones st' = graph_tombstones st ∧ deleted_policies st' = deleted_policies st.

#[export] Instance frame_eq_preorder : PreOrder frame_eq.
Proof. split; [done|]. intros a b c (?&?&?&?) (?&?&?&?). repeat split; congruence. Qed.

(** What reads through a batch see is what its commit makes durable. *)
Record batch_ok (st : Store) (b : WriteBatch) : Prop := {
  bo_dots k : current_quad_dots st b k = read_quad_dots (commit st b) k;
  bo_terms i : terms (commit st b) !! i =
    match pending_terms b !! i with Some t => Some t | None => terms st !! i end;
}.

Lemma commit_new st : commit st new_batch = st.
Proof. done. Qed.

Lemma batch_ok_new st : batch_ok st new_batch.
Proof.
  split; [intros k; unfold current_quad_dots|intros i]; cbn; by rewrite lookup_empty.
Qed.

Lemma commit_stage st b w : commit st (stage b w) = apply_write (commit st b) w.
Proof. unfold commit, stage; cbn. by rewrite foldl_app. Qed.

Lemma batch_ok_stage st b w :
  (∀ s, quads (apply_write s w) = quads s ∧ terms (apply_write s w) = terms s) →
  batch_ok st b → batch_ok st (stage b w).
Proof.
  intros Hw [Hd Ht]. destruct (Hw (commit st b)) as [Hq Hts].
  split; [intros k|intros i]; rewrite commit_stage.
  - unfold read_quad_dots. rewrite Hq. apply Hd.
  - rewrite Hts. apply Ht.
Qed.

(** A step that interns the terms [T] and otherwise only writes normalised dot
    sets. *)
Record step_ok `{Blake3} (T : list EncodedTerm) (before after : Store) : Prop := {
  so_frame : frame_eq before after;
  so_heads : log_heads after = log_heads before;
  so_wf : quads_wf before → quads_wf after;
  so_terms i u : terms after !! i = Some u ↔
    terms before !! i = Some u ∨ (i = hash_term u ∧ u ∈ T);
}.

Lemma step_ok_refl `{Blake3} st : step_ok [] st st.
Proof. split; try done. intros i u. set_solver. Qed.

Lemma step_ok_trans `{Blake3} T1 T2 a b c : step_ok T1 a b → step_ok T2 b c → step_ok (T1 ++ T2) a c.
Proof.
  intros [F1 H1 W1 S1] [F2 H2 W2 S2]. split; [by etrans|congruence|auto|].
  intros i u. rewrite S2, S1, elem_of_app. naive_solver.
Qed.

Lemma step_ok_terms `{Blake3} T a b i u : step_ok T a b → terms a !! i = Some u → terms b !! i = Some u.
Proof. intros Hs Hi. apply (so_terms _ _ _ Hs). by left. Qed.

Section quad_writes.
Context `{Blake3}.
Implicit Types (st : Store) (b : WriteBatch) (q k : EncodedQuad) (d : Dot) (w : VectorClock.t).

(** The store a dot-set write produces. *)
Definition put_dots st q dots : Store :=
  {| terms := terms st; quads := partial_alter (λ _, if decide (dots = []) then None else Some dots) q (quads st);
     graph_metas := graph_metas st; graph_clocks := graph_clocks st;
     graph_tombstones := graph_tombstones st; deleted_policies := deleted_policies st;
     log_heads := log_heads st |}.

Lemma read_put_dots st q dots k :
  read_quad_dots (put_dots st q dots) k = if decide (k = q) then dots else read_quad_dots st k.
Proof.
  unfold read_quad_dots, put_dots; cbn [quads]. destruct (decide (k = q)) as [->|Hk].
  - rewrite lookup_partial_alter_eq. case_decide; by subst.
  - by rewrite lookup_partial_alter_ne.
Qed.

Lemma put_dots_wf st q dots :
  StronglySorted cmp_lt dots → quads_wf st → quads_wf (put_dots st q dots).
Proof.
  intros Hd Hwf k l. unfold put_dots; cbn [quads]. destruct (decide (k = q)) as [->|Hk].
  - rewrite lookup_partial_alter_eq. case_decide; [done|]. by intros [= <-].
  - rewrite lookup_partial_alter_ne by done. apply Hwf.
Qed.

Lemma commit_write_quad st b q dots :
  batch_ok st b →
  commit st (write_quad_state st b q dots).1 = put_dots (commit st b) q (normalize_dots dots) ∧
  batch_ok st (write_quad_state st b q dots).1.
Proof.
  intros [Hd Ht].
  assert (inner (write_quad_state st b q dots).1 = inner b ++
      [if bool_decide (normalize_dots dots ≠ []) then PutQuad q (normalize_dots dots) else DelQuad q] ∧
    pending_terms (write_quad_state st b q dots).1 = pending_terms b ∧
    pending_quad_states (write_quad_state st b q dots).1 =
      <[q := if bool_decide (normalize_dots dots ≠ []) then Some (normalize_dots dots) else None]>
        (pending_quad_states b)) as (Hi & Hpt & Hps).
  { unfold write_quad_state. by destruct (bool_decide (current_quad_dots _ _ _ ≠ [])), (bool_decide (normalize_dots dots ≠ [])). }
  assert (commit st (write_quad_state st b q dots).1 = put_dots (commit st b) q (normalize_dots dots)) as Hc.
  { unfold commit at 1. rewrite Hi, foldl_app; cbn. fold (commit st b).
    unfold put_dots. destruct (commit st b); cbn. unfold insert, map_insert, delete, map_delete.
    case_bool_decide as Hn; [rewrite decide_False by done|rewrite decide_True by (by destruct (decide (normalize_dots dots = [])))]; done. }
  split; [exact Hc|]. split; rewrite Hc.
  - intros k. rewrite read_put_dots. unfold current_quad_dots. rewrite Hps.
    case_decide as Hk; [subst|].
    + rewrite lookup_insert_eq. case_bool_decide as Hn; [done|].
      cbn. by destruct (normalize_dots dots).
    + rewrite lookup_insert_ne by done. apply Hd.
  - intros i. rewrite Hpt. apply Ht.
Qed.

Lemma put_dots_step st q dots : step_ok [] st (put_dots st q (normalize_dots dots)).
Proof.
  split; try done; [apply put_dots_wf, normalize_sorted|]. intros i u. cbn [terms put_dots]. set_solver.
Qed.

Lemma insert_quad_effect st b q d :
  batch_ok st b →
  let b' := (insert_quad st b q d).1 in
  batch_ok st b' ∧ step_ok [] (commit st b) (commit st b') ∧
  ∀ k e, e ∈ read_quad_dots (commit st b') k ↔
         e ∈ read_quad_dots (commit st b) k ∨ (k = q ∧ e = d).
Proof.
  intros Hb. unfold insert_quad. rewrite (bo_dots _ _ Hb). case_decide as Hd; cbn.
  - split; [done|]. split; [apply step_ok_refl|]. intros k e. naive_solver.
  - destruct (commit_write_quad st b q (read_quad_dots (commit st b) q ++ [d]) Hb) as [-> Hb'].
    split; [exact Hb'|]. split.
    + apply put_dots_step.
    + intros k e. rewrite read_put_dots. case_decide as Hk.
      * subst. rewrite elem_of_normalize, elem_of_app, list_elem_of_singleton. naive_solver.
      * naive_solver.
Qed.

Lemma remove_quad_effect st b q w :
  batch_ok st b →
  let b' := (remove_quad st b q w).1 in
  batch_ok st b' ∧ step_ok [] (commit st b) (commit st b') ∧
  ∀ k e, e ∈ read_quad_dots (commit st b') k ↔
         e ∈ read_quad_dots (commit st b) k ∧ ¬ (k = q ∧ VectorClock.contains w e = true).
Proof.
  intros Hb. unfold remove_quad. rewrite (bo_dots _ _ Hb).
  set (dots := filter _ _).
  assert (∀ e, e ∈ dots ↔ VectorClock.contains w e = false ∧ e ∈ read_quad_dots (commit st b) q) as Hdots
    by (intros e; unfold dots; by rewrite list_elem_of_filter).
  case_decide as Hlen; cbn.
  - split; [done|]. split; [apply step_ok_refl|]. intros k e. split; [|naive_solver].
    intros He. split; [done|]. intros [-> Hw].
    assert (read_quad_dots (commit st b) q = dots) as Heq.
    { symmetry. by apply filter_length_eq. }
    rewrite Heq in He. apply Hdots in He as [He _]. congruence.
  - destruct (commit_write_quad st b q dots Hb) as [-> Hb'].
    split; [exact Hb'|]. split.
    + apply put_dots_step.
    + intros k e. rewrite read_put_dots. case_decide as Hk.
      * subst. rewrite elem_of_normalize, Hdots. destruct (VectorClock.contains w e); naive_solver.
      * naive_solver.
Qed.
End quad_writes.

(** ** Interning *)

Section interning.
Context `{Oxrdf} `{Blake3}.

(** The spelling a term is stored under. *)
Definition canon (t : EncodedTerm) : EncodedTerm :=
  match (canonical t : outcome StoreError _) with Ok (Some c) => c | _ => t end.

Definition op_key (graph_id : TermId) (op : QuadOp) : EncodedQuad :=
  match op with
  | Add s p o _ | Remove s p o _ =>
      {| quad_graph := graph_id; quad_subject := hash_term (canon s);
         quad_predicate := hash_term (canon p); quad_object := hash_term (canon o) |}
  end.

Record cx_ok (st : Store) (cx : BatchTermCtx) : Prop := {
  co_batch : batch_ok st (cx_batch cx);
  co_cache t id : cx_cache cx !! t = Some id →
    id = hash_term t ∧ terms (commit st (cx_batch cx)) !! id = Some t;
}.

Definition cx_store (st : Store) (cx : BatchTermCtx) : Store := commit st (cx_batch cx).

Lemma cx_ok_new st : cx_ok st empty_cx.
Proof. split; [apply batch_ok_new|]. intros t id. cbn. by rewrite lookup_empty. Qed.

Lemma encode_term_batch_ok st b t id b' :
  batch_ok st b → encode_term_batch st b t = Ok (id, b') →
  id = hash_term t ∧ batch_ok st b' ∧ step_ok [t] (commit st b) (commit st b') ∧
  quads (commit st b') = quads (commit st b) ∧ terms (commit st b') !! id = Some t.
Proof.
  intros Hb. unfold encode_term_batch, confirm_stored_term.
  assert (terms (commit st b) !! hash_term t = Some t → step_ok [t] (commit st b) (commit st b)) as Hsame.
  { intros Ht. split; try done. intros i u. rewrite list_elem_of_singleton. naive_solver. }
  pose proof (bo_terms _ _ Hb (hash_term t)) as Ht.
  destruct (pending_terms b !! hash_term t) as [e|] eqn:Ep; [|destruct (terms st !! hash_term t) as [e|] eqn:Es].
  1,2: case_decide; [subst|done]; cbn; intros [= <- <-]; split_and!; auto.
  intros [= <- <-].
  set (b' := {| inner := _ |}).
  assert (commit st b' = apply_write (commit st b) (PutTerm (hash_term t) t)) as Hc
    by (unfold b', commit; cbn [inner]; by rewrite foldl_app).
  assert (terms (commit st b') = <[hash_term t := t]> (terms (commit st b))) as Hts
    by (rewrite Hc; by destruct (commit st b)).
  assert (quads (commit st b') = quads (commit st b)) as Hq by (rewrite Hc; by destruct (commit st b)).
  split; [done|]. split; [|split; [|split; [done|]]].
  - split.
    + intros k. unfold read_quad_dots. rewrite Hq. apply Hb.
    + intros i. rewrite Hts. cbn. rewrite !lookup_insert. case_decide; [done|]. apply Hb.
  - split.
    + rewrite Hc. by destruct (commit st b).
    + rewrite Hc. by destruct (commit st b).
    + unfold quads_wf. by rewrite Hq.
    + intros i u. rewrite Hts, lookup_insert, list_elem_of_singleton. case_decide; naive_solver.
  - rewrite Hts. apply lookup_insert_eq.
Qed.

(** The terms an operation interns, on top of the seeded raw spellings. *)
Lemma resolve_term_cached_ok st cx t id cx' :
  cx_ok st cx → resolve_term_cached st cx t = Ok (id, cx') →
  id = hash_term t ∧ cx_ok st cx' ∧ step_ok [t] (cx_store st cx) (cx_store st cx') ∧
  quads (cx_store st cx') = quads (cx_store st cx).
Proof.
  intros [Hb Hc]. unfold resolve_term_cached.
  destruct (cx_cache cx !! t) as [id'|] eqn:E.
  - intros [= <- <-]. destruct (Hc _ _ E) as [-> Ht]. split_and!; [done|by split| |done].
    split; try done. intros i u. rewrite list_elem_of_singleton. naive_solver.
  - intros ([id' b] & Hb' & [= <- <-])%bind_ok.
    apply encode_term_batch_ok in Hb' as (-> & Hb' & Hs & Hq & Ht); [|done].
    split_and!; [done| |done|done]. split; [done|]. intros t' id'. cbn. rewrite lookup_insert.
    case_decide; [naive_solver|]. intros [-> Hu]%Hc. split; [done|]. by eapply step_ok_terms.
Qed.

Lemma resolve_canonical_ok st cx t id cx' :
  cx_ok st cx → resolve_canonical st cx t = Ok (id, cx') →
  id = hash_term (canon t) ∧ cx_ok st cx' ∧ step_ok [canon t] (cx_store st cx) (cx_store st cx') ∧
  quads (cx_store st cx') = quads (cx_store st cx).
Proof.
  intros Hcx. unfold resolve_canonical, canon.
  intros (c & -> & Hr)%bind_ok. destruct c; by apply resolve_term_cached_ok.
Qed.

Definition quad_key_of (graph_id : TermId) (s p o : EncodedTerm) : EncodedQuad :=
  {| quad_graph := graph_id; quad_subject := hash_term (canon s);
     quad_predicate := hash_term (canon p); quad_object := hash_term (canon o) |}.

Lemma resolve_quad_ok st cx g s p o q cx' :
  cx_ok st cx → resolve_quad st cx g s p o = Ok (q, cx') →
  q = quad_key_of g s p o ∧ cx_ok st cx' ∧
  step_ok (canon <$> [s; p; o]) (cx_store st cx) (cx_store st cx') ∧
  quads (cx_store st cx') = quads (cx_store st cx).
Proof.
  intros Hcx. unfold resolve_quad.
  intros ([s1 cx1] & (-> & Hcx1 & S1 & Q1)%resolve_canonical_ok & Hr)%bind_ok; [|done].
  apply bind_ok in Hr as ([p1 cx2] & (-> & Hcx2 & S2 & Q2)%resolve_canonical_ok & Hr); [|done].
  apply bind_ok in Hr as ([o1 cx3] & (-> & Hcx3 & S3 & Q3)%resolve_canonical_ok & [= <- <-]); [|done].
  split_and!; [done|done| |congruence].
  exact (step_ok_trans _ _ _ _ _ S1 (step_ok_trans _ _ _ _ _ S2 S3)).
Qed.

Lemma seed_term_cache_ok st cx l cx' :
  cx_ok st cx → seed_term_cache st cx l = Ok cx' →
  cx_ok st cx' ∧ step_ok l (cx_store st cx) (cx_store st cx') ∧
  quads (cx_store st cx') = quads (cx_store st cx).
Proof.
  unfold seed_term_cache. revert cx; induction l as [|t l IH]; intros cx Hcx; cbn [try_fold].
  { intros [= <-]. split_and!; [done|apply step_ok_refl|done]. }
  intros (cx1 & Hr & Hl)%bind_ok. apply bind_ok in Hr as ([id cx2] & Hr & [= <-]).
  apply resolve_term_cached_ok in Hr as (-> & Hcx2 & S2 & Q2); [|done].
  apply IH in Hl as (Hcx' & S3 & Q3); [|done]. split_and!; [done| |congruence].
  exact (step_ok_trans [t] l _ _ _ S2 S3).
Qed.

(** The dots at [k] after one operation, from those before it. *)
Definition op_result (g : TermId) (op : QuadOp) (before : EncodedQuad → Dot → Prop)
    (k : EncodedQuad) (e : Dot) : Prop :=
  match op with
  | Add _ _ _ d => before k e ∨ (k = op_key g op ∧ e = d)
  | Remove _ _ _ w => before k e ∧ ¬ (k = op_key g op ∧ VectorClock.contains w e = true)
  end.

Definition dots_at (st : Store) (k : EncodedQuad) (e : Dot) : Prop := e ∈ read_quad_dots st k.

Lemma with_batch_ok st cx b :
  cx_ok st cx → batch_ok st b → step_ok [] (cx_store st cx) (commit st b) → cx_ok st (with_batch cx b).
Proof.
  intros [_ Hc] Hb Hs. split; [done|]. intros t id. cbn. intros [-> Ht]%Hc. split; [done|].
  by eapply step_ok_terms.
Qed.

Lemma apply_op_ok st g cx op cx' :
  cx_ok st cx → apply_op st g cx op = Ok cx' →
  cx_ok st cx' ∧ step_ok (canon <$> op_terms op) (cx_store st cx) (cx_store st cx') ∧
  ∀ k e, dots_at (cx_store st cx') k e ↔ op_result g op (dots_at (cx_store st cx)) k e.
Proof.
  intros Hcx Ha.
  assert (∀ cx1 b, cx_ok st cx1 → step_ok (canon <$> op_terms op) (cx_store st cx) (cx_store st cx1) →
    batch_ok st b → step_ok [] (cx_store st cx1) (commit st b) →
    cx_ok st (with_batch cx1 b) ∧
    step_ok (canon <$> op_terms op) (cx_store st cx) (cx_store st (with_batch cx1 b))) as Hstep.
  { intros cx1 b Hcx1 S1 Hb S2. split; [by apply with_batch_ok|].
    rewrite <- (app_nil_r (_ <$> _)). exact (step_ok_trans _ _ _ _ _ S1 S2). }
  destruct op as [s p o d|s p o w]; cbn in Ha;
    apply bind_ok in Ha as ([q cx1] & (-> & Hcx1 & S1 & Q1)%resolve_quad_ok & [= <-]); try done.
  - destruct (insert_quad_effect st (cx_batch cx1) (quad_key_of g s p o) d (co_batch _ _ Hcx1))
      as (Hb & S2 & Hd).
    destruct (Hstep _ _ Hcx1 S1 Hb S2) as [Hcx' S']. split_and!; [done|done|].
    intros k e. unfold dots_at, cx_store at 1. cbn [with_batch cx_batch]. rewrite Hd.
    unfold read_quad_dots. fold (cx_store st cx1). by rewrite Q1.
  - destruct (remove_quad_effect st (cx_batch cx1) (quad_key_of g s p o) w (co_batch _ _ Hcx1))
      as (Hb & S2 & Hd).
    destruct (Hstep _ _ Hcx1 S1 Hb S2) as [Hcx' S']. split_and!; [done|done|].
    intros k e. unfold dots_at, cx_store at 1. cbn [with_batch cx_batch]. rewrite Hd.
    unfold read_quad_dots. fold (cx_store st cx1). by rewrite Q1.
Qed.

Definition adds (g : TermId) (ops : list QuadOp) (k : EncodedQuad) : Prop :=
  ∃ s p o d, Add s p o d ∈ ops ∧ k = op_key g (Add s p o d).
Definition removes (g : TermId) (ops : list QuadOp) (k : EncodedQuad) (e : Dot) : Prop :=
  ∃ s p o w, Remove s p o w ∈ ops ∧ k = op_key g (Remove s p o w) ∧ VectorClock.contains w e = true.

(** An operation of the event [id]: an add carries it, a removal does not
    witness it. *)
Definition op_of (id : Dot) (op : QuadOp) : Prop :=
  match op with
  | Add _ _ _ d => d = id
  | Remove _ _ _ w => VectorClock.contains w id = false
  end.

Lemma apply_ops_ok st g id ops cx cx' :
  Forall (op_of id) ops → cx_ok st cx → try_fold (apply_op st g) cx ops = Ok cx' →
  cx_ok st cx' ∧ step_ok (canon <$> (ops ≫= op_terms)) (cx_store st cx) (cx_store st cx') ∧
  ∀ k e, dots_at (cx_store st cx') k e ↔
    (dots_at (cx_store st cx) k e ∧ ¬ removes g ops k e) ∨ (e = id ∧ adds g ops k).
Proof.
  intros Hops. revert cx; induction Hops as [|op ops Hop Hops IH]; intros cx Hcx; cbn [try_fold].
  { intros [= <-]. split_and!; [done|apply step_ok_refl|]. unfold removes, adds. set_solver. }
  intros (cx1 & (Hcx1 & S1 & D1)%apply_op_ok & Hl)%bind_ok; [|done].
  apply IH in Hl as (Hcx' & S2 & D2); [|done]. split_and!; [done| |].
  - cbn [mbind list_bind]. rewrite fmap_app. exact (step_ok_trans _ _ _ _ _ S1 S2).
  - assert (∀ k, ¬ removes g ops k id) as Hid.
    { intros k (s & p & o & w & Hin & _ & Hw). rewrite Forall_forall in Hops.
      specialize (Hops _ Hin). cbn in Hops. congruence. }
    intros k e. rewrite D2, D1. unfold op_result, removes, adds.
    setoid_rewrite elem_of_cons. destruct op as [s p o d|s p o w]; cbn in Hop.
    + subst d. specialize (Hid k). unfold removes in Hid. split.
      * intros [[[Hb|[-> ->]] Hr]|[-> Ha]]; [left; naive_solver|right; naive_solver|right; naive_solver].
      * intros [[Hb Hr]|[-> (s' & p' & o' & d' & [Heq|Hin] & ->)]]; [left; naive_solver| |right; naive_solver].
        injection Heq as -> -> -> ->. left. split; [by right|naive_solver].
    + split.
      * intros [[[Hb Hw] Hr]|[-> Ha]]; [left; naive_solver|right; naive_solver].
      * intros [[Hb Hr]|[-> Ha]]; [left; naive_solver|right; naive_solver].
Qed.
End interning.

(** ** One merged batch *)

Section merging.
Context `{Oxrdf} `{Blake3}.

Definition gid (graph : GraphId) : TermId := hash_term (from_named_node graph).

(** A store invariant: dot sets are normalised, and a graph with a metadata
    record or a tombstone is interned. *)
Record store_wf (st : Store) : Prop := {
  sw_quads : quads_wf st;
  sw_metas g : is_Some (graph_metas st !! g) → is_Some (terms st !! g);
  sw_tombs g : is_Some (graph_tombstones st !! g) → is_Some (terms st !! g);
}.

Lemma store_wf_empty : store_wf empty_store.
Proof. split; [by intros ?| |]; intros g; cbn; by rewrite lookup_empty. Qed.

Lemma graph_id_for_ok st graph o :
  graph_id_for st graph = Ok o →
  (o = Some (gid graph) ∧ terms st !! gid graph = Some (from_named_node graph)) ∨
  (o = None ∧ terms st !! gid graph = None).
Proof.
  unfold graph_id_for, lookup_term, gid. destruct (terms st !! _) as [t|]; [case_decide|]; naive_solver.
Qed.

Definition create_meta (g : TermId) (metas : gmap TermId StoredGraphMeta) : gmap TermId StoredGraphMeta :=
  partial_alter (λ m, Some (default StoredGraphMeta_default m)) g metas.

(** The part of an effect that creates the graph. *)
Record ensure_effect (graph : GraphId) (st st' : Store) : Prop := {
  ee_interned : terms st' !! gid graph = Some (from_named_node graph);
  ee_metas : graph_metas st' = create_meta (gid graph) (graph_metas st);
  ee_clocks : graph_clocks st' = graph_clocks st;
  ee_tombs : graph_tombstones st' = graph_tombstones st;
  ee_policies : deleted_policies st' = deleted_policies st;
  ee_heads : log_heads st' = log_heads st;
  ee_quads : quads st' = quads st;
  ee_terms i u : terms st' !! i = Some u ↔
    terms st !! i = Some u ∨ (i = hash_term u ∧ u = from_named_node graph);
}.

Lemma create_meta_some g metas m : metas !! g = Some m → create_meta g metas = metas.
Proof.
  intros Hg. apply map_eq. intros i. unfold create_meta. rewrite lookup_partial_alter.
  case_decide as Hi; [subst; by rewrite Hg|done].
Qed.

Lemma create_meta_none g metas :
  metas !! g = None → create_meta g metas = <[g := StoredGraphMeta_default]> metas.
Proof.
  intros Hg. apply map_eq. intros i. unfold create_meta.
  rewrite lookup_partial_alter, lookup_insert. case_decide as Hi; [subst; by rewrite Hg|done].
Qed.

Lemma ensure_graph_ok st graph st' u :
  store_wf st → ensure_graph graph st = (st', Ok u) → ensure_effect graph st st'.
Proof.
  intros Hwf. unfold ensure_graph, of_store.
  intros (st1 & present & (-> & Hp%map_err_ok)%st_read_ok & Hr)%st_bind_ok.
  unfold contains_graph in Hp. apply bind_ok in Hp as (o & Ho%graph_id_for_ok & Hp).
  destruct present.
  - injection Hr as <-. destruct Ho as [[-> Ht]|[-> Ht]]; [|done].
    injection Hp as Hm%bool_decide_eq_true. destruct Hm as [m Hm].
    split; try done; [by rewrite (create_meta_some _ _ m)|]. intros i u'. naive_solver.
  - apply st_update_ok, map_err_ok in Hr. unfold create_graph in Hr.
    apply bind_ok in Hr as ([g b] & Hb & Hr).
    apply encode_term_batch_ok in Hb as (-> & _ & Hs & Hq & Ht); [|apply batch_ok_new].
    rewrite commit_new in *. fold (gid graph) in *.
    assert (graph_metas st !! gid graph = None) as Hm.
    { destruct (graph_metas st !! gid graph) as [m|] eqn:Hm; [|done].
      destruct Ho as [[-> Ho]|[-> Ho]].
      - injection Hp as Hp%bool_decide_eq_false. exfalso. apply Hp. by exists m.
      - destruct (sw_metas _ Hwf (gid graph)) as [t Ht']; [by exists m|congruence]. }
    unfold read_graph_meta in Hr. rewrite Hm in Hr. injection Hr as <-.
    destruct Hs as [(Fm & Fc & Ft & Fp) Fh _ Fts]. rewrite commit_stage.
    destruct (commit st b) as [ts qs ms cs tb dp lh]; cbn in *; subst.
    split; cbn; try done; [by rewrite create_meta_none|].
    intros i u'. rewrite Fts, list_elem_of_singleton. done.
Qed.

Lemma vector_clock_created g metas st st' :
  graph_clocks st' = graph_clocks st → graph_metas st = metas →
  graph_metas st' = create_meta g metas →
  ∀ h, vector_clock_id st' h = vector_clock_id st h.
Proof.
  intros Hc Hm Hm' h. unfold vector_clock_id. rewrite Hc, Hm', Hm.
  destruct (graph_clocks st !! h); [done|]. unfold create_meta. rewrite lookup_partial_alter.
  case_decide; [subst|done]. by destruct (graph_metas st !! h).
Qed.

Lemma get_vector_clock_le st graph clock :
  get_vector_clock st graph = Ok clock → clock_le clock (vector_clock_id st (gid graph)).
Proof.
  unfold get_vector_clock. intros (o & Ho%graph_id_for_ok & Hc)%bind_ok.
  destruct Ho as [[-> _]|[-> _]]; injection Hc as <-; [done|]. by intros d.
Qed.

Lemma get_vector_clock_interned st graph :
  terms st !! gid graph = Some (from_named_node graph) →
  get_vector_clock st graph = Ok (vector_clock_id st (gid graph)).
Proof.
  intros Ht. unfold get_vector_clock, graph_id_for, lookup_term.
  fold (gid graph). rewrite Ht. cbn. by rewrite decide_True.
Qed.

Lemma resolve_term_interned st t : terms st !! hash_term t = Some t → resolve_term st t = Ok (hash_term t, st).
Proof.
  intros Ht. unfold resolve_term, encode_term, confirm_stored_term. rewrite Ht.
  by rewrite decide_True.
Qed.

Definition ops_terms (ops : list QuadOp) : list EncodedTerm :=
  (ops ≫= op_terms) ++ (canon <$> (ops ≫= op_terms)).

(** The loop and the commit of [apply_single_batch]. *)
Lemma apply_single_batch_ok st b clock st' u :
  Forall (op_of (batch_identity b)) (batch_ops b) →
  terms st !! gid (batch_graph b) = Some (from_named_node (batch_graph b)) →
  apply_single_batch b clock None st = (st', Ok u) →
  ∃ st1, st' = apply_write st1 (PutClock (gid (batch_graph b))
                 (VectorClock.advance (batch_actor b) (batch_counter b) clock)) ∧
  step_ok (ops_terms (batch_ops b)) st st1 ∧
  ∀ k e, dots_at st1 k e ↔
    (dots_at st k e ∧ ¬ removes (gid (batch_graph b)) (batch_ops b) k e) ∨
    (e = batch_identity b ∧ adds (gid (batch_graph b)) (batch_ops b) k).
Proof.
  intros Hops Hg. unfold apply_single_batch, of_store.
  intros (s1 & cx & (-> & Hcx%map_err_ok)%st_read_ok & Hr)%st_bind_ok.
  apply seed_term_cache_ok in Hcx as (Hcx & S1 & Q1); [|apply cx_ok_new].
  apply st_bind_ok in Hr as (s2 & g & Hg'%st_exec_ok%map_err_ok & Hr).
  rewrite (resolve_term_interned st _ Hg) in Hg'. injection Hg' as <- <-.
  fold (gid (batch_graph b)) in Hr.
  apply st_bind_ok in Hr as (s3 & cx' & (-> & Hcx'%map_err_ok)%st_read_ok & Hr%st_update_ok).
  apply (apply_ops_ok _ _ (batch_identity b)) in Hcx' as (Hcx' & S2 & D2); [|done|done].
  injection Hr as <-. exists (cx_store st cx'). split; [apply commit_stage|].
  assert (cx_store st empty_cx = st) as Hnew by done. rewrite Hnew in *. split.
  - exact (step_ok_trans _ _ _ _ _ S1 S2).
  - intros k e. rewrite D2. unfold dots_at, read_quad_dots. by rewrite Q1.
Qed.

Definition op_admitted (base : VectorClock.t) (id : Dot) (op : QuadOp) : Prop :=
  match op with Add _ _ _ d => d = id | Remove _ _ _ w => clock_le w base end.

Lemma check_batch_ok b u :
  check_batch b = Ok u → Forall (op_admitted (base_clock b) (batch_identity b)) (batch_ops b).
Proof.
  unfold check_batch. intros (? & _ & (? & _ & (? & Hf & _)%bind_ok)%bind_ok)%bind_ok.
  apply try_fold_forall in Hf. eapply Forall_impl; [exact Hf|]. clear.
  intros op (env & env' & Hop). destruct op as [s p o d|s p o w]; cbn in Hop |- *.
  - apply bind_ok in Hop as (? & _ & (? & _ & Hop)%bind_ok). by case_decide.
  - apply bind_ok in Hop as (? & _ & (? & _ & Hop)%bind_ok).
    apply missing_dots_nil. by destruct (missing_dots _ _).
Qed.

(** Everything a merged batch does to the store. *)
Record merge_effect (b : Batch) (st st' : Store) : Prop := {
  me_fresh : VectorClock.contains (vector_clock_id st (gid (batch_graph b))) (batch_identity b) = false;
  me_base : clock_le (base_clock b) (vector_clock_id st (gid (batch_graph b)));
  me_admitted : Forall (op_admitted (base_clock b) (batch_identity b)) (batch_ops b);
  me_clocks : graph_clocks st' = <[gid (batch_graph b) :=
    VectorClock.advance (batch_actor b) (batch_counter b) (vector_clock_id st (gid (batch_graph b)))]>
    (graph_clocks st);
  me_metas : graph_metas st' = create_meta (gid (batch_graph b)) (graph_metas st);
  me_tombs : graph_tombstones st' = graph_tombstones st;
  me_policies : deleted_policies st' = deleted_policies st;
  me_heads : log_heads st' = log_heads st;
  me_terms i u : terms st' !! i = Some u ↔ terms st !! i = Some u ∨
    (i = hash_term u ∧ u ∈ from_named_node (batch_graph b) :: ops_terms (batch_ops b));
  me_dots k e : dots_at st' k e ↔
    (dots_at st k e ∧ ¬ removes (gid (batch_graph b)) (batch_ops b) k e) ∨
    (e = batch_identity b ∧ adds (gid (batch_graph b)) (batch_ops b) k);
  me_wf : store_wf st';
}.

Lemma check_causal_ok b st st' u :
  check_causal_base b st = (st', Ok u) →
  st' = st ∧ clock_le (base_clock b) (vector_clock_id st (gid (batch_graph b))).
Proof.
  unfold check_causal_base, of_store. destruct (_ && _); [done|].
  intros (s1 & applied & (-> & Happ%map_err_ok)%st_read_ok & Hr)%st_bind_ok.
  destruct (missing_dots (base_clock b) applied) eqn:Hm; [|done]. injection Hr as <- _.
  split; [done|]. apply missing_dots_nil in Hm. etrans; [exact Hm|]. by apply get_vector_clock_le.
Qed.

Lemma merge_batch_ok b st st' :
  store_wf st → merge_batch b st = (st', Ok true) → merge_effect b st st'.
Proof.
  intros Hwf. unfold merge_batch, apply_irokle_plan, apply_irokle_guarded, of_store.
  intros (s1 & [] & (-> & Hcheck%map_err_ok%check_batch_ok)%st_read_ok & Hr)%st_bind_ok.
  apply st_bind_ok in Hr as (s1 & [] & (-> & Hbase)%check_causal_ok & Hr).
  apply st_bind_ok in Hr as (s1 & dead & (-> & _)%st_read_ok & Hr).
  destruct dead; [done|].
  apply st_bind_ok in Hr as (st1 & [] & He%ensure_graph_ok & Hr); [|done].
  apply st_bind_ok in Hr as (s1 & clock & (-> & Hclk%map_err_ok)%st_read_ok & Hr).
  destruct He as [Ei Em Ec Et Ep Eh Eq Ets].
  rewrite (get_vector_clock_interned _ _ Ei) in Hclk. injection Hclk as <-.
  rewrite (vector_clock_created _ _ _ _ Ec eq_refl Em) in Hr.
  destruct (VectorClock.contains _ _) eqn:Hfresh; [done|].
  apply st_bind_ok in Hr as (s2 & [] & Hr & [= <-]).
  apply apply_single_batch_ok in Hr as (s3 & -> & S & D); [| |done].
  2:{ eapply Forall_impl; [exact Hcheck|]. intros [s p o d|s p o w] Ha; cbn in *; [done|].
      destruct (VectorClock.contains w _) eqn:Hw; [|done]. by apply Ha, Hbase in Hw; congruence. }
  destruct S as [(Fm & Fc & Ft & Fp) Fh Fwf Fts].
  assert (quads_wf s3) as Hq3 by (apply Fwf; unfold quads_wf; rewrite Eq; apply Hwf).
  destruct s3 as [ts qs ms cs tb dp lh]; cbn in *; subst.
  assert (∀ i u, ts !! i = Some u ↔ terms st !! i = Some u ∨
    (i = hash_term u ∧ u ∈ from_named_node (batch_graph b) :: ops_terms (batch_ops b))) as Hts.
  { intros i u. rewrite Fts, Ets, elem_of_cons. naive_solver. }
  split; cbn; try done; try congruence.
  - intros k e. etrans; [apply D|]. unfold dots_at, read_quad_dots. by rewrite Eq.
  - assert (∀ g, is_Some (terms st !! g) → is_Some (ts !! g)) as Hgrow.
    { intros g [t Ht]. exists t. apply Hts. by left. }
    split; [done| |]; cbn; intros g.
    + rewrite Em. unfold create_meta. rewrite lookup_partial_alter.
      case_decide as Hg; intros Hm; [|by apply Hgrow, (sw_metas _ Hwf)].
      subst. exists (from_named_node (batch_graph b)). apply Hts. right. split; [done|by left].
    + rewrite Et. intros Ht. by apply Hgrow, (sw_tombs _ Hwf).
Qed.
End merging.

(** ** Sequences of merges *)

Section runs.
Context `{Oxrdf} `{Blake3}.

(** A replica merging a sequence of batches, each of which applies. *)
Fixpoint merged (st : Store) (h : list Batch) : option Store :=
  match h with
  | [] => Some st
  | b :: h' => match merge_batch b st with (st', Ok true) => merged st' h' | _ => None end
  end.

Definition legacy_clock (st : Store) (g : TermId) : VectorClock.t :=
  meta_clock (default StoredGraphMeta_default (graph_metas st !! g)).

Definition clock_step (legacy : TermId → VectorClock.t) (cs : gmap TermId VectorClock.t) (b : Batch)
    : gmap TermId VectorClock.t :=
  partial_alter (λ c, Some (VectorClock.advance (batch_actor b) (batch_counter b)
    (default (legacy (gid (batch_graph b))) c))) (gid (batch_graph b)) cs.

(** What a sequence of applied batches has done, without reference to its
    order except in the folds. *)
Record run_effect (st0 : Store) (h : list Batch) (st : Store) : Prop := {
  re_admitted b : b ∈ h → Forall (op_admitted (base_clock b) (batch_identity b)) (batch_ops b);
  re_base b : b ∈ h → clock_le (base_clock b) (vector_clock_id st (gid (batch_graph b)));
  re_dots k e : dots_at st k e ↔
    (dots_at st0 k e ∨ ∃ b, b ∈ h ∧ e = batch_identity b ∧ adds (gid (batch_graph b)) (batch_ops b) k) ∧
    ¬ ∃ b, b ∈ h ∧ removes (gid (batch_graph b)) (batch_ops b) k e;
  re_terms i u : terms st !! i = Some u ↔ terms st0 !! i = Some u ∨
    ∃ b, b ∈ h ∧ i = hash_term u ∧ u ∈ from_named_node (batch_graph b) :: ops_terms (batch_ops b);
  re_metas : graph_metas st = foldl (λ m b, create_meta (gid (batch_graph b)) m) (graph_metas st0) h;
  re_clocks : graph_clocks st = foldl (clock_step (legacy_clock st0)) (graph_clocks st0) h;
  re_legacy g : legacy_clock st g = legacy_clock st0 g;
  re_frame : graph_tombstones st = graph_tombstones st0 ∧ deleted_policies st = deleted_policies st0 ∧
             log_heads st = log_heads st0;
  re_wf : store_wf st;
}.

Lemma legacy_created st st' g :
  graph_metas st' = create_meta g (graph_metas st) → ∀ h, legacy_clock st' h = legacy_clock st h.
Proof.
  intros Hm h. unfold legacy_clock. rewrite Hm. unfold create_meta. rewrite lookup_partial_alter.
  case_decide; [subst|done]. by destruct (graph_metas st !! h).
Qed.

Lemma vector_clock_legacy st g :
  vector_clock_id st g = default (legacy_clock st g) (graph_clocks st !! g).
Proof. unfold vector_clock_id, legacy_clock. by destruct (graph_clocks st !! g). Qed.

(** A merge advances exactly its graph's clock. *)
Lemma vector_clock_merged b st st' g :
  merge_effect b st st' →
  vector_clock_id st' g =
    if decide (g = gid (batch_graph b))
    then VectorClock.advance (batch_actor b) (batch_counter b) (vector_clock_id st g)
    else vector_clock_id st g.
Proof.
  intros He. rewrite !vector_clock_legacy, (legacy_created _ _ _ (me_metas _ _ _ He)), (me_clocks _ _ _ He).
  rewrite lookup_insert. destruct (decide (g = gid (batch_graph b))) as [->|Hg].
  - rewrite decide_True by done. cbn. by rewrite vector_clock_legacy.
  - by rewrite decide_False by done.
Qed.

Lemma vector_clock_mono b st st' g :
  merge_effect b st st' → clock_le (vector_clock_id st g) (vector_clock_id st' g).
Proof.
  intros He. rewrite (vector_clock_merged _ _ _ _ He). case_decide; [apply clock_le_advance|done].
Qed.

Lemma key_graph_adds g ops k : adds g ops k → quad_graph k = g.
Proof. by intros (? & ? & ? & ? & _ & ->). Qed.
Lemma key_graph_removes g ops k e : removes g ops k e → quad_graph k = g.
Proof. by intros (? & ? & ? & ? & _ & -> & _). Qed.

(** A removal of an admitted batch only removes dots of its base clock. *)
Lemma removes_base b k e :
  Forall (op_admitted (base_clock b) (batch_identity b)) (batch_ops b) →
  removes (gid (batch_graph b)) (batch_ops b) k e →
  VectorClock.contains (base_clock b) e = true.
Proof.
  intros Ha (s & p & o & w & Hin & _ & Hw). rewrite Forall_forall in Ha. by apply (Ha _ Hin).
Qed.

Lemma run_effect_nil st : store_wf st → run_effect st [] st.
Proof. intros Hwf. split; try done; set_solver. Qed.

Lemma run_effect_snoc st0 h st b st' :
  run_effect st0 h st → merge_effect b st st' → run_effect st0 (h ++ [b]) st'.
Proof.
  intros [Ra Rb Rd Rt Rm Rc Rl (Rf1 & Rf2 & Rf3) Rw] He.
  assert (∀ b', b' ∈ h ++ [b] → clock_le (base_clock b') (vector_clock_id st (gid (batch_graph b')))) as Hbase.
  { intros b' [Hb'| ->%list_elem_of_singleton]%elem_of_app; [auto|apply He]. }
  assert (∀ b', b' ∈ h ++ [b] → Forall (op_admitted (base_clock b') (batch_identity b')) (batch_ops b')) as Hadm.
  { intros b' [Hb'| ->%list_elem_of_singleton]%elem_of_app; [auto|apply He]. }
  (* an applied batch's own dot was removed by no batch: that batch would have
     had it in its base clock, and the new one would be a duplicate *)
  assert (∀ k b', adds (gid (batch_graph b)) (batch_ops b) k → b' ∈ h ++ [b] →
    ¬ removes (gid (batch_graph b')) (batch_ops b') k (batch_identity b)) as Hfresh.
  { intros k b' Ha Hb' Hr. pose proof (Hbase _ Hb') as Hle.
    rewrite <- (key_graph_removes _ _ _ _ Hr), (key_graph_adds _ _ _ Ha) in Hle.
    apply removes_base, Hle in Hr; [|by apply Hadm]. by rewrite (me_fresh _ _ _ He) in Hr. }
  split.
  - done.
  - intros b' Hb'. etrans; [by apply Hbase|]. by eapply vector_clock_mono.
  - intros k e. rewrite (me_dots _ _ _ He), Rd. setoid_rewrite elem_of_app in Hfresh.
    setoid_rewrite elem_of_app. setoid_rewrite list_elem_of_singleton.
    setoid_rewrite list_elem_of_singleton in Hfresh. split.
    + intros [[[Hd Hr] Hrb]|[-> Ha]].
      * split; [destruct Hd as [?|(? & ? & ?)]; eauto 6|]. intros (b' & [Hb'| ->] & Hr'); [eauto|done].
      * split; [eauto 6|]. intros (b' & Hb' & Hr'). by eapply Hfresh.
    + intros [[Hd|(b' & [Hb'| ->] & -> & Ha)] Hr]; [left|left|by right];
        (split; [split|]); [eauto|naive_solver|naive_solver|eauto|naive_solver|naive_solver].
  - intros i u. rewrite (me_terms _ _ _ He), Rt. setoid_rewrite elem_of_app.
    setoid_rewrite list_elem_of_singleton. naive_solver.
  - by rewrite foldl_app, (me_metas _ _ _ He), Rm.
  - rewrite foldl_app, <- Rc, (me_clocks _ _ _ He); cbn [foldl].
    unfold clock_step. apply map_eq. intros i. rewrite lookup_insert, lookup_partial_alter.
    case_decide as Hi; [|done]. subst. do 2 f_equal. rewrite <- Rl. apply vector_clock_legacy.
  - intros g. rewrite (legacy_created _ _ _ (me_metas _ _ _ He)). apply Rl.
  - split_and!; [rewrite (me_tombs _ _ _ He)|rewrite (me_policies _ _ _ He)|rewrite (me_heads _ _ _ He)]; done.
  - apply He.
Qed.

Lemma merged_run st0 h1 st h st' :
  run_effect st0 h1 st → merged st h = Some st' → run_effect st0 (h1 ++ h) st'.
Proof.
  revert h1 st; induction h as [|b h IH]; intros h1 st Hr; cbn [merged].
  { intros [= <-]. by rewrite app_nil_r. }
  destruct (merge_batch b st) as [st1 [[]| |]] eqn:Hb; try done. intros Hm.
  change (b :: h) with ([b] ++ h). rewrite app_assoc. eapply IH; [|exact Hm].
  eapply run_effect_snoc; [done|]. eapply merge_batch_ok; [apply Hr|done].
Qed.

Lemma create_meta_comm g g' m : create_meta g' (create_meta g m) = create_meta g (create_meta g' m).
Proof.
  unfold create_meta. destruct (decide (g = g')) as [->|Hg]; [done|]. by apply partial_alter_partial_alter_ne.
Qed.

Lemma clock_step_comm legacy cs b b' :
  clock_step legacy (clock_step legacy cs b) b' = clock_step legacy (clock_step legacy cs b') b.
Proof.
  unfold clock_step. destruct (decide (gid (batch_graph b) = gid (batch_graph b'))) as [Hg|Hg].
  - rewrite Hg, !partial_alter_partial_alter_eq. apply partial_alter_ext. intros c _. cbn.
    f_equal. apply advance_comm.
  - by apply partial_alter_partial_alter_ne.
Qed.

(** Two effects of permuted histories from one store are the same store. *)
Lemma run_effect_unique st0 h h' st st' :
  run_effect st0 h st → run_effect st0 h' st' → h ≡ₚ h' → st = st'.
Proof.
  intros [_ _ Rd Rt Rm Rc _ (Rf1 & Rf2 & Rf3) Rw] [_ _ Rd' Rt' Rm' Rc' _ (Rf1' & Rf2' & Rf3') Rw'] Hp.
  assert (quads st = quads st') as Hq.
  { apply quads_ext; [apply Rw|apply Rw'|]. intros k d. unfold dots_at in Rd, Rd'.
    rewrite Rd, Rd'. by setoid_rewrite Hp. }
  assert (terms st = terms st') as Ht.
  { apply map_eq. intros i. apply option_eq. intros u. rewrite Rt, Rt'. by setoid_rewrite Hp. }
  assert (graph_metas st = graph_metas st') as Hm.
  { rewrite Rm, Rm'. apply foldl_perm; [|done]. intros. apply create_meta_comm. }
  assert (graph_clocks st = graph_clocks st') as Hc.
  { rewrite Rc, Rc'. apply foldl_perm; [|done]. intros. apply clock_step_comm. }
  assert (graph_tombstones st = graph_tombstones st' ∧ deleted_policies st = deleted_policies st' ∧
    log_heads st = log_heads st') as (Hf1 & Hf2 & Hf3) by (split_and!; congruence).
  clear -Hq Ht Hm Hc Hf1 Hf2 Hf3. destruct st, st'; cbn in *. congruence.
Qed.

(** C1: Strong convergence: replicas that start from one well-formed store and
    merge the same batches, each applied, in any two orders, end in the same
    store -- the same dot sets, clocks, graph records and interned terms. *)
Theorem merges_converge st0 h1 h2 s1 s2 :
  store_wf st0 → h1 ≡ₚ h2 →
  merged st0 h1 = Some s1 → merged st0 h2 = Some s2 → s1 = s2.
Proof.
  intros Hwf Hp H1 H2. pose proof (run_effect_nil _ Hwf) as Hn.
  eapply run_effect_unique; [exact (merged_run _ _ _ _ _ Hn H1)|exact (merged_run _ _ _ _ _ Hn H2)|done].
Qed.

(** C23: The converged dot sets: a dot is live for a quad exactly when some merged
    batch added the quad under it and no merged batch's removal of the quad
    witnessed it -- whatever the order of the merges (add wins). *)
Theorem merged_dots h st :
  merged empty_store h = Some st →
  ∀ k e, e ∈ read_quad_dots st k ↔
    (∃ b, b ∈ h ∧ e = batch_identity b ∧ adds (gid (batch_graph b)) (batch_ops b) k) ∧
    ¬ ∃ b, b ∈ h ∧ removes (gid (batch_graph b)) (batch_ops b) k e.
Proof.
  intros Hm k e.
  pose proof (re_dots _ _ _ (merged_run _ _ _ _ _ (run_effect_nil _ store_wf_empty) Hm) k e) as Hd.
  unfold dots_at in Hd. rewrite Hd. unfold read_quad_dots at 1. cbn. rewrite lookup_empty. cbn.
  set_solver.
Qed.

(** C25: Merging a batch again after it applied changes nothing and reports that it
    did not apply. *)
Theorem merge_batch_idempotent b st st' :
  store_wf st → merge_batch b st = (st', Ok true) → merge_batch b st' = (st', Ok false).
Proof.
  intros Hwf Hm. pose proof (merge_batch_ok _ _ _ Hwf Hm) as He.
  assert (terms st' !! gid (batch_graph b) = Some (from_named_node (batch_graph b))) as Ht
    by (apply (me_terms _ _ _ He); right; split; [done|by left]).
  assert (graph_id_for st' (batch_graph b) = Ok (Some (gid (batch_graph b)))) as Hg.
  { unfold graph_id_for, lookup_term. fold (gid (batch_graph b)). by rewrite Ht, decide_True. }
  unfold merge_batch in Hm |- *.
  apply st_bind_ok in Hm as (s1 & [] & (-> & Hcheck)%st_read_ok & Hm).
  apply st_bind_ok in Hm as (s1 & [] & Hcausal & Hm).
  pose proof (proj1 (check_causal_ok _ _ _ _ Hcausal)) as ->.
  unfold st_bind at 1, st_read at 1. rewrite Hcheck.
  assert (check_causal_base b st' = (st', Ok ())) as Hc'.
  { unfold check_causal_base in Hcausal |- *. destruct (_ && _); [done|].
    unfold of_store, st_bind, st_read. rewrite (get_vector_clock_interned _ _ Ht); cbn.
    assert (missing_dots (base_clock b) (vector_clock_id st' (gid (batch_graph b))) = []) as ->; [|done].
    apply missing_dots_nil. etrans; [apply (me_base _ _ _ He)|]. by eapply vector_clock_mono. }
  unfold st_bind at 1. rewrite Hc'. unfold apply_irokle_plan in Hm |- *.
  apply st_bind_ok in Hm as (s1 & dead & (-> & Hdead%map_err_ok)%st_read_ok & Hm). destruct dead; [done|].
  assert (graph_tombstoned st' (batch_graph b) = Ok false) as Hd'.
  { unfold graph_tombstoned, graph_tombstone. rewrite Hg; cbn. rewrite (me_tombs _ _ _ He).
    apply st_bind_ok in Hm as (st1 & [] & Hens%ensure_graph_ok & Hm); [|done].
    destruct (graph_tombstones st !! gid (batch_graph b)) as [t|] eqn:Et; [|done].
    destruct (sw_tombs _ Hwf (gid (batch_graph b))) as [t' Ht']; [by exists t|].
    unfold graph_tombstoned, graph_tombstone in Hdead.
    apply bind_ok in Hdead as (o & (o' & Ho%graph_id_for_ok & Ho')%bind_ok & Hd).
    destruct Ho as [[-> _]|[-> Hnone]]; [|congruence].
    injection Ho' as <-. by rewrite Et in Hd. }
  assert (contains_graph st' (batch_graph b) = Ok true) as Hp'.
  { unfold contains_graph. rewrite Hg; cbn. f_equal. apply bool_decide_eq_true.
    rewrite (me_metas _ _ _ He). unfold create_meta. rewrite lookup_partial_alter_eq. by eexists. }
  unfold of_store, st_bind at 1, st_read at 1. rewrite Hd'; cbn.
  unfold ensure_graph, of_store, st_bind at 1, st_bind at 1, st_read at 1. rewrite Hp'; cbn.
  unfold apply_irokle_guarded, of_store, st_bind, st_read.
  rewrite (get_vector_clock_interned _ _ Ht); cbn.
  rewrite (vector_clock_merged _ _ _ _ He), decide_True by done.
  assert (VectorClock.contains (VectorClock.advance (batch_actor b) (batch_counter b)
    (vector_clock_id st (gid (batch_graph b)))) (batch_identity b) = true) as ->; [|done].
  apply contains_advance. by right.
Qed.
End runs.
