(* ===== verification/Invariants.v ===== *)
(** * Invariants of the replicated store

    Every operation of the replication layer -- merges, local writes, snapshot
    installs, deletions and policy writes, whether they succeed or fail part way
    -- keeps the store well formed: dot sets non-empty, strictly sorted and free
    of repetitions, graph records interned. *)

From S2P Require Import Prelude Clock Terms Store Replication Convergence.
#[local] Open Scope craqle_scope.

(** ** Staged writes *)

(** The writes quad operations stage: terms and normalised dot sets. *)
Definition plain_write (w : Write) : Prop :=
  match w with
  | PutTerm _ _ | DelQuad _ => True
  | PutQuad _ dots => dots ≠ [] ∧ StronglySorted cmp_lt dots
  | _ => False
  end.

(** Graph-record writes other than those that create a record for a graph. *)
Definition tame_write (w : Write) : Prop :=
  match w with
  | PutQuad _ dots => dots ≠ [] ∧ StronglySorted cmp_lt dots
  | PutMeta _ _ | PutTombstone _ _ => False
  | _ => True
  end.

Lemma plain_tame w : plain_write w → tame_write w.
Proof. by destruct w. Qed.

Lemma quads_wf_insert qs q (dots : list Dot) :
  dots ≠ [] ∧ StronglySorted cmp_lt dots →
  map_Forall (λ _ dots, dots ≠ [] ∧ StronglySorted cmp_lt dots) qs →
  map_Forall (λ _ dots, dots ≠ [] ∧ StronglySorted cmp_lt dots) (<[q := dots]> (qs : gmap EncodedQuad _)).
Proof. intros. by apply map_Forall_insert_2. Qed.

Section writes.
Context `{Blake3}.

Lemma terms_grow st w i : is_Some (terms st !! i) → is_Some (terms (apply_write st w) !! i).
Proof.
  destruct st, w; cbn; try done. rewrite lookup_insert. by case_decide.
Qed.

Lemma apply_tame st w : tame_write w → store_wf st → store_wf (apply_write st w).
Proof.
  intros Hw [Hq Hm Ht].
  assert (∀ i, is_Some (terms st !! i) → is_Some (terms (apply_write st w) !! i)) as Hg
    by (intros; by apply terms_grow).
  split.
  - destruct st, w; cbn in *; try done.
    + by apply quads_wf_insert.
    + by apply map_Forall_delete.
  - intros g. destruct st, w; cbn in *; try (by auto).
    rewrite lookup_delete. case_decide; [by intros []|auto].
  - intros g. destruct st, w; cbn in *; auto; done.
Qed.

Lemma apply_writes_grow st l i : is_Some (terms st !! i) → is_Some (terms (foldl apply_write st l) !! i).
Proof. revert st; induction l as [|w l IH]; intros st Hi; cbn; [done|]. by apply IH, terms_grow. Qed.

Lemma apply_writes_tame st l : Forall tame_write l → store_wf st → store_wf (foldl apply_write st l).
Proof.
  intros Hl. revert st; induction Hl as [|w l Hw _ IH]; intros st Hst; cbn; [done|].
  by apply IH, apply_tame.
Qed.

Lemma commit_tame st b : Forall tame_write (inner b) → store_wf st → store_wf (commit st b).
Proof. apply apply_writes_tame. Qed.

(** Writes that may create the records of the graph [g]. *)
Definition record_write (g : TermId) (w : Write) : Prop :=
  match w with
  | PutMeta h _ | PutTombstone h _ => h = g
  | _ => tame_write w
  end.

(** A batch that only creates records of a graph it leaves interned keeps the
    store well formed. *)
Lemma commit_record st b g :
  store_wf st → Forall (record_write g) (inner b) → is_Some (terms (commit st b) !! g) →
  store_wf (commit st b).
Proof.
  unfold commit. intros [Hq Hm Ht] Hb Hg.
  assert (∀ l s, Forall (record_write g) l → quads_wf s →
    (∀ h, is_Some (graph_metas s !! h) ∨ is_Some (graph_tombstones s !! h) → h = g ∨ is_Some (terms s !! h)) →
    let s' := foldl apply_write s l in quads_wf s' ∧
    ∀ h, is_Some (graph_metas s' !! h) ∨ is_Some (graph_tombstones s' !! h) → h = g ∨ is_Some (terms s' !! h))
    as Hgen.
  { clear. induction l as [|w l IH]; intros s Hl Hq Hr; cbn; [done|].
    apply Forall_cons in Hl as [Hw Hl]. apply IH; [done| |].
    - destruct s, w; cbn in *; try done; [by apply quads_wf_insert|by apply map_Forall_delete].
    - intros h Hh. assert (is_Some (terms s !! h) → is_Some (terms (apply_write s w) !! h)) as Hgrow
        by apply terms_grow.
      assert (h = g ∨ is_Some (graph_metas s !! h) ∨ is_Some (graph_tombstones s !! h)) as [->|Hs].
      { clear Hgrow Hr Hq. destruct s, w; cbn in *; auto; rewrite ?lookup_insert, ?lookup_delete in Hh;
          try case_decide; subst; auto; destruct Hh as [[]|]; auto; done. }
      + by left.
      + apply Hr in Hs as [->|Hs]; [by left|by right; apply Hgrow]. }
  destruct (Hgen (inner b) st Hb Hq) as [Hq' Hr]; [intros h [?|?]; right; auto|].
  split; [done| |]; intros h Hh; (destruct (Hr h) as [->|]; [auto|done|done]).
Qed.

End writes.

(** A property of staged writes that quad operations respect. *)
Class Covers (P : Write → Prop) : Prop := covers w : plain_write w → P w.
#[export] Instance covers_plain : Covers plain_write.
Proof. by intros w. Qed.
#[export] Instance covers_tame : Covers tame_write := plain_tame.
#[export] Instance covers_record g : Covers (record_write g).
Proof. intros w. by destruct w. Qed.

Definition writes_in (P : Write → Prop) (b : WriteBatch) : Prop := Forall P (inner b).

Section staged.
Context `{Blake3} (P : Write → Prop) `{!Covers P}.

Lemma writes_in_new : writes_in P new_batch.
Proof. constructor. Qed.

Lemma writes_in_stage b w : writes_in P b → P w → writes_in P (stage b w).
Proof. intros. unfold writes_in; cbn. apply Forall_app. by repeat constructor. Qed.

Lemma plain_write_quad st b q dots : writes_in P b → writes_in P (write_quad_state st b q dots).1.
Proof.
  intros Hb. unfold write_quad_state, writes_in.
  assert (Forall P (inner b ++
    [if bool_decide (normalize_dots dots ≠ []) then PutQuad q (normalize_dots dots) else DelQuad q])) as Hw.
  { apply Forall_app. split; [done|]. constructor; [|done]. apply covers.
    case_bool_decide; cbn; [split; [done|apply normalize_sorted]|done]. }
  by repeat case_match; simplify_eq/=.
Qed.

Lemma plain_insert_quad st b q d : writes_in P b → writes_in P (insert_quad st b q d).1.
Proof. intros Hb. unfold insert_quad. case_decide; [done|]. by apply plain_write_quad. Qed.

Lemma plain_remove_quad st b q w : writes_in P b → writes_in P (remove_quad st b q w).1.
Proof. intros Hb. unfold remove_quad. case_decide; [done|]. by apply plain_write_quad. Qed.

Lemma inner_encode_term st b t id b' :
  encode_term_batch st b t = Ok (id, b') →
  id = hash_term t ∧ (inner b' = inner b ∨ inner b' = inner b ++ [PutTerm id t]).
Proof.
  unfold encode_term_batch, confirm_stored_term. intros He.
  repeat (case_match || case_decide); simplify_eq/=; auto.
Qed.

Lemma plain_encode_term st b t id b' :
  writes_in P b → encode_term_batch st b t = Ok (id, b') → writes_in P b'.
Proof.
  intros Hb [_ [Hi|Hi]]%inner_encode_term; unfold writes_in; rewrite Hi; [done|].
  apply Forall_app. split; [done|]. constructor; [by apply covers|done].
Qed.
End staged.

#[export] Hint Resolve writes_in_new writes_in_stage plain_insert_quad plain_remove_quad : craqle.

Section operations.
Context `{Oxrdf} `{Blake3} (P : Write → Prop) `{!Covers P}.

Definition plain_cx (cx : BatchTermCtx) : Prop := writes_in P (cx_batch cx).

Lemma plain_resolve_cached st cx t id cx' :
  plain_cx cx → resolve_term_cached st cx t = Ok (id, cx') → plain_cx cx'.
Proof.
  intros Hcx. unfold resolve_term_cached. destruct (cx_cache cx !! t); [by intros [= _ <-]|].
  intros ([id' b] & Hb & [= _ <-])%bind_ok. by eapply plain_encode_term.
Qed.

Lemma plain_resolve_canonical st cx t id cx' :
  plain_cx cx → resolve_canonical st cx t = Ok (id, cx') → plain_cx cx'.
Proof.
  intros Hcx. unfold resolve_canonical. intros (c & _ & Hr)%bind_ok.
  destruct c; by eapply plain_resolve_cached.
Qed.

Lemma plain_resolve_quad st cx g s p o q cx' :
  plain_cx cx → resolve_quad st cx g s p o = Ok (q, cx') → plain_cx cx'.
Proof.
  intros Hcx. unfold resolve_quad. intros ([? c1] & H1 & Hr)%bind_ok.
  apply bind_ok in Hr as ([? c2] & H2 & Hr). apply bind_ok in Hr as ([? c3] & H3 & [= _ <-]).
  eapply plain_resolve_canonical, H3. eapply plain_resolve_canonical, H2. by eapply plain_resolve_canonical, H1.
Qed.

Lemma plain_seed st cx l cx' : plain_cx cx → seed_term_cache st cx l = Ok cx' → plain_cx cx'.
Proof.
  intros Hcx. unfold seed_term_cache. apply try_fold_inv; [|done].
  intros c x c' _ Hc ([id c1] & Hr & [= <-])%bind_ok. by eapply plain_resolve_cached.
Qed.

Lemma plain_apply_op st g cx op cx' : plain_cx cx → apply_op st g cx op = Ok cx' → plain_cx cx'.
Proof.
  intros Hcx. destruct op; cbn; intros ([q c] & Hq%plain_resolve_quad & [= <-])%bind_ok;
    unfold plain_cx in *; cbn; auto with craqle.
Qed.

Lemma plain_local_change st g dot clock acc change acc' :
  plain_cx acc.1 → local_change st g dot clock acc change = Ok acc' → plain_cx acc'.1.
Proof.
  intros Hcx. destruct acc as [cx ops], change; cbn;
    intros ([q c] & Hq%plain_resolve_quad & [= <-])%bind_ok; unfold plain_cx in *; cbn; auto with craqle.
Qed.

Lemma plain_insert_all st b q dots :
  writes_in P b → writes_in P (foldl (λ b d, (insert_quad st b q d).1) b dots).
Proof. revert b; induction dots as [|d l IH]; intros b Hb; cbn; auto with craqle. Qed.

Lemma plain_join_row st g here there acc row acc' :
  plain_cx acc.1 → join_row st g here there acc row = Ok acc' → plain_cx acc'.1.
Proof.
  destruct acc as [cx ch], row as [[[s p] o] [local remote]]. cbn [fst]. intros Hcx. unfold join_row.
  set (joined := join_dots _ _ _ _). set (dropped := filter (λ d, d ∉ joined) local).
  set (added := filter _ joined). clearbody dropped added.
  intros Hr.
  assert (acc' = (cx, ch) ∨ ∃ q cx1 b, resolve_quad st cx g s p o = Ok (q, cx1) ∧
     acc' = (with_batch cx1 b, true) ∧ (plain_cx cx1 → writes_in P b)) as [->|(q & cx1 & b & Hq & -> & Hb)].
  { destruct dropped as [|d ds], added as [|a as_]; [injection Hr as <-; by left|right..];
      apply bind_ok in Hr as ([q cx1] & Hq & [= <-]); exists q, cx1; eexists; (split; [exact Hq|]);
      (split; [reflexivity|]); intros Hp; cbv zeta;
      repeat first [done|apply plain_insert_all|apply plain_remove_quad|apply plain_insert_quad]. }
  - done.
  - apply plain_resolve_quad in Hq; [|done]. unfold plain_cx; cbn. auto.
Qed.

End operations.

(** ** Preservation by every operation *)

Section preservation.
Context `{Oxrdf} `{Blake3}.

Definition preserves {E A} (m : stm Store E A) : Prop :=
  ∀ st st' r, store_wf st → m st = (st', r) → store_wf st'.

Lemma preserves_bind {E A B} (m : stm Store E A) (f : A → stm Store E B) :
  preserves m → (∀ a, preserves (f a)) → preserves (st_bind m f).
Proof.
  intros Hm Hf st st' r Hst. unfold st_bind. destruct (m st) as [s1 [a|e|]] eqn:Em;
    [intros Hr; eapply Hf; [|exact Hr]|intros [= <- <-]|intros [= <- <-]]; by eapply Hm.
Qed.

(** The value a step returns may satisfy a postcondition the rest relies on. *)
Lemma preserves_bind_post {E A B} (P : A → Prop) (m : stm Store E A) (f : A → stm Store E B) :
  preserves m → (∀ st st' a, m st = (st', Ok a) → P a) → (∀ a, P a → preserves (f a)) →
  preserves (st_bind m f).
Proof.
  intros Hm HP Hf st st' r Hst. unfold st_bind. destruct (m st) as [s1 [a|e|]] eqn:Em;
    [intros Hr; eapply Hf; [by eapply HP| |exact Hr]|intros [= <- <-]|intros [= <- <-]]; by eapply Hm.
Qed.

Lemma preserves_ret {E A} (a : A) : preserves (st_ret (E := E) a).
Proof. by intros st st' r Hst [= <- <-]. Qed.
Lemma preserves_err {E A} (e : E) : preserves (st_err (A := A) e).
Proof. by intros st st' r Hst [= <- <-]. Qed.
Lemma preserves_read {E A} (f : Store → outcome E A) : preserves (st_read f).
Proof. by intros st st' r Hst [= <- <-]. Qed.
Lemma preserves_update {E} (f : Store → outcome E Store) :
  (∀ st st', store_wf st → f st = Ok st' → store_wf st') → preserves (st_update f).
Proof.
  intros Hf st st' r Hst. unfold st_update. destruct (f st) eqn:Ef; intros [= <- <-]; [by eapply Hf|done..].
Qed.
Lemma preserves_exec {E A} (f : Store → outcome E (A * Store)) :
  (∀ st st' a, store_wf st → f st = Ok (a, st') → store_wf st') → preserves (st_exec f).
Proof.
  intros Hf st st' r Hst. unfold st_exec.
  destruct (f st) as [[a s]| |] eqn:Ef; intros [= <- <-]; [by eapply Hf|done..].
Qed.

Lemma encode_term_wf st t id st' : store_wf st → encode_term st t = Ok (id, st') → store_wf st'.
Proof.
  intros Hst. unfold encode_term, confirm_stored_term.
  destruct (terms st !! hash_term t); [case_decide; [|done]; by intros [= <- <-]|].
  intros [= <- <-]. by apply apply_tame.
Qed.

Lemma create_graph_wf st graph st' : store_wf st → create_graph st graph = Ok st' → store_wf st'.
Proof.
  intros Hst. unfold create_graph. intros ([g b] & Hb & Hr)%bind_ok.
  pose proof Hb as Hp. apply (plain_encode_term (record_write g)) in Hp; [|apply writes_in_new].
  apply encode_term_batch_ok in Hb as (-> & _ & _ & _ & Ht); [|apply batch_ok_new].
  destruct (read_graph_meta st _); [by simplify_eq|]. injection Hr as <-.
  eapply commit_record; [done|by apply writes_in_stage|].
  rewrite commit_stage. apply terms_grow. by eexists.
Qed.

Lemma preserves_ensure_graph graph : preserves (ensure_graph graph).
Proof.
  apply preserves_bind; [apply preserves_read|]. intros []; [apply preserves_ret|].
  apply preserves_update. intros st st' Hst Hc%map_err_ok. by eapply create_graph_wf.
Qed.

(** The last step of every write: the clock, then the render hints. *)
Definition stage_hints (st : Store) (b : WriteBatch) (g : TermId) (hints : option TaggedRenderHints) :=
  match hints with Some tagged => (stage_graph_context st b g tagged).1 | None => b end.

Lemma commit_clock_hints st b g clock hints :
  store_wf st → writes_in (record_write g) b → is_Some (terms (commit st b) !! g) →
  store_wf (commit st (stage_hints st (set_vector_clock b g clock) g hints)).
Proof.
  intros Hst Hb Hg.
  assert (is_Some (terms (commit st (set_vector_clock b g clock)) !! g)) as Hg'
    by (unfold set_vector_clock; rewrite commit_stage; by apply terms_grow).
  assert (writes_in (record_write g) (set_vector_clock b g clock)) as Hc by by apply writes_in_stage.
  eapply (commit_record _ _ g); [done|..]; destruct hints as [tagged|]; try done;
    unfold stage_hints, stage_graph_context; case_decide; cbn [fst]; try done.
  - by apply writes_in_stage.
  - rewrite commit_stage. by apply terms_grow.
Qed.

Lemma resolve_term_stored st t id st' : resolve_term st t = Ok (id, st') → id = hash_term t ∧ terms st' !! id = Some t.
Proof.
  unfold resolve_term, encode_term, confirm_stored_term. destruct (terms st !! hash_term t) eqn:E.
  - case_decide; [|done]. intros [= <- <-]. by subst.
  - intros [= <- <-]. split; [done|]. destruct st; cbn. apply lookup_insert_eq.
Qed.

Lemma preserves_apply_single b clock hints : preserves (apply_single_batch b clock hints).
Proof.
  unfold apply_single_batch. apply (preserves_bind_post (plain_cx (record_write (gid (batch_graph b))))); [apply preserves_read| |].
  { intros st st' cx (_ & Hcx%map_err_ok)%st_read_ok. refine (plain_seed _ _ _ _ _ _ Hcx). apply writes_in_new. }
  intros cx Hcx st st' r Hst. unfold st_bind at 1, st_exec.
  destruct (map_err MergeStore (resolve_term st _)) as [[g st1]| |] eqn:Hg;
    [|by intros [= <- <-]|by intros [= <- <-]].
  apply map_err_ok in Hg. pose proof (resolve_term_stored _ _ _ _ Hg) as [-> Ht]. fold (gid (batch_graph b)) in *.
  apply encode_term_wf in Hg as Hst1; [|done].
  unfold st_bind, of_store, st_read.
  destruct (map_err MergeStore (try_fold _ cx (batch_ops b))) as [cx'| |] eqn:Hl;
    [|by intros [= <- <-]|by intros [= <- <-]].
  intros [= <- <-]. apply map_err_ok in Hl.
  assert (plain_cx (record_write (gid (batch_graph b))) cx') as Hp.
  { eapply (try_fold_inv (plain_cx _)), Hl; [|done].
    intros c op c' _ Hc Hr. exact (plain_apply_op _ _ _ _ _ _ Hc Hr). }
  apply (commit_clock_hints st1 (cx_batch cx') _ _ hints); [done|done|].
  apply apply_writes_grow. by exists (from_named_node (batch_graph b)).
Qed.

Lemma preserves_apply_plan b hints : preserves (apply_irokle_plan b hints).
Proof.
  apply preserves_bind; [apply preserves_read|]. intros []; [apply preserves_ret|].
  apply preserves_bind; [apply preserves_ensure_graph|]. intros _.
  apply preserves_bind; [apply preserves_read|]. intros clock. destruct (VectorClock.contains _ _).
  - apply preserves_ret.
  - apply preserves_bind; [apply preserves_apply_single|]. intros _. apply preserves_ret.
Qed.

Lemma preserves_merge_batch b : preserves (merge_batch b).
Proof.
  apply preserves_bind; [apply preserves_read|]. intros _.
  apply preserves_bind; [|intros; apply preserves_apply_plan].
  unfold check_causal_base. destruct (_ && _); [apply preserves_err|].
  apply preserves_bind; [apply preserves_read|]. intros clock.
  destruct (missing_dots _ _); [apply preserves_ret|apply preserves_err].
Qed.

Lemma join_snapshot_preserves snap : preserves (join_snapshot snap).
Proof.
  unfold join_snapshot. apply preserves_bind; [apply preserves_read|]. intros cs.
  apply preserves_bind; [apply preserves_read|]. intros local.
  apply (preserves_bind_post (plain_cx (record_write (gid (snap_graph cs))))); [apply preserves_read| |].
  { intros st st' cx (_ & Hcx%map_err_ok)%st_read_ok. refine (plain_seed _ _ _ _ _ _ Hcx). apply writes_in_new. }
  intros cx Hcx st st' r Hst. unfold st_bind at 1, st_exec.
  destruct (map_err MergeStore (resolve_term st _)) as [[g' st1]| |] eqn:Hg;
    [|by intros [= <- <-]|by intros [= <- <-]].
  apply map_err_ok in Hg. pose proof (resolve_term_stored _ _ _ _ Hg) as [-> Ht].
  apply encode_term_wf in Hg as Hst1; [|done]. fold (gid (snap_graph cs)) in *.
  unfold st_bind at 1, of_store, st_read.
  destruct (map_err MergeStore (try_fold _ _ _)) as [[cx' changed]| |] eqn:Hl;
    [|by intros [= <- <-]|by intros [= <- <-]].
  apply map_err_ok in Hl.
  assert (plain_cx (record_write (gid (snap_graph cs))) cx') as Hp.
  { eapply (try_fold_inv (λ acc, plain_cx (record_write (gid (snap_graph cs))) acc.1)) in Hl; [exact Hl| |done].
    intros acc row acc' _ Hacc Hr. exact (plain_join_row _ _ _ _ _ _ _ _ Hacc Hr). }
  destruct changed; [|by intros [= <- <-]]. unfold st_bind, st_update, st_ret. intros [= <- <-].
  apply (commit_clock_hints st1 (cx_batch cx') _ _ None); [done|done|].
  apply apply_writes_grow. by exists (from_named_node (snap_graph cs)).
Qed.

Lemma preserves_install snap : preserves (install_snapshot snap).
Proof.
  apply preserves_bind; [apply preserves_read|]. intros _.
  apply preserves_bind; [apply preserves_read|]. intros []; [apply preserves_ret|].
  apply preserves_bind; [apply preserves_ensure_graph|]. intros _. apply join_snapshot_preserves.
Qed.

Lemma stage_graph_writes st b graph g b' :
  writes_in (record_write (gid graph)) b → stage_graph st b graph = Ok (g, b') →
  g = gid graph ∧ writes_in (record_write (gid graph)) b'.
Proof.
  intros Hb. unfold stage_graph. intros ([id b1] & He & Hr)%bind_ok.
  pose proof He as [-> _]%inner_encode_term.
  apply (plain_encode_term (record_write (gid graph))) in He; [|done].
  destruct (read_graph_meta st _); injection Hr as <- <-; [done|].
  split; [done|]. by apply writes_in_stage.
Qed.

Lemma stage_graph_stored st graph g b' :
  stage_graph st new_batch graph = Ok (g, b') → is_Some (terms (commit st b') !! g).
Proof.
  unfold stage_graph. intros ([id b1] & He & Hr)%bind_ok.
  apply encode_term_batch_ok in He as (-> & _ & _ & _ & Ht); [|apply batch_ok_new].
  destruct (read_graph_meta st _); injection Hr as <- <-; [by eexists|].
  rewrite commit_stage. apply terms_grow. by eexists.
Qed.

(** Staged writes only accumulate. *)
Definition batch_grows (b b' : WriteBatch) : Prop := ∃ l, inner b' = inner b ++ l.

#[export] Instance batch_grows_preorder : PreOrder batch_grows.
Proof.
  split; [intros b; exists []; by rewrite app_nil_r|].
  intros a b c [l Hl] [k Hk]. exists (l ++ k). by rewrite Hk, Hl, app_assoc.
Qed.

Lemma grows_stored st b b' i :
  batch_grows b b' → is_Some (terms (commit st b) !! i) → is_Some (terms (commit st b') !! i).
Proof. intros [l Hl] Hi. unfold commit. rewrite Hl, foldl_app. by apply apply_writes_grow. Qed.

Lemma grows_write_quad st b q dots : batch_grows b (write_quad_state st b q dots).1.
Proof. unfold write_quad_state. repeat case_match; simplify_eq/=; by eexists. Qed.
Lemma grows_insert st b q d : batch_grows b (insert_quad st b q d).1.
Proof. unfold insert_quad. case_decide; [done|]. apply grows_write_quad. Qed.
Lemma grows_remove st b q w : batch_grows b (remove_quad st b q w).1.
Proof. unfold remove_quad. case_decide; [done|]. apply grows_write_quad. Qed.

Lemma grows_resolve_cached st cx t id cx' :
  resolve_term_cached st cx t = Ok (id, cx') → batch_grows (cx_batch cx) (cx_batch cx').
Proof.
  unfold resolve_term_cached. destruct (cx_cache cx !! t); [by intros [= _ <-]|].
  intros ([id' b] & [_ [Hb|Hb]]%inner_encode_term & [= _ <-])%bind_ok; cbn;
    [exists []; by rewrite app_nil_r|by eexists].
Qed.

Lemma grows_resolve_quad st cx g s p o q cx' :
  resolve_quad st cx g s p o = Ok (q, cx') → batch_grows (cx_batch cx) (cx_batch cx').
Proof.
  assert (∀ cx t id cx', resolve_canonical st cx t = Ok (id, cx') →
    batch_grows (cx_batch cx) (cx_batch cx')) as Hc.
  { intros c t id c'. unfold resolve_canonical. intros ([] & _ & Hr)%bind_ok; by eapply grows_resolve_cached. }
  unfold resolve_quad. intros ([? c1] & H1%Hc & Hr)%bind_ok.
  apply bind_ok in Hr as ([? c2] & H2%Hc & Hr). apply bind_ok in Hr as ([? c3] & H3%Hc & [= _ <-]).
  by do 2 (etrans; [eassumption|]).
Qed.

Lemma local_batch_wf actor st graph changes hints now b st' :
  store_wf st → local_batch actor st graph changes hints now = Ok (b, st') → store_wf st'.
Proof.
  intros Hst. unfold local_batch. intros (base & _ & Hr)%bind_ok.
  apply bind_ok in Hr as ([g b0] & Hg & Hr).
  pose proof (stage_graph_stored _ _ _ _ Hg) as Hs.
  apply stage_graph_writes in Hg as [-> Hw]; [|apply writes_in_new].
  destruct (next_counter st b0 (gid graph) actor) as [counter b1] eqn:Hnc.
  assert (b1 = stage b0 (PutHead (gid graph) actor counter)) as Hb1
    by (unfold next_counter in Hnc; by simplify_eq).
  assert (writes_in (record_write (gid graph)) b1 ∧ batch_grows b0 b1) as [Hw1 Hg1].
  { subst b1. split; [by apply writes_in_stage|]. by eexists. }
  clear Hb1 Hnc. apply bind_ok in Hr as (cx & Hcx & Hr).
  apply bind_ok in Hr as ([cx' ops] & Hl & [= _ <-]).
  assert (plain_cx (record_write (gid graph)) cx ∧ batch_grows b1 (cx_batch cx)) as [Hp Hg2].
  { split; [by refine (plain_seed _ _ _ _ _ _ Hcx)|].
    unfold seed_term_cache in Hcx. eapply (try_fold_inv (λ c, batch_grows b1 (cx_batch c))), Hcx; [|done].
    intros c x c' _ Hc ([id c1] & Hr & [= <-])%bind_ok. etrans; [exact Hc|]. by eapply grows_resolve_cached. }
  assert (plain_cx (record_write (gid graph)) cx' ∧ batch_grows b1 (cx_batch cx')) as [Hp' Hg3].
  { eapply (try_fold_inv (λ acc : BatchTermCtx * list QuadOp, plain_cx (record_write (gid graph)) acc.1 ∧ batch_grows b1 (cx_batch acc.1))) in Hl;
      [exact Hl| |done].
    intros acc ch acc' _ [Ha Hga] Hc. split; [exact (plain_local_change _ _ _ _ _ _ _ _ Ha Hc)|].
    etrans; [exact Hga|]. destruct acc as [c o], ch; cbn in Hc;
      apply bind_ok in Hc as ([q c1] & Hq%grows_resolve_quad & [= <-]); cbn;
      (etrans; [exact Hq|]); [apply grows_insert|apply grows_remove]. }
  apply commit_clock_hints; [done|done|]. eapply grows_stored; [|exact Hs]. by etrans.
Qed.

Lemma preserves_commit_local actor graph changes hints now :
  preserves (commit_local actor graph changes hints now).
Proof.
  unfold commit_local. apply preserves_bind; [apply preserves_read|].
  intros [t|]; [apply preserves_err|].
  destruct changes, hints; try apply preserves_read;
    (apply preserves_exec; intros st st' b Hst Hb%map_err_ok; by eapply local_batch_wf).
Qed.

Lemma delete_graph_wf st tomb st' : store_wf st → delete_graph st tomb = Ok st' → store_wf st'.
Proof.
  intros Hst. unfold delete_graph. intros (id & Hid & Hr)%bind_ok.
  apply bind_ok in Hr as ([g b] & Hb & [= <-]).
  set (P := record_write (gid (tomb_graph tomb))). assert (Covers P) as HP by apply covers_record.
  assert (g = gid (tomb_graph tomb) ∧ writes_in P b ∧ is_Some (terms (commit st b) !! g)) as (-> & Hw & Hs).
  { apply graph_id_for_ok in Hid as [[-> Ht]|[-> _]].
    - injection Hb as <- <-. split_and!; [done|apply writes_in_new|by eexists].
    - pose proof Hb as Hb'. apply (plain_encode_term P) in Hb'; [|apply writes_in_new].
      apply encode_term_batch_ok in Hb as (-> & _ & _ & _ & Ht); [|apply batch_ok_new].
      split_and!; [done|done|by eexists]. }
  assert (∀ rows b, writes_in P b →
    writes_in P (foldl (λ b row, (write_quad_state st b row.1 []).1) b (rows : list (EncodedQuad * list Dot))) ∧
    batch_grows b (foldl (λ b row, (write_quad_state st b row.1 []).1) b rows)) as Hrows.
  { induction rows as [|r rows IH]; intros b' Hb'; cbn; [done|].
    destruct (IH (write_quad_state st b' r.1 []).1) as [? ?]; [by apply plain_write_quad|].
    split; [done|]. etrans; [apply grows_write_quad|done]. }
  set (b1 := stage (stage b _) _).
  assert (writes_in P b1 ∧ batch_grows b b1) as [Hw1 Hg1].
  { split; [by apply writes_in_stage; [apply writes_in_stage|]|]. eexists. exact (eq_sym (app_assoc _ [_] [_])). }
  set (b2 := foldl _ b1 _).
  assert (writes_in P b2 ∧ batch_grows b1 b2) as [Hw2 Hg2].
  { by apply Hrows. }
  set (b3 := stage (stage b2 _) _).
  assert (writes_in P b3 ∧ batch_grows b2 b3) as [Hw3 Hg3].
  { split; [by apply writes_in_stage; [apply writes_in_stage|]|]. eexists. exact (eq_sym (app_assoc _ [_] [_])). }
  generalize (filter (λ ga : N * N, ga.1 = gid (tomb_graph tomb)) (btree_keys (log_heads st))) as heads.
  intros heads.
  assert (∀ b, writes_in P b → writes_in P (foldl (λ b (ga : N * N), stage b (DelHead ga.1 ga.2)) b heads) ∧
    batch_grows b (foldl (λ b (ga : N * N), stage b (DelHead ga.1 ga.2)) b heads)) as Hheads.
  { induction heads as [|h heads IH]; intros b' Hb'; cbn; [done|].
    destruct (IH (stage b' (DelHead h.1 h.2))) as [? ?]; [by apply writes_in_stage|].
    split; [done|]. etrans; [|done]. by eexists. }
  destruct (Hheads b3 Hw3) as [Hw4 Hg4].
  eapply commit_record; [done|exact Hw4|]. eapply grows_stored; [|exact Hs].
  by repeat (etrans; [eassumption|]).
Qed.

Lemma set_tagged_policy_wf st graph tagged st' :
  store_wf st → set_tagged_policy st graph tagged = Ok st' → store_wf st'.
Proof.
  intros Hst. unfold set_tagged_policy. intros ([g b] & Hb & [= <-])%bind_ok.
  pose proof Hb as Hp. apply (plain_encode_term (record_write (gid graph))) in Hp; [|apply writes_in_new].
  apply encode_term_batch_ok in Hb as (-> & _ & _ & _ & Ht); [|apply batch_ok_new].
  eapply commit_record; [done|by apply writes_in_stage|].
  rewrite commit_stage. apply terms_grow. by eexists.
Qed.

(** ** Reachable stores *)

(** One operation on the store: a merge from a peer, a record of the
    synchronisation service, a local write, a snapshot install, a deletion or
    a policy write, with whatever result. *)
Inductive step : Store → Store → Prop :=
  | step_merge b st st' r : merge_batch b st = (st', r) → step st st'
  | step_record b hints st st' r : apply_irokle_plan b hints st = (st', r) → step st st'
  | step_local actor graph changes hints now st st' r :
      commit_local actor graph changes hints now st = (st', r) → step st st'
  | step_install snap st st' r : install_snapshot snap st = (st', r) → step st st'
  | step_delete tomb st st' : delete_graph st tomb = Ok st' → step st st'
  | step_policy graph tagged st st' : set_tagged_policy st graph tagged = Ok st' → step st st'.

(** C26: Every store a replica can reach from the empty one is well formed: each
    stored dot set is non-empty and strictly sorted, and every graph record
    belongs to an interned graph. *)
Theorem reachable_wf st : rtc step empty_store st → store_wf st.
Proof.
  intros Hr. assert (store_wf empty_store) as He by apply store_wf_empty.
  induction Hr as [st|s1 s2 s3 Hs _ IH]; [done|]. apply IH. destruct Hs as
    [b s s' r Hs|b h s s' r Hs|a g c h n s s' r Hs|sn s s' r Hs|t s s' Hs|g t s s' Hs].
  - by eapply preserves_merge_batch.
  - by eapply preserves_apply_plan.
  - by eapply preserves_commit_local.
  - by eapply preserves_install.
  - by eapply delete_graph_wf.
  - by eapply set_tagged_policy_wf.
Qed.
End preservation.
