(* ===== verification/Scenarios.v ===== *)
(** * Replication scenarios

    Concrete runs of the replication layer on the demonstration [oxrdf] and
    digest: the inputs at which the general theorems are applied, and the
    behaviour of a local removal. *)

From S2P Require Import Prelude Clock Terms Store Replication Convergence Invariants.
Import DemoOxrdf DemoBlake3.
#[local] Open Scope craqle_scope.
#[local] Open Scope string_scope.
#[local] Open Scope N_scope.

Definition demo_graph : GraphId := "g".
Definition demo_dot (a c : N) : Dot := {| dot_actor := a; dot_counter := c |}.
Definition demo_batch (a c : N) (base : VectorClock.t) (ops : list QuadOp) : Batch :=
  {| batch_graph := demo_graph; batch_actor := a; batch_counter := c; base_clock := base;
     batch_ops := ops; batch_timestamp := 0%Z |}.

(** Two actors add one quad concurrently; the first then removes what it saw. *)
Definition demo_add1 := demo_batch 1 1 ∅ [Add "<s>" "<p>" "<o>" (demo_dot 1 1)].
Definition demo_add2 := demo_batch 2 1 ∅ [Add "<s>" "<p>" "<o>" (demo_dot 2 1)].
Definition demo_remove := demo_batch 1 2 {[1 := 1]} [Remove "<s>" "<p>" "<o>" {[1 := 1]}].

Definition run (h : list Batch) : Store := default empty_store (merged empty_store h).
Definition runs (h : list Batch) : bool := bool_decide (is_Some (merged empty_store h)).

Lemma runs_merged h : runs h = true → merged empty_store h = Some (run h).
Proof. intros [st Hst]%bool_decide_eq_true. unfold run. by rewrite Hst. Qed.

Example merges_converge_witness :
  run [demo_add1; demo_add2; demo_remove] = run [demo_add2; demo_add1; demo_remove].
Proof.
  apply (merges_converge empty_store [demo_add1; demo_add2; demo_remove] [demo_add2; demo_add1; demo_remove]).
  - apply store_wf_empty.
  - apply perm_swap.
  - apply runs_merged. vm_compute. reflexivity.
  - apply runs_merged. vm_compute. reflexivity.
Defined.

(** The concurrent add survives the removal that did not witness it. *)
Example merged_dots_witness :
  demo_dot 2 1 ∈ read_quad_dots (run [demo_add1; demo_add2; demo_remove])
    (op_key (gid demo_graph) (Add "<s>" "<p>" "<o>" (demo_dot 2 1))).
Proof.
  assert (merged empty_store [demo_add1; demo_add2; demo_remove]
    = Some (run [demo_add1; demo_add2; demo_remove])) as Hr
    by (apply runs_merged; vm_compute; reflexivity).
  apply (merged_dots [demo_add1; demo_add2; demo_remove] _ Hr). split.
  - exists demo_add2. split; [rewrite !elem_of_cons; right; left; reflexivity|]. split; [reflexivity|].
    change (batch_graph demo_add2) with demo_graph.
    exists "<s>", "<p>", "<o>", (demo_dot 2 1). split; [|reflexivity].
    unfold demo_add2, demo_batch; cbn [batch_ops]. rewrite list_elem_of_singleton. reflexivity.
  - intros (b & Hb & (s & p & o & w & Hin & _ & Hw)).
    rewrite !elem_of_cons, elem_of_nil in Hb.
    destruct Hb as [->|[->|[->|[]]]]; unfold demo_add1, demo_add2, demo_remove, demo_batch in Hin;
      cbn [batch_ops] in Hin; rewrite list_elem_of_singleton in Hin; [discriminate Hin|discriminate Hin|].
    injection Hin as -> -> -> ->. vm_compute in Hw. discriminate Hw.
Defined.

Definition applied {A} (r : Store * outcome A bool) : bool :=
  match r.2 with Ok b => b | _ => false end.

Lemma applied_merge b st : applied (merge_batch b st) = true → merge_batch b st = ((merge_batch b st).1, Ok true).
Proof. unfold applied. by destruct (merge_batch b st) as [st' [[]| |]]. Qed.

Example merge_batch_idempotent_witness :
  let st' := (merge_batch demo_add1 empty_store).1 in merge_batch demo_add1 st' = (st', Ok false).
Proof.
  apply (merge_batch_idempotent demo_add1 empty_store); [apply store_wf_empty|].
  apply applied_merge. vm_compute. reflexivity.
Defined.

Example reachable_wf_witness : store_wf (merge_batch demo_remove (merge_batch demo_add1 empty_store).1).1.
Proof.
  apply reachable_wf.
  apply (rtc_l _ _ (merge_batch demo_add1 empty_store).1); [|apply rtc_once];
    eapply step_merge, surjective_pairing.
Defined.
