(* ===== verification/LocalWrites.v ===== *)
(** * Local writes

    The batch a local write returns and what it does to the store: operations
    apply in order, a removal witnessing the clock that already holds the new
    event, so the last change of a quad decides whether it is live.  The same
    witness makes the returned batch inadmissible to [merge_batch] as soon as it
    holds a removal. *)

From S2P Require Import Prelude Clock Terms Store Replication Convergence Invariants.
#[local] Open Scope craqle_scope.

Section local.
Context `{Oxrdf} `{Blake3}.

(** The loop of the local path is the loop of [apply_single_batch] over the
    operations it emits. *)
Lemma local_change_loop st g dot clock changes cx ops0 cx' ops :
  try_fold (local_change st g dot clock) (cx, ops0) changes = Ok (cx', ops) →
  ops = ops0 ++ (change_op dot clock <$> changes) ∧
  try_fold (apply_op st g) cx (change_op dot clock <$> changes) = Ok cx'.
Proof.
  revert cx ops0; induction changes as [|c l IH]; intros cx ops0; cbn [try_fold fmap list_fmap].
  { intros [= -> ->]. by rewrite app_nil_r. }
  intros ([cx1 ops1] & Hc & Hl)%bind_ok. apply IH in Hl as [-> Hl].
  destruct c as [g' s p o|g' s p o]; cbn [local_change change_op apply_op] in *;
    apply bind_ok in Hc as ([q cx2] & Hq & [= <- <-]); rewrite Hq; cbn [mbind outcome_bind];
    (split; [by rewrite <- app_assoc|done]).
Qed.

(** The dots after a sequence of operations, in order. *)
Definition ops_result (g : TermId) (ops : list QuadOp) (before : EncodedQuad → Dot → Prop)
    : EncodedQuad → Dot → Prop :=
  foldl (λ S op, op_result g op S) before ops.

Lemma op_result_ext g op S S' :
  (∀ k e, S k e ↔ S' k e) → ∀ k e, op_result g op S k e ↔ op_result g op S' k e.
Proof. intros HS k e. destruct op; cbn; by rewrite HS. Qed.

Lemma ops_result_ext g ops S S' :
  (∀ k e, S k e ↔ S' k e) → ∀ k e, ops_result g ops S k e ↔ ops_result g ops S' k e.
Proof.
  unfold ops_result. revert S S'; induction ops as [|op ops IH]; intros S S' HS; cbn; [done|].
  apply IH. by apply op_result_ext.
Qed.

Lemma apply_ops_in_order st g ops cx cx' :
  cx_ok st cx → try_fold (apply_op st g) cx ops = Ok cx' →
  cx_ok st cx' ∧ step_ok (ops ≫= λ op, canon <$> op_terms op) (cx_store st cx) (cx_store st cx') ∧
  ∀ k e, dots_at (cx_store st cx') k e ↔ ops_result g ops (dots_at (cx_store st cx)) k e.
Proof.
  revert cx; induction ops as [|op ops IH]; intros cx Hcx; cbn [try_fold].
  { intros [= <-]. split_and!; [done|apply step_ok_refl|done]. }
  intros (cx1 & Ha & Hl)%bind_ok. apply apply_op_ok in Ha as (Hcx1 & S1 & D1); [|done].
  apply IH in Hl as (Hcx' & S2 & D2); [|done]. split; [done|]. split; [exact (step_ok_trans _ _ _ _ _ S1 S2)|].
  intros k e. rewrite D2.
  exact (ops_result_ext g ops _ (op_result g op (dots_at (cx_store st cx))) D1 k e).
Qed.

Lemma stage_graph_ok st graph g b :
  stage_graph st new_batch graph = Ok (g, b) →
  g = gid graph ∧ batch_ok st b ∧ quads (commit st b) = quads st ∧
  graph_clocks (commit st b) = graph_clocks st ∧
  ∀ i u, terms (commit st b) !! i = Some u ↔ terms st !! i = Some u ∨ (i = hash_term u ∧ u = from_named_node graph).
Proof.
  unfold stage_graph. intros ([id b1] & He & Hr)%bind_ok.
  apply encode_term_batch_ok in He as (-> & Hb & Hs & Hq & _); [|apply batch_ok_new].
  rewrite commit_new in *. pose proof (so_terms _ _ _ Hs) as Ht. setoid_rewrite list_elem_of_singleton in Ht.
  assert (graph_clocks (commit st b1) = graph_clocks st) as Hc by (destruct Hs as [(_ & ? & _) _ _ _]; done).
  destruct (read_graph_meta st _); injection Hr as <- <-; [done|]. split; [done|]. split.
  - apply batch_ok_stage; [|done]. by intros [].
  - rewrite commit_stage. by destruct (commit st b1).
Qed.

(** What a local write returns and does. *)
Record local_effect (actor : ActorId) (graph : GraphId) (changes : list MaterializedQuadChange)
    (st : Store) (b : Batch) (st' : Store) : Prop := {
  le_graph : batch_graph b = graph;
  le_actor : batch_actor b = actor;
  le_base : get_vector_clock st graph = Ok (base_clock b);
  le_counter : batch_counter b = (next_counter st new_batch (gid graph) actor).1;
  le_ops : batch_ops b = change_op (batch_identity b)
    (VectorClock.advance actor (batch_counter b) (base_clock b)) <$> changes;
  le_clock : vector_clock_id st' (gid graph) =
    VectorClock.advance actor (batch_counter b) (base_clock b);
  le_dots k e : dots_at st' k e ↔ ops_result (gid graph) (batch_ops b) (dots_at st) k e;
  le_terms i u : terms st' !! i = Some u ↔ terms st !! i = Some u ∨
    (i = hash_term u ∧ (u = from_named_node graph ∨ u ∈ changes ≫= change_terms ∨ u ∈ canon <$> (changes ≫= change_terms)));
}.

(** The operations of a change set name its terms. *)
Lemma ops_canon dot clock changes :
  ((change_op dot clock <$> changes) ≫= λ op, canon <$> op_terms op) = canon <$> (changes ≫= change_terms).
Proof.
  induction changes as [|c l IH]; [done|]. cbn [fmap list_fmap mbind list_bind]. rewrite fmap_app, <- IH. f_equal. by destruct c.
Qed.

Lemma local_batch_effect actor st graph changes hints now b st' :
  local_batch actor st graph changes hints now = Ok (b, st') →
  local_effect actor graph changes st b st'.
Proof.
  unfold local_batch. intros (base & Hbase & Hr)%bind_ok.
  apply bind_ok in Hr as ([g b0] & Hg & Hr). apply stage_graph_ok in Hg as (-> & Hb0 & Hq0 & Hc0 & Ht0).
  destruct (next_counter st b0 (gid graph) actor) as [counter b1] eqn:Hnc.
  assert (b1 = stage b0 (PutHead (gid graph) actor counter)) as ->
    by (unfold next_counter in Hnc; by simplify_eq).
  set (b1 := stage b0 _) in Hr.
  assert (batch_ok st b1) as Hb1 by (apply batch_ok_stage; [by intros []|done]).
  assert (quads (commit st b1) = quads st) as Hq1
    by (unfold b1; rewrite commit_stage; by destruct (commit st b0)).
  assert (terms (commit st b1) = terms (commit st b0)) as Ht1
    by (unfold b1; rewrite commit_stage; by destruct (commit st b0)).
  apply bind_ok in Hr as (cx & Hcx & Hr).
  apply bind_ok in Hr as ([cx' ops] & Hl & [= <- <-]).
  assert (cx_ok st {| cx_batch := b1; cx_cache := ∅ |}) as Hcx0
    by (split; [done|]; intros t id; cbn; by rewrite lookup_empty).
  apply seed_term_cache_ok in Hcx as (Hcx & S1 & Hqs); [|done].
  apply local_change_loop in Hl as [-> Hl].
  apply apply_ops_in_order in Hl as (_ & S2 & D); [|done].
  set (clock := VectorClock.advance actor counter base) in *.
  set (bf := match hints with Some _ => _ | None => _ end).
  assert (quads (commit st bf) = quads (cx_store st cx') ∧
    graph_clocks (commit st bf) !! gid graph = Some clock ∧ terms (commit st bf) = terms (cx_store st cx')) as (Hqf & Hcf & Htf).
  { assert (quads (commit st (set_vector_clock (cx_batch cx') (gid graph) clock)) = quads (cx_store st cx') ∧
      graph_clocks (commit st (set_vector_clock (cx_batch cx') (gid graph) clock)) !! gid graph = Some clock ∧
      terms (commit st (set_vector_clock (cx_batch cx') (gid graph) clock)) = terms (cx_store st cx'))
      as (Hq & Hc & Ht).
    { unfold set_vector_clock, cx_store. rewrite !commit_stage. destruct (commit st (cx_batch cx')); cbn.
      split_and!; [done| |done]. apply lookup_insert_eq. }
    unfold bf. destruct hints as [tagged|]; [|done]. unfold stage_graph_context.
    case_decide; cbn [fst]; [done|]. rewrite commit_stage.
    by destruct (commit st (set_vector_clock _ _ _)). }
  split; cbn; try done.
  - unfold next_counter in Hnc |- *. by simplify_eq.
  - unfold vector_clock_id. by rewrite Hcf.
  - intros k e. unfold dots_at at 1, read_quad_dots. rewrite Hqf.
    etrans; [apply D|]. apply ops_result_ext. intros k' e'. unfold dots_at, read_quad_dots, cx_store.
    unfold cx_store in Hqs; cbn [cx_batch] in Hqs. by rewrite Hqs, Hq1.
  - intros i u. rewrite Htf, (so_terms _ _ _ (step_ok_trans _ _ _ _ _ S1 S2)). unfold cx_store. cbn [cx_batch].
    rewrite Ht1, Ht0, elem_of_app, ops_canon. tauto.
Qed.

(** Every live dot of the graph is covered by the graph's clock. *)
Definition covered (st : Store) (graph : GraphId) : Prop :=
  ∀ clock, get_vector_clock st graph = Ok clock →
  ∀ k e, quad_graph k = gid graph → dots_at st k e → VectorClock.contains clock e = true.

Definition change_key (g : TermId) (c : MaterializedQuadChange) : EncodedQuad :=
  match c with Insert _ s p o | Delete _ s p o => quad_key_of g s p o end.

(** The last change of a quad in a change set, as [Some live], or [None]. *)
Definition last_change (g : TermId) (changes : list MaterializedQuadChange) (k : EncodedQuad) : option bool :=
  foldl (λ acc c, if decide (change_key g c = k)
                  then Some (match c with Insert _ _ _ _ => true | Delete _ _ _ _ => false end)
                  else acc) None changes.

Lemma last_change_snoc g l c k :
  last_change g (l ++ [c]) k = if decide (change_key g c = k)
    then Some (match c with Insert _ _ _ _ => true | Delete _ _ _ _ => false end) else last_change g l k.
Proof. unfold last_change. by rewrite foldl_app. Qed.

(** The dots a local change set leaves: those of the last change of a quad. *)
Lemma local_ops_result g id clock changes S :
  VectorClock.contains clock id = true →
  (∀ k e, quad_graph k = g → S k e → VectorClock.contains clock e = true) →
  ∀ k, quad_graph k = g →
  match last_change g changes k with
  | None => ∀ e, ops_result g (change_op id clock <$> changes) S k e ↔ S k e
  | Some true => ops_result g (change_op id clock <$> changes) S k id ∧
      ∀ e, ops_result g (change_op id clock <$> changes) S k e → VectorClock.contains clock e = true
  | Some false => ∀ e, ¬ ops_result g (change_op id clock <$> changes) S k e
  end.
Proof.
  intros Hid HS k Hk. set (R l := ops_result g (change_op id clock <$> l) S).
  change (ops_result g (change_op id clock <$> changes) S) with (R changes).
  assert (∀ l c, R (l ++ [c]) = op_result g (change_op id clock c) (R l)) as Hsnoc
    by (intros l c; unfold R, ops_result; by rewrite fmap_app, foldl_app).
  induction changes as [|c l IH] using rev_ind; [done|].
  rewrite last_change_snoc, Hsnoc.
  assert (∀ e, R l k e → VectorClock.contains clock e = true) as Hall.
  { intros e. destruct (last_change g l k) as [[]|]; [apply IH|by intros ?%IH|]. intros He%IH. by eapply HS. }
  case_decide as Hc.
  - subst k. destruct c as [g' s p o|g' s p o]; cbn [change_op op_result change_key] in *.
    + split; [by right|]. intros e [He|[_ ->]]; auto.
    + intros e [He Hn]. apply Hn. split; [done|]. auto.
  - assert (∀ e, op_result g (change_op id clock c) (R l) k e ↔ R l k e) as Heq.
    { intros e. destruct c; cbn [change_op op_result] in *; cbn [change_key op_key] in *; naive_solver. }
    destruct (last_change g l k) as [[]|]; setoid_rewrite Heq; done.
Qed.

(** The dots of a quad after a local write. *)
Lemma local_dots actor graph changes st b st' k :
  local_effect actor graph changes st b st' → covered st graph → quad_graph k = gid graph →
  match last_change (gid graph) changes k with
  | Some true => dots_at st' k (batch_identity b)
  | Some false => ∀ e, ¬ dots_at st' k e
  | None => ∀ e, dots_at st' k e ↔ dots_at st k e
  end.
Proof.
  intros [Hg Ha Hbase _ Hops Hclk Hd] Hcov Hk.
  set (clock := VectorClock.advance actor (batch_counter b) (base_clock b)) in *.
  pose proof (local_ops_result (gid graph) (batch_identity b) clock changes (dots_at st)) as Hr.
  rewrite <- Hops in Hr. specialize (Hr ltac:(apply contains_advance; right; by rewrite <- Ha)).
  specialize (Hr ltac:(intros k' e Hk' He; apply contains_advance; left; by eapply Hcov) k Hk).
  destruct (last_change (gid graph) changes k) as [[]|].
  - apply Hd, Hr.
  - intros e. rewrite Hd. apply Hr.
  - intros e. rewrite Hd. apply Hr.
Qed.

(** A local write keeps the dots of its graph under the graph's clock. *)
Lemma local_covered actor graph changes st b st' :
  local_effect actor graph changes st b st' → covered st graph → covered st' graph.
Proof.
  intros [Hg Ha Hbase _ Hops Hclk Hd Ht] Hcov clock Hclock k e Hk He%Hd.
  assert (clock = VectorClock.advance actor (batch_counter b) (base_clock b)) as ->.
  { assert (terms st' !! gid graph = Some (from_named_node graph)) as Hroot by (apply Ht; right; split; [done|by left]).
    unfold get_vector_clock, graph_id_for, lookup_term in Hclock. change (hash_term (from_named_node graph)) with (gid graph) in Hclock.
    rewrite Hroot, decide_True in Hclock by done. cbn in Hclock. by injection Hclock as <-. }
  set (clock := VectorClock.advance actor (batch_counter b) (base_clock b)) in *.
  rewrite Hops in He. apply contains_advance.
  assert (∀ l, ops_result (gid graph) (change_op (batch_identity b) clock <$> l) (dots_at st) k e →
    dots_at st k e ∨ e = batch_identity b) as Hfrom.
  { intros l. induction l as [|c l IH] using rev_ind; [by left|]. unfold ops_result. rewrite fmap_app, foldl_app.
    destruct c; cbn; [intros [?|[_ ->]]|intros [? _]]; auto. }
  apply Hfrom in He as [He| ->]; [left; by eapply Hcov|right]. by cbn.
Qed.

Lemma no_dots_at st k : (∀ e, ¬ dots_at st k e) ↔ read_quad_dots st k = [].
Proof.
  unfold dots_at. split; [|intros -> e; apply not_elem_of_nil].
  destruct (read_quad_dots st k) as [|e l]; [done|]. intros He. destruct (He e). by left.
Qed.

(** C27: A local write makes the last change of each quad of its graph win: a quad
    last inserted is live, one last deleted is dead, and a quad no change
    names keeps its dots. *)
Theorem local_last_change_wins actor st graph changes hints now b st' :
  local_batch actor st graph changes hints now = Ok (b, st') → covered st graph →
  ∀ k, quad_graph k = gid graph →
  match last_change (gid graph) changes k with
  | Some true => batch_identity b ∈ read_quad_dots st' k
  | Some false => read_quad_dots st' k = []
  | None => ∀ e, e ∈ read_quad_dots st' k ↔ e ∈ read_quad_dots st k
  end.
Proof.
  intros Hb%local_batch_effect Hcov k Hk. pose proof (local_dots _ _ _ _ _ _ k Hb Hcov Hk) as Hd.
  destruct (last_change (gid graph) changes k) as [[]|]; [done| |done]. by apply no_dots_at.
Qed.

Definition removes_any (changes : list MaterializedQuadChange) : Prop :=
  ∃ g s p o, Delete g s p o ∈ changes.

(** The store's clock for the graph covers no event of the actor but those the
    actor logged in this store itself, and the log can still count. *)
Definition own_events_logged (actor : ActorId) (st : Store) (graph : GraphId) : Prop :=
  ∀ seen, vector_clock_id st (gid graph) !! actor = Some seen →
    ∃ head, log_heads st !! (gid graph, actor) = Some head ∧ (seen ≤ head < u64_max)%N.

(** C28: A local batch that removes anything and is let through by the check
    [merge_batch] begins with has a base clock that already covers the batch's
    own event: its removals witness that event.  So every such batch of a
    replica that has merged no event of its own actor beyond the actor's log
    ([own_events_logged]) is refused by every peer. *)
Theorem local_removal_rejected actor st graph changes hints now b st' :
  local_batch actor st graph changes hints now = Ok (b, st') →
  removes_any changes →
  (∀ u, check_batch b = Ok u → VectorClock.contains (base_clock b) (batch_identity b) = true) ∧
  (own_events_logged actor st graph → ∀ u, check_batch b ≠ Ok u).
Proof.
  intros Hb (g & s & p & o & Hin). apply local_batch_effect in Hb as [Hg Ha Hbase Hcnt Hops Hclk Hd _].
  assert (∀ u, check_batch b = Ok u → VectorClock.contains (base_clock b) (batch_identity b) = true) as Hown.
  { intros u Hc%check_batch_ok. rewrite Hops, Forall_forall in Hc.
    apply (list_elem_of_fmap_2 (change_op (batch_identity b)
      (VectorClock.advance actor (batch_counter b) (base_clock b)))) in Hin.
    specialize (Hc _ Hin). cbn in Hc. apply Hc, contains_advance. right. by rewrite <- Ha. }
  split; [exact Hown|]. intros Hlog u Hc%Hown%(get_vector_clock_le _ _ _ Hbase).
  unfold VectorClock.contains, batch_identity in Hc. cbn in Hc. rewrite Ha in Hc.
  destruct (vector_clock_id st (gid graph) !! actor) as [seen|] eqn:Hseen; [|done].
  destruct (Hlog seen Hseen) as (head & Hhead & Hle & Hmax). apply bool_decide_eq_true in Hc.
  rewrite Hcnt in Hc. unfold next_counter in Hc. rewrite Hhead in Hc. cbn [fst] in Hc.
  unfold wrap_add, max_of in *. rewrite N.mod_small in Hc; lia.
Qed.
End local.

(** ** Concrete inputs *)

Section demo.
Import DemoOxrdf DemoBlake3.
#[local] Open Scope string_scope.
#[local] Open Scope N_scope.

Definition demo_changes : list MaterializedQuadChange :=
  [Insert "g" "<s>" "<p>" "<o>"; Delete "g" "<s>" "<p>" "<q>"].
Definition demo_local : outcome StoreError (Batch * Store) :=
  local_batch 1 empty_store "g" demo_changes None 0%Z.

Definition demo_result : Batch * Store :=
  match demo_local with
  | Ok r => r
  | _ => ({| batch_graph := "g"; batch_actor := 0; batch_counter := 0; base_clock := ∅;
             batch_ops := []; batch_timestamp := 0%Z |}, empty_store)
  end.

Lemma demo_local_ok : demo_local = Ok demo_result.
Proof.
  assert ((match demo_local with Ok _ => true | _ => false end) = true) as Hok by (vm_compute; reflexivity).
  unfold demo_result. by destruct demo_local.
Qed.

Lemma covered_empty graph : covered empty_store graph.
Proof. intros clock _ k e _ He. unfold dots_at, read_quad_dots in He; cbn in He. rewrite lookup_empty in He. by apply elem_of_nil in He. Qed.

Example local_last_change_wins_witness :
  match last_change (gid "g") demo_changes (quad_key_of (gid "g") "<s>" "<p>" "<o>") with
  | Some true => batch_identity demo_result.1 ∈ read_quad_dots demo_result.2 (quad_key_of (gid "g") "<s>" "<p>" "<o>")
  | Some false => read_quad_dots demo_result.2 (quad_key_of (gid "g") "<s>" "<p>" "<o>") = []
  | None => ∀ e, e ∈ read_quad_dots demo_result.2 (quad_key_of (gid "g") "<s>" "<p>" "<o>") ↔
                 e ∈ read_quad_dots empty_store (quad_key_of (gid "g") "<s>" "<p>" "<o>")
  end.
Proof.
  apply (local_last_change_wins 1 empty_store "g" demo_changes None 0%Z demo_result.1);
    [|apply covered_empty|reflexivity].
  rewrite <- surjective_pairing. exact demo_local_ok.
Defined.

Example local_removal_rejected_witness :
  (∀ u, check_batch demo_result.1 = Ok u → VectorClock.contains (base_clock demo_result.1) (batch_identity demo_result.1) = true) ∧
  (own_events_logged 1 empty_store "g" → ∀ u, check_batch demo_result.1 ≠ Ok u).
Proof.
  apply (local_removal_rejected 1 empty_store "g" demo_changes None 0%Z _ demo_result.2).
  - rewrite <- surjective_pairing. exact demo_local_ok.
  - exists "g", "<s>", "<p>", "<q>". right. left.
Defined.
Example demo_events_logged : own_events_logged 1 empty_store "g" ∧ own_events_logged 1 demo_result.2 "g".
Proof.
  split; intros seen Hseen; vm_compute in Hseen; [done|]. injection Hseen as <-. exists 1%N. by vm_compute.
Qed.

(** A batch under the local actor's own name, merged from elsewhere, moves the
    clock ahead of the log: the next local batch repeats its event, and its
    removals pass the check. *)
Definition foreign_batch : Batch :=
  {| batch_graph := "g"; batch_actor := 1; batch_counter := 1; base_clock := ∅;
     batch_ops := [Add "<s>" "<p>" "<o>" {| dot_actor := 1; dot_counter := 1 |}]; batch_timestamp := 0%Z |}.
Example own_event_repeated :
  let st := (merge_batch foreign_batch empty_store).1 in
  match local_batch 1 st "g" demo_changes None 0%Z with
  | Ok (b, _) => batch_identity b = batch_identity foreign_batch ∧ check_batch b = Ok ()
  | _ => False
  end.
Proof. by vm_compute. Qed.
End demo.
