(* ===== verification/Gate.v ===== *)
(** * The query-view commit gate ([src/internal/qv_gate.rs])

    The gate serialises maintenance of the query view.  Each critical section
    of the source is one function on the gate's state; threads interleave them
    by a step relation.  A waiter is an identity, its private wake slot the
    entry of [granted]. *)

From S2P Require Import Prelude.

Record GateState := {
  owner : option N;
  next_generation : N;
  waiters : list N;
  granted : gmap N N;
  next_waiter : N;  (** identities given to waiters so far *)
}.

Definition gate_new : GateState :=
  {| owner := None; next_generation := 1; waiters := []; granted := ∅; next_waiter := 0 |}.

(** [own]: a new generation becomes the owner. *)
Definition own (g : GateState) : N * GateState :=
  (next_generation g,
   {| owner := Some (next_generation g); next_generation := wrap_add 64 (next_generation g) 1;
      waiters := waiters g; granted := granted g; next_waiter := next_waiter g |}).

Definition try_acquire (g : GateState) : option N * GateState :=
  if decide (owner g = None ∧ waiters g = []) then
    let '(generation, g) := own g in (Some generation, g)
  else (None, g).

(** The first section of [acquire_timeout]: ownership, or a place in the
    queue. *)
Definition acquire_enter (g : GateState) : (N + N) * GateState :=
  if decide (owner g = None ∧ waiters g = []) then
    let '(generation, g) := own g in (inl generation, g)
  else
    (inr (next_waiter g),
     {| owner := owner g; next_generation := next_generation g; waiters := waiters g ++ [next_waiter g];
        granted := granted g; next_waiter := next_waiter g + 1 |}).

(** The locked section of [remove_waiter]: [true] when the place was given up. *)
Definition remove_waiter (g : GateState) (w : N) : bool * GateState :=
  if decide (w ∈ waiters g) then
    (true, {| owner := owner g; next_generation := next_generation g;
              waiters := filter (λ x, x ≠ w) (waiters g); granted := granted g;
              next_waiter := next_waiter g |})
  else (false, g).

Definition release (g : GateState) (generation : N) : bool * GateState :=
  if decide (owner g ≠ Some generation) then (false, g)
  else
    match waiters g with
    | [] => (true, {| owner := None; next_generation := next_generation g; waiters := [];
                      granted := granted g; next_waiter := next_waiter g |})
    | w :: ws =>
        let next := next_generation g in
        (true, {| owner := Some next; next_generation := wrap_add 64 next 1; waiters := ws;
                  granted := <[w := next]> (granted g); next_waiter := next_waiter g |})
    end.

(** ** Threads *)

(** Where a thread is in the gate's code: outside it; in [wait_timeout_while];
    past a timeout and before [remove_waiter]; past [remove_waiter] without a
    queue place; holding a [QvCommitOwner] that is not yet released. *)
Inductive Status := Idle | Waiting (w : N) | Expired (w : N) | Handed (w : N) | Owning (generation : N).

Abbreviation Threads := (gmap N Status) (only parsing).

Inductive gate_step : GateState * Threads → GateState * Threads → Prop :=
  | step_try g T t g' r :
      T !! t = Some Idle → try_acquire g = (r, g') →
      gate_step (g, T) (g', match r with Some gen => <[t := Owning gen]> T | None => T end)
  | step_enter g T t g' r :
      T !! t = Some Idle → acquire_enter g = (r, g') →
      gate_step (g, T) (g', <[t := match r with inl gen => Owning gen | inr w => Waiting w end]> T)
  | step_woken g T t w gen :
      T !! t = Some (Waiting w) → granted g !! w = Some gen → gate_step (g, T) (g, <[t := Owning gen]> T)
  | step_timeout g T t w :
      T !! t = Some (Waiting w) → granted g !! w = None → gate_step (g, T) (g, <[t := Expired w]> T)
  | step_remove g T t w g' b :
      T !! t = Some (Expired w) → remove_waiter g w = (b, g') →
      gate_step (g, T) (g', <[t := if b then Idle else Handed w]> T)
  | step_take g T t w :
      T !! t = Some (Handed w) →
      gate_step (g, T) (g, <[t := match granted g !! w with Some gen => Owning gen | None => Idle end]> T)
  | step_release g T t gen g' b :
      T !! t = Some (Owning gen) → release g gen = (b, g') → gate_step (g, T) (g', <[t := Idle]> T)
  | step_spawn g T t : T !! t = None → gate_step (g, T) (g, <[t := Idle]> T).

Definition gate_reachable (s : GateState * Threads) : Prop := rtc gate_step (gate_new, ∅) s.

(** ** The invariant *)

Definition pending (T : Threads) (t w : N) : Prop :=
  T !! t = Some (Waiting w) ∨ T !! t = Some (Expired w) ∨ T !! t = Some (Handed w).

(** The thread that owns the gate, or has been handed it. *)
Definition holds (g : GateState) (T : Threads) (t gen : N) : Prop :=
  T !! t = Some (Owning gen) ∨ ∃ w, pending T t w ∧ granted g !! w = Some gen.

Record gate_ok (g : GateState) (T : Threads) : Prop := {
  go_nodup : NoDup (waiters g);
  go_queued w : w ∈ waiters g → granted g !! w = None ∧ ∃ t, pending T t w ∧ T !! t ≠ Some (Handed w);
  go_granted w : is_Some (granted g !! w) → (w < next_waiter g)%N;
  go_pending t w : pending T t w →
    (w < next_waiter g)%N ∧ (w ∈ waiters g ∨ is_Some (granted g !! w)) ∧
    (T !! t = Some (Handed w) → w ∉ waiters g);
  go_private t t' w : pending T t w → pending T t' w → t = t';
  go_holder t gen : holds g T t gen → owner g = Some gen;
  go_single t t' gen gen' : holds g T t gen → holds g T t' gen' → t = t';
  go_free : owner g = None → waiters g = [];
  go_owned gen : owner g = Some gen → ∃ t, holds g T t gen;
}.

Lemma pending_insert T t t' s w :
  pending (<[t := s]> T) t' w ↔
    (t' = t ∧ (s = Waiting w ∨ s = Expired w ∨ s = Handed w)) ∨ (t' ≠ t ∧ pending T t' w).
Proof.
  unfold pending. destruct (decide (t' = t)) as [->|Hne].
  - rewrite lookup_insert_eq. naive_solver.
  - rewrite lookup_insert_ne by done. naive_solver.
Qed.

Lemma holds_insert g T t t' s gen :
  holds g (<[t := s]> T) t' gen ↔
    (t' = t ∧ (s = Owning gen ∨ ∃ w, (s = Waiting w ∨ s = Expired w ∨ s = Handed w) ∧ granted g !! w = Some gen)) ∨
    (t' ≠ t ∧ holds g T t' gen).
Proof.
  unfold holds. setoid_rewrite pending_insert. destruct (decide (t' = t)) as [->|Hne].
  - rewrite lookup_insert_eq. naive_solver.
  - rewrite lookup_insert_ne by done. naive_solver.
Qed.

Definition outside (T : Threads) (t : N) : Prop := T !! t = None ∨ T !! t = Some Idle.

Lemma outside_pending T t w : outside T t → ¬ pending T t w.
Proof. unfold outside, pending. naive_solver. Qed.

Lemma outside_holds g T t gen : outside T t → ¬ holds g T t gen.
Proof.
  intros Ht [Ho|(w & Hp & _)]; [destruct Ht; congruence|]. by apply outside_pending in Hp.
Qed.

(** A thread that enters or leaves the gate's code without ownership. *)
Lemma gate_ok_idle g T t : gate_ok g T → outside T t → gate_ok g (<[t := Idle]> T).
Proof.
  intros Hg Ht.
  assert (∀ t' w, pending (<[t := Idle]> T) t' w ↔ pending T t' w) as Hp.
  { intros t' w. rewrite pending_insert. pose proof (outside_pending T t w Ht).
    destruct (decide (t' = t)) as [->|]; naive_solver. }
  assert (∀ t' gen, holds g (<[t := Idle]> T) t' gen ↔ holds g T t' gen) as Hh.
  { intros t' gen. rewrite holds_insert. pose proof (outside_holds g T t gen Ht).
    destruct (decide (t' = t)) as [->|]; naive_solver. }
  destruct Hg as [H1 H2 H3 H4 H5 H6 H7 H8 H9]. split; try done.
  - intros w Hw. destruct (H2 w Hw) as (Hn & t' & Hp' & Hne). split; [done|]. exists t'.
    rewrite Hp. split; [done|]. rewrite lookup_insert_ne; [done|]. intros ->. by apply outside_pending in Hp'.
  - intros t' w Hp'%Hp. destruct (H4 t' w Hp') as (? & ? & Hh'). split_and!; try done.
    rewrite lookup_insert_ne; [done|]. intros ->. by apply outside_pending in Hp'.
  - intros t1 t2 w. rewrite !Hp. apply H5.
  - intros t' gen. rewrite Hh. apply H6.
  - intros t1 t2 g1 g2. rewrite !Hh. apply H7.
  - intros gen (t' & Ht')%H9. exists t'. by rewrite Hh.
Qed.

(** Ownership of a free gate. *)
Lemma gate_ok_own g T t :
  gate_ok g T → outside T t → owner g = None → waiters g = [] →
  gate_ok (own g).2 (<[t := Owning (own g).1]> T).
Proof.
  intros Hg Ht Hfree Hq. destruct Hg as [H1 H2 H3 H4 H5 H6 H7 H8 H9].
  assert (∀ t' gen, ¬ holds g T t' gen) as Hnone by (intros t' gen Hh%H6; congruence).
  assert (∀ t' w, pending (<[t := Owning (own g).1]> T) t' w ↔ pending T t' w) as Hp.
  { intros t' w. rewrite pending_insert. pose proof (outside_pending T t w Ht).
    destruct (decide (t' = t)) as [->|]; naive_solver. }
  assert (∀ t' gen, holds (own g).2 (<[t := Owning (own g).1]> T) t' gen ↔ t' = t ∧ gen = (own g).1) as Hh.
  { intros t' gen. rewrite holds_insert. split; [|naive_solver].
    intros [[-> [?|(w & ? & _)]]|[_ Hh]]; [naive_solver..|]. by apply Hnone in Hh. }
  split; cbn [own fst snd waiters granted next_waiter owner] in *; try done.
  - intros w. rewrite Hq. by intros ?%elem_of_nil.
  - intros t' w Hp'%Hp. destruct (H4 t' w Hp') as (? & [Hin|[gen Hgr]] & Hh').
    + rewrite Hq in Hin. by apply elem_of_nil in Hin.
    + destruct (Hnone t' gen). right. eauto.
  - intros t1 t2 w. rewrite !Hp. apply H5.
  - intros t' gen [_ ->]%Hh. done.
  - intros t1 t2 g1 g2 [-> _]%Hh [-> _]%Hh. done.
  - intros gen [= <-]. exists t. by apply Hh.
Qed.

(** A place at the end of the queue of an owned gate. *)
Lemma gate_ok_enqueue g T t :
  gate_ok g T → outside T t → owner g ≠ None →
  gate_ok {| owner := owner g; next_generation := next_generation g; waiters := waiters g ++ [next_waiter g];
             granted := granted g; next_waiter := next_waiter g + 1 |} (<[t := Waiting (next_waiter g)]> T).
Proof.
  intros Hg Ht Howned. destruct Hg as [H1 H2 H3 H4 H5 H6 H7 H8 H9].
  set (nw := next_waiter g) in *.
  assert (granted g !! nw = None) as Hfresh.
  { destruct (granted g !! nw) eqn:E; [|done]. assert (nw < nw)%N by (apply H3; eauto). lia. }
  assert (∀ t' w, pending T t' w → w ≠ nw ∧ t' ≠ t) as Hold.
  { intros t' w Hp. split; [destruct (H4 _ _ Hp); lia|]. intros ->. by apply outside_pending in Hp. }
  assert (∀ t' w, pending (<[t := Waiting nw]> T) t' w ↔ (t' = t ∧ w = nw) ∨ pending T t' w) as Hp.
  { intros t' w. rewrite pending_insert. pose proof (Hold t' w). naive_solver. }
  set (g' := {| owner := owner g |}).
  assert (∀ t' gen, holds g' (<[t := Waiting nw]> T) t' gen ↔ holds g T t' gen) as Hh.
  { intros t' gen. rewrite holds_insert. pose proof (outside_holds g T t gen Ht) as Hno.
    unfold holds at 1; cbn [granted g']. fold (holds g T t' gen). split.
    - intros [[-> [?|(w & [[= <-]|[?|?]] & Hgr)]]|[_ ?]]; try done. congruence.
    - intros Hh. right. split; [by intros ->|done]. }
  split; unfold g'; cbn [waiters granted next_waiter owner].
  - apply NoDup_app. split; [done|]. split; [|apply NoDup_singleton].
    intros w Hw%H2 ->%list_elem_of_singleton. destruct Hw as (_ & t' & Hp' & _). by apply Hold in Hp' as [? _].
  - intros w [Hw|Hw]%elem_of_app.
    + destruct (H2 w Hw) as (? & t' & Hp' & Hne). split; [done|]. exists t'. rewrite Hp. split; [by right|].
      rewrite lookup_insert_ne; [done|]. by apply Hold in Hp' as [_ ?].
    + apply list_elem_of_singleton in Hw as ->. split; [done|]. exists t. rewrite Hp.
      split; [by left|]. by rewrite lookup_insert_eq.
  - intros w Hw%H3. lia.
  - intros t' w [[-> ->]|Hp']%Hp.
    + split; [lia|]. split; [left; apply elem_of_app; right; by left|]. by rewrite lookup_insert_eq.
    + destruct (H4 t' w Hp') as (? & Hor & Hh'). destruct (Hold t' w Hp') as [Hwn Htn].
      split; [lia|]. split; [rewrite elem_of_app; naive_solver|].
      rewrite lookup_insert_ne by done. intros Hhanded. rewrite elem_of_app, list_elem_of_singleton.
      intros [?|?]; [by apply Hh'|done].
  - intros t1 t2 w [[-> ->]|Hp1]%Hp [[-> ?]|Hp2]%Hp; [done| | |by eapply H5].
    + by apply Hold in Hp2 as [? _].
    + subst. by apply Hold in Hp1 as [? _].
  - intros t' gen Hx%Hh. by eapply H6.
  - intros t1 t2 g1 g2 Hx1%Hh Hx2%Hh. by eapply H7.
  - intros Hn. done.
  - intros gen (t' & Ht')%H9. exists t'. by apply Hh.
Qed.

(** A queued or granted thread that moves on without leaving the queue. *)
Lemma gate_ok_move g T t w s :
  gate_ok g T → T !! t = Some (Waiting w) ∨ T !! t = Some (Expired w) ∨ T !! t = Some (Handed w) →
  s = Expired w ∨ (s = Handed w ∧ w ∉ waiters g) → gate_ok g (<[t := s]> T).
Proof.
  intros Hg Ht Hs. destruct Hg as [H1 H2 H3 H4 H5 H6 H7 H8 H9].
  assert (∀ t' w', pending (<[t := s]> T) t' w' ↔ pending T t' w') as Hp.
  { intros t' w'. rewrite pending_insert. destruct (decide (t' = t)) as [->|]; [|naive_solver].
    unfold pending. split.
    - intros [[_ Hs']|[? _]]; [|done]. assert (w' = w) as -> by naive_solver. done.
    - intros Hp. left. split; [done|]. assert (w' = w) as -> by naive_solver. naive_solver. }
  assert (∀ t' gen, holds g (<[t := s]> T) t' gen ↔ holds g T t' gen) as Hh.
  { intros t' gen. unfold holds. setoid_rewrite Hp. destruct (decide (t' = t)) as [->|].
    - rewrite lookup_insert_eq. naive_solver.
    - by rewrite lookup_insert_ne. }
  split; try done.
  - intros w' Hw. destruct (H2 w' Hw) as (Hn & t' & Hp' & Hne). split; [done|]. exists t'.
    rewrite Hp. split; [done|]. destruct (decide (t' = t)) as [->|]; [|by rewrite lookup_insert_ne].
    rewrite lookup_insert_eq. destruct Hs as [->|[-> Hno]]; [done|].
    intros [= ->]. done.
  - intros t' w' Hp'%Hp. destruct (H4 t' w' Hp') as (? & ? & Hh'). split_and!; try done.
    destruct (decide (t' = t)) as [->|]; [|by rewrite lookup_insert_ne].
    rewrite lookup_insert_eq. intros [= ->]. naive_solver.
  - intros t1 t2 w'. rewrite !Hp. apply H5.
  - intros t' gen. rewrite Hh. apply H6.
  - intros t1 t2 g1 g2. rewrite !Hh. apply H7.
  - intros gen (t' & Ht')%H9. exists t'. by rewrite Hh.
Qed.

(** The thread that was handed the gate takes it. *)
Lemma gate_ok_take g T t w gen :
  gate_ok g T → pending T t w → granted g !! w = Some gen → gate_ok g (<[t := Owning gen]> T).
Proof.
  intros Hg Ht Hgr. destruct Hg as [H1 H2 H3 H4 H5 H6 H7 H8 H9].
  assert (holds g T t gen) as Hhold by (right; eauto).
  assert (∀ t' w', pending (<[t := Owning gen]> T) t' w' ↔ t' ≠ t ∧ pending T t' w') as Hp.
  { intros t' w'. rewrite pending_insert. naive_solver. }
  assert (∀ t' gen', holds g (<[t := Owning gen]> T) t' gen' ↔ holds g T t' gen') as Hh.
  { intros t' gen'. rewrite holds_insert. destruct (decide (t' = t)) as [->|]; [|naive_solver]. split.
    - intros [[_ [[= ->]|(w' & ? & _)]]|[? _]]; [done|naive_solver|done].
    - intros Hh. left. split; [done|]. left. pose proof (H6 _ _ Hh). pose proof (H6 _ _ Hhold). congruence. }
  split; try done.
  - intros w' Hw. destruct (H2 w' Hw) as (Hn & t' & Hp' & Hne). split; [done|].
    assert (t' ≠ t) as Htt.
    { intros ->. assert (w' = w) as -> by (unfold pending in *; naive_solver). congruence. }
    exists t'. rewrite Hp. split; [done|]. by rewrite lookup_insert_ne.
  - intros t' w' [Htt Hp']%Hp. rewrite lookup_insert_ne by done. by apply H4.
  - intros t1 t2 w' [_ P1]%Hp [_ P2]%Hp. by eapply H5.
  - intros t' gen'. rewrite Hh. apply H6.
  - intros t1 t2 g1 g2. rewrite !Hh. apply H7.
  - intros gen' (t' & Ht')%H9. exists t'. by rewrite Hh.
Qed.

(** A waiter gives up its place. *)
Lemma gate_ok_leave g T t w :
  gate_ok g T → T !! t = Some (Expired w) → w ∈ waiters g →
  gate_ok {| owner := owner g; next_generation := next_generation g;
             waiters := filter (λ x, x ≠ w) (waiters g); granted := granted g;
             next_waiter := next_waiter g |} (<[t := Idle]> T).
Proof.
  intros Hg Ht Hw. destruct Hg as [H1 H2 H3 H4 H5 H6 H7 H8 H9].
  assert (granted g !! w = None) as Hnone by (by apply H2).
  assert (pending T t w) as Hpt by (right; by left).
  assert (∀ t' w', pending (<[t := Idle]> T) t' w' ↔ t' ≠ t ∧ pending T t' w') as Hp.
  { intros t' w'. rewrite pending_insert. naive_solver. }
  set (g' := {| owner := owner g |}).
  assert (∀ t' gen, holds g' (<[t := Idle]> T) t' gen ↔ holds g T t' gen) as Hh.
  { intros t' gen. rewrite holds_insert. unfold holds at 1; cbn [granted g']. fold (holds g T t' gen). split.
    - intros [[-> [?|(w' & ? & _)]]|[_ ?]]; [done|naive_solver|done].
    - intros Hh. right. split; [|done]. intros ->. destruct Hh as [?|(w' & Hp' & Hgr)]; [congruence|].
      assert (w' = w) as -> by (unfold pending in *; naive_solver). congruence. }
  split; unfold g'; cbn [waiters granted next_waiter owner].
  - by apply NoDup_filter.
  - intros w' [Hne Hw']%list_elem_of_filter. destruct (H2 w' Hw') as (? & t' & Hp' & Hnh).
    split; [done|]. assert (t' ≠ t) by (intros ->; unfold pending in *; naive_solver).
    exists t'. rewrite Hp, lookup_insert_ne by done. done.
  - exact H3.
  - intros t' w' [Hne Hp']%Hp. destruct (H4 t' w' Hp') as (? & Hor & Hhd). split; [done|].
    rewrite lookup_insert_ne by done. rewrite list_elem_of_filter. split; [|naive_solver].
    destruct Hor as [Hin|]; [left|by right]. split; [|done].
    intros ->. apply Hne. by eapply H5.
  - intros t1 t2 w' [_ P1]%Hp [_ P2]%Hp. by eapply H5.
  - intros t' gen Hx%Hh. by eapply H6.
  - intros t1 t2 g1 g2 Hx1%Hh Hx2%Hh. by eapply H7.
  - intros Hn%H8. by rewrite Hn.
  - intros gen (t' & Ht')%H9. exists t'. by apply Hh.
Qed.

(** The owner releases the gate, to the longest waiter if there is one. *)
Lemma gate_ok_release g T t gen :
  gate_ok g T → T !! t = Some (Owning gen) → gate_ok (release g gen).2 (<[t := Idle]> T).
Proof.
  intros Hg Ht. pose proof Hg as [H1 H2 H3 H4 H5 H6 H7 H8 H9].
  assert (holds g T t gen) as Hhold by by left.
  pose proof (H6 _ _ Hhold) as Howner. unfold release. rewrite decide_False by (by rewrite Howner; intros []).
  assert (∀ t' w', pending (<[t := Idle]> T) t' w' ↔ pending T t' w') as Hp.
  { intros t' w'. rewrite pending_insert. destruct (decide (t' = t)) as [->|]; unfold pending; naive_solver. }
  assert (∀ t' w, pending T t' w → t' ≠ t) as Hne by (intros t' w Hp' ->; unfold pending in *; naive_solver).
  assert (∀ t' w, pending T t' w → granted g !! w = None) as Hnone.
  { intros t' w Hp'. destruct (granted g !! w) as [gen'|] eqn:E; [|done]. exfalso.
    apply (Hne t' w Hp'). eapply H7; [right; eauto|exact Hhold]. }
  assert (∀ t' gen', T !! t' = Some (Owning gen') → t' = t) as Hown.
  { intros t' gen' Ho. eapply H7; [by left|exact Hhold]. }
  destruct (waiters g) as [|w ws] eqn:Eq; cbn [snd].
  - set (g' := {| owner := None |}).
    assert (∀ t' gen', ¬ holds g' (<[t := Idle]> T) t' gen') as Hno.
    { intros t' gen' [Ho|(w & Hp'%Hp & Hgr)].
      - apply lookup_insert_Some in Ho as [[_ ?]|[? Ho]]; [done|]. by apply Hown in Ho.
      - apply Hnone in Hp'. cbn in Hgr. congruence. }
    split; unfold g'; cbn [waiters granted next_waiter owner]; try done.
    + intros w Hw. by apply elem_of_nil in Hw.
    + intros t' w Hp'%Hp. pose proof (Hnone t' w Hp') as Hn. destruct (H4 t' w Hp') as (_ & [Hin|[? ?]] & _);
        [by apply elem_of_nil in Hin|congruence].
    + intros t1 t2 w'. rewrite !Hp. apply H5.
    + intros t' gen' Hx. by apply Hno in Hx.
    + intros t1 t2 g1 g2 Hx. by apply Hno in Hx.
  - destruct (H2 w) as (Hgw & t0 & Hp0 & Hnh0); [by left|]. apply NoDup_cons in H1 as [Hw Hnd].
    set (g' := {| owner := Some (next_generation g) |}).
    assert (∀ t' gen', holds g' (<[t := Idle]> T) t' gen' ↔ t' = t0 ∧ gen' = next_generation g) as Hh.
    { intros t' gen'. unfold holds; cbn [granted g']. setoid_rewrite Hp. split.
      - intros [Ho|(w' & Hp' & Hgr)].
        + apply lookup_insert_Some in Ho as [[_ ?]|[? Ho]]; [done|]. by apply Hown in Ho.
        + apply lookup_insert_Some in Hgr as [[<- <-]|[_ Hgr]]; [|apply Hnone in Hp'; congruence].
          split; [|done]. by eapply H5.
      - intros [-> ->]. right. exists w. split; [done|]. by rewrite lookup_insert_eq. }
    split; unfold g'; cbn [waiters granted next_waiter owner]; try done.
    + intros w' Hw'. destruct (H2 w') as (? & t' & Hp' & Hnh); [by right|].
      assert (w' ≠ w) by (by intros ->). split; [by rewrite lookup_insert_ne|].
      exists t'. rewrite Hp. split; [done|]. rewrite lookup_insert_ne; [done|]. intros ->. by apply Hne in Hp'.
    + intros w' [gen' [[<- _]|[_ Hgr]]%lookup_insert_Some]; [|by apply H3; eauto].
      by destruct (H4 t0 w Hp0).
    + intros t' w' Hp'%Hp. destruct (H4 t' w' Hp') as (? & Hor & Hhd). split; [done|].
      rewrite (lookup_insert_ne T) by (intros <-; by apply Hne in Hp'). split.
      * destruct (decide (w' = w)) as [->|]; [right; rewrite lookup_insert_eq; eauto|].
        rewrite lookup_insert_ne by done. destruct Hor as [[?|?]%elem_of_cons|?]; [done|by left|by right].
      * intros Hhanded. apply Hhd in Hhanded. set_solver.
    + intros t1 t2 w'. rewrite !Hp. apply H5.
    + intros t' gen' [_ ->]%Hh. done.
    + intros t1 t2 g1 g2 [-> _]%Hh [-> _]%Hh. done.
    + intros gen' [= <-]. exists t0. by apply Hh.
Qed.

Lemma gate_ok_init : gate_ok gate_new ∅.
Proof.
  split; cbn; try done.
  - constructor.
  - intros w Hw. by apply elem_of_nil in Hw.
  - intros w [x Hx]. by rewrite lookup_empty in Hx.
  - intros t w. unfold pending. rewrite lookup_empty. naive_solver.
  - intros t t' w. unfold pending. rewrite lookup_empty. naive_solver.
  - intros t gen. unfold holds, pending. rewrite lookup_empty. naive_solver.
  - intros t t' g g'. unfold holds, pending. rewrite lookup_empty. naive_solver.
Qed.

Lemma gate_ok_step s s' : gate_step s s' → gate_ok s.1 s.2 → gate_ok s'.1 s'.2.
Proof.
  destruct 1 as [g T t g' r Ht Hr|g T t g' r Ht Hr|g T t w gen Ht Hgr|g T t w Ht Hgr|g T t w g' b Ht Hr|
    g T t w Ht|g T t gen g' b Ht Hr|g T t Ht]; cbn; intros Hg.
  - unfold try_acquire in Hr. case_decide as Hfree; [|by simplify_eq].
    cbn in Hr. simplify_eq. apply (gate_ok_own g T t); [done|by right|apply Hfree..].
  - unfold acquire_enter in Hr. case_decide as Hfree; cbn in Hr; simplify_eq.
    + apply (gate_ok_own g T t); [done|by right|apply Hfree..].
    + apply gate_ok_enqueue; [done|by right|]. intros Ho. by apply Hfree; split; [|apply (go_free _ _ Hg)].
  - eapply gate_ok_take; [done|by left|done].
  - eapply gate_ok_move; [done|by left|by left].
  - unfold remove_waiter in Hr. case_decide as Hin; simplify_eq; [by apply gate_ok_leave|].
    eapply gate_ok_move; [done|right; by left|by right].
  - assert (pending T t w) as Hp by (right; by right).
    destruct (go_pending _ _ Hg t w Hp) as (_ & Hor & Hno).
    destruct (granted g !! w) as [gen|] eqn:E; [by eapply gate_ok_take|].
    exfalso. destruct Hor as [?|[]]; [by apply Hno|done].
  - replace g' with (release g gen).2 by by rewrite Hr. by apply gate_ok_release.
  - apply gate_ok_idle; [done|by left].
Qed.

Lemma gate_reachable_ok s : gate_reachable s → gate_ok s.1 s.2.
Proof.
  unfold gate_reachable. intros Hr.
  apply (rtc_ind_r (λ s, gate_ok s.1 s.2) (gate_new, ∅)) in Hr; [done|apply gate_ok_init|].
  intros x y _ Hs Hx. by eapply gate_ok_step.
Qed.

(** C29: However threads interleave, at most one of them owns the gate; an owned
    gate always has the thread that will release it; a free gate has no one
    waiting; and a waiter that was handed the gate while it gave up takes it. *)
Theorem gate_exclusive g T :
  gate_reachable (g, T) →
  (∀ t t' gen gen', T !! t = Some (Owning gen) → T !! t' = Some (Owning gen') → t = t') ∧
  (∀ gen, owner g = Some gen → ∃ t, holds g T t gen) ∧
  (owner g = None → waiters g = []) ∧
  (∀ t w, T !! t = Some (Handed w) → ∃ gen, granted g !! w = Some gen ∧ owner g = Some gen).
Proof.
  intros Hg%gate_reachable_ok. cbn in Hg. split_and!.
  - intros t t' gen gen' H1 H2. by eapply (go_single _ _ Hg); left.
  - apply (go_owned _ _ Hg).
  - apply (go_free _ _ Hg).
  - intros t w Ht. assert (pending T t w) as Hp by (right; by right).
    destruct (go_pending _ _ Hg t w Hp) as (_ & [?|[gen Hgr]] & Hno); [by destruct Hno|].
    exists gen. split; [done|]. apply (go_holder _ _ Hg t). right. eauto.
Qed.

(** Arrival order: releases hand the gate to the waiters in queue order, and
    neither way of acquiring it overtakes a waiter. *)
Theorem gate_fifo g T w ws :
  gate_reachable (g, T) → waiters g = w :: ws →
  try_acquire g = (None, g) ∧
  (acquire_enter g).1 = inr (next_waiter g) ∧ waiters (acquire_enter g).2 = w :: ws ++ [next_waiter g] ∧
  ∃ gen, owner g = Some gen ∧ waiters (release g gen).2 = ws ∧
    granted (release g gen).2 !! w = owner (release g gen).2 ∧ is_Some (owner (release g gen).2).
Proof.
  intros Hg%gate_reachable_ok Hq. cbn in Hg.
  destruct (owner g) as [gen|] eqn:Eo; [|by rewrite (go_free _ _ Hg Eo) in Hq].
  unfold try_acquire, acquire_enter. rewrite !decide_False by (rewrite Hq; naive_solver).
  split_and!; [done|done|cbn; by rewrite Hq|]. exists gen. split; [done|].
  unfold release. rewrite decide_False by (by rewrite Eo; intros []). rewrite Hq. cbn.
  by rewrite lookup_insert_eq.
Qed.

(** A release by a generation that no longer owns the gate changes nothing. *)
Lemma stale_release g gen : owner g ≠ Some gen → release g gen = (false, g).
Proof. intros Hne. unfold release. by rewrite decide_True. Qed.

(** Three threads: one owns the gate, two wait. *)
Definition queue_of_two : GateState :=
  (acquire_enter (acquire_enter (own gate_new).2).2).2.
Definition three_threads : Threads := <[3%N := Waiting 1]> (<[2%N := Waiting 0]> (<[1%N := Owning 1]> (<[3%N := Idle]> (<[2%N := Idle]> (<[1%N := Idle]> ∅))))).

Lemma queue_of_two_reachable : gate_reachable (queue_of_two, three_threads).
Proof.
  unfold gate_reachable, three_threads, queue_of_two.
  eapply rtc_l; [by eapply (step_spawn _ _ 1)|]. eapply rtc_l; [by eapply (step_spawn _ _ 2)|].
  eapply rtc_l; [by eapply (step_spawn _ _ 3)|].
  eapply rtc_l; [by eapply (step_enter _ _ 1)|].
  eapply rtc_l; [by eapply (step_enter _ _ 2)|].
  eapply rtc_l; [by eapply (step_enter _ _ 3)|]. apply rtc_refl.
Qed.

Lemma gate_exclusive_witness :
  ∃ t, holds queue_of_two three_threads t 1.
Proof. exact (proj1 (proj2 (gate_exclusive _ _ queue_of_two_reachable)) 1%N eq_refl). Defined.

Lemma gate_fifo_witness : try_acquire queue_of_two = (None, queue_of_two).
Proof. exact (proj1 (gate_fifo _ _ 0 [1%N] queue_of_two_reachable eq_refl)). Defined.
