(* ===== verification/Memory.v ===== *)
(** * The process memory budget ([src/internal/memory.rs])

    Reservations of the open stores against one process-wide budget.  The
    observed process limit, read from the operating system, is an argument. *)

From S2P Require Import Prelude.
#[local] Open Scope N_scope.

Definition MIB : N := 1048576.
Definition FALLBACK_PROCESS_BYTES : N := 4 * 1024 * MIB.
Definition DEFAULT_STORAGE_BYTES : N := 128 * MIB.
Definition DEFAULT_APP_BYTES : N := 128 * MIB.
Definition DEFAULT_SEARCH_BYTES : N := 256 * MIB.
Definition DEFAULT_PREPARED_BYTES : N := 64 * MIB.
Definition MIN_COMPONENT_BYTES : N := 4 * MIB.
Definition MIN_SEARCH_BYTES : N := 15 * MIB.
Definition MIN_STORE_BYTES : N := 3 * MIN_COMPONENT_BYTES + MIN_SEARCH_BYTES.
Definition DEFAULT_STORE_SHARE : N := 32.

Inductive MemoryBudgetError :=
  | ComponentsExceedStore
  | StoreExceedsProcess
  | MissingHeadroom
  | ProcessExhausted (reserved available : N).

Record MemoryBudget := {
  process_bytes : N; store_bytes : N; storage_bytes : N; application_bytes : N;
  search_writer_bytes : N; prepared_work_bytes : N; adaptive : bool;
}.

(** The room above the minimum the defaults ask for. *)
Definition desired_bytes : N :=
  sat_add 64 (sat_add 64 (sat_add 64 (sat_sub DEFAULT_STORAGE_BYTES MIN_COMPONENT_BYTES)
    (sat_sub DEFAULT_APP_BYTES MIN_COMPONENT_BYTES))
    (sat_sub DEFAULT_SEARCH_BYTES MIN_SEARCH_BYTES))
    (sat_sub DEFAULT_PREPARED_BYTES MIN_COMPONENT_BYTES).

Definition scale (remaining component minimum : N) : N :=
  sat_add 64 minimum (sat_mul 64 (sat_sub component minimum) remaining / desired_bytes).

Definition budget_new (process store : N) : MemoryBudget :=
  let remaining := sat_sub store MIN_STORE_BYTES in
  {| process_bytes := process; store_bytes := store;
     storage_bytes := scale remaining DEFAULT_STORAGE_BYTES MIN_COMPONENT_BYTES;
     application_bytes := scale remaining DEFAULT_APP_BYTES MIN_COMPONENT_BYTES;
     search_writer_bytes := scale remaining DEFAULT_SEARCH_BYTES MIN_SEARCH_BYTES;
     prepared_work_bytes := scale remaining DEFAULT_PREPARED_BYTES MIN_COMPONENT_BYTES;
     adaptive := false |}.

Definition set_adaptive (b : MemoryBudget) (a : bool) : MemoryBudget :=
  {| process_bytes := process_bytes b; store_bytes := store_bytes b; storage_bytes := storage_bytes b;
     application_bytes := application_bytes b; search_writer_bytes := search_writer_bytes b;
     prepared_work_bytes := prepared_work_bytes b; adaptive := a |}.

(** Three quarters of the process limit are available to stores. *)
Definition available_bytes (process : N) : N := sat_mul 64 process 3 / 4.

Definition div_ceil (a b : N) : N := if decide (a mod b = 0) then a / b else a / b + 1.

(** [Default]; [limit] is what [process_memory_limit] observed. *)
Definition budget_default (limit : option N) : MemoryBudget :=
  let process := default FALLBACK_PROCESS_BYTES limit in
  let store := N.max (div_ceil (available_bytes process) DEFAULT_STORE_SHARE) MIN_STORE_BYTES in
  set_adaptive (budget_new process store) true.

Definition components (b : MemoryBudget) : N :=
  sat_add 64 (sat_add 64 (sat_add 64 (storage_bytes b) (application_bytes b)) (search_writer_bytes b))
    (prepared_work_bytes b).

Definition validate (b : MemoryBudget) : outcome MemoryBudgetError () :=
  if decide (store_bytes b < components b) then Err ComponentsExceedStore
  else if decide (process_bytes b < store_bytes b) then Err StoreExceedsProcess
  else if decide (available_bytes (process_bytes b) < store_bytes b) then Err MissingHeadroom
  else Ok ().

(** ** The shared pool *)

Record ProcessBudget := { pool_process : option N; reserved_bytes : N }.
Definition pool_new : ProcessBudget := {| pool_process := None; reserved_bytes := 0 |}.

(** [ProcessBudget::reserve]: the observed limit is recorded even when the
    reservation fails. *)
Definition pool_reserve (p : ProcessBudget) (process store : N) : ProcessBudget * outcome MemoryBudgetError () :=
  let process := match pool_process p with Some current => N.min current process | None => process end in
  let available := available_bytes process in
  let reserved := sat_add 64 (reserved_bytes p) store in
  if decide (available < reserved)
  then ({| pool_process := Some process; reserved_bytes := reserved_bytes p |},
        Err (ProcessExhausted reserved available))
  else ({| pool_process := Some process; reserved_bytes := reserved |}, Ok ()).

(** [fit]: a default reservation shrinks as the pool fills. *)
Definition fit (p : ProcessBudget) (b : MemoryBudget) : MemoryBudget :=
  let process := match pool_process p with
                 | Some current => N.min current (process_bytes b)
                 | None => process_bytes b
                 end in
  let free := sat_sub (available_bytes process) (reserved_bytes p) in
  let store := N.max (free / DEFAULT_STORE_SHARE) MIN_STORE_BYTES in
  if decide (store_bytes b ≤ store) then b
  else set_adaptive (budget_new (process_bytes b) store) true.

Definition pool_release (p : ProcessBudget) (bytes : N) : ProcessBudget :=
  let reserved := sat_sub (reserved_bytes p) bytes in
  {| pool_process := if decide (reserved = 0) then None else pool_process p; reserved_bytes := reserved |}.

(** [MemoryBudget::reserve]: the lease, or the error. *)
Definition budget_reserve (p : ProcessBudget) (b : MemoryBudget)
    : ProcessBudget * outcome MemoryBudgetError MemoryBudget :=
  match validate b with
  | Ok _ =>
      let b := if adaptive b then fit p b else b in
      match pool_reserve p (process_bytes b) (store_bytes b) with
      | (p, Ok _) => (p, Ok b)
      | (p, Err e) => (p, Err e)
      | (p, Panic) => (p, Panic)
      end
  | Err e => (p, Err e)
  | Panic => (p, Panic)
  end.

(** ** Well-formed budgets *)

Lemma desired_value : desired_bytes = 549 * MIB.
Proof. reflexivity. Qed.

Definition min_of_components : N := 3 * MIN_COMPONENT_BYTES + MIN_SEARCH_BYTES.

Lemma scale_bound remaining component minimum :
  minimum ≤ component → component ≤ 549 * MIB →
  scale remaining component minimum ≤ minimum + (component - minimum) * remaining / desired_bytes.
Proof.
  intros Hle Hmax. unfold scale, sat_add, sat_mul, sat_sub. etrans; [apply N.le_min_l|].
  apply N.add_le_mono_l, N.Div0.div_le_mono, N.le_min_l.
Qed.

(** The four components of a constructed budget fit in the store's share
    exactly when the share has the minimum; then the budget is valid whenever
    it leaves the process its quarter. *)
Lemma components_fit process store :
  MIN_STORE_BYTES ≤ store → components (budget_new process store) ≤ store.
Proof.
  intros Hmin. unfold components, budget_new; cbn [storage_bytes application_bytes search_writer_bytes prepared_work_bytes].
  assert (∃ r, store = MIN_STORE_BYTES + r) as [r ->] by (exists (store - MIN_STORE_BYTES); lia). clear Hmin.
  replace (sat_sub (MIN_STORE_BYTES + r) MIN_STORE_BYTES) with r by (unfold sat_sub; lia).
  pose proof (scale_bound r DEFAULT_STORAGE_BYTES MIN_COMPONENT_BYTES) as H1.
  pose proof (scale_bound r DEFAULT_APP_BYTES MIN_COMPONENT_BYTES) as H2.
  pose proof (scale_bound r DEFAULT_SEARCH_BYTES MIN_SEARCH_BYTES) as H3.
  pose proof (scale_bound r DEFAULT_PREPARED_BYTES MIN_COMPONENT_BYTES) as H4.
  assert (∀ a b, sat_add 64 a b ≤ a + b) as Hs by (intros; unfold sat_add; lia).
  etrans; [apply Hs|]. etrans; [apply N.add_le_mono_r, Hs|]. etrans; [apply N.add_le_mono_r, N.add_le_mono_r, Hs|].
  rewrite desired_value in *.
  assert (∀ a b c d n, n ≠ 0 → a + b + c + d ≤ n → a * r / n + b * r / n + c * r / n + d * r / n ≤ r) as Hdiv.
  { intros a b c d n Hn Hsum.
    pose proof (N.Div0.mul_div_le (a * r) n). pose proof (N.Div0.mul_div_le (b * r) n).
    pose proof (N.Div0.mul_div_le (c * r) n). pose proof (N.Div0.mul_div_le (d * r) n).
    generalize dependent (a * r / n); intros qa ?. generalize dependent (b * r / n); intros qb ?.
    generalize dependent (c * r / n); intros qc ?. generalize dependent (d * r / n); intros qd ?.
    assert (n * (qa + qb + qc + qd) ≤ n * r) as Hm by nia. by apply N.mul_le_mono_pos_l in Hm; [|lia]. }
  specialize (Hdiv (DEFAULT_STORAGE_BYTES - MIN_COMPONENT_BYTES) (DEFAULT_APP_BYTES - MIN_COMPONENT_BYTES)
    (DEFAULT_SEARCH_BYTES - MIN_SEARCH_BYTES) (DEFAULT_PREPARED_BYTES - MIN_COMPONENT_BYTES) (549 * MIB)
    ltac:(done) ltac:(vm_compute; congruence)).
  specialize (H1 ltac:(vm_compute; congruence) ltac:(vm_compute; congruence)).
  specialize (H2 ltac:(vm_compute; congruence) ltac:(vm_compute; congruence)).
  specialize (H3 ltac:(vm_compute; congruence) ltac:(vm_compute; congruence)).
  specialize (H4 ltac:(vm_compute; congruence) ltac:(vm_compute; congruence)).
  unfold MIN_STORE_BYTES. lia.
Qed.

Lemma available_le process : available_bytes process ≤ process.
Proof.
  unfold available_bytes, sat_mul. etrans; [apply N.Div0.div_le_mono, N.le_min_l|].
  apply N.Div0.div_le_upper_bound. lia.
Qed.

Lemma available_mono p q : p ≤ q → available_bytes p ≤ available_bytes q.
Proof. intros Hpq. unfold available_bytes, sat_mul. apply N.Div0.div_le_mono. lia. Qed.

Lemma available_u64 p : available_bytes p < u64_max.
Proof.
  apply N.le_lt_trans with (u64_max / 4); [|done].
  unfold available_bytes, sat_mul. apply N.Div0.div_le_mono. lia.
Qed.

(** A constructed budget is valid exactly when the store's share covers the
    component minima and leaves a quarter of the process limit free. *)
Theorem new_valid process store :
  validate (budget_new process store) = Ok () ↔ MIN_STORE_BYTES ≤ store ≤ available_bytes process.
Proof.
  unfold validate; cbn [budget_new store_bytes process_bytes]. split.
  - case_decide as Hc; [done|]. case_decide as Hp; [done|]. case_decide as Ha; [done|]. intros _.
    split; [|lia]. destruct (decide (MIN_STORE_BYTES ≤ store)) as [|Hlt]; [done|]. exfalso. apply Hc.
    unfold components; cbn [budget_new storage_bytes application_bytes search_writer_bytes prepared_work_bytes].
    replace (sat_sub store MIN_STORE_BYTES) with 0 by (unfold sat_sub; lia).
    apply N.lt_le_trans with MIN_STORE_BYTES; [lia|]. vm_compute. congruence.
  - intros [Hmin Ha]. pose proof (components_fit process store Hmin). pose proof (available_le process).
    rewrite !decide_False by lia. done.
Qed.

Lemma new_valid_witness : validate (budget_new (1024 * MIB) (128 * MIB)) = Ok ().
Proof. apply new_valid. vm_compute. split; congruence. Defined.

(** ** The pool and its leases *)

Definition total (leases : list MemoryBudget) : N := foldr (λ b n, store_bytes b + n) 0 leases.

Lemma total_app l1 l2 : total (l1 ++ l2) = total l1 + total l2.
Proof. induction l1 as [|b l1 IH]; cbn; [done|]. unfold total in *. lia. Qed.

Inductive pool_step : ProcessBudget * list MemoryBudget → ProcessBudget * list MemoryBudget → Prop :=
  | pool_open p leases b p' r :
      budget_reserve p b = (p', r) →
      pool_step (p, leases) (p', match r with Ok lease => lease :: leases | _ => leases end)
  | pool_drop p l1 lease l2 :
      pool_step (p, l1 ++ lease :: l2) (pool_release p (store_bytes lease), l1 ++ l2).

Definition pool_reachable (s : ProcessBudget * list MemoryBudget) : Prop := rtc pool_step (pool_new, []) s.

Record pool_ok (p : ProcessBudget) (leases : list MemoryBudget) : Prop := {
  po_total : reserved_bytes p = total leases;
  po_bound : reserved_bytes p ≤ u64_max;
  po_fresh : leases = [] → pool_process p = None;
}.

(** What a reservation asks the pool for is within the process limit. *)
Lemma fitted_store p b :
  validate b = Ok () → let b' := if adaptive b then fit p b else b in
  process_bytes b' = process_bytes b ∧ store_bytes b' ≤ available_bytes (process_bytes b).
Proof.
  unfold validate. case_decide; [done|]. case_decide; [done|]. case_decide; [done|]. intros _. cbn zeta.
  destruct (adaptive b); [|split; [done|lia]]. unfold fit. case_decide; [split; [done|lia]|].
  cbn. split; [done|]. lia.
Qed.

Lemma empty_pool_admits b :
  validate b = Ok () → ∃ p lease, budget_reserve pool_new b = (p, Ok lease).
Proof.
  intros Hv. unfold budget_reserve. rewrite Hv. pose proof (fitted_store pool_new b Hv) as [Hp Hs]. cbn zeta in *.
  set (b' := if adaptive b then fit pool_new b else b) in *. unfold pool_reserve; cbn [pool_new pool_process reserved_bytes].
  pose proof (available_u64 (process_bytes b)).
  rewrite Hp, decide_False by (unfold sat_add; lia). eauto.
Qed.

Lemma reserve_shape p b p' r :
  budget_reserve p b = (p', r) →
  match r with
  | Ok lease => reserved_bytes p' = reserved_bytes p + store_bytes lease ∧
      reserved_bytes p' ≤ available_bytes (process_bytes b) ∧
      (∀ c, pool_process p = Some c → reserved_bytes p' ≤ available_bytes c)
  | _ => reserved_bytes p' = reserved_bytes p
  end.
Proof.
  unfold budget_reserve. destruct (validate b) as [[]|e|] eqn:Hv; [|by intros [= <- <-]..].
  pose proof (fitted_store p b Hv) as [Hp Hs]. cbn zeta in *.
  set (b' := if adaptive b then fit p b else b) in *. unfold pool_reserve. case_decide as Hd; intros [= <- <-]; [done|].
  cbn [reserved_bytes]. rewrite Hp in Hd.
  assert (sat_add 64 (reserved_bytes p) (store_bytes b') ≤ available_bytes
    (match pool_process p with Some c => N.min c (process_bytes b) | None => process_bytes b end)) as Hle by lia.
  pose proof (available_u64 (match pool_process p with Some c => N.min c (process_bytes b) | None => process_bytes b end)).
  split_and!; [unfold sat_add in *; lia| |].
  - etrans; [exact Hle|]. apply available_mono. destruct (pool_process p); lia.
  - intros c Hc. rewrite Hc in Hle. etrans; [exact Hle|]. apply available_mono. lia.
Qed.

(** Without leases a failed reservation leaves the pool as it was: only a
    budget that is itself invalid is refused. *)
Lemma empty_pool_unchanged b p' r :
  budget_reserve pool_new b = (p', r) → (∀ lease, r ≠ Ok lease) → p' = pool_new.
Proof.
  intros Hr Hno. destruct (validate b) as [[]|e|] eqn:Hv.
  - destruct (empty_pool_admits b Hv) as (q & lease & Hq). rewrite Hq in Hr. simplify_eq. by destruct (Hno lease).
  - unfold budget_reserve in Hr. rewrite Hv in Hr. by simplify_eq.
  - unfold budget_reserve in Hr. rewrite Hv in Hr. by simplify_eq.
Qed.

Lemma pool_ok_empty p : pool_ok p [] → p = pool_new.
Proof. intros [Ht _ Hf]. destruct p as [pp rb]; cbn in *. by rewrite Ht, Hf. Qed.

Lemma pool_ok_step s s' : pool_step s s' → pool_ok s.1 s.2 → pool_ok s'.1 s'.2.
Proof.
  destruct 1 as [p leases b p' r Hr|p l1 lease l2]; cbn [fst snd]; intros Hok.
  - pose proof Hok as [Ht Hb Hf]. pose proof (reserve_shape p b p' r Hr) as Hshape.
    assert ((∃ lease, r = Ok lease) ∨ ∀ lease, r ≠ Ok lease) as [[lease ->]|Hno'] by (destruct r; [left; eauto|by right..]).
    + destruct Hshape as (He & Ha & _). split; [unfold total in *; cbn [foldr]; lia| |done].
      pose proof (available_u64 (process_bytes b)). lia.
    + assert (reserved_bytes p' = reserved_bytes p) as Heq by (destruct r; [by destruct (Hno' a)|done..]).
      assert (match r with Ok lease => lease :: leases | _ => leases end = leases) as ->
        by (destruct r; [by destruct (Hno' a)|done..]).
      split; [lia|lia|]. intros ->. apply pool_ok_empty in Hok as ->.
      by rewrite (empty_pool_unchanged b p' r Hr Hno').
  - destruct Hok as [Ht Hb Hf]. rewrite total_app in Ht. unfold total in Ht; cbn [foldr] in Ht.
    fold (total l1) in Ht. fold (total l2) in Ht.
    unfold pool_release, sat_sub. split; cbn [reserved_bytes pool_process]; [rewrite total_app; lia|lia|].
    intros [-> ->]%app_eq_nil. cbn in Ht. rewrite decide_True by lia. done.
Qed.

Lemma pool_reachable_ok s : pool_reachable s → pool_ok s.1 s.2.
Proof.
  intros Hr. apply (rtc_ind_r (λ s, pool_ok s.1 s.2) (pool_new, [])) in Hr; [done|by split|].
  intros x y _ Hs Hx. by eapply pool_ok_step.
Qed.

(** C35: In every state the pool counts exactly the live leases; a reservation that
    succeeds keeps their total within three quarters of its own process limit
    and of every limit recorded since the pool was last empty; and with no
    lease alive every valid budget is admitted. *)
Theorem reservations_bounded p leases b p' r :
  pool_reachable (p, leases) → budget_reserve p b = (p', r) →
  reserved_bytes p = total leases ∧
  (∀ lease, r = Ok lease →
    reserved_bytes p' = total (lease :: leases) ∧ total (lease :: leases) ≤ available_bytes (process_bytes b) ∧
    ∀ c, pool_process p = Some c → total (lease :: leases) ≤ available_bytes c) ∧
  (leases = [] → validate b = Ok () → ∃ lease, r = Ok lease).
Proof.
  intros Hok%pool_reachable_ok Hr. cbn in Hok. pose proof Hok as [Ht _ _].
  pose proof (reserve_shape p b p' r Hr) as Hshape. split; [done|]. split.
  - intros lease ->. destruct Hshape as (He & Ha & Hc).
    assert (total (lease :: leases) = reserved_bytes p') as -> by (unfold total in *; cbn [foldr]; lia). done.
  - intros -> Hv. apply pool_ok_empty in Hok as ->.
    destruct (empty_pool_admits b Hv) as (q & lease & Hq). rewrite Hq in Hr. simplify_eq. eauto.
Qed.

Lemma reservations_bounded_witness :
  ∃ lease, (budget_reserve pool_new (budget_default None)).2 = Ok lease.
Proof.
  refine (proj2 (proj2 (reservations_bounded pool_new [] (budget_default None) _ _ (rtc_refl _ _) (surjective_pairing _))) eq_refl _).
  by vm_compute.
Defined.
