(* ===== verification/Cache.v ===== *)
(** * The bounded cache ([src/internal/cache.rs])

    A map with an insertion queue, bounded in entries and in accounted bytes.
    The sizes of the key and entry types and the capacities [std]'s containers
    keep are arguments; what is assumed of a capacity is that an empty container
    shrinks to none. *)

From S2P Require Import Prelude.
#[local] Open Scope N_scope.

Section cache.
Context {K V : Type} `{Countable K}.

(** [size_of] the key, the entry and the bucket. *)
Context (key_size entry_size bucket_size : N).
(** The capacity of a container after an insertion that leaves [n] elements,
    and after [shrink_to_fit] with [n] elements. *)
Context (map_grow map_shrink queue_grow queue_shrink : N → nat → N).

Definition ENTRY_RESERVE : N := 4 * 8.
Definition ALLOCATION_RESERVE : N := 2 * 8.

Record BoundedCache := {
  entries : gmap K (V * N);
  order : list K;
  max_entries : N; max_bytes : N; payload_bytes : N;
  hits : N; misses : N; evictions : N;
  map_capacity : N; queue_capacity : N;
}.

Definition cache_new (max_entries max_bytes : N) : BoundedCache :=
  {| entries := ∅; order := []; max_entries := max_entries; max_bytes := max_bytes; payload_bytes := 0;
     hits := 0; misses := 0; evictions := 0; map_capacity := 0; queue_capacity := 0 |}.

Definition get_cloned (c : BoundedCache) (key : K) : option V * BoundedCache :=
  match entries c !! key with
  | None => (None, {| entries := entries c; order := order c; max_entries := max_entries c;
                      max_bytes := max_bytes c; payload_bytes := payload_bytes c; hits := hits c;
                      misses := sat_add 64 (misses c) 1; evictions := evictions c;
                      map_capacity := map_capacity c; queue_capacity := queue_capacity c |})
  | Some e => (Some e.1, {| entries := entries c; order := order c; max_entries := max_entries c;
                      max_bytes := max_bytes c; payload_bytes := payload_bytes c;
                      hits := sat_add 64 (hits c) 1; misses := misses c; evictions := evictions c;
                      map_capacity := map_capacity c; queue_capacity := queue_capacity c |})
  end.

Definition peek (c : BoundedCache) (key : K) : option V := fst <$> entries c !! key.

Definition entry_reserve : N :=
  sat_add 64 (sat_add 64 (sat_add 64 key_size entry_size) key_size) ENTRY_RESERVE.

Definition len (c : BoundedCache) : N := N.of_nat (size (entries c)).

Definition estimated_bytes (c : BoundedCache) : N :=
  if decide (entries c = ∅) then 0
  else sat_add 64 (sat_add 64 (payload_bytes c) (sat_mul 64 (len c) (sat_mul 64 entry_reserve 2)))
         ALLOCATION_RESERVE.

Definition retained_bytes (c : BoundedCache) : N :=
  if decide (entries c = ∅ ∧ map_capacity c = 0 ∧ queue_capacity c = 0) then 0
  else
    sat_add 64 (sat_add 64 (sat_add 64 (sat_add 64 (payload_bytes c)
      (sat_mul 64 (sat_mul 64 (map_capacity c) 2) (sat_add 64 bucket_size 8)))
      (sat_mul 64 (queue_capacity c) key_size))
      (sat_mul 64 (len c) ENTRY_RESERVE))
      ALLOCATION_RESERVE.

Definition shrink_storage (c : BoundedCache) : BoundedCache :=
  {| entries := entries c; order := order c; max_entries := max_entries c; max_bytes := max_bytes c;
     payload_bytes := payload_bytes c; hits := hits c; misses := misses c; evictions := evictions c;
     map_capacity := map_shrink (map_capacity c) (size (entries c));
     queue_capacity := queue_shrink (queue_capacity c) (length (order c)) |}.

Definition evict_oldest (c : BoundedCache) : BoundedCache :=
  match order c with
  | [] => c
  | key :: rest =>
      match entries c !! key with
      | None => {| entries := entries c; order := rest; max_entries := max_entries c;
                   max_bytes := max_bytes c; payload_bytes := payload_bytes c; hits := hits c;
                   misses := misses c; evictions := evictions c; map_capacity := map_capacity c;
                   queue_capacity := queue_capacity c |}
      | Some e => {| entries := delete key (entries c); order := rest; max_entries := max_entries c;
                     max_bytes := max_bytes c; payload_bytes := sat_sub (payload_bytes c) e.2;
                     hits := hits c; misses := misses c; evictions := sat_add 64 (evictions c) 1;
                     map_capacity := map_capacity c; queue_capacity := queue_capacity c |}
      end
  end.

(** [while cond { body }]; [None] when the fuel runs out. *)
Fixpoint while_do (fuel : nat) (cond : BoundedCache → bool) (body : BoundedCache → BoundedCache)
    (c : BoundedCache) : option BoundedCache :=
  if cond c then match fuel with O => None | S fuel => while_do fuel cond body (body c) end else Some c.

Definition over_limits (c : BoundedCache) : bool :=
  bool_decide (max_entries c < len c ∨ max_bytes c < estimated_bytes c).
Definition over_retained (c : BoundedCache) : bool := bool_decide (max_bytes c < retained_bytes c).

(** The loops evict one queued key per iteration: as much fuel as there are
    queued keys. *)
Definition enforce_limits (c : BoundedCache) : option BoundedCache :=
  c ← while_do (length (order c)) over_limits evict_oldest c;
  c ← (if over_retained c then
         let keep := len c - len c / 8 in
         c ← while_do (length (order c)) (λ c, bool_decide (keep < len c)) evict_oldest c;
         Some (shrink_storage c)
       else Some c);
  while_do (length (order c))
    (λ c, over_retained c && bool_decide (entries c ≠ ∅)) (λ c, shrink_storage (evict_oldest c)) c.

Definition remove (c : BoundedCache) (key : K) : option V * BoundedCache :=
  match entries c !! key with
  | None => (None, c)
  | Some e =>
      let c' := {| entries := delete key (entries c); order := filter (λ k, k ≠ key) (order c);
                   max_entries := max_entries c; max_bytes := max_bytes c;
                   payload_bytes := sat_sub (payload_bytes c) e.2; hits := hits c; misses := misses c;
                   evictions := evictions c; map_capacity := map_capacity c;
                   queue_capacity := queue_capacity c |} in
      (Some e.1,
       if bool_decide (entries c' = ∅) || over_retained c' then shrink_storage c' else c')
  end.

Definition insert (c : BoundedCache) (key : K) (value : V) (bytes : N) : option BoundedCache :=
  if decide (max_entries c = 0 ∨ max_bytes c < sat_add 64 bytes entry_reserve) then Some (remove c key).2
  else
    match entries c !! key with
    | Some previous =>
        enforce_limits
          {| entries := <[key := (value, bytes)]> (entries c); order := order c;
             max_entries := max_entries c; max_bytes := max_bytes c;
             payload_bytes := sat_add 64 (sat_sub (payload_bytes c) previous.2) bytes; hits := hits c;
             misses := misses c; evictions := evictions c; map_capacity := map_capacity c;
             queue_capacity := queue_capacity c |}
    | None =>
        enforce_limits
          {| entries := <[key := (value, bytes)]> (entries c); order := order c ++ [key];
             max_entries := max_entries c; max_bytes := max_bytes c;
             payload_bytes := sat_add 64 (payload_bytes c) bytes; hits := hits c; misses := misses c;
             evictions := evictions c;
             map_capacity := map_grow (map_capacity c) (S (size (entries c)));
             queue_capacity := queue_grow (queue_capacity c) (S (length (order c))) |}
    end.

(** [remove_where]; the predicate sees each key once. *)
Definition remove_where (c : BoundedCache) (predicate : K → bool) : BoundedCache :=
  let kept := filter (λ kv : K * (V * N), predicate kv.1 = false) (entries c) in
  if decide (size kept = size (entries c)) then c
  else shrink_storage
    {| entries := kept; order := filter (λ k, is_Some (kept !! k)) (order c);
       max_entries := max_entries c; max_bytes := max_bytes c;
       payload_bytes := foldr (λ kv n, sat_sub n kv.2.2) (payload_bytes c)
         (map_to_list (filter (λ kv : K * (V * N), predicate kv.1 = true) (entries c)));
       hits := hits c; misses := misses c; evictions := evictions c;
       map_capacity := map_capacity c; queue_capacity := queue_capacity c |}.

(** ** Accounting *)

Definition bytes_of (m : gmap K (V * N)) : N := map_fold (λ _ e n, e.2 + n) 0 m.

Lemma bytes_of_insert m k e : m !! k = None → bytes_of (<[k := e]> m) = e.2 + bytes_of m.
Proof. intros Hk. unfold bytes_of. apply (map_fold_insert_L (λ _ e n, e.2 + n)); [intros; lia|done]. Qed.

Lemma bytes_of_delete m k e : m !! k = Some e → bytes_of m = e.2 + bytes_of (delete k m).
Proof. intros Hk. rewrite <- (insert_delete_id m k e Hk) at 1. apply bytes_of_insert. apply lookup_delete_eq. Qed.

(** The queue lists the keys of the map once each, and the payload is the sum
    of the entries' bytes. *)
Record cache_ok (c : BoundedCache) : Prop := {
  ck_nodup : NoDup (order c);
  ck_keys k : k ∈ order c ↔ is_Some (entries c !! k);
  ck_payload : payload_bytes c = bytes_of (entries c);
}.

Record bounded (c : BoundedCache) : Prop := {
  bd_entries : len c ≤ max_entries c;
  bd_bytes : retained_bytes c ≤ max_bytes c;
}.

Lemma order_length c : cache_ok c → length (order c) = size (entries c).
Proof.
  intros [Hnd Hk _]. rewrite <- (size_dom (D := gset K)), <- (size_list_to_set (C := gset K) (order c) Hnd). f_equal.
  apply set_eq. intros k. rewrite elem_of_list_to_set, Hk, elem_of_dom. done.
Qed.

Lemma order_empty c : cache_ok c → entries c = ∅ → order c = [].
Proof. intros Hc He. apply length_zero_iff_nil. rewrite order_length by done. rewrite He. apply map_size_empty. Qed.

(** [c'] is [c] after its oldest keys were evicted. *)
Record evicted (c c' : BoundedCache) : Prop := {
  ev_order : ∃ l, order c = l ++ order c';
  ev_entries : entries c' ⊆ entries c;
  ev_limits : max_entries c' = max_entries c ∧ max_bytes c' = max_bytes c;
}.

#[local] Instance evicted_preorder : PreOrder evicted.
Proof.
  split.
  - intros c. split; [by exists []|done|done].
  - intros a b c [[l1 H1] He1 [Hm1 Hb1]] [[l2 H2] He2 [Hm2 Hb2]].
    split; [|by etrans|split; congruence]. exists (l1 ++ l2). by rewrite <- app_assoc, <- H2.
Qed.

(** A loop body that evicts one key, and may shrink the storage. *)
Definition evicts_one (body : BoundedCache → BoundedCache) : Prop :=
  ∀ c, cache_ok c → entries c ≠ ∅ → cache_ok (body c) ∧ evicted c (body c) ∧ length (order c) = S (length (order (body c))).

Lemma evict_oldest_ok : evicts_one evict_oldest.
Proof.
  intros c Hc Hne. pose proof Hc as [Hnd Hk Hp]. unfold evict_oldest.
  destruct (order c) as [|k rest] eqn:Eo.
  { exfalso. apply Hne, map_size_empty_iff. rewrite <- order_length by done. by rewrite Eo. }
  apply NoDup_cons in Hnd as [Hnot Hnd]. destruct (proj1 (Hk k)) as [e He]; [by left|]. rewrite He.
  split; [|split; [|done]].
  - split; cbn; [done| |].
    + intros k'. destruct (decide (k' = k)) as [->|Hkk].
      * rewrite lookup_delete_eq. split; [done|by intros []].
      * rewrite lookup_delete_ne by done. rewrite <- Hk, elem_of_cons. naive_solver.
    + rewrite Hp, (bytes_of_delete _ _ _ He). unfold sat_sub. lia.
  - split; cbn; [by exists [k]|apply delete_subseteq|done].
Qed.

Lemma shrink_ok c : cache_ok c → cache_ok (shrink_storage c) ∧ evicted c (shrink_storage c).
Proof. intros []. split; [done|]. split; [by exists []|done|done]. Qed.

Lemma evict_shrink_ok : evicts_one (λ c, shrink_storage (evict_oldest c)).
Proof.
  intros c Hc Hne. destruct (evict_oldest_ok c Hc Hne) as (Hc' & Hev & Hlen).
  destruct (shrink_ok _ Hc') as [Hc'' Hev']. split; [done|]. split; [by etrans|done].
Qed.

(** A loop that evicts while its condition holds ends within as many rounds as
    there are keys. *)
Lemma while_evict (P : BoundedCache → Prop) cond body c :
  evicts_one body → (∀ c, cache_ok c → entries c = ∅ → P c → cond c = false) →
  (∀ c, cache_ok c → P c → entries c ≠ ∅ → P (body c)) →
  cache_ok c → P c →
  ∃ c', while_do (length (order c)) cond body c = Some c' ∧ cache_ok c' ∧ P c' ∧ cond c' = false ∧ evicted c c'.
Proof.
  intros Hbody Hstop Hstep. remember (length (order c)) as n eqn:Hn. revert c Hn.
  induction n as [|n IH]; intros c Hn Hc HP; cbn [while_do].
  - assert (cond c = false) as Hcond.
    { apply Hstop; [done| |done]. apply map_size_empty_iff. by rewrite <- order_length. }
    rewrite Hcond. by exists c.
  - destruct (cond c) eqn:Econd; [|by exists c].
    assert (entries c ≠ ∅) as Hne by (intros He; rewrite Hstop in Econd; done).
    destruct (Hbody c Hc Hne) as (Hc' & Hev & Hlen).
    destruct (IH (body c)) as (c' & Hw & Hc'' & HP' & Hcond & Hev'); [lia|done|by apply Hstep|].
    exists c'. split_and!; try done. by etrans.
Qed.

Section limits.
Context (map_shrink_0 : ∀ c, map_shrink c 0 = 0) (queue_shrink_0 : ∀ c, queue_shrink c 0 = 0).

Lemma shrink_empty_retained c : cache_ok c → entries c = ∅ → retained_bytes (shrink_storage c) = 0.
Proof.
  intros Hc He. unfold retained_bytes, shrink_storage; cbn. rewrite (order_empty c) by done. rewrite He.
  rewrite map_size_empty. cbn [length]. rewrite map_shrink_0, queue_shrink_0. by rewrite decide_True.
Qed.

Definition empty_is_small (c : BoundedCache) : Prop := entries c = ∅ → over_retained c = false.

Lemma shrink_is_small c : cache_ok c → empty_is_small (shrink_storage c).
Proof.
  intros Hc He. unfold over_retained. rewrite shrink_empty_retained by done.
  apply bool_decide_eq_false. lia.
Qed.

Lemma within_limits c : over_limits c = false → len c ≤ max_entries c.
Proof. unfold over_limits. rewrite bool_decide_eq_false. lia. Qed.

Lemma evicted_len c c' : evicted c c' → len c' ≤ len c.
Proof. intros [_ Hsub _]. unfold len. apply map_subseteq_size in Hsub. lia. Qed.

(** The limits are enforced, and only by evicting oldest keys. *)
Lemma enforce_limits_ok c :
  cache_ok c → ∃ c', enforce_limits c = Some c' ∧ cache_ok c' ∧ bounded c' ∧ evicted c c'.
Proof.
  intros Hc. unfold enforce_limits.
  destruct (while_evict (λ _, True) over_limits evict_oldest c evict_oldest_ok) as (c1 & -> & Hc1 & _ & Hlim & Hev1); try done.
  { intros d _ He _. unfold over_limits. apply bool_decide_eq_false. unfold len, estimated_bytes.
    rewrite decide_True by done. rewrite He, map_size_empty. lia. }
  cbn [mbind option_bind].
  assert (∃ c2, (if over_retained c1 then
      c ← while_do (length (order c1)) (λ c, bool_decide (len c1 - len c1 / 8 < len c)) evict_oldest c1;
      Some (shrink_storage c) else Some c1) = Some c2 ∧
    cache_ok c2 ∧ evicted c1 c2 ∧ empty_is_small c2) as (c2 & Hbranch & Hc2 & Hev2 & Hsmall).
  { destruct (over_retained c1) eqn:Eover; [|exists c1; split_and!; try done; by intros _].
    destruct (while_evict (λ _, True) (λ c, bool_decide (len c1 - len c1 / 8 < len c)) evict_oldest c1 evict_oldest_ok)
      as (d & -> & Hd & _ & _ & Hevd); try done.
    { intros d _ He _. apply bool_decide_eq_false. unfold len at 3. rewrite He, map_size_empty. lia. }
    cbn [mbind option_bind]. destruct (shrink_ok d Hd). exists (shrink_storage d).
    split_and!; [done|done|by etrans|by apply shrink_is_small]. }
  cbn zeta in *. rewrite Hbranch. cbn [mbind option_bind].
  destruct (while_evict empty_is_small (λ c, over_retained c && bool_decide (entries c ≠ ∅))
    (λ c, shrink_storage (evict_oldest c)) c2 evict_shrink_ok) as (c3 & -> & Hc3 & Hsmall3 & Hcond & Hev3); try done.
  { intros d _ He _. rewrite (bool_decide_eq_false_2 (entries d ≠ ∅)) by naive_solver. by rewrite andb_false_r. }
  { intros d Hd _ Hne. apply shrink_is_small. by destruct (evict_oldest_ok d Hd Hne). }
  exists c3. split; [done|]. split; [done|]. assert (evicted c c3) as Hev by (etrans; [done|]; by etrans).
  split; [|done]. split.
  - apply within_limits in Hlim. pose proof (evicted_len _ _ Hev2). pose proof (evicted_len _ _ Hev3).
    destruct (ev_limits _ _ Hev2) as [E2 _]. destruct (ev_limits _ _ Hev3) as [E3 _]. lia.
  - assert (over_retained c3 = false) as Hno.
    { apply andb_false_iff in Hcond as [?|Hne%bool_decide_eq_false]; [done|].
      apply Hsmall3. by apply dec_stable. }
    unfold over_retained in Hno. apply bool_decide_eq_false in Hno. lia.
Qed.

(** The accounted bytes of a bounded cache are its payload at least. *)
Lemma payload_bounded c : bounded c → cache_ok c → max_bytes c < u64_max → payload_bytes c ≤ max_bytes c.
Proof.
  intros [_ Hb] Hc Hmax. unfold retained_bytes in Hb. case_decide as He.
  - rewrite (ck_payload _ Hc). destruct He as [-> _]. unfold bytes_of. rewrite map_fold_empty. lia.
  - revert Hb. unfold sat_add at 1 2 3 4. lia.
Qed.

Lemma remove_ok c key :
  cache_ok c → bounded c →
  let c' := (remove c key).2 in
  cache_ok c' ∧ bounded c' ∧ entries c' = delete key (entries c) ∧ order c' = filter (λ k, k ≠ key) (order c).
Proof.
  intros Hc Hb. pose proof Hc as [Hnd Hk Hp]. unfold remove.
  destruct (entries c !! key) as [e|] eqn:He; cbn [snd].
  2: { split_and!; [done|done|by rewrite delete_id|]. symmetry. apply filter_all, Forall_forall.
       intros k Hin ->. apply Hk in Hin as [? ?]. congruence. }
  set (c' := {| entries := delete key (entries c) |}).
  assert (cache_ok c') as Hc'.
  { split; cbn.
    - by apply NoDup_filter.
    - intros k. rewrite list_elem_of_filter, Hk. destruct (decide (k = key)) as [->|].
      + rewrite lookup_delete_eq. split; [naive_solver|by intros []].
      + rewrite lookup_delete_ne by done. naive_solver.
    - rewrite Hp, (bytes_of_delete _ _ _ He). unfold sat_sub. lia. }
  assert (len c' ≤ len c) as Hlen.
  { unfold len, c'; cbn. pose proof (map_subseteq_size _ _ (delete_subseteq (entries c) key)). lia. }
  assert (bounded c') as Hb'.
  { destruct Hb as [Hbe Hbb]. split; [etrans; [exact Hlen|exact Hbe]|]. cbn [max_bytes c'].
    etrans; [|exact Hbb]. unfold retained_bytes; cbn [map_capacity queue_capacity payload_bytes entries c'].
    case_decide; [lia|]. rewrite decide_False by (intros (Hem & _ & _); by rewrite Hem, lookup_empty in He).
    assert (∀ a a' b b', a ≤ a' → b ≤ b' → sat_add 64 a b ≤ sat_add 64 a' b') as Hadd
      by (intros; unfold sat_add; lia).
    repeat apply Hadd; try reflexivity; [unfold sat_sub; lia|].
    unfold sat_mul. apply N.min_le_compat_r, N.mul_le_mono_r. exact Hlen. }
  destruct (bool_decide (entries c' = ∅) || over_retained c') eqn:Eshrink; [|done].
  destruct (shrink_ok c' Hc') as [Hc'' Hev]. split; [done|]. split; [|done].
  destruct Hb' as [Hbe Hbb]. split; [done|].
  assert (entries c' = ∅) as Hem.
  { apply orb_true_iff in Eshrink as [?%bool_decide_eq_true|Hov%bool_decide_eq_true]; [done|lia]. }
  rewrite shrink_empty_retained by done. lia.
Qed.

(** What a cache without the limits would hold after the insertion. *)
Definition inserted (c : BoundedCache) (key : K) (value : V) (bytes : N) : gmap K (V * N) :=
  if decide (max_entries c = 0 ∨ max_bytes c < sat_add 64 bytes entry_reserve)
  then delete key (entries c) else <[key := (value, bytes)]> (entries c).

(** C33: An insertion always returns; afterwards the cache is within both limits
    and its accounting is exact; it holds nothing but the inserted entry and
    entries it held before, and never a stale value of the key; and what it
    dropped to stay within the limits is the oldest part of the queue. *)
Theorem insert_bounded c key value bytes :
  cache_ok c → bounded c → 2 * max_bytes c < u64_max →
  ∃ c', insert c key value bytes = Some c' ∧ cache_ok c' ∧ bounded c' ∧
    entries c' ⊆ inserted c key value bytes ∧
    ∃ dropped, (if decide (is_Some (inserted c key value bytes !! key) ∧ entries c !! key = None)
                then order c ++ [key]
                else filter (λ k, is_Some (inserted c key value bytes !! k)) (order c)) = dropped ++ order c'.
Proof.
  intros Hc Hb Hmax. pose proof Hc as [Hnd Hk Hp]. unfold insert, inserted.
  case_decide as Hsmall.
  { destruct (remove_ok c key Hc Hb) as (Hc' & Hb' & He & Ho). exists (remove c key).2.
    split_and!; [done|done|done|by rewrite He|]. exists []. cbn.
    rewrite decide_False by (intros [[] _]; by rewrite lookup_delete_eq in *).
    rewrite Ho. apply filter_ext_in. intros k Hin%Hk. rewrite lookup_delete_is_Some. naive_solver. }
  assert (bytes ≤ max_bytes c) as Hbytes by (unfold sat_add in Hsmall; lia).
  assert (payload_bytes c ≤ max_bytes c) as Hpay by (apply payload_bounded; [done|done|lia]).
  rewrite lookup_insert_eq.
  destruct (entries c !! key) as [previous|] eqn:He.
  - set (c1 := {| entries := _ |}).
    assert (cache_ok c1) as Hc1.
    { split; cbn; [done| |].
      - intros k. rewrite Hk. destruct (decide (k = key)) as [->|].
        + rewrite lookup_insert_eq, He. split; eauto.
        + by rewrite lookup_insert_ne.
      - rewrite Hp, <- insert_delete_eq, bytes_of_insert, (bytes_of_delete _ _ _ He) by apply lookup_delete_eq. cbn.
        rewrite (bytes_of_delete _ _ _ He) in Hp. unfold sat_add, sat_sub. lia. }
    destruct (enforce_limits_ok c1 Hc1) as (c' & Hen & Hc' & Hb' & [[l Hl] Hsub _]).
    exists c'. split_and!; try done. exists l. rewrite decide_False by (intros [_ ?]; done).
    rewrite <- Hl. apply filter_all, Forall_forall. intros k Hin%(ck_keys _ Hc1). done.
  - set (c1 := {| entries := _ |}).
    assert (cache_ok c1) as Hc1.
    { split; cbn.
      - apply NoDup_app. split; [done|]. split; [|apply NoDup_singleton].
        intros k Hin%Hk ->%list_elem_of_singleton. rewrite He in Hin. by destruct Hin.
      - intros k. rewrite elem_of_app, list_elem_of_singleton, Hk. destruct (decide (k = key)) as [->|].
        + rewrite lookup_insert_eq. naive_solver.
        + rewrite lookup_insert_ne by done. naive_solver.
      - rewrite bytes_of_insert by done. cbn. rewrite <- Hp. unfold sat_add. lia. }
    destruct (enforce_limits_ok c1 Hc1) as (c' & Hen & Hc' & Hb' & [[l Hl] Hsub _]).
    exists c'. split_and!; try done. exists l. rewrite decide_True by eauto. exact Hl.
Qed.
End limits.
End cache.

(** A map of numbers with 8-byte keys and capacities that double. *)
Definition demo_shrink (c : N) (n : nat) : N := N.min c (N.of_nat n).
Definition demo_grow (c : N) (n : nat) : N := if decide (N.of_nat n ≤ c) then c else 2 * N.of_nat n.

Lemma insert_bounded_witness :
  ∃ c, insert 8 24 32 demo_grow demo_shrink demo_grow demo_shrink (cache_new 2 4096) 5 7 16 = Some c ∧
    cache_ok c ∧ bounded 8 32 c ∧ entries c ⊆ inserted 8 24 (cache_new 2 4096) 5 7 16.
Proof.
  destruct (insert_bounded (K := N) (V := N) 8 24 32 demo_grow demo_shrink demo_grow demo_shrink)
    with (c := cache_new (K := N) (V := N) 2 4096) (key := 5) (value := 7) (bytes := 16)
    as (c & Hi & Hc & Hb & He & _).
  - intros c. unfold demo_shrink. lia.
  - intros c. unfold demo_shrink. lia.
  - split; [constructor|intros k; cbn; rewrite lookup_empty; split; [by intros ?%elem_of_nil|by intros []]|done].
  - split; vm_compute; congruence.
  - vm_compute. congruence.
  - exists c. done.
Defined.
