(* ===== verification/QueryView.v ===== *)
(** * Encodings of the query view ([src/internal/store.rs])

    The query view is six sorted index keyspaces over 64-bit query identifiers,
    the counters and the header that say whether they may be read.  This file
    holds its keys, its counters' keys and its header, with the decoders; the
    maintenance of the view is in [IndexUpdate]. *)

From S2P Require Import Prelude Clock Terms Store Codec.

(** [bytes[a..b]] inside the bounds. *)
Definition slice (l : bytes) (a b : nat) : bytes := take (b - a) (drop a l).

(** ** Index keys *)

Abbreviation QueryTermId := N (only parsing).

Record QueryQuad := {
  qq_graph : QueryTermId; qq_subject : QueryTermId;
  qq_predicate : QueryTermId; qq_object : QueryTermId;
}.
#[export] Instance query_quad_eq_dec : EqDecision QueryQuad.
Proof. solve_decision. Defined.
#[export] Program Instance query_quad_countable : Countable QueryQuad :=
  inj_countable' (λ q, (qq_graph q, qq_subject q, qq_predicate q, qq_object q))
    (λ '(g, s, p, o), {| qq_graph := g; qq_subject := s; qq_predicate := p; qq_object := o |}) _.
Next Obligation. by intros []. Qed.

Definition query_index_key (parts : list QueryTermId) : bytes := parts ≫= be_bytes 8.
Definition query_index_prefix (parts : list QueryTermId) : bytes := parts ≫= be_bytes 8.

Definition gspo_key (q : QueryQuad) : bytes :=
  query_index_key [qq_graph q; qq_subject q; qq_predicate q; qq_object q].
Definition gpos_key (q : QueryQuad) : bytes :=
  query_index_key [qq_graph q; qq_predicate q; qq_object q; qq_subject q].
Definition spog_key (q : QueryQuad) : bytes :=
  query_index_key [qq_subject q; qq_predicate q; qq_object q; qq_graph q].
Definition posg_key (q : QueryQuad) : bytes :=
  query_index_key [qq_predicate q; qq_object q; qq_subject q; qq_graph q].
Definition ospg_key (q : QueryQuad) : bytes :=
  query_index_key [qq_object q; qq_subject q; qq_predicate q; qq_graph q].
Definition gosp_key (q : QueryQuad) : bytes :=
  query_index_key [qq_graph q; qq_object q; qq_subject q; qq_predicate q].

Definition index_term_at (l : bytes) (offset : nat) : QueryTermId :=
  of_be_bytes (slice l offset (offset + 8)).

(** [(bytes.len() == 32).then(..)], with the offset of each position. *)
Definition decode_index_key (g s p o : nat) (l : bytes) : option QueryQuad :=
  if decide (length l = 32) then
    Some {| qq_graph := index_term_at l g; qq_subject := index_term_at l s;
            qq_predicate := index_term_at l p; qq_object := index_term_at l o |}
  else None.
Definition decode_gspo_key := decode_index_key 0 8 16 24.
Definition decode_gpos_key := decode_index_key 0 24 8 16.
Definition decode_spog_key := decode_index_key 24 0 8 16.
Definition decode_posg_key := decode_index_key 24 16 0 8.
Definition decode_ospg_key := decode_index_key 24 8 16 0.
Definition decode_gosp_key := decode_index_key 0 16 24 8.

Definition decode_index_count (l : bytes) : option N :=
  if decide (length l = 8) then Some (of_be_bytes l) else None.

Definition decode_source_quad (l : bytes) : option EncodedQuad :=
  if decide (length l = 64) then
    Some {| quad_graph := of_be_bytes (slice l 0 16); quad_subject := of_be_bytes (slice l 16 32);
            quad_predicate := of_be_bytes (slice l 32 48); quad_object := of_be_bytes (slice l 48 64) |}
  else None.

Definition query_quad_fit (q : QueryQuad) : Prop :=
  u64_fit (qq_graph q) ∧ u64_fit (qq_subject q) ∧ u64_fit (qq_predicate q) ∧ u64_fit (qq_object q).

(** ** Counter keys *)

Inductive IndexCounterKey :=
  | Total
  | UnionDuplicateFree
  | Graph (graph : QueryTermId)
  | Predicate (predicate : QueryTermId)
  | GraphPredicate (graph predicate : QueryTermId)
  | PredicateObject (predicate object : QueryTermId)
  | GraphPredicateObject (graph predicate object : QueryTermId).
#[export] Instance counter_key_eq_dec : EqDecision IndexCounterKey.
Proof. solve_decision. Defined.

Definition QV_HEADER_KEY : bytes := [72]%N.
Definition QV_TOTAL_KEY : bytes := [84]%N.
Definition QV_GRAPH_TAG : N := 71.
Definition QV_PREDICATE_TAG : N := 80.
Definition QV_VERSION_TAG : N := 86.
Definition QV_GP_TAG : N := 65.
Definition QV_PO_TAG : N := 79.
Definition QV_GPO_TAG : N := 88.
Definition QV_UNION_TAG : N := 85.
Definition QV_DEBT_TAG : N := 87.
Definition QV_DELTA_TAG : N := 68.

(** [IndexCounterKey::bytes]. *)
Definition counter_bytes (k : IndexCounterKey) : bytes :=
  match k with
  | Total => QV_TOTAL_KEY
  | UnionDuplicateFree => [QV_UNION_TAG]
  | Graph g => QV_GRAPH_TAG :: be_bytes 8 g
  | Predicate p => QV_PREDICATE_TAG :: be_bytes 8 p
  | GraphPredicate g p => QV_GP_TAG :: be_bytes 8 g ++ be_bytes 8 p
  | PredicateObject p o => QV_PO_TAG :: be_bytes 8 p ++ be_bytes 8 o
  | GraphPredicateObject g p o => QV_GPO_TAG :: be_bytes 8 g ++ be_bytes 8 p ++ be_bytes 8 o
  end.

Definition predicate_revision_key (predicate : QueryTermId) : bytes :=
  QV_VERSION_TAG :: be_bytes 8 predicate.
Definition projection_debt_key (debt : N) : bytes := QV_DEBT_TAG :: be_bytes 8 debt.

Inductive CounterKeyRead :=
  | CHeader | CCounter (k : IndexCounterKey) | CRevision | CProjectionDebt | CControl
  | CUnknownTag | CInvalidLength.

Definition decode_counter_key (l : bytes) : CounterKeyRead :=
  match l with
  | [] => CInvalidLength
  | tag :: _ =>
      let n := length l in
      if decide (tag = 72)%N then if decide (n = 1) then CHeader else CInvalidLength
      else if decide (tag = 84)%N then if decide (n = 1) then CCounter Total else CInvalidLength
      else if decide (tag = QV_UNION_TAG) then
        if decide (n = 1) then CCounter UnionDuplicateFree else CInvalidLength
      else if decide (tag = QV_GRAPH_TAG) then
        if decide (n = 9) then CCounter (Graph (index_term_at l 1)) else CInvalidLength
      else if decide (tag = QV_PREDICATE_TAG) then
        if decide (n = 9) then CCounter (Predicate (index_term_at l 1)) else CInvalidLength
      else if decide (tag = QV_VERSION_TAG) then if decide (n = 9) then CRevision else CInvalidLength
      else if decide (tag = QV_GP_TAG) then
        if decide (n = 17) then CCounter (GraphPredicate (index_term_at l 1) (index_term_at l 9))
        else CInvalidLength
      else if decide (tag = QV_PO_TAG) then
        if decide (n = 17) then CCounter (PredicateObject (index_term_at l 1) (index_term_at l 9))
        else CInvalidLength
      else if decide (tag = QV_GPO_TAG) then
        if decide (n = 25) then
          CCounter (GraphPredicateObject (index_term_at l 1) (index_term_at l 9) (index_term_at l 17))
        else CInvalidLength
      else if decide (tag = QV_DEBT_TAG) then if decide (n = 9) then CProjectionDebt else CInvalidLength
      else if decide ((tag = 66%N ∨ tag = 67%N) ∧ n = 1) then CControl
      else if decide (tag = QV_DELTA_TAG ∧ n = 9) then CControl
      else CUnknownTag
  end.

Definition counter_fit (k : IndexCounterKey) : Prop :=
  match k with
  | Total | UnionDuplicateFree => True
  | Graph x | Predicate x => u64_fit x
  | GraphPredicate x y | PredicateObject x y => u64_fit x ∧ u64_fit y
  | GraphPredicateObject x y z => u64_fit x ∧ u64_fit y ∧ u64_fit z
  end.

Definition live_counter_keys (q : QueryQuad) : list IndexCounterKey :=
  [Total; Graph (qq_graph q); Predicate (qq_predicate q);
   GraphPredicate (qq_graph q) (qq_predicate q);
   PredicateObject (qq_predicate q) (qq_object q);
   GraphPredicateObject (qq_graph q) (qq_predicate q) (qq_object q)].

(** ** The header *)

Inductive StoredIndexState := Building | Ready | Failed (reason : string).

Record IndexHeader := {
  active_slot : N; state : StoredIndexState;
  source_epoch : N; index_epoch : N; source_live_quads : N; indexed_quads : N;
  last_build_sequence : N; query_id_generation : N; next_query_id : N;
}.

Definition empty_ready : IndexHeader :=
  {| active_slot := 0; state := Ready; source_epoch := 0; index_epoch := 0;
     source_live_quads := 0; indexed_quads := 0; last_build_sequence := 0;
     query_id_generation := 1; next_query_id := 0 |}.

Definition with_state (h : IndexHeader) (s : StoredIndexState) : IndexHeader :=
  {| active_slot := active_slot h; state := s; source_epoch := source_epoch h;
     index_epoch := index_epoch h; source_live_quads := source_live_quads h;
     indexed_quads := indexed_quads h; last_build_sequence := last_build_sequence h;
     query_id_generation := query_id_generation h; next_query_id := next_query_id h |}.

Definition failed_from (previous : option IndexHeader) (reason : string) : IndexHeader :=
  with_state (default empty_ready previous) (Failed reason).

Definition ready_is_coherent (h : IndexHeader) : bool :=
  match state h with
  | Ready => bool_decide (source_epoch h = index_epoch h ∧ source_live_quads h = indexed_quads h ∧
                          query_id_generation h ≠ 0%N)
  | _ => false
  end.

Definition fits_snapshot (h : IndexHeader) (snapshot_sequence : N) : bool :=
  bool_decide (source_epoch h ≤ snapshot_sequence ∧ index_epoch h ≤ snapshot_sequence ∧
               last_build_sequence h ≤ snapshot_sequence)%N.

Inductive IndexSlot := Primary | Secondary.
Definition decode_slot (value : N) : option IndexSlot :=
  match value with 0%N => Some Primary | 1%N => Some Secondary | _ => None end.
Definition encode_slot (s : IndexSlot) : N := match s with Primary => 0 | Secondary => 1 end.
Definition other_slot (s : IndexSlot) : IndexSlot :=
  match s with Primary => Secondary | Secondary => Primary end.

Definition QV_SCHEMA_VERSION : N := 5.
Definition QV_LEGACY_VERSION : N := 2.
Definition QV_ATOMIC_VERSION : N := 3.
Definition QV_HEADER_MAGIC : bytes := [81; 86; 73; 50]%N.
Definition QV_HEADER_LEN : nat := 71.
Definition QV_LEGACY_LEN : nat := 70.
Definition QV_FAILURE_BYTES : nat := 256.

Definition valid_index_failure (code : string) : bool :=
  bool_decide (string_bytes code ≠ [] ∧ (length (string_bytes code) ≤ QV_FAILURE_BYTES)%nat ∧
    Forall (λ b, (97 ≤ b ≤ 122) ∨ (48 ≤ b ≤ 57) ∨ b = 45 ∨ b = 95)%N (string_bytes code)).

(** The state tag and the failure text that are written. *)
Definition state_tag (s : StoredIndexState) : N :=
  match s with Building => 1 | Ready => 2 | Failed _ => 3 end.
Definition failure_text (s : StoredIndexState) : string :=
  match s with
  | Failed reason => if valid_index_failure reason then reason else "metadata-malformed"
  | _ => ""
  end.

Definition encode_index_header (h : IndexHeader) : bytes :=
  let failure := string_bytes (failure_text (state h)) in
  QV_HEADER_MAGIC ++ be_bytes 4 QV_SCHEMA_VERSION ++ [state_tag (state h)] ++ [0; 0; 0]%N ++
  [active_slot h] ++ be_bytes 8 (source_epoch h) ++ be_bytes 8 (index_epoch h) ++
  be_bytes 8 (source_live_quads h) ++ be_bytes 8 (indexed_quads h) ++
  be_bytes 8 (last_build_sequence h) ++ be_bytes 8 (query_id_generation h) ++
  be_bytes 8 (next_query_id h) ++ be_bytes 2 (N.of_nat (length failure) mod 65536) ++ failure.

Inductive IndexHeaderRead :=
  | HAbsent | HValid (h : IndexHeader) | HLegacy (h : IndexHeader) | HMalformed.

(** A failure text that is not UTF-8 is not a [valid_index_failure] either. *)
Definition decode_state (tag : N) (failure : bytes) : option StoredIndexState :=
  if decide (tag = 1%N ∧ failure = []) then Some Building
  else if decide (tag = 2%N ∧ failure = []) then Some Ready
  else if decide (tag = 3%N ∧ valid_index_failure (bytes_string failure) = true)
  then Some (Failed (bytes_string failure))
  else None.

Definition decode_index_header (l : bytes) : IndexHeaderRead :=
  let tag := default 0%N (l !! 8) in
  if decide ((length l < 12)%nat ∨ slice l 0 4 ≠ QV_HEADER_MAGIC ∨ tag = 0%N ∨
             slice l 9 12 ≠ [0; 0; 0]%N) then HMalformed
  else
    let schema_version := of_be_bytes (slice l 4 8) in
    if decide (schema_version ≠ QV_SCHEMA_VERSION ∧ schema_version ≠ QV_ATOMIC_VERSION ∧
               schema_version ≠ QV_LEGACY_VERSION) then HMalformed
    else
      let legacy := bool_decide (schema_version ≠ QV_SCHEMA_VERSION) in
      let slot := default 0%N (l !! 12) in
      if decide (legacy = false ∧ ((length l < QV_HEADER_LEN)%nat ∨ decode_slot slot = None)) then HMalformed
      else
        let base_len := if legacy then QV_LEGACY_LEN else QV_HEADER_LEN in
        let offset := if legacy then 12 else 13 in
        let active := if legacy then 0%N else slot in
        if decide (length l < base_len)%nat then HMalformed
        else
          let count k := decode_index_count (slice l (offset + 8 * k) (offset + 8 * k + 8)) in
          let failure_len := N.to_nat (of_be_bytes (slice l (offset + 56) (offset + 58))) in
          match count 0, count 1, count 2, count 3, count 4, count 5, count 6 with
          | Some c0, Some c1, Some c2, Some c3, Some c4, Some c5, Some c6 =>
              if decide ((QV_FAILURE_BYTES < failure_len)%nat ∨ length l ≠ (base_len + failure_len)%nat)
              then HMalformed
              else
                match decode_state tag (drop base_len l) with
                | None => HMalformed
                | Some st =>
                    let header :=
                      {| active_slot := active; state := st; source_epoch := c0; index_epoch := c1;
                         source_live_quads := c2; indexed_quads := c3; last_build_sequence := c4;
                         query_id_generation := c5; next_query_id := c6 |} in
                    if legacy then HLegacy header else HValid header
                end
          | _, _, _, _, _, _, _ => HMalformed
          end.

Definition header_fit (h : IndexHeader) : Prop :=
  is_Some (decode_slot (active_slot h)) ∧
  Forall u64_fit [source_epoch h; index_epoch h; source_live_quads h; indexed_quads h;
                  last_build_sequence h; query_id_generation h; next_query_id h].

(** ** Slices of concatenations *)

Lemma slice_skip (x y : bytes) a b :
  (length x ≤ a)%nat → slice (x ++ y) a b = slice y (a - length x) (b - length x).
Proof.
  intros Ha. unfold slice. rewrite drop_app_ge by done. f_equal. lia.
Qed.

Lemma slice_here (x y : bytes) b : length x = b → slice (x ++ y) 0 b = x.
Proof. intros <-. unfold slice. rewrite drop_0, Nat.sub_0_r. by rewrite take_app_length. Qed.

Lemma slice_whole (x : bytes) b : length x = b → slice x 0 b = x.
Proof. intros <-. unfold slice. rewrite drop_0, Nat.sub_0_r. by apply take_ge. Qed.

Lemma slice_length l a b : (b ≤ length l)%nat → length (slice l a b) = (b - a)%nat.
Proof. intros Hb. unfold slice. rewrite length_take, length_drop. lia. Qed.

Lemma slice_byte_list l a b : byte_list l → byte_list (slice l a b).
Proof. intros Hl. unfold slice. by apply Forall_take, Forall_drop. Qed.

Lemma slice_step l a b : (a ≤ b)%nat → slice l a b ++ drop b l = drop a l.
Proof.
  intros Hab. unfold slice. rewrite <- (take_drop (b - a) (drop a l)) at 2. f_equal.
  rewrite drop_drop. f_equal. lia.
Qed.

Lemma slice_join l a b c : (a ≤ b ≤ c)%nat → slice l a b ++ slice l b c = slice l a c.
Proof.
  intros Habc. unfold slice. replace (c - a)%nat with ((b - a) + (c - b))%nat by lia.
  rewrite <- take_take_drop, drop_drop. do 3 f_equal. lia.
Qed.

Lemma slice_one l a x : l !! a = Some x → slice l a (S a) = [x].
Proof.
  intros Hx. unfold slice. replace (S a - a)%nat with 1%nat by lia.
  by rewrite (drop_S l x a Hx).
Qed.

Lemma be_of_slice l a b n :
  byte_list l → (b ≤ length l)%nat → n = (b - a)%nat → be_bytes n (of_be_bytes (slice l a b)) = slice l a b.
Proof.
  intros Hl Hb ->. rewrite <- (slice_length l a b) by done.
  apply be_bytes_of_be. by apply slice_byte_list.
Qed.

Lemma slice_tag x l a b : slice (x :: l) (S a) (S b) = slice l a b.
Proof. done. Qed.

(** Reads a field out of a concatenation of fixed-width fields. *)
Ltac read_slices :=
  repeat first
    [ rewrite slice_here by (by rewrite be_bytes_length)
    | rewrite slice_whole by (by rewrite be_bytes_length)
    | rewrite slice_skip by (rewrite be_bytes_length; lia); rewrite be_bytes_length; cbn [Nat.sub Nat.add] ].

(** ** Index keys are injective and ordered *)

Lemma query_index_key_fields parts :
  query_index_key parts = fields (repeat 8 (length parts)) parts.
Proof.
  induction parts as [|x parts IH]; [done|]. unfold query_index_key in *.
  rewrite bind_cons, IH. done.
Qed.

Lemma parts_fit parts : Forall u64_fit parts → fit (repeat 8 (length parts)) parts.
Proof. induction 1; cbn; [constructor|]. by apply fit_cons. Qed.

Lemma query_index_key_inj xs ys :
  Forall u64_fit xs → Forall u64_fit ys → length xs = length ys →
  query_index_key xs = query_index_key ys → xs = ys.
Proof.
  intros Hx Hy Hl. rewrite !query_index_key_fields, Hl. intros Heq.
  apply (fields_inj _ _ _) in Heq; [done|rewrite <- Hl|]; by apply parts_fit.
Qed.

Lemma query_index_key_cmp xs ys :
  Forall u64_fit xs → Forall u64_fit ys → length xs = length ys →
  list_cmp (query_index_key xs) (query_index_key ys) = list_cmp xs ys.
Proof.
  intros Hx Hy Hl. rewrite !query_index_key_fields, Hl. apply fields_cmp; [rewrite <- Hl|]; by apply parts_fit.
Qed.

(** A prefix of whole identifiers selects exactly the keys that start with
    them. *)
Lemma query_index_prefix_exact xs ys zs :
  Forall u64_fit xs → Forall u64_fit ys → length xs = length ys →
  query_index_prefix xs `prefix_of` query_index_key (ys ++ zs) ↔ xs = ys.
Proof.
  intros Hx Hy Hl. unfold query_index_key. rewrite bind_app.
  split; [|intros ->; by eexists].
  intros [k Hk]. apply query_index_key_inj; try done.
  assert (∀ l, length (l ≫= be_bytes 8) = (length l * 8)%nat) as Hlen.
  { clear. induction l as [|x l IH]; [done|].
    rewrite bind_cons, length_app, be_bytes_length, IH. cbn [length]. lia. }
  symmetry. apply app_inj_1 in Hk as [Heq _]; [done|]. rewrite !Hlen. lia.
Qed.

Lemma query_index_key_length parts : length (query_index_key parts) = (length parts * 8)%nat.
Proof.
  induction parts as [|x parts IH]; [done|]. unfold query_index_key in *.
  rewrite bind_cons, length_app, be_bytes_length, IH. cbn [length]. lia.
Qed.

(** The six orders of the query view, as the source lists them. *)
Definition index_orders : list ((QueryQuad → bytes) * (bytes → option QueryQuad)) :=
  [(gspo_key, decode_gspo_key); (gpos_key, decode_gpos_key); (spog_key, decode_spog_key);
   (posg_key, decode_posg_key); (ospg_key, decode_ospg_key); (gosp_key, decode_gosp_key)].

(** Reads a row back from one of its keys. *)
Ltac solve_decode_key :=
  match goal with
  | Hq : query_quad_fit ?q |- _ => destruct q as [g s p o]; destruct Hq as (Hg & Hs & Hp & Ho); cbn in Hg, Hs, Hp, Ho
  end;
  unfold decode_gspo_key, decode_gpos_key, decode_spog_key,
    decode_posg_key, decode_ospg_key, decode_gosp_key, decode_index_key;
  rewrite decide_True by apply query_index_key_length;
  unfold index_term_at, gspo_key, gpos_key, spog_key, posg_key, ospg_key, gosp_key, query_index_key;
  cbn [mbind list_bind qq_graph qq_subject qq_predicate qq_object Nat.add];
  rewrite ?app_nil_r; read_slices; rewrite !be_round.

(** In each of the six orders a row's key is read back, so no two rows share a
    key. *)
Theorem index_keys_round q :
  query_quad_fit q → Forall (λ '(key, decode), decode (key q) = Some q) index_orders.
Proof.
  intros Hq. repeat constructor; by solve_decode_key.
Qed.

Lemma index_keys_round_witness :
  Forall (λ '(key, decode), decode (key {| qq_graph := 1; qq_subject := 2; qq_predicate := 3; qq_object := 4 |})
    = Some {| qq_graph := 1; qq_subject := 2; qq_predicate := 3; qq_object := 4 |}%N) index_orders.
Proof. apply index_keys_round. by repeat constructor. Defined.

(** ** Counter keys *)

Lemma decode_counter_bytes k : counter_fit k → decode_counter_key (counter_bytes k) = CCounter k.
Proof.
  destruct k; intros Hk; try done; unfold counter_bytes, decode_counter_key;
    cbn [length]; rewrite ?length_app, ?be_bytes_length;
    repeat (rewrite decide_False by done); repeat (rewrite decide_True by done);
    unfold index_term_at; cbn [Nat.add]; rewrite !slice_tag;
    read_slices; rewrite !be_round; naive_solver.
Qed.

Lemma counter_bytes_inj k1 k2 :
  counter_fit k1 → counter_fit k2 → counter_bytes k1 = counter_bytes k2 → k1 = k2.
Proof.
  intros H1 H2 Heq. assert (CCounter k1 = CCounter k2) as [=]; [|done].
  by rewrite <- !decode_counter_bytes, Heq.
Qed.

(** Every key the decoder reads as a counter is that counter's key: the
    counters' keys and the decoder are inverse to each other. *)
Theorem counter_key_round k l :
  counter_fit k → byte_list l → decode_counter_key l = CCounter k ↔ counter_bytes k = l.
Proof.
  intros Hk Hl. split; [|intros <-; by apply decode_counter_bytes].
  intros Hd. destruct l as [|tag l]; [done|]. unfold decode_counter_key, index_term_at in Hd.
  cbn [Nat.add length] in Hd. rewrite !slice_tag in Hd. apply Forall_cons in Hl as [_ Hl].
  repeat case_decide; simplify_eq; cbn [counter_bytes QV_TOTAL_KEY];
    rewrite ?be_of_slice by (done || lia); try (f_equal; rewrite ?app_assoc).
  all: unfold QV_TOTAL_KEY; try by destruct l.
  all: try by apply slice_whole.
  all: rewrite !slice_join by lia; by apply slice_whole.
Qed.

Lemma counter_key_round_witness :
  decode_counter_key (counter_bytes (GraphPredicate 3 700)) = CCounter (GraphPredicate 3 700).
Proof.
  refine (proj2 (counter_key_round _ _ _ _) eq_refl); [done|].
  apply Forall_cons. split; [done|]. apply Forall_app. split; apply be_bytes_byte_list.
Defined.

(** ** The header *)

Lemma failure_text_length s : (length (string_bytes (failure_text s)) ≤ QV_FAILURE_BYTES)%nat.
Proof.
  destruct s as [| |reason]; cbn; try lia.
  destruct (valid_index_failure reason) eqn:E; [|vm_compute; lia].
  by apply bool_decide_eq_true in E as (_ & ? & _).
Qed.

(** What a header becomes when it is written: a failure text outside the
    admitted alphabet is replaced. *)
Definition written_state (s : StoredIndexState) : StoredIndexState :=
  match s with Failed _ => Failed (failure_text s) | _ => s end.

Lemma decode_written_state s :
  decode_state (state_tag s) (string_bytes (failure_text s)) = Some (written_state s).
Proof.
  destruct s as [| |reason]; [done..|]. unfold decode_state, written_state. cbn [state_tag].
  rewrite bytes_string_bytes, !decide_False by (by intros []). rewrite decide_True; [done|].
  split; [done|]. cbn. by destruct (valid_index_failure reason) eqn:E.
Qed.

Lemma header_prefix_length h : length (encode_index_header h) =
  (QV_HEADER_LEN + length (string_bytes (failure_text (state h))))%nat.
Proof. unfold encode_index_header. rewrite !length_app, !be_bytes_length. done. Qed.

Lemma decode_index_count_be x : u64_fit x → decode_index_count (be_bytes 8 x) = Some x.
Proof.
  intros Hx. unfold decode_index_count. rewrite be_bytes_length, decide_True by done. by rewrite be_round.
Qed.

Lemma decode_index_count_slice l a b x :
  byte_list l → (b ≤ length l)%nat → decode_index_count (slice l a b) = Some x → be_bytes 8 x = slice l a b.
Proof.
  intros Hl Hb. unfold decode_index_count. case_decide as Hlen; [|done]. intros [= <-].
  rewrite slice_length in Hlen by done. by apply be_of_slice.
Qed.

Lemma decode_state_written tag failure s :
  byte_list failure → decode_state tag failure = Some s →
  state_tag s = tag ∧ string_bytes (failure_text s) = failure.
Proof.
  intros Hf. unfold decode_state. repeat case_decide; intros [= <-]; try naive_solver.
  destruct_and!. split; [done|]. cbn [failure_text]. case_match; [|done]. by apply string_bytes_bytes_string.
Qed.

(** The positions of an encoded header. *)
Lemma header_slices h (l := encode_index_header h) :
  slice l 0 4 = QV_HEADER_MAGIC ∧ slice l 4 8 = be_bytes 4 QV_SCHEMA_VERSION ∧
  l !! 8 = Some (state_tag (state h)) ∧ slice l 9 12 = [0; 0; 0]%N ∧ l !! 12 = Some (active_slot h) ∧
  slice l 13 21 = be_bytes 8 (source_epoch h) ∧ slice l 21 29 = be_bytes 8 (index_epoch h) ∧
  slice l 29 37 = be_bytes 8 (source_live_quads h) ∧ slice l 37 45 = be_bytes 8 (indexed_quads h) ∧
  slice l 45 53 = be_bytes 8 (last_build_sequence h) ∧
  slice l 53 61 = be_bytes 8 (query_id_generation h) ∧ slice l 61 69 = be_bytes 8 (next_query_id h) ∧
  slice l 69 71 = be_bytes 2 (N.of_nat (length (string_bytes (failure_text (state h)))) mod 65536) ∧
  drop 71 l = string_bytes (failure_text (state h)).
Proof. subst l. unfold encode_index_header. by repeat split. Qed.

(** A header is read back as it was written, as a header of the current
    version; only a failure text outside the admitted alphabet is replaced. *)
Theorem header_round h :
  header_fit h → decode_index_header (encode_index_header h) = HValid (with_state h (written_state (state h))).
Proof.
  intros [[slot Hslot] Hfit]. rewrite !Forall_cons in Hfit. destruct Hfit as (H0 & H1 & H2 & H3 & H4 & H5 & H6 & _).
  pose proof (header_prefix_length h) as Hlen. pose proof (failure_text_length (state h)) as Hf.
  destruct (header_slices h) as (E0 & E1 & E2 & E3 & E4 & E5 & E6 & E7 & E8 & E9 & E10 & E11 & E12 & E13).
  unfold QV_HEADER_LEN, QV_FAILURE_BYTES in *.
  unfold decode_index_header. rewrite E0, E1, E2, E3, E4. cbn [default].
  rewrite decide_False by (intros [?|[?|[Ht|?]]]; [lia|done|by destruct (state h)|done]).
  rewrite be_round by done. rewrite decide_False by naive_solver.
  rewrite bool_decide_eq_false_2 by naive_solver. unfold id.
  rewrite decide_False by (unfold QV_HEADER_LEN; rewrite Hslot; intros [_ [?|?]]; [lia|done]).
  unfold QV_HEADER_LEN. rewrite decide_False by lia. cbn [Nat.add Nat.mul].
  rewrite E5, E6, E7, E8, E9, E10, E11, E12, E13.
  rewrite !decode_index_count_be by done.
  assert (N.of_nat (length (string_bytes (failure_text (state h)))) mod 65536 =
    N.of_nat (length (string_bytes (failure_text (state h)))))%N as -> by (apply N.mod_small; lia).
  rewrite be_round by (cbn; lia). rewrite Nat2N.id.
  rewrite decide_False by (unfold QV_FAILURE_BYTES; lia). by rewrite decode_written_state.
Qed.

Lemma header_round_witness :
  decode_index_header (encode_index_header (with_state empty_ready (Failed "Oops"))) =
    HValid (with_state empty_ready (Failed "metadata-malformed")).
Proof. refine (header_round _ _). split; [by exists Primary|by repeat constructor]. Defined.

(** A header that is accepted as current is the encoding of what was read: no
    second byte string stands for the same header. *)
Theorem header_canonical l h :
  byte_list l → decode_index_header l = HValid h → encode_index_header h = l.
Proof.
  intros Hl. unfold decode_index_header, QV_HEADER_LEN, QV_FAILURE_BYTES.
  destruct (decide _) as [|Hpre]; [done|]. destruct (decide _) as [|Hver]; [done|].
  destruct (bool_decide _) eqn:Elegacy; [|apply bool_decide_eq_false, dec_stable in Elegacy].
  { repeat (case_match; try done). }
  destruct (decide (false = false ∧ _)) as [|Hslot]; [done|].
  destruct (decide (length l < 71)%nat) as [|Hlen]; [done|]. cbn [Nat.add Nat.mul].
  repeat match goal with
  | |- match decode_index_count ?x with _ => _ end = _ → _ =>
      let E := fresh "Ec" in destruct (decode_index_count x) eqn:E; [|done];
      apply decode_index_count_slice in E; [|done|lia]
  end.
  destruct (decide _) as [|Hflen]; [done|].
  destruct (decode_state _ _) as [s|] eqn:Estate; [|done]. intros [= <-].
  apply decode_state_written in Estate as [Htag Hfail]; [|by apply Forall_drop].
  unfold encode_index_header; cbn [state active_slot source_epoch index_epoch source_live_quads
    indexed_quads last_build_sequence query_id_generation next_query_id].
  rewrite Ec, Ec0, Ec1, Ec2, Ec3, Ec4, Ec5, Htag, Hfail.
  destruct (lookup_lt_is_Some_2 l 8) as [x8 E8]; [lia|].
  destruct (lookup_lt_is_Some_2 l 12) as [x12 E12]; [lia|]. rewrite E8, E12. unfold default, id.
  assert (length (drop 71 l) = N.to_nat (of_be_bytes (slice l 69 71))) as Hrest.
  { rewrite length_drop. lia. }
  rewrite Hrest, N2Nat.id, N.mod_small by (pose proof (of_be_bytes_lt (slice l 69 71)) as Hlt;
    rewrite slice_length in Hlt by lia; apply Hlt, slice_byte_list, Hl).
  rewrite <- Elegacy, !be_of_slice by (done || lia).
  assert (slice l 0 4 = QV_HEADER_MAGIC) as <- by (apply dec_stable; tauto).
  assert (slice l 9 12 = [0; 0; 0]%N) as <- by (apply dec_stable; tauto).
  rewrite <- (slice_one l 8 x8 E8), <- (slice_one l 12 x12 E12).
  rewrite !slice_step by lia. apply drop_0.
Qed.

Lemma header_canonical_witness :
  encode_index_header empty_ready = encode_index_header empty_ready.
Proof.
  refine (header_canonical _ empty_ready _ _); [|by vm_compute].
  by vm_compute; repeat constructor.
Defined.
