(* ===== verification/IndexUpdate.v ===== *)
(** * Maintenance of the query view ([src/internal/store.rs])

    A commit turns the liveness changes of its batch into net transitions and
    brings the six indexes, the identifier maps, the counters and the header up
    to date.  [stage_index_update] is that step.  The keyspaces are byte maps;
    records encoded by [postcard] (the build record and the deltas of a running
    build) are kept as values. *)

From S2P Require Import Prelude Clock Terms Store Codec QueryView.

(** ** Net transitions *)

Record NetQuadTransition := { t_quad : EncodedQuad; was_live : bool; is_live : bool }.

Definition coalesce_step (transitions : gmap EncodedQuad NetQuadTransition) (m : QuadMutation)
    : gmap EncodedQuad NetQuadTransition :=
  let '(quad, live) := match m with MutInsert q => (q, true) | MutRemove q => (q, false) end in
  match transitions !! quad with
  | Some existing =>
      <[quad := {| t_quad := t_quad existing; was_live := was_live existing; is_live := live |}]> transitions
  | None => <[quad := {| t_quad := quad; was_live := negb live; is_live := live |}]> transitions
  end.

(** The map is keyed by [quad_key] bytes, whose order is the order of the
    quads. *)
Definition coalesced_transitions (mutations : list QuadMutation) : list NetQuadTransition :=
  filter (λ t, was_live t ≠ is_live t)
    ((btree_iter (foldl coalesce_step ∅ mutations)).*2).

(** ** Keyspaces *)

Record IndexSpaces := {
  gspo : gmap bytes bytes; gpos : gmap bytes bytes; spog : gmap bytes bytes;
  posg : gmap bytes bytes; ospg : gmap bytes bytes; gosp : gmap bytes bytes;
  term_to_query : gmap bytes bytes; query_to_term : gmap bytes bytes;
  meta : gmap bytes bytes;
}.

Inductive QueryBuildPhase := PhaseClear | PhaseScan | PhaseReplay | PhaseVerify.

Record QueryBuildRecord := {
  build_format : N; build_slot : N; build_source_sequence : N; build_source_epoch : N;
  control_digest : bytes; trusted_active : bool; scan_cursor : option bytes;
  replay_cursor : N; next_delta : N; delta_rows : N; delta_bytes : N;
  build_phase : QueryBuildPhase; build_target : option N;
}.

Record QueryCleanupRecord := { cleanup_format : N; cleanup_slot : N }.

Record QueryViews := {
  primary : IndexSpaces; secondary : IndexSpaces;
  build : option QueryBuildRecord;
  build_deltas : gmap N (list NetQuadTransition);
  cleanup : option QueryCleanupRecord;
}.

Definition query_spaces (v : QueryViews) (slot : IndexSlot) : IndexSpaces :=
  match slot with Primary => primary v | Secondary => secondary v end.
Definition set_spaces (v : QueryViews) (slot : IndexSlot) (sp : IndexSpaces) : QueryViews :=
  match slot with
  | Primary => {| primary := sp; secondary := secondary v; build := build v;
                  build_deltas := build_deltas v; cleanup := cleanup v |}
  | Secondary => {| primary := primary v; secondary := sp; build := build v;
                    build_deltas := build_deltas v; cleanup := cleanup v |}
  end.

Definition set_meta (sp : IndexSpaces) (m : gmap bytes bytes) : IndexSpaces :=
  {| gspo := gspo sp; gpos := gpos sp; spog := spog sp; posg := posg sp; ospg := ospg sp;
     gosp := gosp sp; term_to_query := term_to_query sp; query_to_term := query_to_term sp; meta := m |}.

(** The header lives in the metadata of the primary slot. *)
Definition stage_index_header (v : QueryViews) (h : IndexHeader) : QueryViews :=
  set_spaces v Primary (set_meta (primary v) (<[QV_HEADER_KEY := encode_index_header h]> (meta (primary v)))).
Definition stage_index_failure (v : QueryViews) (previous : option IndexHeader) (reason : string) : QueryViews :=
  stage_index_header v (failed_from previous reason).

Definition snapshot_index_header (v : QueryViews) : outcome StoreError IndexHeaderRead :=
  match meta (primary v) !! QV_HEADER_KEY with
  | None => Ok HAbsent
  | Some l =>
      if decide ((8 ≤ length l)%nat ∧ slice l 0 4 = QV_HEADER_MAGIC ∧
                 (QV_SCHEMA_VERSION < of_be_bytes (slice l 4 8))%N)
      then Err (UnsupportedIndexFormat (of_be_bytes (slice l 4 8)) QV_SCHEMA_VERSION)
      else Ok (decode_index_header l)
  end.

(** The view of a store without live quads and without derived rows, as it is
    first written. *)
Definition no_rows : IndexSpaces :=
  {| gspo := ∅; gpos := ∅; spog := ∅; posg := ∅; ospg := ∅; gosp := ∅;
     term_to_query := ∅; query_to_term := ∅; meta := ∅ |}.
Definition no_views : QueryViews :=
  {| primary := no_rows; secondary := no_rows; build := None; build_deltas := ∅; cleanup := None |}.
Definition init_views : QueryViews :=
  let v := stage_index_header no_views empty_ready in
  set_spaces v Primary (set_meta (primary v)
    (<[counter_bytes UnionDuplicateFree := be_bytes 8 1]> (<[QV_TOTAL_KEY := be_bytes 8 0]> (meta (primary v))))).

(** ** Reads of one slot *)

Inductive IndexCounterRead := Missing | Value (n : N) | CounterMalformed.

Definition read_count (value : option bytes) : IndexCounterRead :=
  match value with
  | None => Missing
  | Some value => match decode_index_count value with Some n => Value n | None => CounterMalformed end
  end.
Definition query_index_counter (sp : IndexSpaces) (key : IndexCounterKey) : IndexCounterRead :=
  read_count (meta sp !! counter_bytes key).
Definition query_revision (sp : IndexSpaces) (predicate : QueryTermId) : IndexCounterRead :=
  read_count (meta sp !! predicate_revision_key predicate).

(** [snapshot.prefix(keyspace, prefix).next().is_some()]. *)
Definition prefix_nonempty (space : gmap bytes bytes) (pre : bytes) : bool :=
  bool_decide (Exists (λ kv, pre `prefix_of` kv.1) (map_to_list space)).

Definition counter_has_rows (sp : IndexSpaces) (key : IndexCounterKey) : bool :=
  match key with
  | Graph g => prefix_nonempty (gpos sp) (query_index_prefix [g])
  | Predicate p => prefix_nonempty (posg sp) (query_index_prefix [p])
  | GraphPredicate g p => prefix_nonempty (gpos sp) (query_index_prefix [g; p])
  | PredicateObject p o => prefix_nonempty (posg sp) (query_index_prefix [p; o])
  | GraphPredicateObject g p o => prefix_nonempty (gpos sp) (query_index_prefix [g; p; o])
  | Total | UnionDuplicateFree => true
  end.

Definition index_spo_exists (sp : IndexSpaces) (q : QueryQuad) : bool :=
  prefix_nonempty (spog sp) (take 24 (spog_key q)).

Definition adjusted_counter (current : N) (delta : Z) : option N :=
  if decide (0 ≤ delta)%Z then
    if decide (delta < 2 ^ 64)%Z then checked_add 64 current (Z.to_N delta) else None
  else if decide (- delta < 2 ^ 64)%Z then
    if decide (Z.to_N (- delta) ≤ current)%N then Some (current - Z.to_N (- delta))%N else None
  else None.

(** ** Query identifiers *)

Record TermResolver := {
  allow_allocate : bool;
  resolved : gmap TermId QueryTermId;
  mappings : list (TermId * QueryTermId);
  resolver_next : N;
}.

Definition with_allow (r : TermResolver) (b : bool) : TermResolver :=
  {| allow_allocate := b; resolved := resolved r; mappings := mappings r; resolver_next := resolver_next r |}.

(** [Err ()] is the source's [Ok(None)]: the view cannot be maintained. *)
Definition resolve_query_term (sp : IndexSpaces) (term : TermId) (r : TermResolver)
    : outcome () (QueryTermId * TermResolver) :=
  match resolved r !! term with
  | Some query => Ok (query, r)
  | None =>
      match term_to_query sp !! be_bytes 16 term with
      | Some value =>
          if decide (length value = 8) then
            let query := of_be_bytes value in
            if decide (resolver_next r ≤ query)%N then Err ()
            else match query_to_term sp !! be_bytes 8 query with
                 | None => Err ()
                 | Some reverse =>
                     if decide (reverse ≠ be_bytes 16 term) then Err ()
                     else Ok (query, {| allow_allocate := allow_allocate r;
                                        resolved := <[term := query]> (resolved r);
                                        mappings := mappings r; resolver_next := resolver_next r |})
                 end
          else Err ()
      | None =>
          if allow_allocate r then
            let query := resolver_next r in
            match checked_add 64 (resolver_next r) 1 with
            | None => Err ()
            | Some next =>
                match query_to_term sp !! be_bytes 8 query with
                | Some _ => Err ()
                | None => Ok (query, {| allow_allocate := allow_allocate r;
                                        resolved := <[term := query]> (resolved r);
                                        mappings := mappings r ++ [(term, query)];
                                        resolver_next := next |})
                end
            end
          else Err ()
      end
  end.

(** ** The update plan *)

Definition space_keys (sp : IndexSpaces) (q : QueryQuad) : list (gmap bytes bytes * bytes) :=
  [(gspo sp, gspo_key q); (gpos sp, gpos_key q); (spog sp, spog_key q);
   (posg sp, posg_key q); (ospg sp, ospg_key q); (gosp sp, gosp_key q)].

Definition row_present (value : option bytes) : outcome () bool :=
  match value with None => Ok false | Some [] => Ok true | Some _ => Err () end.

(** Whether the row is already as desired in every index, and whether it is in
    the prior state in every index. *)
Definition row_state (sp : IndexSpaces) (q : QueryQuad) (live : bool) : outcome () (bool * bool) :=
  try_fold (λ (acc : bool * bool) (sk : gmap bytes bytes * bytes),
    present ← row_present (sk.1 !! sk.2);
    Ok (acc.1 && bool_decide (present = live), acc.2 && bool_decide (present ≠ live)))
  (true, true) (space_keys sp q).

Definition plan_transition (sp : IndexSpaces) (acc : TermResolver * list (QueryQuad * bool))
    (t : NetQuadTransition) : outcome () (TermResolver * list (QueryQuad * bool)) :=
  let r := with_allow acc.1 (is_live t) in
  '(g, r) ← resolve_query_term sp (quad_graph (t_quad t)) r;
  '(s, r) ← resolve_query_term sp (quad_subject (t_quad t)) r;
  '(p, r) ← resolve_query_term sp (quad_predicate (t_quad t)) r;
  '(o, r) ← resolve_query_term sp (quad_object (t_quad t)) r;
  let quad := {| qq_graph := g; qq_subject := s; qq_predicate := p; qq_object := o |} in
  '(already_desired, prior_state_all) ← row_state sp quad (is_live t);
  if already_desired : bool then Ok (r, acc.2)
  else if negb prior_state_all then Err ()
  else Ok (r, acc.2 ++ [(quad, is_live t)]).

Definition spo_of (q : QueryQuad) : N * N * N := (qq_subject q, qq_predicate q, qq_object q).

Fixpoint insertions_unique (sp : IndexSpaces) (new_terms : gset QueryTermId)
    (inserted : gset (N * N * N)) (transitions : list (QueryQuad * bool)) : bool :=
  match transitions with
  | [] => true
  | (q, live) :: l =>
      if negb live then insertions_unique sp new_terms inserted l
      else if decide (spo_of q ∈ inserted) then false
      else if decide (qq_subject q ∈ new_terms ∨ qq_predicate q ∈ new_terms ∨ qq_object q ∈ new_terms)
      then insertions_unique sp new_terms ({[spo_of q]} ∪ inserted) l
      else if index_spo_exists sp q then false
      else insertions_unique sp new_terms ({[spo_of q]} ∪ inserted) l
  end.
Definition insertions_keep_union (sp : IndexSpaces) (transitions : list (QueryQuad * bool))
    (new_terms : gset QueryTermId) : bool :=
  insertions_unique sp new_terms ∅ transitions.

Definition transition_keeps_union (sp : IndexSpaces) (transition : QueryQuad * bool)
    (mappings : list (TermId * QueryTermId)) : bool :=
  let q := transition.1 in
  if negb transition.2 then true
  else if bool_decide (Exists (λ m, m.2 = qq_subject q ∨ m.2 = qq_predicate q ∨ m.2 = qq_object q) mappings)
  then true
  else negb (index_spo_exists sp q).

(** The [i128] sum of the deltas of each counter. *)
Definition add_delta (deltas : gmap bytes (IndexCounterKey * Z)) (counter : IndexCounterKey) (delta : Z)
    : outcome () (gmap bytes (IndexCounterKey * Z)) :=
  let entry := default (counter, 0%Z) (deltas !! counter_bytes counter) in
  let next := (entry.2 + delta)%Z in
  if decide (- 2 ^ 127 ≤ next < 2 ^ 127)%Z then Ok (<[counter_bytes counter := (entry.1, next)]> deltas)
  else Err ().

Definition counter_deltas (transitions : list (QueryQuad * bool))
    : outcome () (gmap bytes (IndexCounterKey * Z)) :=
  try_fold (λ deltas (t : QueryQuad * bool),
    try_fold (λ deltas counter, add_delta deltas counter (if t.2 then 1 else -1)%Z)
      deltas (live_counter_keys t.1)) ∅ transitions.

Abbreviation IndexCounterUpdate := (IndexCounterKey * option N)%type (only parsing).

Definition is_total (k : IndexCounterKey) : bool := match k with Total => true | _ => false end.

Definition counter_update (sp : IndexSpaces) (cd : IndexCounterKey * Z) : outcome () IndexCounterUpdate :=
  let '(counter, delta) := cd in
  let has_rows := negb (is_total counter) && counter_has_rows sp counter in
  current ← match query_index_counter sp counter with
            | Missing => if is_total counter then Err () else if has_rows then Err () else Ok 0%N
            | Value value =>
                if is_total counter || (bool_decide (value ≠ 0%N) && has_rows) then Ok value else Err ()
            | CounterMalformed => Err ()
            end;
  next ← ok_or () (adjusted_counter current delta);
  Ok (counter, if is_total counter || bool_decide (next ≠ 0%N) then Some next else None).

(** The revisions of the touched predicates, a hash set in the source. *)
Definition revision_update (sp : IndexSpaces) (predicate : QueryTermId) : outcome () (QueryTermId * N) :=
  current ← match query_revision sp predicate with
            | Missing => Ok 0%N | Value value => Ok value | CounterMalformed => Err ()
            end;
  next ← ok_or () (checked_add 64 current 1);
  Ok (predicate, next).

Record IndexUpdatePlan := {
  plan_slot : IndexSlot;
  plan_transitions : list (QueryQuad * bool);
  plan_mappings : list (TermId * QueryTermId);
  plan_counters : list IndexCounterUpdate;
  plan_revisions : list (QueryTermId * N);
  plan_header : option IndexHeader;
}.

(** The part of the plan after the rows are known. *)
Definition plan_counts (sp : IndexSpaces) (header : IndexHeader) (slot : IndexSlot) (total : N)
    (r : TermResolver) (transitions : list (QueryQuad * bool)) : outcome () IndexUpdatePlan :=
  union_duplicate_free ← match query_index_counter sp UnionDuplicateFree with
                         | Value 0 => Ok false | Value 1 => Ok true | _ => Err ()
                         end;
  let preserved := negb union_duplicate_free ||
    match transitions with
    | [t] => transition_keeps_union sp t (mappings r)
    | _ => insertions_keep_union sp transitions (list_to_set (mappings r).*2)
    end in
  deltas ← counter_deltas transitions;
  counters ← try_map (counter_update sp) (btree_iter deltas).*2;
  revisions ← try_map (revision_update sp)
    (elements (list_to_set ((λ t : QueryQuad * bool, qq_predicate t.1) <$> transitions) : gset N));
  let counters := if union_duplicate_free && negb preserved
                  then counters ++ [(UnionDuplicateFree, Some 0%N)] else counters in
  let total_delta := default 0%Z (snd <$> deltas !! QV_TOTAL_KEY) in
  live ← ok_or () (adjusted_counter (source_live_quads header) total_delta);
  indexed ← ok_or () (adjusted_counter (indexed_quads header) total_delta);
  epoch ← ok_or () (checked_add 64 (source_epoch header) 1);
  updated_total ← ok_or () (list_find (λ u : IndexCounterUpdate, is_total u.1 = true) counters ≫= λ iu, iu.2.2);
  if decide (total ≠ indexed_quads header ∨ updated_total ≠ indexed ∨ live ≠ indexed) then Err ()
  else Ok {| plan_slot := slot; plan_transitions := transitions; plan_mappings := mappings r;
             plan_counters := counters; plan_revisions := revisions;
             plan_header := Some
               {| active_slot := active_slot header; state := Ready; source_epoch := epoch;
                  index_epoch := epoch; source_live_quads := live; indexed_quads := indexed;
                  last_build_sequence := last_build_sequence header;
                  query_id_generation := query_id_generation header;
                  next_query_id := resolver_next r |} |}.

Definition plan_index_update (v : QueryViews) (header : IndexHeader) (transitions : list NetQuadTransition)
    : outcome () IndexUpdatePlan :=
  slot ← ok_or () (decode_slot (active_slot header));
  let sp := query_spaces v slot in
  total ← match query_index_counter sp Total with
          | Value total => if decide (total = indexed_quads header) then Ok total else Err ()
          | _ => Err ()
          end;
  '(r, query_transitions) ← try_fold (plan_transition sp)
    ({| allow_allocate := false; resolved := ∅; mappings := []; resolver_next := next_query_id header |}, [])
    transitions;
  if decide (query_transitions = []) then
    Ok {| plan_slot := slot; plan_transitions := []; plan_mappings := mappings r; plan_counters := [];
          plan_revisions := []; plan_header := None |}
  else plan_counts sp header slot total r query_transitions.

(** ** Staging *)

Definition put_mapping (sp : IndexSpaces) (m : TermId * QueryTermId) : IndexSpaces :=
  {| gspo := gspo sp; gpos := gpos sp; spog := spog sp; posg := posg sp; ospg := ospg sp; gosp := gosp sp;
     term_to_query := <[be_bytes 16 m.1 := be_bytes 8 m.2]> (term_to_query sp);
     query_to_term := <[be_bytes 8 m.2 := be_bytes 16 m.1]> (query_to_term sp); meta := meta sp |}.

Definition put_row (live : bool) (key : bytes) (space : gmap bytes bytes) : gmap bytes bytes :=
  if live then <[key := []]> space else delete key space.
Definition put_rows (sp : IndexSpaces) (t : QueryQuad * bool) : IndexSpaces :=
  let '(q, live) := t in
  {| gspo := put_row live (gspo_key q) (gspo sp); gpos := put_row live (gpos_key q) (gpos sp);
     spog := put_row live (spog_key q) (spog sp); posg := put_row live (posg_key q) (posg sp);
     ospg := put_row live (ospg_key q) (ospg sp); gosp := put_row live (gosp_key q) (gosp sp);
     term_to_query := term_to_query sp; query_to_term := query_to_term sp; meta := meta sp |}.

Definition put_counter (m : gmap bytes bytes) (u : IndexCounterUpdate) : gmap bytes bytes :=
  match u.2 with
  | Some value => <[counter_bytes u.1 := be_bytes 8 value]> m
  | None => delete (counter_bytes u.1) m
  end.
Definition put_revision (m : gmap bytes bytes) (u : QueryTermId * N) : gmap bytes bytes :=
  <[predicate_revision_key u.1 := be_bytes 8 u.2]> m.

Definition plan_spaces (sp : IndexSpaces) (plan : IndexUpdatePlan) : IndexSpaces :=
  let sp := foldl put_mapping sp (plan_mappings plan) in
  let sp := foldl put_rows sp (plan_transitions plan) in
  set_meta sp (foldl put_revision (foldl put_counter (meta sp) (plan_counters plan)) (plan_revisions plan)).

Definition stage_index_plan (v : QueryViews) (plan : IndexUpdatePlan) : QueryViews :=
  let v := set_spaces v (plan_slot plan) (plan_spaces (query_spaces v (plan_slot plan)) plan) in
  match plan_header plan with Some h => stage_index_header v h | None => v end.

(** The length of a delta record's [postcard] encoding is an argument. *)
Section staging.
Context (postcard_len : list NetQuadTransition → N).

Definition QV_DELTA_ROWS : N := 65536.
Definition QV_DELTA_BYTES : N := 64 * 1048576.

Definition query_build (v : QueryViews) : outcome StoreError (option QueryBuildRecord) :=
  match build v with
  | None => Ok None
  | Some b =>
      if decide (QV_SCHEMA_VERSION < build_format b)%N
      then Err (UnsupportedIndexFormat (build_format b) QV_SCHEMA_VERSION)
      else Ok (if decide (build_format b = QV_SCHEMA_VERSION) then Some b else None)
  end.

Definition stage_query_delta (v : QueryViews) (transitions : list NetQuadTransition)
    : outcome StoreError QueryViews :=
  b ← query_build v;
  match b with
  | None => Ok v
  | Some b =>
      match build_phase b, transitions with
      | PhaseClear, _ => Ok v
      | _, [] => Ok v
      | _, _ =>
          let next_rows := sat_add 64 (delta_rows b) (N.of_nat (length transitions)) in
          let next_bytes := sat_add 64 (delta_bytes b) (postcard_len transitions) in
          if decide (QV_DELTA_ROWS < next_rows ∨ QV_DELTA_BYTES < next_bytes)%N then
            Ok {| primary := primary v; secondary := secondary v; build := None;
                  build_deltas := build_deltas v;
                  cleanup := Some {| cleanup_format := QV_SCHEMA_VERSION; cleanup_slot := build_slot b |} |}
          else
            next ← ok_or QueryIndexCapacity (checked_add 64 (next_delta b) 1);
            Ok {| primary := primary v; secondary := secondary v;
                  build := Some
                    {| build_format := build_format b; build_slot := build_slot b;
                       build_source_sequence := build_source_sequence b;
                       build_source_epoch := build_source_epoch b;
                       control_digest := control_digest b; trusted_active := trusted_active b;
                       scan_cursor := scan_cursor b; replay_cursor := replay_cursor b; next_delta := next;
                       delta_rows := next_rows; delta_bytes := next_bytes; build_phase := build_phase b;
                       build_target := build_target b |};
                  build_deltas := <[next_delta b := transitions]> (build_deltas v); cleanup := cleanup v |}
      end
  end.

Definition stage_index_update (v : QueryViews) (seqno : N) (mutations : list QuadMutation)
    : outcome StoreError QueryViews :=
  let transitions := coalesced_transitions mutations in
  active ← query_build v;
  header ← snapshot_index_header v;
  let v' :=
    match header with
    | HAbsent | HLegacy _ => v
    | HMalformed => match active with None => stage_index_failure v None "metadata-malformed" | Some _ => v end
    | HValid header =>
        match state header with
        | Building | Failed _ => v
        | Ready =>
            if negb (ready_is_coherent header) || negb (fits_snapshot header seqno)
            then stage_index_failure v (Some header) "ready-metadata-inconsistent"
            else match plan_index_update v header transitions with
                 | Ok plan => stage_index_plan v plan
                 | _ => stage_index_failure v (Some header) "maintenance-anomaly"
                 end
        end
    end in
  stage_query_delta v' transitions.
End staging.
