(* ===== verification/Transitions.v ===== *)
(** * Net transitions of a batch

    Every write of a batch that makes a quad live or dead leaves a mutation
    behind; [coalesced_transitions] reduces the list to one entry per quad.
    The result is exactly the difference between the store before and the
    store after the commit. *)

From S2P Require Import Prelude Clock Terms Store Replication Convergence QueryView IndexUpdate.

Definition live_set (st : Store) : gset EncodedQuad :=
  dom (filter (λ kv : EncodedQuad * list Dot, kv.2 ≠ []) (quads st)).

Lemma elem_of_live_set st q : q ∈ live_set st ↔ read_quad_dots st q ≠ [].
Proof.
  unfold live_set, read_quad_dots. rewrite elem_of_dom. split.
  - intros [dots [Hq Hne]%map_lookup_filter_Some]. by rewrite Hq.
  - destruct (quads st !! q) as [dots|] eqn:E; [|done]. intros Hne. exists dots.
    by apply map_lookup_filter_Some.
Qed.

(** ** Mutation lists *)

Definition mutate (live : gset EncodedQuad) (m : QuadMutation) : gset EncodedQuad :=
  match m with MutInsert q => {[q]} ∪ live | MutRemove q => live ∖ {[q]} end.

(** Every mutation of the list changes the liveness of its quad. *)
Inductive mutates : gset EncodedQuad → list QuadMutation → gset EncodedQuad → Prop :=
  | mutates_nil live : mutates live [] live
  | mutates_insert live ms live' q :
      mutates live ms live' → q ∉ live' → mutates live (ms ++ [MutInsert q]) ({[q]} ∪ live')
  | mutates_remove live ms live' q :
      mutates live ms live' → q ∈ live' → mutates live (ms ++ [MutRemove q]) (live' ∖ {[q]}).

(** The table of transitions after a prefix of the mutations. *)
Definition table_ok (live live' : gset EncodedQuad) (table : gmap EncodedQuad NetQuadTransition) : Prop :=
  ∀ q, match table !! q with
       | Some t => t = {| t_quad := q; was_live := bool_decide (q ∈ live); is_live := bool_decide (q ∈ live') |}
       | None => q ∈ live ↔ q ∈ live'
       end.

Lemma table_ok_step live live' table m b q :
  table_ok live live' table →
  (m = MutInsert q ∧ b = true ∧ q ∉ live') ∨ (m = MutRemove q ∧ b = false ∧ q ∈ live') →
  table_ok live (mutate live' m) (coalesce_step table m).
Proof.
  intros Ht Hm k.
  assert (coalesce_step table m !! q = Some {| t_quad := q; was_live := bool_decide (q ∈ live); is_live := b |}) as Hq.
  { specialize (Ht q). unfold coalesce_step.
    destruct Hm as [(-> & -> & Hq)|(-> & -> & Hq)]; destruct (table !! q) as [t|];
      rewrite lookup_insert, decide_True by done; subst; cbn; try done; do 2 f_equal; symmetry.
    - apply bool_decide_eq_false. by rewrite Ht.
    - apply bool_decide_eq_true. by rewrite Ht. }
  destruct (decide (k = q)) as [->|Hk].
  - rewrite Hq. f_equal. symmetry. destruct Hm as [(-> & -> & _)|(-> & -> & _)]; cbn;
      [apply bool_decide_eq_true|apply bool_decide_eq_false]; set_solver.
  - assert (coalesce_step table m !! k = table !! k) as ->.
    { unfold coalesce_step. destruct Hm as [(-> & _)|(-> & _)]; destruct (table !! q);
        by rewrite lookup_insert_ne. }
    specialize (Ht k).
    assert (k ∈ mutate live' m ↔ k ∈ live') as Hmem by (destruct Hm as [(-> & _)|(-> & _)]; set_solver).
    destruct (table !! k) as [t|]; [|by rewrite Hmem].
    rewrite Ht. f_equal. by apply bool_decide_ext.
Qed.

Lemma mutates_table live ms live' :
  mutates live ms live' → table_ok live live' (foldl coalesce_step ∅ ms).
Proof.
  induction 1 as [live|live ms live' q _ IH Hq|live ms live' q _ IH Hq].
  - intros q. cbn. by rewrite lookup_empty.
  - rewrite foldl_app. apply (table_ok_step _ _ _ (MutInsert q) true q IH). by left.
  - rewrite foldl_app. apply (table_ok_step _ _ _ (MutRemove q) false q IH). by right.
Qed.

(** A list of net transitions from one set of live quads to another. *)
Record net_transitions (live live' : gset EncodedQuad) (l : list NetQuadTransition) : Prop := {
  nt_nodup : NoDup (t_quad <$> l);
  nt_sound : Forall (λ t, was_live t = bool_decide (t_quad t ∈ live) ∧
                          is_live t = bool_decide (t_quad t ∈ live') ∧ was_live t ≠ is_live t) l;
  nt_complete q : (q ∈ live ↔ q ∈ live') ∨ q ∈ t_quad <$> l;
}.

Lemma coalesced_net live ms live' :
  mutates live ms live' → net_transitions live live' (coalesced_transitions ms).
Proof.
  intros Hm%mutates_table. unfold coalesced_transitions.
  set (table := foldl coalesce_step ∅ ms) in *.
  assert (t_quad <$> (btree_iter table).*2 = (btree_iter table).*1) as Hquads.
  { rewrite <- list_fmap_compose. apply list_fmap_ext. intros i [k t] Hkt%list_elem_of_lookup_2.
    apply elem_of_btree_iter in Hkt. specialize (Hm k). rewrite Hkt in Hm. by subst. }
  split.
  - apply (sublist_NoDup _ (t_quad <$> (btree_iter table).*2)).
    + rewrite Hquads. apply btree_iter_nodup.
    + apply fmap_sublist, sublist_filter.
  - apply Forall_forall. intros t [Hne Ht]%list_elem_of_filter.
    apply list_elem_of_fmap in Ht as ([k t'] & -> & Hkt%elem_of_btree_iter).
    specialize (Hm k). rewrite Hkt in Hm. subst t'. cbn in *. naive_solver.
  - intros q. destruct (table !! q) as [t|] eqn:E; specialize (Hm q); rewrite E in Hm; [|by left].
    destruct (decide (was_live t = is_live t)) as [Heq|Hne].
    + left. subst t. cbn in Heq. revert Heq. repeat case_bool_decide; naive_solver.
    + right. apply list_elem_of_fmap. exists t. split; [by subst|].
      apply list_elem_of_filter. split; [done|]. apply list_elem_of_fmap. exists (q, t).
      split; [done|]. by apply elem_of_btree_iter.
Qed.

(** ** Batches *)

(** A batch whose mutations are the liveness changes of its commit. *)
Definition batch_tracks (st : Store) (b : WriteBatch) : Prop :=
  batch_ok st b ∧ mutates (live_set st) (quad_mutations b) (live_set (commit st b)).

Lemma tracks_new st : batch_tracks st new_batch.
Proof. split; [apply batch_ok_new|]. apply mutates_nil. Qed.

Lemma tracks_write st b q dots :
  batch_tracks st b → batch_tracks st (write_quad_state st b q dots).1.
Proof.
  intros [Hb Hm]. destruct (commit_write_quad st b q dots Hb) as [Hc Hb'].
  split; [done|]. rewrite Hc.
  assert (∀ k, k ∈ live_set (put_dots (commit st b) q (normalize_dots dots)) ↔
    if decide (k = q) then normalize_dots dots ≠ [] else k ∈ live_set (commit st b)) as Hlive.
  { intros k. rewrite elem_of_live_set, read_put_dots.
    destruct (decide (k = q)); [done|]. by rewrite elem_of_live_set. }
  assert (bool_decide (current_quad_dots st b q ≠ []) = bool_decide (q ∈ live_set (commit st b))) as Hwas.
  { apply bool_decide_ext. by rewrite elem_of_live_set, (bo_dots _ _ Hb). }
  assert (quad_mutations (write_quad_state st b q dots).1 =
    match bool_decide (q ∈ live_set (commit st b)), bool_decide (normalize_dots dots ≠ []) with
    | false, true => quad_mutations b ++ [MutInsert q]
    | true, false => quad_mutations b ++ [MutRemove q]
    | _, _ => quad_mutations b
    end) as ->.
  { unfold write_quad_state. rewrite Hwas.
    by destruct (bool_decide (q ∈ _)), (bool_decide (normalize_dots dots ≠ [])). }
  clear Hwas. set (after := live_set (put_dots _ _ _)) in *.
  case_bool_decide as Hq; case_bool_decide as Hn.
  - replace after with (live_set (commit st b)); [done|].
    apply set_eq. intros k. rewrite Hlive. case_decide; naive_solver.
  - replace after with (live_set (commit st b) ∖ {[q]}); [by apply mutates_remove|].
    apply set_eq. intros k. rewrite Hlive. case_decide; set_solver.
  - replace after with ({[q]} ∪ live_set (commit st b)); [by apply mutates_insert|].
    apply set_eq. intros k. rewrite Hlive. case_decide; set_solver.
  - replace after with (live_set (commit st b)); [done|].
    apply set_eq. intros k. rewrite Hlive. case_decide; naive_solver.
Qed.

Lemma tracks_insert st b q d : batch_tracks st b → batch_tracks st (insert_quad st b q d).1.
Proof. intros Hb. unfold insert_quad. case_decide; [done|by apply tracks_write]. Qed.

Lemma tracks_remove st b q w : batch_tracks st b → batch_tracks st (remove_quad st b q w).1.
Proof. intros Hb. unfold remove_quad. case_decide; [done|by apply tracks_write]. Qed.

Lemma tracks_quads st b b' :
  quad_mutations b' = quad_mutations b → quads (commit st b') = quads (commit st b) →
  batch_ok st b' → batch_tracks st b → batch_tracks st b'.
Proof.
  intros Hms Hq Hb' [_ Hm]. split; [done|]. rewrite Hms.
  assert (live_set (commit st b') = live_set (commit st b)) as -> by (unfold live_set; by rewrite Hq). done.
Qed.

(** The batches the store's operations build. *)
Inductive staged `{Blake3} (st : Store) : WriteBatch → Prop :=
  | staged_new : staged st new_batch
  | staged_write b q dots : staged st b → staged st (write_quad_state st b q dots).1
  | staged_insert b q d : staged st b → staged st (insert_quad st b q d).1
  | staged_remove b q w : staged st b → staged st (remove_quad st b q w).1
  | staged_term b t id b' : staged st b → encode_term_batch st b t = Ok (id, b') → staged st b'
  | staged_record b w :
      (∀ s, quads (apply_write s w) = quads s ∧ terms (apply_write s w) = terms s) →
      staged st b → staged st (stage b w).

Lemma staged_tracks `{Oxrdf} `{Blake3} st b : staged st b → batch_tracks st b.
Proof.
  induction 1 as [|b q dots _ IH|b q d _ IH|b q w _ IH|b t id b' _ IH Ht|b w Hw _ IH].
  - apply tracks_new.
  - by apply tracks_write.
  - by apply tracks_insert.
  - by apply tracks_remove.
  - pose proof IH as [Hb _]. destruct (encode_term_batch_ok _ _ _ _ _ Hb Ht) as (_ & Hb' & _ & Hq & _).
    eapply tracks_quads; [|exact Hq|done|done].
    unfold encode_term_batch, confirm_stored_term in Ht.
    destruct (pending_terms b !! _); [|destruct (terms st !! _)]; [case_decide..|];
      simplify_eq/=; done.
  - pose proof IH as [Hb _]. apply (tracks_quads st b); [done| |by apply batch_ok_stage|done].
    rewrite commit_stage. apply Hw.
Qed.

(** C24: The net transitions computed from a batch's mutations are the difference
    of the live quads before and after its commit: one transition per quad
    that changed, none for a quad that did not. *)
Theorem transitions_are_net `{Oxrdf} `{Blake3} st b :
  staged st b →
  net_transitions (live_set st) (live_set (commit st b)) (coalesced_transitions (quad_mutations b)).
Proof. intros [_ Hm]%staged_tracks. by apply coalesced_net. Qed.

Section witness.
Import DemoOxrdf DemoBlake3.

Definition sample_quad (n : N) : EncodedQuad :=
  {| quad_graph := 1; quad_subject := n; quad_predicate := 2; quad_object := 3 |}.
Definition sample_dot : Dot := {| dot_actor := 7; dot_counter := 1 |}.

Lemma transitions_are_net_witness :
  net_transitions (live_set empty_store)
    (live_set (commit empty_store (insert_quad empty_store new_batch (sample_quad 5) sample_dot).1))
    (coalesced_transitions [MutInsert (sample_quad 5)]).
Proof.
  exact (transitions_are_net empty_store _ (staged_insert _ _ _ sample_dot (staged_new _))).
Defined.
End witness.
