(* ===== verification/IndexMirror.v ===== *)
(** * The query view mirrors the live quads

    [mirrors v h live]: under header [h] the active slot of [v] maps terms and
    query identifiers one to one, holds the rows of [live] in all six orders,
    and its counters count those rows.  A commit's index update takes a view
    that mirrors the store before to one that mirrors the store after. *)

From S2P Require Import Prelude Clock Terms Store Replication Convergence Codec QueryView IndexUpdate Transitions.

(** ** Query identifiers *)

(** [m] is the mapping the two identifier keyspaces hold. *)
Record ids_ok (sp : IndexSpaces) (m : gmap TermId N) (next : N) : Prop := {
  io_next : (next ≤ u64_max)%N;
  io_range t x : m !! t = Some x → TermId_fit t ∧ (x < next)%N;
  io_inj t t' x : m !! t = Some x → m !! t' = Some x → t = t';
  io_forward t : TermId_fit t → term_to_query sp !! be_bytes 16 t = be_bytes 8 <$> m !! t;
  io_reverse x v : u64_fit x →
    query_to_term sp !! be_bytes 8 x = Some v ↔ ∃ t, m !! t = Some x ∧ v = be_bytes 16 t;
}.

Lemma u64_fit_le x : (x ≤ u64_max)%N → u64_fit x.
Proof. unfold u64_fit, max_of. change (2 ^ 64)%N with 18446744073709551616%N.
  change (256 ^ 8)%N with 18446744073709551616%N. lia. Qed.

Lemma ids_u64 sp m next t x : ids_ok sp m next → m !! t = Some x → u64_fit x.
Proof.
  intros Hi Hx. apply u64_fit_le. pose proof (io_next _ _ _ Hi). apply (io_range _ _ _ Hi) in Hx. lia.
Qed.

(** A fresh identifier extends the mapping. *)
Lemma put_mapping_ok sp m next t :
  ids_ok sp m next → TermId_fit t → m !! t = None → (next < u64_max)%N →
  ids_ok (put_mapping sp (t, next)) (<[t := next]> m) (next + 1).
Proof.
  intros Hi Ht Hnone Hnext. pose proof (io_next _ _ _ Hi) as Hmax.
  assert (u64_fit next) as Hfit by (apply u64_fit_le; lia).
  assert (∀ t' x, m !! t' = Some x → x ≠ next) as Hfresh.
  { intros t' x Hx%(io_range _ _ _ Hi). lia. }
  split; cbn [put_mapping term_to_query query_to_term fst snd].
  - lia.
  - intros t' x [[<- <-]|[_ Hx%(io_range _ _ _ Hi)]]%lookup_insert_Some; [split; [done|lia]|].
    naive_solver lia.
  - intros t1 t2 x [[<- <-]|[Hn1 H1]]%lookup_insert_Some [[<- Heq]|[Hn2 H2]]%lookup_insert_Some; try done.
    + by apply Hfresh in H2.
    + subst. by apply Hfresh in H1.
    + by eapply (io_inj _ _ _ Hi).
  - intros t' Ht'. destruct (decide (t' = t)) as [->|Hne]; [by rewrite !lookup_insert_eq|].
    rewrite !lookup_insert_ne; [by apply (io_forward _ _ _ Hi)|done|].
    intros Heq. by apply Hne, (be_bytes_inj 16).
  - intros x v Hx. destruct (decide (x = next)) as [->|Hne].
    + rewrite lookup_insert_eq. split.
      * intros [= <-]. exists t. by rewrite lookup_insert_eq.
      * intros (t' & [[<- _]|[_ Ht']]%lookup_insert_Some & ->); [done|]. by apply Hfresh in Ht'.
    + rewrite lookup_insert_ne by (intros Heq; by apply Hne, (be_bytes_inj 8)).
      rewrite (io_reverse _ _ _ Hi) by done. split; intros (t' & Ht' & ->); exists t'; split; try done.
      * rewrite lookup_insert_ne; [done|]. intros <-. congruence.
      * apply lookup_insert_Some in Ht' as [[<- <-]|[_ Ht']]; done.
Qed.

Section resolver.
Context (sp : IndexSpaces) (m : gmap TermId N) (next : N) (Hids : ids_ok sp m next).

(** The resolver of an update: [m'] extends [m] by the staged mappings, whose
    identifiers are new. *)
Record resolver_ok (m' : gmap TermId N) (r : TermResolver) : Prop := {
  ro_ids : ids_ok (foldl put_mapping sp (mappings r)) m' (resolver_next r);
  ro_sub : m ⊆ m';
  ro_resolved : resolved r ⊆ m';
  ro_known t x : m' !! t = Some x → m !! t = Some x ∨ resolved r !! t = Some x;
  ro_new t x : m' !! t = Some x → m !! t = Some x ∨ ((next ≤ x)%N ∧ x ∈ (mappings r).*2);
  ro_fresh x : x ∈ (mappings r).*2 → (next ≤ x)%N;
  ro_next : (next ≤ resolver_next r)%N;
}.

Lemma resolver_init :
  resolver_ok m {| allow_allocate := false; resolved := ∅; mappings := []; resolver_next := next |}.
Proof.
  split; cbn; try done; [apply map_empty_subseteq|by left|by left|by intros x Hx%elem_of_nil].
Qed.

Lemma with_allow_ok m' r b : resolver_ok m' r → resolver_ok m' (with_allow r b).
Proof. by intros []. Qed.

(** A term that has an identifier, or may be given one, resolves. *)
Lemma resolve_ok m' r t :
  resolver_ok m' r → TermId_fit t →
  is_Some (m' !! t) ∨ (allow_allocate r = true ∧ (resolver_next r < u64_max)%N) →
  ∃ x r' m'', resolve_query_term sp t r = Ok (x, r') ∧ resolver_ok m'' r' ∧ m' ⊆ m'' ∧
    m'' !! t = Some x ∧ (resolver_next r' ≤ resolver_next r + 1)%N ∧ allow_allocate r' = allow_allocate r.
Proof.
  intros Hr Ht Hcase. unfold resolve_query_term.
  destruct (resolved r !! t) as [x|] eqn:Eres.
  { exists x, r, m'. split_and!; try done; [by eapply lookup_weaken, ro_resolved|lia]. }
  rewrite (io_forward _ _ _ Hids) by done. destruct (m !! t) as [x|] eqn:Em; cbn [fmap option_fmap option_map].
  - assert (u64_fit x) as Hx by (by eapply ids_u64).
    rewrite decide_True by apply be_bytes_length. rewrite be_round by done.
    pose proof (io_range _ _ _ Hids _ _ Em) as [_ Hlt]. pose proof (ro_next _ _ Hr).
    rewrite decide_False by lia.
    rewrite ((proj2 (io_reverse _ _ _ Hids x (be_bytes 16 t) Hx))) by eauto.
    rewrite decide_False by naive_solver. eexists x, _, m'. split; [done|].
    assert (m' !! t = Some x) as Hm' by (by eapply lookup_weaken, ro_sub).
    split_and!; try done; cbn; [|lia]. destruct Hr. split; try done; cbn.
    + by apply insert_subseteq_l.
    + intros t' x' Hx'. apply ro_known0 in Hx' as [|Hx']; [by left|right].
      rewrite lookup_insert_ne; [done|]. congruence.
  - assert (m' !! t = None) as Hnone.
    { destruct (m' !! t) as [x|] eqn:E; [|done]. apply (ro_known _ _ Hr) in E as [|]; congruence. }
    destruct Hcase as [[x Hx]|[Ha Hmax]]; [congruence|]. rewrite Ha.
    unfold checked_add. rewrite decide_True by lia.
    assert (query_to_term sp !! be_bytes 8 (resolver_next r) = None) as ->.
    { destruct (query_to_term sp !! _) as [v|] eqn:E; [|done].
      apply (io_reverse _ _ _ Hids) in E as (t' & Ht' & _); [|apply u64_fit_le; lia].
      apply (io_range _ _ _ Hids) in Ht'. pose proof (ro_next _ _ Hr). lia. }
    eexists (resolver_next r), _, (<[t := resolver_next r]> m'). split; [done|].
    split_and!; cbn; [|by apply insert_subseteq|by rewrite lookup_insert_eq|lia|done].
    destruct Hr. split; cbn [resolved mappings resolver_next].
    + rewrite foldl_app. by apply put_mapping_ok.
    + etrans; [done|]. by apply insert_subseteq.
    + by apply insert_mono.
    + intros t' x [[<- <-]|[Hne Hx]]%lookup_insert_Some; [right; by rewrite lookup_insert_eq|].
      rewrite lookup_insert_ne by done. auto.
    + intros t' x [[<- <-]|[Hne Hx]]%lookup_insert_Some.
      * right. split; [done|]. rewrite fmap_app, elem_of_app. right. by left.
      * rewrite fmap_app, elem_of_app. apply ro_new0 in Hx. naive_solver.
    + intros x. rewrite fmap_app, elem_of_app. intros [Hx|Hx%list_elem_of_singleton]; [auto|]. by subst.
    + lia.
Qed.
End resolver.

(** ** Rows *)

Definition query_of (m : gmap TermId N) (q : EncodedQuad) : option QueryQuad :=
  g ← m !! quad_graph q; s ← m !! quad_subject q; p ← m !! quad_predicate q; o ← m !! quad_object q;
  Some {| qq_graph := g; qq_subject := s; qq_predicate := p; qq_object := o |}.

Lemma query_of_some m q x :
  query_of m q = Some x ↔ m !! quad_graph q = Some (qq_graph x) ∧ m !! quad_subject q = Some (qq_subject x) ∧
    m !! quad_predicate q = Some (qq_predicate x) ∧ m !! quad_object q = Some (qq_object x).
Proof.
  unfold query_of. split.
  - destruct (m !! quad_graph q), (m !! quad_subject q), (m !! quad_predicate q), (m !! quad_object q); try done.
    by intros [= <-].
  - intros (-> & -> & -> & ->). by destruct x.
Qed.

Lemma query_of_weaken m m' q x : m ⊆ m' → query_of m q = Some x → query_of m' q = Some x.
Proof.
  rewrite !query_of_some. intros Hsub (?&?&?&?). split_and!; by eapply lookup_weaken.
Qed.

Lemma query_of_inj sp m next q q' x :
  ids_ok sp m next → query_of m q = Some x → query_of m q' = Some x → q = q'.
Proof.
  rewrite !query_of_some. intros Hi (?&?&?&?) (?&?&?&?). destruct q, q'; cbn in *.
  f_equal; by eapply (io_inj _ _ _ Hi).
Qed.

Lemma query_of_fit sp m next q x : ids_ok sp m next → query_of m q = Some x → query_quad_fit x.
Proof.
  rewrite query_of_some. intros Hi (?&?&?&?). by split_and!; eapply ids_u64.
Qed.

(** [R] is the image of [live]. *)
Record rows_live (m : gmap TermId N) (R : gset QueryQuad) (live : gset EncodedQuad) : Prop := {
  rl_fit q : q ∈ live → quad_fit q;
  rl_total q : q ∈ live → is_Some (query_of m q);
  rl_rows x : x ∈ R ↔ ∃ q, q ∈ live ∧ query_of m q = Some x;
}.

Lemma rows_live_iff sp m m' next R live q x :
  ids_ok sp m' next → m ⊆ m' → rows_live m R live → query_of m' q = Some x → x ∈ R ↔ q ∈ live.
Proof.
  intros Hi Hsub Hl Hq. rewrite (rl_rows _ _ _ Hl). split.
  - intros (q' & Hq' & Hx). apply (query_of_weaken _ m') in Hx; [|done].
    by rewrite (query_of_inj _ _ _ _ _ _ Hi Hq Hx).
  - intros Hlive. exists q. split; [done|]. destruct (rl_total _ _ _ Hl q Hlive) as [y Hy].
    pose proof (query_of_weaken _ m' _ _ Hsub Hy). congruence.
Qed.

(** A keyspace holds exactly the rows [R], with empty values. *)
Definition space_ok (key : QueryQuad → bytes) (R : gset QueryQuad) (space : gmap bytes bytes) : Prop :=
  ∀ k v, space !! k = Some v ↔ v = [] ∧ ∃ x, x ∈ R ∧ k = key x.

Definition key_inj (key : QueryQuad → bytes) : Prop :=
  ∀ x y, query_quad_fit x → query_quad_fit y → key x = key y → x = y.

Lemma keys_inj : Forall key_inj [gspo_key; gpos_key; spog_key; posg_key; ospg_key; gosp_key].
Proof.
  repeat constructor; intros [a b c d] [a' b' c' d'] (?&?&?&?) (?&?&?&?) Heq;
    apply query_index_key_inj in Heq; try done; try (by repeat constructor); cbn in *; congruence.
Qed.

Lemma space_lookup key R space x :
  key_inj key → (∀ y, y ∈ R → query_quad_fit y) → space_ok key R space → query_quad_fit x →
  space !! key x = if decide (x ∈ R) then Some [] else None.
Proof.
  intros Hkey HR Hs Hx. case_decide as Hin.
  - apply Hs. eauto.
  - destruct (space !! key x) as [v|] eqn:E; [|done].
    apply Hs in E as (_ & y & Hy & Heq). apply Hkey in Heq; naive_solver.
Qed.

Record rows_ok (sp : IndexSpaces) (R : gset QueryQuad) : Prop := {
  rk_fit x : x ∈ R → query_quad_fit x;
  rk_gspo : space_ok gspo_key R (gspo sp); rk_gpos : space_ok gpos_key R (gpos sp);
  rk_spog : space_ok spog_key R (spog sp); rk_posg : space_ok posg_key R (posg sp);
  rk_ospg : space_ok ospg_key R (ospg sp); rk_gosp : space_ok gosp_key R (gosp sp);
}.

Lemma space_keys_lookup sp R x :
  rows_ok sp R → query_quad_fit x →
  Forall (λ sk, sk.1 !! sk.2 = if decide (x ∈ R) then Some [] else None) (space_keys sp x).
Proof.
  intros [Hfit H1 H2 H3 H4 H5 H6] Hx. pose proof keys_inj as Hk. rewrite !Forall_cons in Hk.
  destruct Hk as (?&?&?&?&?&?&_). unfold space_keys. rewrite !Forall_cons, Forall_nil.
  cbn [fst snd]. split_and!; [by apply space_lookup..|done].
Qed.

(** A row whose presence differs from the desired state in the row set is
    found in the prior state in every index. *)
Lemma row_state_flip sp R x live :
  rows_ok sp R → query_quad_fit x → (x ∈ R ↔ live = false) → row_state sp x live = Ok (false, true).
Proof.
  intros HR Hx Hflip. unfold row_state.
  pose proof (space_keys_lookup sp R x HR Hx) as Hl. unfold space_keys in *.
  rewrite !Forall_cons in Hl. cbn [fst snd] in Hl. destruct Hl as (H1 & H2 & H3 & H4 & H5 & H6 & _).
  cbn [try_fold fst snd]. rewrite H1, H2, H3, H4, H5, H6.
  case_decide as Hin; destruct live; cbn; try done; naive_solver.
Qed.

Definition row_step (R : gset QueryQuad) (t : QueryQuad * bool) : gset QueryQuad :=
  if t.2 then {[t.1]} ∪ R else R ∖ {[t.1]}.

Lemma put_row_ok key R space x live :
  key_inj key → (∀ y, y ∈ R → query_quad_fit y) → query_quad_fit x → space_ok key R space →
  space_ok key (row_step R (x, live)) (put_row live (key x) space).
Proof.
  intros Hkey HR Hx Hs k v. unfold row_step, put_row; cbn. destruct live.
  - rewrite lookup_insert_Some, (Hs k v). split.
    + intros [[<- <-]|(_ & -> & y & Hy & ->)]; (split; [done|]); [exists x|exists y]; set_solver.
    + intros (-> & y & Hy & ->). destruct (decide (key x = key y)) as [|Hne]; [by left|right].
      split; [done|]. split; [done|]. exists y. set_solver.
  - rewrite lookup_delete_Some, (Hs k v). split.
    + intros (Hne & -> & y & Hy & ->). split; [done|]. exists y. set_solver.
    + intros (-> & y & [Hy Hne]%elem_of_difference & ->). split; [|by eauto].
      intros Heq%Hkey; set_solver.
Qed.

Lemma put_rows_ok sp R t :
  rows_ok sp R → query_quad_fit t.1 → rows_ok (put_rows sp t) (row_step R t).
Proof.
  intros [Hfit H1 H2 H3 H4 H5 H6] Hx. pose proof keys_inj as Hk. rewrite !Forall_cons in Hk.
  destruct Hk as (?&?&?&?&?&?&_). destruct t as [x live].
  split; cbn [put_rows gspo gpos spog posg ospg gosp]; try by apply put_row_ok.
  intros y. unfold row_step; cbn. destruct live; set_solver.
Qed.

Lemma foldl_put_rows_ok sp R ts :
  rows_ok sp R → Forall (λ t, query_quad_fit t.1) ts →
  rows_ok (foldl put_rows sp ts) (foldl row_step R ts).
Proof.
  intros HR Hts. revert sp R HR; induction Hts as [|t ts Ht _ IH]; intros sp R HR; cbn; [done|].
  by apply IH, put_rows_ok.
Qed.

Lemma foldl_put_rows_frame sp ts :
  let sp' := foldl put_rows sp ts in
  term_to_query sp' = term_to_query sp ∧ query_to_term sp' = query_to_term sp ∧ meta sp' = meta sp.
Proof.
  revert sp; induction ts as [|[x l] ts IH]; intros sp; cbn [foldl]; [done|].
  destruct (IH (put_rows sp (x, l))) as (-> & -> & ->). done.
Qed.

(** Every transition of the list changes the presence of its row. *)
Fixpoint flips (R : gset QueryQuad) (ts : list (QueryQuad * bool)) : Prop :=
  match ts with
  | [] => True
  | t :: ts => (t.1 ∈ R ↔ t.2 = false) ∧ flips (row_step R t) ts
  end.

Lemma flips_nodup R ts :
  NoDup ts.*1 → Forall (λ t, t.1 ∈ R ↔ t.2 = false) ts → flips R ts.
Proof.
  intros Hnd Hts. revert R Hnd Hts; induction ts as [|t ts IH]; intros R Hnd Hts; [done|].
  apply NoDup_cons in Hnd as [Hnot Hnd]. apply Forall_cons in Hts as [Ht Hts].
  split; [done|]. apply IH; [done|]. apply Forall_forall. intros u Hu. rewrite Forall_forall in Hts.
  assert (u.1 ≠ t.1) as Hne by (intros Heq; apply Hnot; rewrite <- Heq; by apply list_elem_of_fmap_2).
  rewrite <- (Hts u Hu). unfold row_step. destruct t.2; set_solver.
Qed.

Lemma foldl_row_step R ts x :
  NoDup ts.*1 → x ∈ foldl row_step R ts ↔ (x, true) ∈ ts ∨ (x ∈ R ∧ x ∉ ts.*1).
Proof.
  revert R; induction ts as [|[y l] ts IH]; intros R Hnd; cbn [foldl]; [set_solver|].
  cbn in Hnd. apply NoDup_cons in Hnd as [Hnot Hnd]. rewrite IH by done.
  assert (∀ b, (y, b) ∉ ts) as Hno by (intros b Hb; apply Hnot; by apply (list_elem_of_fmap_2 fst) in Hb).
  rewrite fmap_cons, elem_of_cons, not_elem_of_cons. unfold row_step; cbn [fst snd].
  destruct l.
  - rewrite elem_of_union, elem_of_singleton. destruct (decide (x = y)); naive_solver.
  - rewrite elem_of_difference, elem_of_singleton. destruct (decide (x = y)); naive_solver.
Qed.

Section plan_rows.
Context (sp : IndexSpaces) (m : gmap TermId N) (next : N) (R : gset QueryQuad) (live : gset EncodedQuad).
Context (Hids : ids_ok sp m next) (HR : rows_ok sp R) (Hlive : rows_live m R live).

Lemma plan_transition_ok m' r qts t :
  resolver_ok sp m next m' r → quad_fit (t_quad t) → (t_quad t ∈ live ↔ is_live t = false) →
  (resolver_next r + 4 ≤ u64_max)%N →
  ∃ x r' m'', plan_transition sp (r, qts) t = Ok (r', qts ++ [(x, is_live t)]) ∧
    resolver_ok sp m next m'' r' ∧ m' ⊆ m'' ∧ query_of m'' (t_quad t) = Some x ∧
    (resolver_next r' ≤ resolver_next r + 4)%N.
Proof.
  intros Hr (Hfg & Hfs & Hfp & Hfo) Hflip Hcap. unfold plan_transition; cbn [fst snd].
  assert (∀ a, (a = quad_graph ∨ a = quad_subject ∨ a = quad_predicate ∨ a = quad_object) →
    ∀ m1, m ⊆ m1 → is_Some (m1 !! a (t_quad t)) ∨ is_live t = true) as Hcase.
  { intros a Ha m1 Hsub. destruct (is_live t); [by right|left].
    destruct (rl_total _ _ _ Hlive (t_quad t)) as [x Hx]; [by apply Hflip|].
    apply query_of_some in Hx as (?&?&?&?).
    destruct Ha as [->|[->|[->| ->]]]; eexists; by eapply lookup_weaken. }
  apply (with_allow_ok _ _ _ _ _ (is_live t)) in Hr.
  destruct (resolve_ok _ _ _ Hids m' _ (quad_graph (t_quad t)) Hr Hfg) as
    (g & r1 & m1 & -> & Hr1 & Hs1 & Hg & Hn1 & Ha1).
  { destruct (Hcase quad_graph ltac:(auto) m' (ro_sub _ _ _ _ _ Hr)); [by left|right]. split; [done|cbn; lia]. }
  cbn in Hn1, Ha1; cbn [mbind outcome_bind].
  destruct (resolve_ok _ _ _ Hids m1 r1 (quad_subject (t_quad t)) Hr1 Hfs) as
    (s & r2 & m2 & -> & Hr2 & Hs2 & Hs & Hn2 & Ha2).
  { destruct (Hcase quad_subject ltac:(auto) m1 (ro_sub _ _ _ _ _ Hr1)); [by left|right]. split; [congruence|lia]. }
  cbn [mbind outcome_bind].
  destruct (resolve_ok _ _ _ Hids m2 r2 (quad_predicate (t_quad t)) Hr2 Hfp) as
    (p & r3 & m3 & -> & Hr3 & Hs3 & Hp & Hn3 & Ha3).
  { destruct (Hcase quad_predicate ltac:(auto) m2 (ro_sub _ _ _ _ _ Hr2)); [by left|right]. split; [congruence|lia]. }
  cbn [mbind outcome_bind].
  destruct (resolve_ok _ _ _ Hids m3 r3 (quad_object (t_quad t)) Hr3 Hfo) as
    (o & r4 & m4 & -> & Hr4 & Hs4 & Ho & Hn4 & Ha4).
  { destruct (Hcase quad_object ltac:(auto) m3 (ro_sub _ _ _ _ _ Hr3)); [by left|right]. split; [congruence|lia]. }
  cbn [mbind outcome_bind].
  set (x := {| qq_graph := g; qq_subject := s; qq_predicate := p; qq_object := o |}).
  assert (query_of m4 (t_quad t) = Some x) as Hx.
  { apply query_of_some. cbn. split_and!; [..|done].
    - exact (lookup_weaken _ _ _ _ (lookup_weaken _ _ _ _ (lookup_weaken _ _ _ _ Hg Hs2) Hs3) Hs4).
    - exact (lookup_weaken _ _ _ _ (lookup_weaken _ _ _ _ Hs Hs3) Hs4).
    - exact (lookup_weaken _ _ _ _ Hp Hs4). }
  rewrite (row_state_flip sp R x (is_live t)); cbn [mbind outcome_bind negb].
  - exists x, r4, m4. split_and!; try done; [|lia].
    etrans; [exact Hs1|]. etrans; [exact Hs2|]. etrans; [exact Hs3|exact Hs4].
  - done.
  - eapply query_of_fit; [apply Hr4|done].
  - rewrite <- Hflip. eapply rows_live_iff; [apply Hr4|apply Hr4|done|done].
Qed.

Definition planned (m' : gmap TermId N) (t : NetQuadTransition) (qt : QueryQuad * bool) : Prop :=
  query_of m' (t_quad t) = Some qt.1 ∧ qt.2 = is_live t.

Lemma plan_loop_ok l m' r qts l0 :
  resolver_ok sp m next m' r → Forall2 (planned m') l0 qts →
  Forall (λ t, quad_fit (t_quad t) ∧ (t_quad t ∈ live ↔ is_live t = false)) l →
  (resolver_next r + 4 * N.of_nat (length l) ≤ u64_max)%N →
  ∃ r' m'' qts', try_fold (plan_transition sp) (r, qts) l = Ok (r', qts') ∧
    resolver_ok sp m next m'' r' ∧ Forall2 (planned m'') (l0 ++ l) qts'.
Proof.
  intros Hr Hp Hl. revert m' r qts l0 Hr Hp; induction Hl as [|t l [Hfit Hflip] _ IH];
    intros m' r qts l0 Hr Hp Hcap; cbn [try_fold].
  { exists r, m', qts. by rewrite app_nil_r. }
  cbn [length] in Hcap.
  destruct (plan_transition_ok m' r qts t Hr Hfit Hflip) as (x & r' & m'' & -> & Hr' & Hsub & Hx & Hn); [lia|].
  cbn [mbind outcome_bind].
  destruct (IH m'' r' (qts ++ [(x, is_live t)]) (l0 ++ [t]) Hr') as (r3 & m3 & qts3 & -> & Hr3 & Hp3).
  - apply Forall2_app; [|by repeat constructor]. eapply Forall2_impl; [exact Hp|].
    intros u v [Hu Hv]. split; [|done]. by eapply query_of_weaken.
  - lia.
  - exists r3, m3, qts3. rewrite <- app_assoc in Hp3. done.
Qed.

(** The rows after the planned transitions are the image of the new live
    quads. *)
Lemma planned_rows sp' m' n' l qts live' :
  ids_ok sp' m' n' → m ⊆ m' → net_transitions live live' l →
  Forall (λ t, quad_fit (t_quad t)) l → Forall2 (planned m') l qts →
  NoDup qts.*1 ∧ Forall (λ t, t.1 ∈ R ↔ t.2 = false) qts ∧ rows_live m' (foldl row_step R qts) live'.
Proof.
  intros Hi Hsub Hnet Hfit Hp.
  destruct Hnet as [Hnd Hsound Hcomp].
  assert (NoDup qts.*1) as Hnd'.
  { clear Hsound Hcomp Hfit. induction Hp as [|t qt l qts [Ht _] Hp IH]; [constructor|].
    cbn in Hnd |- *. apply NoDup_cons in Hnd as [Hnot Hnd]. apply NoDup_cons. split; [|by apply IH].
    intros Hin. apply Hnot. apply list_elem_of_fmap in Hin as (qt' & Heq & Hqt').
    apply list_elem_of_lookup in Hqt' as [i Hi'].
    destruct (Forall2_lookup_r _ _ _ _ _ Hp Hi') as (t' & Ht' & Hq & _).
    apply list_elem_of_fmap. exists t'. split; [|by eapply list_elem_of_lookup_2].
    rewrite <- Heq in Hq. by eapply query_of_inj. }
  assert (∀ x b, (x, b) ∈ qts ↔ ∃ t, t ∈ l ∧ query_of m' (t_quad t) = Some x ∧ b = is_live t) as Hmem.
  { intros x b. split.
    - intros [i Hi']%list_elem_of_lookup. destruct (Forall2_lookup_r _ _ _ _ _ Hp Hi') as (t & Ht & Hq & Hb).
      exists t. split; [by eapply list_elem_of_lookup_2|done].
    - intros (t & [i Hi']%list_elem_of_lookup & Hq & ->).
      destruct (Forall2_lookup_l _ _ _ _ _ Hp Hi') as ([y b] & Hy%list_elem_of_lookup_2 & Hq' & Hb').
      cbn in *. by simplify_eq. }
  assert (Forall (λ t, t.1 ∈ R ↔ t.2 = false) qts) as Hflip.
  { apply Forall_forall. intros [x b] (t & Ht & Hq & ->)%Hmem. cbn.
    rewrite (rows_live_iff sp' m m' n' R live (t_quad t) x Hi Hsub Hlive Hq).
    rewrite Forall_forall in Hsound. destruct (Hsound t Ht) as (Hw & _ & Hne).
    rewrite Hw in Hne. clear -Hne. case_bool_decide; destruct (is_live t); done. }
  split; [done|]. split; [done|].
  assert (∀ q t, t ∈ l → t_quad t = q → q ∈ live' ↔ is_live t = true) as Hnew.
  { intros q t Ht <-. rewrite Forall_forall in Hsound. destruct (Hsound t Ht) as (_ & -> & _).
    by rewrite bool_decide_eq_true. }
  assert (∀ q, q ∈ live' → is_Some (query_of m' q) ∧ quad_fit q) as Hlive'.
  { intros q Hq. destruct (Hcomp q) as [Hsame|(t & -> & Ht)%list_elem_of_fmap].
    - apply Hsame in Hq. split; [|by apply (rl_fit _ _ _ Hlive)].
      destruct (rl_total _ _ _ Hlive q Hq) as [x Hx]. exists x. by eapply query_of_weaken.
    - rewrite Forall_forall in Hfit. split; [|by apply Hfit].
      apply list_elem_of_lookup in Ht as [i Ht].
      destruct (Forall2_lookup_l _ _ _ _ _ Hp Ht) as ([x b] & _ & Hx & _). eauto. }
  split; [intros q Hq; apply (Hlive' q Hq)..|]. intros x. rewrite foldl_row_step by done. split.
  - intros [(t & Ht & Hq & Hl)%Hmem|[Hx Hnot]].
    + exists (t_quad t). split; [|done]. by apply (Hnew _ t).
    + apply (rl_rows _ _ _ Hlive) in Hx as (q & Hq & Hx). exists q.
      pose proof (query_of_weaken _ _ _ _ Hsub Hx) as Hx'. split; [|done].
      destruct (Hcomp q) as [Hsame|(t & -> & Ht)%list_elem_of_fmap]; [by apply Hsame|].
      exfalso. apply Hnot. apply (list_elem_of_fmap_2' fst _ (x, is_live t)); [|done].
      apply Hmem. eauto.
  - intros (q & Hq & Hx). destruct (decide (q ∈ t_quad <$> l)) as [(t & -> & Ht)%list_elem_of_fmap|Hnot].
    + left. apply Hmem. exists t. split; [done|]. split; [done|]. symmetry. by apply (Hnew (t_quad t) t).
    + right. destruct (Hcomp q) as [Hsame|]; [|done]. split.
      * by apply (rows_live_iff sp' m m' n' R live q x Hi Hsub Hlive Hx), Hsame.
      * intros ([y b] & Heq & (t & Ht & Hq' & _)%Hmem)%list_elem_of_fmap. cbn in Heq. subst y.
        apply Hnot, list_elem_of_fmap. exists t. split; [|done]. by eapply query_of_inj.
Qed.
End plan_rows.

(** ** Counters *)

Definition count (R : gset QueryQuad) (c : IndexCounterKey) : N :=
  N.of_nat (size (filter (λ x, c ∈ live_counter_keys x) R)).

(** What is stored for a count: the total always, the others unless zero. *)
Definition stored_count (c : IndexCounterKey) (n : N) : option N :=
  if is_total c || bool_decide (n ≠ 0%N) then Some n else None.

Definition counters_ok (mt : gmap bytes bytes) (R : gset QueryQuad) : Prop :=
  ∀ c, counter_fit c → c ≠ UnionDuplicateFree →
    mt !! counter_bytes c = be_bytes 8 <$> stored_count c (count R c).

Definition delta_of (c : IndexCounterKey) (ts : list (QueryQuad * bool)) : Z :=
  foldr (λ (t : QueryQuad * bool) z, (z + if decide (c ∈ live_counter_keys t.1) then if t.2 then 1 else -1 else 0)%Z) 0%Z ts.

Lemma count_step R t c :
  (t.1 ∈ R ↔ t.2 = false) →
  Z.of_N (count (row_step R t) c) =
    (Z.of_N (count R c) + if decide (c ∈ live_counter_keys t.1) then if t.2 then 1 else -1 else 0)%Z.
Proof.
  destruct t as [x []]; unfold count, row_step; cbn [fst snd]; intros Hx.
  - assert (x ∉ R) as Hx' by naive_solver. rewrite filter_union_L by apply _.
    rewrite size_union by set_solver. case_decide as Hc.
    + rewrite filter_singleton_True_L, size_singleton by first [done|apply _]. lia.
    + rewrite filter_singleton_False_L, size_empty by first [done|apply _]. lia.
  - assert (x ∈ R) as Hx' by naive_solver.
    assert (size (filter (λ x, c ∈ live_counter_keys x) R) =
      (size (filter (λ x, c ∈ live_counter_keys x) (R ∖ {[x]})) +
       size (filter (λ x, c ∈ live_counter_keys x) ({[x]} : gset QueryQuad)))%nat) as ->.
    { rewrite <- size_union by set_solver. f_equal. rewrite <- filter_union_L by apply _. f_equal.
      apply set_eq. intros y. destruct (decide (y = x)); set_solver. }
    case_decide as Hc.
    + rewrite filter_singleton_True_L, size_singleton by first [done|apply _]. lia.
    + rewrite filter_singleton_False_L, size_empty by first [done|apply _]. lia.
Qed.

Lemma delta_of_cons c t ts :
  delta_of c (t :: ts) = (delta_of c ts + if decide (c ∈ live_counter_keys t.1) then if t.2 then 1 else -1 else 0)%Z.
Proof. done. Qed.

Lemma count_fold R ts c :
  flips R ts → Z.of_N (count (foldl row_step R ts) c) = (Z.of_N (count R c) + delta_of c ts)%Z.
Proof.
  revert R; induction ts as [|t ts IH]; intros R; cbn [foldl flips]; [unfold delta_of; cbn; lia|].
  intros [Ht Hts]. rewrite IH by done. rewrite count_step by done. rewrite delta_of_cons. lia.
Qed.

Lemma count_le R c : (count R c ≤ N.of_nat (size R))%N.
Proof.
  unfold count. assert (size (filter (λ x, c ∈ live_counter_keys x) R) ≤ size R)%nat; [|lia].
  apply subseteq_size. set_solver.
Qed.

Lemma delta_of_bound c ts : (- Z.of_nat (length ts) ≤ delta_of c ts ≤ Z.of_nat (length ts))%Z.
Proof.
  induction ts as [|t ts IH]; [done|]. rewrite delta_of_cons. cbn [length].
  case_decide; [destruct t.2|]; lia.
Qed.

Lemma live_counter_keys_fit x c : query_quad_fit x → c ∈ live_counter_keys x → counter_fit c.
Proof.
  intros (?&?&?&?). unfold live_counter_keys. rewrite !elem_of_cons, elem_of_nil.
  by intros [->|[->|[->|[->|[->|[->|[]]]]]]].
Qed.

Lemma live_counter_keys_nodup x : NoDup (live_counter_keys x).
Proof.
  unfold live_counter_keys. repeat (apply NoDup_cons; split); [set_solver..|constructor].
Qed.

Lemma union_not_counted x : UnionDuplicateFree ∉ live_counter_keys x.
Proof. unfold live_counter_keys. set_solver. Qed.

(** The delta table: one entry per counter some transition touches. *)
Definition touched (c : IndexCounterKey) (ts : list (QueryQuad * bool)) : Prop :=
  Exists (λ t : QueryQuad * bool, c ∈ live_counter_keys t.1) ts.

Definition table_of (f : IndexCounterKey → option Z) (deltas : gmap bytes (IndexCounterKey * Z)) : Prop :=
  ∀ k e, deltas !! k = Some e ↔ ∃ c z, counter_fit c ∧ f c = Some z ∧ k = counter_bytes c ∧ e = (c, z).

Lemma table_of_lookup f deltas c :
  table_of f deltas → counter_fit c → deltas !! counter_bytes c = (c,.) <$> f c.
Proof.
  intros Hf Hc. destruct (f c) as [z|] eqn:E; cbn.
  - apply Hf. eauto 10.
  - destruct (deltas !! counter_bytes c) as [e|] eqn:Ed; [|done].
    apply Hf in Ed as (c' & z & Hc' & Hz & Heq & ->). apply counter_bytes_inj in Heq; naive_solver.
Qed.

Lemma add_delta_ok f deltas c d :
  table_of f deltas → counter_fit c → (- 2 ^ 127 ≤ default 0 (f c) + d < 2 ^ 127)%Z →
  ∃ deltas', add_delta deltas c d = Ok deltas' ∧
    table_of (λ c', if decide (c' = c) then Some (default 0 (f c) + d)%Z else f c') deltas'.
Proof.
  intros Hf Hc Hb. unfold add_delta. rewrite (table_of_lookup f) by done.
  assert (default (c, 0%Z) ((c,.) <$> f c) = (c, default 0%Z (f c))) as -> by (by destruct (f c)).
  cbn [fst snd]. rewrite decide_True by done. eexists. split; [done|].
  intros k e. rewrite lookup_insert_Some, (Hf k e). split.
  - intros [[<- <-]|(Hne & c' & z & Hc' & Hz & -> & ->)].
    + exists c, (default 0 (f c) + d)%Z. by rewrite decide_True.
    + exists c', z. rewrite decide_False by naive_solver. done.
  - intros (c' & z & Hc' & Hz & -> & ->). case_decide as Heq; [naive_solver|]. right.
    split; [|naive_solver]. intros Hk%counter_bytes_inj; naive_solver.
Qed.

Lemma add_deltas_ok f deltas ks d :
  table_of f deltas → NoDup ks → Forall counter_fit ks →
  (∀ c, c ∈ ks → - 2 ^ 127 ≤ default 0 (f c) + d < 2 ^ 127)%Z →
  ∃ deltas', try_fold (λ deltas c, add_delta deltas c d) deltas ks = Ok deltas' ∧
    table_of (λ c, if decide (c ∈ ks) then Some (default 0 (f c) + d)%Z else f c) deltas'.
Proof.
  intros Hf Hnd Hks. revert f deltas Hf; induction Hks as [|c ks Hc _ IH]; intros f deltas Hf Hb.
  { exists deltas. split; [done|]. intros k e. rewrite (Hf k e). by setoid_rewrite decide_False; [|apply not_elem_of_nil]. }
  apply NoDup_cons in Hnd as [Hnot Hnd]. cbn [try_fold].
  destruct (add_delta_ok f deltas c d Hf Hc) as (deltas1 & -> & Hf1); [by apply Hb; left|].
  cbn [mbind outcome_bind]. destruct (IH Hnd _ _ Hf1) as (deltas2 & -> & Hf2).
  { intros c' Hc'. rewrite decide_False by naive_solver. apply Hb. by right. }
  exists deltas2. split; [done|]. intros k e. rewrite (Hf2 k e).
  assert (∀ c', (if decide (c' ∈ ks) then Some (default 0 (if decide (c' = c) then Some (default 0 (f c) + d) else f c') + d)
      else if decide (c' = c) then Some (default 0 (f c) + d) else f c')%Z =
    (if decide (c' ∈ c :: ks) then Some (default 0 (f c') + d) else f c')%Z) as Hext.
  { intros c'. destruct (decide (c' = c)) as [->|Hne].
    - rewrite decide_False by done. by rewrite decide_True by by left.
    - destruct (decide (c' ∈ ks)) as [Hin|Hin].
      + by rewrite decide_True by by right.
      + by rewrite decide_False by by rewrite not_elem_of_cons. }
  by setoid_rewrite Hext.
Qed.

Lemma table_of_ext f g deltas : (∀ c, f c = g c) → table_of f deltas → table_of g deltas.
Proof. intros Hfg Hf k e. rewrite (Hf k e). by setoid_rewrite Hfg. Qed.

#[local] Instance touched_dec c ts : Decision (touched c ts).
Proof. unfold touched. apply _. Defined.

Lemma untouched_delta c ts : ¬ touched c ts → delta_of c ts = 0%Z.
Proof.
  unfold touched. induction ts as [|t ts IH]; [done|]. rewrite Exists_cons, delta_of_cons. intros Hn.
  rewrite IH by tauto. rewrite decide_False by tauto. done.
Qed.

Lemma counter_deltas_from f deltas ts B :
  table_of f deltas → Forall (λ t : QueryQuad * bool, query_quad_fit t.1) ts →
  (∀ c, - B ≤ default 0 (f c) ≤ B)%Z → (B + Z.of_nat (length ts) < 2 ^ 127)%Z →
  ∃ deltas', try_fold (λ deltas (t : QueryQuad * bool),
      try_fold (λ deltas counter, add_delta deltas counter (if t.2 then 1 else -1)%Z)
        deltas (live_counter_keys t.1)) deltas ts = Ok deltas' ∧
    table_of (λ c, if decide (touched c ts) then Some (default 0 (f c) + delta_of c ts)%Z else f c) deltas'.
Proof.
  intros Hf Hts. revert f deltas B Hf; induction Hts as [|t ts Ht _ IH]; intros f deltas B Hf HB Hcap.
  { exists deltas. split; [done|]. eapply table_of_ext; [|done]. intros c. by rewrite decide_False by inversion 1. }
  cbn [length] in Hcap. cbn [try_fold].
  destruct (add_deltas_ok f deltas (live_counter_keys t.1) (if t.2 then 1 else -1)%Z) as (deltas1 & -> & Hf1).
  { done. }
  { apply live_counter_keys_nodup. }
  { apply Forall_forall. intros c. by apply live_counter_keys_fit. }
  { intros c _. specialize (HB c). destruct t.2; lia. }
  cbn [mbind outcome_bind]. destruct (IH _ _ (B + 1)%Z Hf1) as (deltas2 & Hd & Hf2).
  { intros c. specialize (HB c). case_decide; cbn; [destruct t.2|]; lia. }
  { lia. }
  exists deltas2. split; [exact Hd|]. eapply table_of_ext; [|exact Hf2]. intros c. cbn beta.
  assert (touched c (t :: ts) ↔ c ∈ live_counter_keys t.1 ∨ touched c ts) as Htouch by apply Exists_cons.
  destruct (decide (c ∈ live_counter_keys t.1)) as [Hc|Hc].
  - rewrite (decide_True (P := touched c (t :: ts))) by tauto.
    rewrite delta_of_cons, (decide_True (P := c ∈ _)) by done.
    case_decide as Hts; cbn; f_equal; [lia|]. rewrite (untouched_delta c ts) by done. lia.
  - rewrite delta_of_cons, (decide_False (P := c ∈ _)) by done. destruct (decide (touched c ts)) as [He|He].
    + rewrite decide_True by tauto. f_equal. lia.
    + by rewrite decide_False by tauto.
Qed.

Lemma counter_deltas_ok ts :
  Forall (λ t : QueryQuad * bool, query_quad_fit t.1) ts → (Z.of_nat (length ts) < 2 ^ 64)%Z →
  ∃ deltas, counter_deltas ts = Ok deltas ∧
    table_of (λ c, if decide (touched c ts) then Some (delta_of c ts) else None) deltas.
Proof.
  intros Hts Hlen. destruct (counter_deltas_from (λ _, None) ∅ ts 0) as (deltas & Hd & Hf); try done.
  - intros k e. rewrite lookup_empty. naive_solver.
  - lia.
  - exists deltas. split; [exact Hd|]. eapply table_of_ext; [|exact Hf]. intros c. cbn. by case_decide.
Qed.

Lemma adjusted_counter_ok a d b :
  Z.of_N b = (Z.of_N a + d)%Z → (a ≤ u64_max)%N → (b ≤ u64_max)%N → adjusted_counter a d = Some b.
Proof.
  unfold adjusted_counter, checked_add, max_of. change (2 ^ 64 - 1)%N with 18446744073709551615%N.
  change (2 ^ 64)%Z with 18446744073709551616%Z. intros Hab Ha Hb.
  case_decide.
  - rewrite decide_True by lia. rewrite decide_True by lia. f_equal. lia.
  - rewrite decide_True by lia. rewrite decide_True by lia. f_equal. lia.
Qed.

Lemma read_count_be c n :
  (n ≤ u64_max)%N →
  read_count (be_bytes 8 <$> stored_count c n) =
    match stored_count c n with Some n => Value n | None => Missing end.
Proof.
  intros Hn. unfold stored_count. destruct (is_total c || _); [|done].
  cbn [fmap option_fmap option_map read_count]. by rewrite decode_index_count_be by by apply u64_fit_le.
Qed.

(** ** Prefix scans find rows *)

Lemma prefix_nonempty_spec key R space xs (parts rest : QueryQuad → list N) :
  space_ok key R space → (∀ x, x ∈ R → Forall u64_fit (parts x)) → Forall u64_fit xs →
  (∀ x, key x = query_index_key (parts x ++ rest x)) → (∀ x, length xs = length (parts x)) →
  prefix_nonempty space (query_index_prefix xs) = true ↔ ∃ x, x ∈ R ∧ parts x = xs.
Proof.
  intros Hs Hfit Hxs Hkey Hlen. unfold prefix_nonempty. rewrite bool_decide_eq_true, Exists_exists. split.
  - intros ([k v] & (_ & x & Hx & ->)%elem_of_map_to_list%Hs & Hp). cbn in Hp. exists x. split; [done|].
    rewrite Hkey in Hp. apply query_index_prefix_exact in Hp; auto.
  - intros (x & Hx & <-). exists (key x, []). split; [apply elem_of_map_to_list, Hs; eauto|].
    cbn. rewrite Hkey. apply query_index_prefix_exact; auto.
Qed.

Lemma count_zero R c : count R c = 0%N ↔ ∀ x, x ∈ R → c ∉ live_counter_keys x.
Proof.
  unfold count. set (X := filter _ R). transitivity (size X = 0%nat); [lia|].
  rewrite size_empty_iff. unfold X. split.
  - intros He x Hx Hc. apply (not_elem_of_empty (C := gset QueryQuad) x), He.
    by apply elem_of_filter.
  - intros Hn. apply elem_of_equiv_empty. intros x [Hc Hx]%elem_of_filter. by eapply Hn.
Qed.

(** A counter's scan finds a row exactly when the count is positive. *)
Lemma counter_has_rows_ok sp R c :
  rows_ok sp R → counter_fit c → c ≠ Total → c ≠ UnionDuplicateFree →
  counter_has_rows sp c = bool_decide (count R c ≠ 0%N).
Proof.
  intros HR Hc Ht Hu.
  assert (∀ (b : bool) (P : QueryQuad → Prop), (b = true ↔ ∃ x, x ∈ R ∧ P x) →
    (∀ x, P x ↔ c ∈ live_counter_keys x) → b = bool_decide (count R c ≠ 0%N)) as Hb.
  { intros b P Hb HP. apply eq_true_iff_eq. rewrite Hb, bool_decide_eq_true, count_zero. split.
    - intros (x & Hx & Hp) Hn. by eapply Hn, HP.
    - intros Hn. destruct (decide (set_Exists (λ x, c ∈ live_counter_keys x) R)) as [(x & Hx & Hp)|Hno].
      + exists x. split; [done|]. by apply HP.
      + exfalso. apply Hn. intros x Hx Hcx. apply Hno. by exists x. }
  unfold live_counter_keys in Hb.
  destruct HR as [Hfit _ Hgpos _ Hposg _ _].
  assert (∀ x, x ∈ R → Forall u64_fit [qq_graph x; qq_predicate x; qq_object x]) as Hf.
  { intros x Hx. destruct (Hfit x Hx) as (?&?&?&?). by repeat constructor. }
  destruct c as [| |g|p|g p|p o|g p o]; cbn [counter_has_rows counter_fit] in *; try done; eapply Hb.
  - apply (prefix_nonempty_spec gpos_key R _ [g] (λ x, [qq_graph x])
      (λ x, [qq_predicate x; qq_object x; qq_subject x])); try done; [|rewrite !Forall_cons, Forall_nil; tauto].
    intros x Hx. specialize (Hf x Hx). rewrite !Forall_cons in *. tauto.
  - intros x. set_solver.
  - apply (prefix_nonempty_spec posg_key R _ [p] (λ x, [qq_predicate x])
      (λ x, [qq_object x; qq_subject x; qq_graph x])); try done; [|rewrite !Forall_cons, Forall_nil; tauto].
    intros x Hx. specialize (Hf x Hx). rewrite !Forall_cons in *. tauto.
  - intros x. set_solver.
  - apply (prefix_nonempty_spec gpos_key R _ [g; p] (λ x, [qq_graph x; qq_predicate x])
      (λ x, [qq_object x; qq_subject x])); try done; [|rewrite !Forall_cons, Forall_nil; tauto].
    intros x Hx. specialize (Hf x Hx). rewrite !Forall_cons in *. tauto.
  - intros x. set_solver.
  - apply (prefix_nonempty_spec posg_key R _ [p; o] (λ x, [qq_predicate x; qq_object x])
      (λ x, [qq_subject x; qq_graph x])); try done; [|rewrite !Forall_cons, Forall_nil; tauto].
    intros x Hx. specialize (Hf x Hx). rewrite !Forall_cons in *. tauto.
  - intros x. set_solver.
  - apply (prefix_nonempty_spec gpos_key R _ [g; p; o] (λ x, [qq_graph x; qq_predicate x; qq_object x])
      (λ x, [qq_subject x])); try done.
    rewrite !Forall_cons, Forall_nil; tauto.
  - intros x. set_solver.
Qed.

(** ** The planned counters *)

Section plan_counters.
Context (sp : IndexSpaces) (R : gset QueryQuad) (ts : list (QueryQuad * bool)).
Context (HR : rows_ok sp R) (Hcount : counters_ok (meta sp) R).
Context (Hfit : Forall (λ t : QueryQuad * bool, query_quad_fit t.1) ts) (Hflips : flips R ts).
Context (Hcap : (N.of_nat (size R + length ts) ≤ u64_max)%N).

Lemma new_count_bound c : (count (foldl row_step R ts) c ≤ u64_max)%N.
Proof.
  pose proof (count_fold R ts c Hflips). pose proof (delta_of_bound c ts). pose proof (count_le R c). lia.
Qed.

Lemma counter_update_ok c :
  counter_fit c → c ≠ UnionDuplicateFree →
  counter_update sp (c, delta_of c ts) = Ok (c, stored_count c (count (foldl row_step R ts) c)).
Proof.
  intros Hc Hu. pose proof (count_le R c) as Hle. unfold counter_update, query_index_counter.
  rewrite (Hcount c Hc Hu), read_count_be by lia.
  assert (adjusted_counter (count R c) (delta_of c ts) = Some (count (foldl row_step R ts) c)) as Hadj.
  { apply adjusted_counter_ok; [by apply count_fold|lia|apply new_count_bound]. }
  unfold stored_count. destruct (decide (c = Total)) as [->|Ht]; [cbn; by rewrite Hadj|].
  assert (is_total c = false) as -> by (by destruct c). cbn [negb andb orb].
  rewrite (counter_has_rows_ok sp R) by done.
  destruct (decide (count R c = 0%N)) as [Hz|Hz].
  - rewrite (bool_decide_eq_false_2 (count R c ≠ 0%N)) by naive_solver. cbn.
    rewrite <- Hz, Hadj. done.
  - rewrite (bool_decide_eq_true_2 (count R c ≠ 0%N)) by done. cbn.
    rewrite (bool_decide_eq_true_2 (count R c ≠ 0%N)) by done. cbn. by rewrite Hadj.
Qed.

(** The updates: one per touched counter, with the count after. *)
Lemma counter_updates_ok deltas :
  table_of (λ c, if decide (touched c ts) then Some (delta_of c ts) else None) deltas →
  ∃ us, try_map (counter_update sp) (btree_iter deltas).*2 = Ok us ∧
    NoDup (counter_bytes ∘ fst <$> us) ∧
    ∀ c v, (c, v) ∈ us ↔ counter_fit c ∧ touched c ts ∧ v = stored_count c (count (foldl row_step R ts) c).
Proof.
  intros Ht.
  assert (∀ k e, (k, e) ∈ btree_iter deltas ↔
    ∃ c, counter_fit c ∧ touched c ts ∧ k = counter_bytes c ∧ e = (c, delta_of c ts)) as Hiter.
  { intros k e. rewrite elem_of_btree_iter, (Ht k e). split.
    - intros (c & z & Hc & Hz & -> & ->). case_decide; naive_solver.
    - intros (c & Hc & Htc & -> & ->). exists c, (delta_of c ts). by rewrite decide_True. }
  assert (∀ c, touched c ts → c ≠ UnionDuplicateFree) as Hu.
  { intros c [t [_ Hin]]%Exists_exists ->. by apply union_not_counted in Hin. }
  pose (upd := λ e : IndexCounterKey * Z, (e.1, stored_count e.1 (count (foldl row_step R ts) e.1))).
  exists (upd <$> (btree_iter deltas).*2). split_and!.
  - apply try_map_ok, Forall2_fmap_r, Forall_Forall2_diag, Forall_forall.
    intros e ([k e'] & -> & (c & Hc & Htc & -> & ->)%Hiter)%list_elem_of_fmap. by apply counter_update_ok; auto.
  - replace (counter_bytes ∘ fst <$> _) with ((btree_iter deltas).*1); [apply btree_iter_nodup|].
    rewrite <- !list_fmap_compose. apply list_fmap_ext. intros i [k e] Hi%list_elem_of_lookup_2.
    apply Hiter in Hi as (c & _ & _ & -> & ->). done.
  - intros c v. rewrite list_elem_of_fmap. split.
    + intros (e & Heq & ([k e'] & -> & (c' & Hc & Htc & -> & ->)%Hiter)%list_elem_of_fmap).
      unfold upd in Heq. cbn in Heq. injection Heq as -> ->. done.
    + intros (Hc & Htc & ->). exists (c, delta_of c ts). split; [done|]. apply list_elem_of_fmap.
      exists (counter_bytes c, (c, delta_of c ts)). split; [done|]. apply Hiter. eauto.
Qed.
End plan_counters.

Lemma put_counters_other mt us k : k ∉ counter_bytes ∘ fst <$> us → foldl put_counter mt us !! k = mt !! k.
Proof.
  revert mt; induction us as [|u us IH]; intros mt; [done|]. cbn [foldl fmap list_fmap].
  intros [Hk Hus]%not_elem_of_cons. rewrite IH by done. unfold put_counter.
  destruct (u.2); [by rewrite lookup_insert_ne|by rewrite lookup_delete_ne].
Qed.

Lemma put_counters_hit mt us u :
  NoDup (counter_bytes ∘ fst <$> us) → u ∈ us →
  foldl put_counter mt us !! counter_bytes u.1 = be_bytes 8 <$> u.2.
Proof.
  revert mt; induction us as [|u' us IH]; intros mt; [by intros _ ?%elem_of_nil|].
  cbn [foldl fmap list_fmap]. intros [Hnot Hnd]%NoDup_cons [->|Hu]%elem_of_cons; [|by apply IH].
  rewrite put_counters_other by done. unfold put_counter.
  destruct (u'.2); [by rewrite lookup_insert_eq|by rewrite lookup_delete_eq].
Qed.

(** ** Uniqueness across graphs *)

Definition union_unique (R : gset QueryQuad) : Prop :=
  ∀ x y, x ∈ R → y ∈ R → spo_of x = spo_of y → x = y.

Lemma index_spo_exists_ok sp R x :
  rows_ok sp R → query_quad_fit x → index_spo_exists sp x = true ↔ ∃ y, y ∈ R ∧ spo_of y = spo_of x.
Proof.
  intros HR (Hg & Hs & Hp & Ho). unfold index_spo_exists.
  assert (take 24 (spog_key x) = query_index_prefix [qq_subject x; qq_predicate x; qq_object x]) as ->.
  { unfold spog_key, query_index_key, query_index_prefix.
    change [qq_subject x; qq_predicate x; qq_object x; qq_graph x]
      with ([qq_subject x; qq_predicate x; qq_object x] ++ [qq_graph x]).
    rewrite bind_app. apply take_app_length'. symmetry.
    exact (query_index_key_length [qq_subject x; qq_predicate x; qq_object x]). }
  rewrite (prefix_nonempty_spec spog_key R _ _ (λ y, [qq_subject y; qq_predicate y; qq_object y])
    (λ y, [qq_graph y])); [|apply HR| |by repeat constructor|done|done].
  - unfold spo_of. split; intros (y & Hy & Heq); exists y; (split; [done|]); congruence.
  - intros y Hy. destruct (rk_fit _ _ HR y Hy) as (?&?&?&?). by repeat constructor.
Qed.

(** The rows a transition list inserts. *)
Definition inserts (ts : list (QueryQuad * bool)) : list QueryQuad :=
  (filter (λ t : QueryQuad * bool, t.2 = true) ts).*1.

Lemma inserts_cons x b ts : inserts ((x, b) :: ts) = if b then x :: inserts ts else inserts ts.
Proof. unfold inserts. rewrite filter_cons. destruct b; [by rewrite decide_True|by rewrite decide_False]. Qed.

Lemma elem_of_inserts x ts : x ∈ inserts ts ↔ (x, true) ∈ ts.
Proof.
  unfold inserts. rewrite list_elem_of_fmap. split.
  - intros ([y b] & -> & [Hb Hin]%list_elem_of_filter). cbn in *. by subst.
  - intros Hin. exists (x, true). split; [done|]. by apply list_elem_of_filter.
Qed.

Section union.
Context (sp : IndexSpaces) (R : gset QueryQuad) (new_terms : gset N).
Context (HR : rows_ok sp R).
Context (Hnew : ∀ y, y ∈ R → qq_subject y ∉ new_terms ∧ qq_predicate y ∉ new_terms ∧ qq_object y ∉ new_terms).

Definition separate (x : QueryQuad) : Prop := ∀ y, y ∈ R → spo_of y ≠ spo_of x.

Lemma new_term_separate x :
  qq_subject x ∈ new_terms ∨ qq_predicate x ∈ new_terms ∨ qq_object x ∈ new_terms → separate x.
Proof.
  intros Hx y Hy [= Hs Hp Ho]. destruct (Hnew y Hy) as (?&?&?). rewrite Hs, Hp, Ho in *. tauto.
Qed.

Lemma absent_separate x : query_quad_fit x → index_spo_exists sp x = false → separate x.
Proof.
  intros Hfit Hx y Hy Heq. apply not_true_iff_false in Hx. apply Hx.
  apply (index_spo_exists_ok sp R); eauto.
Qed.

Lemma insertions_unique_sound ts inserted :
  Forall (λ t : QueryQuad * bool, query_quad_fit t.1) ts →
  insertions_unique sp new_terms inserted ts = true →
  NoDup (spo_of <$> inserts ts) ∧ Forall (λ x, spo_of x ∉ inserted ∧ separate x) (inserts ts).
Proof.
  intros Hfit. revert inserted; induction Hfit as [|[x b] ts Hx _ IH]; intros inserted Hgo; cbn in Hgo.
  { split; constructor. }
  rewrite inserts_cons. destruct b; cbn in Hgo; [|by apply IH].
  case_decide as Hin; [done|].
  assert (separate x ∧ insertions_unique sp new_terms ({[spo_of x]} ∪ inserted) ts = true) as [Hsep Hgo'].
  { case_decide as Hn; [split; [by apply new_term_separate|done]|].
    destruct (index_spo_exists sp x) eqn:E; [done|]. split; [by apply absent_separate|done]. }
  destruct (IH _ Hgo') as [Hnd Hall]. rewrite Forall_forall in Hall. split.
  - cbn. apply NoDup_cons. split; [|done].
    intros (y & Heq & Hy)%list_elem_of_fmap. destruct (Hall y Hy) as [Hno _].
    rewrite <- Heq in Hno. apply Hno, elem_of_union_l, elem_of_singleton. done.
  - apply Forall_cons. split; [done|]. apply Forall_forall. intros y Hy. destruct (Hall y Hy) as [Hno ?].
    split; [|done]. intros Hy'. by apply Hno, elem_of_union_r.
Qed.

(** Whichever of the two checks ran, an affirmative answer keeps the rows
    unique across graphs. *)
Lemma union_preserved ts :
  Forall (λ t : QueryQuad * bool, query_quad_fit t.1) ts → NoDup ts.*1 → union_unique R →
  NoDup (spo_of <$> inserts ts) → Forall separate (inserts ts) → union_unique (foldl row_step R ts).
Proof.
  intros Hfit Hnd HU Hins Hsep x y. rewrite !foldl_row_step by done. rewrite Forall_forall in Hsep.
  intros [Hx|[Hx _]] [Hy|[Hy _]] Heq; rewrite <- ?elem_of_inserts in *.
  - apply list_elem_of_lookup in Hx as [i Hi]. apply list_elem_of_lookup in Hy as [j Hj].
    assert (i = j) as <-; [|by simplify_eq].
    eapply NoDup_lookup; [exact Hins| |]; rewrite list_lookup_fmap; [by rewrite Hi|by rewrite Hj, Heq].
  - by destruct (Hsep x Hx y Hy).
  - by destruct (Hsep y Hy x Hx).
  - by apply HU.
Qed.
End union.

(** ** Metadata *)

Definition union_ok (mt : gmap bytes bytes) (R : gset QueryQuad) : Prop :=
  ∃ b : bool, mt !! counter_bytes UnionDuplicateFree = Some (be_bytes 8 (if b then 1 else 0)) ∧
    (b = true → union_unique R).

Definition revisions_ok (mt : gmap bytes bytes) : Prop :=
  ∀ p, u64_fit p → read_count (mt !! predicate_revision_key p) ≠ CounterMalformed.

Lemma revision_not_counter p c : predicate_revision_key p ≠ counter_bytes c.
Proof. by destruct c. Qed.
Lemma header_not_counter c : QV_HEADER_KEY ≠ counter_bytes c.
Proof. by destruct c. Qed.
Lemma header_not_revision p : QV_HEADER_KEY ≠ predicate_revision_key p.
Proof. done. Qed.

Lemma put_revisions_other mt us k :
  (∀ p, k ≠ predicate_revision_key p) → foldl put_revision mt us !! k = mt !! k.
Proof.
  intros Hk. revert mt; induction us as [|u us IH]; intros mt; [done|]. cbn [foldl]. rewrite IH.
  unfold put_revision. by rewrite lookup_insert_ne.
Qed.

Lemma put_revisions_ok mt us :
  revisions_ok mt → Forall (λ u, u64_fit u.1 ∧ u64_fit u.2) us → revisions_ok (foldl put_revision mt us).
Proof.
  intros Hmt Hus. revert mt Hmt; induction Hus as [|u us [Hu1 Hu2] _ IH]; intros mt Hmt; [done|].
  cbn [foldl]. apply IH. intros p Hp. unfold put_revision.
  destruct (decide (predicate_revision_key u.1 = predicate_revision_key p)) as [->|Hne].
  - rewrite lookup_insert_eq. cbn [read_count]. by rewrite decode_index_count_be.
  - rewrite lookup_insert_ne by done. by apply Hmt.
Qed.

Lemma put_counters_revisions mt us : revisions_ok mt → revisions_ok (foldl put_counter mt us).
Proof.
  intros Hmt p Hp. rewrite put_counters_other; [by apply Hmt|].
  intros (u & Heq & _)%list_elem_of_fmap. by apply (revision_not_counter p u.1).
Qed.

Lemma revision_updates_ok sp ps :
  revisions_ok (meta sp) → Forall u64_fit ps →
  (∀ p n, u64_fit p → query_revision sp p = Value n → (n < u64_max)%N) →
  ∃ us, try_map (revision_update sp) ps = Ok us ∧ Forall (λ u, u64_fit u.1 ∧ u64_fit u.2) us.
Proof.
  intros Hrev Hps Hcap. induction Hps as [|p ps Hp _ (us & IH & Hus)]; [by exists []|].
  assert (∃ n, revision_update sp p = Ok (p, n) ∧ u64_fit n) as (n & Hn & Hfit).
  { unfold revision_update. specialize (Hrev p Hp). specialize (Hcap p).
    unfold query_revision in *. destruct (read_count _) as [|n|]; [| |done]; cbn.
    - exists 1%N. done.
    - specialize (Hcap n Hp eq_refl). unfold checked_add. rewrite decide_True by lia.
      exists (n + 1)%N. split; [done|]. apply u64_fit_le. lia. }
  exists ((p, n) :: us). cbn [try_map]. rewrite Hn, IH. split; [done|]. by constructor.
Qed.

Lemma count_total R : count R Total = N.of_nat (size R).
Proof.
  unfold count. do 2 f_equal. apply set_eq. intros x. rewrite elem_of_filter.
  split; [naive_solver|]. intros Hx. split; [by left|done].
Qed.

(** ** The slot invariant *)

Record slot_ok (sp : IndexSpaces) (next : N) (m : gmap TermId N) (R : gset QueryQuad)
    (live : gset EncodedQuad) : Prop := {
  sl_ids : ids_ok sp m next;
  sl_rows : rows_ok sp R;
  sl_live : rows_live m R live;
  sl_counters : counters_ok (meta sp) R;
  sl_union : union_ok (meta sp) R;
  sl_revisions : revisions_ok (meta sp);
}.

Lemma slot_ok_meta sp next m R live mt :
  (∀ c, mt !! counter_bytes c = meta sp !! counter_bytes c) →
  (∀ p, mt !! predicate_revision_key p = meta sp !! predicate_revision_key p) →
  slot_ok sp next m R live → slot_ok (set_meta sp mt) next m R live.
Proof.
  intros Hc Hp [[] [] Hl Hcnt Hu Hr]. split; [by split|by split|done|..]; cbn [meta set_meta].
  - intros c Hfit Hne. rewrite Hc. by apply Hcnt.
  - destruct Hu as (b & Hb & HU). exists b. by rewrite Hc.
  - intros p Hfit. rewrite Hp. by apply Hr.
Qed.

(** Room for one update: identifiers, counts, epoch and revisions do not
    reach the end of [u64]. *)
Record capacity (sp : IndexSpaces) (h : IndexHeader) (l : list NetQuadTransition) : Prop := {
  ca_ids : (next_query_id h + 4 * N.of_nat (length l) ≤ u64_max)%N;
  ca_rows : (indexed_quads h + N.of_nat (length l) ≤ u64_max)%N;
  ca_epoch : (source_epoch h < u64_max)%N;
  ca_revisions p n : u64_fit p → query_revision sp p = Value n → (n < u64_max)%N;
}.

Lemma foldl_put_mapping_frame sp ms :
  let sp' := foldl put_mapping sp ms in
  gspo sp' = gspo sp ∧ gpos sp' = gpos sp ∧ spog sp' = spog sp ∧ posg sp' = posg sp ∧
  ospg sp' = ospg sp ∧ gosp sp' = gosp sp ∧ meta sp' = meta sp.
Proof.
  revert sp; induction ms as [|e ms IH]; intros sp; cbn [foldl]; [done|]. apply (IH (put_mapping sp e)).
Qed.

(** The rows and identifiers after the plan is staged. *)
Lemma plan_spaces_ids sp plan m next :
  ids_ok (foldl put_mapping sp (plan_mappings plan)) m next → ids_ok (plan_spaces sp plan) m next.
Proof.
  intros []. unfold plan_spaces.
  destruct (foldl_put_rows_frame (foldl put_mapping sp (plan_mappings plan)) (plan_transitions plan)) as (Hf & Hr & _).
  split; cbn [set_meta term_to_query query_to_term]; rewrite ?Hf, ?Hr; done.
Qed.

Lemma plan_spaces_rows sp plan R :
  rows_ok sp R → Forall (λ t : QueryQuad * bool, query_quad_fit t.1) (plan_transitions plan) →
  rows_ok (plan_spaces sp plan) (foldl row_step R (plan_transitions plan)).
Proof.
  intros HR Hfit. unfold plan_spaces.
  assert (rows_ok (foldl put_mapping sp (plan_mappings plan)) R) as HR'.
  { destruct (foldl_put_mapping_frame sp (plan_mappings plan)) as (E1&E2&E3&E4&E5&E6&_).
    destruct HR. split; by rewrite ?E1, ?E2, ?E3, ?E4, ?E5, ?E6. }
  pose proof (foldl_put_rows_ok _ _ _ HR' Hfit) as []. by split.
Qed.

Lemma plan_spaces_meta sp plan :
  meta (plan_spaces sp plan) =
    foldl put_revision (foldl put_counter (meta sp) (plan_counters plan)) (plan_revisions plan).
Proof.
  unfold plan_spaces. cbn [meta set_meta].
  destruct (foldl_put_rows_frame (foldl put_mapping sp (plan_mappings plan)) (plan_transitions plan)) as (_ & _ & ->).
  destruct (foldl_put_mapping_frame sp (plan_mappings plan)) as (_&_&_&_&_&_& ->). done.
Qed.

Lemma find_total (us : list IndexCounterUpdate) n :
  (∃ v, (Total, v) ∈ us) → (∀ v, (Total, v) ∈ us → v = Some n) →
  (list_find (λ u : IndexCounterUpdate, is_total u.1 = true) us ≫= λ iu, iu.2.2) = Some n.
Proof.
  intros [v Hv] Hall.
  destruct (list_find_elem_of (λ u : IndexCounterUpdate, is_total u.1 = true) us (Total, v) Hv eq_refl)
    as [[i u] Hf].
  rewrite Hf. cbn. apply list_find_Some in Hf as (Hi%list_elem_of_lookup_2 & Hu & _).
  destruct u as [[] w]; try done. by apply Hall.
Qed.

Section plan_update.
Context (sp : IndexSpaces) (next : N) (m : gmap TermId N) (R : gset QueryQuad) (live : gset EncodedQuad).
Context (Hslot : slot_ok sp next m R live).
Context (m' : gmap TermId N) (r : TermResolver) (Hr : resolver_ok sp m next m' r).
Context (ts : list (QueryQuad * bool)).
Context (Hfit : Forall (λ t : QueryQuad * bool, query_quad_fit t.1) ts).
Context (Hnd : NoDup ts.*1) (Hflip : Forall (λ t : QueryQuad * bool, t.1 ∈ R ↔ t.2 = false) ts).

Lemma new_ids_separate y :
  y ∈ R → let new_terms := list_to_set (mappings r).*2 : gset N in
  (qq_subject y ∉ new_terms) ∧ (qq_predicate y ∉ new_terms) ∧ (qq_object y ∉ new_terms).
Proof.
  intros (q & _ & (_ & Hs & Hp & Ho)%query_of_some)%(rl_rows _ _ _ (sl_live _ _ _ _ _ Hslot)). cbn zeta.
  assert (∀ t x, m !! t = Some x → x ∉ (list_to_set (mappings r).*2 : gset N)) as Hold.
  { intros t x Hx Hin%elem_of_list_to_set%(ro_fresh _ _ _ _ _ Hr).
    apply (io_range _ _ _ (sl_ids _ _ _ _ _ Hslot)) in Hx. lia. }
  split_and!; eauto.
Qed.

Lemma keeps_union_sound :
  match ts with
  | [t] => transition_keeps_union sp t (mappings r)
  | _ => insertions_keep_union sp ts (list_to_set (mappings r).*2)
  end = true →
  union_unique R → union_unique (foldl row_step R ts).
Proof.
  pose proof (sl_rows _ _ _ _ _ Hslot) as HR. intros Hkeep HU.
  assert (insertions_unique sp (list_to_set (mappings r).*2) ∅ ts = true) as Hins.
  { destruct ts as [|[x b] [|t2 ts']]; [done| |exact Hkeep].
    unfold transition_keeps_union in Hkeep; cbn in Hkeep |- *. destruct b; cbn in *; [|done].
    rewrite decide_False by apply not_elem_of_empty. case_bool_decide as Hex.
    - rewrite decide_True; [done|]. apply Exists_exists in Hex as (e & He & Hx).
      apply (list_elem_of_fmap_2 snd) in He. rewrite !elem_of_list_to_set.
      destruct Hx as [<-|[<-|<-]]; auto.
    - case_decide; [done|]. destruct (index_spo_exists sp x); done. }
  destruct (insertions_unique_sound sp R _ HR new_ids_separate ts ∅ Hfit Hins) as [H1 H2].
  eapply union_preserved; try done. eapply Forall_impl; [exact H2|]. naive_solver.
Qed.

Context (h : IndexHeader) (slot : IndexSlot).
Context (Hrows : indexed_quads h = N.of_nat (size R)) (Hlive : source_live_quads h = indexed_quads h).
Context (Hroom : (N.of_nat (size R + length ts) ≤ u64_max)%N) (Hepoch : (source_epoch h < u64_max)%N).
Context (Hrev : ∀ p n, u64_fit p → query_revision sp p = Value n → (n < u64_max)%N).

Definition updated_header : IndexHeader :=
  {| active_slot := active_slot h; state := Ready; source_epoch := source_epoch h + 1;
     index_epoch := source_epoch h + 1;
     source_live_quads := N.of_nat (size (foldl row_step R ts));
     indexed_quads := N.of_nat (size (foldl row_step R ts));
     last_build_sequence := last_build_sequence h; query_id_generation := query_id_generation h;
     next_query_id := resolver_next r |}.

(** The counter updates of the plan, and the reset of the uniqueness flag. *)
Definition union_reset (flag keep : bool) : list IndexCounterUpdate :=
  if flag && negb (negb flag || keep) then [(UnionDuplicateFree, Some 0%N)] else [].

Lemma elem_of_reset flag keep c v :
  (c, v) ∈ union_reset flag keep → c = UnionDuplicateFree ∧ v = Some 0%N.
Proof.
  unfold union_reset. destruct (flag && _); [|by intros ?%elem_of_nil].
  by intros [=]%list_elem_of_singleton.
Qed.

Definition planned_updates (us : list IndexCounterUpdate) : Prop :=
  NoDup (counter_bytes ∘ fst <$> us) ∧
  ∀ c v, (c, v) ∈ us ↔ counter_fit c ∧ touched c ts ∧ v = stored_count c (count (foldl row_step R ts) c).

Lemma planned_not_union us c v : planned_updates us → (c, v) ∈ us → c ≠ UnionDuplicateFree.
Proof.
  intros [_ Hmem] (_ & [t [_ Ht]]%Exists_exists & _)%Hmem ->. by apply union_not_counted in Ht.
Qed.

Lemma planned_reset_nodup us flag keep :
  planned_updates us → NoDup (counter_bytes ∘ fst <$> us ++ union_reset flag keep).
Proof.
  intros Hus. pose proof Hus as [Hnodup Hmem]. rewrite fmap_app. apply NoDup_app. split; [done|]. split.
  - intros k ([c v] & -> & Hu)%list_elem_of_fmap ([c' v'] & Heq & [-> ->]%elem_of_reset)%list_elem_of_fmap.
    apply (planned_not_union us c v Hus Hu). apply Hmem in Hu as (Hc & _).
    by apply (counter_bytes_inj c UnionDuplicateFree).
  - unfold union_reset. destruct (flag && _); repeat constructor. apply not_elem_of_nil.
Qed.

Lemma planned_counters us flag keep revs :
  planned_updates us → flips R ts →
  counters_ok (foldl put_revision (foldl put_counter (meta sp) (us ++ union_reset flag keep)) revs)
    (foldl row_step R ts).
Proof.
  intros Hus Hflips c Hc Hu. pose proof Hus as [_ Hmem].
  rewrite put_revisions_other by (intros p Heq; by apply (revision_not_counter p c)).
  destruct (decide (touched c ts)) as [Htc|Htc].
  - rewrite (put_counters_hit _ _ (c, stored_count c (count (foldl row_step R ts) c))); [done| |].
    + by apply planned_reset_nodup.
    + apply elem_of_app. left. by apply Hmem.
  - rewrite put_counters_other.
    + rewrite (sl_counters _ _ _ _ _ Hslot c Hc Hu). do 2 f_equal. pose proof (count_fold R ts c Hflips) as Hf.
      rewrite (untouched_delta c ts Htc) in Hf. lia.
    + intros ([c' v] & Heq & [Hin|[-> _]%elem_of_reset]%elem_of_app)%list_elem_of_fmap; cbn in Heq.
      * apply Hmem in Hin as (Hc' & Htc' & _). apply counter_bytes_inj in Heq; [congruence|done|done].
      * by apply Hu, (counter_bytes_inj c UnionDuplicateFree).
Qed.

Lemma planned_union us (flag keep : bool) revs :
  planned_updates us →
  meta sp !! counter_bytes UnionDuplicateFree = Some (be_bytes 8 (if flag then 1 else 0)) →
  (flag = true → keep = true → union_unique (foldl row_step R ts)) →
  union_ok (foldl put_revision (foldl put_counter (meta sp) (us ++ union_reset flag keep)) revs)
    (foldl row_step R ts).
Proof.
  intros Hus Hflag HU. pose proof Hus as [_ Hmem]. exists (flag && keep).
  rewrite put_revisions_other by (intros p Heq; by apply (revision_not_counter p UnionDuplicateFree)).
  split; [|intros [??]%andb_true_iff; auto].
  destruct (decide (flag = true ∧ keep = false)) as [[-> ->]|Hno].
  - rewrite (put_counters_hit _ _ (UnionDuplicateFree, Some 0%N)); [done|by apply planned_reset_nodup|].
    apply elem_of_app. right. by left.
  - assert (union_reset flag keep = []) as -> by (destruct flag, keep; naive_solver).
    rewrite app_nil_r, put_counters_other; [rewrite Hflag; destruct flag, keep; naive_solver|].
    intros ([c' v] & Heq & Hin)%list_elem_of_fmap. cbn in Heq.
    apply (planned_not_union us c' v Hus Hin). apply Hmem in Hin as (Hc' & _).
    by apply (counter_bytes_inj UnionDuplicateFree c') in Heq.
Qed.

Lemma plan_counts_ok :
  ts ≠ [] →
  ∃ counters revisions,
    plan_counts sp h slot (indexed_quads h) r ts = Ok
      {| plan_slot := slot; plan_transitions := ts; plan_mappings := mappings r;
         plan_counters := counters; plan_revisions := revisions; plan_header := Some updated_header |} ∧
    let mt := foldl put_revision (foldl put_counter (meta sp) counters) revisions in
    counters_ok mt (foldl row_step R ts) ∧ union_ok mt (foldl row_step R ts) ∧ revisions_ok mt.
Proof.
  intros Hne. pose proof (flips_nodup R ts Hnd Hflip) as Hflips. destruct Hslot as [_ HR _ Hcnt Hun Hrevs].
  destruct Hun as (flag & Hflag & HU).
  destruct (counter_deltas_ok ts Hfit) as (deltas & Hdeltas & Htable).
  { revert Hroom. unfold max_of. change (2 ^ 64 - 1)%N with 18446744073709551615%N.
    change (2 ^ 64)%Z with 18446744073709551616%Z. lia. }
  destruct (counter_updates_ok sp R ts HR Hcnt Hflips Hroom deltas Htable) as (us & Hus & Hnodup & Hmem).
  assert (touched Total ts) as Htotal by (destruct ts as [|t ?]; [done|]; left; by left).
  destruct (revision_updates_ok sp (elements (list_to_set ((λ t : QueryQuad * bool, qq_predicate t.1) <$> ts) : gset N)))
    as (revs & Hrevs' & Hrfit); [done| |exact Hrev|].
  { apply Forall_forall. intros p (t & -> & Ht)%elem_of_elements%elem_of_list_to_set%list_elem_of_fmap.
    rewrite Forall_forall in Hfit. by destruct (Hfit t Ht) as (_ & _ & ? & _). }
  set (keep := match ts with [t] => transition_keeps_union sp t (mappings r)
               | _ => insertions_keep_union sp ts (list_to_set (mappings r).*2) end).
  assert (planned_updates us) as Hplanned by done.
  assert (adjusted_counter (indexed_quads h) (delta_of Total ts) =
    Some (N.of_nat (size (foldl row_step R ts)))) as Hadj.
  { pose proof (new_count_bound R ts Hflips Hroom Total) as Hb. rewrite count_total in Hb.
    apply adjusted_counter_ok; [|lia|done].
    rewrite <- (count_total (foldl row_step R ts)), Hrows, <- (count_total R). by apply count_fold. }
  exists (us ++ union_reset flag keep), revs. split.
  - unfold plan_counts. unfold query_index_counter. rewrite Hflag. cbn [read_count].
    rewrite decode_index_count_be by (by destruct flag).
    assert ((match (if flag then 1 else 0)%N with 0%N => Ok false | 1%N => Ok true | _ => Err () end
      : outcome () bool) = Ok flag) as -> by (by destruct flag).
    cbn [mbind outcome_bind]. fold keep. rewrite Hdeltas. cbn [mbind outcome_bind]. rewrite Hus.
    cbn [mbind outcome_bind]. rewrite Hrevs'. cbn [mbind outcome_bind].
    match goal with |- context [if ?c then us ++ ?l else us] =>
      assert ((if c then us ++ l else us) = us ++ union_reset flag keep) as -> end.
    { unfold union_reset. destruct (flag && _); [done|]. by rewrite app_nil_r. }
    change QV_TOTAL_KEY with (counter_bytes Total).
    rewrite (table_of_lookup _ _ Total Htable) by done. rewrite decide_True by done.
    cbn [fmap option_fmap option_map snd default]. unfold id. rewrite Hlive, Hadj.
    unfold checked_add. rewrite decide_True by lia. cbn [ok_or mbind outcome_bind].
    rewrite (find_total _ (N.of_nat (size (foldl row_step R ts)))).
    + cbn [ok_or mbind outcome_bind]. rewrite decide_False by tauto. done.
    + eexists. apply elem_of_app. left. apply Hmem. done.
    + intros v [Hv|Hv]%elem_of_app.
      * apply Hmem in Hv as (_ & _ & ->). unfold stored_count; cbn. by rewrite count_total.
      * by apply elem_of_reset in Hv as [? _].
  - cbn zeta. split_and!; [by apply planned_counters| |].
    + apply planned_union; [done|done|]. intros Hf Hk. apply keeps_union_sound; auto.
    + apply put_revisions_ok; [|done]. by apply put_counters_revisions.
Qed.
End plan_update.

(** ** The view invariant *)

Record mirrors (v : QueryViews) (h : IndexHeader) (live : gset EncodedQuad) : Prop := {
  mi_header : snapshot_index_header v = Ok (HValid h);
  mi_ready : ready_is_coherent h = true;
  mi_fit : header_fit h;
  mi_slot : ∃ slot m R, decode_slot (active_slot h) = Some slot ∧
    slot_ok (query_spaces v slot) (next_query_id h) m R live ∧ indexed_quads h = N.of_nat (size R);
}.

(** A plan for the net transitions exists, and the slot it is staged in
    mirrors the new live quads. *)
Lemma plan_index_update_ok v h live live' l slot m R :
  decode_slot (active_slot h) = Some slot → ready_is_coherent h = true →
  slot_ok (query_spaces v slot) (next_query_id h) m R live → indexed_quads h = N.of_nat (size R) →
  net_transitions live live' l → Forall (λ t, quad_fit (t_quad t)) l → capacity (query_spaces v slot) h l →
  ∃ plan m' R', plan_index_update v h l = Ok plan ∧ plan_slot plan = slot ∧
    let h' := default h (plan_header plan) in
    slot_ok (plan_spaces (query_spaces v slot) plan) (next_query_id h') m' R' live' ∧
    indexed_quads h' = N.of_nat (size R') ∧ ready_is_coherent h' = true ∧
    active_slot h' = active_slot h ∧ (header_fit h → header_fit h').
Proof.
  intros Hdec Hready Hslot Hsize Hnet Hfit [Hcids Hcrows Hcepoch Hcrev].
  set (sp := query_spaces v slot) in *. pose proof Hslot as [Hids HR Hlive Hcnt Hun Hrevs].
  assert (source_live_quads h = indexed_quads h) as Hsame.
  { unfold ready_is_coherent in Hready. destruct (state h); try done.
    by apply bool_decide_eq_true in Hready as (_ & ? & _). }
  assert (Forall (λ t, quad_fit (t_quad t) ∧ (t_quad t ∈ live ↔ is_live t = false)) l) as Hl.
  { apply Forall_forall. intros t Ht. rewrite Forall_forall in Hfit. split; [by apply Hfit|].
    pose proof (nt_sound _ _ _ Hnet) as Hs. rewrite Forall_forall in Hs.
    destruct (Hs t Ht) as (Hw & _ & Hne). rewrite Hw in Hne. clear -Hne.
    case_bool_decide; destruct (is_live t); done. }
  destruct (plan_loop_ok sp m (next_query_id h) R live Hids HR Hlive l m _ [] []
    (resolver_init sp m (next_query_id h) Hids) ltac:(constructor) Hl Hcids) as (r & m' & ts & Hloop & Hr & Hplanned).
  cbn [app] in Hplanned. pose proof (ro_ids _ _ _ _ _ Hr) as Hids'.
  destruct (planned_rows m R live Hlive _ m' _ l ts live' Hids' (ro_sub _ _ _ _ _ Hr) Hnet Hfit Hplanned)
    as (Hnd & Hflip & Hlive').
  assert (Forall (λ t : QueryQuad * bool, query_quad_fit t.1) ts) as Htfit.
  { apply Forall_forall. intros t [i Hi]%list_elem_of_lookup.
    destruct (Forall2_lookup_r _ _ _ _ _ Hplanned Hi) as (t' & _ & Hq & _). by eapply query_of_fit. }
  assert (length ts = length l) as Hlen by (symmetry; by eapply Forall2_length).
  unfold plan_index_update. rewrite Hdec. cbn [ok_or mbind outcome_bind]. fold sp.
  unfold query_index_counter. rewrite (Hcnt Total I ltac:(done)), read_count_be, count_total
    by (rewrite count_total; lia).
  unfold stored_count; cbn [is_total orb]. rewrite decide_True by done. cbn [mbind outcome_bind].
  rewrite Hloop. cbn [mbind outcome_bind].
  destruct (decide (ts = [])) as [->|Hne].
  - eexists _, m', R. split; [done|]. split; [done|]. cbn [default plan_header]. unfold id.
    split; [|done]. 
    assert (resolver_next r = next_query_id h ∧ mappings r = []) as [Hn Hm].
    { destruct l; [|done]. cbn in Hloop. by injection Hloop as <-. }
    rewrite Hn, Hm in Hids'. split; try done.
    + by apply plan_spaces_ids; cbn; rewrite Hm.
    + exact (plan_spaces_rows sp {| plan_slot := slot; plan_transitions := []; plan_mappings := mappings r;
        plan_counters := []; plan_revisions := []; plan_header := None |} R HR ltac:(constructor)).
    + by rewrite plan_spaces_meta.
    + by rewrite plan_spaces_meta.
    + by rewrite plan_spaces_meta.
  - destruct (plan_counts_ok sp (next_query_id h) m R live Hslot m' r Hr ts Htfit Hnd Hflip h slot)
      as (us & revs & Hplan & Hc' & Hu' & Hr'); try done; [lia|].
    replace (N.of_nat (size R)) with (indexed_quads h) by done. rewrite Hplan.
    eexists _, m', (foldl row_step R ts). split; [done|]. split; [done|].
    cbn [default plan_header]. unfold id. split; [|split; [done|split; [|split; [done|]]]].
    + split; [by apply plan_spaces_ids|by apply plan_spaces_rows|done|..]; by rewrite plan_spaces_meta.
    + unfold ready_is_coherent in *. cbn. destruct (state h); try done.
      apply bool_decide_eq_true in Hready as (_ & _ & ?). by apply bool_decide_eq_true.
    + intros [Hs Hf]. split; [done|]. rewrite !Forall_cons in Hf |- *.
      destruct Hf as (? & ? & ? & ? & ? & ? & ? & _).
      assert (N.of_nat (size (foldl row_step R ts)) ≤ u64_max)%N as Hb.
      { rewrite <- count_total. apply new_count_bound; [by apply flips_nodup|lia]. }
      cbn. split_and!; try done; apply u64_fit_le; try done; [lia|lia|apply Hids'].
Qed.

(** ** Commits *)

Lemma read_staged_header v h :
  header_fit h → state h = Ready → snapshot_index_header (stage_index_header v h) = Ok (HValid h).
Proof.
  intros Hfit Hst. unfold snapshot_index_header, stage_index_header.
  cbn [set_spaces primary set_meta meta]. rewrite lookup_insert_eq.
  destruct (header_slices h) as (_ & E1 & _). rewrite E1.
  rewrite be_round by done. rewrite decide_False by (intros (_ & _ & ?); done).
  rewrite header_round by done. rewrite Hst. cbn. destruct h; cbn in *. by subst.
Qed.

Lemma coherent_ready h : ready_is_coherent h = true → state h = Ready.
Proof. unfold ready_is_coherent. by destruct (state h). Qed.

Lemma staged_header_slot v h slot next m R live :
  slot_ok (query_spaces v slot) next m R live →
  slot_ok (query_spaces (stage_index_header v h) slot) next m R live.
Proof.
  destruct slot; cbn; [|done]. intros Hs. apply slot_ok_meta; [..|done]; intros x;
    rewrite lookup_insert_ne; auto using header_not_counter, header_not_revision.
Qed.

Lemma query_spaces_set v slot sp : query_spaces (set_spaces v slot sp) slot = sp.
Proof. by destruct slot. Qed.

Lemma stage_query_delta_spaces len v ts v' :
  stage_query_delta len v ts = Ok v' → primary v' = primary v ∧ secondary v' = secondary v.
Proof.
  unfold stage_query_delta. intros (b & _ & H)%bind_ok.
  destruct b as [b|]; [|by simplify_eq].
  destruct (build_phase b), ts; simplify_eq; try done; case_decide; simplify_eq; try done;
    apply bind_ok in H as (nx & _ & H); by simplify_eq.
Qed.

Lemma mirrors_spaces v v' h live :
  primary v' = primary v → secondary v' = secondary v → mirrors v h live → mirrors v' h live.
Proof.
  intros Hp Hs [Hh Hr Hf Hslot]. split; try done.
  - unfold snapshot_index_header in *. by rewrite Hp.
  - destruct Hslot as (slot & m & R & Hd & Hok & Hi). exists slot, m, R. split; [done|].
    split; [|done]. destruct slot; cbn in *; congruence.
Qed.

(** The header key is not written by a plan without a header. *)
Lemma plan_header_key sp plan :
  meta (plan_spaces sp plan) !! QV_HEADER_KEY = meta sp !! QV_HEADER_KEY.
Proof.
  rewrite plan_spaces_meta, put_revisions_other by (intros p; apply header_not_revision).
  apply put_counters_other. intros (u & Heq & _)%list_elem_of_fmap. by apply (header_not_counter u.1).
Qed.

Lemma stage_plan_mirrors v h live' plan slot m' R' :
  let h' := default h (plan_header plan) in
  snapshot_index_header v = Ok (HValid h) → plan_slot plan = slot →
  decode_slot (active_slot h) = Some slot → active_slot h' = active_slot h →
  slot_ok (plan_spaces (query_spaces v slot) plan) (next_query_id h') m' R' live' →
  indexed_quads h' = N.of_nat (size R') → ready_is_coherent h' = true → header_fit h' →
  mirrors (stage_index_plan v plan) h' live'.
Proof.
  intros h' Hread <- Hdec Hact Hslot Hsize Hcoh Hfit. unfold stage_index_plan.
  destruct (plan_header plan) as [hn|] eqn:Eh; cbn in h'; subst h'.
  - split; [by apply read_staged_header, coherent_ready|done|done|].
    exists (plan_slot plan), m', R'. split; [by rewrite Hact|]. split; [|done].
    apply staged_header_slot. by rewrite query_spaces_set.
  - split; [|done|done|].
    + unfold snapshot_index_header in *. destruct (plan_slot plan); cbn [set_spaces primary query_spaces] in *;
        [by rewrite plan_header_key|done].
    + exists (plan_slot plan), m', R'. by rewrite query_spaces_set.
Qed.

Section commits.
Context `{Oxrdf} `{Blake3} (postcard_len : list NetQuadTransition → N).

(** C2: A commit keeps the query view exact: if the view mirrors the live quads of
    the store, no [u64] is exhausted and the header fits the snapshot, then the
    index update staged with any batch leaves a view that mirrors the live
    quads after the commit, and the update goes through when no build is
    running. *)
Theorem index_update_mirrors st b v h seqno :
  mirrors v h (live_set st) → staged st b → fits_snapshot h seqno = true →
  (∀ t, t ∈ coalesced_transitions (quad_mutations b) → quad_fit (t_quad t)) →
  (∀ slot, decode_slot (active_slot h) = Some slot →
    capacity (query_spaces v slot) h (coalesced_transitions (quad_mutations b))) →
  (∀ v', stage_index_update postcard_len v seqno (quad_mutations b) = Ok v' →
    ∃ h', mirrors v' h' (live_set (commit st b))) ∧
  (query_build v = Ok None →
    ∃ v' h', stage_index_update postcard_len v seqno (quad_mutations b) = Ok v' ∧
      mirrors v' h' (live_set (commit st b))).
Proof.
  intros [Hread Hcoh Hfit (slot & m & R & Hdec & Hslot & Hsize)] Hst Hseq Hquads Hcap.
  pose proof (transitions_are_net st b Hst) as Hnet.
  set (l := coalesced_transitions (quad_mutations b)) in *.
  destruct (plan_index_update_ok v h _ _ l slot m R Hdec Hcoh Hslot Hsize Hnet) as
    (plan & m' & R' & Hplan & Hps & Hslot' & Hsize' & Hcoh' & Hact & Hfit');
    [by apply Forall_forall|by apply Hcap|].
  pose proof (stage_plan_mirrors v h _ plan slot m' R' Hread Hps Hdec Hact Hslot' Hsize' Hcoh' (Hfit' Hfit)) as Hmir.
  assert (∀ active, query_build v = Ok active →
    stage_index_update postcard_len v seqno (quad_mutations b) =
      stage_query_delta postcard_len (stage_index_plan v plan) l) as Hupd.
  { intros active Ha. unfold stage_index_update. rewrite Ha, Hread. cbn [mbind outcome_bind].
    rewrite (coherent_ready h Hcoh), Hcoh, Hseq. cbn [negb orb]. fold l. by rewrite Hplan. }
  split.
  - intros v' Hv'. assert (∃ active, query_build v = Ok active) as [active Ha].
    { unfold stage_index_update in Hv'. by apply bind_ok in Hv' as (a & ? & _); eauto. }
    rewrite (Hupd active Ha) in Hv'. apply stage_query_delta_spaces in Hv' as [Hp Hs].
    eexists. by eapply mirrors_spaces.
  - intros Hb. eexists _, _. rewrite (Hupd None Hb). split; [|exact Hmir].
    unfold stage_query_delta. replace (query_build (stage_index_plan v plan)) with (query_build v); [by rewrite Hb|].
    unfold query_build, stage_index_plan. destruct (plan_header plan), (plan_slot plan); done.
Qed.
End commits.

(** The view a new store starts with mirrors the empty set of quads. *)
Lemma init_mirrors : mirrors init_views empty_ready ∅.
Proof.
  assert (header_fit empty_ready) as Hfit by (split; [by exists Primary|by repeat constructor]).
  assert (∀ k, meta (primary init_views) !! k =
    if decide (k = counter_bytes UnionDuplicateFree) then Some (be_bytes 8 1)
    else if decide (k = QV_TOTAL_KEY) then Some (be_bytes 8 0)
    else if decide (k = QV_HEADER_KEY) then Some (encode_index_header empty_ready) else None) as Hmeta.
  { intros k. unfold init_views. cbn [set_spaces primary set_meta meta stage_index_header no_views no_rows].
    rewrite !lookup_insert, lookup_empty. by repeat case_decide; subst. }
  split; [|done|done|].
  - transitivity (snapshot_index_header (stage_index_header no_views empty_ready));
      [|by apply read_staged_header].
    unfold snapshot_index_header. rewrite Hmeta. cbn [stage_index_header set_spaces primary set_meta meta].
    by rewrite lookup_insert_eq.
  - exists Primary, ∅, ∅. split; [done|]. split; [|done]. cbn [query_spaces]. split.
    + split; try done. intros x v _.
      change (query_to_term (primary init_views)) with (∅ : gmap bytes bytes).
      split; [by intros ?%lookup_empty_Some|].
      by intros (t & ?%lookup_empty_Some & _).
    + split; try done; intros k v; cbn; rewrite lookup_empty; set_solver.
    + split; set_solver.
    + intros c Hc Hu. rewrite Hmeta.
      rewrite decide_False by (intros Heq; by apply Hu, counter_bytes_inj).
      destruct (decide (c = Total)) as [->|Ht]; [done|].
      rewrite decide_False by (intros Heq; by apply Ht, counter_bytes_inj).
      rewrite decide_False by (intros Heq; by apply (header_not_counter c)).
      assert (count ∅ c = 0%N) as -> by (apply count_zero; set_solver). by destruct c.
    + exists true. rewrite Hmeta, decide_True by done. split; [done|]. intros _ x y. set_solver.
    + intros p Hp. rewrite Hmeta. by rewrite !decide_False.
Qed.

Section witness.
Import DemoOxrdf DemoBlake3.

Lemma index_update_mirrors_witness :
  ∃ v h, stage_index_update (λ _, 0%N) init_views 0 [MutInsert (sample_quad 5)] = Ok v ∧
    mirrors v h (live_set (commit empty_store
      (insert_quad empty_store new_batch (sample_quad 5) sample_dot).1)).
Proof.
  refine (proj2 (index_update_mirrors (λ _, 0%N) empty_store _ init_views empty_ready 0
    init_mirrors (staged_insert _ _ _ sample_dot (staged_new _)) eq_refl _ _) eq_refl).
  - intros t Ht. assert (t = {| t_quad := sample_quad 5; was_live := false; is_live := true |}) as ->.
    { by apply list_elem_of_singleton in Ht. }
    by repeat constructor.
  - intros slot [= <-]. split; [by vm_compute..|]. intros p n Hp. unfold query_revision.
    assert (meta (query_spaces init_views Primary) !! predicate_revision_key p = None) as ->; [|done].
    unfold init_views. cbn [set_spaces primary set_meta meta stage_index_header no_views no_rows query_spaces].
    by rewrite !lookup_insert_ne.
Defined.
End witness.
