(* ===== verification/Orphans.v ===== *)
(** * Orphaned entities ([src/internal/store.rs])

    The entities of a graph that are data entities and are not reachable from
    the root through [schema:hasPart]: a scan of the graph's live rows, then a
    breadth-first walk.  Reads hide them, so the set is also persisted with the
    graph's clock ([StoredDiagnostics]) and read back from its entity names. *)

From S2P Require Import Prelude Clock Terms Store.

(** [OrphanVocab]; [None] is a term the store has not interned. *)
Record OrphanVocab := {
  ov_rdf_type : option TermId;
  ov_data_types : list (option TermId);
  ov_has_part : option TermId;
}.

(** What the scan collects. *)
Record OrphanScan := { data_entities : gset TermId; adjacency : gmap TermId (list TermId) }.

Definition note_entity (graph entity : TermId) (X : gset TermId) : gset TermId :=
  if decide (entity = graph) then X else {[entity]} ∪ X.

(** The body of the scanning loop. *)
Definition orphan_row (graph : TermId) (vocab : OrphanVocab) (acc : OrphanScan) (quad : EncodedQuad)
    : OrphanScan :=
  let acc :=
    if decide (ov_has_part vocab = Some (quad_predicate quad)) then
      {| adjacency := <[quad_subject quad :=
           default [] (adjacency acc !! quad_subject quad) ++ [quad_object quad]]> (adjacency acc);
         data_entities := note_entity graph (quad_object quad)
           (note_entity graph (quad_subject quad) (data_entities acc)) |}
    else acc in
  if decide (ov_rdf_type vocab = Some (quad_predicate quad) ∧ quad_subject quad ≠ graph ∧
             Some (quad_object quad) ∈ ov_data_types vocab)
  then {| adjacency := adjacency acc; data_entities := {[quad_subject quad]} ∪ data_entities acc |}
  else acc.

Definition scan_orphans (graph : TermId) (vocab : OrphanVocab) (rows : list EncodedQuad) : OrphanScan :=
  foldl (orphan_row graph vocab) {| data_entities := ∅; adjacency := ∅ |} rows.

(** [if reachable.insert(neighbor) { queue.push_back(neighbor) }]. *)
Definition enqueue {A} `{Countable A} (acc : gset A * list A) (neighbor : A) : gset A * list A :=
  if decide (neighbor ∈ acc.1) then acc else ({[neighbor]} ∪ acc.1, acc.2 ++ [neighbor]).

(** The walk; every pop spends one unit of fuel. *)
Fixpoint walk {A} `{Countable A} (fuel : nat) (adj : gmap A (list A)) (reachable : gset A) (queue : list A)
    : option (gset A) :=
  match queue with
  | [] => Some reachable
  | current :: queue =>
      match fuel with
      | O => None
      | S fuel =>
          let '(reachable, queue) := foldl enqueue (reachable, queue) (default [] (adj !! current)) in
          walk fuel adj reachable queue
      end
  end.

(** A node is queued once: the root and each row's object at most. *)
Definition walk_fuel (rows : list EncodedQuad) : nat := S (length rows).

Definition orphans_of_rows (graph : TermId) (vocab : OrphanVocab) (rows : list EncodedQuad)
    : option (gset TermId) :=
  let scan := scan_orphans graph vocab rows in
  if decide (data_entities scan = ∅) then Some ∅
  else (λ reachable, data_entities scan ∖ reachable) <$> walk (walk_fuel rows) (adjacency scan) {[graph]} [graph].

Definition orphaned_entity_ids (st : Store) (graph_id : TermId) (vocab : OrphanVocab) : option (gset TermId) :=
  orphans_of_rows graph_id vocab (graph_rows st graph_id).*1.

Section diagnostics.
Context `{Blake3}.

Definition orphan_vocab (st : Store) : outcome StoreError OrphanVocab :=
  rdf_type ← lookup_term st (from_named_node vocab.rdf_type);
  dataset ← lookup_term st (from_named_node vocab.schema_dataset);
  media ← lookup_term st (from_named_node vocab.schema_media_object);
  has_part ← lookup_term st (from_named_node vocab.schema_has_part);
  Ok {| ov_rdf_type := rdf_type; ov_data_types := [dataset; media]; ov_has_part := has_part |}.

(** The name an orphan is recorded under. *)
Definition entity_name (term : EncodedTerm) : string :=
  match to_named_node term with Some iri => bytes_string iri | None => term end.

(** Decodes the orphans and records their names. *)
Definition orphan_names (st : Store) (orphans : gset TermId) : outcome StoreError GraphDiagnostics :=
  entities ← try_map (λ orphan, term ← decode_term st orphan; Ok (entity_name term)) (elements orphans);
  Ok (from_orphaned_entities entities).

(** [Panic] stands for a walk that does not end. *)
Definition compute_graph_diagnostics (st : Store) (graph : GraphId) : outcome StoreError GraphDiagnostics :=
  id ← graph_id_for st graph;
  match id with
  | None => Ok {| orphaned_entities := [] |}
  | Some graph_id =>
      vocab ← orphan_vocab st;
      match orphaned_entity_ids st graph_id vocab with
      | Some orphans => orphan_names st orphans
      | None => Panic
      end
  end.

Record StoredDiagnostics := { diagnostics : GraphDiagnostics; at_clock : VectorClock.t }.

(** The loop that reads persisted orphans back as term ids. *)
Definition stored_orphans (st : Store) (d : GraphDiagnostics) : outcome StoreError (gset TermId) :=
  try_fold (λ (X : gset TermId) entity,
    term ← lookup_term st (from_subject_id entity);
    Ok (match term with Some id => {[id]} ∪ X | None => X end)) ∅ (orphaned_entities d).
End diagnostics.

(** ** The scan *)

Section scan.
Context (graph : TermId) (vocab : OrphanVocab).

(** [x] has part [y] in the rows. *)
Definition part_of (rows : list EncodedQuad) (x y : TermId) : Prop :=
  ∃ p, ov_has_part vocab = Some p ∧
    {| quad_graph := graph; quad_subject := x; quad_predicate := p; quad_object := y |} ∈ rows.

(** An end of a part edge, or a subject typed as a data entity, other than
    the root. *)
Definition data_entity (rows : list EncodedQuad) (e : TermId) : Prop :=
  e ≠ graph ∧ ((∃ y, part_of rows e y ∨ part_of rows y e) ∨
    ∃ p c, ov_rdf_type vocab = Some p ∧ Some c ∈ ov_data_types vocab ∧
      {| quad_graph := graph; quad_subject := e; quad_predicate := p; quad_object := c |} ∈ rows).

Record scan_ok (rows : list EncodedQuad) (acc : OrphanScan) : Prop := {
  so_edges x y : y ∈ default [] (adjacency acc !! x) ↔ part_of rows x y;
  so_data e : e ∈ data_entities acc ↔ data_entity rows e;
}.

Lemma elem_of_note (g e x : TermId) X : x ∈ note_entity g e X ↔ (x = e ∧ e ≠ g) ∨ x ∈ X.
Proof. unfold note_entity. case_decide; set_solver. Qed.

Lemma part_of_snoc rows q x y :
  quad_graph q = graph →
  part_of (rows ++ [q]) x y ↔ part_of rows x y ∨
    (ov_has_part vocab = Some (quad_predicate q) ∧ x = quad_subject q ∧ y = quad_object q).
Proof.
  intros Hg. unfold part_of. setoid_rewrite elem_of_app. setoid_rewrite list_elem_of_singleton.
  destruct q as [g s p o]. cbn in *. naive_solver.
Qed.

Lemma data_entity_snoc rows q e :
  quad_graph q = graph →
  data_entity (rows ++ [q]) e ↔ data_entity rows e ∨ (e ≠ graph ∧
    ((ov_has_part vocab = Some (quad_predicate q) ∧ (e = quad_subject q ∨ e = quad_object q)) ∨
     (ov_rdf_type vocab = Some (quad_predicate q) ∧ Some (quad_object q) ∈ ov_data_types vocab ∧
      e = quad_subject q))).
Proof.
  intros Hg. unfold data_entity. setoid_rewrite part_of_snoc; [|done..].
  setoid_rewrite elem_of_app. setoid_rewrite list_elem_of_singleton.
  destruct q as [g s p o]. cbn in *. subst g. split.
  - intros [He [(y & [[|]|[|]])|(p' & c & Hp & Hc & [|[= -> -> ->]])]]; naive_solver.
  - intros [[He [(y & [|])|(p' & c & ?)]]|[He [[? [|]]|(?&?&->)]]]; split; try done; naive_solver.
Qed.

Lemma orphan_row_ok rows acc q :
  quad_graph q = graph → scan_ok rows acc → scan_ok (rows ++ [q]) (orphan_row graph vocab acc q).
Proof.
  intros Hg [He Hd].
  assert (∀ a : OrphanScan, adjacency (orphan_row graph vocab a q) =
    if decide (ov_has_part vocab = Some (quad_predicate q)) then
      <[quad_subject q := default [] (adjacency a !! quad_subject q) ++ [quad_object q]]> (adjacency a)
    else adjacency a) as Hadj.
  { intros a. unfold orphan_row. repeat case_decide; done. }
  split.
  - intros x y. rewrite Hadj, part_of_snoc by done. case_decide as Hp; [|rewrite He; naive_solver].
    destruct (decide (x = quad_subject q)) as [->|Hne].
    + rewrite lookup_insert_eq. cbn. rewrite elem_of_app, list_elem_of_singleton, He. naive_solver.
    + rewrite lookup_insert_ne, He by done. naive_solver.
  - intros e. rewrite data_entity_snoc by done. rewrite <- Hd. unfold orphan_row.
    destruct (decide (ov_has_part vocab = Some (quad_predicate q))) as [Hp|Hp];
      destruct (decide (ov_rdf_type vocab = Some (quad_predicate q) ∧ _)) as [(Ht & Hs & Hc)|Hn];
      cbn; rewrite ?elem_of_union, ?elem_of_singleton, ?elem_of_note; clear Hd He; naive_solver.
Qed.

Lemma scan_orphans_ok rows :
  (∀ q, q ∈ rows → quad_graph q = graph) → scan_ok rows (scan_orphans graph vocab rows).
Proof.
  unfold scan_orphans. induction rows as [|q rows IH] using rev_ind; intros Hg.
  - split; cbn.
    + intros x y. rewrite lookup_empty. cbn. split; [by intros ?%elem_of_nil|].
      by intros (p & _ & ?%elem_of_nil).
    + intros e. unfold data_entity, part_of. split; [set_solver|].
      intros [_ [(y & [(p & _ & []%elem_of_nil)|(p & _ & []%elem_of_nil)])|(p & c & _ & _ & []%elem_of_nil)]].
  - rewrite foldl_app. cbn. apply orphan_row_ok; [apply Hg; set_solver|].
    apply IH. intros r Hr. apply Hg. set_solver.
Qed.
End scan.

(** ** The walk *)

Section walk.
Context {A} `{Countable A} (adj : gmap A (list A)) (root : A) (nodes : gset A).
Context (Hnodes : ∀ x y, y ∈ default [] (adj !! x) → y ∈ nodes).

Definition edge (x y : A) : Prop := y ∈ default [] (adj !! x).

(** A visit adds the neighbours, queues the new ones and uses up as many
    unreached nodes. *)
Lemma enqueue_all ns R q :
  (∀ y, y ∈ ns → y ∈ nodes) →
  ∃ R' extra, foldl enqueue (R, q) ns = (R', q ++ extra) ∧
    (∀ x, x ∈ R' ↔ x ∈ R ∨ x ∈ ns) ∧ (∀ x, x ∈ R' → x ∈ R ∨ x ∈ extra) ∧ (∀ x, x ∈ extra → x ∈ R') ∧
    (length extra + size (nodes ∖ R') = size (nodes ∖ R))%nat.
Proof.
  revert R q. induction ns as [|n ns IH]; intros R q Hns.
  { exists R, []. rewrite app_nil_r. cbn. split_and!; set_solver. }
  cbn [foldl]. unfold enqueue at 2. cbn [fst snd]. case_decide as Hn.
  - destruct (IH R q) as (R' & extra & -> & HR & Hex & Hin & Hm); [set_solver|].
    exists R', extra. split_and!; set_solver.
  - destruct (IH ({[n]} ∪ R) (q ++ [n])) as (R' & extra & -> & HR & Hex & Hin & Hm); [set_solver|].
    exists R', (n :: extra). rewrite <- app_assoc. split_and!; try done; [set_solver..|].
    assert (size (nodes ∖ R) = S (size (nodes ∖ ({[n]} ∪ R)))) as ->; [|cbn; lia].
    assert (nodes ∖ R = {[n]} ∪ nodes ∖ ({[n]} ∪ R)) as ->.
    { apply set_eq. intros x. destruct (decide (x = n)) as [->|]; set_solver. }
    rewrite size_union by set_solver. by rewrite size_singleton.
Qed.

Lemma walk_spec fuel R q :
  (length q + size (nodes ∖ R) ≤ fuel)%nat → root ∈ R → (∀ x, x ∈ q → x ∈ R) →
  (∀ x y, x ∈ R → x ∉ q → edge x y → y ∈ R) → (∀ x, x ∈ R → rtc edge root x) →
  ∃ R', walk fuel adj R q = Some R' ∧ ∀ x, x ∈ R' ↔ rtc edge root x.
Proof.
  revert R q. induction fuel as [|fuel IH]; intros R [|c q] Hf Hroot Hq Hclosed Hreach; cbn [length] in Hf;
    try lia; cbn [walk].
  1-2: exists R; split; [done|]; intros x; split; [apply Hreach|];
       revert x; apply rtc_ind_r; [done|]; intros x y _ Hxy Hx; by eapply Hclosed, Hxy; [done|intros ?%elem_of_nil].
  destruct (enqueue_all (default [] (adj !! c)) R q) as (R' & extra & -> & HR & Hex & Hin & Hm); [apply Hnodes|].
  apply IH.
  - rewrite length_app. lia.
  - apply HR. by left.
  - intros x [Hx|Hx]%elem_of_app; [apply HR; left; apply Hq; by right|by apply Hin].
  - intros x y Hx Hnq Hxy. destruct (decide (x = c)) as [->|Hc]; [apply HR; by right|].
    destruct (Hex x Hx) as [HxR|Hxe]; [|exfalso; set_solver]. apply HR. left.
    apply (Hclosed x); [done| |done]. set_solver.
  - intros x [Hx|Hx]%HR; [by apply Hreach|]. eapply rtc_r; [apply (Hreach c), Hq; by left|done].
Qed.
End walk.

(** ** Orphans are the unreachable data entities *)

Lemma orphans_of_rows_spec graph vocab rows :
  (∀ q, q ∈ rows → quad_graph q = graph) →
  ∃ X, orphans_of_rows graph vocab rows = Some X ∧
    ∀ e, e ∈ X ↔ data_entity graph vocab rows e ∧ ¬ rtc (part_of graph vocab rows) graph e.
Proof.
  intros Hg. destruct (scan_orphans_ok graph vocab rows Hg) as [Hedge Hdata].
  unfold orphans_of_rows. case_decide as Hempty.
  { exists ∅. split; [done|]. intros e. split; [set_solver|]. intros [He _].
    apply Hdata in He. set_solver. }
  set (acc := scan_orphans graph vocab rows) in *.
  set (nodes := list_to_set (quad_object <$> rows) : gset TermId).
  destruct (walk_spec (adjacency acc) graph nodes) with (fuel := walk_fuel rows) (R := {[graph]} : gset TermId) (q := [graph])
    as (R & -> & HR).
  - intros x y (p & _ & Hq)%Hedge. apply elem_of_list_to_set, list_elem_of_fmap. by exists (Build_EncodedQuad graph x p y).
  - cbn [length]. unfold walk_fuel. assert (size (nodes ∖ {[graph]}) ≤ length rows)%nat; [|lia].
    transitivity (size nodes); [apply subseteq_size; set_solver|].
    unfold nodes. rewrite <- (length_fmap quad_object). apply size_list_le.
  - set_solver.
  - set_solver.
  - set_solver.
  - intros x ->%elem_of_singleton. done.
  - cbn. eexists. split; [done|]. intros e. rewrite elem_of_difference, Hdata, HR.
    assert (rtc (edge (adjacency acc)) graph e ↔ rtc (part_of graph vocab rows) graph e) as ->; [|done].
    split; intros Hr; (eapply (rtc_congruence id); [|exact Hr]); intros x y; unfold edge; by rewrite Hedge.
Qed.

Lemma graph_rows_graph st g q : q ∈ (graph_rows st g).*1 → quad_graph q = g.
Proof. intros ([? ?] & -> & Hr)%list_elem_of_fmap. unfold graph_rows in Hr. by apply list_elem_of_filter in Hr as [[]]. Qed.

Lemma elem_of_graph_rows st g q :
  q ∈ (graph_rows st g).*1 ↔ quad_graph q = g ∧ read_quad_dots st q ≠ [].
Proof.
  unfold graph_rows, read_quad_dots. rewrite list_elem_of_fmap. split.
  - intros ([q' dots] & -> & [[Hg Hd] Hr]%list_elem_of_filter). rewrite elem_of_btree_iter in Hr.
    cbn in *. by rewrite Hr.
  - intros [Hg Hd]. destruct (quads st !! q) as [dots|] eqn:E; [|done].
    exists (q, dots). split; [done|]. apply list_elem_of_filter. rewrite elem_of_btree_iter. done.
Qed.

(** C38: The orphan computation of a graph returns, and its result is exactly the
    data entities of the live rows that no path of [schema:hasPart] edges
    reaches from the root. *)
Theorem orphans_exact st g vocab (rows := (graph_rows st g).*1) :
  ∃ X, orphaned_entity_ids st g vocab = Some X ∧
    ∀ e, e ∈ X ↔ data_entity g vocab rows e ∧ ¬ rtc (part_of g vocab rows) g e.
Proof. apply orphans_of_rows_spec, graph_rows_graph. Qed.

(** ** Persisted diagnostics *)

Section round.
Context `{Blake3}.

(** The spelling of an IRI or of a blank node. *)
Definition subject_text (t : EncodedTerm) : Prop :=
  (∃ iri, t = from_named_node iri ∧ starts_with [b_underscore; b_colon] (string_bytes iri) = false) ∨
  starts_with [b_underscore; b_colon] (term_bytes t) = true.

Lemma named_node_bytes iri : term_bytes (from_named_node iri) = b_lt :: string_bytes iri ++ [b_gt].
Proof.
  unfold from_named_node, encode, term_bytes. apply string_bytes_bytes_string. constructor; [done|].
  apply Forall_app. split; [apply string_bytes_byte_list|by repeat constructor].
Qed.

Lemma to_named_node_from iri : to_named_node (from_named_node iri) = Some (string_bytes iri).
Proof.
  unfold to_named_node. rewrite named_node_bytes.
  rewrite (proj2 (starts_with_spec [b_lt] _)) by by eexists.
  rewrite (proj2 (ends_with_spec [b_gt] _)) by by exists (b_lt :: string_bytes iri).
  cbn [andb length drop]. rewrite length_app. cbn [length]. f_equal. apply take_app_length'. lia.
Qed.

(** A subject's recorded name denotes the subject. *)
Lemma subject_name t : subject_text t → from_subject_id (entity_name t) = t.
Proof.
  intros [(iri & -> & Hi)|Hb]; unfold from_subject_id, entity_name.
  - rewrite to_named_node_from, bytes_string_bytes, Hi. done.
  - destruct (to_named_node t) eqn:E; [|by unfold term_bytes in Hb; rewrite Hb].
    unfold to_named_node in E. apply starts_with_spec in Hb as [r Hb]. rewrite Hb in E. done.
Qed.

Lemma lookup_interned st t : terms st !! hash_term t = Some t → lookup_term st t = Ok (Some (hash_term t)).
Proof. intros Ht. unfold lookup_term. rewrite Ht, decide_True; done. Qed.

Lemma orphan_names_ok st (X : gset TermId) (name : TermId → string) :
  (∀ e, e ∈ X → ∃ t, terms st !! e = Some t ∧ entity_name t = name e) →
  orphan_names st X = Ok (from_orphaned_entities (name <$> elements X)).
Proof.
  intros HX. unfold orphan_names.
  assert (∀ l, (∀ e, e ∈ l → e ∈ X) →
    try_map (λ orphan, term ← decode_term st orphan; Ok (entity_name term)) l
      = (Ok (name <$> l) : outcome StoreError _)) as Hl.
  { induction l as [|e l IH]; intros Hsub; [done|].
    destruct (HX e) as (t & Ht & Hn); [set_solver|]. cbn [try_map fmap list_fmap].
    rewrite IH by set_solver. unfold decode_term. rewrite Ht. cbn. by rewrite Hn. }
  rewrite Hl; [done|]. set_solver.
Qed.

Lemma stored_orphans_fold st (id : string → TermId) l X :
  (∀ n, n ∈ l → lookup_term st (from_subject_id n) = Ok (Some (id n))) →
  try_fold (λ (X : gset TermId) entity,
    term ← lookup_term st (from_subject_id entity);
    Ok (match term with Some id => {[id]} ∪ X | None => X end)) X l
  = (Ok (X ∪ list_to_set (id <$> l)) : outcome StoreError _).
Proof.
  revert X. induction l as [|n l IH]; intros X Hl; cbn [try_fold].
  { f_equal. set_solver. }
  rewrite Hl by set_solver. cbn [mbind outcome_bind]. rewrite IH by set_solver. f_equal. set_solver.
Qed.

(** The names of orphans that are interned IRIs or blank nodes read back as
    the same set of term ids, so a read that uses the persisted record hides
    what a read that recomputes the orphans hides. *)
Theorem stored_orphans_round st X :
  (∀ e, e ∈ X → ∃ t, terms st !! e = Some t ∧ hash_term t = e ∧ subject_text t) →
  ∃ d, orphan_names st X = Ok d ∧ stored_orphans st d = Ok X.
Proof.
  intros HX. set (name e := entity_name (default "" (terms st !! e))).
  eexists. split.
  { apply (orphan_names_ok st X name). intros e He. destruct (HX e He) as (t & Ht & _ & _).
    exists t. unfold name. by rewrite Ht. }
  set (id n := hash_term (from_subject_id n)).
  assert (∀ e, e ∈ X → id (name e) = e ∧ terms st !! id (name e) = Some (from_subject_id (name e))) as Hid.
  { intros e He. destruct (HX e He) as (t & Ht & Hh & Hs). unfold id, name. rewrite Ht. change (default "" (Some t)) with t.
    rewrite (subject_name t Hs), Hh. done. }
  assert (∀ n, n ∈ orphaned_entities (from_orphaned_entities (name <$> elements X)) ↔
    ∃ e, e ∈ X ∧ n = name e) as Hn.
  { intros n. cbn. rewrite elem_of_dedup, elem_of_sort, list_elem_of_fmap. set_solver. }
  unfold stored_orphans. rewrite (stored_orphans_fold st id).
  - f_equal. apply set_eq. intros e. rewrite elem_of_union, elem_of_list_to_set, list_elem_of_fmap. split.
    + intros [?|(n & -> & (e' & He & ->)%Hn)]; [set_solver|]. by rewrite (proj1 (Hid e' He)).
    + intros He. right. exists (name e). split; [by rewrite (proj1 (Hid e He))|]. apply Hn. eauto.
  - intros n (e & He & ->)%Hn. apply lookup_interned. by apply Hid.
Qed.

(** A literal among the orphans, an object of [schema:hasPart], is lost on the
    way: its name is read back as an IRI. *)
Lemma literal_orphan_lost st e t :
  terms st !! e = Some t → starts_with [b_quote] (term_bytes t) = true →
  terms st !! hash_term (from_named_node t) = None →
  ∃ d, orphan_names st {[e]} = Ok d ∧ stored_orphans st d = Ok ∅.
Proof.
  intros Ht [r Hq]%starts_with_spec Hno.
  assert (entity_name t = t) as Hname.
  { unfold entity_name, to_named_node. by rewrite Hq. }
  eexists. split.
  { apply (orphan_names_ok st {[e]} (λ _, t)). intros e' ->%elem_of_singleton. eauto. }
  rewrite elements_singleton. unfold stored_orphans. cbn [fmap list_fmap].
  change (orphaned_entities (from_orphaned_entities [t])) with [t]. cbn [try_fold].
  assert (from_subject_id t = from_named_node t) as ->.
  { unfold from_subject_id. change (string_bytes t) with (term_bytes t). by rewrite Hq. }
  unfold lookup_term. by rewrite Hno.
Qed.
End round.

Section witness.
Import DemoBlake3.

Let iri : EncodedTerm := from_named_node "urn:a".
Let blank : EncodedTerm := "_:b0".
Let st : Store :=
  {| terms := {[hash_term iri := iri; hash_term blank := blank]}; quads := ∅; graph_metas := ∅;
     graph_clocks := ∅; graph_tombstones := ∅; deleted_policies := ∅; log_heads := ∅ |}.

Lemma stored_orphans_round_witness :
  ∃ d, orphan_names st {[hash_term iri; hash_term blank]} = Ok d ∧
    stored_orphans st d = Ok {[hash_term iri; hash_term blank]}.
Proof.
  apply (stored_orphans_round st). intros e He. apply elem_of_union in He as [He|He];
    apply elem_of_singleton in He as ->.
  - exists iri. split_and!; [by vm_compute|done|left; by exists "urn:a"%string].
  - exists blank. split_and!; [by vm_compute|done|right; by vm_compute].
Defined.
End witness.
