(* ===== verification/Cursors.v ===== *)
(** * Cursors over the source and the query view
    ([src/internal/rdf_read.rs], [src/internal/query/cursor.rs],
    [src/internal/validation_delta.rs], [src/internal/store.rs])

    Patterns, access paths, the admission of the query view, the raw cursors
    that enumerate candidate rows, and the overlay of a change set that has
    not been committed.  A cursor over a keyspace is the list of entries it has
    yet to yield, in key order.  Read statistics are not modelled. *)

From S2P Require Import Prelude Clock Terms Store Codec QueryView IndexUpdate.

(** ** Patterns and selectors *)

Record QuadPattern := {
  pat_graph : option TermId; pat_subject : option TermId;
  pat_predicate : option TermId; pat_object : option TermId;
}.
Definition pattern_default : QuadPattern :=
  {| pat_graph := None; pat_subject := None; pat_predicate := None; pat_object := None |}.

(** [Option::is_none_or(|term| term == value)]. *)
Definition term_matches (t : option TermId) (value : TermId) : bool :=
  match t with None => true | Some term => bool_decide (term = value) end.
Definition matches (p : QuadPattern) (q : EncodedQuad) : bool :=
  term_matches (pat_graph p) (quad_graph q) && term_matches (pat_subject p) (quad_subject q) &&
  term_matches (pat_predicate p) (quad_predicate q) && term_matches (pat_object p) (quad_object q).

Inductive GraphSelector := Named (graph : TermId) | Union | DefaultUnion.

Definition with_graph (p : QuadPattern) (g : TermId) : QuadPattern :=
  {| pat_graph := Some g; pat_subject := pat_subject p; pat_predicate := pat_predicate p;
     pat_object := pat_object p |}.
Definition selector_apply (s : GraphSelector) (p : QuadPattern) : option QuadPattern :=
  match s with
  | Named graph => if term_matches (pat_graph p) graph then Some (with_graph p graph) else None
  | _ => Some p
  end.

Inductive ReadAccessPath := SourceGspo | QvGspo | QvGpos | QvSpog | QvPosg | QvOspg | QvGosp | EmptyPath.
Inductive QueryReadMode := Auto | ForceSource | ForceQv.
Inductive IndexCursorOrder := Gspo | Gpos | Spog | Posg | Ospg | Gosp.
#[export] Instance access_path_eq_dec : EqDecision ReadAccessPath.
Proof. solve_decision. Defined.

Definition bound (t : option TermId) : bool := match t with Some _ => true | None => false end.

Definition auto_access_path (s : GraphSelector) (p : QuadPattern) : ReadAccessPath :=
  match s with
  | Named _ =>
      if bound (pat_subject p) then QvGspo else if bound (pat_predicate p) then QvGpos
      else if bound (pat_object p) then QvGosp else QvGspo
  | Union | DefaultUnion =>
      if bound (pat_subject p) then QvSpog else if bound (pat_predicate p) then QvPosg
      else if bound (pat_object p) then QvOspg else QvSpog
  end.
Definition force_qv_path := auto_access_path.

(** [unreachable!] is a panic. *)
Definition qv_order (path : ReadAccessPath) : outcome StoreError IndexCursorOrder :=
  match path with
  | QvGspo => Ok Gspo | QvGpos => Ok Gpos | QvSpog => Ok Spog
  | QvPosg => Ok Posg | QvOspg => Ok Ospg | QvGosp => Ok Gosp
  | SourceGspo | EmptyPath => Panic
  end.

(** ** Reads of the active slot *)

Definition active_query_spaces (v : QueryViews) : outcome StoreError (option IndexSpaces) :=
  header ← snapshot_index_header v;
  Ok (query_spaces v <$> match header with
                         | HValid h => decode_slot (active_slot h)
                         | HLegacy _ => Some Primary
                         | HAbsent | HMalformed => None
                         end).

Definition decode_query_id (l : bytes) (context : string) : outcome StoreError QueryTermId :=
  if decide (length l = 8) then Ok (of_be_bytes l) else Err (InvalidIndexEncoding context).
Definition decode_source_id (l : bytes) (context : string) : outcome StoreError TermId :=
  if decide (length l = 16) then Ok (of_be_bytes l) else Err (InvalidIndexEncoding context).

Definition snapshot_counter (v : QueryViews) (key : IndexCounterKey) : outcome StoreError IndexCounterRead :=
  spaces ← active_query_spaces v;
  Ok (match spaces with None => Missing | Some sp => query_index_counter sp key end).

Definition projection_debt_present (v : QueryViews) : bool :=
  prefix_nonempty (meta (primary v)) [QV_DEBT_TAG].

Record QueryIndexAdmission := {
  trusted : bool; adm_generation : option N; adm_limit : option N; fallback_reason : option string;
}.
Definition untrusted (reason : string) : QueryIndexAdmission :=
  {| trusted := false; adm_generation := None; adm_limit := None; fallback_reason := Some reason |}.

#[local] Open Scope string_scope.

Definition header_admission (v : QueryViews) (seqno : N) (h : IndexHeader)
    : outcome StoreError QueryIndexAdmission :=
  let reason :=
    match state h with
    | Building => Some "index-building"
    | Failed _ => Some "index-failed"
    | Ready => if negb (ready_is_coherent h) then Some "metadata-incoherent"
               else if negb (fits_snapshot h seqno) then Some "metadata-ahead-of-snapshot" else None
    end in
  match reason with
  | Some reason => Ok (untrusted reason)
  | None =>
      counter ← snapshot_counter v Total;
      Ok (match counter with
          | Value total =>
              if decide (total = indexed_quads h) then
                {| trusted := true; adm_generation := Some (query_id_generation h);
                   adm_limit := Some (next_query_id h); fallback_reason := None |}
              else untrusted "total-counter-mismatch"
          | Missing => untrusted "total-counter-missing"
          | CounterMalformed => untrusted "total-counter-malformed"
          end)
  end.

Definition snapshot_admission (v : QueryViews) (seqno : N) : outcome StoreError QueryIndexAdmission :=
  if projection_debt_present v then Ok (untrusted "source-commit-projection-pending")
  else
    header ← snapshot_index_header v;
    match header with
    | HAbsent => Ok (untrusted "metadata-missing")
    | HMalformed => Ok (untrusted "metadata-malformed")
    | HLegacy _ => Ok (untrusted "legacy-coverage-unverified")
    | HValid h => header_admission v seqno h
    end.

(** The statistics of the planner. *)
Inductive QvStat :=
  | StatGraph (g : TermId) | StatTotal | StatUnionUnique | StatPredicate (p : TermId)
  | StatPredicateObject (p o : TermId) | StatGraphPredicate (g p : TermId)
  | StatGraphPredicateObject (g p o : TermId).

Definition stat_term (v : QueryViews) (term : TermId) : outcome StoreError (option QueryTermId) :=
  spaces ← active_query_spaces v;
  match spaces ≫= λ sp, term_to_query sp !! be_bytes 16 term with
  | None => Ok None
  | Some value => Some <$> decode_query_id value "term-to-query mapping"
  end.

(** The counter a statistic reads and whether a missing one is zero; [None]
    when a term has no identifier. *)
Definition stat_key (v : QueryViews) (stat : QvStat) : outcome StoreError (option (IndexCounterKey * bool)) :=
  let map1 t (f : QueryTermId → outcome StoreError (option (IndexCounterKey * bool))) :=
    id ← stat_term v t; match id with Some id => f id | None => Ok None end in
  match stat with
  | StatGraph g => map1 g (λ g, Ok (Some (Graph g, false)))
  | StatTotal => Ok (Some (Total, false))
  | StatUnionUnique => Ok (Some (UnionDuplicateFree, false))
  | StatPredicate p => map1 p (λ p, Ok (Some (Predicate p, true)))
  | StatPredicateObject p o => map1 p (λ p, map1 o (λ o, Ok (Some (PredicateObject p o, true))))
  | StatGraphPredicate g p => map1 g (λ g, map1 p (λ p, Ok (Some (GraphPredicate g p, true))))
  | StatGraphPredicateObject g p o =>
      map1 g (λ g, map1 p (λ p, map1 o (λ o, Ok (Some (GraphPredicateObject g p o, true)))))
  end.

Definition qv_stat (v : QueryViews) (stat : QvStat) : outcome StoreError (option N) :=
  key ← stat_key v stat;
  match key with
  | None => Ok (Some 0%N)
  | Some (key, zero_missing) =>
      counter ← snapshot_counter v key;
      Ok (match counter with
          | Value count => Some count
          | Missing => if zero_missing : bool then Some 0%N else None
          | CounterMalformed => None
          end)
  end.

(** ** Raw cursors *)

Inductive CandidateStorage := FromSource | FromQueryIndex | FromDelta.
Record RawQuadCandidate := { cand_quad : EncodedQuad; cand_live : bool; storage : CandidateStorage }.

Inductive RawQuadCursor :=
  | Single (candidate : option RawQuadCandidate)
  | Durable (rows : list (EncodedQuad * list Dot))
  | QueryIndexRows (query_to_term : gmap bytes bytes) (order : IndexCursorOrder) (rows : list (bytes * bytes))
  | EmptyCursor.

(** [snapshot.prefix(keyspace, prefix)]; the empty prefix is [snapshot.iter]. *)
Definition prefix_scan (space : gmap bytes bytes) (pre : bytes) : list (bytes * bytes) :=
  filter (λ kv, pre `prefix_of` kv.1) (btree_iter space).
Definition quad_prefix_scan (st : Store) (pre : bytes) : list (EncodedQuad * list Dot) :=
  filter (λ row, pre `prefix_of` quad_key row.1) (btree_iter (quads st)).

(** The source cursor: the longest bound prefix of graph, subject and
    predicate. *)
Definition raw_quad_cursor (st : Store) (p : QuadPattern) : RawQuadCursor :=
  Durable (quad_prefix_scan st
    match pat_graph p, pat_subject p, pat_predicate p with
    | Some g, Some s, Some pr => be_bytes 16 g ++ be_bytes 16 s ++ be_bytes 16 pr
    | Some g, Some s, None => be_bytes 16 g ++ be_bytes 16 s
    | Some g, None, _ => be_bytes 16 g
    | None, _, _ => []
    end).

Definition quad_is_live (dots : list Dot) : bool := bool_decide (dots ≠ []).

Definition point_candidate (st : Store) (q : EncodedQuad) : option RawQuadCandidate :=
  (λ dots, {| cand_quad := q; cand_live := quad_is_live dots; storage := FromSource |}) <$> quads st !! q.

Definition decode_query_key (order : IndexCursorOrder) (l : bytes) : outcome StoreError QueryQuad :=
  ok_or (InvalidIndexEncoding "qv2 query index key")
    (match order with
     | Gspo => decode_gspo_key | Gpos => decode_gpos_key | Spog => decode_spog_key
     | Posg => decode_posg_key | Ospg => decode_ospg_key | Gosp => decode_gosp_key
     end l).

Definition decode_query_term (q2t : gmap bytes bytes) (term : QueryTermId) : outcome StoreError TermId :=
  value ← ok_or (IndexVerificationFailed "query-to-term-mapping-missing") (q2t !! be_bytes 8 term);
  decode_source_id value "query-to-term mapping".

(** One entry of a query index as a candidate. *)
Definition index_candidate (q2t : gmap bytes bytes) (order : IndexCursorOrder) (row : bytes * bytes)
    : outcome StoreError RawQuadCandidate :=
  if decide (row.2 ≠ []) then Err (InvalidIndexEncoding "qv2 query index value")
  else
    x ← decode_query_key order row.1;
    g ← decode_query_term q2t (qq_graph x);
    s ← decode_query_term q2t (qq_subject x);
    p ← decode_query_term q2t (qq_predicate x);
    o ← decode_query_term q2t (qq_object x);
    Ok {| cand_quad := {| quad_graph := g; quad_subject := s; quad_predicate := p; quad_object := o |};
          cand_live := true; storage := FromQueryIndex |}.

(** The next candidate and the rest of the cursor; an error ends the read. *)
Definition raw_next (c : RawQuadCursor) : outcome StoreError (option (RawQuadCandidate * RawQuadCursor)) :=
  match c with
  | Single (Some candidate) => Ok (Some (candidate, Single None))
  | Single None => Ok None
  | Durable [] => Ok None
  | Durable (row :: rows) =>
      Ok (Some ({| cand_quad := row.1; cand_live := quad_is_live row.2; storage := FromSource |}, Durable rows))
  | QueryIndexRows q2t order [] => Ok None
  | QueryIndexRows q2t order (row :: rows) =>
      candidate ← index_candidate q2t order row; Ok (Some (candidate, QueryIndexRows q2t order rows))
  | EmptyCursor => Ok None
  end.

(** *** Ranges of the query view *)

(** The leading bound columns, in the order of the index. *)
Fixpoint map_while (l : list (option TermId)) : list TermId :=
  match l with Some t :: l => t :: map_while l | _ => [] end.
Definition range_terms (order : IndexCursorOrder) (p : QuadPattern) : list TermId :=
  map_while
    (match order with
     | Gspo => [pat_graph p; pat_subject p; pat_predicate p; pat_object p]
     | Gpos => [pat_graph p; pat_predicate p; pat_object p]
     | Spog => [pat_subject p; pat_predicate p; pat_object p]
     | Posg => [pat_predicate p; pat_object p]
     | Ospg => [pat_object p; pat_subject p; pat_predicate p]
     | Gosp => [pat_graph p; pat_object p; pat_subject p; pat_predicate p]
     end).
Definition order_space (sp : IndexSpaces) (order : IndexCursorOrder) : gmap bytes bytes :=
  match order with
  | Gspo => gspo sp | Gpos => gpos sp | Spog => spog sp | Posg => posg sp | Ospg => ospg sp | Gosp => gosp sp
  end.

(** [Ok None] when one of the terms has no identifier. *)
Fixpoint query_terms (sp : IndexSpaces) (terms : list TermId) : outcome StoreError (option (list QueryTermId)) :=
  match terms with
  | [] => Ok (Some [])
  | t :: terms =>
      match term_to_query sp !! be_bytes 16 t with
      | None => Ok None
      | Some value =>
          id ← decode_query_id value "term-to-query mapping";
          rest ← (query_terms sp terms : outcome StoreError (option (list QueryTermId)));
          Ok (match rest with Some ids => Some (id :: ids) | None => None end)
      end
  end.

Definition query_index_cursor (v : QueryViews) (order : IndexCursorOrder) (p : QuadPattern)
    : outcome StoreError RawQuadCursor :=
  spaces ← active_query_spaces v;
  match spaces with
  | None => Ok EmptyCursor
  | Some sp =>
      ids ← query_terms sp (range_terms order p);
      Ok (match ids with
          | None => EmptyCursor
          | Some ids => QueryIndexRows (query_to_term sp) order
                          (prefix_scan (order_space sp order) (query_index_prefix ids))
          end)
  end.

(** ** The overlay of a change set *)

Record DeltaImpact := {
  changed_subjects : gset TermId; changed_objects : gset TermId; changed_predicates : gset TermId;
  changed_types : gset (TermId * TermId); has_deletions : bool;
}.
Definition impact_default : DeltaImpact :=
  {| changed_subjects := ∅; changed_objects := ∅; changed_predicates := ∅; changed_types := ∅;
     has_deletions := false |}.
Definition record_impact (i : DeltaImpact) (s p o : TermId) (inserted : bool) (rdf_type : TermId) : DeltaImpact :=
  {| changed_subjects := {[s]} ∪ changed_subjects i; changed_objects := {[o]} ∪ changed_objects i;
     changed_predicates := {[p]} ∪ changed_predicates i;
     changed_types := if decide (p = rdf_type) then {[(s, o)]} ∪ changed_types i else changed_types i;
     has_deletions := if inserted then has_deletions i else true |}.

(** [QuadKey] has the fields and the order of [EncodedQuad];
    [PredicateObjectKey] is (predicate, object, subject). *)
Abbreviation PredicateObjectKey := (TermId * TermId * TermId)%type (only parsing).
Definition po_key (q : EncodedQuad) : PredicateObjectKey := (quad_predicate q, quad_object q, quad_subject q).

Record DeltaIndex := {
  delta_graph : TermId;
  states : gmap EncodedQuad bool;
  by_predicate_object : gmap PredicateObjectKey bool;
  delta_terms : gmap TermId EncodedTerm;
  impact : DeltaImpact;
}.

Section delta.
Context `{Blake3}.

Definition remember_term (st : Store) (terms : gmap TermId EncodedTerm) (term : EncodedTerm)
    : outcome StoreError (TermId * gmap TermId EncodedTerm) :=
  let id := hash_term term in
  terms ← match terms !! id with
          | Some existing => if decide (existing = term) then Ok terms else Err (TermCollision term existing)
          | None => Ok (<[id := term]> terms)
          end;
  _ ← lookup_term st term;
  Ok (id, terms).

Definition delta_step (st : Store) (graph : GraphId) (rdf_type : TermId) (ix : DeltaIndex)
    (change : MaterializedQuadChange) : outcome StoreError DeltaIndex :=
  let '(g, s, p, o, present) :=
    match change with
    | Insert g s p o => (g, s, p, o, true)
    | Delete g s p o => (g, s, p, o, false)
    end in
  if decide (g ≠ graph) then Ok ix
  else
    '(s, terms) ← remember_term st (delta_terms ix) s;
    '(p, terms) ← remember_term st terms p;
    '(o, terms) ← remember_term st terms o;
    let key := {| quad_graph := delta_graph ix; quad_subject := s; quad_predicate := p; quad_object := o |} in
    Ok {| delta_graph := delta_graph ix; states := <[key := present]> (states ix);
          by_predicate_object := <[po_key key := present]> (by_predicate_object ix);
          delta_terms := terms; impact := record_impact (impact ix) s p o present rdf_type |}.

Definition delta_build (st : Store) (graph : GraphId) (delta : list MaterializedQuadChange)
    : outcome StoreError DeltaIndex :=
  '(graph_id, terms) ← remember_term st ∅ (from_named_node graph);
  '(rdf_type, terms) ← remember_term st terms (from_named_node vocab.rdf_type);
  try_fold (delta_step st graph rdf_type)
    {| delta_graph := graph_id; states := ∅; by_predicate_object := ∅; delta_terms := terms;
       impact := impact_default |} delta.

Definition lookup_delta_term (ix : DeltaIndex) (term : EncodedTerm) : outcome StoreError (option TermId) :=
  let id := hash_term term in
  match delta_terms ix !! id with
  | Some existing => if decide (existing = term) then Ok (Some id) else Err (TermCollision term existing)
  | None => Ok None
  end.
End delta.

Inductive OverlayCursor :=
  | OverlayPrimary (rows : list (EncodedQuad * bool))
  | OverlayPredicateObject (graph : TermId) (rows : list (PredicateObjectKey * bool)).

Definition term_max : TermId := (2 ^ 128 - 1)%N.

Definition overlay (ix : DeltaIndex) (p : QuadPattern) : OverlayCursor :=
  let key s pr o := {| quad_graph := delta_graph ix; quad_subject := s; quad_predicate := pr; quad_object := o |} in
  match pat_subject p with
  | Some s =>
      let '(lower, upper) :=
        match pat_predicate p, pat_object p with
        | Some pr, Some o => (key s pr o, key s pr o)
        | Some pr, None => (key s pr 0%N, key s pr term_max)
        | None, _ => (key s 0%N 0%N, key s term_max term_max)
        end in
      OverlayPrimary (btree_range lower upper (states ix))
  | None =>
      match pat_predicate p with
      | Some pr =>
          let '(lower, upper) :=
            match pat_object p with
            | Some o => ((pr, o, 0%N), (pr, o, term_max))
            | None => ((pr, 0%N, 0%N), (pr, term_max, term_max))
            end in
          OverlayPredicateObject (delta_graph ix) (btree_range lower upper (by_predicate_object ix))
      | None => OverlayPrimary (btree_iter (states ix))
      end
  end.

Definition overlay_next (c : OverlayCursor) : option ((EncodedQuad * bool) * OverlayCursor) :=
  match c with
  | OverlayPrimary [] | OverlayPredicateObject _ [] => None
  | OverlayPrimary (row :: rows) => Some (row, OverlayPrimary rows)
  | OverlayPredicateObject g (((p, o, s), present) :: rows) =>
      Some (({| quad_graph := g; quad_subject := s; quad_predicate := p; quad_object := o |}, present),
            OverlayPredicateObject g rows)
  end.

Record DeltaQuadCursor := {
  delta_base : option RawQuadCursor;
  delta_overlay : OverlayCursor;
  delta_index : DeltaIndex;
  base_delta_rows : gset EncodedQuad;
}.
Definition delta_cursor (base : RawQuadCursor) (ix : DeltaIndex) (p : QuadPattern) : DeltaQuadCursor :=
  {| delta_base := Some base; delta_overlay := overlay ix p; delta_index := ix; base_delta_rows := ∅ |}.

(** A row of the base as the change set leaves it. *)
Definition overlaid (ix : DeltaIndex) (c : RawQuadCandidate) : RawQuadCandidate :=
  if cand_live c && bool_decide (states ix !! cand_quad c = Some false)
  then {| cand_quad := cand_quad c; cand_live := false; storage := storage c |} else c.
Definition note_base_row (ix : DeltaIndex) (c : RawQuadCandidate) (X : gset EncodedQuad) : gset EncodedQuad :=
  if cand_live c && bool_decide (states ix !! cand_quad c = Some true) then {[cand_quad c]} ∪ X else X.

Definition overlay_candidate (d : DeltaQuadCursor) : option (RawQuadCandidate * DeltaQuadCursor) :=
  match overlay_next (delta_overlay d) with
  | None => None
  | Some ((key, present), rest) =>
      Some ({| cand_quad := key; cand_live := present && bool_decide (key ∉ base_delta_rows d);
               storage := FromDelta |},
            {| delta_base := None; delta_overlay := rest; delta_index := delta_index d;
               base_delta_rows := base_delta_rows d |})
  end.

Definition delta_next (d : DeltaQuadCursor) : outcome StoreError (option (RawQuadCandidate * DeltaQuadCursor)) :=
  match delta_base d with
  | Some base =>
      next ← raw_next base;
      match next with
      | Some (c, base) =>
          Ok (Some (overlaid (delta_index d) c,
            {| delta_base := Some base; delta_overlay := delta_overlay d; delta_index := delta_index d;
               base_delta_rows := note_base_row (delta_index d) c (base_delta_rows d) |}))
      | None => Ok (overlay_candidate d)
      end
  | None => Ok (overlay_candidate d)
  end.
