(* ===== verification/Reads.v ===== *)
(** * RDF reads ([src/internal/rdf_read.rs], [src/internal/query/context.rs],
    [src/internal/query/cursor.rs], [src/internal/validation_delta.rs])

    The context of one read (its scope, its memo tables, its cancellation), the
    visibility of a row, the filtering cursors, and the two views that open
    them: the durable store, and a change set laid over it.

    Another thread may cancel a read at any time: [checks_left] is the number
    of checks that still pass, [None] when the read is never cancelled.  A
    snapshot is what one [StoreReadSnapshot] sees; its own caches of graph
    records and of the active slot hold nothing else. *)

From S2P Require Import Prelude Clock Terms Store Codec QueryView IndexUpdate Orphans Cursors.
#[local] Open Scope craqle_scope.

Record Snapshot := {
  sn_store : Store;
  sn_diagnostics : gmap TermId StoredDiagnostics;
  sn_views : QueryViews;
  sn_seqno : N;
}.

(** ** The read context *)

Inductive GraphVisibility := All | Exact (graphs : gset TermId) | PredicateScope (visible : GraphId → bool).

Record ReadContext := {
  visibility : GraphVisibility;
  validation_graph : option TermId;
  graph_visibility : gmap TermId bool;
  orphaned : gmap TermId (gset TermId);
  checks_left : option nat;
}.

Definition context_new (scope : GraphVisibility) (checks : option nat) : ReadContext :=
  {| visibility := scope; validation_graph := None; graph_visibility := ∅; orphaned := ∅;
     checks_left := checks |}.
Definition for_validation `{Blake3} (graph : GraphId) (checks : option nat) : ReadContext :=
  let graph := hash_term (from_named_node graph) in
  {| visibility := Exact {[graph]}; validation_graph := Some graph; graph_visibility := ∅; orphaned := ∅;
     checks_left := checks |}.

Definition with_checks (cx : ReadContext) (n : option nat) : ReadContext :=
  {| visibility := visibility cx; validation_graph := validation_graph cx;
     graph_visibility := graph_visibility cx; orphaned := orphaned cx; checks_left := n |}.
Definition remember_graph_visibility (graph : TermId) (visible : bool) (cx : ReadContext) : ReadContext :=
  {| visibility := visibility cx; validation_graph := validation_graph cx;
     graph_visibility := <[graph := visible]> (graph_visibility cx); orphaned := orphaned cx;
     checks_left := checks_left cx |}.
Definition remember_orphaned (graph : TermId) (X : gset TermId) (cx : ReadContext) : ReadContext :=
  {| visibility := visibility cx; validation_graph := validation_graph cx;
     graph_visibility := graph_visibility cx; orphaned := <[graph := X]> (orphaned cx);
     checks_left := checks_left cx |}.

Abbreviation readm := (stm ReadContext StoreError).

Definition check_cancelled : readm () := λ cx,
  match checks_left cx with
  | None => (cx, Ok ())
  | Some 0 => (cx, Err Cancelled)
  | Some (S n) => (with_checks cx (Some n), Ok ())
  end.
Definition st_lift {A} (r : outcome StoreError A) : readm A := λ cx, (cx, r).
Definition st_modify (f : ReadContext → ReadContext) : readm () := λ cx, (f cx, Ok ()).
Definition st_get {A} (f : ReadContext → A) : readm A := λ cx, (cx, Ok (f cx)).
Definition st_panic {A} : readm A := λ cx, (cx, Panic).

(** [for x in l { ... }] over a mutable accumulator. *)
Fixpoint st_fold {St E S A} (f : S → A → stm St E S) (s : S) (l : list A) : stm St E S :=
  match l with [] => st_ret s | x :: l => s ⇐ f s x; st_fold f s l end.

(** A check every 1024 units of work. *)
Definition tick (work : nat) : readm nat :=
  if decide (S work = 1024) then _ ⇐ check_cancelled; st_ret 0 else st_ret (S work).

(** ** Orphans of a snapshot *)

Section orphans.
Context `{Blake3} (sn : Snapshot).
Let st := sn_store sn.

Definition read_orphan_row (graph : TermId) (vocab : OrphanVocab) (acc : OrphanScan * nat)
    (row : EncodedQuad * list Dot) : readm (OrphanScan * nat) :=
  work ⇐ tick acc.2;
  st_ret (if decide (row.2 = []) then acc.1 else orphan_row graph vocab acc.1 row.1, work).

Definition read_enqueue (acc : (gset TermId * list TermId) * nat) (neighbor : TermId)
    : readm ((gset TermId * list TermId) * nat) :=
  work ⇐ tick acc.2; st_ret (enqueue acc.1 neighbor, work).

Fixpoint read_walk (fuel work : nat) (adj : gmap TermId (list TermId)) (reachable : gset TermId)
    (queue : list TermId) : readm (gset TermId) :=
  match queue with
  | [] => st_ret reachable
  | current :: queue =>
      match fuel with
      | O => st_panic
      | S fuel =>
          acc ⇐ st_fold read_enqueue ((reachable, queue), work) (default [] (adj !! current));
          read_walk fuel acc.2 adj acc.1.1 acc.1.2
      end
  end.

(** The durable rows of a graph, those without dots included. *)
Definition stored_rows (graph : TermId) : list (EncodedQuad * list Dot) :=
  filter (λ row, quad_graph row.1 = graph) (btree_iter (quads st)).

Definition snapshot_orphan_ids (graph : TermId) (vocab : OrphanVocab) : readm (gset TermId) :=
  _ ⇐ check_cancelled;
  acc ⇐ st_fold (read_orphan_row graph vocab) ({| data_entities := ∅; adjacency := ∅ |}, 0) (stored_rows graph);
  if decide (data_entities acc.1 = ∅) then st_ret ∅
  else
    reachable ⇐ read_walk (walk_fuel (graph_rows st graph).*1) acc.2 (adjacency acc.1) {[graph]} [graph];
    st_ret (data_entities acc.1 ∖ reachable).

(** One persisted orphan: a check every 1024 names, then the look-up. *)
Definition read_stored_orphan (acc : gset TermId * nat) (entity : string) : readm (gset TermId * nat) :=
  _ ⇐ (if decide (acc.2 ≠ 0 ∧ acc.2 mod 1024 = 0) then check_cancelled else st_ret ());
  term ⇐ st_lift (lookup_term st (from_subject_id entity));
  st_ret (match term with Some id => {[id]} ∪ acc.1 | None => acc.1 end, S acc.2).

Definition read_orphaned_ids (graph : TermId) : readm (gset TermId) :=
  if negb (contains_graph_id st graph) then st_ret ∅
  else
    let clock := vector_clock_id st graph in
    match sn_diagnostics sn !! graph with
    | Some record =>
        if decide (at_clock record = clock) then
          _ ⇐ check_cancelled;
          acc ⇐ st_fold read_stored_orphan (∅, 0) (orphaned_entities (diagnostics record));
          st_ret acc.1
        else vocab ⇐ st_lift (orphan_vocab st); snapshot_orphan_ids graph vocab
    | None => vocab ⇐ st_lift (orphan_vocab st); snapshot_orphan_ids graph vocab
    end.

Definition orphaned_for_graph (graph : TermId) : readm (gset TermId) :=
  memo ⇐ st_get (λ cx, orphaned cx !! graph);
  match memo with
  | Some X => st_ret X
  | None => X ⇐ read_orphaned_ids graph; _ ⇐ st_modify (remember_orphaned graph X); st_ret X
  end.

(** ** Visibility *)

(** [graph_is_visible] of the module. *)
Definition context_graph_visible (graph : TermId) : readm bool :=
  memo ⇐ st_get (λ cx, graph_visibility cx !! graph);
  match memo with
  | Some visible => st_ret visible
  | None =>
      scope ⇐ st_get (λ cx, (validation_graph cx, visibility cx));
      visible ⇐ (match scope.1 with
                | Some g => st_ret (bool_decide (graph = g))
                | None =>
                    if negb (contains_graph_id st graph) then st_ret false
                    else match scope.2 with
                         | All => st_ret true
                         | Exact graphs => st_ret (bool_decide (graph ∈ graphs))
                         | PredicateScope visible =>
                             term ⇐ st_lift (decode_term st graph);
                             st_ret (match to_named_node term with
                                     | Some iri => visible (bytes_string iri)
                                     | None => false
                                     end)
                         end
                end);
      _ ⇐ st_modify (remember_graph_visibility graph visible);
      st_ret visible
  end.

(** [terms_are_visible] and [quad_is_visible] of the module. *)
Definition context_quad_visible (q : EncodedQuad) : readm bool :=
  visible ⇐ context_graph_visible (quad_graph q);
  _ ⇐ check_cancelled;
  if negb visible then st_ret false
  else
    validation ⇐ st_get validation_graph;
    match validation with
    | Some _ => st_ret true
    | None =>
        X ⇐ orphaned_for_graph (quad_graph q);
        st_ret (bool_decide ((quad_subject q ∉ X) ∧ (quad_object q ∉ X)))
    end.
End orphans.

(** ** Filtering cursors *)

Inductive QuerySource :=
  | Raw (raw : RawQuadCursor)
  | DefaultUnionSource (raw : RawQuadCursor) (current_group : option (TermId * TermId * TermId))
      (group_emitted : bool)
  | Delta (delta : DeltaQuadCursor).

Record QueryCursor := {
  cur_snapshot : Snapshot;
  source : option QuerySource;
  cur_pattern : QuadPattern;
  candidates_since_check : nat;
  finished : bool;
}.
Definition cursor_of (sn : Snapshot) (s : option QuerySource) (p : QuadPattern) : QueryCursor :=
  {| cur_snapshot := sn; source := s; cur_pattern := p; candidates_since_check := 0; finished := false |}.

Definition cursor_new sn raw p := cursor_of sn (Some (Raw raw)) p.
Definition cursor_empty sn p := cursor_of sn None p.
Definition cursor_delta sn delta p := cursor_of sn (Some (Delta delta)) p.
Definition cursor_default_union sn raw p := cursor_of sn (Some (DefaultUnionSource raw None false)) p.

Definition with_source (c : QueryCursor) (s : QuerySource) : QueryCursor :=
  {| cur_snapshot := cur_snapshot c; source := Some s; cur_pattern := cur_pattern c;
     candidates_since_check := candidates_since_check c; finished := finished c |}.
Definition finish (c : QueryCursor) : QueryCursor :=
  {| cur_snapshot := cur_snapshot c; source := source c; cur_pattern := cur_pattern c;
     candidates_since_check := candidates_since_check c; finished := true |}.
Definition with_since (c : QueryCursor) (n : nat) : QueryCursor :=
  {| cur_snapshot := cur_snapshot c; source := source c; cur_pattern := cur_pattern c;
     candidates_since_check := n; finished := finished c |}.

(** How many candidates a source still holds. *)
Definition raw_len (c : RawQuadCursor) : nat :=
  match c with
  | Single (Some _) => 1 | Durable rows => length rows | QueryIndexRows _ _ rows => length rows
  | Single None | EmptyCursor => 0
  end.
Definition overlay_len (c : OverlayCursor) : nat :=
  match c with OverlayPrimary rows => length rows | OverlayPredicateObject _ rows => length rows end.
Definition delta_len (d : DeltaQuadCursor) : nat :=
  match delta_base d with Some base => raw_len base | None => 0 end + overlay_len (delta_overlay d).
Definition cursor_len (c : QueryCursor) : nat :=
  match source c with
  | Some (Raw raw) | Some (DefaultUnionSource raw _ _) => raw_len raw
  | Some (Delta d) => delta_len d
  | None => 0
  end.

(** [next_source_candidate]. *)
Definition source_next (s : QuerySource) : outcome StoreError (option (RawQuadCandidate * QuerySource)) :=
  match s with
  | Raw raw =>
      next ← (raw_next raw : outcome StoreError _);
      Ok (match next with Some (candidate, raw) => Some (candidate, Raw raw) | None => None end)
  | Delta d =>
      next ← (delta_next d : outcome StoreError _);
      Ok (match next with Some (candidate, d) => Some (candidate, Delta d) | None => None end)
  | DefaultUnionSource _ _ _ => Panic
  end.

(** [account_candidate], the statistics left out. *)
Definition account_candidate (c : QueryCursor) : readm QueryCursor :=
  work ⇐ tick (candidates_since_check c); st_ret (with_since c work).

(** The loop of [Iterator::next], over the candidates left. *)
Fixpoint next_row `{Blake3} (fuel : nat) (c : QueryCursor) : readm (option EncodedQuad * QueryCursor) :=
  match fuel with
  | O => st_panic
  | S fuel =>
      match source c with
      | None => st_ret (None, finish c)
      | Some s =>
          next ⇐ st_lift (source_next s);
          match next with
          | None => st_ret (None, finish c)
          | Some (candidate, s) =>
              c ⇐ account_candidate (with_source c s);
              if negb (cand_live candidate && matches (cur_pattern c) (cand_quad candidate)) then next_row fuel c
              else
                visible ⇐ context_quad_visible (cur_snapshot c) (cand_quad candidate);
                if visible : bool then st_ret (Some (cand_quad candidate), c) else next_row fuel c
          end
      end
  end.

Definition group_of (q : EncodedQuad) : TermId * TermId * TermId :=
  (quad_subject q, quad_predicate q, quad_object q).

(** [next_default_union]: one visible copy of each group. *)
Fixpoint next_default_union `{Blake3} (fuel : nat) (c : QueryCursor) : readm (option EncodedQuad * QueryCursor) :=
  match fuel with
  | O => st_panic
  | S fuel =>
      match source c with
      | Some (DefaultUnionSource raw group emitted) =>
          next ⇐ st_lift (raw_next raw);
          match next with
          | None => st_ret (None, finish c)
          | Some (candidate, raw) =>
              let q := cand_quad candidate in
              c ⇐ account_candidate (with_source c (DefaultUnionSource raw group emitted));
              if negb (cand_live candidate && matches (cur_pattern c) q) then next_default_union fuel c
              else
                let emitted := if decide (group = Some (group_of q)) then emitted else false in
                let c := with_source c (DefaultUnionSource raw (Some (group_of q)) emitted) in
                if emitted then next_default_union fuel c
                else
                  visible ⇐ context_quad_visible (cur_snapshot c) q;
                  if visible : bool then
                    st_ret (Some q, with_source c (DefaultUnionSource raw (Some (group_of q)) true))
                  else next_default_union fuel c
          end
      | _ => st_panic
      end
  end.

(** [QueryCursor::next]: [None] is the end of the read, an error its abort. *)
Definition cursor_next `{Blake3} (c : QueryCursor) : readm (option EncodedQuad * QueryCursor) :=
  if finished c then st_ret (None, c)
  else
    _ ⇐ check_cancelled;
    match source c with
    | Some (DefaultUnionSource _ _ _) => next_default_union (S (cursor_len c)) c
    | _ => next_row (S (cursor_len c)) c
    end.

(** [Iterator::collect::<Result<Vec<_>>>]. *)
Fixpoint collect_rows `{Blake3} (fuel : nat) (c : QueryCursor) : readm (list EncodedQuad) :=
  match fuel with
  | O => st_panic
  | S fuel =>
      next ⇐ cursor_next c;
      match next.1 with
      | None => st_ret []
      | Some q => l ⇐ collect_rows fuel next.2; st_ret (q :: l)
      end
  end.
Definition collect `{Blake3} (c : QueryCursor) : readm (list EncodedQuad) := collect_rows (S (cursor_len c)) c.

(** ** Views *)

(** The behaviour the two views share; the derived operations are the bodies
    the views have in common. *)
Class RdfReadView (V : Type) := {
  scan : V → GraphSelector → QuadPattern → readm QueryCursor;
  exists_row : V → GraphSelector → QuadPattern → readm bool;
  view_lookup_term : V → EncodedTerm → readm (option TermId);
  view_decode_term : V → TermId → readm EncodedTerm;
  contains_graph : V → GraphId → outcome StoreError bool;
  graph_is_visible : V → TermId → readm bool;
  quad_is_visible : V → EncodedQuad → readm bool;
}.

Section derived.
Context `{Blake3} {V : Type} `{RdfReadView V}.

(** [cursor.next()] as a test. *)
Definition first_row (c : QueryCursor) : readm bool :=
  next ⇐ cursor_next c; st_ret (bool_decide (next.1 ≠ None)).

(** [while count < cap]. *)
Fixpoint count_loop (fuel : nat) (cap count : N) (c : QueryCursor) : readm N :=
  if decide (count < cap)%N then
    match fuel with
    | O => st_panic
    | S fuel =>
        next ⇐ cursor_next c;
        match next.1 with
        | Some _ => count_loop fuel cap (count + 1)%N next.2
        | None => st_ret count
        end
    end
  else st_ret count.

Definition count_up_to (view : V) (s : GraphSelector) (p : QuadPattern) (cap : N) : readm N :=
  if decide (cap = 0%N) then st_ret 0%N
  else c ⇐ scan view s p; count_loop (S (cursor_len c)) cap 0 c.

Definition forward_predicate (view : V) (s : GraphSelector) (subject predicate : TermId) : readm QueryCursor :=
  scan view s {| pat_graph := None; pat_subject := Some subject; pat_predicate := Some predicate;
                 pat_object := None |}.
Definition inverse_predicate (view : V) (s : GraphSelector) (predicate object : TermId) : readm QueryCursor :=
  scan view s {| pat_graph := None; pat_subject := None; pat_predicate := Some predicate;
                 pat_object := Some object |}.
End derived.

(** *** The durable store *)

Record StoreReadView := { snapshot : Snapshot; read_mode : QueryReadMode }.

Section store_view.
Context `{Blake3}.
#[local] Open Scope string_scope.

(** [qv_admission]; its memo holds the same value. *)
Definition qv_admission (view : StoreReadView) : outcome StoreError QueryIndexAdmission :=
  snapshot_admission (sn_views (snapshot view)) (sn_seqno (snapshot view)).

Definition point_pattern (s : GraphSelector) (p : QuadPattern) : option EncodedQuad :=
  match s, pat_subject p, pat_predicate p, pat_object p with
  | Named g, Some s, Some pr, Some o =>
      Some {| quad_graph := g; quad_subject := s; quad_predicate := pr; quad_object := o |}
  | _, _, _, _ => None
  end.

Definition index_unavailable {A} (a : QueryIndexAdmission) : readm A :=
  st_err (QueryIndexUnavailable (default "query-index-v2-not-trusted" (fallback_reason a))).

Definition source_cursor (view : StoreReadView) (p : QuadPattern) : QueryCursor :=
  cursor_new (snapshot view) (raw_quad_cursor (sn_store (snapshot view)) p) p.

(** The cursor of a pattern whose selector is applied and whose graph is
    visible. *)
Definition open_scan (view : StoreReadView) (s : GraphSelector) (p : QuadPattern) : readm QueryCursor :=
  let sn := snapshot view in
  match point_pattern s p with
  | Some q => st_ret (cursor_new sn (Single (point_candidate (sn_store sn) q)) p)
  | None =>
      let requested := match read_mode view with
                       | Auto => auto_access_path s p
                       | ForceSource => SourceGspo
                       | ForceQv => force_qv_path s p
                       end in
      if decide (requested = SourceGspo) then
        match s with
        | DefaultUnion => st_err (QueryIndexUnavailable "default-union-source-dedup-is-not-bounded")
        | _ => st_ret (source_cursor view p)
        end
      else
        admission ⇐ st_lift (qv_admission view);
        if negb (trusted admission) then
          match read_mode view, s with
          | ForceQv, _ | _, DefaultUnion => index_unavailable admission
          | _, _ => st_ret (source_cursor view p)
          end
        else
          order ⇐ st_lift (qv_order requested);
          raw ⇐ st_lift (query_index_cursor (sn_views sn) order p);
          st_ret (match s with
                  | DefaultUnion => cursor_default_union sn raw p
                  | _ => cursor_new sn raw p
                  end)
  end.

Definition store_graph_is_visible (view : StoreReadView) (graph : TermId) : readm bool :=
  _ ⇐ check_cancelled;
  visible ⇐ context_graph_visible (snapshot view) graph;
  _ ⇐ check_cancelled;
  st_ret visible.

(** The test a named graph passes before its rows are read. *)
Definition selector_visible (view : StoreReadView) (s : GraphSelector) : readm bool :=
  match s with Named graph => store_graph_is_visible view graph | _ => st_ret true end.

Definition store_scan (view : StoreReadView) (s : GraphSelector) (p : QuadPattern) : readm QueryCursor :=
  _ ⇐ check_cancelled;
  match selector_apply s p with
  | None => st_ret (cursor_empty (snapshot view) p)
  | Some p =>
      visible ⇐ selector_visible view s;
      if negb visible then st_ret (cursor_empty (snapshot view) p) else open_scan view s p
  end.

Definition store_exists (view : StoreReadView) (s : GraphSelector) (p : QuadPattern) : readm bool :=
  _ ⇐ check_cancelled;
  match selector_apply s p with
  | None => st_ret false
  | Some p =>
      visible ⇐ selector_visible view s;
      if negb visible then st_ret false
      else match point_pattern s p with
           | Some q =>
               match point_candidate (sn_store (snapshot view)) q with
               | None => st_ret false
               | Some candidate =>
                   if negb (cand_live candidate && matches p (cand_quad candidate)) then st_ret false
                   else context_quad_visible (snapshot view) (cand_quad candidate)
               end
           | None => c ⇐ store_scan view s p; first_row c
           end
  end.

(** Durable rows of a named-graph pattern for an overlay. *)
Definition durable_cursor (view : StoreReadView) (p : QuadPattern) : outcome StoreError RawQuadCursor :=
  let st := sn_store (snapshot view) in
  let indexed := negb (bound (pat_subject p)) && (bound (pat_predicate p) || bound (pat_object p)) &&
                 match read_mode view with Auto => true | _ => false end in
  match pat_graph p with
  | Some graph =>
      if indexed : bool then
        admission ← qv_admission view;
        if negb (trusted admission) then Ok (raw_quad_cursor st p)
        else
          order ← qv_order (auto_access_path (Named graph) p);
          query_index_cursor (sn_views (snapshot view)) order p
      else Ok (raw_quad_cursor st p)
  | None => Ok (raw_quad_cursor st p)
  end.

#[export] Instance store_view : RdfReadView StoreReadView := {
  scan := store_scan;
  exists_row := store_exists;
  view_lookup_term view term := _ ⇐ check_cancelled; st_lift (lookup_term (sn_store (snapshot view)) term);
  view_decode_term view term := _ ⇐ check_cancelled; st_lift (decode_term (sn_store (snapshot view)) term);
  contains_graph view graph := Store.contains_graph (sn_store (snapshot view)) graph;
  graph_is_visible := store_graph_is_visible;
  quad_is_visible view q := _ ⇐ check_cancelled; context_quad_visible (snapshot view) q;
}.
End store_view.

(** *** A change set over the durable store *)

Record DeltaReadView := { base : StoreReadView; index : DeltaIndex }.

Section delta_view.
Context `{Blake3}.

Definition selected_pattern (view : DeltaReadView) (s : GraphSelector) (p : QuadPattern) : option QuadPattern :=
  match selector_apply s p with
  | None => None
  | Some p =>
      if term_matches (pat_graph p) (delta_graph (index view))
      then Some (with_graph p (delta_graph (index view))) else None
  end.

Definition delta_scan (view : DeltaReadView) (s : GraphSelector) (p : QuadPattern) : readm QueryCursor :=
  _ ⇐ check_cancelled;
  match selected_pattern view s p with
  | None => st_ret (cursor_empty (snapshot (base view)) p)
  | Some p =>
      raw ⇐ st_lift (durable_cursor (base view) p);
      st_ret (cursor_delta (snapshot (base view)) (delta_cursor raw (index view) p) p)
  end.

(** The rows a scan finds, as a test. *)
Definition delta_scan_exists (view : DeltaReadView) (s : GraphSelector) (p : QuadPattern) : readm bool :=
  c ⇐ delta_scan view s p; first_row c.

Definition delta_exists (view : DeltaReadView) (s : GraphSelector) (p : QuadPattern) : readm bool :=
  _ ⇐ check_cancelled;
  match s with
  | Named _ =>
      match selected_pattern view s p with
      | None => st_ret false
      | Some p =>
          match pat_graph p, pat_subject p, pat_predicate p, pat_object p with
          | Some g, Some su, Some pr, Some o =>
              let q := {| quad_graph := g; quad_subject := su; quad_predicate := pr; quad_object := o |} in
              match states (index view) !! q with
              | Some present => if negb present then st_ret false else quad_is_visible (base view) q
              | None => exists_row (base view) s p
              end
          | _, _, _, _ => delta_scan_exists view s p
          end
      end
  | _ => delta_scan_exists view s p
  end.

#[export] Instance delta_view : RdfReadView DeltaReadView := {
  scan := delta_scan;
  exists_row := delta_exists;
  view_lookup_term view term :=
    _ ⇐ check_cancelled;
    found ⇐ st_lift (lookup_delta_term (index view) term);
    match found with Some id => st_ret (Some id) | None => view_lookup_term (base view) term end;
  view_decode_term view term :=
    _ ⇐ check_cancelled;
    match delta_terms (index view) !! term with
    | Some decoded => st_ret decoded
    | None => view_decode_term (base view) term
    end;
  contains_graph view graph :=
    here ← contains_graph (base view) graph;
    Ok (here || bool_decide (hash_term (from_named_node graph) = delta_graph (index view) ∧
                             map_Exists (λ _ present, present = true) (states (index view))));
  graph_is_visible view := graph_is_visible (base view);
  quad_is_visible view := quad_is_visible (base view);
}.
End delta_view.
