(* ===== verification/ReadRules.v ===== *)
(** * Reasoning about reads

    [reads m P]: whatever the memo tables of the context hold, as long as what
    they hold is right, [m] leaves them right and either returns a value that
    satisfies [P] or, when the read can be cancelled, fails with [Cancelled].
    The rules follow the code: sequencing, loops, cancellation checks,
    visibility with and without its memo, and the filtering cursors. *)

From S2P Require Import Prelude Clock Terms Store Codec QueryView IndexUpdate Orphans Cursors Reads.
#[local] Open Scope craqle_scope.

(** ** What a cursor enumerates *)

(** A live candidate that passes the pattern. *)
Definition kept (p : QuadPattern) (c : RawQuadCandidate) : bool := cand_live c && matches p (cand_quad c).

Definition source_candidate (row : EncodedQuad * list Dot) : RawQuadCandidate :=
  {| cand_quad := row.1; cand_live := quad_is_live row.2; storage := FromSource |}.

Definition raw_candidates (c : RawQuadCursor) : outcome StoreError (list RawQuadCandidate) :=
  match c with
  | Single candidate => Ok (option_list candidate)
  | Durable rows => Ok (source_candidate <$> rows)
  | QueryIndexRows q2t order rows => try_map (index_candidate q2t order) rows
  | EmptyCursor => Ok []
  end.

Lemma raw_next_spec c cs :
  raw_candidates c = Ok cs →
  match cs with
  | [] => raw_next c = Ok None
  | x :: cs => ∃ c', raw_next c = Ok (Some (x, c')) ∧ raw_candidates c' = Ok cs ∧ raw_len c = S (raw_len c')
  end.
Proof.
  destruct c as [[x|]|[|row rows]|q2t order [|row rows]|];
    cbn [raw_candidates raw_next option_list fmap list_fmap try_map].
  6: { intros (x & Hx & (ys & Hys & [= <-])%bind_ok)%bind_ok. rewrite Hx. cbn [mbind outcome_bind].
       eexists. split_and!; done. }
  all: intros [= <-]; by eauto.
Qed.

Lemma raw_candidates_len c cs : raw_candidates c = Ok cs → length cs = raw_len c.
Proof.
  destruct c as [[x|]|rows|q2t order rows|]; cbn [raw_candidates raw_len option_list].
  4: intros Hc%try_map_ok; by apply Forall2_length in Hc.
  all: intros [= <-]; by rewrite ?length_fmap.
Qed.

Definition overlay_rows (c : OverlayCursor) : list (EncodedQuad * bool) :=
  match c with
  | OverlayPrimary rows => rows
  | OverlayPredicateObject g rows =>
      (λ row : PredicateObjectKey * bool,
        ({| quad_graph := g; quad_subject := row.1.2; quad_predicate := row.1.1.1; quad_object := row.1.1.2 |},
         row.2)) <$> rows
  end.
Lemma overlay_next_spec c :
  match overlay_rows c with
  | [] => overlay_next c = None
  | row :: rows => ∃ c', overlay_next c = Some (row, c') ∧ overlay_rows c' = rows ∧
                         overlay_len c = S (overlay_len c')
  end.
Proof. destruct c as [[|row rows]|g [|[[[p o] s] b] rows]]; cbn; eauto. Qed.

Definition delta_row (X : gset EncodedQuad) (row : EncodedQuad * bool) : RawQuadCandidate :=
  {| cand_quad := row.1; cand_live := row.2 && bool_decide (row.1 ∉ X); storage := FromDelta |}.
Definition base_rows (ix : DeltaIndex) (X : gset EncodedQuad) (cs : list RawQuadCandidate) : gset EncodedQuad :=
  foldl (λ X c, note_base_row ix c X) X cs.

Definition delta_candidates (d : DeltaQuadCursor) : outcome StoreError (list RawQuadCandidate) :=
  cs ← match delta_base d with Some base => raw_candidates base | None => Ok [] end;
  Ok ((overlaid (delta_index d) <$> cs) ++
      (delta_row (base_rows (delta_index d) (base_delta_rows d) cs) <$> overlay_rows (delta_overlay d))).

Lemma overlay_candidate_spec d :
  match delta_row (base_delta_rows d) <$> overlay_rows (delta_overlay d) with
  | [] => overlay_candidate d = None
  | x :: cs => ∃ d', overlay_candidate d = Some (x, d') ∧ delta_candidates d' = Ok cs ∧
                     overlay_len (delta_overlay d) = S (delta_len d')
  end.
Proof.
  unfold overlay_candidate. pose proof (overlay_next_spec (delta_overlay d)) as Hn.
  destruct (overlay_rows (delta_overlay d)) as [|[q b] rows]; cbn; [by rewrite Hn|].
  destruct Hn as (c' & -> & <- & Hlen). eexists. split_and!; [done|done|]. unfold delta_len. cbn. lia.
Qed.

Lemma delta_next_spec d cs :
  delta_candidates d = Ok cs →
  match cs with
  | [] => delta_next d = Ok None
  | x :: cs => ∃ d', delta_next d = Ok (Some (x, d')) ∧ delta_candidates d' = Ok cs ∧
                     (delta_len d' < delta_len d)%nat
  end.
Proof.
  unfold delta_candidates. intros (bs & Hbs & [= <-])%bind_ok. unfold delta_next, delta_len.
  pose proof (overlay_candidate_spec d) as Hov. destruct (delta_base d) as [raw|].
  - pose proof (raw_next_spec raw bs Hbs) as Hn. destruct bs as [|b bs]; cbn [fmap list_fmap app base_rows foldl].
    + rewrite Hn. cbn. destruct (delta_row _ <$> _) as [|x cs]; [by rewrite Hov|].
      destruct Hov as (d' & -> & ? & Hlen). exists d'. split_and!; [done|done|]. unfold delta_len in Hlen. lia.
    + destruct Hn as (raw' & -> & Hc' & ->). cbn. eexists. split_and!; [done| |cbn; lia].
      unfold delta_candidates. cbn. by rewrite Hc'.
  - injection Hbs as <-. cbn. destruct (delta_row _ <$> _) as [|x cs]; [by rewrite Hov|].
    destruct Hov as (d' & -> & ? & Hlen). exists d'. split_and!; [done|done|]. unfold delta_len in Hlen. lia.
Qed.

Section rules.
Context `{Blake3} (sn : Snapshot) (scope : GraphVisibility) (validating : option TermId).
Let st := sn_store sn.

(** ** What a row's visibility is *)

Definition visible_graph (g : TermId) : bool :=
  match validating with
  | Some vg => bool_decide (g = vg)
  | None =>
      contains_graph_id st g &&
      match scope with
      | All => true
      | Exact graphs => bool_decide (g ∈ graphs)
      | PredicateScope visible =>
          match (terms st !! g) ≫= to_named_node with Some iri => visible (bytes_string iri) | None => false end
      end
  end.

Definition ok_or_empty (r : outcome StoreError (gset TermId)) : gset TermId :=
  match r with Ok X => X | _ => ∅ end.

(** The orphans of the live rows. *)
Definition computed_orphans (g : TermId) : gset TermId :=
  match orphan_vocab st with
  | Ok vocab => default ∅ (orphaned_entity_ids st g vocab)
  | _ => ∅
  end.

(** The entities hidden in a graph: those recorded, if the record is as old as
    the graph's clock, else the orphans of its rows. *)
Definition hidden (g : TermId) : gset TermId :=
  if negb (contains_graph_id st g) then ∅
  else match sn_diagnostics sn !! g with
       | Some record =>
           if decide (at_clock record = vector_clock_id st g)
           then ok_or_empty (stored_orphans st (diagnostics record)) else computed_orphans g
       | None => computed_orphans g
       end.

Definition row_visible (q : EncodedQuad) : bool :=
  visible_graph (quad_graph q) &&
  match validating with
  | Some _ => true
  | None => bool_decide ((quad_subject q ∉ hidden (quad_graph q)) ∧ (quad_object q ∉ hidden (quad_graph q)))
  end.

(** ** The relation *)

Record context_ok (cx : ReadContext) : Prop := {
  cx_scope : visibility cx = scope;
  cx_validating : validation_graph cx = validating;
  cx_graphs g b : graph_visibility cx !! g = Some b → b = visible_graph g;
  cx_orphans g X : orphaned cx !! g = Some X → X = hidden g;
}.

Definition reads {A} (m : readm A) (P : A → Prop) : Prop :=
  ∀ cx, context_ok cx → ∃ cx' r, m cx = (cx', r) ∧ context_ok cx' ∧
    (checks_left cx = None → checks_left cx' = None) ∧
    ((∃ a, r = Ok a ∧ P a) ∨ (r = Err Cancelled ∧ checks_left cx ≠ None)).

Lemma reads_ret {A} (a : A) (P : A → Prop) : P a → reads (st_ret a) P.
Proof. intros HP cx Hcx. exists cx, (Ok a). eauto 10. Qed.

Lemma reads_bind {A B} (m : readm A) (f : A → readm B) P Q :
  reads m P → (∀ a, P a → reads (f a) Q) → reads (st_bind m f) Q.
Proof.
  intros Hm Hf cx Hcx. destruct (Hm cx Hcx) as (cx1 & r & Hr & Hcx1 & Hn & [(a & -> & Ha)|[-> Hc]]).
  - destruct (Hf a Ha cx1 Hcx1) as (cx2 & r2 & Hr2 & Hcx2 & Hn2 & Hres).
    exists cx2, r2. unfold st_bind. rewrite Hr. split_and!; [done|done|auto|].
    destruct Hres as [?|[-> Hc]]; [by left|right]. split; [done|]. intros Hnone. by apply Hc, Hn.
  - exists cx1, (Err Cancelled). unfold st_bind. rewrite Hr. eauto 10.
Qed.

Lemma reads_weaken {A} (m : readm A) (P Q : A → Prop) : reads m P → (∀ a, P a → Q a) → reads m Q.
Proof.
  intros Hm HPQ cx Hcx. destruct (Hm cx Hcx) as (cx' & r & ? & ? & ? & Hr).
  exists cx', r. split_and!; try done. naive_solver.
Qed.

(** A read that no one cancels has a value. *)
Lemma reads_value {A} (m : readm A) (P : A → Prop) : reads m P → ∃ a, P a.
Proof.
  intros Hm. destruct (Hm {| visibility := scope; validation_graph := validating; graph_visibility := ∅;
    orphaned := ∅; checks_left := None |}) as (cx & r & _ & _ & _ & [(a & _ & Ha)|[_ ?]]); [|eauto|done].
  split; try done; intros g x; cbn; by rewrite lookup_empty.
Qed.

(** Sequencing after a computation whose value is known. *)
Lemma reads_then {A B} (m : readm A) (f : A → readm B) a Q :
  reads m (λ x, x = a) → reads (f a) Q → reads (st_bind m f) Q.
Proof. intros Hm Hf. eapply reads_bind; [exact Hm|]. by intros ? ->. Qed.

Lemma reads_lift {A} (r : outcome StoreError A) a (P : A → Prop) : r = Ok a → P a → reads (st_lift r) P.
Proof. intros -> HP cx Hcx. exists cx, (Ok a). eauto 10. Qed.

Lemma reads_check : reads check_cancelled (λ _, True).
Proof.
  intros cx [Hs Hv Hg Ho]. unfold check_cancelled. destruct (checks_left cx) as [[|n]|] eqn:E.
  - exists cx, (Err Cancelled). rewrite E. split_and!; [done|by split|done|]. by right.
  - exists (with_checks cx (Some n)), (Ok ()). split_and!; [done|by split|done|]. left. eauto.
  - exists cx, (Ok ()). rewrite E. split_and!; [done|by split|done|]. left. eauto.
Qed.

Lemma reads_get {A} (f : ReadContext → A) (P : A → Prop) :
  (∀ cx, context_ok cx → P (f cx)) → reads (st_get f) P.
Proof. intros HP cx Hcx. exists cx, (Ok (f cx)). split_and!; [done..|]. left. eauto. Qed.

Lemma reads_modify f :
  (∀ cx, context_ok cx → context_ok (f cx) ∧ checks_left (f cx) = checks_left cx) →
  reads (st_modify f) (λ _, True).
Proof.
  intros Hf cx Hcx. destruct (Hf cx Hcx) as [Hcx' Hc]. exists (f cx), (Ok ()).
  split_and!; [done|done|by rewrite Hc|]. left. eauto.
Qed.

Lemma reads_tick work : reads (tick work) (λ _, True).
Proof.
  unfold tick. case_decide; [|by apply reads_ret].
  eapply reads_bind; [apply reads_check|]. intros _ _. by apply reads_ret.
Qed.

(** A loop whose invariant speaks of the part of the list it has read. *)
Lemma reads_fold_in {S A} (f : S → A → readm S) (I : list A → S → Prop) l s :
  I [] s → (∀ pre x s, x ∈ l → I pre s → reads (f s x) (I (pre ++ [x]))) → reads (st_fold f s l) (I l).
Proof.
  enough (∀ pre s, I pre s → (∀ pre x s, x ∈ l → I pre s → reads (f s x) (I (pre ++ [x]))) →
    reads (st_fold f s l) (I (pre ++ l))) as Hl by exact (Hl [] s).
  clear s. induction l as [|x l IH]; intros pre s Hs Hf; cbn [st_fold].
  - apply reads_ret. by rewrite app_nil_r.
  - eapply reads_bind; [apply Hf; [by left|done]|]. intros s' Hs'.
    rewrite (cons_middle x pre l), app_assoc. apply IH; [done|]. intros pre' y s'' Hy. apply Hf. by right.
Qed.
Lemma reads_fold {S A} (f : S → A → readm S) (I : list A → S → Prop) l s :
  I [] s → (∀ pre x s, I pre s → reads (f s x) (I (pre ++ [x]))) → reads (st_fold f s l) (I l).
Proof. intros H0 Hf. apply reads_fold_in; auto. Qed.

(** ** Orphans *)

(** The terms a read looks up: the vocabulary of orphan detection and the
    recorded orphans. *)
Definition looked_up (t : EncodedTerm) : Prop :=
  t ∈ from_named_node <$> [vocab.rdf_type; vocab.schema_dataset; vocab.schema_media_object; vocab.schema_has_part] ∨
  ∃ g record, sn_diagnostics sn !! g = Some record ∧
    t ∈ from_subject_id <$> orphaned_entities (diagnostics record).

(** None of them has the digest of another interned term. *)
Definition no_collision : Prop := ∀ t t', looked_up t → terms st !! hash_term t = Some t' → t' = t.
Context (Hcoll : no_collision).

Lemma lookup_total t :
  looked_up t → ∃ o, lookup_term st t = Ok o.
Proof.
  intros Ht. unfold lookup_term. destruct (terms st !! hash_term t) as [t'|] eqn:E; [|eauto].
  apply Hcoll in E as ->; [|done]. rewrite decide_True; eauto.
Qed.

Lemma vocab_total : ∃ vocab, orphan_vocab st = Ok vocab.
Proof.
  unfold orphan_vocab.
  destruct (lookup_total (from_named_node vocab.rdf_type)) as [? ->]; [left; set_solver|].
  destruct (lookup_total (from_named_node vocab.schema_dataset)) as [? ->]; [left; set_solver|].
  destruct (lookup_total (from_named_node vocab.schema_media_object)) as [? ->]; [left; set_solver|].
  destruct (lookup_total (from_named_node vocab.schema_has_part)) as [? ->]; [left; set_solver|].
  cbn. eauto.
Qed.

Lemma live_stored_rows g : filter (λ row, row.2 ≠ []) (stored_rows sn g) = graph_rows st g.
Proof.
  unfold stored_rows, graph_rows. rewrite list_filter_filter. apply list_filter_iff. naive_solver.
Qed.

Lemma read_walk_reads fuel work adj R q X :
  walk fuel adj R q = Some X → reads (read_walk fuel work adj R q) (λ X', X' = X).
Proof.
  revert work R q. induction fuel as [|fuel IH]; intros work R [|c q]; cbn [walk read_walk]; try done.
  1-2: intros [= <-]; by apply reads_ret.
  destruct (foldl enqueue (R, q) _) as [R' q'] eqn:E. intros Hw.
  eapply reads_bind.
  - apply (reads_fold _ (λ pre acc, acc.1 = foldl enqueue (R, q) pre)); [done|].
    intros pre x acc Hacc. unfold read_enqueue. eapply reads_bind; [apply reads_tick|]. intros w _.
    apply reads_ret. cbn. by rewrite foldl_snoc, Hacc.
  - intros acc Hacc. rewrite E in Hacc. destruct acc as [acc w]. cbn in *. subst acc. cbn. by apply IH.
Qed.

Lemma snapshot_orphans_read g vocab :
  orphan_vocab st = Ok vocab → reads (snapshot_orphan_ids sn g vocab) (λ X, X = computed_orphans g).
Proof.
  intros Hvocab. unfold snapshot_orphan_ids. eapply reads_bind; [apply reads_check|]. intros _ _.
  eapply reads_bind.
  { apply (reads_fold _ (λ pre acc, acc.1 = scan_orphans g vocab (filter (λ row, row.2 ≠ []) pre).*1)); [done|].
    intros pre row acc Hacc. unfold read_orphan_row. eapply reads_bind; [apply reads_tick|]. intros w _.
    apply reads_ret. cbn. rewrite filter_app, fmap_app. unfold scan_orphans. rewrite foldl_app, Hacc.
    case_decide as Hd; [rewrite filter_cons_False by naive_solver|rewrite filter_cons_True by done]; done. }
  intros acc Hacc. rewrite live_stored_rows in Hacc.
  unfold computed_orphans. rewrite Hvocab. unfold orphaned_entity_ids, orphans_of_rows.
  destruct (orphans_exact st g vocab) as (X & HX & _). unfold orphaned_entity_ids, orphans_of_rows in HX.
  rewrite Hacc. cbn zeta. destruct (decide _); [by apply reads_ret|].
  destruct (walk _ _ _ _) as [R|] eqn:Ew; [|done]. eapply reads_then; [by apply read_walk_reads|].
  by apply reads_ret.
Qed.

Lemma stored_orphans_read g record (d := diagnostics record) :
  sn_diagnostics sn !! g = Some record →
  reads (st_fold (read_stored_orphan sn) (∅, 0) (orphaned_entities d))
    (λ acc, acc.1 = ok_or_empty (stored_orphans st d)).
Proof.
  intros Hg. assert (∀ e, e ∈ orphaned_entities d → ∃ o, lookup_term st (from_subject_id e) = Ok o) as Hl.
  { intros e He. apply lookup_total. right. exists g, record. split; [done|]. set_solver. }
  eapply reads_weaken.
  - apply (reads_fold_in _ (λ pre acc, stored_orphans st {| orphaned_entities := pre |} = Ok acc.1)); [done|].
    intros pre e acc He Hacc. destruct (Hl e He) as [o Ho]. unfold read_stored_orphan.
    eapply reads_bind; [case_decide; [apply reads_check|by apply reads_ret with (P := λ _, True)]|]. intros _ _.
    eapply reads_then; [by apply (reads_lift _ o)|].
    apply reads_ret. unfold stored_orphans in *. cbn [orphaned_entities fst] in *.
    rewrite try_fold_app, Hacc. cbn. by rewrite Ho.
  - intros acc Hacc. destruct d. cbn in *. by rewrite Hacc.
Qed.

Lemma hidden_read g : reads (read_orphaned_ids sn g) (λ X, X = hidden g).
Proof.
  destruct vocab_total as [vocab Hv].
  assert (reads (vocab ⇐ st_lift (orphan_vocab st); snapshot_orphan_ids sn g vocab)
    (λ X, X = computed_orphans g)) as Hcomp.
  { eapply reads_then; [by eapply reads_lift|]. by apply snapshot_orphans_read. }
  unfold read_orphaned_ids, hidden. fold st. case_match; [by apply reads_ret|].
  destruct (sn_diagnostics sn !! g) as [record|] eqn:Hg; [|done]. case_decide; [|done].
  eapply reads_bind; [apply reads_check|]. intros _ _.
  eapply reads_bind; [by eapply stored_orphans_read|]. intros acc Hacc. by apply reads_ret.
Qed.

Lemma orphans_memo_read g : reads (orphaned_for_graph sn g) (λ X, X = hidden g).
Proof.
  unfold orphaned_for_graph. eapply reads_bind.
  { apply (reads_get _ (λ memo, ∀ X, memo = Some X → X = hidden g)). intros cx Hcx X HX.
    by eapply cx_orphans. }
  intros [X|] Hmemo; [by apply reads_ret, Hmemo|].
  eapply reads_then; [apply hidden_read|]. eapply reads_bind; [|intros _ _; by apply reads_ret].
  apply reads_modify. intros cx [Hs Hv Hg Ho]. split; [|done]. split; try done.
  intros g' X. cbn. rewrite lookup_insert_Some. naive_solver.
Qed.

(** ** Visibility *)

(** Graph records are records of interned terms. *)
Definition graphs_interned : Prop := ∀ g, contains_graph_id st g = true → is_Some (terms st !! g).
Context (Hgraphs : graphs_interned).

Lemma graph_visible_read g : reads (context_graph_visible sn g) (λ b, b = visible_graph g).
Proof.
  unfold context_graph_visible. eapply reads_bind.
  { apply (reads_get _ (λ memo, ∀ b, memo = Some b → b = visible_graph g)). intros cx Hcx b Hb.
    by eapply cx_graphs. }
  intros [b|] Hmemo; [by apply reads_ret, Hmemo|].
  eapply reads_then.
  { apply (reads_get _ (λ x, x = (validating, scope))). by intros cx [-> -> _ _]. }
  eapply reads_then; [instantiate (1 := visible_graph g)|].
  - unfold visible_graph. cbn. destruct validating; [by apply reads_ret|]. fold st.
    destruct (contains_graph_id st g) eqn:Ec; cbn; [|by apply reads_ret].
    destruct scope as [|graphs|visible]; [by apply reads_ret..|].
    destruct (Hgraphs g Ec) as [t Ht].
    eapply reads_then; [apply (reads_lift _ t); [|done]; unfold decode_term; by rewrite Ht|].
    apply reads_ret. by rewrite Ht.
  - eapply reads_bind; [|intros _ _; by apply reads_ret].
    apply reads_modify. intros cx [Hs Hv Hg Ho]. split; [|done]. split; try done.
    intros g' b. cbn. rewrite lookup_insert_Some. naive_solver.
Qed.

Lemma row_visible_read q : reads (context_quad_visible sn q) (λ b, b = row_visible q).
Proof.
  unfold context_quad_visible, row_visible.
  eapply reads_then; [apply graph_visible_read|]. eapply reads_bind; [apply reads_check|]. intros _ _.
  destruct (visible_graph (quad_graph q)); cbn; [|by apply reads_ret].
  eapply reads_then.
  { apply (reads_get _ (λ x, x = validating)). by intros cx []. }
  destruct validating; [by apply reads_ret|].
  eapply reads_then; [apply orphans_memo_read|]. by apply reads_ret.
Qed.

(** ** Cursors *)

Definition shown (p : QuadPattern) (c : RawQuadCandidate) : bool := kept p c && row_visible (cand_quad c).
Definition rows_of (p : QuadPattern) (cs : list RawQuadCandidate) : list EncodedQuad :=
  cand_quad <$> filter (λ c, shown p c = true) cs.

(** The rows of a default union whose last group is [group]: of each run of
    candidates of one group the first one shown. *)
Fixpoint union_rows (p : QuadPattern) (group : option (TermId * TermId * TermId)) (emitted : bool)
    (cs : list RawQuadCandidate) : list EncodedQuad :=
  match cs with
  | [] => []
  | c :: cs =>
      if negb (kept p c) then union_rows p group emitted cs
      else
        let emitted := if decide (group = Some (group_of (cand_quad c))) then emitted else false in
        let group := Some (group_of (cand_quad c)) in
        if emitted then union_rows p group true cs
        else if row_visible (cand_quad c) then cand_quad c :: union_rows p group true cs
        else union_rows p group false cs
  end.

(** The rows a cursor has yet to yield. *)
Definition pending (c : QueryCursor) (l : list EncodedQuad) : Prop :=
  cur_snapshot c = sn ∧
  if finished c then l = []
  else match source c with
       | None => l = []
       | Some (Raw raw) => ∃ cs, raw_candidates raw = Ok cs ∧ l = rows_of (cur_pattern c) cs
       | Some (Delta d) => ∃ cs, delta_candidates d = Ok cs ∧ l = rows_of (cur_pattern c) cs
       | Some (DefaultUnionSource raw group emitted) =>
           ∃ cs, raw_candidates raw = Ok cs ∧ l = union_rows (cur_pattern c) group emitted cs
       end.

Definition next_result (l : list EncodedQuad) (r : option EncodedQuad * QueryCursor) : Prop :=
  r.1 = head l ∧ pending r.2 (tail l).

Lemma rows_of_cons p c cs :
  rows_of p (c :: cs) = if shown p c then cand_quad c :: rows_of p cs else rows_of p cs.
Proof. unfold rows_of. rewrite filter_cons. destruct (shown p c); done. Qed.

Lemma account_read c : reads (account_candidate c) (λ c', ∃ n, c' = with_since c n).
Proof.
  unfold account_candidate. eapply reads_bind; [apply reads_tick|]. intros w _. apply reads_ret. eauto.
Qed.

(** The two plain sources. *)
Definition plain_candidates (s : QuerySource) : outcome StoreError (list RawQuadCandidate) :=
  match s with
  | Raw raw => raw_candidates raw
  | Delta d => delta_candidates d
  | DefaultUnionSource _ _ _ => Panic
  end.
Definition source_len (s : QuerySource) : nat :=
  match s with Raw raw | DefaultUnionSource raw _ _ => raw_len raw | Delta d => delta_len d end.

Lemma source_next_spec s cs :
  plain_candidates s = Ok cs →
  match cs with
  | [] => source_next s = Ok None
  | x :: cs => ∃ s', source_next s = Ok (Some (x, s')) ∧ plain_candidates s' = Ok cs ∧
                     (source_len s' < source_len s)%nat
  end.
Proof.
  destruct s as [raw|raw g e|d]; cbn [plain_candidates source_next]; intros Hc; [|done|].
  - apply raw_next_spec in Hc. destruct cs as [|x cs]; [by rewrite Hc|].
    destruct Hc as (raw' & -> & Hc' & Hlen). exists (Raw raw'). cbn. split_and!; [done|done|lia].
  - apply delta_next_spec in Hc. destruct cs as [|x cs]; [by rewrite Hc|].
    destruct Hc as (d' & -> & Hc' & Hlen). exists (Delta d'). cbn. split_and!; [done|done|lia].
Qed.

Lemma pending_plain c s cs :
  cur_snapshot c = sn → finished c = false → source c = Some s → plain_candidates s = Ok cs →
  pending c (rows_of (cur_pattern c) cs).
Proof. intros Hsn Hf Hs Hc. split; [done|]. rewrite Hf, Hs. destruct s; eauto. done. Qed.

Lemma next_row_read fuel c s cs :
  (source_len s < fuel)%nat → cur_snapshot c = sn → finished c = false → source c = Some s →
  plain_candidates s = Ok cs →
  reads (next_row fuel c) (next_result (rows_of (cur_pattern c) cs)).
Proof.
  revert c s cs. induction fuel as [|fuel IH]; intros c s cs Hf Hsn Hfin Hs Hcs; [lia|]. cbn [next_row].
  rewrite Hs. pose proof (source_next_spec s cs Hcs) as Hn. destruct cs as [|x cs].
  { eapply reads_then; [by apply (reads_lift _ None)|]. apply reads_ret. split; [done|]. by split. }
  destruct Hn as (s' & Hn & Hcs' & Hlen). eapply reads_then; [by apply (reads_lift _ (Some (x, s')))|].
  eapply reads_bind; [apply account_read|]. intros c' [n ->]. cbn [cur_pattern with_since with_source cur_snapshot].
  rewrite rows_of_cons. fold (kept (cur_pattern c) x). unfold shown.
  pose proof (λ Hl, IH (with_since (with_source c s') n) s' cs Hl Hsn Hfin eq_refl Hcs') as IHc.
  cbn [cur_pattern with_since with_source] in IHc.
  destruct (kept (cur_pattern c) x); cbn [negb andb]; [|apply IHc; lia].
  rewrite Hsn. eapply reads_then; [apply row_visible_read|].
  destruct (row_visible (cand_quad x)); [|apply IHc; lia].
  apply reads_ret. split; [done|]. by eapply (pending_plain (with_since (with_source c s') n)).
Qed.

Lemma next_union_read fuel c raw group emitted cs :
  (raw_len raw < fuel)%nat → cur_snapshot c = sn → finished c = false →
  source c = Some (DefaultUnionSource raw group emitted) → raw_candidates raw = Ok cs →
  reads (next_default_union fuel c) (next_result (union_rows (cur_pattern c) group emitted cs)).
Proof.
  revert c raw group emitted cs. induction fuel as [|fuel IH]; intros c raw group emitted cs Hf Hsn Hfin Hs Hcs; [lia|].
  cbn [next_default_union]. rewrite Hs. pose proof (raw_next_spec raw cs Hcs) as Hn. destruct cs as [|x cs].
  { eapply reads_then; [by apply (reads_lift _ None)|]. apply reads_ret. split; [done|]. by split. }
  destruct Hn as (raw' & Hn & Hcs' & Hlen). eapply reads_then; [by apply (reads_lift _ (Some (x, raw')))|].
  eapply reads_bind; [apply account_read|]. intros c' [n ->]. cbn [cur_pattern with_since with_source cur_snapshot].
  fold (kept (cur_pattern c) x). cbn [union_rows].
  assert (∀ g e c', cur_pattern c' = cur_pattern c → cur_snapshot c' = sn → finished c' = false →
    source c' = Some (DefaultUnionSource raw' g e) →
    reads (next_default_union fuel c') (next_result (union_rows (cur_pattern c) g e cs))) as IHc.
  { intros g e c' Hp Hsn' Hfin' Hs'. rewrite <- Hp. apply (IH c' raw' g e cs); [lia|done..]. }
  clear IH. destruct (kept (cur_pattern c) x); cbn [negb]; [|by apply IHc].
  set (e := if decide (group = Some _) then emitted else false). destruct e; [by apply IHc|].
  rewrite Hsn. eapply reads_then; [apply row_visible_read|].
  destruct (row_visible (cand_quad x)); [|by apply IHc].
  apply reads_ret. split; [done|]. split; [done|]. cbn. rewrite Hfin. eauto.
Qed.

(** [next] yields the first pending row. *)
Lemma cursor_next_read c l : pending c l → reads (cursor_next c) (next_result l).
Proof.
  intros [Hsn Hl]. unfold cursor_next. destruct (finished c) eqn:Hfin.
  { subst. apply reads_ret. split; [done|]. split; [done|]. cbn [snd]. by rewrite Hfin. }
  eapply reads_bind; [apply reads_check|]. intros _ _. destruct (source c) as [s|] eqn:Hs.
  - assert (cursor_len c = source_len s) as -> by (unfold cursor_len; rewrite Hs; by destruct s).
    destruct s as [raw|raw g e|d]; destruct Hl as (cs & Hcs & ->).
    + by apply (next_row_read _ c (Raw raw) cs); [cbn; lia|..].
    + by apply (next_union_read _ c raw g e cs); [cbn; lia|..].
    + by apply (next_row_read _ c (Delta d) cs); [cbn; lia|..].
  - subst. cbn. rewrite Hs. apply reads_ret. split; [done|]. by split.
Qed.

Lemma rows_of_length p cs : (length (rows_of p cs) ≤ length cs)%nat.
Proof. unfold rows_of. rewrite length_fmap. apply length_filter. Qed.
Lemma union_rows_length p g e cs : (length (union_rows p g e cs) ≤ length cs)%nat.
Proof.
  revert g e. induction cs as [|c cs IH]; intros g e; [done|]. cbn.
  repeat case_match; cbn; try apply le_n_S; try apply Nat.le_le_succ_r; auto.
Qed.

Lemma delta_candidates_len d cs : delta_candidates d = Ok cs → length cs = delta_len d.
Proof.
  unfold delta_candidates, delta_len. intros (bs & Hbs & [= <-])%bind_ok.
  rewrite length_app, !length_fmap.
  assert (length (overlay_rows (delta_overlay d)) = overlay_len (delta_overlay d)) as ->.
  { destruct (delta_overlay d); [done|]. cbn. by rewrite length_fmap. }
  destruct (delta_base d); [|by injection Hbs as <-]. by rewrite (raw_candidates_len _ _ Hbs).
Qed.

Lemma pending_length c l : pending c l → (length l ≤ cursor_len c)%nat.
Proof.
  intros [_ Hl]. destruct (finished c); [subst; cbn; lia|]. unfold cursor_len.
  destruct (source c) as [[raw|raw g e|d]|]; [destruct Hl as (cs & Hcs & ->)..|subst; cbn; lia].
  - rewrite <- (raw_candidates_len _ _ Hcs). apply rows_of_length.
  - rewrite <- (raw_candidates_len _ _ Hcs). apply union_rows_length.
  - rewrite <- (delta_candidates_len _ _ Hcs). apply rows_of_length.
Qed.

Lemma collect_rows_read fuel c l :
  (length l < fuel)%nat → pending c l → reads (collect_rows fuel c) (λ rows, rows = l).
Proof.
  revert c l. induction fuel as [|fuel IH]; intros c l Hf Hc; [lia|]. cbn [collect_rows].
  eapply reads_bind; [by apply cursor_next_read|]. intros [q c'] [Hq Hc']. cbn in *. subst q.
  destruct l as [|q l]; cbn in *; [by apply reads_ret|].
  eapply reads_then; [apply (IH c' l); [lia|done]|]. by apply reads_ret.
Qed.

(** All the rows of a cursor. *)
Lemma collect_read c l : pending c l → reads (collect c) (λ rows, rows = l).
Proof.
  intros Hc. pose proof (pending_length c l Hc). unfold collect. apply collect_rows_read; [lia|done].
Qed.

Lemma first_row_read c l : pending c l → reads (first_row c) (λ b, b = bool_decide (l ≠ [])).
Proof.
  intros Hc. unfold first_row. eapply reads_bind; [by apply cursor_next_read|]. intros [q c'] [Hq _]. cbn in *.
  apply reads_ret. subst. by destruct l.
Qed.

Lemma count_loop_read fuel cap count c l :
  (length l < fuel)%nat → (count ≤ cap)%N → pending c l →
  reads (count_loop fuel cap count c) (λ n, n = N.min cap (count + N.of_nat (length l))).
Proof.
  revert count c l. induction fuel as [|fuel IH]; intros count c l Hf Hle Hc; [lia|]. cbn [count_loop].
  case_decide as Hlt; [|apply reads_ret; lia].
  eapply reads_bind; [by apply cursor_next_read|]. intros [q c'] [Hq Hc']. cbn in *. subst q.
  destruct l as [|q l]; cbn [head tail length] in *; [apply reads_ret; lia|].
  eapply reads_weaken; [apply (IH (count + 1)%N c' l); [lia|lia|done]|]. intros n ->. lia.
Qed.

(** ** Views *)

(** Reads of a view whose scan opens a cursor over rows that satisfy [E]. *)
Section view.
Context {V : Type} `{RdfReadView V} (view : V) (s : GraphSelector) (p : QuadPattern).
Context (E : list EncodedQuad → Prop).
Context (Hscan : reads (scan view s p) (λ c, ∃ l, pending c l ∧ E l)).

Lemma collect_scan_read : reads (c ⇐ scan view s p; collect c) E.
Proof.
  eapply reads_bind; [exact Hscan|]. intros c (l & Hl & He).
  eapply reads_weaken; [by apply collect_read|]. by intros ? ->.
Qed.

Lemma count_up_to_read cap :
  reads (count_up_to view s p cap) (λ n, ∃ l, E l ∧ n = N.min cap (N.of_nat (length l))).
Proof.
  unfold count_up_to. case_decide as Hcap.
  - destruct (reads_value _ _ Hscan) as (c & l & _ & He). apply reads_ret. exists l. split; [done|]. lia.
  - eapply reads_bind; [exact Hscan|]. intros c (l & Hl & He).
    eapply reads_weaken; [apply (count_loop_read _ cap 0 c l); [|lia|done]|].
    + apply pending_length in Hl. lia.
    + intros n ->. exists l. split; [done|]. lia.
Qed.
End view.
End rules.
