(* ===== verification/Answers.v ===== *)
(** * Reads answer the live quads

    Whatever access path a scan takes -- the source keyspace, one of the six
    orders of the query view, a point look-up -- its cursor yields exactly the
    live quads that match the pattern and are visible, each once; a scan of the
    default union yields one copy of each (subject, predicate, object); [exists]
    and [count_up_to] agree with the scan.  The query view is trusted only when
    it mirrors the live quads ([IndexMirror]). *)

From S2P Require Import Prelude Clock Terms Store Codec QueryView IndexUpdate Transitions IndexMirror.
From S2P Require Import Orphans Cursors Reads ReadRules.
#[local] Open Scope craqle_scope.

(** ** Patterns *)

Lemma term_matches_true t x : term_matches t x = true ↔ ∀ y, t = Some y → y = x.
Proof. destruct t as [y|]; cbn; [rewrite bool_decide_eq_true|]; naive_solver. Qed.

Lemma matches_true p q :
  matches p q = true ↔
    (∀ x, pat_graph p = Some x → x = quad_graph q) ∧ (∀ x, pat_subject p = Some x → x = quad_subject q) ∧
    (∀ x, pat_predicate p = Some x → x = quad_predicate q) ∧ (∀ x, pat_object p = Some x → x = quad_object q).
Proof. unfold matches. rewrite !andb_true_iff, !term_matches_true. tauto. Qed.

Lemma matches_with_graph p g q :
  term_matches (pat_graph p) g = true →
  matches (with_graph p g) q = true ↔ matches p q = true ∧ quad_graph q = g.
Proof.
  rewrite term_matches_true, !matches_true. unfold with_graph. cbn. intros Hg. split; [|naive_solver].
  intros (H1 & ? & ? & ?). specialize (H1 g eq_refl) as <-. naive_solver.
Qed.

(** ** The source keyspace *)

(** The scanned prefix of a bound graph, subject and predicate holds every row
    that matches. *)
Lemma source_prefix p q :
  matches p q = true →
  match pat_graph p, pat_subject p, pat_predicate p with
  | Some g, Some s, Some pr => be_bytes 16 g ++ be_bytes 16 s ++ be_bytes 16 pr
  | Some g, Some s, None => be_bytes 16 g ++ be_bytes 16 s
  | Some g, None, _ => be_bytes 16 g
  | None, _, _ => []
  end `prefix_of` quad_key q.
Proof.
  rewrite matches_true. intros (Hg & Hs & Hp & _). unfold quad_key. cbn [fields].
  destruct (pat_graph p) as [g|]; [|apply prefix_nil]. rewrite (Hg g eq_refl).
  destruct (pat_subject p) as [s|]; [|by apply prefix_app_r]. rewrite (Hs s eq_refl).
  destruct (pat_predicate p) as [pr|]; [rewrite (Hp pr eq_refl)|]; repeat apply prefix_app; by apply prefix_app_r.
Qed.

(** The contract of a raw cursor: its candidates are distinct, those marked
    live are, and no live quad that matches is missing. *)
Record covers (live : gset EncodedQuad) (p : QuadPattern) (cs : list RawQuadCandidate) : Prop := {
  co_nodup : NoDup (cand_quad <$> cs);
  co_live c : c ∈ cs → cand_live c = true → cand_quad c ∈ live;
  co_all q : q ∈ live → matches p q = true → ∃ c, c ∈ cs ∧ cand_live c = true ∧ cand_quad c = q;
}.

Lemma source_covers st p :
  ∃ cs, raw_candidates (raw_quad_cursor st p) = Ok cs ∧ covers (live_set st) p cs.
Proof.
  eexists. split; [done|]. split.
  - rewrite <- list_fmap_compose. change (cand_quad ∘ source_candidate) with (@fst EncodedQuad (list Dot)).
    eapply sublist_NoDup; [apply (btree_iter_nodup (quads st))|]. apply fmap_sublist, sublist_filter.
  - intros c ([q dots] & -> & [_ Hr]%list_elem_of_filter)%list_elem_of_fmap. rewrite elem_of_btree_iter in Hr.
    cbn. intros Hl%bool_decide_eq_true. apply elem_of_live_set. unfold read_quad_dots. by rewrite Hr.
  - intros q Hq Hm. apply elem_of_live_set in Hq. unfold read_quad_dots in Hq.
    destruct (quads st !! q) as [dots|] eqn:E; [|done]. exists (source_candidate (q, dots)).
    split_and!; [|by apply bool_decide_eq_true|done]. apply list_elem_of_fmap. exists (q, dots). split; [done|].
    apply list_elem_of_filter. split; [by apply source_prefix|]. by rewrite elem_of_btree_iter.
Qed.

(** ** The query view *)

(** The columns of a row in the order of an index. *)
Definition query_cols (order : IndexCursorOrder) (x : QueryQuad) : list QueryTermId :=
  match order with
  | Gspo => [qq_graph x; qq_subject x; qq_predicate x; qq_object x]
  | Gpos => [qq_graph x; qq_predicate x; qq_object x; qq_subject x]
  | Spog => [qq_subject x; qq_predicate x; qq_object x; qq_graph x]
  | Posg => [qq_predicate x; qq_object x; qq_subject x; qq_graph x]
  | Ospg => [qq_object x; qq_subject x; qq_predicate x; qq_graph x]
  | Gosp => [qq_graph x; qq_object x; qq_subject x; qq_predicate x]
  end.
Definition quad_cols (order : IndexCursorOrder) (q : EncodedQuad) : list TermId :=
  match order with
  | Gspo => [quad_graph q; quad_subject q; quad_predicate q; quad_object q]
  | Gpos => [quad_graph q; quad_predicate q; quad_object q; quad_subject q]
  | Spog => [quad_subject q; quad_predicate q; quad_object q; quad_graph q]
  | Posg => [quad_predicate q; quad_object q; quad_subject q; quad_graph q]
  | Ospg => [quad_object q; quad_subject q; quad_predicate q; quad_graph q]
  | Gosp => [quad_graph q; quad_object q; quad_subject q; quad_predicate q]
  end.
Definition order_key (order : IndexCursorOrder) (x : QueryQuad) : bytes := query_index_key (query_cols order x).

Lemma query_cols_fit order x : query_quad_fit x → Forall u64_fit (query_cols order x).
Proof. intros (?&?&?&?). destruct order; by repeat constructor. Qed.

Lemma query_cols_map m order q x :
  query_of m q = Some x → Forall2 (λ t i, m !! t = Some i) (quad_cols order q) (query_cols order x).
Proof. intros (?&?&?&?)%query_of_some. destruct order; by repeat constructor. Qed.

Lemma decode_order_key order x : query_quad_fit x → decode_query_key order (order_key order x) = Ok x.
Proof.
  intros Hx. destruct order; unfold decode_query_key, order_key;
    change (query_index_key (query_cols _ x)) with (gspo_key x) ||
    change (query_index_key (query_cols _ x)) with (gpos_key x) ||
    change (query_index_key (query_cols _ x)) with (spog_key x) ||
    change (query_index_key (query_cols _ x)) with (posg_key x) ||
    change (query_index_key (query_cols _ x)) with (ospg_key x) ||
    change (query_index_key (query_cols _ x)) with (gosp_key x); by solve_decode_key.
Qed.

Lemma order_space_ok sp R order : rows_ok sp R → space_ok (order_key order) R (order_space sp order).
Proof. intros []. by destruct order. Qed.

(** The columns a pattern bounds are a prefix of a matching row's columns. *)
Lemma range_terms_prefix order p q : matches p q = true → range_terms order p `prefix_of` quad_cols order q.
Proof.
  rewrite matches_true. intros (Hg & Hs & Hp & Ho). unfold range_terms.
  destruct p as [[g|] [s|] [pr|] [o|]], order; cbn in *;
    try rewrite (Hg g eq_refl); try rewrite (Hs s eq_refl); try rewrite (Hp pr eq_refl); try rewrite (Ho o eq_refl);
    repeat apply prefix_cons; apply prefix_nil.
Qed.

Definition pattern_fit (p : QuadPattern) : Prop :=
  Forall (λ t, from_option TermId_fit True t) [pat_graph p; pat_subject p; pat_predicate p; pat_object p].

Lemma range_terms_fit order p : pattern_fit p → Forall TermId_fit (range_terms order p).
Proof.
  unfold pattern_fit, range_terms. rewrite !Forall_cons. intros (?&?&?&?&_).
  destruct p as [[g|] [s|] [pr|] [o|]], order; cbn in *; by repeat constructor.
Qed.

Section index.
Context (sp : IndexSpaces) (next : N) (m : gmap TermId N) (R : gset QueryQuad) (live : gset EncodedQuad).
Context (Hslot : slot_ok sp next m R live).

Let Hids := sl_ids _ _ _ _ _ Hslot.

Lemma query_terms_total ts :
  Forall TermId_fit ts →
  query_terms sp ts = Ok (if decide (Forall (λ t, is_Some (m !! t)) ts) then Some (omap (m !!.) ts) else None).
Proof.
  induction 1 as [|t ts Ht Hts IH]; cbn [query_terms]; [done|].
  rewrite (io_forward _ _ _ Hids) by done. destruct (m !! t) as [i|] eqn:E; cbn [fmap option_fmap option_map].
  - unfold decode_query_id. rewrite decide_True by apply be_bytes_length.
    rewrite be_round by by eapply ids_u64. cbn [mbind outcome_bind]. rewrite IH. cbn [mbind outcome_bind].
    destruct (decide (Forall _ ts)) as [Hall|Hno].
    + rewrite decide_True by (constructor; eauto). cbn [omap list_omap]. by rewrite E.
    + rewrite decide_False; [done|]. by intros [_ ?]%Forall_cons.
  - rewrite decide_False; [done|]. intros [[? ?] _]%Forall_cons. congruence.
Qed.

Lemma decode_mapped t i : m !! t = Some i → TermId_fit t → decode_query_term (query_to_term sp) i = Ok t.
Proof.
  intros Hm Ht. unfold decode_query_term.
  rewrite (proj2 (io_reverse _ _ _ Hids i (be_bytes 16 t) (ids_u64 _ _ _ _ _ Hids Hm))) by eauto.
  cbn [ok_or mbind outcome_bind]. unfold decode_source_id. rewrite decide_True by apply be_bytes_length.
  by rewrite be_round.
Qed.

(** An entry of an index is the candidate of a live quad. *)
Lemma index_candidate_ok order q x :
  q ∈ live → query_of m q = Some x →
  index_candidate (query_to_term sp) order (order_key order x, []) =
    Ok {| cand_quad := q; cand_live := true; storage := FromQueryIndex |}.
Proof.
  intros Hq Hx. unfold index_candidate. cbn [fst snd]. rewrite decide_False by naive_solver.
  rewrite decode_order_key by (by eapply query_of_fit). cbn [mbind outcome_bind].
  destruct (rl_fit _ _ _ (sl_live _ _ _ _ _ Hslot) q Hq) as (?&?&?&?).
  apply query_of_some in Hx as (Hg & Hs & Hp & Ho).
  rewrite (decode_mapped _ _ Hg), (decode_mapped _ _ Hs), (decode_mapped _ _ Hp), (decode_mapped _ _ Ho) by done.
  by destruct q.
Qed.

(** The live quad of a stored key. *)
Lemma stored_key order k v :
  order_space sp order !! k = Some v →
  ∃ q x, q ∈ live ∧ query_of m q = Some x ∧ k = order_key order x ∧ v = [].
Proof.
  intros (-> & x & Hx & ->)%(order_space_ok sp R order (sl_rows _ _ _ _ _ Hslot)).
  apply (rl_rows _ _ _ (sl_live _ _ _ _ _ Hslot)) in Hx as (q & ? & ?). eauto 10.
Qed.

Lemma key_stored order q x : q ∈ live → query_of m q = Some x → order_space sp order !! order_key order x = Some [].
Proof.
  intros Hq Hx. apply (order_space_ok sp R order (sl_rows _ _ _ _ _ Hslot)). split; [done|].
  exists x. split; [|done]. apply (rl_rows _ _ _ (sl_live _ _ _ _ _ Hslot)). eauto.
Qed.
End index.

(** ** Lists in step *)

Lemma forall2_exists {A B} (P : A → B → Prop) l : Forall (λ x, ∃ y, P x y) l → ∃ k, Forall2 P l k.
Proof.
  induction 1 as [|x l [y Hy] _ [k Hk]]; [by exists []|]. exists (y :: k). by constructor.
Qed.

Lemma forall2_sorted {A B} (P : A → B → Prop) (RA : relation A) (RB : relation B) l k :
  Forall2 P l k → (∀ x x' y y', P x y → P x' y' → RA x x' → RB y y') →
  StronglySorted RA l → StronglySorted RB k.
Proof.
  intros Hp HR. induction Hp as [|x y l k Hxy Hlk IH]; intros Hs; [constructor|].
  apply StronglySorted_inv in Hs as [Hs Hx]. constructor; [by apply IH|].
  clear IH Hs. induction Hlk; [constructor|]. apply Forall_cons in Hx as [? ?]. constructor; eauto.
Qed.

Lemma forall2_elem_r {A B} (P : A → B → Prop) l k y : Forall2 P l k → y ∈ k → ∃ x, x ∈ l ∧ P x y.
Proof. induction 1; [by intros ?%elem_of_nil|]. intros [->|?]%elem_of_cons; set_solver. Qed.
Lemma forall2_elem_l {A B} (P : A → B → Prop) l k x : Forall2 P l k → x ∈ l → ∃ y, y ∈ k ∧ P x y.
Proof. induction 1; [by intros ?%elem_of_nil|]. intros [->|?]%elem_of_cons; set_solver. Qed.

Lemma sorted_impl {A} (R R' : relation A) l :
  StronglySorted R l → (∀ x y, R x y → R' x y) → StronglySorted R' l.
Proof.
  intros Hs HR. induction Hs as [|x l _ IH Hx]; constructor; [done|]. eapply Forall_impl; eauto.
Qed.
Lemma sorted_nodup {A B} (f : A → B) (R : relation A) l :
  StronglySorted R l → (∀ x y, R x y → f x ≠ f y) → NoDup (f <$> l).
Proof.
  intros Hs HR. induction Hs as [|x l _ IH Hx]; cbn; constructor; [|done].
  intros (y & Hxy & Hy)%list_elem_of_fmap. rewrite Forall_forall in Hx. by apply (HR x y); auto.
Qed.

Lemma list_cmp_take {A} `{TotalOrd A} n (l k : list A) : cmp_le l k → cmp_le (take n l) (take n k).
Proof.
  unfold cmp_le, cmp, list_ord. revert l k. induction n as [|n IH]; intros [|x l] [|y k]; cbn; try done.
  destruct (cmp x y); cbn; [apply IH|done|done].
Qed.

Lemma sorted_fst {K V} `{Countable K} `{Ord K} `{!TotalOrd K} (mp : gmap K V) :
  StronglySorted (λ a b, cmp_lt a.1 b.1) (btree_iter mp).
Proof.
  pose proof (btree_keys_sorted mp) as Hs. rewrite <- btree_iter_fst in Hs.
  induction (btree_iter mp) as [|a l IH]; [constructor|]. cbn in Hs.
  apply StronglySorted_inv in Hs as [Hs Ha]. constructor; [by apply IH|].
  clear - Ha. induction l as [|b l IHl]; constructor; apply Forall_cons in Ha as [? ?]; auto.
Qed.

(** ** The cursor of an index *)

(** The identifiers of a quad's columns. *)
Definition cols_of (m : gmap TermId N) (order : IndexCursorOrder) (q : EncodedQuad) : list QueryTermId :=
  omap (m !!.) (quad_cols order q).

Lemma cols_of_query m order q x : query_of m q = Some x → cols_of m order q = query_cols order x.
Proof.
  intros Hx. unfold cols_of. pose proof (query_cols_map m order q x Hx) as Hf.
  induction Hf as [|t i ts ids Ht _ IH]; [done|]. cbn. by rewrite Ht, IH.
Qed.

(** Identified candidates in the order of an index. *)
Definition in_order (m : gmap TermId N) (order : IndexCursorOrder) (cs : list RawQuadCandidate) : Prop :=
  Forall (λ c, is_Some (query_of m (cand_quad c))) cs ∧
  StronglySorted (λ c c', cmp_le (cols_of m order (cand_quad c)) (cols_of m order (cand_quad c'))) cs.

Section index_cursor.
Context (sp : IndexSpaces) (next : N) (m : gmap TermId N) (R : gset QueryQuad) (live : gset EncodedQuad).
Context (Hslot : slot_ok sp next m R live) (order : IndexCursorOrder).

Let Hids := sl_ids _ _ _ _ _ Hslot.

(** An index entry and its candidate. *)
Definition entry (row : bytes * bytes) (c : RawQuadCandidate) : Prop :=
  ∃ q x, q ∈ live ∧ query_of m q = Some x ∧ row = (order_key order x, []) ∧
    c = {| cand_quad := q; cand_live := true; storage := FromQueryIndex |}.

Lemma entry_lt row c row' c' :
  entry row c → entry row' c' → cmp_lt row.1 row'.1 →
  cmp_lt (cols_of m order (cand_quad c)) (cols_of m order (cand_quad c')).
Proof.
  intros (q & x & _ & Hx & -> & ->) (q' & x' & _ & Hx' & -> & ->). cbn.
  rewrite (cols_of_query _ _ _ _ Hx), (cols_of_query _ _ _ _ Hx'). unfold order_key, cmp_lt, cmp, list_ord.
  rewrite query_index_key_cmp; [done|..].
  - by eapply query_cols_fit, query_of_fit.
  - by eapply query_cols_fit, query_of_fit.
  - by destruct order.
Qed.

Lemma scan_entries pre :
  ∃ cs, raw_candidates (QueryIndexRows (query_to_term sp) order (prefix_scan (order_space sp order) pre)) = Ok cs ∧
    Forall2 entry (prefix_scan (order_space sp order) pre) cs.
Proof.
  destruct (forall2_exists entry (prefix_scan (order_space sp order) pre)) as [cs Hcs].
  { apply Forall_forall. intros [k v] [_ Hk]%list_elem_of_filter. rewrite elem_of_btree_iter in Hk.
    destruct (stored_key _ _ _ _ _ Hslot order k v Hk) as (q & x & Hq & Hx & -> & ->). eexists. exists q, x. eauto. }
  exists cs. split; [|done]. cbn. apply try_map_ok. eapply Forall2_impl; [exact Hcs|].
  intros row c (q & x & Hq & Hx & -> & ->). by eapply index_candidate_ok.
Qed.

Lemma entries_in_order pre cs :
  Forall2 entry (prefix_scan (order_space sp order) pre) cs → in_order m order cs ∧ NoDup (cand_quad <$> cs).
Proof.
  intros Hcs.
  assert (StronglySorted (λ c c', cmp_lt (cols_of m order (cand_quad c)) (cols_of m order (cand_quad c'))) cs) as Hlt.
  { eapply (forall2_sorted entry (λ a b, cmp_lt a.1 b.1)); [done|intros; by eapply entry_lt|].
    apply filter_sorted, sorted_fst. }
  split; [split|].
  - apply Forall_forall. intros c Hc. destruct (forall2_elem_r _ _ _ _ Hcs Hc) as (row & _ & q & x & _ & Hx & _ & ->).
    eauto.
  - eapply sorted_impl; [exact Hlt|]. intros c c' Hc. apply cmp_le_lteq. by left.
  - eapply sorted_nodup; [exact Hlt|]. intros c c' Hc Heq. cbn beta in Hc. rewrite Heq in Hc. by apply (irreflexivity cmp_lt) in Hc.
Qed.

(** The scan of the columns a pattern bounds. *)
Lemma scan_covers p cs ids :
  Forall2 entry (prefix_scan (order_space sp order) (query_index_prefix ids)) cs →
  ids = omap (m !!.) (range_terms order p) → covers live p cs.
Proof.
  intros Hcs ->. split; [by eapply entries_in_order| |].
  - intros c Hc _. destruct (forall2_elem_r _ _ _ _ Hcs Hc) as (row & _ & q & x & Hq & _ & _ & ->). done.
  - intros q Hq Hm. destruct (rl_total _ _ _ (sl_live _ _ _ _ _ Hslot) q Hq) as [x Hx].
    destruct (forall2_elem_l _ _ _ (order_key order x, []) Hcs) as (c & Hc & q' & x' & Hq' & Hx' & Hk & ->).
    + apply list_elem_of_filter. split; [|apply elem_of_btree_iter; by eapply key_stored].
      cbn. unfold order_key. rewrite <- (cols_of_query m order q x Hx). unfold cols_of.
      destruct (range_terms_prefix order p q Hm) as [k ->]. rewrite omap_app. unfold query_index_key.
      rewrite bind_app. by apply prefix_app_r.
    + exists {| cand_quad := q'; cand_live := true; storage := FromQueryIndex |}. split_and!; [done|done|].
      cbn. injection Hk as Hk. assert (x = x') as ->; [|by eapply query_of_inj].
      assert (query_quad_fit x) as Hf by (by eapply query_of_fit).
      assert (query_quad_fit x') as Hf' by (by eapply query_of_fit).
      pose proof (decode_order_key order x Hf) as H1. rewrite Hk, decode_order_key in H1 by done. congruence.
Qed.
End index_cursor.

(** What the cursor of an index yields, when the view mirrors [live]. *)
Lemma query_index_covers v h live order p :
  mirrors v h live → pattern_fit p →
  ∃ raw cs m, query_index_cursor v order p = Ok raw ∧ raw_candidates raw = Ok cs ∧ covers live p cs ∧
    in_order m order cs ∧ (∀ t t' i, m !! t = Some i → m !! t' = Some i → t = t').
Proof.
  intros [Hread _ _ (slot & m & R & Hdec & Hslot & _)] Hp.
  assert (active_query_spaces v = Ok (Some (query_spaces v slot))) as Hact.
  { unfold active_query_spaces. rewrite Hread. cbn. by rewrite Hdec. }
  set (sp := query_spaces v slot) in *. pose proof (sl_ids _ _ _ _ _ Hslot) as Hids.
  unfold query_index_cursor. rewrite Hact. cbn [mbind outcome_bind].
  rewrite (query_terms_total _ _ _ _ _ Hslot) by by apply range_terms_fit.
  cbn [mbind outcome_bind]. case_decide as Hall.
  - destruct (scan_entries _ _ _ _ _ Hslot order
      (query_index_prefix (omap (m !!.) (range_terms order p)))) as (cs & Hraw & Hcs).
    eexists _, cs, m. split_and!; [done|done|by eapply scan_covers|by eapply entries_in_order|].
    by apply (io_inj _ _ _ Hids).
  - exists EmptyCursor, [], m. split_and!; [done|done| |split; constructor|by apply (io_inj _ _ _ Hids)].
    split; [constructor|set_solver|]. intros q Hq Hm. exfalso. apply Hall, Forall_forall. intros t Ht.
    destruct (rl_total _ _ _ (sl_live _ _ _ _ _ Hslot) q Hq) as [x Hx].
    destruct (range_terms_prefix order p q Hm) as [k Hk].
    assert (t ∈ quad_cols order q) as Hin by (rewrite Hk; set_solver).
    destruct (forall2_elem_l _ _ _ t (query_cols_map m order q x Hx) Hin) as (i & _ & Hi). eauto.
Qed.

(** ** Admission *)

Lemma header_quads_fit h : header_fit h → (indexed_quads h ≤ u64_max)%N.
Proof.
  intros [_ Hf]. rewrite !Forall_cons in Hf. destruct Hf as (_ & _ & _ & Hq & _).
  unfold u64_fit in Hq. unfold max_of. change (2 ^ 64)%N with (256 ^ 8)%N. lia.
Qed.

(** The query view is trusted when no projection is owed and the header fits
    the snapshot. *)
Lemma mirrors_admission v h live seqno :
  mirrors v h live →
  ∃ a, snapshot_admission v seqno = Ok a ∧
    trusted a = negb (projection_debt_present v) && fits_snapshot h seqno.
Proof.
  intros [Hread Hcoh Hhf (slot & m & R & Hdec & Hslot & Hsize)]. unfold snapshot_admission.
  destruct (projection_debt_present v); [eexists; split; done|]. rewrite Hread. cbn [mbind outcome_bind].
  unfold header_admission. rewrite (coherent_ready h Hcoh), Hcoh. cbn [negb].
  destruct (fits_snapshot h seqno) eqn:Hfit; [|eexists; split; done]. cbn [negb].
  assert (snapshot_counter v Total = Ok (Value (indexed_quads h))) as ->; [|by cbn; rewrite decide_True; eexists].
  unfold snapshot_counter, active_query_spaces. rewrite Hread. cbn [mbind outcome_bind fmap option_fmap option_map].
  rewrite Hdec. cbn [fmap option_fmap option_map]. unfold query_index_counter.
  rewrite (sl_counters _ _ _ _ _ Hslot Total) by done. rewrite count_total, <- Hsize.
  rewrite read_count_be; [done|]. by apply header_quads_fit.
Qed.

(** ** Runs of candidates *)

Section runs.
Context `{Blake3} (sn : Snapshot) (scope : GraphVisibility) (validating : option TermId) (p : QuadPattern).
Context (rank : EncodedQuad → list N).

Let shown := shown sn scope validating p.
Let union_rows := union_rows sn scope validating p.

(** Quads of one rank are the copies of one group. *)
Definition ranked (qs : list EncodedQuad) : Prop :=
  ∀ q q', q ∈ qs → q' ∈ qs → rank q = rank q' ↔ group_of q = group_of q'.

Definition rank_le (c c' : RawQuadCandidate) : Prop := cmp_le (rank (cand_quad c)) (rank (cand_quad c')).

(** One visible copy of each group, and none of the group already answered. *)
Lemma union_rows_spec cs last (emitted : bool) :
  StronglySorted rank_le cs → ranked (option_list last ++ (cand_quad <$> cs)) →
  (∀ q0 c, last = Some q0 → c ∈ cs → cmp_le (rank q0) (rank (cand_quad c))) →
  let l := union_rows (group_of <$> last) emitted cs in
  (∀ q, q ∈ l → ∃ c, c ∈ cs ∧ shown c = true ∧ cand_quad c = q) ∧
  NoDup (group_of <$> l) ∧
  (∀ q0, last = Some q0 → emitted = true → group_of q0 ∉ group_of <$> l) ∧
  (∀ c, c ∈ cs → shown c = true → group_of (cand_quad c) ∈ group_of <$> l ∨
    (emitted = true ∧ group_of <$> last = Some (group_of (cand_quad c)))).
Proof.
  revert last emitted. induction cs as [|c cs IH]; intros last emitted Hs Hr Hl; cbn zeta.
  { cbn. split_and!; try constructor; set_solver. }
  apply StronglySorted_inv in Hs as [Hs Hc]. rewrite Forall_forall in Hc.
  cbn [fmap list_fmap] in Hr. set (q := cand_quad c) in *.
  assert (∀ q0, last = Some q0 → group_of q0 ≠ group_of q →
    ∀ c', c' ∈ cs → group_of (cand_quad c') ≠ group_of q0) as Hsep.
  { intros q0 -> Hne c' Hc' Heq. apply Hne, Hr; [set_solver..|].
    apply (anti_symm cmp_le); [apply (Hl q0 c); [done|by left]|].
    rewrite <- (proj2 (Hr (cand_quad c') q0 ltac:(set_solver) ltac:(set_solver)) Heq). by apply Hc. }
  assert (∀ e, let l := union_rows (Some (group_of q)) e cs in
    (∀ r, r ∈ l → ∃ c, c ∈ cs ∧ shown c = true ∧ cand_quad c = r) ∧ NoDup (group_of <$> l) ∧
    (e = true → group_of q ∉ group_of <$> l) ∧
    (∀ c', c' ∈ cs → shown c' = true → group_of (cand_quad c') ∈ group_of <$> l ∨
      (e = true ∧ group_of q = group_of (cand_quad c')))) as IHq.
  { intros e. destruct (IH (Some q) e Hs) as (H1 & H2 & H3 & H4).
    - intros r r' Hin Hin'. apply Hr; set_solver.
    - intros q0 c' [= <-] Hc'. by apply Hc.
    - split_and!; [done|done|by intros He; apply (H3 q)|]. intros c' Hc' Hsh.
      destruct (H4 c' Hc' Hsh) as [|[He Hg]]; [by left|right].
      split; [done|]. cbn [fmap option_fmap option_map] in Hg. congruence. }
  assert (∀ l : list EncodedQuad, (∀ r, r ∈ l → ∃ c, c ∈ cs ∧ shown c = true ∧ cand_quad c = r) →
    ∀ r, r ∈ l → ∃ c', c' ∈ c :: cs ∧ shown c' = true ∧ cand_quad c' = r) as Hweak.
  { intros l Hin r Hin'. destruct (Hin r Hin') as (c' & ? & ? & ?). exists c'. split_and!; [by right|done|done]. }
  unfold union_rows. cbn [ReadRules.union_rows]. fold union_rows. change (cand_quad c) with q.
  unfold shown, ReadRules.shown in *. fold q. destruct (kept p c) eqn:Hk; cbn [negb].
  2: { destruct (IH last emitted Hs) as (H1 & H2 & H3 & H4).
       - intros r r' Hin Hin'. apply Hr; set_solver.
       - intros q0 c' Hq0 Hc'. apply (Hl q0); [done|by right].
       - split_and!; [by apply Hweak|done|done|]. intros c' [->|Hc']%elem_of_cons Hsh; [|by apply H4].
         by rewrite Hk in Hsh. }
  assert (∀ q0, last = Some q0 → group_of q0 = group_of q ∨ group_of q0 ≠ group_of q) as Hdec.
  { intros q0 _. destruct (decide (group_of q0 = group_of q)); auto. }
  destruct (if decide (group_of <$> last = Some (group_of q)) then emitted else false) eqn:He.
  { case_decide as Hg; [|done]. subst emitted. destruct (IHq true) as (H1 & H2 & H3 & H4).
    split_and!; [by apply Hweak|done| |].
    - intros q0 -> _. cbn [fmap option_fmap option_map] in Hg.
      assert (group_of q0 = group_of q) as -> by congruence. by apply H3.
    - intros c' [->|Hc']%elem_of_cons Hsh; [by right|].
      destruct (H4 c' Hc' Hsh) as [|[_ Heq]]; [by left|right]. split; [done|]. by rewrite <- Heq. }
  assert (∀ q0, last = Some q0 → emitted = true → group_of q0 ≠ group_of q) as Hne.
  { intros q0 -> ->. case_decide as Hg; [done|]. intros Heq. apply Hg. cbn [fmap option_fmap option_map].
    by rewrite Heq. }
  assert (∀ q0 (l : list EncodedQuad), last = Some q0 → emitted = true →
    (∀ r, r ∈ l → ∃ c, c ∈ cs ∧ shown c = true ∧ cand_quad c = r) → group_of q0 ∉ group_of <$> l) as Hfar.
  { intros q0 l Hq0 Hem Hin (r & Heq & Hr')%list_elem_of_fmap. destruct (Hin r Hr') as (c' & Hc' & _ & <-).
    by apply (Hsep q0 Hq0 (Hne q0 Hq0 Hem) c' Hc'). }
  unfold shown, ReadRules.shown in Hfar.
  destruct (row_visible sn scope validating q) eqn:Hv.
  - destruct (IHq true) as (H1 & H2 & H3 & H4). split_and!.
    + intros r [->|Hr']%elem_of_cons; [|by apply (Hweak _ H1)]. exists c. split; [by left|]. fold q. by rewrite Hk, Hv.
    + cbn. constructor; [by apply H3|done].
    + intros q0 Hq0 Hem. cbn. intros [Heq|Hin]%elem_of_cons; [by apply (Hne q0 Hq0 Hem)|].
      by eapply Hfar.
    + intros c' [->|Hc']%elem_of_cons Hsh; [left; by left|]. left.
      destruct (H4 c' Hc' Hsh) as [Hin|[_ Heq]]; [by right|]. rewrite <- Heq. by left.
  - destruct (IHq false) as (H1 & H2 & _ & H4). split_and!; [by apply Hweak|done| |].
    + intros q0 Hq0 Hem. by eapply Hfar.
    + intros c' [->|Hc']%elem_of_cons Hsh; [fold q in Hsh; by rewrite Hk, Hv in Hsh|].
      destruct (H4 c' Hc' Hsh) as [|[? _]]; [by left|done].
Qed.
End runs.

(** ** What a read answers *)

Section answers.
Context `{Blake3} (sn : Snapshot) (scope : GraphVisibility) (validating : option TermId).
Let st := sn_store sn.

Definition selects (s : GraphSelector) (q : EncodedQuad) : Prop :=
  match s with Named g => quad_graph q = g | _ => True end.

(** A row of the answer: a live quad of the selected graph that matches and is
    visible. *)
Definition answers (s : GraphSelector) (p : QuadPattern) (q : EncodedQuad) : Prop :=
  q ∈ live_set st ∧ selects s q ∧ matches p q = true ∧ row_visible sn scope validating q = true.

(** The answer as a list: every row once; of the default union, one copy of
    every statement. *)
Definition exact_rows (s : GraphSelector) (p : QuadPattern) (l : list EncodedQuad) : Prop :=
  match s with
  | DefaultUnion =>
      NoDup (group_of <$> l) ∧ (∀ q, q ∈ l → answers s p q) ∧
      (∀ q, answers s p q → group_of q ∈ group_of <$> l)
  | _ => NoDup l ∧ ∀ q, q ∈ l ↔ answers s p q
  end.

(** The query view is trusted only when it mirrors the live quads. *)
Definition view_sound : Prop :=
  ∃ a, snapshot_admission (sn_views sn) (sn_seqno sn) = Ok a ∧
    (trusted a = true → ∃ h, mirrors (sn_views sn) h (live_set st)).

Record snapshot_sound : Prop := {
  ss_graphs : graphs_interned sn;
  ss_terms : no_collision sn;
  ss_view : view_sound;
}.

Lemma shown_true p c :
  shown sn scope validating p c = true ↔
    cand_live c = true ∧ matches p (cand_quad c) = true ∧ row_visible sn scope validating (cand_quad c) = true.
Proof. unfold shown, kept. rewrite !andb_true_iff. tauto. Qed.

(** The rows of a cursor that covers the live quads. *)
Lemma covers_rows p cs :
  covers (live_set st) p cs →
  let l := rows_of sn scope validating p cs in
  NoDup l ∧ ∀ q, q ∈ l ↔ q ∈ live_set st ∧ matches p q = true ∧ row_visible sn scope validating q = true.
Proof.
  intros [Hnd Hl Hall]. unfold rows_of. split.
  - eapply sublist_NoDup; [exact Hnd|]. apply fmap_sublist, sublist_filter.
  - intros q. rewrite list_elem_of_fmap. setoid_rewrite list_elem_of_filter. setoid_rewrite shown_true. split.
    + intros (c & -> & (Hlive & Hm & Hv) & Hc). split_and!; [by apply Hl|done|done].
    + intros (Hq & Hm & Hv). destruct (Hall q Hq Hm) as (c & Hc & Hlive & <-). eauto 10.
Qed.

(** The rows of a default union over an index whose first columns are subject,
    predicate and object. *)
Definition union_order (order : IndexCursorOrder) : Prop :=
  match order with Spog | Posg | Ospg => True | _ => False end.

Lemma union_ranked m order qs :
  union_order order → (∀ t t' i, m !! t = Some i → m !! t' = Some i → t = t') →
  (∀ q, q ∈ qs → is_Some (query_of m q)) → ranked (λ q, take 3 (cols_of m order q)) qs.
Proof.
  intros Ho Hinj Hsome q q' Hq Hq'. destruct (Hsome q Hq) as [x Hx]. destruct (Hsome q' Hq') as [x' Hx'].
  rewrite (cols_of_query _ _ _ _ Hx), (cols_of_query _ _ _ _ Hx'). apply query_of_some in Hx as (_ & Hs & Hp & Hob).
  apply query_of_some in Hx' as (_ & Hs' & Hp' & Hob'). unfold group_of. split.
  - intros Heq. assert (qq_subject x = qq_subject x' ∧ qq_predicate x = qq_predicate x' ∧
      qq_object x = qq_object x') as (E1 & E2 & E3) by (destruct order; cbn in Heq; naive_solver).
    rewrite E1 in Hs. rewrite E2 in Hp. rewrite E3 in Hob. f_equal; [f_equal|]; by eapply Hinj.
  - intros [= E1 E2 E3]. rewrite E1, Hs' in Hs. rewrite E2, Hp' in Hp. rewrite E3, Hob' in Hob.
    injection Hs as Hs. injection Hp as Hp. injection Hob as Hob.
    destruct order; cbn; try done; by rewrite Hs, Hp, Hob.
Qed.

Lemma covers_union m order p cs :
  covers (live_set st) p cs → in_order m order cs → union_order order →
  (∀ t t' i, m !! t = Some i → m !! t' = Some i → t = t') →
  exact_rows DefaultUnion p (union_rows sn scope validating p None false cs).
Proof.
  intros [_ Hl Hall] [Hsome Hs] Ho Hinj.
  destruct (union_rows_spec sn scope validating p (λ q, take 3 (cols_of m order q)) cs None false) as (H1 & H2 & _ & H4).
  - eapply sorted_impl; [exact Hs|]. intros c c' Hc. by apply list_cmp_take.
  - apply union_ranked; [done|done|]. cbn. intros q (c & -> & Hc)%list_elem_of_fmap.
    rewrite Forall_forall in Hsome. by apply Hsome.
  - done.
  - split_and!; [exact H2| |].
    + intros q (c & Hc & (Hlive & Hm & Hv)%shown_true & <-)%H1. split_and!; [by apply Hl|done|done|done].
    + intros q (Hq & _ & Hm & Hv). destruct (Hall q Hq Hm) as (c & Hc & Hlive & <-).
      destruct (H4 c Hc) as [|[? _]]; [by apply shown_true|done|done].
Qed.

Lemma auto_union_order p order : qv_order (auto_access_path DefaultUnion p) = Ok order → union_order order.
Proof. unfold auto_access_path. repeat case_match; by intros [= <-]. Qed.
Lemma auto_order s p : ∃ order, qv_order (auto_access_path s p) = Ok order ∧ auto_access_path s p ≠ SourceGspo.
Proof. unfold auto_access_path. repeat case_match; eauto. Qed.

(** The pattern with the selector applied selects the same rows. *)
Lemma applied_answers s p p' :
  selector_apply s p = Some p' →
  ∀ q, answers s p q ↔ q ∈ live_set st ∧ matches p' q = true ∧ row_visible sn scope validating q = true.
Proof.
  intros Hp q. unfold answers, selects, selector_apply in *. destruct s as [g| |]; [|injection Hp as <-; tauto..].
  destruct (term_matches _ g) eqn:Hg; [|done]. injection Hp as <-. rewrite matches_with_graph by done. tauto.
Qed.

Lemma applied_none s p : selector_apply s p = None → ∀ q, ¬ answers s p q.
Proof.
  unfold selector_apply, answers, selects. destruct s as [g| |]; try done.
  destruct (term_matches _ g) eqn:Hg; [done|]. intros _ q (_ & Hsel & Hm & _).
  apply matches_true in Hm as (Hm & _). subst g. apply not_true_iff_false in Hg. by apply Hg, term_matches_true.
Qed.

Lemma invisible_none g p q : visible_graph sn scope validating g = false → ¬ answers (Named g) p q.
Proof. intros Hg (_ & Hsel & _ & Hv). unfold row_visible in Hv. cbn in Hsel. by rewrite Hsel, Hg in Hv. Qed.

Lemma no_rows_exact s p : (∀ q, ¬ answers s p q) → exact_rows s p [].
Proof. intros Hno. destruct s; cbn; split_and!; try constructor; set_solver. Qed.

(** The cursor yields an exact answer. *)
Definition answering (s : GraphSelector) (p : QuadPattern) (c : QueryCursor) : Prop :=
  ∃ l, pending sn scope validating c l ∧ exact_rows s p l.

Lemma plain_answering s p p' raw cs :
  selector_apply s p = Some p' → s ≠ DefaultUnion → raw_candidates raw = Ok cs →
  covers (live_set st) p' cs → answering s p (cursor_new sn raw p').
Proof.
  intros Hp Hs Hraw Hcov. exists (rows_of sn scope validating p' cs). split; [split; cbn; eauto|].
  destruct (covers_rows p' cs Hcov) as [Hnd Hel]. pose proof (applied_answers s p p' Hp) as Ha.
  destruct s; try done; (split; [done|]; intros q; by rewrite Hel, Ha).
Qed.
End answers.

(** ** The durable store's view *)

Section store_view.
Context `{Blake3} (view : StoreReadView) (scope : GraphVisibility) (validating : option TermId).
Let sn := snapshot view.
Let st := sn_store sn.
Context (Hsound : snapshot_sound sn).

Let reads {A} (m : readm A) P := reads sn scope validating m P.
Let answering := answering sn scope validating.
Let answers := answers sn scope validating.

(** Whether a scan may be answered: the default union and the forced query
    view need a trusted view. *)
Definition readable (s : GraphSelector) : Prop :=
  ∀ a, qv_admission view = Ok a →
  match s, read_mode view with
  | DefaultUnion, ForceSource => False
  | DefaultUnion, _ | _, ForceQv => trusted a = true
  | _, _ => True
  end.

Lemma point_covers s p q :
  pat_graph p = (match s with Named g => Some g | _ => pat_graph p end) → point_pattern s p = Some q →
  covers (live_set st) p (option_list (point_candidate st q)).
Proof.
  intros Hg Hq. unfold point_candidate. split.
  - destruct (quads st !! q); cbn; repeat constructor. set_solver.
  - intros c Hc Hl. destruct (quads st !! q) as [dots|] eqn:E; [|by apply elem_of_nil in Hc].
    apply list_elem_of_singleton in Hc as ->. cbn in *. apply elem_of_live_set. unfold read_quad_dots.
    rewrite E. by apply bool_decide_eq_true in Hl.
  - intros r Hr Hm. assert (r = q) as ->.
    { apply matches_true in Hm as (Mg & Ms & Mp & Mo). unfold point_pattern in Hq.
      destruct s as [g| |]; try done. destruct (pat_subject p), (pat_predicate p), (pat_object p); try done.
      injection Hq as <-. destruct r; cbn in *. rewrite Hg in Mg. f_equal; symmetry; auto. }
    apply elem_of_live_set in Hr. unfold read_quad_dots in Hr.
    destruct (quads st !! q) as [dots|] eqn:E; [|done]. eexists. split; [by left|].
    split; [by apply bool_decide_eq_true|done].
Qed.

Lemma applied_graph s p p' :
  selector_apply s p = Some p' → pat_graph p' = match s with Named g => Some g | _ => pat_graph p' end.
Proof. destruct s as [g| |]; cbn; try done. case_match; [|done]. by intros [= <-]. Qed.

Lemma applied_fit s p p' :
  selector_apply s p = Some p' → pattern_fit p → (∀ g, s = Named g → TermId_fit g) → pattern_fit p'.
Proof.
  unfold pattern_fit. rewrite !Forall_cons. destruct s as [g| |]; cbn; [|by intros [= <-]..].
  case_match; [|done]. intros [= <-] (?&?&?&?&?) Hg. cbn. eauto 10.
Qed.

Lemma source_answering s p p' :
  selector_apply s p = Some p' → s ≠ DefaultUnion → answering s p (source_cursor view p').
Proof.
  intros Hp Hs. destruct (source_covers st p') as (cs & Hcs & Hcov). by eapply plain_answering.
Qed.

Lemma index_answering h order s p p' :
  mirrors (sn_views sn) h (live_set st) → selector_apply s p = Some p' → pattern_fit p' →
  qv_order (auto_access_path s p') = Ok order →
  ∃ raw, query_index_cursor (sn_views sn) order p' = Ok raw ∧
    answering s p (match s with DefaultUnion => cursor_default_union sn raw p' | _ => cursor_new sn raw p' end).
Proof.
  intros Hm Hp Hfit Hord.
  destruct (query_index_covers _ h (live_set st) order p' Hm Hfit) as (raw & cs & m & Hraw & Hcs & Hcov & Hin & Hinj).
  exists raw. split; [done|]. destruct s as [g| |]; [by eapply plain_answering..|].
  injection Hp as ->. exists (union_rows sn scope validating p' None false cs).
  split; [split; cbn; eauto|]. eapply covers_union; eauto. by eapply auto_union_order.
Qed.

Lemma open_scan_reads s p p' :
  selector_apply s p = Some p' → pattern_fit p' → readable s →
  reads (open_scan view s p') (answering s p).
Proof.
  intros Hp Hfit Hread. unfold open_scan. fold sn st. destruct (point_pattern s p') as [q|] eqn:Hq.
  { apply reads_ret. eapply (plain_answering _ _ _ s p p' (Single (point_candidate st q))); [done|by destruct s|done|].
    eapply point_covers; [|done]. by eapply applied_graph. }
  destruct (ss_view sn Hsound) as (a & Ha & Htrust). specialize (Hread a Ha).
  destruct (auto_order s p') as (order & Hord & Hne).
  assert (s ≠ DefaultUnion → reads (st_ret (source_cursor view p')) (answering s p)) as Hsrc.
  { intros Hs. apply reads_ret. by apply source_answering. }
  assert (trusted a = true → reads (order ⇐ st_lift (qv_order (auto_access_path s p'));
      raw ⇐ st_lift (query_index_cursor (sn_views sn) order p');
      st_ret (match s with DefaultUnion => cursor_default_union sn raw p' | _ => cursor_new sn raw p' end))
    (answering s p)) as Hidx.
  { intros Ht. destruct (Htrust Ht) as [h Hm].
    destruct (index_answering h order s p p' Hm Hp Hfit Hord) as (raw & Hraw & Hans).
    eapply reads_then; [by eapply reads_lift|]. eapply reads_then; [by eapply reads_lift|]. by apply reads_ret. }
  destruct (read_mode view) eqn:Hmode.
  - rewrite decide_False by done. eapply reads_then; [by eapply reads_lift|].
    destruct (trusted a) eqn:Ht; cbn [negb]; [by apply Hidx|]. by destruct s; [apply Hsrc..|].
  - rewrite decide_True by done. by destruct s; [apply Hsrc..|].
  - unfold force_qv_path. rewrite decide_False by done. eapply reads_then; [by eapply reads_lift|].
    destruct (trusted a) eqn:Ht; cbn [negb]; [by apply Hidx|]. by destruct s.
Qed.

Lemma selector_visible_reads s :
  reads (selector_visible view s)
    (λ b, b = match s with Named g => visible_graph sn scope validating g | _ => true end).
Proof.
  destruct s as [g| |]; cbn; [|by apply reads_ret..]. unfold store_graph_is_visible.
  eapply reads_bind; [apply reads_check|]. intros _ _.
  eapply reads_then; [apply graph_visible_read, Hsound|].
  eapply reads_bind; [apply reads_check|]. intros _ _. by apply reads_ret.
Qed.

Lemma empty_answering s p p' : (∀ q, ¬ answers s p q) → answering s p (cursor_empty sn p').
Proof. intros Hno. exists []. split; [by split|]. by apply no_rows_exact. Qed.

(** A scan opens a cursor whose rows are the answer. *)
Lemma store_scan_reads s p :
  pattern_fit p → (∀ g, s = Named g → TermId_fit g) → readable s →
  reads (store_scan view s p) (answering s p).
Proof.
  intros Hfit Hs Hread. unfold store_scan. eapply reads_bind; [apply reads_check|]. intros _ _.
  destruct (selector_apply s p) as [p'|] eqn:Hp.
  2: { apply reads_ret, empty_answering. by apply applied_none. }
  eapply reads_then; [apply selector_visible_reads|].
  assert (reads (open_scan view s p') (answering s p)) as Hopen by (apply open_scan_reads; [done|by eapply applied_fit|done]).
  destruct s as [g| |]; try exact Hopen. destruct (visible_graph sn scope validating g) eqn:Hg; [exact Hopen|].
  apply reads_ret, empty_answering. intros q. by apply invisible_none.
Qed.

Lemma exact_nonempty s p l : exact_rows sn scope validating s p l → l ≠ [] ↔ ∃ q, answers s p q.
Proof.
  intros He. split.
  - destruct l as [|q l]; [done|]. intros _. exists q. destruct s; apply He; by left.
  - intros [q Hq] ->. destruct s; cbn in He; [apply He in Hq..|destruct He as (_ & _ & He); apply He in Hq]; set_solver.
Qed.

Lemma store_exists_reads s p :
  pattern_fit p → (∀ g, s = Named g → TermId_fit g) → readable s →
  reads (store_exists view s p) (λ b, b = true ↔ ∃ q, answers s p q).
Proof.
  intros Hfit Hs Hread. unfold store_exists. eapply reads_bind; [apply reads_check|]. intros _ _.
  destruct (selector_apply s p) as [p'|] eqn:Hp.
  2: { apply reads_ret. split; [done|]. intros [q Hq]. by apply (applied_none _ _ _ s p Hp) in Hq. }
  pose proof (applied_answers sn scope validating s p p' Hp) as Ha. fold st answers in Ha.
  eapply reads_then; [apply selector_visible_reads|].
  assert (∀ l : list EncodedQuad, (∀ q, q ∈ l ↔ q ∈ live_set st ∧ matches p' q = true ∧
    row_visible sn scope validating q = true) → (∃ q, answers s p q) ↔ l ≠ []) as Hne.
  { intros l Hl. setoid_rewrite Ha. setoid_rewrite <- Hl. split; [intros [q Hq] ->; set_solver|].
    destruct l as [|q l]; [done|]. intros _. exists q. by left. }
  assert (reads (match point_pattern s p' with
    | Some q => match point_candidate st q with
                | None => st_ret false
                | Some c => if negb (cand_live c && matches p' (cand_quad c)) then st_ret false
                            else context_quad_visible sn (cand_quad c)
                end
    | None => c ⇐ store_scan view s p'; first_row c
    end) (λ b, b = true ↔ ∃ q, answers s p q)) as Hmain.
  { destruct (point_pattern s p') as [q|] eqn:Hq.
    - pose proof (point_covers s p' q (applied_graph s p p' Hp) Hq) as Hcov.
      destruct (covers_rows sn scope validating p' _ Hcov) as [_ Hel].
      destruct (point_candidate st q) as [c|].
      + change (option_list (Some c)) with [c] in Hel. rewrite rows_of_cons in Hel.
        fold (kept p' c). unfold shown in Hel.
        apply Hne in Hel. destruct (kept p' c); cbn [negb andb] in *.
        * eapply reads_weaken; [apply row_visible_read; apply Hsound|]. intros b ->.
          rewrite Hel. by destruct (row_visible _ _ _ _).
        * apply reads_ret. by rewrite Hel.
      + apply Hne in Hel. apply reads_ret. by rewrite Hel.
    - eapply reads_bind; [apply store_scan_reads; [by eapply applied_fit|done|done]|].
      intros c (l & Hl & He). eapply reads_weaken; [by apply first_row_read; [apply Hsound..|exact Hl]|]. intros b ->.
      rewrite bool_decide_eq_true, (exact_nonempty s p' l He). split; intros [q' Hq']; exists q'.
      + apply Ha. destruct Hq' as (? & _ & ? & ?). done.
      + apply Ha in Hq' as (? & Hm & ?). split_and!; try done. unfold selects. destruct s as [g| |]; try done.
        pose proof (applied_graph _ _ _ Hp) as Hg. cbn in Hg. apply matches_true in Hm as (Hm & _). by rewrite (Hm g Hg). }
  destruct s as [g| |]; try exact Hmain. destruct (visible_graph sn scope validating g) eqn:Hg; [exact Hmain|].
  apply reads_ret. split; [done|]. intros [q Hq]. by apply (invisible_none sn scope validating g p q Hg) in Hq.
Qed.
End store_view.

(** C3: Over a snapshot whose query view is trusted only when it mirrors the live
    quads, a scan that may be answered yields exactly the live quads of the
    selected graph that match and are visible -- every row once, and of the
    default union one copy of every statement -- on every access path;
    [exists] and [count_up_to] agree with it.  The only other outcome is
    [Cancelled], and only for a read that can be cancelled. *)
Theorem store_reads_exact `{Blake3} (view : StoreReadView) scope validating s p cap :
  snapshot_sound (snapshot view) → pattern_fit p → (∀ g, s = Named g → TermId_fit g) → readable view s →
  reads (snapshot view) scope validating (c ⇐ scan view s p; collect c)
    (exact_rows (snapshot view) scope validating s p) ∧
  reads (snapshot view) scope validating (exists_row view s p)
    (λ b, b = true ↔ ∃ q, answers (snapshot view) scope validating s p q) ∧
  reads (snapshot view) scope validating (count_up_to view s p cap)
    (λ n, ∃ l, exact_rows (snapshot view) scope validating s p l ∧ n = N.min cap (N.of_nat (length l))).
Proof.
  intros Hs Hp Hg Hr. pose proof (store_scan_reads view scope validating Hs s p Hp Hg Hr) as Hscan.
  split_and!; [by apply collect_scan_read; [apply Hs..|]|by apply store_exists_reads|].
  by apply count_up_to_read; [apply Hs..|].
Qed.

(** A read that fails as unavailable, or is cancelled first. *)
Definition refused {A} (m : readm A) (cx : ReadContext) : Prop :=
  ∃ cx' e, m cx = (cx', Err e) ∧ (e = Cancelled ∨ ∃ reason, e = QueryIndexUnavailable reason).

(** A scan of the default union that cannot be deduplicated -- the source is
    forced, or the query view is not trusted -- fails with
    [QueryIndexUnavailable] (or [Cancelled]); it never returns copies. *)
Theorem default_union_unavailable `{Blake3} (view : StoreReadView) p cx :
  read_mode view = ForceSource ∨ (∃ a, qv_admission view = Ok a ∧ trusted a = false) →
  refused (scan view DefaultUnion p) cx.
Proof.
  intros Hmode. unfold refused. assert (∀ cx, ∃ reason, open_scan view DefaultUnion p cx = (cx, Err (QueryIndexUnavailable reason)))
    as Hopen.
  { intros cx'. unfold open_scan. cbn [point_pattern]. destruct (auto_order DefaultUnion p) as (order & _ & Hne).
    destruct Hmode as [->|(a & Ha & Ht)]; [rewrite decide_True by done; by eexists|].
    destruct (read_mode view); [|rewrite decide_True by done; by eexists|]; unfold force_qv_path;
      rewrite decide_False by done; unfold st_lift, st_bind; rewrite Ha, Ht; cbn; by eexists. }
  change (scan view DefaultUnion p) with (store_scan view DefaultUnion p). unfold store_scan, st_bind, check_cancelled.
  destruct (checks_left cx) as [[|n]|]; cbn [selector_apply selector_visible st_ret negb]; [eauto| |].
  - destruct (Hopen (with_checks cx (Some n))) as [reason ->]. eauto 10.
  - destruct (Hopen cx) as [reason ->]. eauto 10.
Qed.

Section witness.
Import DemoBlake3.

(** A store with one quad, and a snapshot of it without a query view. *)
Let st1 : Store :=
  {| terms := {[1%N := from_named_node "urn:g"]};
     quads := {[ {| quad_graph := 1; quad_subject := 2; quad_predicate := 3; quad_object := 4 |}%N :=
                 [{| dot_actor := 1; dot_counter := 1 |}]%N ]};
     graph_metas := {[1%N := StoredGraphMeta_default]}; graph_clocks := ∅; graph_tombstones := ∅;
     deleted_policies := ∅; log_heads := ∅ |}.
Let sn1 : Snapshot := {| sn_store := st1; sn_diagnostics := ∅; sn_views := no_views; sn_seqno := 0 |}.
(** A new store with the view it starts with. *)
Let sn2 : Snapshot := {| sn_store := empty_store; sn_diagnostics := ∅; sn_views := init_views; sn_seqno := 0 |}.

Lemma sn1_sound : snapshot_sound sn1.
Proof.
  split.
  - intros g Hg. unfold contains_graph_id in Hg. apply bool_decide_eq_true in Hg as [mt Hm].
    cbn in Hm. apply lookup_singleton_Some in Hm as [<- _]. by eexists.
  - intros t t' Ht Hl. exfalso. cbn [sn1 sn_store st1 terms] in Hl. apply lookup_singleton_Some in Hl as [Hh _].
    destruct Ht as [Ht|(g & r & Hr & _)]; [|by cbn in Hr; apply lookup_empty_Some in Hr].
    cbn in Ht. rewrite !elem_of_cons in Ht. destruct Ht as [->|[->|[->|[->|Ht]]]]; [by vm_compute in Hh..|].
    by apply elem_of_nil in Ht.
  - by exists (untrusted "metadata-missing").
Qed.

Lemma sn2_sound : snapshot_sound sn2.
Proof.
  split.
  - intros g Hg. unfold contains_graph_id in Hg. apply bool_decide_eq_true in Hg as [mt Hm]. done.
  - intros t t' _ Hl. cbn in Hl; by apply lookup_empty_Some in Hl.
  - destruct (mirrors_admission init_views empty_ready ∅ 0 init_mirrors) as (a & Ha & _).
    exists a. split; [done|]. intros _. exists empty_ready. exact init_mirrors.
Qed.

Let view1 : StoreReadView := {| snapshot := sn1; read_mode := Auto |}.
Let view2 : StoreReadView := {| snapshot := sn2; read_mode := Auto |}.

Lemma store_reads_exact_witness :
  reads sn1 All None (c ⇐ scan view1 (Named 1) pattern_default; collect c)
    (exact_rows sn1 All None (Named 1) pattern_default) ∧
  reads sn2 All None (c ⇐ scan view2 DefaultUnion pattern_default; collect c)
    (exact_rows sn2 All None DefaultUnion pattern_default).
Proof.
  assert (pattern_fit pattern_default) as Hp by by repeat constructor.
  split.
  - refine (proj1 (store_reads_exact view1 All None (Named 1) pattern_default 0 sn1_sound Hp _ _)).
    + intros g [= <-]. done.
    + intros a _. done.
  - refine (proj1 (store_reads_exact view2 All None DefaultUnion pattern_default 0 sn2_sound Hp _ _)).
    + done.
    + intros a Ha. destruct (mirrors_admission init_views empty_ready ∅ 0 init_mirrors) as (a' & Ha' & Ht).
      unfold qv_admission in Ha. cbn in Ha, Ha' |- *. rewrite Ha' in Ha. injection Ha as <-. rewrite Ht. by vm_compute.
Defined.

Lemma default_union_unavailable_witness :
  refused (scan view1 DefaultUnion pattern_default) (context_new All None).
Proof. apply default_union_unavailable. right. exists (untrusted "metadata-missing"). split; by vm_compute. Defined.
End witness.
