(* ===== verification/DeltaAnswers.v ===== *)
(** * A change set over the store ([src/internal/validation_delta.rs])

    [DeltaIndex::build] keeps the last change of each quad of one graph, in two
    orders.  A scan through the overlay yields exactly the rows the graph has
    when the change set is applied, each once, whatever range of the overlay it
    reads; and those rows are the ones a local write of the change set
    leaves in the store, so a validation judges what a commit would produce. *)

From S2P Require Import Prelude Clock Terms Store Codec QueryView IndexUpdate Transitions Replication Convergence.
From S2P Require Import LocalWrites IndexMirror Orphans Cursors Reads ReadRules Answers.
#[local] Open Scope craqle_scope.

(** ** The index of a change set *)

Definition present (c : MaterializedQuadChange) : bool :=
  match c with Insert _ _ _ _ => true | Delete _ _ _ _ => false end.

(** The quad a change names, by the digests of its terms as they are spelled. *)
Definition spelled_key `{Blake3} (g : TermId) (c : MaterializedQuadChange) : EncodedQuad :=
  match c with
  | Insert _ s p o | Delete _ s p o =>
      {| quad_graph := g; quad_subject := hash_term s; quad_predicate := hash_term p; quad_object := hash_term o |}
  end.

(** The last change of a quad. *)
Definition last_state `{Blake3} (g : TermId) (changes : list MaterializedQuadChange) (k : EncodedQuad) : option bool :=
  foldl (λ acc c, if decide (spelled_key g c = k) then Some (present c) else acc) None changes.

Lemma last_state_snoc `{Blake3} g l c k :
  last_state g (l ++ [c]) k = if decide (spelled_key g c = k) then Some (present c) else last_state g l k.
Proof. unfold last_state. by rewrite foldl_app. Qed.

Lemma last_state_some `{Blake3} g l k b : last_state g l k = Some b → ∃ c, c ∈ l ∧ spelled_key g c = k ∧ present c = b.
Proof.
  induction l as [|c l IH] using rev_ind; [done|]. rewrite last_state_snoc. case_decide as Hc.
  - intros [= <-]. exists c. split; [|done]. apply elem_of_app. right. by apply list_elem_of_singleton.
  - intros (c' & Hin & ?)%IH. exists c'. split; [|done]. apply elem_of_app. by left.
Qed.

Definition of_graph (graph : GraphId) (changes : list MaterializedQuadChange) : list MaterializedQuadChange :=
  filter (λ c, change_graph c = graph) changes.

Record delta_ok `{Blake3} (graph : GraphId) (delta : list MaterializedQuadChange) (ix : DeltaIndex) : Prop := {
  do_graph : delta_graph ix = gid graph;
  do_states k : states ix !! k = last_state (gid graph) (of_graph graph delta) k;
  do_same k b : states ix !! k = Some b → quad_graph k = gid graph ∧ by_predicate_object ix !! po_key k = Some b;
  do_po pk b : by_predicate_object ix !! pk = Some b →
    states ix !! {| quad_graph := gid graph; quad_subject := pk.2; quad_predicate := pk.1.1;
                    quad_object := pk.1.2 |} = Some b;
  do_terms k b : states ix !! k = Some b →
    is_Some (delta_terms ix !! quad_subject k) ∧ is_Some (delta_terms ix !! quad_predicate k) ∧
    is_Some (delta_terms ix !! quad_object k);
}.

Section build.
Context `{Blake3} (st : Store) (graph : GraphId).

Lemma remember_term_id terms term id terms' :
  remember_term st terms term = Ok (id, terms') → id = hash_term term.
Proof.
  unfold remember_term. intros (ts & _ & (o & _ & [= <- _])%bind_ok)%bind_ok. done.
Qed.

Lemma remember_term_grows terms term id terms' :
  remember_term st terms term = Ok (id, terms') → terms' !! id = Some term ∧ terms ⊆ terms'.
Proof.
  intros Hr. pose proof (remember_term_id _ _ _ _ Hr) as ->. unfold remember_term in Hr.
  apply bind_ok in Hr as (ts & Hts & (o & _ & [= <-])%bind_ok).
  destruct (terms !! hash_term term) as [t|] eqn:E.
  - case_decide; [|done]. injection Hts as <-. by subst.
  - injection Hts as <-. split; [by rewrite lookup_insert_eq|by apply insert_subseteq].
Qed.

Lemma delta_step_ok rdf_type pre ix c ix' :
  delta_ok graph pre ix → delta_step st graph rdf_type ix c = Ok ix' → delta_ok graph (pre ++ [c]) ix'.
Proof.
  intros [Hg Hs Hsame Hpo Hterms] Hstep.
  unfold delta_step in Hstep. unfold of_graph.
  set (key := spelled_key (gid graph) c).
  assert (∃ s p o, match c with Insert g s p o => (g, s, p, o, true) | Delete g s p o => (g, s, p, o, false) end =
    (change_graph c, s, p, o, present c) ∧
    key = {| quad_graph := gid graph; quad_subject := hash_term s; quad_predicate := hash_term p;
             quad_object := hash_term o |}) as (s & p & o & Hc & Hkey) by (destruct c; cbn; eauto).
  rewrite Hc in Hstep. case_decide as Hne.
  { injection Hstep as <-. split; try done. intros k. unfold of_graph.
    by rewrite Hs, filter_app, filter_cons_False, filter_nil, app_nil_r. }
  apply bind_ok in Hstep as ([s' t1] & Hs' & Hstep). pose proof (remember_term_grows _ _ _ _ Hs') as [Ht1 Hg1].
  apply bind_ok in Hstep as ([p' t2] & Hp' & Hstep). pose proof (remember_term_grows _ _ _ _ Hp') as [Ht2 Hg2].
  apply bind_ok in Hstep as ([o' t3] & Ho' & [= <-]). pose proof (remember_term_grows _ _ _ _ Ho') as [Ht3 Hg3].
  apply remember_term_id in Hs' as ->. apply remember_term_id in Hp' as ->. apply remember_term_id in Ho' as ->.
  rewrite Hg, <- Hkey. split; cbn [delta_graph states by_predicate_object].
  - done.
  - intros k. unfold of_graph. rewrite filter_app, filter_cons_True, filter_nil by congruence.
    rewrite last_state_snoc, lookup_insert. fold key. case_decide; [done|]. apply Hs.
  - intros k b. rewrite lookup_insert_Some. intros [[<- <-]|[Hk Hb]].
    + split; [by rewrite Hkey|]. by rewrite lookup_insert_eq.
    + destruct (Hsame k b Hb) as [Hkg Hpob]. split; [done|]. rewrite lookup_insert_ne; [done|].
      intros Heq. apply Hk. rewrite Hkey in *. unfold po_key in Heq. destruct k as [kg ks kp ko]. cbn in *.
      by injection Heq as -> -> ->; subst.
  - intros [[pp po] ps] b. rewrite lookup_insert_Some. cbn. intros [[Heq <-]|[Hk Hb]].
    + rewrite Hkey in *. cbn in Heq. injection Heq as <- <- <-. by rewrite lookup_insert_eq.
    + apply Hpo in Hb. cbn in Hb. rewrite lookup_insert_ne; [done|].
      intros Heq. apply Hk. by rewrite Heq.
  - assert (∀ i t, t2 !! i = Some t → t3 !! i = Some t) as H23 by (intros i t Hi; by eapply lookup_weaken).
    assert (∀ i t, t1 !! i = Some t → t2 !! i = Some t) as H12 by (intros i t Hi; by eapply lookup_weaken).
    assert (∀ i t, delta_terms ix !! i = Some t → t1 !! i = Some t) as H01 by (intros i t Hi; by eapply lookup_weaken).
    intros k b. rewrite lookup_insert_Some. cbn [delta_terms]. intros [[<- _]|[_ Hb]].
    + rewrite Hkey. cbn. split_and!; [by exists s; auto|by exists p; auto|by exists o].
    + destruct (Hterms k b Hb) as ([? ?] & [? ?] & [? ?]). split_and!; eexists; eauto.
Qed.

Lemma delta_build_ok delta ix : delta_build st graph delta = Ok ix → delta_ok graph delta ix.
Proof.
  unfold delta_build. intros ([g t1] & Hg & Hr)%bind_ok. apply remember_term_id in Hg as ->.
  apply bind_ok in Hr as ([rt t2] & _ & Hr).
  assert (∀ l pre ix0, delta_ok graph pre ix0 → try_fold (delta_step st graph rt) ix0 l = Ok ix →
    delta_ok graph (pre ++ l) ix) as Hl.
  { intros l. induction l as [|c l IH]; intros pre ix0 Hok; cbn [try_fold].
    - intros [= <-]. by rewrite app_nil_r.
    - intros (ix1 & H1 & H2)%bind_ok. rewrite cons_middle, app_assoc. eapply IH; [|done]. by eapply delta_step_ok. }
  refine (Hl delta [] _ _ Hr). by split.
Qed.
End build.

(** ** The ranges of the overlay *)

(** A digest is a string of bytes. *)
Definition digest_bytes `{Blake3} : Prop := ∀ l, byte_list l → byte_list (blake3 l).

Lemma hash_term_fit `{Blake3} t : digest_bytes → TermId_fit (hash_term t).
Proof.
  intros Hb. unfold TermId_fit, hash_term. set (l := take 16 (blake3 _)).
  assert (byte_list l) as Hl.
  { apply Forall_take, Hb. repeat apply Forall_app_2; [apply string_bytes_byte_list|by constructor|].
    apply string_bytes_byte_list. }
  apply of_be_bytes_lt in Hl. eapply N.lt_le_trans; [exact Hl|]. apply N.pow_le_mono_r; [done|].
  unfold l. rewrite length_take. lia.
Qed.

Lemma states_fit `{Blake3} graph delta ix k b :
  digest_bytes → delta_ok graph delta ix → states ix !! k = Some b → quad_fit k.
Proof.
  intros Hb [_ Hs _ _] Hk. rewrite Hs in Hk. clear Hs. revert Hk. generalize (of_graph graph delta) as l.
  intros l. induction l as [|c l IH] using rev_ind; [done|]. rewrite last_state_snoc. case_decide as Hc; [|done].
  intros _. subst k. destruct c; split_and!; by apply hash_term_fit.
Qed.

Lemma cmp_le_zero (x : N) : cmp_le 0%N x.
Proof. unfold cmp_le, cmp, N_ord. by destruct x. Qed.
Lemma cmp_le_max (x : N) : TermId_fit x → cmp_le x term_max.
Proof.
  unfold TermId_fit, cmp_le, cmp, N_ord, term_max. change (256 ^ 16)%N with (2 ^ 128)%N. intros Hx Hc.
  apply N.compare_gt_iff in Hc. lia.
Qed.
Lemma cmp_le_pair {A B} `{TotalOrd A, TotalOrd B} (a : A) (b b' : B) : cmp_le b b' → cmp_le (a, b) (a, b').
Proof. unfold cmp_le, cmp at 2, prod_ord. cbn. by rewrite cmp_refl. Qed.
Lemma cmp_le_pair_fst {A B} `{TotalOrd A, TotalOrd B} (a a' : A) (b b' : B) :
  cmp_le a a' → cmp_le b b' → cmp_le (a, b) (a', b').
Proof.
  unfold cmp_le, cmp at 3, prod_ord. cbn. intros Ha Hb. destruct (cmp a a'); [exact Hb|done|done].
Qed.

Section overlay.
Context `{Blake3} (graph : GraphId) (delta : list MaterializedQuadChange) (ix : DeltaIndex).
Context (Hbytes : digest_bytes) (Hok : delta_ok graph delta ix).

(** The overlay of a pattern holds states of the index, each once, and those of
    all quads that match. *)
Lemma overlay_ok p :
  pat_graph p = Some (gid graph) →
  NoDup (overlay_rows (overlay ix p)).*1 ∧
  (∀ q b, (q, b) ∈ overlay_rows (overlay ix p) → states ix !! q = Some b) ∧
  (∀ q b, states ix !! q = Some b → matches p q = true → (q, b) ∈ overlay_rows (overlay ix p)).
Proof.
  intros Hp. pose proof Hok as [Hg Hs Hsame Hpo]. unfold overlay. rewrite Hg.
  assert (∀ lo hi, NoDup (btree_range lo hi (states ix)).*1) as Hnd1.
  { intros lo hi. eapply sublist_NoDup; [apply (btree_iter_nodup (states ix))|]. apply fmap_sublist, sublist_filter. }
  destruct (pat_subject p) as [s|] eqn:Es.
  - set (lohi := match pat_predicate p, pat_object p with Some pr, Some o => _ | Some pr, None => _ | None, _ => _ end).
    assert (∀ q b, states ix !! q = Some b → matches p q = true → cmp_le lohi.1 q ∧ cmp_le q lohi.2) as Hin.
    { intros q b Hq Hm. destruct (states_fit graph delta ix q b Hbytes Hok Hq) as (Fg & Fs & Fp & Fo).
      apply matches_true in Hm as (Mg & Ms & Mp & Mo). destruct q as [qg qs qp qo]; cbn in *.
      rewrite <- (Mg _ Hp), <- (Ms _ Es) in *. clear Hq.
      unfold lohi. destruct (pat_predicate p) as [pr|] eqn:Epr;
        [rewrite <- (Mp _ eq_refl) in *; destruct (pat_object p) as [o|] eqn:Eo; [rewrite <- (Mo _ eq_refl) in *|]|];
        cbn [fst snd]; unfold cmp_le at 1 2, cmp, encoded_quad_ord; cbn;
        split; change (cmp ?x ?y ≠ Gt) with (cmp_le x y);
        repeat first [apply cmp_le_pair_fst|apply cmp_le_zero|by apply cmp_le_max|reflexivity]. }
    destruct lohi as [lo hi]. cbn [overlay_rows fst snd] in *. split_and!; [apply Hnd1| |].
    + intros q b Hq. apply elem_of_btree_range in Hq. tauto.
    + intros q b Hq Hm. apply elem_of_btree_range. split; [done|]. by eapply Hin.
  - destruct (pat_predicate p) as [pr|] eqn:Epr.
    2: { cbn. split_and!; [apply btree_iter_nodup| |]; intros q b; by rewrite elem_of_btree_iter. }
    set (lohi := match pat_object p with Some o => _ | None => _ end).
    assert (∀ q b, states ix !! q = Some b → matches p q = true →
      cmp_le lohi.1 (po_key q) ∧ cmp_le (po_key q) lohi.2) as Hin.
    { intros q b Hq Hm. destruct (states_fit graph delta ix q b Hbytes Hok Hq) as (Fg & Fs & Fp & Fo).
      apply matches_true in Hm as (_ & _ & Mp & Mo). unfold po_key. rewrite <- (Mp _ Epr) in *. unfold lohi.
      destruct (pat_object p) as [o|]; [rewrite <- (Mo _ eq_refl) in *|]; cbn [fst snd];
        split; repeat first [apply cmp_le_pair_fst|apply cmp_le_zero|by apply cmp_le_max|reflexivity]. }
    destruct lohi as [lo hi]. cbn [overlay_rows fst snd] in *.
    set (unkey := λ row : PredicateObjectKey * bool, _). split_and!.
    + rewrite <- list_fmap_compose. eapply (NoDup_fmap_2_strong _ _).
      * intros [[[p1 o1] s1] b1] [[[p2 o2] s2] b2] H1%elem_of_btree_range H2%elem_of_btree_range. cbn.
        intros [= -> -> ->]. destruct H1 as [H1 _], H2 as [H2 _]. congruence.
      * eapply (NoDup_fmap_1 fst), sublist_NoDup; [apply (btree_iter_nodup (by_predicate_object ix))|].
        apply fmap_sublist, sublist_filter.
    + intros q b ([[[p1 o1] s1] b1] & [= -> ->] & Hrow%elem_of_btree_range)%list_elem_of_fmap.
      apply (Hpo (p1, o1, s1)). tauto.
    + intros q b Hq Hm. apply list_elem_of_fmap. exists (po_key q, b). destruct (Hsame q b Hq) as [Hqg Hqpo].
      split; [|apply elem_of_btree_range; split; [done|by eapply Hin]].
      unfold unkey, po_key. cbn. rewrite <- Hqg. by destruct q.
Qed.
End overlay.

(** ** The rows of an overlaid cursor *)

Section rows.
Context `{Blake3} (sn : Snapshot) (scope : GraphVisibility) (validating : option TermId).
Context (graph : GraphId) (delta : list MaterializedQuadChange) (ix : DeltaIndex).
Context (Hbytes : digest_bytes) (Hok : delta_ok graph delta ix).
Let live := live_set (sn_store sn).

(** A quad is there after the change set. *)
Definition posted (q : EncodedQuad) : Prop :=
  match last_state (gid graph) (of_graph graph delta) q with Some b => b = true | None => q ∈ live_set (sn_store sn) end.

Lemma overlaid_quad c : cand_quad (overlaid ix c) = cand_quad c.
Proof. unfold overlaid. by destruct (cand_live c && _). Qed.
Lemma overlaid_live c :
  cand_live (overlaid ix c) = true ↔ cand_live c = true ∧ states ix !! cand_quad c ≠ Some false.
Proof.
  unfold overlaid. destruct (cand_live c) eqn:E; cbn [andb]; [|rewrite E; naive_solver].
  case_bool_decide; cbn [cand_live]; rewrite ?E; naive_solver.
Qed.

Lemma elem_of_base_rows q X cs :
  q ∈ base_rows ix X cs ↔
    q ∈ X ∨ ∃ c, c ∈ cs ∧ cand_live c = true ∧ states ix !! cand_quad c = Some true ∧ cand_quad c = q.
Proof.
  unfold base_rows. revert X. induction cs as [|c cs IH]; intros X; cbn [foldl].
  - split; [by left|]. intros [|(c & Hc & _)]; [done|]. by apply elem_of_nil in Hc.
  - rewrite IH. unfold note_base_row.
    assert (∀ P : RawQuadCandidate → Prop, (∃ c', c' ∈ c :: cs ∧ P c') ↔ P c ∨ ∃ c', c' ∈ cs ∧ P c') as ->.
    { intros P. setoid_rewrite elem_of_cons. naive_solver. }
    destruct (cand_live c && _) eqn:E.
    + apply andb_true_iff in E as [E1 E2%bool_decide_eq_true]. rewrite elem_of_union, elem_of_singleton.
      naive_solver.
    + apply andb_false_iff in E as [E|E%bool_decide_eq_false]; naive_solver congruence.
Qed.

Lemma rows_of_app p l k :
  rows_of sn scope validating p (l ++ k) = rows_of sn scope validating p l ++ rows_of sn scope validating p k.
Proof. unfold rows_of. by rewrite filter_app, fmap_app. Qed.

Lemma elem_of_rows p cs q :
  q ∈ rows_of sn scope validating p cs ↔
    ∃ c, c ∈ cs ∧ cand_quad c = q ∧ cand_live c = true ∧ matches p q = true ∧
      row_visible sn scope validating q = true.
Proof.
  unfold rows_of. rewrite list_elem_of_fmap. setoid_rewrite list_elem_of_filter. setoid_rewrite shown_true.
  naive_solver.
Qed.

Lemma rows_nodup p (cs : list RawQuadCandidate) : NoDup (cand_quad <$> cs) → NoDup (rows_of sn scope validating p cs).
Proof. intros Hnd. unfold rows_of. eapply sublist_NoDup; [exact Hnd|]. apply fmap_sublist, sublist_filter. Qed.

Lemma overlaid_rows p cs :
  pat_graph p = Some (gid graph) → covers live p cs →
  let l := rows_of sn scope validating p
    ((overlaid ix <$> cs) ++ (delta_row (base_rows ix ∅ cs) <$> overlay_rows (overlay ix p))) in
  NoDup l ∧ ∀ q, q ∈ l ↔ posted q ∧ matches p q = true ∧ row_visible sn scope validating q = true.
Proof.
  intros Hp [Hnd Hl Hall]. destruct (overlay_ok graph delta ix Hbytes Hok p Hp) as (Hond & Hosound & Hoall).
  set (X := base_rows ix ∅ cs). cbn zeta. rewrite rows_of_app.
  assert (∀ q, q ∈ rows_of sn scope validating p (overlaid ix <$> cs) ↔
    (∃ c, c ∈ cs ∧ cand_quad c = q ∧ cand_live c = true) ∧ states ix !! q ≠ Some false ∧
    matches p q = true ∧ row_visible sn scope validating q = true) as H1.
  { intros q. rewrite elem_of_rows. setoid_rewrite list_elem_of_fmap. split.
    - intros (? & (c & -> & Hc) & <- & Hlive & Hm & Hv). apply overlaid_live in Hlive as [? ?].
      rewrite overlaid_quad in *. eauto 10.
    - intros ((c & Hc & <- & Hlive) & Hst & Hm & Hv). exists (overlaid ix c).
      rewrite overlaid_quad, overlaid_live. eauto 10. }
  assert (∀ q, q ∈ rows_of sn scope validating p (delta_row X <$> overlay_rows (overlay ix p)) ↔
    (q, true) ∈ overlay_rows (overlay ix p) ∧ (q ∉ X) ∧
    matches p q = true ∧ row_visible sn scope validating q = true) as H2.
  { intros q. rewrite elem_of_rows. setoid_rewrite list_elem_of_fmap. split.
    - intros (? & ([q' b] & -> & Hc) & <- & Hlive & Hm & Hv). cbn in *.
      apply andb_true_iff in Hlive as [-> Hx%bool_decide_eq_true]. done.
    - intros (Hin & Hx & Hm & Hv). exists (delta_row X (q, true)). cbn. rewrite bool_decide_eq_true. eauto 10. }
  assert (∀ q, q ∈ X ↔ states ix !! q = Some true ∧ ∃ c, c ∈ cs ∧ cand_quad c = q ∧ cand_live c = true) as HX.
  { intros q. unfold X. rewrite elem_of_base_rows. set_solver. }
  split.
  - apply NoDup_app. split_and!.
    + apply rows_nodup. rewrite <- list_fmap_compose.
      erewrite list_fmap_ext; [exact Hnd|]. intros i c _. apply overlaid_quad.
    + intros q (Hc & Hst & _)%H1 (Hin & Hx & _)%H2. apply Hx, HX. split; [|done]. by apply Hosound in Hin.
    + apply rows_nodup. rewrite <- list_fmap_compose. exact Hond.
  - intros q. rewrite elem_of_app, H1, H2. unfold posted. rewrite <- (do_states _ _ _ Hok). split.
    + intros [((c & Hc & <- & Hlive) & Hst & Hm & Hv)|(Hin & _ & Hm & Hv)].
      * split_and!; [|done|done]. destruct (states ix !! cand_quad c) as [[]|]; [done|done|by apply Hl].
      * by rewrite (Hosound _ _ Hin).
    + intros (Hpost & Hm & Hv). destruct (states ix !! q) as [b|] eqn:Es.
      * subst b. destruct (decide (q ∈ X)) as [[_ Hc]%HX|Hx]; [left|right]; [done|]. split_and!; auto.
      * left. destruct (Hall q Hpost Hm) as (c & Hc & Hlive & Hq). split_and!; [eauto|done|done|done].
Qed.
End rows.

(** ** The view *)

Section view.
Context `{Blake3} (view : DeltaReadView) (scope : GraphVisibility) (validating : option TermId).
Context (graph : GraphId) (delta : list MaterializedQuadChange).
Let sn := snapshot (base view).
Let g := gid graph.
Context (Hsound : snapshot_sound sn) (Hbytes : digest_bytes).
Context (Hbuilt : delta_build (sn_store sn) graph delta = Ok (index view)).

Let Hok : delta_ok graph delta (index view) := delta_build_ok _ _ _ _ Hbuilt.
Let reads {A} (m : readm A) P := reads sn scope validating m P.

(** A row of the answer: a quad of the graph that is there after the change
    set, selected, matching and visible. *)
Definition post_answers (s : GraphSelector) (p : QuadPattern) (q : EncodedQuad) : Prop :=
  posted sn graph delta q ∧ quad_graph q = g ∧ selects s q ∧ matches p q = true ∧
  row_visible sn scope validating q = true.
Definition post_rows (s : GraphSelector) (p : QuadPattern) (l : list EncodedQuad) : Prop :=
  NoDup l ∧ ∀ q, q ∈ l ↔ post_answers s p q.

(** The durable rows under an overlay, from the source keyspace or from an
    index. *)
Lemma durable_covers p :
  pattern_fit p →
  ∃ raw cs, durable_cursor (base view) p = Ok raw ∧ raw_candidates raw = Ok cs ∧ covers (live_set (sn_store sn)) p cs.
Proof.
  intros Hp. destruct (source_covers (sn_store sn) p) as (cs & Hcs & Hcov).
  assert (∃ raw cs, Ok (raw_quad_cursor (sn_store sn) p) = (Ok raw : outcome StoreError _) ∧
    raw_candidates raw = Ok cs ∧ covers (live_set (sn_store sn)) p cs) as Hsrc by eauto 10.
  unfold durable_cursor. fold sn. destruct (pat_graph p) as [pg|]; [|done]. destruct (_ && _ && _); [|done].
  destruct (ss_view sn Hsound) as (a & Ha & Htrust). unfold qv_admission. fold sn. rewrite Ha.
  cbn [mbind outcome_bind]. destruct (trusted a) eqn:Ht; cbn [negb]; [|done]. destruct (Htrust eq_refl) as [h Hm].
  destruct (auto_order (Named pg) p) as (order & -> & _). cbn [mbind outcome_bind].
  destruct (query_index_covers _ h _ order p Hm Hp) as (raw & cs' & m & Hraw & Hcs' & Hcov' & _). eauto 10.
Qed.

Lemma selected_answers s p p' :
  selected_pattern view s p = Some p' →
  pat_graph p' = Some g ∧
  ∀ q, post_answers s p q ↔ posted sn graph delta q ∧ matches p' q = true ∧ row_visible sn scope validating q = true.
Proof.
  unfold selected_pattern. rewrite (do_graph _ _ _ Hok). fold g.
  destruct (selector_apply s p) as [p1|] eqn:Hp; [|done]. destruct (term_matches (pat_graph p1) g) eqn:Hg; [|done].
  intros [= <-]. split; [done|]. intros q. unfold post_answers. rewrite matches_with_graph by done.
  pose proof (applied_graph s p p1 Hp) as Hpg. unfold selector_apply, selects in *.
  destruct s as [sg| |]; [|injection Hp as <-; tauto..].
  destruct (term_matches (pat_graph p) sg) eqn:Hsg; [|done]. injection Hp as <-. rewrite matches_with_graph by done. tauto.
Qed.

Lemma selected_named sg p p' : selected_pattern view (Named sg) p = Some p' → sg = g.
Proof.
  unfold selected_pattern, selector_apply. rewrite (do_graph _ _ _ Hok). fold g.
  destruct (term_matches (pat_graph p) sg); [|done]. cbn. by case_bool_decide.
Qed.

Lemma selected_none s p q : selected_pattern view s p = None → ¬ post_answers s p q.
Proof.
  unfold selected_pattern. rewrite (do_graph _ _ _ Hok). fold g. intros Hn (_ & Hqg & Hs & Hm & _).
  assert (∃ p1, selector_apply s p = Some p1 ∧ matches p1 q = true) as (p1 & Hp1 & Hm1).
  { unfold selector_apply, selects in *. destruct s as [sg| |]; [|by eexists..].
    assert (term_matches (pat_graph p) sg = true) as Hsg.
    { apply term_matches_true. apply matches_true in Hm as (Hm & _). rewrite <- Hs. apply Hm. }
    rewrite Hsg. eexists. split; [done|]. by apply matches_with_graph. }
  rewrite Hp1 in Hn. apply matches_true in Hm1 as (Hm1 & _). rewrite Hqg in Hm1.
  apply term_matches_true in Hm1. by rewrite Hm1 in Hn.
Qed.

Lemma selected_fit s p p' : selected_pattern view s p = Some p' → pattern_fit p → pattern_fit p'.
Proof.
  unfold selected_pattern, selector_apply. rewrite (do_graph _ _ _ Hok). unfold pattern_fit. rewrite !Forall_cons.
  pose proof (hash_term_fit (from_named_node graph) Hbytes) as Hg.
  intros Hp Hfit. destruct (match s with Named _ => _ | _ => _ end) as [p1|] eqn:E; [|done].
  destruct (term_matches (pat_graph p1) _); [|done]. injection Hp as <-. cbn.
  destruct s as [sg| |]; [|injection E as <-; tauto..].
  destruct (term_matches (pat_graph p) sg); [|done]. injection E as <-. cbn. tauto.
Qed.

(** The cursor of a scan. *)
Lemma delta_scan_reads s p :
  pattern_fit p →
  reads (delta_scan view s p) (λ c, ∃ l, pending sn scope validating c l ∧ post_rows s p l).
Proof.
  intros Hfit. unfold delta_scan. eapply reads_bind; [apply reads_check|]. intros _ _.
  destruct (selected_pattern view s p) as [p'|] eqn:Hp.
  2: { apply reads_ret. exists []. split; [by split|]. split; [constructor|]. intros q.
       split; [by intros ?%elem_of_nil|]. intros Hq. by apply (selected_none s p q) in Hp. }
  destruct (durable_covers p' ltac:(by eapply selected_fit)) as (raw & cs & Hraw & Hcs & Hcov).
  destruct (selected_answers s p p' Hp) as [Hg Ha].
  destruct (overlaid_rows sn scope validating graph delta (index view) Hbytes Hok p' cs Hg Hcov) as [Hnd Hrows].
  eapply reads_then; [by eapply reads_lift|]. apply reads_ret. eexists. split.
  - split; [done|]. cbn. eexists. split; [|reflexivity]. unfold delta_candidates. cbn. by rewrite Hcs.
  - split; [exact Hnd|]. intros q. by rewrite Hrows, Ha.
Qed.

Lemma post_nonempty s p l : post_rows s p l → bool_decide (l ≠ []) = true ↔ ∃ q, post_answers s p q.
Proof.
  intros [_ Hl]. rewrite bool_decide_eq_true. setoid_rewrite <- Hl. split.
  - destruct l as [|q l]; [done|]. intros _. exists q. by left.
  - intros [q Hq] ->. by apply elem_of_nil in Hq.
Qed.

Lemma delta_scan_exists_reads s p :
  pattern_fit p → reads (delta_scan_exists view s p) (λ b, b = true ↔ ∃ q, post_answers s p q).
Proof.
  intros Hfit. unfold delta_scan_exists. eapply reads_bind; [by apply delta_scan_reads|]. intros c (l & Hl & He).
  eapply reads_weaken; [by apply first_row_read; [apply Hsound..|exact Hl]|]. intros b ->. by apply post_nonempty.
Qed.

(** A point is answered by the change set, or by the store when no change names
    it. *)
Lemma delta_exists_reads s p :
  pattern_fit p → (∀ sg, s = Named sg → TermId_fit sg ∧ readable (base view) s) →
  reads (delta_exists view s p) (λ b, b = true ↔ ∃ q, post_answers s p q).
Proof.
  intros Hfit Hs. unfold delta_exists. eapply reads_bind; [apply reads_check|]. intros _ _.
  destruct s as [sg| |]; [|by apply delta_scan_exists_reads..].
  destruct (Hs sg eq_refl) as [Hsfit Hread].
  destruct (selected_pattern view (Named sg) p) as [p'|] eqn:Hp.
  2: { apply reads_ret. split; [done|]. intros [q Hq]. by apply (selected_none _ p q) in Hp. }
  destruct (selected_answers _ p p' Hp) as [Hg Ha]. rewrite Hg.
  pose proof (selected_fit _ _ _ Hp Hfit) as Hfit'.
  assert (reads (delta_scan_exists view (Named sg) p') (λ b, b = true ↔ ∃ q, post_answers (Named sg) p q)) as Hscan.
  { eapply reads_weaken; [by apply delta_scan_exists_reads|]. intros b ->.
    pose proof (selected_named sg p p' Hp) as ->.
    split; intros [q Hq]; exists q; [apply Ha|]; unfold post_answers in *.
    - tauto.
    - apply Ha in Hq as (? & Hm & ?). pose proof Hm as (Hm1 & _)%matches_true.
      specialize (Hm1 _ Hg). unfold selects. split_and!; done. }
  destruct (pat_subject p') as [su|] eqn:Es, (pat_predicate p') as [pr|] eqn:Ep, (pat_object p') as [o|] eqn:Eo;
    try exact Hscan.
  set (q := {| quad_graph := g |}).
  assert (∀ r, matches p' r = true ↔ r = q) as Hpoint.
  { intros r. rewrite matches_true, Hg, Es, Ep, Eo. unfold q. split; [|intros ->; cbn; naive_solver].
    intros (Mg & Ms & Mp & Mo). destruct r; cbn in *. f_equal; symmetry; auto. }
  assert ((∃ r, post_answers (Named sg) p r) ↔ posted sn graph delta q ∧ row_visible sn scope validating q = true) as Hex.
  { setoid_rewrite Ha. setoid_rewrite Hpoint. naive_solver. }
  unfold posted in Hex. rewrite <- (do_states _ _ _ Hok) in Hex.
  destruct (states (index view) !! q) as [[]|]; cbn [negb].
  - eapply reads_bind; [apply reads_check|]. intros _ _.
    eapply reads_weaken; [apply row_visible_read; apply Hsound|]. intros b ->. rewrite Hex. tauto.
  - apply reads_ret. rewrite Hex. naive_solver.
  - eapply reads_weaken; [apply store_exists_reads; [done|done|by intros ? [= <-]|done]|]. intros b ->. rewrite Hex.
    unfold answers, selects. setoid_rewrite Hpoint.
    pose proof (selected_named sg p p' Hp) as ->.
    naive_solver.
Qed.
End view.

(** C22: Over a sound snapshot, a scan through a change set yields each quad of the
    graph that is there once the change set is applied, is selected, matches
    and is visible, exactly once -- whichever index, source prefix or overlay
    range it reads; [exists] and [count_up_to] agree with it. *)
Theorem delta_reads_exact `{Blake3} (view : DeltaReadView) scope validating graph delta s p cap :
  snapshot_sound (snapshot (base view)) → digest_bytes →
  delta_build (sn_store (snapshot (base view))) graph delta = Ok (index view) →
  pattern_fit p → (∀ sg, s = Named sg → TermId_fit sg ∧ readable (base view) s) →
  let sn := snapshot (base view) in
  reads sn scope validating (c ⇐ scan view s p; collect c) (post_rows view scope validating graph delta s p) ∧
  reads sn scope validating (exists_row view s p)
    (λ b, b = true ↔ ∃ q, post_answers view scope validating graph delta s p q) ∧
  reads sn scope validating (count_up_to view s p cap)
    (λ n, ∃ l, post_rows view scope validating graph delta s p l ∧ n = N.min cap (N.of_nat (length l))).
Proof.
  intros Hs Hb Hd Hp Hread sn.
  pose proof (delta_scan_reads view scope validating graph delta Hs Hb Hd s p Hp) as Hscan.
  split_and!; [by apply collect_scan_read; [apply Hs..|]|by apply delta_exists_reads|].
  by apply count_up_to_read; [apply Hs..|].
Qed.

(** ** Validation and commit *)

(** The change names its terms as they are stored. *)
Definition stored_spelling `{Oxrdf} (c : MaterializedQuadChange) : Prop := Forall (λ t, canon t = t) (change_terms c).

Section commit.
Context `{Oxrdf} `{Blake3}.

Lemma last_state_change g changes k :
  Forall stored_spelling changes → last_state g changes k = last_change g changes k.
Proof.
  intros Hc. induction changes as [|c l IH] using rev_ind; [done|].
  apply Forall_app in Hc as [Hl [Hc _]%Forall_cons]. rewrite last_state_snoc, last_change_snoc, IH by done.
  assert (spelled_key g c = change_key g c) as ->; [|by destruct c].
  unfold stored_spelling in Hc. destruct c; cbn in *; unfold quad_key_of;
    rewrite !Forall_cons in Hc; destruct Hc as (-> & -> & -> & _); done.
Qed.

(** The quads of the graph after the change set are the live quads after a local
    write of it. *)
Lemma posted_live sn actor graph changes hints now b st' q :
  local_batch actor (sn_store sn) graph changes hints now = Ok (b, st') → covered (sn_store sn) graph →
  Forall (λ c, change_graph c = graph ∧ stored_spelling c) changes → quad_graph q = gid graph →
  posted sn graph changes q ↔ q ∈ live_set st'.
Proof.
  intros Hb%local_batch_effect Hcov [Hgraph Hspell]%Forall_and Hq. unfold posted, of_graph.
  rewrite filter_all by done. rewrite last_state_change by done.
  pose proof (local_dots _ _ _ _ _ _ q Hb Hcov Hq) as Hd.
  assert (∀ st, q ∈ live_set st ↔ ¬ ∀ e, ¬ dots_at st q e) as Hlive.
  { intros s. rewrite elem_of_live_set. unfold not. by rewrite <- no_dots_at. }
  rewrite (Hlive st').
  destruct (last_change (gid graph) changes q) as [[]|].
  - split; [|done]. intros _ Hno. by eapply Hno.
  - split; [done|]. intros Hno. by destruct Hno.
  - rewrite Hlive. split; intros Hno He; apply Hno; intros e Hin; by apply (He e), Hd.
Qed.

(** C4: A validation sees what a commit would leave: over the overlay of a change
    set, the validation's scan of a pattern yields exactly the quads of its
    graph that match and are live in the store a local write of the same
    changes produces. *)
Theorem validation_sees_commit (view : DeltaReadView) actor graph changes hints now b st' p :
  let sn := snapshot (base view) in
  snapshot_sound sn → digest_bytes → delta_build (sn_store sn) graph changes = Ok (index view) → pattern_fit p →
  local_batch actor (sn_store sn) graph changes hints now = Ok (b, st') → covered (sn_store sn) graph →
  Forall (λ c, change_graph c = graph ∧ stored_spelling c) changes →
  reads sn (Exact {[gid graph]}) (Some (gid graph)) (c ⇐ scan view (Named (gid graph)) p; collect c)
    (λ l, NoDup l ∧ ∀ q, q ∈ l ↔ q ∈ live_set st' ∧ quad_graph q = gid graph ∧ matches p q = true).
Proof.
  intros sn Hs Hbytes Hd Hp Hb Hcov Hch. eapply reads_weaken.
  - apply collect_scan_read; [apply Hs..|].
    by apply (delta_scan_reads view (Exact {[gid graph]}) (Some (gid graph)) graph changes Hs Hbytes Hd).
  - intros l [Hnd Hl]. split; [done|]. intros q. rewrite Hl. unfold post_answers, selects, row_visible, visible_graph.
    rewrite andb_true_r, bool_decide_eq_true. fold sn. split.
    + intros (Hpost & Hq & _ & Hm & _). rewrite <- posted_live by done. done.
    + intros (Hlive & Hq & Hm). rewrite <- posted_live in Hlive by done. done.
Qed.
End commit.

Section witness.
Import DemoOxrdf DemoBlake3.
#[local] Open Scope string_scope.

Let store0 : StoreReadView :=
  {| snapshot := {| sn_store := empty_store; sn_diagnostics := ∅; sn_views := init_views; sn_seqno := 0 |};
     read_mode := Auto |}.
Let built : outcome StoreError DeltaIndex := delta_build empty_store "g" demo_changes.
Let view0 : DeltaReadView :=
  {| base := store0;
     index := match built with
              | Ok ix => ix
              | _ => {| delta_graph := 0; states := ∅; by_predicate_object := ∅; delta_terms := ∅;
                        impact := impact_default |}
              end |}.

Lemma demo_digest_bytes : digest_bytes.
Proof.
  intros l Hl. apply Forall_take, Forall_app_2; [by apply Forall_drop|]. apply List.Forall_forall.
  by intros x ->%List.repeat_spec.
Qed.

Lemma demo_built : delta_build empty_store "g" demo_changes = Ok (index view0).
Proof.
  assert ((match built with Ok _ => true | _ => false end) = true) as Hok by (vm_compute; reflexivity).
  unfold view0. cbn [index]. unfold built in *. by destruct (delta_build _ _ _).
Qed.

Lemma delta_reads_exact_witness :
  reads (snapshot store0) All None (c ⇐ scan view0 DefaultUnion pattern_default; collect c)
    (post_rows view0 All None "g" demo_changes DefaultUnion pattern_default).
Proof.
  refine (proj1 (delta_reads_exact view0 All None "g" demo_changes DefaultUnion pattern_default 0 sn2_sound
    demo_digest_bytes demo_built _ _)); [by repeat constructor|done].
Defined.

Lemma validation_sees_commit_witness :
  reads (snapshot store0) (Exact {[gid "g"]}) (Some (gid "g"))
    (c ⇐ scan view0 (Named (gid "g")) pattern_default; collect c)
    (λ l, NoDup l ∧ ∀ q, q ∈ l ↔ q ∈ live_set demo_result.2 ∧ quad_graph q = gid "g" ∧
      matches pattern_default q = true).
Proof.
  refine (validation_sees_commit view0 1 "g" demo_changes None 0%Z demo_result.1 demo_result.2 pattern_default
    sn2_sound demo_digest_bytes demo_built _ _ (covered_empty "g") _).
  - by repeat constructor.
  - rewrite <- surjective_pairing. exact demo_local_ok.
  - repeat constructor.
Defined.
End witness.
