(* ===== verification/ViewRows.v ===== *)
(** * The rows and terms of a view

    What a read view promises about one graph: scans, existence tests and counts
    answer with a fixed set of rows, and the terms of the rows are read back as
    their text.  The durable store and a change set over it are two such views.
    Paths, shapes and the rules of a crate are proved against these interfaces. *)

From S2P Require Import Prelude Clock Terms Store Codec QueryView IndexUpdate Transitions Replication Convergence.
From S2P Require Import LocalWrites IndexMirror Orphans Cursors Reads ReadRules Answers DeltaAnswers.
#[local] Open Scope craqle_scope.

(** ** Answering views *)

(** A view whose scans of the graph answer with [rows]. *)
Class AnswersView `{Blake3} {V : Type} `{RdfReadView V} (view : V) (sn : Snapshot) (scope : GraphVisibility)
    (validating : option TermId) (graph : TermId) (rows : gset EncodedQuad) : Prop := {
  av_sound : snapshot_sound sn;
  av_scan p : pattern_fit p →
    reads sn scope validating (scan view (Named graph) p)
      (λ c, ∃ l, pending sn scope validating c l ∧ NoDup l ∧ ∀ q, q ∈ l ↔ q ∈ rows ∧ matches p q = true);
  av_fit q : q ∈ rows → TermId_fit (quad_subject q) ∧ TermId_fit (quad_object q);
}.

(** ** The two views *)

Lemma answers_rows `{Blake3} {V : Type} `{RdfReadView V} (view : V) sn scope validating graph (A : EncodedQuad → Prop) :
  snapshot_sound sn →
  (∀ p, pattern_fit p → reads sn scope validating (scan view (Named graph) p)
     (λ c, ∃ l, pending sn scope validating c l ∧ NoDup l ∧ ∀ q, q ∈ l ↔ A q ∧ matches p q = true)) →
  (∀ q, A q → quad_fit q) →
  ∃ rows, AnswersView view sn scope validating graph rows ∧ ∀ q, q ∈ rows ↔ A q.
Proof.
  intros Hs Hscan Hfit. assert (pattern_fit pattern_default) as Hd by by repeat constructor.
  destruct (reads_value _ _ _ _ _ (Hscan _ Hd)) as (_ & l & _ & _ & Hl).
  assert (∀ q, q ∈ (list_to_set l : gset EncodedQuad) ↔ A q) as Hrows.
  { intros q. rewrite elem_of_list_to_set, Hl. split; [by intros []|]. split; [done|]. by destruct q. }
  exists (list_to_set l). split; [|done]. split; [done| |].
  - intros p Hp. eapply reads_weaken; [by apply Hscan|]. intros c (l' & Hc & Hnd & Hl'). exists l'.
    split_and!; [done..|]. intros q. by rewrite Hl', Hrows.
  - intros q Hq%Hrows%Hfit. unfold quad_fit in Hq. tauto.
Qed.

(** The durable store answers with the live visible quads of the graph. *)
Lemma store_answers_rows `{Blake3} (view : StoreReadView) scope validating graph :
  snapshot_sound (snapshot view) → TermId_fit graph → readable view (Named graph) →
  (∀ q, q ∈ live_set (sn_store (snapshot view)) → quad_fit q) →
  ∃ rows, AnswersView view (snapshot view) scope validating graph rows ∧
    ∀ q, q ∈ rows ↔ answers (snapshot view) scope validating (Named graph) pattern_default q.
Proof.
  intros Hs Hg Hr Hfit. apply answers_rows; [done| |].
  - intros p Hp. eapply reads_weaken; [apply (store_scan_reads view scope validating Hs (Named graph) p)|].
    + done.
    + by intros g [= <-].
    + done.
    + intros c (l & Hl & Hnd & He). exists l. split_and!; [done..|]. intros q. rewrite He. unfold Answers.answers.
      assert (matches pattern_default q = true) by by destruct q. tauto.
  - intros q (Hq & _). by apply Hfit.
Qed.

(** A change set over it answers with the quads there after the change set. *)
Lemma delta_answers_rows `{Blake3} (view : DeltaReadView) scope validating graph delta :
  snapshot_sound (snapshot (base view)) → digest_bytes →
  delta_build (sn_store (snapshot (base view))) graph delta = Ok (index view) →
  (∀ q, q ∈ live_set (sn_store (snapshot (base view))) → quad_fit q) →
  ∃ rows, AnswersView view (snapshot (base view)) scope validating (gid graph) rows ∧
    ∀ q, q ∈ rows ↔ post_answers view scope validating graph delta (Named (gid graph)) pattern_default q.
Proof.
  intros Hs Hb Hd Hfit. pose proof (delta_build_ok _ _ _ _ Hd) as Hok. apply answers_rows; [done| |].
  - intros p Hp. eapply reads_weaken; [by apply (delta_scan_reads view scope validating graph delta Hs Hb Hd)|].
    intros c (l & Hl & Hnd & He). exists l. split_and!; [done..|]. intros q. rewrite He. unfold post_answers.
    assert (matches pattern_default q = true) by by destruct q. tauto.
  - intros q (Hq & _). unfold posted in Hq. destruct (last_state _ _ q) eqn:E; [|by apply Hfit].
    rewrite <- (do_states _ _ _ Hok) in E. by eapply states_fit.
Qed.

(** ** Rows with their terms *)

(** A view that answers with [rows], and reads their terms back as [term_of]. *)
Class RowsView `{Blake3} {V : Type} `{RdfReadView V} (view : V) (sn : Snapshot) (scope : GraphVisibility)
    (validating : option TermId) (graph : TermId) (rows : gset EncodedQuad) (term_of : TermId → option EncodedTerm)
    : Prop := {
  rv_answers :: AnswersView view sn scope validating graph rows;
  rv_exists p : pattern_fit p →
    reads sn scope validating (exists_row view (Named graph) p) (λ b, b = true ↔ ∃ q, q ∈ rows ∧ matches p q = true);
  rv_decode x t : term_of x = Some t → reads sn scope validating (view_decode_term view x) (λ t', t' = t);
  rv_known q : q ∈ rows → is_Some (term_of (quad_subject q)) ∧ is_Some (term_of (quad_predicate q)) ∧
                          is_Some (term_of (quad_object q));
}.

(** The live quads name interned terms. *)
Record rows_sound (st : Store) : Prop := {
  rs_fit q : q ∈ live_set st → quad_fit q;
  rs_terms q : q ∈ live_set st →
    is_Some (terms st !! quad_subject q) ∧ is_Some (terms st !! quad_predicate q) ∧ is_Some (terms st !! quad_object q);
}.

Section terms.
Context `{Blake3}.

Lemma lookup_term_default st t o : lookup_term st t = Ok o → default (hash_term t) o = hash_term t.
Proof. unfold lookup_term. destruct (terms st !! hash_term t); [case_decide; [|done]|]; by intros [= <-]. Qed.

Lemma contains_graph_ok st g o : lookup_term st (from_named_node g) = Ok o →
  Store.contains_graph st g = Ok (match o with Some i => contains_graph_id st i | None => false end).
Proof. intros Ho. unfold Store.contains_graph, graph_id_for. rewrite Ho. by destruct o. Qed.

Section store.
Context (view : StoreReadView) (scope : GraphVisibility) (validating : option TermId).
Let sn := snapshot view.
Let st := sn_store sn.
Context (Hs : snapshot_sound sn) (Hdata : rows_sound st).

Lemma store_decode x t : terms st !! x = Some t → reads sn scope validating (view_decode_term view x) (λ t', t' = t).
Proof.
  intros Ht. cbn. eapply reads_bind; [apply reads_check|]. intros _ _. apply (reads_lift _ _ _ _ t); [|done].
  unfold decode_term. fold sn st. by rewrite Ht.
Qed.

Lemma store_lookup t o : lookup_term st t = Ok o →
  reads sn scope validating (view_lookup_term view t) (λ o', o' = o).
Proof. intros Ho. cbn. eapply reads_bind; [apply reads_check|]. intros _ _. by apply (reads_lift _ _ _ _ o). Qed.

Lemma store_visible g : reads sn scope validating (store_graph_is_visible view g) (λ b, b = visible_graph sn scope validating g).
Proof.
  unfold store_graph_is_visible. eapply reads_bind; [apply reads_check|]. intros _ _.
  eapply reads_bind; [by apply graph_visible_read, Hs|]. intros b ->. eapply reads_bind; [apply reads_check|]. intros _ _.
  by apply reads_ret.
Qed.

(** The rows of a graph of the store. *)
Lemma store_rows_view graph :
  TermId_fit graph → readable view (Named graph) →
  ∃ rows, RowsView view sn scope validating graph rows (λ x, terms st !! x) ∧
    ∀ q, q ∈ rows ↔ answers sn scope validating (Named graph) pattern_default q.
Proof.
  intros Hg Hr. destruct (store_answers_rows view scope validating graph Hs Hg Hr (rs_fit _ Hdata)) as (rows & Hv & Hrows).
  fold sn in Hrows. exists rows. split; [|done]. split; [done| |apply store_decode|].
  - intros p Hp. eapply reads_weaken; [apply (store_exists_reads view scope validating Hs (Named graph) p); [done| |done]|].
    { by intros g [= <-]. }
    intros b ->. setoid_rewrite Hrows. fold sn. unfold answers.
    assert (∀ q, matches pattern_default q = true) as Hall by by intros []. naive_solver.
  - intros q Hq%Hrows. destruct Hq as (Hq & _). by apply (rs_terms _ Hdata).
Qed.
End store.

(** *** Change sets *)

Lemma try_delta_terms st graph rt l ix ix' : try_fold (delta_step st graph rt) ix l = Ok ix' → delta_terms ix ⊆ delta_terms ix'.
Proof.
  revert ix. induction l as [|c l IH]; intros ix; cbn [try_fold]; [by intros [= <-]|].
  intros (ix1 & Hstep & Hl)%bind_ok. etransitivity; [|by eapply IH]. clear - Hstep. unfold delta_step in Hstep.
  destruct (match c with Insert g s p o => (g, s, p, o, true) | Delete g s p o => (g, s, p, o, false) end) as [[[[g s] p] o] b].
  case_decide; [by injection Hstep as <-|].
  apply bind_ok in Hstep as ([s' t1] & Hs & Hstep). apply bind_ok in Hstep as ([p' t2] & Hp & Hstep).
  apply bind_ok in Hstep as ([o' t3] & Ho & [= <-]). cbn.
  apply remember_term_grows in Hs as [_ Hs]. apply remember_term_grows in Hp as [_ Hp]. apply remember_term_grows in Ho as [_ Ho].
  by transitivity t2; [transitivity t1|].
Qed.

Lemma remember_looked st terms term r : remember_term st terms term = Ok r → ∃ o, lookup_term st term = Ok o.
Proof. unfold remember_term. intros (ts & _ & (o & Ho & _)%bind_ok)%bind_ok. by exists o. Qed.

(** A change set knows its graph and [rdf:type]. *)
Lemma delta_build_terms st graph delta ix :
  delta_build st graph delta = Ok ix →
  delta_terms ix !! gid graph = Some (from_named_node graph) ∧
  delta_terms ix !! hash_term (from_named_node vocab.rdf_type) = Some (from_named_node vocab.rdf_type) ∧
  ∃ o, lookup_term st (from_named_node graph) = Ok o.
Proof.
  unfold delta_build. intros ([g t1] & Hg & Hr)%bind_ok. apply bind_ok in Hr as ([rt t2] & Ht & Hr).
  pose proof (remember_looked _ _ _ _ Hg) as Hlook.
  pose proof (remember_term_id _ _ _ _ _ Hg) as ->. pose proof (remember_term_id _ _ _ _ _ Ht) as ->.
  apply remember_term_grows in Hg as [Hg _]. apply remember_term_grows in Ht as [Ht H12].
  apply try_delta_terms in Hr. cbn in Hr. split_and!; [| |done].
  - eapply lookup_weaken; [|exact Hr]. by eapply lookup_weaken.
  - by eapply lookup_weaken.
Qed.

Section delta.
Context (view : DeltaReadView) (scope : GraphVisibility) (validating : option TermId) (graph : GraphId).
Context (delta : list MaterializedQuadChange).
Let sn := snapshot (base view).
Let st := sn_store sn.
Context (Hs : snapshot_sound sn) (Hbytes : digest_bytes) (Hdata : rows_sound st).
Context (Hbuilt : delta_build st graph delta = Ok (index view)).

(** The terms a change set shows: its own before those of the store. *)
Definition delta_term (x : TermId) : option EncodedTerm := (delta_terms (index view) ∪ terms st) !! x.

Lemma delta_decode x t : delta_term x = Some t → reads sn scope validating (view_decode_term view x) (λ t', t' = t).
Proof.
  unfold delta_term. rewrite lookup_union_Some_raw. intros Ht. cbn. eapply reads_bind; [apply reads_check|]. intros _ _.
  destruct Ht as [-> |[-> Ht]]; [by apply reads_ret|]. by apply store_decode.
Qed.

Lemma delta_term_grows x : is_Some (delta_terms (index view) !! x) ∨ is_Some (terms st !! x) → is_Some (delta_term x).
Proof. unfold delta_term. rewrite lookup_union_is_Some. done. Qed.

Lemma delta_lookup t : delta_terms (index view) !! hash_term t = Some t →
  reads sn scope validating (view_lookup_term view t) (λ o, o = Some (hash_term t)).
Proof.
  intros Ht. cbn. eapply reads_bind; [apply reads_check|]. intros _ _. unfold lookup_delta_term. rewrite Ht.
  rewrite decide_True by done. eapply (reads_bind _ _ _ _ _ (λ o, o = Some (hash_term t))).
  - by apply (reads_lift _ _ _ _ (Some (hash_term t))).
  - intros ? ->. by apply reads_ret.
Qed.

(** The rows of the graph of a change set. *)
Lemma delta_rows_view :
  readable (base view) (Named (gid graph)) →
  ∃ rows, RowsView view sn scope validating (gid graph) rows delta_term ∧
    ∀ q, q ∈ rows ↔ post_answers view scope validating graph delta (Named (gid graph)) pattern_default q.
Proof.
  intros Hr. destruct (delta_answers_rows view scope validating graph delta Hs Hbytes Hbuilt (rs_fit _ Hdata)) as (rows & Hv & Hrows).
  exists rows. split; [|done]. split; [done| |apply delta_decode|].
  - intros p Hp. eapply reads_weaken; [apply (delta_exists_reads view scope validating graph delta Hs Hbytes Hbuilt (Named (gid graph)) p Hp)|].
    { intros sg [= <-]. split; [by apply hash_term_fit|done]. }
    intros b ->. setoid_rewrite Hrows. unfold post_answers.
    assert (∀ q, matches pattern_default q = true) as Hall by by intros []. naive_solver.
  - intros q Hq%Hrows. destruct Hq as (Hq & Hg & _). unfold posted in Hq.
    pose proof (delta_build_ok _ _ _ _ Hbuilt) as Hok. destruct (last_state _ _ q) as [b|] eqn:E.
    + rewrite <- (do_states _ _ _ Hok) in E. destruct (do_terms _ _ _ Hok q b E) as (? & ? & ?).
      split_and!; apply delta_term_grows; by left.
    + destruct (rs_terms _ Hdata q Hq) as (? & ? & ?). split_and!; apply delta_term_grows; by right.
Qed.
End delta.
End terms.

(** ** Reads nobody cancels *)

Section runs.
Context `{Blake3} (sn : Snapshot) (scope : GraphVisibility) (validating : option TermId).

Definition runs {A} (m : readm A) (Q : A → Prop) : Prop :=
  ∀ c, context_ok sn scope validating c → checks_left c = None →
  ∃ c' a, m c = (c', Ok a) ∧ context_ok sn scope validating c' ∧ checks_left c' = None ∧ Q a.

Lemma runs_ret {A} (a : A) (Q : A → Prop) : Q a → runs (st_ret a) Q.
Proof. intros HQ c Hc Hn. by exists c, a. Qed.
Lemma runs_bind {A B} (m : readm A) (f : A → readm B) P Q :
  runs m P → (∀ a, P a → runs (f a) Q) → runs (st_bind m f) Q.
Proof.
  intros Hm Hf c Hc Hn. destruct (Hm c Hc Hn) as (c1 & a & Hr & Hc1 & Hn1 & Ha). unfold st_bind. rewrite Hr.
  by apply (Hf a Ha c1).
Qed.
Lemma runs_weaken {A} (m : readm A) (P Q : A → Prop) : runs m P → (∀ a, P a → Q a) → runs m Q.
Proof. intros Hm HPQ c Hc Hn. destruct (Hm c Hc Hn) as (c1 & a & ? & ? & ? & ?). exists c1, a. auto. Qed.
Lemma runs_reads {A} (m : readm A) Q : reads sn scope validating m Q → runs m Q.
Proof.
  intros Hm c Hc Hn. destruct (Hm c Hc) as (c' & r & Hr & Hc' & Hn' & [(a & -> & Ha)|[_ Hx]]); [|done].
  exists c', a. auto.
Qed.
Lemma runs_read {A B} (m : readm A) (f : A → readm B) P Q :
  reads sn scope validating m P → (∀ a, P a → runs (f a) Q) → runs (st_bind m f) Q.
Proof. intros Hm. by apply runs_bind, runs_reads. Qed.
End runs.

(** The context a validation of the graph starts in. *)
Lemma fresh_context `{Blake3} sn graph :
  context_ok sn (Exact {[gid graph]}) (Some (gid graph)) (for_validation graph None).
Proof. split; try done; intros x y; cbn; by rewrite lookup_empty. Qed.

(** ** Stores checked by computation *)

Section checked.
Context `{Blake3}.

(** A store is sound for readers when its graphs are interned and no word of the
    orphan checks collides, by computation. *)
Definition plain_snapshot (st : Store) : Snapshot :=
  {| sn_store := st; sn_diagnostics := ∅; sn_views := no_views; sn_seqno := 0 |}.
Lemma checked_sound (st : Store) :
  forallb (λ p : TermId * StoredGraphMeta, bool_decide (is_Some (terms st !! p.1))) (map_to_list (graph_metas st)) &&
  forallb (λ t, match terms st !! hash_term t with Some t' => bool_decide (t' = t) | None => true end)
    (from_named_node <$> [vocab.rdf_type; vocab.schema_dataset; vocab.schema_media_object; vocab.schema_has_part]) = true →
  snapshot_sound (plain_snapshot st).
Proof.
  intros [Hg Hw]%andb_true_iff. rewrite !forallb_forall in Hg, Hw. split.
  - intros g Hm. unfold contains_graph_id in Hm. apply bool_decide_eq_true in Hm as [mt Hm].
    apply elem_of_map_to_list, list_elem_of_In, Hg in Hm. by apply bool_decide_eq_true in Hm.
  - intros t t' [Ht|(g & r & Hr & _)] Hl; [|by cbn in Hr; apply lookup_empty_Some in Hr].
    cbn [plain_snapshot sn_store] in Hl. apply list_elem_of_In, Hw in Ht. rewrite Hl in Ht. by apply bool_decide_eq_true in Ht.
  - by exists (untrusted "metadata-missing").
Qed.
Lemma checked_rows (st : Store) :
  forallb (λ p : EncodedQuad * list Dot, let q := p.1 in
    forallb (λ i, bool_decide (i < 2 ^ 128)%N) [quad_graph q; quad_subject q; quad_predicate q; quad_object q] &&
    forallb (λ i, bool_decide (is_Some (terms st !! i))) [quad_subject q; quad_predicate q; quad_object q])
    (map_to_list (quads st)) = true →
  rows_sound st.
Proof.
  intros Hq. rewrite forallb_forall in Hq.
  assert (∀ q, q ∈ live_set st → quad_fit q ∧ is_Some (terms st !! quad_subject q) ∧ is_Some (terms st !! quad_predicate q) ∧
    is_Some (terms st !! quad_object q)) as Hall.
  { intros q Hl. unfold live_set in Hl. apply elem_of_dom in Hl as [dots [Hd _]%map_lookup_filter_Some].
    apply elem_of_map_to_list, list_elem_of_In, Hq, andb_true_iff in Hd as [Hf Ht]. rewrite forallb_forall in Hf, Ht.
    assert (∀ i, i ∈ [quad_subject q; quad_predicate q; quad_object q] → is_Some (terms st !! i)) as Hk.
    { intros i Hi%list_elem_of_In%Ht. by apply bool_decide_eq_true in Hi. }
    assert (∀ i, i ∈ [quad_graph q; quad_subject q; quad_predicate q; quad_object q] → TermId_fit i) as Hb.
    { intros i Hi%list_elem_of_In%Hf. by apply bool_decide_eq_true in Hi. }
    split; [|split_and!; apply Hk; set_solver]. unfold quad_fit. split_and!; apply Hb; set_solver. }
  split; intros q Hl; by destruct (Hall q Hl).
Qed.
End checked.
