(* ===== verification/CrateRules.v ===== *)
(** * RO-Crate rules ([src/internal/rules.rs])

    The rules a graph with an RO-Crate profile meets, each in two forms: a
    check of a candidate change set, which reads through the overlay of the
    change set only what it touches, and a check of a materialised snapshot.
    [validate_change_set] runs them before a local write is committed, and
    [post_merge_violations] reports what a graph violates.

    The cells of [RuleContext] and [GraphSnapshot] that compute a value once
    hold no other; they are the functions that compute it.  A walk has fuel from
    the number of rows it can read, [walk_bound]. *)

From S2P Require Import Prelude Clock Terms Store QueryView IndexUpdate Orphans Cursors Reads.
#[local] Open Scope craqle_scope.
#[local] Open Scope string_scope.

(** ** Versions and vocabulary *)

Inductive RoCrateVersion := V1_1 | V1_2 | V1_3.
#[export] Instance version_eq_dec : EqDecision RoCrateVersion.
Proof. solve_decision. Defined.
Definition specification_url (v : RoCrateVersion) : string :=
  match v with
  | V1_1 => "https://w3id.org/ro/crate/1.1"
  | V1_2 => "https://w3id.org/ro/crate/1.2"
  | V1_3 => "https://w3id.org/ro/crate/1.3"
  end.

Definition RDF_TYPE : EncodedTerm := from_named_node vocab.rdf_type.
Definition SCHEMA_DATASET : EncodedTerm := from_named_node vocab.schema_dataset.
Definition SCHEMA_MEDIA_OBJECT : EncodedTerm := from_named_node vocab.schema_media_object.
Definition SCHEMA_CREATIVE_WORK : EncodedTerm := from_named_node vocab.schema_creative_work.
Definition SCHEMA_HAS_PART : EncodedTerm := from_named_node vocab.schema_has_part.
Definition SCHEMA_ABOUT : EncodedTerm := from_named_node vocab.schema_about.
Definition SCHEMA_NAME : EncodedTerm := from_named_node vocab.schema_name.
Definition SCHEMA_DESCRIPTION : EncodedTerm := from_named_node vocab.schema_description.
Definition SCHEMA_DATE_PUBLISHED : EncodedTerm := from_named_node vocab.schema_date_published.
Definition METADATA_DESCRIPTOR : EncodedTerm := from_named_node vocab.metadata_descriptor.
Definition DCTERMS_CONFORMS_TO : EncodedTerm := "<http://purl.org/dc/terms/conformsTo>".

Definition REQUIRED_ROOT_PROPERTIES : list (EncodedTerm * string) :=
  [(SCHEMA_NAME, "schema:name"); (SCHEMA_DESCRIPTION, "schema:description");
   (SCHEMA_DATE_PUBLISHED, "schema:datePublished")].
Definition DATE_PUBLISHED_SLOT : nat := 2.

Definition graph_root (graph : GraphId) : EncodedTerm := from_named_node graph.
#[global] Arguments graph_root _ : simpl never.

(** ** Snapshots *)

Abbreviation Triple := (EncodedTerm * EncodedTerm * EncodedTerm)%type (only parsing).
Record GraphSnapshot := { snapshot_graph : GraphId; triples : list Triple }.
Definition root (post : GraphSnapshot) : EncodedTerm := graph_root (snapshot_graph post).

(** [SnapshotLookup]: subject, then predicate, to the places of the triples. *)
Abbreviation SnapshotLookup := (gmap EncodedTerm (gmap EncodedTerm (list nat))) (only parsing).
Definition lookup_row (rows : SnapshotLookup) (row : nat * Triple) : SnapshotLookup :=
  let '(place, (subject, predicate, _)) := row in
  let predicates : gmap EncodedTerm (list nat) := default ∅ (rows !! subject) in
  <[subject := <[predicate := (default [] (predicates !! predicate) ++ [place])%list]> predicates]> rows.
Definition snapshot_lookup (post : GraphSnapshot) : SnapshotLookup :=
  foldl lookup_row ∅ (imap pair (triples post)).

Definition rows_for (post : GraphSnapshot) (subject predicate : EncodedTerm) : list nat :=
  default [] (snapshot_lookup post !! subject ≫= λ predicates, predicates !! predicate).
Definition count_sp (post : GraphSnapshot) (subject predicate : EncodedTerm) : nat :=
  length (rows_for post subject predicate).
(** The rows are places of [triples]. *)
Definition has_triple (post : GraphSnapshot) (subject predicate object : EncodedTerm) : bool :=
  existsb (λ place, bool_decide (snd <$> triples post !! place = Some object)) (rows_for post subject predicate).

Section snapshot.
Context `{Blake3} {V : Type} `{RdfReadView V}.

Fixpoint read_triples (fuel : nat) (view : V) (c : QueryCursor) (l : list Triple) : readm (list Triple) :=
  match fuel with
  | O => st_panic
  | S fuel =>
      next ⇐ cursor_next c;
      match next.1 with
      | None => st_ret l
      | Some q =>
          s ⇐ view_decode_term view (quad_subject q);
          p ⇐ view_decode_term view (quad_predicate q);
          o ⇐ view_decode_term view (quad_object q);
          read_triples fuel view next.2 (l ++ [(s, p, o)])%list
      end
  end.

Definition from_read_view (view : V) (graph : GraphId) : readm GraphSnapshot :=
  found ⇐ view_lookup_term view (from_named_node graph);
  match found with
  | None => st_ret {| snapshot_graph := graph; triples := [] |}
  | Some graph_tid =>
      c ⇐ scan view (Named graph_tid) pattern_default;
      l ⇐ read_triples (S (cursor_len c)) view c [];
      st_ret {| snapshot_graph := graph; triples := l |}
  end.
End snapshot.

(** ** Summaries of changes *)

Record DeltaSummary := {
  inserted_subjects : gset EncodedTerm;
  type_changed_subjects : gset EncodedTerm;
  reachability_seeds : gset EncodedTerm;
  reachability_probes : gset EncodedTerm;
  touches_root_dataset : bool;
  touches_metadata_descriptor : bool;
  required_root_hits : list bool;
  touches_reachability : bool;
}.
Definition summary_default : DeltaSummary :=
  {| inserted_subjects := ∅; type_changed_subjects := ∅; reachability_seeds := ∅; reachability_probes := ∅;
     touches_root_dataset := false; touches_metadata_descriptor := false; required_root_hits := [false; false; false];
     touches_reachability := false |}.
Definition touches_required_root (s : DeltaSummary) : bool := existsb id (required_root_hits s).

Record TouchedTriple := { subject : EncodedTerm; predicate : EncodedTerm; object : EncodedTerm; inserted : bool }.

(** The body of the loop of [summarize], a part per condition. *)
Definition touch (root : EncodedTerm) (s : DeltaSummary) (t : TouchedTriple) : DeltaSummary :=
  let at_root := bool_decide (subject t = root) in
  let part := bool_decide (predicate t = SCHEMA_HAS_PART) in
  let typed := bool_decide (predicate t = RDF_TYPE) in
  let data_type := bool_decide (object t = SCHEMA_DATASET ∨ object t = SCHEMA_MEDIA_OBJECT) in
  {| inserted_subjects := (if inserted t then {[subject t]} else ∅) ∪ inserted_subjects s;
     type_changed_subjects := (if typed then {[subject t]} else ∅) ∪ type_changed_subjects s;
     reachability_seeds := (if part then {[object t]} else ∅) ∪ (if typed && data_type then {[subject t]} else ∅) ∪
                           reachability_seeds s;
     reachability_probes := (if part then {[subject t]} else ∅) ∪ reachability_probes s;
     touches_root_dataset := touches_root_dataset s ||
       (at_root && typed && bool_decide (object t = SCHEMA_DATASET));
     touches_metadata_descriptor := touches_metadata_descriptor s ||
       (bool_decide (subject t = METADATA_DESCRIPTOR) &&
        ((typed && bool_decide (object t = SCHEMA_CREATIVE_WORK)) ||
         (bool_decide (predicate t = SCHEMA_ABOUT) && bool_decide (object t = root))));
     required_root_hits := zip_with (λ hit required, hit || (at_root && bool_decide (predicate t = required.1)))
       (required_root_hits s) REQUIRED_ROOT_PROPERTIES;
     touches_reachability := touches_reachability s || part || (typed && data_type) |}.
Definition summarize (graph : GraphId) (touched : list TouchedTriple) : DeltaSummary :=
  foldl (touch (graph_root graph)) summary_default touched.

Definition touched_change (c : MaterializedQuadChange) : TouchedTriple :=
  match c with
  | Insert _ s p o => {| subject := s; predicate := p; object := o; inserted := true |}
  | Delete _ s p o => {| subject := s; predicate := p; object := o; inserted := false |}
  end.
Definition summarize_delta (graph : GraphId) (delta : list MaterializedQuadChange) : DeltaSummary :=
  summarize graph (touched_change <$> filter (λ c, change_graph c = graph) delta).

Definition touched_op (op : QuadOp) : TouchedTriple :=
  match op with
  | Add s p o _ => {| subject := s; predicate := p; object := o; inserted := true |}
  | Remove s p o _ => {| subject := s; predicate := p; object := o; inserted := false |}
  end.
Definition summarize_ops (graph : GraphId) (ops : list QuadOp) : DeltaSummary := summarize graph (touched_op <$> ops).

(** ** The post-state of a candidate *)

Record RuleContext := { rule_view : DeltaReadView; rule_graph : GraphId; summary : DeltaSummary }.
Definition rule_root (cx : RuleContext) : EncodedTerm := graph_root (rule_graph cx).
Definition delta_is_empty (cx : RuleContext) : bool :=
  bool_decide (changed_subjects (impact (index (rule_view cx))) = ∅).
Definition view_graph (cx : RuleContext) : GraphSelector := Named (delta_graph (index (rule_view cx))).

(** The rows of the graph a walk can read are at most these. *)
Definition walk_bound (cx : RuleContext) : nat :=
  S (size (quads (sn_store (snapshot (base (rule_view cx))))) + size (states (index (rule_view cx)))).

Definition spo (s p o : option TermId) : QuadPattern :=
  {| pat_graph := None; pat_subject := s; pat_predicate := p; pat_object := o |}.

Section context.
Context `{Blake3} (cx : RuleContext).
Let view : DeltaReadView := rule_view cx.

Definition triple_exists (s p o : EncodedTerm) : readm bool :=
  s ⇐ view_lookup_term view s; p ⇐ view_lookup_term view p; o ⇐ view_lookup_term view o;
  match s, p, o with
  | Some _, Some _, Some _ => exists_row view (view_graph cx) (spo s p o)
  | _, _, _ => st_ret false
  end.

Definition has_subject_predicate (s p : EncodedTerm) : readm bool :=
  s ⇐ view_lookup_term view s; p ⇐ view_lookup_term view p;
  match s, p with
  | Some _, Some _ => exists_row view (view_graph cx) (spo s p None)
  | _, _ => st_ret false
  end.

(** [RuleContext::count_sp]. *)
Definition rule_count (s p : EncodedTerm) : readm nat :=
  s ⇐ view_lookup_term view s; p ⇐ view_lookup_term view p;
  match s, p with
  | Some _, Some _ =>
      count ⇐ count_up_to view (view_graph cx) (spo s p None) u64_max;
      st_ret (N.to_nat (N.min count usize_max))
  | _, _ => st_ret 0
  end.

Definition subject_has_triples (s : EncodedTerm) : readm bool :=
  s ⇐ view_lookup_term view s;
  match s with Some _ => exists_row view (view_graph cx) (spo s None None) | None => st_ret false end.

(** [base_subject_exists] reads under the overlay. *)
Definition subject_existed_before (s : EncodedTerm) : readm bool :=
  s ⇐ view_lookup_term view s;
  match s with Some _ => exists_row (base view) (view_graph cx) (spo s None None) | None => st_ret false end.

(** The loop over a cursor that decodes one column. *)
Fixpoint read_column (fuel : nat) (column : EncodedQuad → TermId) (c : QueryCursor) (X : gset EncodedTerm)
    : readm (gset EncodedTerm) :=
  match fuel with
  | O => st_panic
  | S fuel =>
      next ⇐ cursor_next c;
      match next.1 with
      | None => st_ret X
      | Some q => t ⇐ view_decode_term view (column q); read_column fuel column next.2 ({[t]} ∪ X)
      end
  end.

Definition children (s : EncodedTerm) : readm (gset EncodedTerm) :=
  s ⇐ view_lookup_term view s; p ⇐ view_lookup_term view SCHEMA_HAS_PART;
  match s, p with
  | Some s, Some p =>
      c ⇐ forward_predicate view (view_graph cx) s p; read_column (S (cursor_len c)) quad_object c ∅
  | _, _ => st_ret ∅
  end.
Definition parents (o : EncodedTerm) : readm (gset EncodedTerm) :=
  p ⇐ view_lookup_term view SCHEMA_HAS_PART; o ⇐ view_lookup_term view o;
  match p, o with
  | Some p, Some o =>
      c ⇐ inverse_predicate view (view_graph cx) p o; read_column (S (cursor_len c)) quad_subject c ∅
  | _, _ => st_ret ∅
  end.

(** The nested loops over subjects and versions. *)
Fixpoint profile_loop (marks : list (EncodedTerm * RoCrateVersion)) (selected : option RoCrateVersion)
    : readm (option RoCrateVersion) :=
  match marks with
  | [] => st_ret selected
  | (subject, version) :: marks =>
      found ⇐ triple_exists subject DCTERMS_CONFORMS_TO (from_named_node (specification_url version));
      if negb found then profile_loop marks selected
      else if match selected with Some current => bool_decide (current ≠ version) | None => false end then st_ret None
      else profile_loop marks (Some version)
  end.
Definition profile_from_view : readm (option RoCrateVersion) :=
  profile_loop (subject ← [METADATA_DESCRIPTOR; rule_root cx]; version ← [V1_1; V1_2; V1_3]; [(subject, version)]) None.
End context.

(** ** The walk over [hasPart] *)

(** [ReachabilityWalk]: its caches, and the entities on the current path. *)
Record ReachabilityWalk := {
  walk_children : gmap EncodedTerm (gset EncodedTerm);
  walk_parents : gmap EncodedTerm (gset EncodedTerm);
  walk_reachable : gmap EncodedTerm bool;
  walk_visiting : gset EncodedTerm;
}.
Definition new_walk : ReachabilityWalk :=
  {| walk_children := ∅; walk_parents := ∅; walk_reachable := ∅; walk_visiting := ∅ |}.
Definition with_children (e : EncodedTerm) (X : gset EncodedTerm) (w : ReachabilityWalk) : ReachabilityWalk :=
  {| walk_children := <[e := X]> (walk_children w); walk_parents := walk_parents w;
     walk_reachable := walk_reachable w; walk_visiting := walk_visiting w |}.
Definition with_parents (e : EncodedTerm) (X : gset EncodedTerm) (w : ReachabilityWalk) : ReachabilityWalk :=
  {| walk_children := walk_children w; walk_parents := <[e := X]> (walk_parents w);
     walk_reachable := walk_reachable w; walk_visiting := walk_visiting w |}.
Definition with_reachable (e : EncodedTerm) (b : bool) (w : ReachabilityWalk) : ReachabilityWalk :=
  {| walk_children := walk_children w; walk_parents := walk_parents w;
     walk_reachable := <[e := b]> (walk_reachable w); walk_visiting := walk_visiting w |}.
Definition enter (e : EncodedTerm) (w : ReachabilityWalk) : ReachabilityWalk :=
  {| walk_children := walk_children w; walk_parents := walk_parents w; walk_reachable := walk_reachable w;
     walk_visiting := {[e]} ∪ walk_visiting w |}.
Definition leave (e : EncodedTerm) (w : ReachabilityWalk) : ReachabilityWalk :=
  {| walk_children := walk_children w; walk_parents := walk_parents w; walk_reachable := walk_reachable w;
     walk_visiting := walk_visiting w ∖ {[e]} |}.

(** A walk reads through the context of its rule. *)
Definition walkm : Type → Type := stm (ReadContext * ReachabilityWalk) StoreError.
Definition wk_read {A} (m : readm A) : walkm A := λ '(c, w), let '(c, r) := m c in ((c, w), r).
Definition wk_get {A} (f : ReachabilityWalk → A) : walkm A := λ '(c, w), ((c, w), Ok (f w)).
Definition wk_set (f : ReachabilityWalk → ReachabilityWalk) : walkm () := λ '(c, w), ((c, f w), Ok ()).
Definition wk_panic {A} : walkm A := λ s, (s, Panic).

Record ReachabilityFrame := {
  entity : EncodedTerm;
  frame_parents : list EncodedTerm;
  reachable : bool;
  used_cycle_break : bool;
}.
Definition set_parents (l : list EncodedTerm) (f : ReachabilityFrame) : ReachabilityFrame :=
  {| entity := entity f; frame_parents := l; reachable := reachable f; used_cycle_break := used_cycle_break f |}.
Definition or_reachable (b : bool) (f : ReachabilityFrame) : ReachabilityFrame :=
  {| entity := entity f; frame_parents := frame_parents f; reachable := reachable f || b;
     used_cycle_break := used_cycle_break f |}.
Definition or_cycle_break (b : bool) (f : ReachabilityFrame) : ReachabilityFrame :=
  {| entity := entity f; frame_parents := frame_parents f; reachable := reachable f;
     used_cycle_break := used_cycle_break f || b |}.

Section walk.
Context `{Blake3} (cx : RuleContext).

Definition cached_children (e : EncodedTerm) : walkm (gset EncodedTerm) :=
  memo ⇐ wk_get (λ w, walk_children w !! e);
  match memo with
  | Some X => st_ret X
  | None => X ⇐ wk_read (children cx e); _ ⇐ wk_set (with_children e X); st_ret X
  end.
Definition cached_parents (e : EncodedTerm) : walkm (gset EncodedTerm) :=
  memo ⇐ wk_get (λ w, walk_parents w !! e);
  match memo with
  | Some X => st_ret X
  | None => X ⇐ wk_read (parents cx e); _ ⇐ wk_set (with_parents e X); st_ret X
  end.

(** The queue of [collect_descendants]. *)
Fixpoint descend (fuel : nat) (queue : list EncodedTerm) (out : gset EncodedTerm) : walkm (gset EncodedTerm) :=
  match queue with
  | [] => st_ret out
  | subject :: queue =>
      match fuel with
      | O => wk_panic
      | S fuel =>
          if decide (subject ∈ out) then descend fuel queue out
          else
            X ⇐ cached_children subject;
            descend fuel (queue ++ btree_elems X)%list ({[subject]} ∪ out)
      end
  end.
Definition collect_descendants (out : gset EncodedTerm) (seed : EncodedTerm) : walkm (gset EncodedTerm) :=
  descend (S (S (walk_bound cx) * S (walk_bound cx))) [seed] out.

Definition is_data_entity (e : EncodedTerm) : walkm bool :=
  dataset ⇐ wk_read (triple_exists cx e RDF_TYPE SCHEMA_DATASET);
  typed ⇐ (if dataset : bool then st_ret true else wk_read (triple_exists cx e RDF_TYPE SCHEMA_MEDIA_OBJECT));
  if typed : bool then st_ret true
  else
    X ⇐ cached_children e;
    if bool_decide (X ≠ ∅) then st_ret true
    else Y ⇐ cached_parents e; st_ret (bool_decide (Y ≠ ∅)).

Definition open_frame (e : EncodedTerm) : walkm ReachabilityFrame :=
  X ⇐ cached_parents e;
  _ ⇐ wk_set (enter e);
  st_ret {| entity := e; frame_parents := btree_elems X; reachable := false; used_cycle_break := false |}.
Definition settle (e : EncodedTerm) (b : bool) : walkm () :=
  _ ⇐ wk_set (leave e); wk_set (with_reachable e b).

(** The loop of [is_reachable]: its stack and its answer. *)
Definition to_parent (f : ReachabilityFrame → ReachabilityFrame) (stack : list ReachabilityFrame)
    : list ReachabilityFrame :=
  match stack with [] => [] | parent :: stack => f parent :: stack end.
Definition reach_step (s : list ReachabilityFrame * bool) : walkm ((list ReachabilityFrame * bool) + bool) :=
  let '(stack, answer) := s in
  match stack with
  | [] => st_ret (inr answer)
  | top :: stack =>
      if reachable top then
        _ ⇐ settle (entity top) true;
        st_ret (inl (to_parent (or_reachable true) stack, match stack with [] => true | _ => answer end))
      else
        match frame_parents top with
        | [] =>
            _ ⇐ wk_set (leave (entity top));
            _ ⇐ (if used_cycle_break top then st_ret () else wk_set (with_reachable (entity top) false));
            st_ret (inl (to_parent (or_cycle_break (used_cycle_break top)) stack, answer))
        | candidate :: rest =>
            let top := set_parents rest top in
            if decide (candidate = rule_root cx) then st_ret (inl (or_reachable true top :: stack, answer))
            else
              known ⇐ wk_get (λ w, walk_reachable w !! candidate);
              match known with
              | Some b => st_ret (inl (or_reachable b top :: stack, answer))
              | None =>
                  visiting ⇐ wk_get (λ w, bool_decide (candidate ∈ walk_visiting w));
                  if visiting : bool then st_ret (inl (or_cycle_break true top :: stack, answer))
                  else frame ⇐ open_frame candidate; st_ret (inl (frame :: top :: stack, answer))
              end
        end
  end.

Definition is_reachable (e : EncodedTerm) : walkm bool :=
  if decide (e = rule_root cx) then st_ret true
  else
    known ⇐ wk_get (λ w, walk_reachable w !! e);
    match known with
    | Some b => st_ret b
    | None =>
        visiting ⇐ wk_get (λ w, bool_decide (e ∈ walk_visiting w));
        if visiting : bool then st_ret false
        else
          frame ⇐ open_frame e;
          r ⇐ st_loop (S (S (walk_bound cx)) * S (S (walk_bound cx))) reach_step ([frame], false);
          match r with inr answer => st_ret answer | inl _ => wk_panic end
    end.

Fixpoint find_orphan (candidates : list EncodedTerm) : walkm (option EncodedTerm) :=
  match candidates with
  | [] => st_ret None
  | e :: candidates =>
      if decide (e = rule_root cx) then find_orphan candidates
      else
        data ⇐ is_data_entity e;
        orphan ⇐ (if data : bool then b ⇐ is_reachable e; st_ret (negb b) else st_ret false);
        if orphan : bool then st_ret (Some e) else find_orphan candidates
  end.
Definition first_orphan : walkm (option EncodedTerm) :=
  below ⇐ st_fold collect_descendants ∅ (btree_elems (reachability_seeds (summary cx)));
  find_orphan (btree_elems (reachability_probes (summary cx) ∪ below)).
End walk.

(** ** The orphans of a snapshot *)

Record EntityScan := { entities : gset EncodedTerm; parts : gmap EncodedTerm (list EncodedTerm) }.
Definition note_other (root e : EncodedTerm) (X : gset EncodedTerm) : gset EncodedTerm :=
  if decide (e = root) then X else {[e]} ∪ X.
Definition typed_entities (root : EncodedTerm) (l : list Triple) : gset EncodedTerm :=
  list_to_set ((λ t : Triple, t.1.1) <$> filter (λ t : Triple,
    t.1.2 = RDF_TYPE ∧ (t.2 = SCHEMA_MEDIA_OBJECT ∨ t.2 = SCHEMA_DATASET) ∧ t.1.1 ≠ root) l).
Definition part_row (root : EncodedTerm) (acc : EntityScan) (t : Triple) : EntityScan :=
  let '(s, p, o) := t in
  if decide (p = SCHEMA_HAS_PART) then
    {| parts := <[s := (default [] (parts acc !! s) ++ [o])%list]> (parts acc);
       entities := note_other root o (note_other root s (entities acc)) |}
  else acc.
Definition scan_entities (root : EncodedTerm) (l : list Triple) : EntityScan :=
  foldl (part_row root) {| entities := typed_entities root l; parts := ∅ |} l.

(** [None] stands for a walk that does not end. *)
Definition orphaned_data_entities (post : GraphSnapshot) : option (gset EncodedTerm) :=
  let scan := scan_entities (root post) (triples post) in
  if decide (entities scan = ∅) then Some ∅
  else
    (λ reached : gset EncodedTerm, entities scan ∖ reached) <$>
      walk (S (length (triples post))) (parts scan) {[root post]} [root post].

(** ** The rules *)

Inductive RuleId := Root | Descriptor | RequiredProperties | DatePublished | EntityType | Reachability.
#[export] Instance rule_id_eq_dec : EqDecision RuleId.
Proof. solve_decision. Defined.
Definition ROCRATE_RULES : list RuleId := [Root; Descriptor; RequiredProperties; DatePublished; EntityType; Reachability].
Definition rule_plan (version : RoCrateVersion) : list RuleId :=
  match version with V1_1 => ROCRATE_RULES | V1_2 => ROCRATE_RULES | V1_3 => ROCRATE_RULES end.

Inductive CandidateCheck := Pass | Violated (violation : CrateViolation) | NeedSnapshot.

Section rules.
Context `{Blake3}.

(** The trait [Rule]. *)
Record Rule := {
  rule_id : option RuleId;
  check_candidate : RuleContext → readm CandidateCheck;
  check_post_state : GraphSnapshot → outcome CrateViolation ();
}.

Definition RootEntityRule : Rule := {|
  rule_id := Some Root;
  check_candidate cx :=
    if negb (delta_is_empty cx) && negb (touches_root_dataset (summary cx)) then st_ret Pass
    else
      b ⇐ triple_exists cx (rule_root cx) RDF_TYPE SCHEMA_DATASET;
      st_ret (if b : bool then Pass else Violated (CrateViolation.missing_root ""));
  check_post_state post :=
    if negb (has_triple post (root post) RDF_TYPE SCHEMA_DATASET) then Err (CrateViolation.missing_root "") else Ok ();
|}.

Definition MetadataDescriptorRule : Rule := {|
  rule_id := Some Descriptor;
  check_candidate cx :=
    if negb (delta_is_empty cx) && negb (touches_metadata_descriptor (summary cx)) then st_ret Pass
    else
      has_type ⇐ triple_exists cx METADATA_DESCRIPTOR RDF_TYPE SCHEMA_CREATIVE_WORK;
      has_about ⇐ triple_exists cx METADATA_DESCRIPTOR SCHEMA_ABOUT (rule_root cx);
      st_ret (if has_type && has_about then Pass else Violated (CrateViolation.missing_descriptor ""));
  check_post_state post :=
    let has_type := has_triple post METADATA_DESCRIPTOR RDF_TYPE SCHEMA_CREATIVE_WORK in
    let has_about := has_triple post METADATA_DESCRIPTOR SCHEMA_ABOUT (root post) in
    if negb has_type || negb has_about then Err (CrateViolation.missing_descriptor "") else Ok ();
|}.

Fixpoint check_required (cx : RuleContext) (l : list ((EncodedTerm * string) * bool)) : readm CandidateCheck :=
  match l with
  | [] => st_ret Pass
  | ((predicate, label), touched) :: l =>
      if negb (delta_is_empty cx) && negb touched then check_required cx l
      else
        b ⇐ has_subject_predicate cx (rule_root cx) predicate;
        if b : bool then check_required cx l
        else st_ret (Violated (CrateViolation.missing_property (rule_graph cx) label ""))
  end.
Definition RequiredRootRule : Rule := {|
  rule_id := Some RequiredProperties;
  check_candidate cx :=
    if negb (delta_is_empty cx) && negb (touches_required_root (summary cx)) then st_ret Pass
    else check_required cx (zip REQUIRED_ROOT_PROPERTIES (required_root_hits (summary cx)));
  check_post_state post :=
    match list_find (λ required, count_sp post (root post) required.1 < 1) REQUIRED_ROOT_PROPERTIES with
    | Some (_, (_, label)) => Err (CrateViolation.missing_property (snapshot_graph post) label "")
    | None => Ok ()
    end;
|}.

Definition PublishedCardinalityRule : Rule := {|
  rule_id := Some DatePublished;
  check_candidate cx :=
    let touched := default false (required_root_hits (summary cx) !! DATE_PUBLISHED_SLOT) in
    if negb (delta_is_empty cx) && negb touched then st_ret Pass
    else
      count ⇐ rule_count cx (rule_root cx) SCHEMA_DATE_PUBLISHED;
      st_ret (if bool_decide (count = 1) then Pass else Violated (CrateViolation.invalid_date count ""));
  check_post_state post :=
    let count := count_sp post (root post) SCHEMA_DATE_PUBLISHED in
    if decide (count ≠ 1) then Err (CrateViolation.invalid_date count "") else Ok ();
|}.

(** The subjects that can newly be untyped. *)
Fixpoint untyped_candidates (cx : RuleContext) (inserted : list EncodedTerm) (candidates : gset EncodedTerm)
    : readm (gset EncodedTerm) :=
  match inserted with
  | [] => st_ret candidates
  | s :: inserted =>
      existed ⇐ subject_existed_before cx s;
      untyped_candidates cx inserted (if existed : bool then candidates else {[s]} ∪ candidates)
  end.
Fixpoint check_typed (cx : RuleContext) (candidates : list EncodedTerm) : readm CandidateCheck :=
  match candidates with
  | [] => st_ret Pass
  | s :: candidates =>
      there ⇐ subject_has_triples cx s;
      if negb there then check_typed cx candidates
      else
        typed ⇐ has_subject_predicate cx s RDF_TYPE;
        if typed : bool then check_typed cx candidates else st_ret (Violated (CrateViolation.missing_type s ""))
  end.
Definition EntityTypeRule : Rule := {|
  rule_id := Some EntityType;
  check_candidate cx :=
    if delta_is_empty cx then st_ret NeedSnapshot
    else
      candidates ⇐ untyped_candidates cx (btree_elems (inserted_subjects (summary cx)))
                     (type_changed_subjects (summary cx));
      check_typed cx (btree_elems candidates);
  check_post_state post :=
    let typed : gset EncodedTerm :=
      list_to_set ((λ t : Triple, t.1.1) <$> filter (λ t : Triple, t.1.2 = RDF_TYPE) (triples post)) in
    match list_find (λ t : Triple, t.1.1 ∉ typed) (triples post) with
    | Some (_, t) => Err (CrateViolation.missing_type t.1.1 "")
    | None => Ok ()
    end;
|}.

Definition ReachabilityRule : Rule := {|
  rule_id := Some Reachability;
  check_candidate cx :=
    if delta_is_empty cx then st_ret NeedSnapshot
    else if negb (touches_reachability (summary cx)) then st_ret Pass
    else λ c,
      let '((c, _), r) := first_orphan cx (c, new_walk) in
      (c, (λ o, match o with Some e => Violated (CrateViolation.orphaned e "") | None => Pass end) <$> r);
  check_post_state post :=
    match orphaned_data_entities post with
    | None => Panic
    | Some orphans =>
        match btree_elems orphans with [] => Ok () | e :: _ => Err (CrateViolation.orphaned e "") end
    end;
|}.

Definition default_rules : list Rule :=
  [RootEntityRule; MetadataDescriptorRule; RequiredRootRule; PublishedCardinalityRule; EntityTypeRule; ReachabilityRule].

(** ** Validation *)

Inductive RuleEvaluationError := RuleStore (e : StoreError) | Violations (violations : list CrateViolation).

(** A rule with an identifier runs when the plan of the profile has it. *)
Definition rule_applies (plan : option (list RuleId)) (rule : Rule) : bool :=
  match rule_id rule with
  | None => true
  | Some id => match plan with Some plan => bool_decide (id ∈ plan) | None => false end
  end.

Fixpoint run_rules (cx : RuleContext) (materialize : readm GraphSnapshot) (plan : option (list RuleId))
    (rules : list Rule) (post : option GraphSnapshot) (violations : list CrateViolation) : readm (list CrateViolation) :=
  match rules with
  | [] => st_ret violations
  | rule :: rules =>
      if negb (rule_applies plan rule) then run_rules cx materialize plan rules post violations
      else
        check ⇐ check_candidate rule cx;
        match check with
        | Pass => run_rules cx materialize plan rules post violations
        | Violated violation => run_rules cx materialize plan rules post (violations ++ [violation])%list
        | NeedSnapshot =>
            snapshot ⇐ match post with Some post => st_ret post | None => materialize end;
            match check_post_state rule snapshot with
            | Ok _ => run_rules cx materialize plan rules (Some snapshot) violations
            | Err violation => run_rules cx materialize plan rules (Some snapshot) (violations ++ [violation])%list
            | Panic => st_panic
            end
        end
  end.

Definition post_state_after (cx : RuleContext) : readm GraphSnapshot := from_read_view (rule_view cx) (rule_graph cx).
(** [GraphSnapshot::from_store] opens its own view and context. *)
Definition from_store (store : StoreReadView) (graph : GraphId) : outcome StoreError GraphSnapshot :=
  (from_read_view store graph (for_validation graph None)).2.

Definition rule_context (store : StoreReadView) (graph : GraphId) (ix : DeltaIndex) (s : DeltaSummary) : RuleContext :=
  {| rule_view := {| base := store; index := ix |}; rule_graph := graph; summary := s |}.

Definition validate_change_set (rules : list Rule) (store : StoreReadView) (graph : GraphId)
    (delta : list MaterializedQuadChange) : outcome RuleEvaluationError () :=
  ix ← map_err RuleStore (delta_build (sn_store (snapshot store)) graph delta);
  let cx := rule_context store graph ix (summarize_delta graph delta) in
  let check : readm (list CrateViolation) :=
    profile ⇐ (if existsb (λ rule, bool_decide (is_Some (rule_id rule))) rules then profile_from_view cx else st_ret None);
    run_rules cx (post_state_after cx) (rule_plan <$> profile) rules None [] in
  violations ← map_err RuleStore (check (for_validation graph None)).2;
  match violations with [] => Ok () | _ => Err (Violations violations) end.

Definition post_merge_violations (store : StoreReadView) (graph : GraphId) : outcome StoreError (list CrateViolation) :=
  ix ← delta_build (sn_store (snapshot store)) graph [];
  let cx := rule_context store graph ix summary_default in
  let check : readm (list CrateViolation) :=
    profile ⇐ profile_from_view cx;
    run_rules cx (st_lift (from_store store graph)) (rule_plan <$> profile) default_rules None [] in
  (check (for_validation graph None)).2.
End rules.
