(* ===== verification/CrateViews.v ===== *)
(** * A crate behind its views

    The triples a graph holds as text, and what the reads of a rule
    ([RuleContext], [GraphSnapshot]) answer of them: a look-up, an existence
    test, a count, the ends of [hasPart] edges and the snapshot of the graph,
    through any view that keeps the interface [CrateView]. *)

From S2P Require Import Prelude Clock Terms Store Codec QueryView IndexUpdate Transitions Replication Convergence.
From S2P Require Import LocalWrites IndexMirror Orphans Cursors Reads ReadRules Answers DeltaAnswers ViewRows CrateRules.
#[local] Open Scope craqle_scope.

(** ** Triples as text *)

Section texts.
Context `{Blake3} (term_of : TermId → option EncodedTerm).

Definition triple_of (q : EncodedQuad) : option Triple :=
  match term_of (quad_subject q), term_of (quad_predicate q), term_of (quad_object q) with
  | Some s, Some p, Some o => Some (s, p, o)
  | _, _, _ => None
  end.
Definition said (rows : gset EncodedQuad) : gset Triple := set_omap triple_of rows.

(** No other term has the digest of the text. *)
Definition spelled (t : EncodedTerm) : Prop := ∀ t', term_of (hash_term t) = Some t' → t' = t.
Definition hashed : Prop := ∀ x t, term_of x = Some t → hash_term t = x.

Lemma triple_of_Some q s p o :
  triple_of q = Some (s, p, o) ↔
  term_of (quad_subject q) = Some s ∧ term_of (quad_predicate q) = Some p ∧ term_of (quad_object q) = Some o.
Proof. unfold triple_of. repeat case_match; naive_solver. Qed.

Lemma elem_of_said rows s p o :
  (s, p, o) ∈ said rows ↔ ∃ q, q ∈ rows ∧ term_of (quad_subject q) = Some s ∧ term_of (quad_predicate q) = Some p ∧
                                term_of (quad_object q) = Some o.
Proof. unfold said. rewrite elem_of_set_omap. setoid_rewrite triple_of_Some. done. Qed.

Lemma hashed_spelled x t : hashed → term_of x = Some t → spelled t.
Proof. intros Hh Ht t' Ht'. rewrite (Hh _ _ Ht) in Ht'. congruence. Qed.

Lemma said_spelled rows s p o : hashed → (s, p, o) ∈ said rows → spelled s ∧ spelled p ∧ spelled o.
Proof. intros Hh (q & _ & Hs & Hp & Ho)%elem_of_said. split_and!; by eapply hashed_spelled. Qed.

Context (graph : TermId) (rows : gset EncodedQuad).
Context (Hhash : hashed).
Context (Hknown : ∀ q, q ∈ rows → is_Some (term_of (quad_subject q)) ∧ is_Some (term_of (quad_predicate q)) ∧
                                  is_Some (term_of (quad_object q))).

Lemma row_said q : q ∈ rows → ∃ s p o, triple_of q = Some (s, p, o) ∧ (s, p, o) ∈ said rows.
Proof.
  intros Hq. destruct (Hknown q Hq) as ([s Hs] & [p Hp] & [o Ho]). exists s, p, o. rewrite triple_of_Some. split; [done|].
  apply elem_of_said. eauto.
Qed.

(** A row that names a spelled term says it. *)
Lemma named x t : spelled t → is_Some (term_of x) → x = hash_term t ↔ term_of x = Some t.
Proof.
  intros Ht [t' Hx]. split; [|intros Hx'; by rewrite (Hhash _ _ Hx')]. intros ->. rewrite Hx. f_equal. by apply Ht.
Qed.

(** The rows that match by subject, predicate and object. *)
Lemma matching_said s p o :
  spelled s → from_option spelled True p → from_option spelled True o →
  (∃ q, q ∈ rows ∧ matches (spo (Some (hash_term s)) (hash_term <$> p) (hash_term <$> o)) q = true) ↔
  ∃ p' o', (s, p', o') ∈ said rows ∧ (∀ t, p = Some t → p' = t) ∧ (∀ t, o = Some t → o' = t).
Proof.
  intros Hs Hp Ho. setoid_rewrite elem_of_said. setoid_rewrite matches_true. unfold spo. cbn. split.
  - intros (q & Hq & _ & Ms & Mp & Mo). destruct (Hknown q Hq) as (Ks & [p' Kp] & [o' Ko]). exists p', o'. split_and!.
    + exists q. split_and!; [done| |done..]. apply named; [done..|]. symmetry. by apply Ms.
    + intros t ->. cbn in Mp, Hp. pose proof (Mp _ eq_refl) as Mq. rewrite <- Mq in Kp. by apply Hp.
    + intros t ->. cbn in Mo, Ho. pose proof (Mo _ eq_refl) as Mq. rewrite <- Mq in Ko. by apply Ho.
  - intros (p' & o' & (q & Hq & Ks & Kp & Ko) & Ep & Eo). exists q. split; [done|]. split; [done|].
    split_and!; intros x; rewrite ?fmap_Some.
    + intros [= <-]. by apply Hhash.
    + intros (t & -> & ->). rewrite (Ep t eq_refl) in Kp. by apply Hhash.
    + intros (t & -> & ->). rewrite (Eo t eq_refl) in Ko. by apply Hhash.
Qed.
End texts.

(** [x] has part [y]. *)
Definition has_part (T : gset Triple) : relation EncodedTerm := λ x y, (x, SCHEMA_HAS_PART, y) ∈ T.

(** A snapshot of the graph: its triples, each once. *)
Record snapshot_of (graph : GraphId) (T : gset Triple) (post : GraphSnapshot) : Prop := {
  so_graph : snapshot_graph post = graph;
  so_nodup : NoDup (triples post);
  so_triples t : t ∈ triples post ↔ t ∈ T;
}.

(** The objects of a subject and predicate, and their number as a [usize]. *)
Definition objects (T : gset Triple) (s p : EncodedTerm) : gset Triple := filter (λ t, t.1 = (s, p)) T.
Definition counted (n : nat) : nat := N.to_nat (N.min (N.of_nat n) u64_max).

(** ** Views of a crate *)

(** A view whose rows of the graph are known as text. *)
Class CrateView `{Blake3} {V : Type} `{RdfReadView V} (view : V) (sn : Snapshot) (scope : GraphVisibility)
    (validating : option TermId) (graph : TermId) (rows : gset EncodedQuad) (term_of : TermId → option EncodedTerm)
    : Prop := {
  cv_rows :: RowsView view sn scope validating graph rows term_of;
  cv_hash : hashed term_of;
  cv_graph q : q ∈ rows → quad_graph q = graph ∧ is_Some (term_of graph);
  cv_lookup t : spelled term_of t →
    reads sn scope validating (view_lookup_term view t) (λ o, o = (λ _, hash_term t) <$> term_of (hash_term t));
}.

Section view.
Context `{Blake3} {V : Type} `{RdfReadView V} (view : V) (sn : Snapshot) (scope : GraphVisibility).
Context (validating : option TermId) (rows : gset EncodedQuad) (term_of : TermId → option EncodedTerm) (graph : GraphId).
Context `{Hview : !CrateView view sn scope validating (gid graph) rows term_of} (Hbytes : digest_bytes).

#[local] Abbreviation reads := (reads sn scope validating) (only parsing).
Let T := said term_of rows.
Let Hhash : hashed term_of := cv_hash (view := view).
Let Hknown q : q ∈ rows → is_Some (term_of (quad_subject q)) ∧ is_Some (term_of (quad_predicate q)) ∧
                          is_Some (term_of (quad_object q)) := rv_known (view := view) q.

Lemma spo_fit (s p o : option EncodedTerm) : pattern_fit (spo (hash_term <$> s) (hash_term <$> p) (hash_term <$> o)).
Proof. unfold pattern_fit. rewrite !Forall_cons. split_and!; [done| | | |done]; destruct s, p, o; cbn; by try apply hash_term_fit. Qed.

(** A term that is not known is in no triple. *)
Lemma unsaid s p o : (s, p, o) ∈ T → is_Some (term_of (hash_term s)) ∧ is_Some (term_of (hash_term p)) ∧ is_Some (term_of (hash_term o)).
Proof.
  intros (q & _ & Hs & Hp & Ho)%elem_of_said. rewrite (Hhash _ _ Hs), (Hhash _ _ Hp), (Hhash _ _ Ho). split_and!; by eexists.
Qed.

(** The snapshot. *)
Lemma read_triples_reads fuel c l acc :
  length l < fuel → pending sn scope validating c l → (∀ q, q ∈ l → q ∈ rows) →
  reads (read_triples fuel view c acc) (λ k, ∃ ts, k = acc ++ ts ∧ Forall2 (λ q t, triple_of term_of q = Some t) l ts).
Proof.
  pose proof (av_sound (view := view)) as Hs. revert c l acc. induction fuel as [|fuel IH]; intros c l acc Hf Hc Hl; [lia|].
  cbn [read_triples]. eapply reads_bind; [apply cursor_next_read; [apply Hs..|exact Hc]|]. intros [q c'] [Hq Hc'].
  cbn [fst snd] in *. subst q. destruct l as [|q l]; cbn [head tail length] in *.
  { apply reads_ret. exists []. by rewrite app_nil_r. }
  destruct (row_said term_of rows Hknown q (Hl q ltac:(by left))) as (s & p & o & Ht & _).
  pose proof Ht as (Ks & Kp & Ko)%triple_of_Some.
  eapply reads_bind; [by apply (rv_decode (view := view))|]. intros ? ->.
  eapply reads_bind; [by apply (rv_decode (view := view))|]. intros ? ->.
  eapply reads_bind; [by apply (rv_decode (view := view))|]. intros ? ->.
  eapply reads_weaken; [apply (IH c' l); [lia|done|intros; apply Hl; by right]|]. intros k (ts & -> & Hts).
  exists ((s, p, o) :: ts). rewrite <- app_assoc. split; [done|]. by constructor.
Qed.

Lemma triples_nodup l ts :
  (∀ q, q ∈ l → q ∈ rows) → NoDup l → Forall2 (λ q t, triple_of term_of q = Some t) l ts → NoDup ts.
Proof.
  intros Hg Hnd Hts. induction Hts as [|q [[s p] o] l ts Hq Hts IH]; [constructor|]. apply NoDup_cons in Hnd as [Hq' Hnd].
  constructor; [|apply IH; [intros; apply Hg; by right|done]]. intros Hin. apply Hq'.
  destruct (proj1 (list_elem_of_lookup _ _) Hin) as (i & Hi). destruct (Forall2_lookup_r _ _ _ _ _ Hts Hi) as (q' & Hq2 & Ht).
  apply list_elem_of_lookup_2 in Hq2. pose proof (cv_graph (view := view) q (Hg q ltac:(by left))) as [G1 _].
  pose proof (cv_graph (view := view) q' (Hg q' ltac:(by right))) as [G2 _].
  apply triple_of_Some in Hq as (S1 & P1 & O1), Ht as (S2 & P2 & O2). assert (q = q') as ->; [|done].
  apply Hhash in S1, P1, O1, S2, P2, O2. destruct q, q'; cbn in *. congruence.
Qed.

Lemma from_read_view_reads : spelled term_of (graph_root graph) → reads (from_read_view view graph) (snapshot_of graph T).
Proof.
  intros Hg. unfold from_read_view. eapply reads_bind; [by apply (cv_lookup (view := view))|]. intros ? ->.
  change (hash_term (from_named_node graph)) with (gid graph). destruct (term_of (gid graph)) as [tg|] eqn:Eg; cbn [fmap option_fmap option_map].
  2: { apply reads_ret. split; [done|constructor|]. intros [[s p] o]. cbn. split; [by intros ?%elem_of_nil|].
       intros (q & Hq & _)%elem_of_said. apply (cv_graph (view := view)) in Hq as [_ Hq]. rewrite Eg in Hq. by destruct Hq. }
  eapply reads_bind; [apply (av_scan (view := view)); by repeat constructor|]. intros c (l & Hc & Hnd & Hl).
  assert (∀ q, q ∈ l → q ∈ rows) as Hin by (intros q Hq; by apply Hl).
  pose proof (pending_length _ _ _ _ _ Hc). eapply reads_bind; [by apply (read_triples_reads _ c l); [lia|..]|].
  intros k (ts & -> & Hts). apply reads_ret. cbn [app]. split; cbn; [done|by eapply triples_nodup|]. intros [[s p] o]. split.
  - intros (i & Hi)%list_elem_of_lookup. destruct (Forall2_lookup_r _ _ _ _ _ Hts Hi) as (q & Hq%list_elem_of_lookup_2 & Ht).
    apply elem_of_said. exists q. split; [by apply Hin|]. by apply triple_of_Some.
  - intros (q & Hq & Hq')%elem_of_said. assert (q ∈ l) as (i & Hi)%list_elem_of_lookup by (apply Hl; by destruct q).
    destruct (Forall2_lookup_l _ _ _ _ _ Hts Hi) as (t & Ht & E). apply triple_of_Some in Hq'. rewrite Hq' in E.
    injection E as <-. by apply list_elem_of_lookup_2 in Ht.
Qed.
End view.

(** ** The reads of a rule *)

Section rule.
Context `{Blake3} (cx : RuleContext) (sn : Snapshot) (scope : GraphVisibility) (validating : option TermId).
Context (rows : gset EncodedQuad) (term_of : TermId → option EncodedTerm).
Let graph : GraphId := rule_graph cx.
Context `{Hview : !CrateView (rule_view cx) sn scope validating (gid graph) rows term_of} (Hbytes : digest_bytes).
Context (Hgraph : delta_graph (index (rule_view cx)) = gid graph).

#[local] Abbreviation reads := (reads sn scope validating) (only parsing).
Let view : DeltaReadView := rule_view cx.
Let T := said term_of rows.
Let Hhash : hashed term_of := cv_hash (view := view).
Let Hknown q : q ∈ rows → is_Some (term_of (quad_subject q)) ∧ is_Some (term_of (quad_predicate q)) ∧
                          is_Some (term_of (quad_object q)) := rv_known (view := view) q.

Lemma exists_reads s p o :
  spelled term_of s → from_option (spelled term_of) True p → from_option (spelled term_of) True o →
  reads (exists_row view (view_graph cx) (spo (Some (hash_term s)) (hash_term <$> p) (hash_term <$> o)))
    (λ b, b = true ↔ ∃ p' o', (s, p', o') ∈ T ∧ (∀ t, p = Some t → p' = t) ∧ (∀ t, o = Some t → o' = t)).
Proof.
  intros Hs Hp Ho. unfold view_graph. rewrite Hgraph. eapply reads_weaken.
  { apply (rv_exists (view := view) (rows := rows)). by apply (spo_fit Hbytes (Some s) p o). }
  intros b ->. by apply matching_said.
Qed.

(** A look-up that finds nothing answers for a term without triples. *)
Lemma lookup_reads {A} t (f : option TermId → readm A) (P : A → Prop) :
  spelled term_of t →
  (is_Some (term_of (hash_term t)) → reads (f (Some (hash_term t))) P) →
  (term_of (hash_term t) = None → reads (f None) P) →
  reads (o ⇐ view_lookup_term view t; f o) P.
Proof.
  intros Ht Hs Hn. eapply reads_bind; [by apply (cv_lookup (view := view))|]. intros ? ->.
  destruct (term_of (hash_term t)) eqn:E; cbn; [apply Hs; by eexists|by apply Hn].
Qed.

Ltac unknown :=
  apply reads_ret; first [split; [done|]|intros ?; split; [by intros ?%elem_of_empty|]]; unfold has_part; intros; exfalso;
  repeat match goal with HT : ∃ _, _ |- _ => destruct HT as [? HT] end;
  match goal with HT : _ ∈ T |- _ =>
    apply (unsaid view sn scope validating rows term_of graph) in HT as ([? ?] & [? ?] & [? ?]); congruence end.

Lemma triple_exists_reads s p o :
  spelled term_of s → spelled term_of p → spelled term_of o →
  reads (triple_exists cx s p o) (λ b, b = true ↔ (s, p, o) ∈ T).
Proof.
  intros Hs Hp Ho. assert ((∃ p' o', (s, p', o') ∈ T ∧ (∀ t, Some p = Some t → p' = t) ∧ (∀ t, Some o = Some t → o' = t)) ↔ (s, p, o) ∈ T) as Hex.
  { split; [|by intros HT; exists p, o; split_and!; [done|by intros ? [= <-]..]].
    intros (p' & o' & HT & Ep & Eo). by rewrite (Ep _ eq_refl), (Eo _ eq_refl) in HT. }
  unfold triple_exists. fold view. apply lookup_reads; [done| |]; intros Ks.
  - apply lookup_reads; [done| |]; intros Kp.
    + apply lookup_reads; [done| |]; intros Ko.
      * eapply reads_weaken; [by apply (exists_reads s (Some p) (Some o))|]. intros b ->. exact Hex.
      * unknown.
    + apply lookup_reads; [done| |]; intros ?; unknown.
  - do 2 (apply lookup_reads; [done| |]; intros ?); unknown.
Qed.

Lemma has_subject_predicate_reads s p :
  spelled term_of s → spelled term_of p → reads (has_subject_predicate cx s p) (λ b, b = true ↔ ∃ o, (s, p, o) ∈ T).
Proof.
  intros Hs Hp. unfold has_subject_predicate. fold view. apply lookup_reads; [done| |]; intros Ks.
  - apply lookup_reads; [done| |]; intros Kp.
    + eapply reads_weaken; [by apply (exists_reads s (Some p) None)|]. intros b ->. split.
      * intros (p' & o & HT & Ep & _). exists o. by rewrite (Ep _ eq_refl) in HT.
      * intros (o & HT). exists p, o. split_and!; [done|by intros ? [= <-]|done].
    + unknown.
  - apply lookup_reads; [done| |]; intros ?; unknown.
Qed.

Lemma subject_has_triples_reads s :
  spelled term_of s → reads (subject_has_triples cx s) (λ b, b = true ↔ ∃ p o, (s, p, o) ∈ T).
Proof.
  intros Hs. unfold subject_has_triples. fold view. apply lookup_reads; [done| |]; intros Ks.
  - eapply reads_weaken; [by apply (exists_reads s None None)|]. intros b ->. naive_solver.
  - unknown.
Qed.

(** What a column of the rows that match says. *)
Lemma read_column_reads column fuel c l X :
  length l < fuel → pending sn scope validating c l → (∀ q, q ∈ l → is_Some (term_of (column q))) →
  reads (read_column cx fuel column c X) (λ Y, ∀ t, t ∈ Y ↔ t ∈ X ∨ ∃ q, q ∈ l ∧ term_of (column q) = Some t).
Proof.
  pose proof (av_sound (view := view)) as Hsn. revert c l X. induction fuel as [|fuel IH]; intros c l X Hf Hc Hl; [lia|].
  cbn [read_column]. eapply reads_bind; [apply cursor_next_read; [apply Hsn..|exact Hc]|]. intros [q c'] [Hq Hc'].
  cbn [fst snd] in *. subst q. destruct l as [|q l]; cbn [head tail length] in *.
  { apply reads_ret. intros t. split; [by left|]. by intros [?|(q & ?%elem_of_nil & _)]. }
  destruct (Hl q ltac:(by left)) as [t Ht]. eapply reads_bind; [by apply (rv_decode (view := view))|]. intros ? ->.
  eapply reads_weaken; [apply (IH c' l); [lia|done|intros; apply Hl; by right]|]. cbv beta. intros Y HY t'.
  rewrite HY, elem_of_union, elem_of_singleton. setoid_rewrite elem_of_cons. naive_solver.
Qed.

Lemma scan_column_said column p :
  pattern_fit p → (∀ q, q ∈ rows → is_Some (term_of (column q))) →
  reads (c ⇐ scan view (view_graph cx) p; read_column cx (S (cursor_len c)) column c ∅)
    (λ Y, ∀ t, t ∈ Y ↔ ∃ q, q ∈ rows ∧ matches p q = true ∧ term_of (column q) = Some t).
Proof.
  intros Hp Hcol. unfold view_graph. rewrite Hgraph. eapply reads_bind; [by apply (av_scan (view := view))|].
  intros c (l & Hc & _ & Hl). pose proof (pending_length _ _ _ _ _ Hc). eapply reads_weaken.
  { apply (read_column_reads column _ _ l); [lia|done|]. intros q Hq. apply Hcol. by apply Hl. }
  cbv beta. intros Y HY t. rewrite HY, elem_of_empty. setoid_rewrite Hl. naive_solver.
Qed.

Lemma children_reads s :
  spelled term_of SCHEMA_HAS_PART → spelled term_of s → reads (children cx s) (λ X, ∀ y, y ∈ X ↔ has_part T s y).
Proof.
  intros Hp Hs. unfold children. fold view. apply lookup_reads; [done| |]; intros Ks.
  - apply lookup_reads; [done| |]; intros Kp.
    + eapply reads_weaken; [apply scan_column_said; [by apply (spo_fit Hbytes (Some s) (Some SCHEMA_HAS_PART) None)|by intros q Hq; apply Hknown]|].
      cbv beta. intros X HX y. rewrite HX. unfold has_part, T. rewrite elem_of_said. setoid_rewrite matches_true. cbn. split.
      * intros (q & Hq & (_ & Ms & Mp & _) & Ky). exists q. destruct (Hknown q Hq) as (? & ? & _).
        split_and!; [done| | |done]; (apply named; [done..|]); symmetry; auto.
      * intros (q & Hq & K1 & K2 & Ky). exists q. split_and!; [done|done| | |done|done]; intros ? [= <-]; by apply Hhash.
    + unknown.
  - apply lookup_reads; [done| |]; intros ?; unknown.
Qed.

Lemma parents_reads o :
  spelled term_of SCHEMA_HAS_PART → spelled term_of o → reads (parents cx o) (λ X, ∀ x, x ∈ X ↔ has_part T x o).
Proof.
  intros Hp Hs. unfold parents. fold view. apply lookup_reads; [done| |]; intros Kp.
  - apply lookup_reads; [done| |]; intros Ks.
    + eapply reads_weaken; [apply scan_column_said; [by apply (spo_fit Hbytes None (Some SCHEMA_HAS_PART) (Some o))|by intros q Hq; apply Hknown]|].
      cbv beta. intros X HX x. rewrite HX. unfold has_part, T. rewrite elem_of_said. setoid_rewrite matches_true. cbn. split.
      * intros (q & Hq & (_ & _ & Mp & Mo) & Kx). exists q. destruct (Hknown q Hq) as (_ & ? & ?).
        split_and!; [done|done| |]; (apply named; [done..|]); symmetry; auto.
      * intros (q & Hq & K1 & K2 & Ky). exists q. split_and!; [done|done|done| | |done]; intros ? [= <-]; by apply Hhash.
    + unknown.
  - apply lookup_reads; [done| |]; intros ?; unknown.
Qed.

Lemma said_list l : (∀ q, q ∈ l → q ∈ rows) → ∃ ts, Forall2 (λ q t, triple_of term_of q = Some t) l ts.
Proof.
  induction l as [|q l IH]; intros Hl; [by exists []|]. destruct IH as (ts & Hts); [intros; apply Hl; by right|].
  destruct (row_said term_of rows Hknown q (Hl q ltac:(by left))) as (s & p & o & Ht & _). exists ((s, p, o) :: ts). by constructor.
Qed.

Lemma objects_size s p l :
  spelled term_of s → spelled term_of p → NoDup l →
  (∀ q, q ∈ l ↔ q ∈ rows ∧ matches (spo (Some (hash_term s)) (Some (hash_term p)) None) q = true) →
  length l = size (objects T s p).
Proof.
  intros Hs Hp Hnd Hl. assert (∀ q, q ∈ l → q ∈ rows) as Hin by (intros q Hq; by apply Hl).
  destruct (said_list l Hin) as (ts & Hts). rewrite (Forall2_length _ _ _ Hts).
  rewrite <- (size_list_to_set (C := gset Triple) ts)
    by exact (triples_nodup view sn scope validating rows term_of graph l ts Hin Hnd Hts).
  f_equal. apply set_eq. intros [[s' p'] o']. unfold objects. rewrite elem_of_list_to_set, elem_of_filter. cbn. split.
  - intros (i & Hi)%list_elem_of_lookup. destruct (Forall2_lookup_r _ _ _ _ _ Hts Hi) as (q & Hq%list_elem_of_lookup_2 & Ht).
    apply triple_of_Some in Ht. apply Hl in Hq as (Hq & (_ & Ms & Mp & _)%matches_true). cbn in Ms, Mp. split.
    + destruct Ht as (K1 & K2 & _). rewrite <- (Ms _ eq_refl) in K1. rewrite <- (Mp _ eq_refl) in K2.
      by rewrite (Hs _ K1), (Hp _ K2).
    + apply elem_of_said. by exists q.
  - intros [[= -> ->] (q & Hq & K1 & K2 & K3)%elem_of_said].
    assert (q ∈ l) as (i & Hi)%list_elem_of_lookup.
    { apply Hl. split; [done|]. apply matches_true. cbn. split_and!; [done| | |done]; intros ? [= <-]; by apply Hhash. }
    destruct (Forall2_lookup_l _ _ _ _ _ Hts Hi) as (t & Ht & E). assert (triple_of term_of q = Some (s, p, o')) as E' by by apply triple_of_Some.
    rewrite E' in E. injection E as <-. by apply list_elem_of_lookup_2 in Ht.
Qed.

Lemma rule_count_reads s p :
  spelled term_of s → spelled term_of p → reads (rule_count cx s p) (λ n, n = counted (size (objects T s p))).
Proof.
  intros Hs Hp. pose proof (av_sound (view := view)) as Hsn.
  assert (term_of (hash_term s) = None ∨ term_of (hash_term p) = None → counted (size (objects T s p)) = 0) as Hzero.
  { intros Hno. assert (objects T s p ≡ ∅) as ->%size_empty_iff; [|done]. intros [[s' p'] o']. unfold objects.
    rewrite elem_of_filter. split; [|by intros ?%elem_of_empty]. cbn. intros [[= -> ->] HT]. exfalso.
    apply (unsaid view sn scope validating rows term_of graph) in HT as ([? ?] & [? ?] & _). naive_solver congruence. }
  unfold rule_count. fold view. apply lookup_reads; [done| |]; intros Ks.
  - apply lookup_reads; [done| |]; intros Kp; [|apply reads_ret; rewrite Hzero; auto].
    unfold view_graph. rewrite Hgraph. eapply reads_bind.
    { apply count_up_to_read; [apply Hsn..|]. apply (av_scan (view := view) (rows := rows)).
      apply (spo_fit Hbytes (Some s) (Some p) None). }
    intros n (l & (Hnd & Hl) & ->). apply reads_ret. rewrite (objects_size s p l) by done. unfold counted. lia.
  - apply lookup_reads; [done| |]; intros Kp; apply reads_ret; rewrite Hzero; auto.
Qed.
End rule.

(** ** The two views *)

Section sound.
Context `{Blake3}.

(** The keyspace of terms is keyed by digest and holds every graph name. *)
Record crate_sound (st : Store) : Prop := {
  cs_rows : rows_sound st;
  cs_hash : hashed (λ x, terms st !! x);
  cs_graph q : q ∈ live_set st → is_Some (terms st !! quad_graph q);
}.

(** A change set's terms are keyed by digest, agree with the store's and hold
    those of each change of the graph. *)
Record texts_of (st : Store) (graph : GraphId) (delta : list MaterializedQuadChange)
    (ts : gmap TermId EncodedTerm) : Prop := {
  to_hash : hashed (λ x, ts !! x);
  to_base x t t' : ts !! x = Some t → terms st !! x = Some t' → t' = t;
  to_changes c t : c ∈ delta → change_graph c = graph → t ∈ change_terms c → ts !! hash_term t = Some t;
}.

Lemma remember_texts st graph delta ts term id ts' :
  texts_of st graph delta ts → remember_term st ts term = Ok (id, ts') →
  texts_of st graph delta ts' ∧ ts' !! hash_term term = Some term ∧ ts ⊆ ts'.
Proof.
  intros [Hh Hb Hc] Hr. pose proof (remember_term_id _ _ _ _ _ Hr) as ->.
  pose proof (remember_term_grows _ _ _ _ _ Hr) as [Hterm Hsub]. split_and!; [|done|done].
  unfold remember_term in Hr. apply bind_ok in Hr as (ts1 & Hts & (o & Ho & [= <-])%bind_ok).
  assert (ts1 = <[hash_term term := term]> ts) as ->.
  { destruct (ts !! hash_term term) eqn:E; [case_decide; [|done]|]; injection Hts as <-; [|done]. subst. by rewrite insert_id. }
  split.
  - intros x t. rewrite lookup_insert_Some. intros [[<- <-]|[_ Hx]]; [done|by apply Hh].
  - intros x t t'. rewrite lookup_insert_Some. intros [[<- <-]|[_ Hx]]; [|by eapply Hb].
    unfold lookup_term in Ho. intros Hx. rewrite Hx in Ho. by case_decide.
  - intros c t H1 H2 H3. by eapply lookup_weaken; [apply (Hc c)|].
Qed.

Lemma step_texts st graph rt pre ix c ix' :
  texts_of st graph pre (delta_terms ix) → delta_step st graph rt ix c = Ok ix' →
  texts_of st graph (pre ++ [c]) (delta_terms ix').
Proof.
  intros Ht Hstep. unfold delta_step in Hstep.
  assert (∀ ts, texts_of st graph pre ts → (change_graph c = graph → ∀ t, t ∈ change_terms c → ts !! hash_term t = Some t) →
    texts_of st graph (pre ++ [c]) ts) as Hsnoc.
  { intros ts [Hh Hb Hc] Hnew. split; [done..|]. intros c' t [Hc'| ->%list_elem_of_singleton]%elem_of_app; auto. by apply Hc. }
  destruct (match c with Insert g s p o => (g, s, p, o, true) | Delete g s p o => (g, s, p, o, false) end) as [[[[g s] p] o] b] eqn:E.
  assert (change_graph c = g ∧ change_terms c = [s; p; o]) as [Hg Htx] by (destruct c; by injection E as -> -> -> -> _).
  rewrite Hg, Htx in Hsnoc. case_decide as Hne; [injection Hstep as <-; by apply Hsnoc|].
  apply bind_ok in Hstep as ([s' t1] & Hs & Hstep). apply bind_ok in Hstep as ([p' t2] & Hp & Hstep).
  apply bind_ok in Hstep as ([o' t3] & Ho & [= <-]). cbn.
  destruct (remember_texts _ _ _ _ _ _ _ Ht Hs) as (Ht1 & Ks & _).
  destruct (remember_texts _ _ _ _ _ _ _ Ht1 Hp) as (Ht2 & Kp & H12).
  destruct (remember_texts _ _ _ _ _ _ _ Ht2 Ho) as (Ht3 & Ko & H23).
  apply Hsnoc; [done|]. intros _ t Hin. apply (lookup_weaken _ _ _ _ Ks) in H12 as Ks2.
  rewrite !elem_of_cons, elem_of_nil in Hin. destruct Hin as [->|[->|[->|[]]]]; [| |done]; by eapply lookup_weaken.
Qed.

Lemma build_texts st graph delta ix : delta_build st graph delta = Ok ix → texts_of st graph delta (delta_terms ix).
Proof.
  unfold delta_build. intros ([g t1] & Hg & Hr)%bind_ok. apply bind_ok in Hr as ([rt t2] & Ht & Hr).
  assert (texts_of st graph [] (∅ : gmap TermId EncodedTerm)) as H0 by (split; [by intros ??|by intros ???|by intros ?? ?%elem_of_nil]).
  destruct (remember_texts _ _ _ _ _ _ _ H0 Hg) as (H1 & _). destruct (remember_texts _ _ _ _ _ _ _ H1 Ht) as (H2 & _).
  assert (∀ l pre ix0, texts_of st graph pre (delta_terms ix0) → try_fold (delta_step st graph rt) ix0 l = Ok ix →
    texts_of st graph (pre ++ l) (delta_terms ix)) as Hl.
  { intros l. induction l as [|c l IH]; intros pre ix0 Hok; cbn [try_fold].
    - intros [= <-]. by rewrite app_nil_r.
    - intros (ix1 & Hs1 & Hs2)%bind_ok. rewrite cons_middle, app_assoc. eapply IH; [|done]. by eapply step_texts. }
  refine (Hl delta [] _ _ Hr). exact H2.
Qed.

(** The store's view of a graph. *)
Lemma store_crate_view (view : StoreReadView) scope validating graph :
  snapshot_sound (snapshot view) → crate_sound (sn_store (snapshot view)) → TermId_fit (gid graph) →
  readable view (Named (gid graph)) →
  ∃ rows, CrateView view (snapshot view) scope validating (gid graph) rows (λ x, terms (sn_store (snapshot view)) !! x) ∧
    ∀ q, q ∈ rows ↔ answers (snapshot view) scope validating (Named (gid graph)) pattern_default q.
Proof.
  intros Hs Hc Hfit Hr. destruct (store_rows_view view scope validating Hs (cs_rows _ Hc) (gid graph) Hfit Hr) as (rows & Hv & Hrows).
  exists rows. split; [|done]. split; [done|apply (cs_hash _ Hc)| |].
  - intros q (Hq & Hg & _)%Hrows. cbn in Hg. split; [done|]. rewrite <- Hg. by apply (cs_graph _ Hc).
  - intros t Ht. apply store_lookup. unfold lookup_term. destruct (terms _ !! hash_term t) as [t'|] eqn:E; [|done].
    by rewrite (Ht t' E), decide_True.
Qed.

(** The view of a change set over it. *)
Lemma delta_crate_view (view : DeltaReadView) scope validating graph delta :
  let sn := snapshot (base view) in
  snapshot_sound sn → digest_bytes → crate_sound (sn_store sn) → delta_build (sn_store sn) graph delta = Ok (index view) →
  readable (base view) (Named (gid graph)) →
  ∃ rows, CrateView view sn scope validating (gid graph) rows (delta_term view) ∧
    ∀ q, q ∈ rows ↔ post_answers view scope validating graph delta (Named (gid graph)) pattern_default q.
Proof.
  intros sn Hs Hb Hc Hbuilt Hr. pose proof (build_texts _ _ _ _ Hbuilt) as Htx.
  destruct (delta_rows_view view scope validating graph delta Hs Hb (cs_rows _ Hc) Hbuilt Hr) as (rows & Hv & Hrows).
  exists rows. split; [|done]. split; [done| | |].
  - intros x t. unfold delta_term. rewrite lookup_union_Some_raw. intros [Hx|[_ Hx]]; [by apply (to_hash _ _ _ _ Htx)|by apply (cs_hash _ Hc)].
  - intros q (_ & Hg & _)%Hrows. split; [done|]. apply delta_term_grows. left.
    destruct (delta_build_terms _ _ _ _ Hbuilt) as (Hroot & _). by eexists.
  - intros t Ht. change (∀ t', (delta_terms (index view) ∪ terms (sn_store sn)) !! hash_term t = Some t' → t' = t) in Ht.
    cbn. eapply reads_bind; [apply reads_check|]. intros _ _. unfold delta_term, lookup_delta_term. fold sn.
    destruct (delta_terms (index view) !! hash_term t) as [t'|] eqn:E.
    + assert (t' = t) as -> by (apply Ht; by apply lookup_union_Some_l).
      rewrite (lookup_union_Some_l _ _ _ _ E), decide_True by done. cbn.
      apply (reads_then _ _ _ _ _ (Some (hash_term t))); [by apply (reads_lift _ _ _ _ (Some (hash_term t)))|by apply reads_ret].
    + rewrite lookup_union_r in Ht by done. rewrite lookup_union_r by done.
      apply (reads_then _ _ _ _ _ None); [by apply (reads_lift _ _ _ _ None)|]. apply (store_lookup (base view)).
      unfold lookup_term. fold sn. destruct (terms (sn_store sn) !! hash_term t) as [t'|] eqn:E'; [|done].
      by rewrite (Ht t' eq_refl), decide_True.
Qed.
End sound.
