(* ===== verification/CrateSnapshots.v ===== *)
(** * The rules over a snapshot

    What each RO-Crate rule asks of the triples of a graph, and that its check
    of a materialised snapshot decides it: the snapshot's index finds the
    triples, and its orphans are the data entities no chain of [hasPart] edges
    reaches from the root. *)

From S2P Require Import Prelude Clock Terms Store Codec QueryView IndexUpdate Transitions Replication Convergence.
From S2P Require Import LocalWrites IndexMirror Orphans Cursors Reads ReadRules Answers DeltaAnswers ViewRows CrateRules.
From S2P Require Import CrateViews.
#[local] Open Scope craqle_scope.

(** ** What the rules ask *)

(** A data entity: typed as one, or an end of a [hasPart] edge. *)
Definition crate_entity (root : EncodedTerm) (T : gset Triple) (e : EncodedTerm) : Prop :=
  e ≠ root ∧ ((e, RDF_TYPE, SCHEMA_DATASET) ∈ T ∨ (e, RDF_TYPE, SCHEMA_MEDIA_OBJECT) ∈ T ∨
              ∃ y, has_part T e y ∨ has_part T y e).

Definition rule_holds (id : RuleId) (graph : GraphId) (T : gset Triple) : Prop :=
  let root := graph_root graph in
  match id with
  | Root => (root, RDF_TYPE, SCHEMA_DATASET) ∈ T
  | Descriptor => (METADATA_DESCRIPTOR, RDF_TYPE, SCHEMA_CREATIVE_WORK) ∈ T ∧ (METADATA_DESCRIPTOR, SCHEMA_ABOUT, root) ∈ T
  | RequiredProperties => ∀ p, p ∈ REQUIRED_ROOT_PROPERTIES.*1 → ∃ o, (root, p, o) ∈ T
  | DatePublished => ∃ o, ∀ o', (root, SCHEMA_DATE_PUBLISHED, o') ∈ T ↔ o' = o
  | EntityType => ∀ s p o, (s, p, o) ∈ T → ∃ c, (s, RDF_TYPE, c) ∈ T
  | Reachability => ∀ e, crate_entity root T e → rtc (has_part T) root e
  end.

Section rules.
Context `{Blake3}.

Definition rule_of (id : RuleId) : Rule :=
  match id with
  | Root => RootEntityRule | Descriptor => MetadataDescriptorRule | RequiredProperties => RequiredRootRule
  | DatePublished => PublishedCardinalityRule | EntityType => EntityTypeRule | Reachability => ReachabilityRule
  end.
Definition rule_code (id : RuleId) : string :=
  match id with
  | Root => code (CrateViolation.missing_root "") | Descriptor => code (CrateViolation.missing_descriptor "")
  | RequiredProperties => code (CrateViolation.missing_property "" "" "")
  | DatePublished => code (CrateViolation.invalid_date 0 "") | EntityType => code (CrateViolation.missing_type "" "")
  | Reachability => code (CrateViolation.orphaned "" "")
  end.

(** A check passes when the rule holds, and else reports a violation of it. *)
Definition decides (r : outcome CrateViolation ()) (P : Prop) (c : string) : Prop :=
  match r with Ok _ => P | Err v => ¬ P ∧ code v = c | Panic => False end.
End rules.

(** ** The index of a snapshot *)

Lemma snapshot_lookup_spec (l : list Triple) s p :
  default [] (foldl lookup_row ∅ (imap pair l) !! s ≫= λ m, m !! p) =
  (filter (λ r : nat * Triple, r.2.1 = (s, p)) (imap pair l)).*1.
Proof.
  induction l as [|[[s' p'] o'] l IH] using rev_ind; [done|].
  rewrite imap_app, foldl_app, filter_app, fmap_app, <- IH. clear IH. set (m := foldl lookup_row ∅ (imap pair l)).
  cbn [imap]. rewrite Nat.add_0_r.
  rewrite filter_cons, filter_nil. cbn [foldl snd fst lookup_row]. destruct (decide (s = s')) as [<-|Hs].
  - rewrite lookup_insert_eq. cbn [mbind option_bind]. destruct (decide (p = p')) as [<-|Hp].
    + rewrite lookup_insert_eq, decide_True by done. cbn [default fmap list_fmap]. f_equal.
      destruct (m !! s) as [m'|]; cbn; [done|]. by rewrite lookup_empty.
    + rewrite lookup_insert_ne by done. rewrite decide_False by congruence. cbn [fmap list_fmap]. rewrite app_nil_r.
      destruct (m !! s) as [m'|]; cbn; [done|]. by rewrite lookup_empty.
  - rewrite lookup_insert_ne by done. rewrite decide_False by congruence. cbn [fmap list_fmap]. by rewrite app_nil_r.
Qed.

Lemma rows_for_spec post s p place :
  place ∈ rows_for post s p ↔ ∃ o, triples post !! place = Some (s, p, o).
Proof.
  unfold rows_for, snapshot_lookup. rewrite snapshot_lookup_spec, list_elem_of_fmap. split.
  - intros ([i [[s' p'] o]] & -> & [Ht Hi]%list_elem_of_filter). apply elem_of_lookup_imap in Hi as (j & t & [= -> <-] & Hj).
    cbn in *. injection Ht as -> ->. by exists o.
  - intros (o & Ho). exists (place, (s, p, o)). split; [done|]. apply list_elem_of_filter. split; [done|].
    apply elem_of_lookup_imap. by exists place, (s, p, o).
Qed.

Lemma has_triple_spec post s p o : has_triple post s p o = true ↔ (s, p, o) ∈ triples post.
Proof.
  unfold has_triple. rewrite existsb_exists. setoid_rewrite <- list_elem_of_In. setoid_rewrite rows_for_spec.
  setoid_rewrite bool_decide_eq_true. rewrite list_elem_of_lookup. split.
  - intros (i & (o' & Hi) & Ho). rewrite Hi in Ho. injection Ho as ->. by exists i.
  - intros (i & Hi). exists i. split; [by exists o|]. by rewrite Hi.
Qed.

Lemma count_sp_spec graph T post s p : snapshot_of graph T post → count_sp post s p = size (objects T s p).
Proof.
  intros [_ Hnd Ht]. unfold count_sp, rows_for, snapshot_lookup. rewrite snapshot_lookup_spec, length_fmap.
  transitivity (length (filter (λ t : Triple, t.1 = (s, p)) (triples post))).
  - generalize (triples post). intros l. induction l as [|t l IH] using rev_ind; [done|].
    rewrite imap_app, !filter_app, !length_app, IH. cbn [imap]. f_equal. rewrite !filter_cons, !filter_nil. cbn. by case_decide.
  - rewrite <- (size_list_to_set (C := gset Triple)) by by apply NoDup_filter. f_equal. apply set_eq. intros t.
    unfold objects. rewrite elem_of_list_to_set, elem_of_filter, list_elem_of_filter, Ht. done.
Qed.

Lemma elem_of_objects T s p t : t ∈ objects T s p ↔ ∃ o, t = (s, p, o) ∧ (s, p, o) ∈ T.
Proof. unfold objects. rewrite elem_of_filter. destruct t as [[s' p'] o']. cbn. naive_solver. Qed.

Lemma one_object T s p : size (objects T s p) = 1 ↔ ∃ o, ∀ o', (s, p, o') ∈ T ↔ o' = o.
Proof.
  split.
  - intros (x & Hx)%size_1_elem_of. assert (x ∈ objects T s p) as (o & -> & Ho)%elem_of_objects by set_solver.
    exists o. intros o'. split; [|by intros ->]. intros Ho'.
    assert ((s, p, o') ∈ objects T s p) as Hin by (apply elem_of_objects; eauto). rewrite Hx in Hin.
    by apply elem_of_singleton in Hin as [= ->].
  - intros (o & Ho). assert (objects T s p = {[(s, p, o)]}) as ->; [|apply size_singleton]. apply set_eq. intros t.
    rewrite elem_of_objects, elem_of_singleton. split; [intros (o' & -> & ->%Ho); done|intros ->; exists o; by rewrite Ho].
Qed.

Lemma some_object T s p : size (objects T s p) ≠ 0 ↔ ∃ o, (s, p, o) ∈ T.
Proof.
  rewrite size_non_empty_iff. split.
  - intros (t & (o & _ & Ho)%elem_of_objects)%set_choose. by exists o.
  - intros (o & Ho) He. assert ((s, p, o) ∈ objects T s p) as Hin by (apply elem_of_objects; eauto). by apply He in Hin as ?%elem_of_empty.
Qed.

(** ** The orphans of a snapshot *)

Section orphans.
Context (root : EncodedTerm).

Lemma elem_of_note_other e x X : x ∈ note_other root e X ↔ (x = e ∧ e ≠ root) ∨ x ∈ X.
Proof. unfold note_other. case_decide; set_solver. Qed.

Record scanned (pre : list Triple) (X0 : gset EncodedTerm) (acc : EntityScan) : Prop := {
  sc_parts x y : y ∈ default [] (parts acc !! x) ↔ (x, SCHEMA_HAS_PART, y) ∈ pre;
  sc_entities e : e ∈ entities acc ↔
    e ∈ X0 ∨ (e ≠ root ∧ ∃ y, (e, SCHEMA_HAS_PART, y) ∈ pre ∨ (y, SCHEMA_HAS_PART, e) ∈ pre);
}.

Lemma part_row_ok pre X0 acc t : scanned pre X0 acc → scanned (pre ++ [t]) X0 (part_row root acc t).
Proof.
  intros [Hp He]. destruct t as [[s p] o]. unfold part_row. case_decide as Hpart.
  - subst p. split.
    + intros x y. cbn. rewrite elem_of_app, list_elem_of_singleton, <- Hp. destruct (decide (x = s)) as [->|Hne].
      * rewrite lookup_insert_eq. cbn. rewrite elem_of_app, list_elem_of_singleton. naive_solver.
      * rewrite lookup_insert_ne by done. naive_solver.
    + intros e. cbn. rewrite !elem_of_note_other, He. setoid_rewrite elem_of_app. setoid_rewrite list_elem_of_singleton. split.
      * intros [[-> ?]|[[-> ?]|[?|[? (y & Hy)]]]]; [right; split; [done|]; exists s; by right; right
          |right; split; [done|]; exists o; by left; right|by left|right; split; [done|]; exists y; tauto].
      * intros [?|[Hne (y & [[?|[= -> ->]]|[?|[= -> ->]]])]]; [by auto|right; right; right; eauto|auto|right; right; right; eauto|auto].
  - split.
    + intros x y. rewrite elem_of_app, list_elem_of_singleton, <- Hp. naive_solver.
    + intros e. rewrite He. setoid_rewrite elem_of_app. setoid_rewrite list_elem_of_singleton. split; [naive_solver|].
      intros [?|[Hne (y & [[?|[= -> E ->]]|[?|[= -> E ->]]])]]; [by left|right; eauto|by destruct Hpart|right; eauto|by destruct Hpart].
Qed.

Lemma scan_entities_ok l : scanned l (typed_entities root l) (scan_entities root l).
Proof.
  unfold scan_entities. generalize (typed_entities root l) as X0. intros X0. induction l as [|t l IH] using rev_ind.
  - split; cbn.
    + intros x y. rewrite lookup_empty. cbn. by rewrite !elem_of_nil.
    + intros e. setoid_rewrite elem_of_nil. naive_solver.
  - rewrite foldl_app. by apply part_row_ok.
Qed.

Lemma elem_of_typed l e :
  e ∈ typed_entities root l ↔
    e ≠ root ∧ ((e, RDF_TYPE, SCHEMA_DATASET) ∈ l ∨ (e, RDF_TYPE, SCHEMA_MEDIA_OBJECT) ∈ l).
Proof.
  unfold typed_entities. rewrite elem_of_list_to_set, list_elem_of_fmap. setoid_rewrite list_elem_of_filter. split.
  - intros ([[s p] o] & -> & (Hp & Ho & Hs) & Hin). cbn in *. split; [done|]. subst p. destruct Ho as [->| ->]; auto.
  - intros (Hne & [Hin|Hin]); eexists; (split; [|split; [|exact Hin]]); cbn; auto.
Qed.
End orphans.

(** The walk of a snapshot ends with its unreachable data entities. *)
Lemma snapshot_orphans graph T post :
  snapshot_of graph T post →
  ∃ X, orphaned_data_entities post = Some X ∧
    (∀ e, e ∈ X ↔ crate_entity (graph_root graph) T e ∧ ¬ rtc (has_part T) (graph_root graph) e) ∧
    ∀ e, crate_entity (graph_root graph) T e → e ∉ X → rtc (has_part T) (graph_root graph) e.
Proof.
  intros [Hg _ Ht]. unfold orphaned_data_entities, root. rewrite Hg. set (r := graph_root graph).
  destruct (scan_entities_ok r (triples post)) as [Hparts Hent].
  assert (∀ e, e ∈ entities (scan_entities r (triples post)) ↔ crate_entity r T e) as Hentity.
  { intros e. rewrite Hent, elem_of_typed, !Ht. unfold crate_entity, has_part. setoid_rewrite Ht. naive_solver. }
  case_decide as Hempty.
  { assert (∀ e, ¬ crate_entity r T e) as Hno by (intros e He%Hentity; rewrite Hempty in He; by apply elem_of_empty in He).
    exists ∅. split_and!; [done| |by intros e ?%Hno]. intros e. split; [by intros ?%elem_of_empty|by intros [?%Hno _]]. }
  set (nodes := list_to_set (triples post).*2 : gset EncodedTerm).
  destruct (walk_spec (parts (scan_entities r (triples post))) r nodes) with (fuel := S (length (triples post)))
    (R := {[r]} : gset EncodedTerm) (q := [r]) as (R & -> & HR).
  - intros x y Hxy%Hparts. unfold nodes. apply elem_of_list_to_set, list_elem_of_fmap.
    by exists (x, SCHEMA_HAS_PART, y).
  - cbn [length]. pose proof (size_list_le (triples post).*2) as Hn. rewrite length_fmap in Hn.
    assert (size (nodes ∖ {[r]}) ≤ size nodes) by (apply subseteq_size; set_solver). unfold nodes in *. lia.
  - set_solver.
  - set_solver.
  - set_solver.
  - intros x ->%elem_of_singleton. done.
  - assert (∀ e, e ∈ R ↔ rtc (has_part T) r e) as HR'.
    { intros e. rewrite HR. split; intros Hr; (eapply (rtc_congruence id); [|exact Hr]); intros x y;
        unfold Orphans.edge, has_part; by rewrite Hparts, Ht. }
    cbn [fmap option_fmap option_map]. eexists. split_and!; [done| |]; intros e; rewrite elem_of_difference, Hentity, HR'; [done|]. intros He Hno.
    apply HR'. destruct (decide (e ∈ R)) as [?|Hn]; [done|]. rewrite HR' in Hn. tauto.
Qed.

(** ** The checks of a snapshot *)

Section post.
Context `{Blake3} (graph : GraphId) (T : gset Triple) (post : GraphSnapshot) (Hpost : snapshot_of graph T post).

Lemma has_triple_said s p o : has_triple post s p o = true ↔ (s, p, o) ∈ T.
Proof. by rewrite has_triple_spec, (so_triples _ _ _ Hpost). Qed.

Lemma missing_type_post :
  match list_find (λ t : Triple, t.1.1 ∉ (list_to_set ((λ t : Triple, t.1.1) <$>
    filter (λ t : Triple, t.1.2 = RDF_TYPE) (triples post)) : gset EncodedTerm)) (triples post) with
  | Some _ => ¬ rule_holds EntityType graph T
  | None => rule_holds EntityType graph T
  end.
Proof.
  assert (∀ s, s ∈ (list_to_set ((λ t : Triple, t.1.1) <$> filter (λ t : Triple, t.1.2 = RDF_TYPE) (triples post)) : gset EncodedTerm) ↔
    ∃ c, (s, RDF_TYPE, c) ∈ T) as Htyped.
  { intros s. rewrite elem_of_list_to_set, list_elem_of_fmap. setoid_rewrite list_elem_of_filter.
    setoid_rewrite (so_triples _ _ _ Hpost). split.
    - intros ([[s' p] o] & -> & Hp & Ht). cbn in *. subst p. by exists o.
    - intros (c & Hc). by exists (s, RDF_TYPE, c). }
  destruct (list_find _ _) as [[i [[s p] o]]|] eqn:Hf.
  - apply list_find_Some in Hf as (Hi & Hn & _). cbn in Hn. intros Hall. apply Hn, Htyped, (Hall s p o).
    apply (so_triples _ _ _ Hpost). by eapply list_elem_of_lookup_2.
  - apply list_find_None in Hf. rewrite Forall_forall in Hf. intros s p o Ht. apply Htyped.
    apply (so_triples _ _ _ Hpost) in Ht. specialize (Hf _ Ht). cbn in Hf. apply dec_stable. exact Hf.
Qed.

(** A check of the snapshot decides the rule. *)
Lemma post_state_decides id : decides (check_post_state (rule_of id) post) (rule_holds id graph T) (rule_code id).
Proof.
  pose proof has_triple_said as Hsaid. pose proof Hpost as [Hg _ _].
  destruct id; cbn [rule_of rule_code check_post_state RootEntityRule MetadataDescriptorRule RequiredRootRule
    PublishedCardinalityRule EntityTypeRule ReachabilityRule]; unfold root; rewrite ?Hg.
  - pose proof (Hsaid (graph_root graph) RDF_TYPE SCHEMA_DATASET) as Hs. revert Hs. generalize (has_triple post (graph_root graph) RDF_TYPE SCHEMA_DATASET).
    intros [] Hs; cbn [negb decides rule_holds]; rewrite <- Hs; [done|by split].
  - pose proof (Hsaid METADATA_DESCRIPTOR RDF_TYPE SCHEMA_CREATIVE_WORK) as Ht. revert Ht.
    pose proof (Hsaid METADATA_DESCRIPTOR SCHEMA_ABOUT (graph_root graph)) as Ha. revert Ha.
    generalize (has_triple post METADATA_DESCRIPTOR SCHEMA_ABOUT (graph_root graph)), (has_triple post METADATA_DESCRIPTOR RDF_TYPE SCHEMA_CREATIVE_WORK).
    intros [] [] Ha Ht; cbn [negb orb decides rule_holds]; rewrite <- Ha, <- Ht; [done|split; [by intros []|done]..].
  - destruct (list_find _ _) as [[i [p label]]|] eqn:Hf.
    + apply list_find_Some in Hf as (Hi & Hn & _). cbn in Hn. rewrite (count_sp_spec _ _ _ _ _ Hpost) in Hn. split; [|done].
      intros Hall. assert (∃ o, (graph_root graph, p, o) ∈ T) as Ho%some_object; [|lia].
      apply Hall. apply list_elem_of_fmap. exists (p, label). split; [done|]. by eapply list_elem_of_lookup_2.
    + apply list_find_None in Hf. rewrite Forall_forall in Hf. intros p ([p' label] & -> & Hin)%list_elem_of_fmap.
      specialize (Hf _ Hin). cbn in *. rewrite (count_sp_spec _ _ _ _ _ Hpost) in Hf. apply some_object. lia.
  - rewrite (count_sp_spec _ _ _ _ _ Hpost). case_decide as Hc; cbn [decides rule_holds]; rewrite <- one_object; [by split|lia].
  - pose proof missing_type_post as Hm. destruct (list_find _ _) as [[i t]|]; [by split|done].
  - destruct (snapshot_orphans graph T post Hpost) as (X & -> & HX & Hin). destruct (btree_elems X) as [|e l] eqn:E.
    + intros e He. apply Hin; [done|]. intros Hx%elem_of_btree_elems. rewrite E in Hx. by apply elem_of_nil in Hx.
    + split; [|done]. intros Hall. assert (e ∈ X) as [He Hno]%HX by (apply elem_of_btree_elems; rewrite E; by left).
      by apply Hno, Hall.
Qed.
End post.
