(* ===== verification/CrateReach.v ===== *)
(** * The walk over [hasPart]

    [ReachabilityWalk] finds the first data entity a change set leaves without
    a path from the root.  Its searches run on an explicit stack with caches, and
    break cycles without remembering a verdict that depends on the break: they
    decide reachability, whatever the caches hold, and end within the fuel the
    model gives them. *)

From S2P Require Import Prelude Clock Terms Store Codec QueryView IndexUpdate Transitions Replication Convergence.
From S2P Require Import LocalWrites IndexMirror Orphans Cursors Reads ReadRules Answers DeltaAnswers ViewRows CrateRules.
From S2P Require Import CrateViews CrateSnapshots.
#[local] Open Scope craqle_scope.

Section walk.
Context `{Blake3} (cx : RuleContext) (sn : Snapshot) (scope : GraphVisibility) (validating : option TermId).
Context (rows : gset EncodedQuad) (term_of : TermId → option EncodedTerm).
Context `{Hview : !CrateView (rule_view cx) sn scope validating (gid (rule_graph cx)) rows term_of} (Hbytes : digest_bytes).
Context (Hgraph : delta_graph (index (rule_view cx)) = gid (rule_graph cx)).
Context (Hpart : spelled term_of SCHEMA_HAS_PART).
Context (Hbound : size rows < walk_bound cx).

#[local] Abbreviation reads := (reads sn scope validating) (only parsing).
Let T := said term_of rows.
Let E := has_part T.
Let root := rule_root cx.
Let Hhash : hashed term_of := cv_hash (view := rule_view cx).

(** ** Rules for the walk's monad *)

(** From a walk's state a computation returns, and leaves its context right. *)
Definition wk {A} (m : walkm A) (Q : A → ReachabilityWalk → Prop) (w : ReachabilityWalk) : Prop :=
  ∀ c, context_ok sn scope validating c → checks_left c = None →
  ∃ c' w' a, m (c, w) = ((c', w'), Ok a) ∧ context_ok sn scope validating c' ∧ checks_left c' = None ∧ Q a w'.

Lemma wk_ret {A} (a : A) (Q : A → ReachabilityWalk → Prop) w : Q a w → wk (st_ret a) Q w.
Proof. intros HQ c Hc Hn. by exists c, w, a. Qed.
Lemma wk_bind {A B} (m : walkm A) (f : A → walkm B) P Q w :
  wk m P w → (∀ a w', P a w' → wk (f a) Q w') → wk (st_bind m f) Q w.
Proof.
  intros Hm Hf c Hc Hn. destruct (Hm c Hc Hn) as (c1 & w1 & a & Hr & Hc1 & Hn1 & Ha). unfold st_bind. rewrite Hr.
  by apply Hf with (w' := w1).
Qed.
Lemma wk_weaken {A} (m : walkm A) (P Q : A → ReachabilityWalk → Prop) w :
  wk m P w → (∀ a w', P a w' → Q a w') → wk m Q w.
Proof. intros Hm HPQ c Hc Hn. destruct (Hm c Hc Hn) as (c1 & w1 & a & ? & ? & ? & ?). exists c1, w1, a. auto. Qed.
Lemma wk_reads {A} (m : readm A) P w : reads m P → wk (wk_read m) (λ a w', P a ∧ w' = w) w.
Proof.
  intros Hm c Hc Hn. destruct (Hm c Hc) as (c' & r & Hr & Hc' & Hn' & [(a & -> & Ha)|[_ Hx]]); [|done].
  exists c', w, a. unfold wk_read. rewrite Hr. split_and!; auto.
Qed.
Lemma wk_got {A} (f : ReachabilityWalk → A) w : wk (wk_get f) (λ a w', a = f w ∧ w' = w) w.
Proof. intros c Hc Hn. by exists c, w, (f w). Qed.
Lemma wk_put f w : wk (wk_set f) (λ _ w', w' = f w) w.
Proof. intros c Hc Hn. by exists c, (f w), (). Qed.

(** ** The caches *)

Record caches_ok (w : ReachabilityWalk) : Prop := {
  ca_children e X : walk_children w !! e = Some X → ∀ y, y ∈ X ↔ E e y;
  ca_parents e X : walk_parents w !! e = Some X → ∀ x, x ∈ X ↔ E x e;
  ca_reachable e b : walk_reachable w !! e = Some b → b = true ↔ rtc E root e;
}.
(** Only the caches of edges differ. *)
Record same_verdicts (w w' : ReachabilityWalk) : Prop := {
  sv_reachable : walk_reachable w' = walk_reachable w;
  sv_visiting : walk_visiting w' = walk_visiting w;
}.

Lemma same_refl w : same_verdicts w w.
Proof. done. Qed.
Lemma same_trans w1 w2 w3 : same_verdicts w1 w2 → same_verdicts w2 w3 → same_verdicts w1 w3.
Proof. intros [? ?] [? ?]. split; congruence. Qed.

Lemma new_walk_ok : caches_ok new_walk.
Proof. by split. Qed.

Lemma cached_children_wk e w :
  spelled term_of e → caches_ok w →
  wk (cached_children cx e) (λ X w', (∀ y, y ∈ X ↔ E e y) ∧ caches_ok w' ∧ same_verdicts w w') w.
Proof.
  intros He Hw. unfold cached_children. eapply wk_bind; [apply wk_got|]. intros memo ? [-> ->].
  destruct (walk_children w !! e) as [X|] eqn:Em.
  { apply wk_ret. split_and!; [by eapply ca_children|done|apply same_refl]. }
  eapply wk_bind; [by apply wk_reads, (children_reads cx sn scope validating rows term_of)|]. intros X ? [HX ->].
  eapply wk_bind; [apply wk_put|]. intros _ ? ->. apply wk_ret. split_and!; [done| |done]. destruct Hw as [Hc Hp Hr].
  split; cbn; [|done..]. intros e' X'. rewrite lookup_insert_Some. intros [[<- <-]|[_ ?]]; [done|by eapply Hc].
Qed.

Lemma cached_parents_wk e w :
  spelled term_of e → caches_ok w →
  wk (cached_parents cx e) (λ X w', (∀ x, x ∈ X ↔ E x e) ∧ caches_ok w' ∧ same_verdicts w w') w.
Proof.
  intros He Hw. unfold cached_parents. eapply wk_bind; [apply wk_got|]. intros memo ? [-> ->].
  destruct (walk_parents w !! e) as [X|] eqn:Em.
  { apply wk_ret. split_and!; [by eapply ca_parents|done|apply same_refl]. }
  eapply wk_bind; [by apply wk_reads, (parents_reads cx sn scope validating rows term_of)|]. intros X ? [HX ->].
  eapply wk_bind; [apply wk_put|]. intros _ ? ->. apply wk_ret. split_and!; [done| |done]. destruct Hw as [Hc Hp Hr].
  split; cbn; [done| |done]. intros e' X'. rewrite lookup_insert_Some. intros [[<- <-]|[_ ?]]; [done|by eapply Hp].
Qed.

(** ** How many entities there are *)

(** The ends of [hasPart] edges are among the walk's bound. *)
Definition pieces : gset EncodedTerm := set_map (λ t : Triple, t.2) T.
Definition wholes : gset EncodedTerm := set_map (λ t : Triple, t.1.1) T.

Lemma pieces_size : size pieces ≤ size rows.
Proof.
  apply (size_image (λ q, term_of (quad_object q))). intros y ([[s p] o] & -> & Ht)%elem_of_map.
  apply elem_of_said in Ht as (q & Hq & _ & _ & Ho). by exists q.
Qed.
Lemma wholes_size : size wholes ≤ size rows.
Proof.
  apply (size_image (λ q, term_of (quad_subject q))). intros y ([[s p] o] & -> & Ht)%elem_of_map.
  apply elem_of_said in Ht as (q & Hq & Hs & _ & _). by exists q.
Qed.
Lemma part_piece x y : E x y → y ∈ pieces.
Proof. intros Hxy. apply elem_of_map. by exists (x, SCHEMA_HAS_PART, y). Qed.
Lemma part_whole x y : E x y → x ∈ wholes.
Proof. intros Hxy. apply elem_of_map. by exists (x, SCHEMA_HAS_PART, y). Qed.
Lemma part_spelled x y : E x y → spelled term_of x ∧ spelled term_of y.
Proof. intros Hxy. destruct (said_spelled _ _ _ _ _ Hhash Hxy) as (? & _ & ?). done. Qed.

(** ** Descendants *)

Definition node_set (seed : EncodedTerm) : gset EncodedTerm := {[seed]} ∪ pieces.
Lemma node_set_size seed : size (node_set seed) ≤ walk_bound cx.
Proof.
  unfold node_set. pose proof pieces_size. rewrite size_union_alt, size_singleton.
  assert (size (pieces ∖ {[seed]}) ≤ size pieces) by (apply subseteq_size; set_solver). lia.
Qed.

(** The queue drains, and what it adds is closed under children. *)
Lemma descend_wk seed fuel queue out w :
  caches_ok w → spelled term_of seed → (∀ x, x ∈ queue → x ∈ node_set seed ∧ spelled term_of x) →
  (∀ x y, x ∈ out → E x y → y ∈ out ∨ y ∈ queue) → (∀ x, x ∈ out → spelled term_of x) →
  length queue + size (node_set seed ∖ out) * walk_bound cx ≤ fuel →
  wk (descend cx fuel queue out) (λ out' w',
    out ⊆ out' ∧ (∀ x, x ∈ queue → x ∈ out') ∧ (∀ x y, x ∈ out' → E x y → y ∈ out') ∧
    (∀ x, x ∈ out' → spelled term_of x) ∧ caches_ok w' ∧ same_verdicts w w') w.
Proof.
  intros Hw Hseed. revert queue out w Hw. induction fuel as [|fuel IH]; intros [|e queue] out w Hw Hq Hc Hs Hf;
    cbn [length] in Hf; try lia; cbn [descend].
  1-2: apply wk_ret; split_and!; [done|by intros ? ?%elem_of_nil| |done|done|apply same_refl];
    intros x y Hx Hxy; destruct (Hc x y Hx Hxy) as [?|?%elem_of_nil]; done.
  destruct (Hq e ltac:(by left)) as [He Hes]. case_decide as Hin.
  - eapply wk_weaken; [apply (IH queue out w Hw); [intros; apply Hq; by right| |done|lia]|].
    + intros x y Hx Hxy. destruct (Hc x y Hx Hxy) as [?|[->|?]%elem_of_cons]; auto.
    + intros out' w' (Hsub & Hin' & Hrest). split_and!; [done| |apply Hrest..]. intros x [->|Hx]%elem_of_cons; auto.
  - eapply wk_bind; [by apply cached_children_wk|]. intros X w1 (HX & Hw1 & Hsame).
    assert (size X ≤ walk_bound cx) as HXs.
    { transitivity (size pieces); [apply subseteq_size; intros y Hy%HX; by eapply part_piece|]. pose proof pieces_size. lia. }
    assert (S (size (node_set seed ∖ ({[e]} ∪ out))) ≤ size (node_set seed ∖ out)) as Hless.
    { apply (subset_size (C := gset EncodedTerm)). split; [set_solver|]. intros Hsub.
      assert (e ∈ node_set seed ∖ ({[e]} ∪ out)); [|set_solver]. apply Hsub. set_solver. }
    eapply wk_weaken; [apply (IH (queue ++ btree_elems X) ({[e]} ∪ out) w1 Hw1)|].
    + intros x [Hx|Hx%elem_of_btree_elems%HX]%elem_of_app; [apply Hq; by right|].
      split; [|by eapply part_spelled]. apply elem_of_union. right. by eapply part_piece.
    + intros x y [->%elem_of_singleton|Hx]%elem_of_union Hxy.
      * right. apply elem_of_app. right. by apply elem_of_btree_elems, HX.
      * destruct (Hc x y Hx Hxy) as [?|[->|?]%elem_of_cons].
        -- left. apply elem_of_union. by right.
        -- left. apply elem_of_union. left. by apply elem_of_singleton.
        -- right. apply elem_of_app. by left.
    + intros x [->%elem_of_singleton|Hx]%elem_of_union; auto.
    + rewrite length_app, btree_elems_length.
      assert (S (size (node_set seed ∖ ({[e]} ∪ out))) * walk_bound cx ≤ size (node_set seed ∖ out) * walk_bound cx)
        by (apply Nat.mul_le_mono_r; lia). lia.
    + intros out' w' (Hsub & Hin' & Hcl & Hsp & Hw' & Hsame'). split_and!; [set_solver| |done..|by eapply same_trans].
      intros x [->|Hx]%elem_of_cons; [set_solver|]. apply Hin', elem_of_app. by left.
Qed.

(** Entities below the seeds: spelled, with all their parts. *)
Definition below (seeds : list EncodedTerm) (out : gset EncodedTerm) : Prop :=
  (∀ x, x ∈ seeds → x ∈ out) ∧ (∀ x y, x ∈ out → E x y → y ∈ out) ∧ (∀ x, x ∈ out → spelled term_of x).

Lemma collect_wk out seed w :
  caches_ok w → spelled term_of seed → (∀ x y, x ∈ out → E x y → y ∈ out) → (∀ x, x ∈ out → spelled term_of x) →
  wk (collect_descendants cx out seed) (λ out' w', out ⊆ out' ∧ below [seed] out' ∧ caches_ok w' ∧ same_verdicts w w') w.
Proof.
  intros Hw Hseed Hc Hs. unfold collect_descendants. eapply wk_weaken; [apply (descend_wk seed); [done|done| | |done|]|].
  - intros x ->%list_elem_of_singleton. split; [|done]. apply elem_of_union. left. by apply elem_of_singleton.
  - intros x y Hx Hxy. left. by eapply Hc.
  - cbn [length]. pose proof (node_set_size seed). assert (size (node_set seed ∖ out) ≤ size (node_set seed)) by (apply subseteq_size; set_solver).
    assert (size (node_set seed ∖ out) * walk_bound cx ≤ walk_bound cx * walk_bound cx) by (apply Nat.mul_le_mono_r; lia). lia.
  - intros out' w' (? & ? & ? & ? & ? & ?). split; [done|]. split; [|done]. done.
Qed.

Lemma collect_all_wk seeds out w :
  caches_ok w → (∀ x, x ∈ seeds → spelled term_of x) → (∀ x y, x ∈ out → E x y → y ∈ out) → (∀ x, x ∈ out → spelled term_of x) →
  wk (st_fold (collect_descendants cx) out seeds) (λ out' w', out ⊆ out' ∧ below seeds out' ∧ caches_ok w' ∧ same_verdicts w w') w.
Proof.
  revert out w. induction seeds as [|seed seeds IH]; intros out w Hw Hsp Hc Hs; cbn [st_fold].
  { apply wk_ret. split_and!; [done|split_and!; [by intros ? ?%elem_of_nil|done|done]|done|apply same_refl]. }
  eapply wk_bind; [apply collect_wk; [done|apply Hsp; by left|done|done]|].
  intros out1 w1 (Hsub & (Hin & Hc1 & Hs1) & Hw1 & Hsame).
  eapply wk_weaken; [apply (IH out1 w1 Hw1); [intros; apply Hsp; by right|done|done]|].
  intros out2 w2 (Hsub2 & (Hin2 & Hc2 & Hs2) & Hw2 & Hsame2). split_and!; [by transitivity out1| |done|by eapply same_trans].
  split_and!; [|done|done]. intros x [->|Hx]%elem_of_cons; [apply Hsub2, Hin; by left|auto].
Qed.

Lemma below_reach seeds out x y : below seeds out → x ∈ seeds → rtc E x y → y ∈ out.
Proof. intros (Hin & Hc & _) Hx Hxy. apply Hin in Hx. revert Hx. induction Hxy; eauto. Qed.

(** ** Data entities *)

Lemma is_data_entity_wk e w :
  caches_ok w → spelled term_of e → spelled term_of RDF_TYPE → spelled term_of SCHEMA_DATASET →
  spelled term_of SCHEMA_MEDIA_OBJECT → e ≠ root →
  wk (is_data_entity cx e) (λ b w', (b = true ↔ crate_entity root T e) ∧ caches_ok w' ∧ same_verdicts w w') w.
Proof.
  intros Hw He Htype Hds Hmo Hne. unfold is_data_entity.
  eapply wk_bind; [by apply wk_reads, (triple_exists_reads cx sn scope validating rows term_of)|]. intros b1 ? [Hb1 ->].
  eapply (wk_bind _ _ (λ b w', (b = true ↔ (e, RDF_TYPE, SCHEMA_DATASET) ∈ T ∨ (e, RDF_TYPE, SCHEMA_MEDIA_OBJECT) ∈ T) ∧ w' = w)).
  { destruct b1; [apply wk_ret; split; [|done]; split; [left; by apply Hb1|done]|].
    eapply wk_weaken; [by apply wk_reads, (triple_exists_reads cx sn scope validating rows term_of)|].
    intros b2 ? [Hb2 ->]. split; [|done]. cbv beta in Hb2. rewrite Hb2. fold T.
    split; [by right|]. intros [Hd|?]; [by apply Hb1 in Hd|done]. }
  intros b2 ? [Hb2 ->]. destruct b2.
  { apply wk_ret. split_and!; [|done|apply same_refl]. split; [|done]. intros _. split; [done|].
    destruct (proj1 Hb2 eq_refl) as [?|?]; [by left|by right; left]. }
  eapply wk_bind; [by apply cached_children_wk|]. intros X w1 (HX & Hw1 & Hs1). case_bool_decide as HXe.
  { apply wk_ret. split_and!; [|done|done]. split; [|done]. intros _. split; [done|].
    apply set_choose_L in HXe as [y Hy]. right. right. exists y. left. by apply HX. }
  eapply wk_bind; [by apply cached_parents_wk|]. intros Y w2 (HY & Hw2 & Hs2). apply wk_ret.
  split_and!; [|done|by eapply same_trans]. rewrite bool_decide_eq_true. split.
  - intros [y Hy]%set_choose_L. split; [done|]. right. right. exists y. right. by apply HY.
  - intros (_ & [Ht|[Ht|(y & [Hy|Hy])]]) ->; [by discriminate (proj2 Hb2 (or_introl Ht))|by discriminate (proj2 Hb2 (or_intror Ht))| |].
    + apply HX in Hy. rewrite HXe in Hy. by apply elem_of_empty in Hy.
    + apply HY in Hy. by apply elem_of_empty in Hy.
Qed.

(** ** The stack of [is_reachable] *)

(** A path from the root whose later entities are outside a set. *)
Definition away (V : gset EncodedTerm) (x : EncodedTerm) : Prop := rtc (λ a b, E a b ∧ b ∉ V) root x.

Lemma away_reach V x : away V x → rtc E root x.
Proof. apply rtc_subrel. by intros a b [? _]. Qed.
Lemma away_empty x : rtc E root x → away ∅ x.
Proof. apply rtc_subrel. intros a b ?. split; [done|apply not_elem_of_empty]. Qed.
Lemma away_outside V x : x ≠ root → x ∈ V → ¬ away V x.
Proof. intros Hne Hx [->|(y & _ & _ & Hy)]%rtc_inv_r; done. Qed.
(** A path to an entity can be cut where it first meets that entity. *)
Lemma away_parent V e : e ≠ root → away V e → ∃ p, away ({[e]} ∪ V) p ∧ E p e.
Proof.
  intros Hne Hp. assert (∀ x, away V x → away ({[e]} ∪ V) x ∨ ∃ p, away ({[e]} ∪ V) p ∧ E p e) as Hcut.
  { apply rtc_ind_r; [left; apply rtc_refl|]. intros x y _ [Hxy Hy] [Hx|?]; [|by right].
    destruct (decide (y = e)) as [->|Hye]; [right; by exists x|]. left. eapply rtc_r; [done|]. split; [done|set_solver]. }
  destruct (Hcut e Hp) as [Ha|?]; [|done]. exfalso. eapply (away_outside _ e Hne); [|exact Ha]. set_solver.
Qed.

(** What a frame knows while the entities of [V] are being visited below it. *)
Record frame_ok (V : gset EncodedTerm) (f : ReachabilityFrame) : Prop := {
  fo_root : entity f ≠ root;
  fo_new : entity f ∉ V;
  fo_parents p : p ∈ frame_parents f → E p (entity f);
  fo_found : reachable f = true → rtc E root (entity f);
  fo_missed p : reachable f = false → E p (entity f) →
    p ∈ frame_parents f ∨ ¬ away ({[entity f]} ∪ V) p ∧ (used_cycle_break f = false → ¬ rtc E root p);
}.

Lemma open_frame_wk V e w :
  caches_ok w → walk_visiting w = V → spelled term_of e → e ≠ root → e ∉ V →
  wk (open_frame cx e) (λ f w', frame_ok V f ∧ entity f = e ∧ length (frame_parents f) ≤ size wholes ∧
    caches_ok w' ∧ walk_visiting w' = {[e]} ∪ V) w.
Proof.
  intros Hw <- He Hne Hnew. unfold open_frame. eapply wk_bind; [by apply cached_parents_wk|].
  intros X w1 (HX & [Hc Hp Hr] & [_ Hv]). eapply wk_bind; [apply wk_put|]. intros _ ? ->. apply wk_ret. split_and!.
  - split; cbn; [done|done| |done|]; [by intros p ?%elem_of_btree_elems%HX|].
    intros p _ Hpe. left. by apply elem_of_btree_elems, HX.
  - done.
  - cbn. rewrite btree_elems_length. apply subseteq_size. intros p Hpe%HX. by eapply part_whole.
  - done.
  - cbn. by rewrite Hv.
Qed.

(** In at most so many steps the loop is in a state as wanted. *)
Fixpoint within (K : nat) (s : list ReachabilityFrame * bool)
    (Q : list ReachabilityFrame * bool → ReachabilityWalk → Prop) (w : ReachabilityWalk) : Prop :=
  Q s w ∨ match K with
          | O => False
          | S K => wk (reach_step cx s) (λ r w', ∃ s', r = inl s' ∧ within K s' Q w') w
          end.

Lemma within_now K s Q w : Q s w → within K s Q w.
Proof. destruct K; by left. Qed.
Lemma within_step K s Q w :
  wk (reach_step cx s) (λ r w', ∃ s', r = inl s' ∧ within K s' Q w') w → within (S K) s Q w.
Proof. intros Hs. by right. Qed.
Lemma wk_goes K s Q w : within K s Q w → wk (st_ret (inl s : _ + bool)) (λ r w', ∃ s', r = inl s' ∧ within K s' Q w') w.
Proof. intros Hs. apply wk_ret. by exists s. Qed.
Lemma within_le K K' s Q w : K ≤ K' → within K s Q w → within K' s Q w.
Proof.
  revert K' s w. induction K as [|K IH]; intros K' s w Hle [?|Hs]; [by apply within_now|done|by apply within_now|].
  destruct K' as [|K']; [lia|right]. eapply wk_weaken; [exact Hs|]. intros r w' (s' & -> & ?). exists s'. split; [done|].
  apply IH; [lia|done].
Qed.
Lemma within_then K1 K2 s P Q w :
  within K1 s P w → (∀ s' w', P s' w' → within K2 s' Q w') → within (K1 + K2) s Q w.
Proof.
  intros Hs HPQ. revert s w Hs. induction K1 as [|K1 IH]; intros s w [Hp|Hs]; try done.
  - by apply HPQ.
  - eapply within_le; [|by apply HPQ]. lia.
  - right. eapply wk_weaken; [exact Hs|]. intros r w' (s' & -> & ?). exists s'. auto.
Qed.

(** The doubled loop covers the steps to an empty stack. *)
Lemma loop_wk d (Q : list ReachabilityFrame * bool → ReachabilityWalk → Prop) :
  (∀ s w, Q s w → s.1 = []) → ∀ K s w, within K s Q w →
  wk (st_loop d (reach_step cx) s) (λ r w', (∃ a, r = inr a ∧ Q ([], a) w') ∨
    (2 ^ d ≤ K ∧ ∃ s', r = inl s' ∧ within (K - 2 ^ d) s' Q w')) w.
Proof.
  intros HQ. induction d as [|d IH]; intros K s w Hs; cbn [st_loop].
  - assert (Q s w ∨ ∃ K', K = S K' ∧ wk (reach_step cx s) (λ r w', ∃ s', r = inl s' ∧ within K' s' Q w') w) as [Hq|(K' & -> & Hr)].
    { destruct K as [|K], Hs as [?|?]; [by left|done|by left|right; by eauto]. }
    + destruct s as [stack a]. pose proof (HQ _ _ Hq) as Hnil. cbn in Hnil. subst stack. apply wk_ret. left. by exists a.
    + eapply wk_weaken; [exact Hr|]. intros r w' (s' & -> & ?). right. split; [cbn; lia|]. exists s'.
      cbn [Nat.pow]. replace (S K' - 1) with K' by lia. done.
  - eapply wk_bind; [by apply IH|]. intros r w' [(a & -> & ?)|(Hle & s' & -> & Hs')].
    + apply wk_ret. left. by exists a.
    + eapply wk_weaken; [by apply IH|]. intros r w2 [Ha|(Hle2 & s2 & -> & ?)]; [left; exact Ha|]. right. cbn [Nat.pow].
      split; [lia|]. exists s2. split; [done|]. eapply within_le; [|done]. lia.
Qed.

(** ** A frame runs until it is popped *)

(** How a frame leaves the stack: its verdict is known, or it found nothing outside [V]. *)
Definition popped (V : gset EncodedTerm) (e : EncodedTerm) (stack : list ReachabilityFrame) (answer : bool)
    (s : list ReachabilityFrame * bool) (w : ReachabilityWalk) : Prop :=
  caches_ok w ∧ walk_visiting w = V ∧
  (s = (to_parent (or_reachable true) stack, match stack with [] => true | _ => answer end) ∧ rtc E root e ∨
   ∃ u, s = (to_parent (or_cycle_break u) stack, answer) ∧ ¬ away V e ∧ (u = false → ¬ rtc E root e)).

Lemma cached_verdict e b w :
  caches_ok w → (b = true ↔ rtc E root e) → caches_ok (with_reachable e b w).
Proof.
  intros [Hc Hp Hr] Hb. split; [done..|]. intros e' b'. cbn. rewrite lookup_insert_Some.
  intros [[<- <-]|[_ Hx]]; [done|by apply Hr].
Qed.
Lemma left_visiting (e : EncodedTerm) (V : gset EncodedTerm) : e ∉ V → ({[e]} ∪ V) ∖ {[e]} = V.
Proof. set_solver. Qed.

(** A frame that has its answer, or no more parents, is popped at the next step. *)
Lemma pop_found V f stack answer w :
  frame_ok V f → reachable f = true → caches_ok w → walk_visiting w = {[entity f]} ∪ V →
  within 1 (f :: stack, answer) (popped V (entity f) stack answer) w.
Proof.
  intros Hf Hr Hw Hv. pose proof (fo_found _ _ Hf Hr) as Hreach. eapply within_step. cbn [reach_step]. rewrite Hr.
  unfold settle. eapply (wk_bind _ _ (λ _ w', w' = with_reachable (entity f) true (leave (entity f) w))).
  { eapply wk_bind; [apply wk_put|]. intros _ ? ->. apply wk_put. }
  intros _ ? ->. apply wk_goes. apply within_now. split_and!.
  - apply cached_verdict; [by destruct Hw|done].
  - cbn. rewrite Hv. apply left_visiting, Hf.
  - by left.
Qed.
Lemma pop_missed V f stack answer w :
  frame_ok V f → reachable f = false → frame_parents f = [] → caches_ok w → walk_visiting w = {[entity f]} ∪ V →
  within 1 (f :: stack, answer) (popped V (entity f) stack answer) w.
Proof.
  intros Hf Hr Hnil Hw Hv. pose proof (fo_root _ _ Hf) as Hne. eapply within_step. cbn [reach_step]. rewrite Hr, Hnil.
  assert (∀ p, E p (entity f) → ¬ away ({[entity f]} ∪ V) p ∧ (used_cycle_break f = false → ¬ rtc E root p)) as Hmiss.
  { intros p Hp. destruct (fo_missed _ _ Hf p Hr Hp) as [Hin|?]; [|done]. rewrite Hnil in Hin. by apply elem_of_nil in Hin. }
  assert (used_cycle_break f = false → ¬ rtc E root (entity f)) as Hnot.
  { intros Hu [Heq|(p & Hp & Hpe)]%rtc_inv_r; [by rewrite Heq in Hne|]. by eapply Hmiss. }
  eapply wk_bind; [apply wk_put|]. intros _ ? ->.
  eapply (wk_bind _ _ (λ _ w', caches_ok w' ∧ walk_visiting w' = V)).
  { assert (walk_visiting (leave (entity f) w) = V) as Hl by (cbn; rewrite Hv; apply left_visiting, Hf).
    assert (caches_ok (leave (entity f) w)) by (by destruct Hw).
    destruct (used_cycle_break f) eqn:Hu; [by apply wk_ret|]. eapply wk_weaken; [apply wk_put|].
    intros _ ? ->. split; [|done]. apply cached_verdict; [done|]. split; [done|]. intros Hx. by destruct (Hnot eq_refl). }
  intros _ w' [Hw' Hv']. apply wk_goes. apply within_now. split_and!; [done..|]. right.
  exists (used_cycle_break f). split_and!; [done| |done]. intros (p & Ha & Hp)%away_parent; [|done]. by destruct (Hmiss p Hp).
Qed.

(** What a frame learns from a parent keeps it right. *)
Lemma learn_found V f p rest :
  frame_ok V f → frame_parents f = p :: rest → rtc E root p → frame_ok V (or_reachable true (set_parents rest f)).
Proof.
  intros [Hr Hn Hp Hf Hm] Heq Hreach. rewrite Heq in Hp. split; cbn; [done|done| | |].
  - intros q Hq. apply Hp. by right.
  - intros _. eapply rtc_r; [done|]. apply Hp. by left.
  - intros q Hq. by destruct (reachable f).
Qed.
Lemma learn_missed V f p rest u :
  frame_ok V f → frame_parents f = p :: rest → ¬ away ({[entity f]} ∪ V) p → (u = false → ¬ rtc E root p) →
  frame_ok V (or_cycle_break u (set_parents rest f)).
Proof.
  intros [Hr Hn Hp Hf Hm] Heq Haway Hreach. rewrite Heq in Hp. split; cbn; [done|done| |done|].
  - intros q Hq. apply Hp. by right.
  - intros q Hq Hqe. destruct (Hm q Hq Hqe) as [Hin|[Ha Hb]].
    + rewrite Heq in Hin. apply elem_of_cons in Hin as [->|?]; [|by left]. right. split; [done|].
      intros Hu. apply Hreach. by destruct (used_cycle_break f).
    + right. split; [done|]. intros Hu. apply Hb. by destruct (used_cycle_break f).
Qed.
Lemma learn_known V f p rest b :
  frame_ok V f → frame_parents f = p :: rest → (b = true ↔ rtc E root p) → frame_ok V (or_reachable b (set_parents rest f)).
Proof.
  intros Hf Heq Hb. destruct b; [by eapply learn_found; [..|apply Hb]|].
  assert (or_reachable false (set_parents rest f) = or_cycle_break false (set_parents rest f)) as ->.
  { unfold or_reachable, or_cycle_break, set_parents. cbn. by rewrite !orb_false_r. }
  assert (¬ rtc E root p) as Hno by (intros Hp; by apply Hb in Hp).
  eapply learn_missed; [done|done| |done]. by intros ?%away_reach.
Qed.

(** The steps of a frame with [m] parents to look at, [k] entities not being visited. *)
Fixpoint frame_cost (k m : nat) : nat :=
  match k with O => 1 + m | S k => 1 + m * (1 + frame_cost k (size wholes)) end.
Lemma frame_cost_pos k m : 1 ≤ frame_cost k m.
Proof. destruct k; cbn; lia. Qed.
Lemma frame_cost_mono k m m' : m ≤ m' → frame_cost k m ≤ frame_cost k m'.
Proof. intros Hm. destruct k; cbn; [lia|]. assert (m * S (frame_cost k (size wholes)) ≤ m' * S (frame_cost k (size wholes))) by (by apply Nat.mul_le_mono_r). lia. Qed.
Lemma frame_cost_next k m : S (frame_cost k m) ≤ frame_cost k (S m).
Proof. destruct k; cbn; lia. Qed.

#[local] Ltac look_at_parent :=
  eapply within_step; cbn [reach_step];
  match goal with Hr : reachable _ = false, Hps : frame_parents _ = _ |- _ => rewrite Hr, Hps end.
Lemma frame_pops k V f stack answer w :
  frame_ok V f → caches_ok w → walk_visiting w = {[entity f]} ∪ V → size (wholes ∖ ({[entity f]} ∪ V)) ≤ k →
  within (frame_cost k (length (frame_parents f))) (f :: stack, answer) (popped V (entity f) stack answer) w.
Proof.
  revert V f stack answer w. induction k as [k IHk] using lt_wf_ind. intros V f stack answer w.
  remember (frame_parents f) as ps eqn:Hps. symmetry in Hps. revert f w Hps.
  induction ps as [|p rest IHp]; intros f w Hps Hf Hw Hv Hk.
  all: destruct (reachable f) eqn:Hr; [by eapply within_le; [apply frame_cost_pos|apply pop_found]|].
  { eapply within_le; [apply frame_cost_pos|by apply pop_missed]. }
  assert (∀ f' w', entity f' = entity f → frame_parents f' = rest → frame_ok V f' → caches_ok w' →
    walk_visiting w' = {[entity f]} ∪ V →
    within (frame_cost k (length rest)) (f' :: stack, answer) (popped V (entity f) stack answer) w') as Hnext.
  { intros f' w' He Hps' Hf' Hw' Hv'. rewrite <-He in Hv', Hk |- *. by apply IHp. }
  assert (E p (entity f)) as Hpe by (apply (fo_parents _ _ Hf); rewrite Hps; left).
  cbn [length]. destruct (decide (p = root)) as [Heq|Hproot].
  { eapply within_le; [apply frame_cost_next|]. look_at_parent. rewrite decide_True by done. apply wk_goes, Hnext; [done..| |done|done]. eapply learn_found; [done..|]. rewrite Heq. apply rtc_refl. }
  destruct (walk_reachable w !! p) as [b|] eqn:Hknown.
  { eapply within_le; [apply frame_cost_next|]. look_at_parent. rewrite decide_False by done. eapply wk_bind; [apply wk_got|]. intros ? ? [-> ->]. rewrite Hknown.
    apply wk_goes, Hnext; [done..| |done|done]. eapply learn_known; [done..|]. by apply (ca_reachable _ Hw). }
  destruct (decide (p ∈ walk_visiting w)) as [Hin|Hout].
  { eapply within_le; [apply frame_cost_next|]. look_at_parent. rewrite decide_False by done. eapply wk_bind; [apply wk_got|]. intros ? ? [-> ->]. rewrite Hknown.
    eapply wk_bind; [apply wk_got|]. intros ? ? [-> ->]. rewrite bool_decide_true by done.
    apply wk_goes, Hnext; [done..| |done|done]. eapply learn_missed; [done..| |done]. apply away_outside; [done|]. by rewrite <-Hv. }
  rewrite Hv in Hout. pose proof (part_whole _ _ Hpe) as Hwhole. destruct (part_spelled _ _ Hpe) as [Hpsp _].
  assert (S (size (wholes ∖ ({[p]} ∪ ({[entity f]} ∪ V)))) ≤ size (wholes ∖ ({[entity f]} ∪ V))) as Hless.
  { apply (subset_size (C := gset EncodedTerm)). split; [set_solver|]. intros Hsub.
    assert (p ∈ wholes ∖ ({[p]} ∪ ({[entity f]} ∪ V))); [|set_solver]. apply Hsub. set_solver. }
  destruct k as [|k]; [lia|]. eapply (within_le (S (frame_cost k (size wholes) + frame_cost (S k) (length rest)))); [cbn; lia|].
  look_at_parent. rewrite decide_False by done. eapply wk_bind; [apply wk_got|]. intros ? ? [-> ->]. rewrite Hknown.
  eapply wk_bind; [apply wk_got|]. intros ? ? [-> ->]. rewrite bool_decide_false by (by rewrite Hv).
  eapply wk_bind; [by apply (open_frame_wk ({[entity f]} ∪ V))|]. intros f1 w1 (Hf1 & He1 & Hlen & Hw1 & Hv1).
  apply wk_goes. eapply within_then.
  - eapply (within_le (frame_cost k (length (frame_parents f1)))); [by apply frame_cost_mono|].
    rewrite <-He1 in Hv1, Hless. apply (IHk k ltac:(lia) ({[entity f]} ∪ V)); [done..|lia].
  - intros s' w' (Hw' & Hv' & [[-> Hreach]|(u & -> & Haway & Hnot)]); rewrite He1 in *.
    + apply Hnext; [done..| |done|done]. by eapply learn_found.
    + apply Hnext; [done..| |done|done]. eapply learn_missed; [done..| |done]. done.
Qed.

(** ** The fuel *)

Lemma frame_cost_bound k : frame_cost k (size wholes) + 1 ≤ (size wholes + 2) ^ (k + 1).
Proof.
  induction k as [|k IH]; [cbn; lia|]. cbn [frame_cost]. replace (S k + 1) with (S (k + 1)) by lia.
  rewrite Nat.pow_succ_r'. nia.
Qed.
Lemma loop_fuel : frame_cost (size wholes) (size wholes) < 2 ^ (S (S (walk_bound cx)) * S (S (walk_bound cx))).
Proof.
  pose proof (frame_cost_bound (size wholes)) as Hc. pose proof wholes_size as Hw.
  remember (S (S (walk_bound cx))) as b eqn:Hb.
  assert (size wholes + 2 ≤ 2 ^ b) as H2 by (pose proof (Nat.pow_gt_lin_r 2 b ltac:(lia)); lia).
  assert ((size wholes + 2) ^ (size wholes + 1) ≤ (2 ^ b) ^ (size wholes + 1)) by (by apply Nat.pow_le_mono_l).
  assert (2 ^ (b * (size wholes + 1)) ≤ 2 ^ (b * b)) by (apply Nat.pow_le_mono_r; [lia|]; apply Nat.mul_le_mono_l; lia).
  rewrite <-Nat.pow_mul_r in *. lia.
Qed.

Lemma is_reachable_wk e w :
  caches_ok w → walk_visiting w = ∅ → spelled term_of e →
  wk (is_reachable cx e) (λ b w', (b = true ↔ rtc E root e) ∧ caches_ok w' ∧ walk_visiting w' = ∅) w.
Proof.
  intros Hw Hv He. unfold is_reachable. destruct (decide (e = rule_root cx)) as [->|Hne].
  { apply wk_ret. split_and!; [|done..]. split; [intros _; apply rtc_refl|done]. }
  eapply wk_bind; [apply wk_got|]. intros ? ? [-> ->]. destruct (walk_reachable w !! e) as [b|] eqn:Hknown.
  { apply wk_ret. split_and!; [|done..]. by apply (ca_reachable _ Hw). }
  eapply wk_bind; [apply wk_got|]. intros ? ? [-> ->]. rewrite bool_decide_false by (rewrite Hv; apply not_elem_of_empty).
  eapply wk_bind; [by apply (open_frame_wk ∅)|]. intros f w1 (Hf & <- & Hlen & Hw1 & Hv1).
  eapply wk_bind.
  { apply (loop_wk _ (popped ∅ (entity f) [] false)); [by intros s w' (_ & _ & [[-> _]|(u & -> & _)])|].
    apply (within_le (frame_cost (size wholes) (length (frame_parents f)))); [by apply frame_cost_mono|].
    apply (frame_pops _ ∅); [done..|]. apply subseteq_size. set_solver. }
  intros r w2 [(a & -> & Hw2 & Hv2 & Ha)|[Hle _]]; [|pose proof loop_fuel; lia].
  apply wk_ret. split_and!; [|done..]. destruct Ha as [[[= ->] Hreach]|(u & [= ->] & Haway & _)]; [done|].
  split; [done|]. intros Hreach. destruct Haway. by apply away_empty.
Qed.

(** ** The first orphan *)

(** A data entity no chain of parts leads to. *)
Definition orphan (e : EncodedTerm) : Prop := crate_entity root T e ∧ ¬ rtc E root e.

Context (Htype : spelled term_of RDF_TYPE) (Hds : spelled term_of SCHEMA_DATASET).
Context (Hmo : spelled term_of SCHEMA_MEDIA_OBJECT).

Lemma find_orphan_wk candidates w :
  caches_ok w → walk_visiting w = ∅ → (∀ e, e ∈ candidates → spelled term_of e) →
  wk (find_orphan cx candidates) (λ o w', match o with Some e => orphan e | None => ∀ e, e ∈ candidates → ¬ orphan e end) w.
Proof.
  revert w. induction candidates as [|e candidates IH]; intros w Hw Hv Hsp; cbn [find_orphan].
  { apply wk_ret. by intros ? ?%elem_of_nil. }
  assert (∀ w', caches_ok w' → walk_visiting w' = ∅ → ¬ orphan e →
    wk (find_orphan cx candidates) (λ o w', match o with Some e => orphan e | None => ∀ x, x ∈ e :: candidates → ¬ orphan x end) w') as Hnext.
  { intros w' Hw' Hv' He. eapply wk_weaken; [apply IH; [done|done|]; intros; apply Hsp; by right|].
    intros [x|] w'' Ho; [done|]. intros x [->|Hx]%elem_of_cons; [done|by apply Ho]. }
  destruct (decide (e = rule_root cx)) as [->|Hne]; [apply Hnext; [done..|]; by intros [[? _] _]|].
  pose proof (Hsp e ltac:(by left)) as He.
  eapply wk_bind; [by apply is_data_entity_wk|]. intros b w1 (Hb & Hw1 & [_ Hs]). rewrite Hv in Hs.
  eapply (wk_bind _ _ (λ o w', (o = true ↔ orphan e) ∧ caches_ok w' ∧ walk_visiting w' = ∅)).
  { destruct b; [|apply wk_ret; split_and!; [|done..]; split; [done|]; intros [Ho%Hb _]; done].
    eapply wk_bind; [by apply is_reachable_wk|]. intros r w2 (Hr & Hw2 & Hv2). apply wk_ret. split_and!; [|done..].
    unfold orphan. rewrite <-Hr, <-Hb. destruct r; cbn; naive_solver. }
  intros o w2 (Ho & Hw2 & Hv2). destruct o; [by apply wk_ret, Ho|]. apply Hnext; [done..|]. intros Hx. by apply Ho in Hx.
Qed.

(** What the walk finds is an orphan; finding none, it has looked at every
    entity a change can have cut off. *)
Lemma first_orphan_wk :
  (∀ e, e ∈ reachability_seeds (summary cx) ∪ reachability_probes (summary cx) → spelled term_of e) →
  wk (first_orphan cx) (λ o _, match o with
    | Some e => orphan e
    | None => ∀ e, (e ∈ reachability_probes (summary cx) ∨ ∃ seed, seed ∈ reachability_seeds (summary cx) ∧ rtc E seed e) → ¬ orphan e
    end) new_walk.
Proof.
  intros Hsp. unfold first_orphan. eapply wk_bind.
  { apply collect_all_wk; [apply new_walk_ok| | |]; [|by intros ?? ?%elem_of_empty|by intros ? ?%elem_of_empty].
    intros x Hx%elem_of_btree_elems. apply Hsp. set_solver. }
  intros out w (_ & Hbelow & Hw & [_ Hv]). pose proof Hbelow as (Hin & _ & Hspelled).
  eapply wk_weaken; [apply find_orphan_wk; [done|by rewrite Hv|]|].
  { intros e [He|He]%elem_of_btree_elems%elem_of_union; [|by apply Hspelled]. apply Hsp. set_solver. }
  intros [e|] w' Ho; [done|]. intros e He. apply Ho, elem_of_btree_elems, elem_of_union.
  destruct He as [?|(seed & Hseed & Hreach)]; [by left|right]. eapply below_reach; [done| |done]. by apply elem_of_btree_elems.
Qed.
End walk.
