(* ===== verification/CrateChanges.v ===== *)
(** * What a change set can break

    The summary of a change set ([DeltaSummary]) names the places its triples
    touch.  A rule that held before the change set is broken only at such a place:
    the orphans a walk finds from the summary's seeds and probes, and the
    subjects it names, are all there can be. *)

From S2P Require Import Prelude Clock Terms Store Codec QueryView IndexUpdate Transitions Replication Convergence.
From S2P Require Import LocalWrites IndexMirror Orphans Cursors Reads ReadRules Answers DeltaAnswers ViewRows CrateRules.
From S2P Require Import CrateViews CrateSnapshots.
#[local] Open Scope craqle_scope.

(** ** The summary *)

(** A class of data entities. *)
Definition data_class (o : EncodedTerm) : Prop := o = SCHEMA_DATASET ∨ o = SCHEMA_MEDIA_OBJECT.

Definition some_touched (ts : list TouchedTriple) (P : TouchedTriple → Prop) : Prop := ∃ t, t ∈ ts ∧ P t.
Lemma some_snoc ts t P : some_touched (ts ++ [t]) P ↔ some_touched ts P ∨ P t.
Proof.
  unfold some_touched. setoid_rewrite elem_of_app. setoid_rewrite list_elem_of_singleton. split.
  - intros (x & [Hx| ->] & HP); [left; by exists x|by right].
  - intros [(x & Hx & HP)|HP]; [exists x|exists t]; auto.
Qed.
Lemma some_nil P : ¬ some_touched [] P.
Proof. by intros (t & ?%elem_of_nil & _). Qed.

(** The places a list of changed triples touches. *)
Record summary_of (root : EncodedTerm) (ts : list TouchedTriple) (s : DeltaSummary) : Prop := {
  su_inserted x : x ∈ inserted_subjects s ↔ some_touched ts (λ t, inserted t = true ∧ subject t = x);
  su_typed x : x ∈ type_changed_subjects s ↔ some_touched ts (λ t, predicate t = RDF_TYPE ∧ subject t = x);
  su_seeds x : x ∈ reachability_seeds s ↔ some_touched ts (λ t,
    predicate t = SCHEMA_HAS_PART ∧ object t = x ∨ predicate t = RDF_TYPE ∧ data_class (object t) ∧ subject t = x);
  su_probes x : x ∈ reachability_probes s ↔ some_touched ts (λ t, predicate t = SCHEMA_HAS_PART ∧ subject t = x);
  su_dataset : touches_root_dataset s = true ↔ some_touched ts (λ t,
    subject t = root ∧ predicate t = RDF_TYPE ∧ object t = SCHEMA_DATASET);
  su_descriptor : touches_metadata_descriptor s = true ↔ some_touched ts (λ t, subject t = METADATA_DESCRIPTOR ∧
    (predicate t = RDF_TYPE ∧ object t = SCHEMA_CREATIVE_WORK ∨ predicate t = SCHEMA_ABOUT ∧ object t = root));
  su_required : Forall2 (λ hit required, hit = true ↔ some_touched ts (λ t, subject t = root ∧ predicate t = required.1))
    (required_root_hits s) REQUIRED_ROOT_PROPERTIES;
  su_reach : touches_reachability s = true ↔ some_touched ts (λ t,
    predicate t = SCHEMA_HAS_PART ∨ predicate t = RDF_TYPE ∧ data_class (object t));
}.

Lemma elem_of_when (b : bool) (x y : EncodedTerm) (X : gset EncodedTerm) :
  x ∈ (if b then {[y]} else ∅) ∪ X ↔ x ∈ X ∨ b = true ∧ y = x.
Proof. destruct b; set_solver. Qed.

Lemma touch_summary root ts s t : summary_of root ts s → summary_of root (ts ++ [t]) (touch root s t).
Proof.
  intros [Hi Ht Hs Hp Hd Hde Hr Hre]. split; cbn [touch inserted_subjects type_changed_subjects reachability_seeds
    reachability_probes touches_root_dataset touches_metadata_descriptor required_root_hits touches_reachability].
  all: try intros x; rewrite ?some_snoc, ?elem_of_when, ?orb_true_iff, ?andb_true_iff, ?orb_true_iff, ?andb_true_iff,
    ?bool_decide_eq_true.
  - by rewrite Hi.
  - by rewrite Ht.
  - rewrite <- (assoc_L (∪)), !elem_of_when, andb_true_iff, !bool_decide_eq_true, Hs. unfold data_class. tauto.
  - by rewrite Hp.
  - rewrite Hd. tauto.
  - rewrite Hde. tauto.
  - revert Hr. generalize (required_root_hits s), REQUIRED_ROOT_PROPERTIES. intros l k Hl.
    induction Hl as [|hit required l k Hh _ IH]; cbn [zip_with]; constructor; [|done].
    rewrite some_snoc, orb_true_iff, andb_true_iff, !bool_decide_eq_true. by rewrite Hh.
  - rewrite Hre. unfold data_class. tauto.
Qed.

Lemma summarize_spec graph ts : summary_of (graph_root graph) ts (summarize graph ts).
Proof.
  unfold summarize. induction ts as [|t ts IH] using rev_ind; [|rewrite foldl_app; by apply touch_summary].
  split; cbn [foldl summary_default inserted_subjects type_changed_subjects reachability_seeds
    reachability_probes touches_root_dataset touches_metadata_descriptor required_root_hits touches_reachability].
  all: try intros x; try (split; [by intros ?%elem_of_empty || done|by intros ?%some_nil]).
  unfold REQUIRED_ROOT_PROPERTIES. do 3 (apply Forall2_cons_2; [split; [done|by intros ?%some_nil]|]). apply Forall2_nil_2.
Qed.

(** ** The triples before and after *)

Definition triple_at (t : TouchedTriple) : Triple := (subject t, predicate t, object t).

(** Between two sets of triples only touched ones differ, as they were touched. *)
Record changed_by (ts : list TouchedTriple) (B P : gset Triple) : Prop := {
  cb_new x : x ∈ P → x ∈ B ∨ some_touched ts (λ t, inserted t = true ∧ triple_at t = x);
  cb_gone x : x ∈ B → x ∈ P ∨ some_touched ts (λ t, inserted t = false ∧ triple_at t = x);
}.

Section changes.
Context (graph : GraphId) (ts : list TouchedTriple) (B P : gset Triple) (s : DeltaSummary).
Let root := graph_root graph.
Context (Hchanged : changed_by ts B P) (Hs : summary_of root ts s).

(** A triple stays, unless the change set touches it. *)
Lemma stays x : (¬ some_touched ts (λ t, triple_at t = x)) → x ∈ B ↔ x ∈ P.
Proof.
  intros Hno. split; intros Hx.
  - destruct (cb_gone _ _ _ Hchanged x Hx) as [?|(t & Ht & _ & Hx')]; [done|]. destruct Hno. by exists t.
  - destruct (cb_new _ _ _ Hchanged x Hx) as [?|(t & Ht & _ & Hx')]; [done|]. destruct Hno. by exists t.
Qed.

Lemma root_stays : touches_root_dataset s = false → (root, RDF_TYPE, SCHEMA_DATASET) ∈ B ↔ (root, RDF_TYPE, SCHEMA_DATASET) ∈ P.
Proof.
  intros Hno. apply stays. intros (t & Ht & [= H1 H2 H3]). assert (touches_root_dataset s = true); [|congruence].
  apply (su_dataset _ _ _ Hs). by exists t.
Qed.

Lemma descriptor_stays :
  touches_metadata_descriptor s = false →
  rule_holds Descriptor graph B ↔ rule_holds Descriptor graph P.
Proof.
  intros Hno. cbn [rule_holds]. fold root. rewrite (stays (_, RDF_TYPE, _)), (stays (_, SCHEMA_ABOUT, _)); [done|..].
  all: intros (t & Ht & [= H1 H2 H3]); assert (touches_metadata_descriptor s = true); [|congruence].
  all: apply (su_descriptor _ _ _ Hs); exists t; split; [done|]; split; [done|]; auto.
Qed.

(** The objects of a root property stay when its slot is not hit. *)
Lemma slot_stays i hit required o :
  required_root_hits s !! i = Some hit → REQUIRED_ROOT_PROPERTIES !! i = Some required → hit = false →
  (root, required.1, o) ∈ B ↔ (root, required.1, o) ∈ P.
Proof.
  intros Hi Hr Hno. apply stays. intros (t & Ht & [= H1 H2 H3]).
  pose proof (Forall2_lookup_lr _ _ _ _ _ _ (su_required _ _ _ Hs) Hi Hr) as Hh. cbv beta in Hh.
  assert (hit = true); [|congruence]. apply Hh. by exists t.
Qed.

(** A subject untyped after the change set, where all were typed: it lost a
    type, or was not there before. *)
Lemma untyped_touched x p o :
  rule_holds EntityType graph B → (x, p, o) ∈ P → (∀ c, (x, RDF_TYPE, c) ∉ P) →
  x ∈ type_changed_subjects s ∨ x ∈ inserted_subjects s ∧ ∀ p o, (x, p, o) ∉ B.
Proof.
  intros Hheld Hx Hno. destruct (decide (x ∈ type_changed_subjects s)) as [?|Hn]; [by left|right].
  assert (∀ p o, (x, p, o) ∉ B) as Hnew.
  { intros p' o' [c Hc]%Hheld. destruct (cb_gone _ _ _ Hchanged _ Hc) as [Hc'|(t & Ht & _ & [= H1 H2 H3])]; [by eapply Hno|].
    apply Hn, (su_typed _ _ _ Hs). by exists t. }
  split; [|done]. destruct (cb_new _ _ _ Hchanged _ Hx) as [Hb|(t & Ht & Hi & [= H1 H2 H3])]; [by destruct (Hnew p o)|].
  apply (su_inserted _ _ _ Hs). by exists t.
Qed.

(** ** Orphans *)

(** From a reachable entity either a path is left, or an end of a removed edge
    leads to it. *)
Lemma path_or_seed x : rtc (has_part B) root x →
  rtc (has_part P) root x ∨ ∃ seed, seed ∈ reachability_seeds s ∧ rtc (has_part P) seed x.
Proof.
  revert x. apply rtc_ind_r; [left; apply rtc_refl|]. intros x y _ Hxy IH.
  destruct (cb_gone _ _ _ Hchanged _ Hxy) as [Hp|(t & Ht & _ & [= H1 H2 H3])].
  - destruct IH as [?|(seed & ? & ?)]; [left|right; exists seed; split; [done|]]; by eapply rtc_r.
  - right. exists y. split; [|apply rtc_refl]. apply (su_seeds _ _ _ Hs). exists t. split; [done|]. by left.
Qed.

Lemma orphan_touched e :
  rule_holds Reachability graph B → crate_entity root P e → ¬ rtc (has_part P) root e →
  e ∈ reachability_probes s ∨ ∃ seed, seed ∈ reachability_seeds s ∧ rtc (has_part P) seed e.
Proof.
  intros Hheld [Hne He] Hno. cbn [rule_holds] in Hheld. fold root in Hheld.
  assert (crate_entity root B e → ∃ seed, seed ∈ reachability_seeds s ∧ rtc (has_part P) seed e) as Hbase.
  { intros [?|?]%Hheld%path_or_seed; done. }
  assert (e ∈ reachability_seeds s → ∃ seed, seed ∈ reachability_seeds s ∧ rtc (has_part P) seed e) as Hseed.
  { intros. exists e. split; [done|apply rtc_refl]. }
  destruct He as [He|[He|(y & [He|He])]];
    (destruct (cb_new _ _ _ Hchanged _ He) as [Hb|(t & Ht & _ & [= H1 H2 H3])]).
  - right. apply Hbase. split; [done|]. by left.
  - right. apply Hseed, (su_seeds _ _ _ Hs). exists t. split; [done|]. right. split_and!; [done|by left|done].
  - right. apply Hbase. split; [done|]. right. by left.
  - right. apply Hseed, (su_seeds _ _ _ Hs). exists t. split; [done|]. right. split_and!; [done|by right|done].
  - right. apply Hbase. split; [done|]. right. right. exists y. by left.
  - left. apply (su_probes _ _ _ Hs). by exists t.
  - right. apply Hbase. split; [done|]. right. right. exists y. by right.
  - right. apply Hseed, (su_seeds _ _ _ Hs). exists t. split; [done|]. by left.
Qed.

(** Where no part and no data class is touched, reachability stays. *)
Lemma reach_stays : touches_reachability s = false → rule_holds Reachability graph B → rule_holds Reachability graph P.
Proof.
  intros Hno Hheld e [Hne He].
  assert (∀ x, x ∈ P → x.1.2 = SCHEMA_HAS_PART ∨ x.1.2 = RDF_TYPE ∧ data_class x.2 → x ∈ B) as Hold.
  { intros x Hx Hshape. apply stays; [|done]. intros (t & Ht & <-). assert (touches_reachability s = true); [|congruence].
    apply (su_reach _ _ _ Hs). by exists t. }
  assert (crate_entity root B e) as [Hreach|(seed & Hseed & _)]%Hheld%path_or_seed; [|done|].
  - split; [done|]. destruct He as [He|[He|(y & [He|He])]].
    + left. apply Hold; [done|]. right. split; [done|by left].
    + right. left. apply Hold; [done|]. right. split; [done|by right].
    + right. right. exists y. left. apply Hold; [done|by left].
    + right. right. exists y. right. apply Hold; [done|by left].
  - apply (su_seeds _ _ _ Hs) in Hseed as (t & Ht & Hshape). assert (touches_reachability s = true); [|congruence].
    apply (su_reach _ _ _ Hs). exists t. split; [done|]. destruct Hshape as [[? _]|(? & ? & _)]; auto.
Qed.
End changes.
