(* ===== verification/CrateCandidates.v ===== *)
(** * The candidate checks of the rules

    [Rule::check_candidate] reads only what a change set touches.  When the rule
    held before the change set, its verdict is that of a full check of the
    triples after it; with nothing changed it reads all it needs, or asks for the
    snapshot. *)

From S2P Require Import Prelude Clock Terms Store Codec QueryView IndexUpdate Transitions Replication Convergence.
From S2P Require Import LocalWrites IndexMirror Orphans Cursors Reads ReadRules Answers DeltaAnswers ViewRows CrateRules.
From S2P Require Import CrateViews CrateSnapshots CrateReach CrateChanges.
#[local] Open Scope craqle_scope.

(** The words the rules look up. *)
Definition crate_words (graph : GraphId) : list EncodedTerm :=
  [RDF_TYPE; SCHEMA_DATASET; SCHEMA_MEDIA_OBJECT; SCHEMA_CREATIVE_WORK; SCHEMA_HAS_PART; SCHEMA_ABOUT; SCHEMA_NAME;
   SCHEMA_DESCRIPTION; SCHEMA_DATE_PUBLISHED; METADATA_DESCRIPTOR; DCTERMS_CONFORMS_TO; graph_root graph] ++
  ((λ v, from_named_node (specification_url v)) <$> [V1_1; V1_2; V1_3]).

Section candidate.
Context `{Blake3} (cx : RuleContext) (sn : Snapshot) (scope : GraphVisibility) (validating : option TermId).
Context (rows : gset EncodedQuad) (term_of : TermId → option EncodedTerm).
Let graph : GraphId := rule_graph cx.
Context `{Hview : !CrateView (rule_view cx) sn scope validating (gid graph) rows term_of} (Hbytes : digest_bytes).
Context (Hgraph : delta_graph (index (rule_view cx)) = gid graph).
Context (Hwords : ∀ t, t ∈ crate_words graph → spelled term_of t).
Context (Hbound : size rows < walk_bound cx).
Context (B : gset Triple) (ts : list TouchedTriple).
Let P := said term_of rows.
Let root := rule_root cx.
Context (Hchanged : changed_by ts B P) (Hsum : summary_of root ts (summary cx)).
Context (Htouched : ∀ t, t ∈ ts → spelled term_of (subject t) ∧ spelled term_of (object t)).
Context (Hbefore : ∀ s, spelled term_of s →
  reads sn scope validating (subject_existed_before cx s) (λ b, b = true ↔ ∃ p o, (s, p, o) ∈ B)).

#[local] Abbreviation runs := (runs sn scope validating) (only parsing).
#[local] Abbreviation reads := (reads sn scope validating) (only parsing).
Let changed := delta_is_empty cx = false.

Lemma word n t : crate_words graph !! n = Some t → spelled term_of t.
Proof. intros Ht. by eapply Hwords, list_elem_of_lookup_2. Qed.
Let Htype : spelled term_of RDF_TYPE := word 0 _ eq_refl.
Let Hdataset : spelled term_of SCHEMA_DATASET := word 1 _ eq_refl.
Let Hmedia : spelled term_of SCHEMA_MEDIA_OBJECT := word 2 _ eq_refl.
Let Hcreative : spelled term_of SCHEMA_CREATIVE_WORK := word 3 _ eq_refl.
Let Hpart : spelled term_of SCHEMA_HAS_PART := word 4 _ eq_refl.
Let Habout : spelled term_of SCHEMA_ABOUT := word 5 _ eq_refl.
Let Hdate : spelled term_of SCHEMA_DATE_PUBLISHED := word 8 _ eq_refl.
Let Hdescriptor : spelled term_of METADATA_DESCRIPTOR := word 9 _ eq_refl.
Let Hroot : spelled term_of root := word 11 _ eq_refl.

(** What a candidate check says of its rule. *)
Definition verdict (id : RuleId) (r : CandidateCheck) : Prop :=
  match r with
  | Pass => rule_holds id graph P
  | Violated v => ¬ rule_holds id graph P ∧ code v = rule_code id
  | NeedSnapshot => delta_is_empty cx = true
  end.

(** ** Fixed triples *)

Lemma fixed_exists s p o :
  spelled term_of s → spelled term_of p → spelled term_of o → reads (triple_exists cx s p o) (λ b, b = true ↔ (s, p, o) ∈ P).
Proof. apply (triple_exists_reads cx sn scope validating rows term_of). all: done. Qed.

Lemma skipped (id : RuleId) touched :
  (changed → rule_holds id graph B) → (touched = false → rule_holds id graph B → rule_holds id graph P) →
  negb (delta_is_empty cx) && negb touched = true → verdict id Pass.
Proof.
  intros Hheld Hstay [Hc Ht]%andb_true_iff. apply negb_true_iff in Hc, Ht. cbn. auto.
Qed.

Lemma root_candidate : (changed → rule_holds Root graph B) → runs (check_candidate RootEntityRule cx) (verdict Root).
Proof.
  intros Hheld. cbn [check_candidate RootEntityRule]. destruct (negb _ && _) eqn:E.
  { apply runs_ret. eapply skipped; [done| |exact E]. intros Hno. by apply (root_stays graph ts B P (summary cx) Hchanged Hsum Hno). }
  eapply runs_read; [by apply fixed_exists|]. intros b Hb. apply runs_ret. destruct b; cbn [verdict rule_holds]; [by apply Hb|].
  split; [|done]. by intros ?%Hb.
Qed.

Lemma descriptor_candidate :
  (changed → rule_holds Descriptor graph B) → runs (check_candidate MetadataDescriptorRule cx) (verdict Descriptor).
Proof.
  intros Hheld. cbn [check_candidate MetadataDescriptorRule]. destruct (negb _ && _) eqn:E.
  { apply runs_ret. eapply skipped; [done| |exact E]. intros Hno. by apply (descriptor_stays graph ts B P (summary cx) Hchanged Hsum Hno). }
  eapply runs_read; [by apply fixed_exists|]. intros b1 H1. eapply runs_read; [by apply fixed_exists|]. intros b2 H2.
  apply runs_ret. destruct b1, b2; cbn [andb verdict rule_holds]; [by split; [apply H1|apply H2]|..].
  all: split; [|done]; intros [Ht Ha]; first [by apply H1 in Ht|by apply H2 in Ha].
Qed.

(** ** Root properties *)

Lemma check_required_runs l :
  (∀ r touched, (r, touched) ∈ l → spelled term_of r.1 ∧ (changed → touched = false → ∃ o, (root, r.1, o) ∈ P)) →
  runs (check_required cx l) (λ r, match r with
    | Pass => ∀ r touched, (r, touched) ∈ l → ∃ o, (root, r.1, o) ∈ P
    | Violated v => (∃ r touched, (r, touched) ∈ l ∧ ¬ ∃ o, (root, r.1, o) ∈ P) ∧ code v = rule_code RequiredProperties
    | NeedSnapshot => False end).
Proof.
  induction l as [|[[p label] touched] l IH]; intros Hl; cbn [check_required].
  { apply runs_ret. by intros ? ? ?%elem_of_nil. }
  destruct (Hl (p, label) touched ltac:(by left)) as [Hp Hskip]. cbn in Hp.
  assert ((∃ o, (root, p, o) ∈ P) → runs (check_required cx l) (λ r, match r with
    | Pass => ∀ r t, (r, t) ∈ ((p, label), touched) :: l → ∃ o, (root, r.1, o) ∈ P
    | Violated v => (∃ r t, (r, t) ∈ ((p, label), touched) :: l ∧ ¬ ∃ o, (root, r.1, o) ∈ P) ∧ code v = rule_code RequiredProperties
    | NeedSnapshot => False end)) as Hnext.
  { intros Ho. eapply runs_weaken; [apply IH; intros; apply Hl; by right|]. intros [|v|]; [| |done].
    - intros Hall r t [[= -> ->]|Hin]%elem_of_cons; [done|by eapply Hall].
    - intros [(r & t & Hin & Hno) Hc]. split; [|done]. exists r, t. split; [by right|done]. }
  destruct (negb _ && _) eqn:E; [apply andb_true_iff in E as [Hc%negb_true_iff Ht%negb_true_iff]; by apply Hnext, Hskip|].
  eapply runs_read; [by apply (has_subject_predicate_reads cx sn scope validating rows term_of)|]. intros b Hb.
  destruct b; [by apply Hnext, Hb|]. apply runs_ret. split; [|done]. exists (p, label), touched. split; [by left|].
  by intros ?%Hb.
Qed.

Lemma required_word required : required ∈ REQUIRED_ROOT_PROPERTIES → spelled term_of required.1.
Proof.
  unfold REQUIRED_ROOT_PROPERTIES. rewrite !elem_of_cons, elem_of_nil.
  intros [->|[->|[->|[]]]]; [exact (word 6 _ eq_refl)|exact (word 7 _ eq_refl)|exact Hdate].
Qed.

(** The slots of the summary, beside the properties they stand for. *)
Lemma slot_lookup i required touched :
  zip REQUIRED_ROOT_PROPERTIES (required_root_hits (summary cx)) !! i = Some (required, touched) →
  REQUIRED_ROOT_PROPERTIES !! i = Some required ∧ required_root_hits (summary cx) !! i = Some touched.
Proof. rewrite lookup_zip_with_Some. by intros (? & ? & [= -> ->] & ? & ?). Qed.
Lemma slot_of required :
  required ∈ REQUIRED_ROOT_PROPERTIES →
  ∃ touched, (required, touched) ∈ zip REQUIRED_ROOT_PROPERTIES (required_root_hits (summary cx)).
Proof.
  intros (i & Hi)%list_elem_of_lookup. destruct (Forall2_lookup_r _ _ _ _ _ (su_required _ _ _ Hsum) Hi) as (t & Ht & _).
  exists t. apply list_elem_of_lookup. exists i. apply lookup_zip_with_Some. by exists required, t.
Qed.

Lemma required_candidate :
  (changed → rule_holds RequiredProperties graph B) → runs (check_candidate RequiredRootRule cx) (verdict RequiredProperties).
Proof.
  intros Hheld. cbn [check_candidate RequiredRootRule].
  assert (∀ i r touched, REQUIRED_ROOT_PROPERTIES !! i = Some r → required_root_hits (summary cx) !! i = Some touched →
    changed → touched = false → ∃ o, (root, r.1, o) ∈ P) as Hkept.
  { intros i r touched Hr Hh Hc Ht. destruct (Hheld Hc r.1) as [o Ho].
    { apply list_elem_of_fmap. exists r. split; [done|]. by eapply list_elem_of_lookup_2. }
    exists o. by apply (slot_stays graph ts B P (summary cx) Hchanged Hsum i touched r). }
  destruct (negb _ && _) eqn:E.
  { apply runs_ret. apply andb_true_iff in E as [Hc%negb_true_iff Ht%negb_true_iff]. cbn [verdict rule_holds].
    intros p (r & -> & (i & Hi)%list_elem_of_lookup)%list_elem_of_fmap.
    destruct (Forall2_lookup_r _ _ _ _ _ (su_required _ _ _ Hsum) Hi) as (hit & Hh & _).
    apply (Hkept i r hit Hi Hh Hc). destruct hit; [|done]. unfold touches_required_root in Ht. exfalso.
    assert (existsb id (required_root_hits (summary cx)) = true); [|congruence]. apply existsb_exists. exists true.
    split; [|done]. apply list_elem_of_In. by eapply list_elem_of_lookup_2. }
  eapply runs_weaken; [apply check_required_runs|].
  - intros r touched (i & [Hr Hh]%slot_lookup)%list_elem_of_lookup. split; [|by eapply Hkept].
    apply required_word. by eapply list_elem_of_lookup_2.
  - intros [|v|]; cbn [verdict]; [| |done].
    + intros Hall p (r & -> & [t Ht]%slot_of)%list_elem_of_fmap. by eapply Hall.
    + intros [(r & t & (i & [Hr _]%slot_lookup)%list_elem_of_lookup & Hno) Hc]. split; [|done]. intros Hall. apply Hno, Hall.
      apply list_elem_of_fmap. exists r. split; [done|]. by eapply list_elem_of_lookup_2.
Qed.

Lemma published_candidate :
  (changed → rule_holds DatePublished graph B) → runs (check_candidate PublishedCardinalityRule cx) (verdict DatePublished).
Proof.
  intros Hheld. cbn [check_candidate PublishedCardinalityRule].
  destruct (negb _ && _) eqn:E.
  { apply runs_ret. eapply skipped; [done| |exact E]. intros Hno (o & Ho). exists o. intros o'. rewrite <- Ho. symmetry.
    assert (REQUIRED_ROOT_PROPERTIES !! DATE_PUBLISHED_SLOT = Some (SCHEMA_DATE_PUBLISHED, "schema:datePublished")) as Hi by done.
    destruct (Forall2_lookup_r _ _ _ _ _ (su_required _ _ _ Hsum) Hi) as (hit & Hh & _). rewrite Hh in Hno.
    by apply (slot_stays graph ts B P (summary cx) Hchanged Hsum _ _ _ o' Hh Hi). }
  eapply runs_read; [by apply (rule_count_reads cx sn scope validating rows term_of)|]. intros n ->. apply runs_ret.
  assert (counted (size (objects P root SCHEMA_DATE_PUBLISHED)) = 1 ↔ rule_holds DatePublished graph P) as Hone.
  { cbn [rule_holds]. rewrite <- one_object. change (graph_root graph) with root. generalize (size (objects P root SCHEMA_DATE_PUBLISHED)). intros n. unfold counted. assert (1 < u64_max)%N by done. lia. }
  fold P. case_bool_decide as Hc; cbn [verdict]; [by apply Hone|]. split; [by rewrite <- Hone|done].
Qed.

(** ** Types *)

Let T_typed s : spelled term_of s → reads (has_subject_predicate cx s RDF_TYPE) (λ b, b = true ↔ ∃ c, (s, RDF_TYPE, c) ∈ P).
Proof. intros Hs. by apply (has_subject_predicate_reads cx sn scope validating rows term_of). Qed.

Lemma untyped_candidates_reads l X :
  (∀ s, s ∈ l → spelled term_of s) →
  reads (untyped_candidates cx l X) (λ Y, ∀ s, s ∈ Y ↔ s ∈ X ∨ s ∈ l ∧ ¬ ∃ p o, (s, p, o) ∈ B).
Proof.
  revert X. induction l as [|x l IH]; intros X Hl; cbn [untyped_candidates].
  { apply reads_ret. intros s. rewrite elem_of_nil. tauto. }
  eapply reads_bind; [by apply Hbefore, Hl; left|]. intros b Hb.
  eapply reads_weaken; [apply IH; intros; apply Hl; by right|]. cbv beta. intros Y HY s. rewrite HY, elem_of_cons.
  destruct b.
  - split; [intros [?|[? ?]]; auto|]. intros [?|[[->|?] Hno]]; auto. by destruct Hno; apply Hb.
  - assert (¬ ∃ p o, (x, p, o) ∈ B) as Hno by (by intros ?%Hb). rewrite elem_of_union, elem_of_singleton.
    split; [intros [[->|?]|[? ?]]; auto|]. intros [?|[[->|?] ?]]; auto.
Qed.

Lemma check_typed_runs l :
  (∀ s, s ∈ l → spelled term_of s) →
  runs (check_typed cx l) (λ r, match r with
    | Pass => ∀ s p o, s ∈ l → (s, p, o) ∈ P → ∃ c, (s, RDF_TYPE, c) ∈ P
    | Violated v => ¬ rule_holds EntityType graph P ∧ code v = rule_code EntityType
    | NeedSnapshot => False end).
Proof.
  induction l as [|x l IH]; intros Hl; cbn [check_typed].
  { apply runs_ret. by intros ? ? ? ?%elem_of_nil. }
  pose proof (Hl x ltac:(by left)) as Hx.
  assert (((∃ p o, (x, p, o) ∈ P) → ∃ c, (x, RDF_TYPE, c) ∈ P) → runs (check_typed cx l) (λ r, match r with
    | Pass => ∀ s p o, s ∈ x :: l → (s, p, o) ∈ P → ∃ c, (s, RDF_TYPE, c) ∈ P
    | Violated v => ¬ rule_holds EntityType graph P ∧ code v = rule_code EntityType
    | NeedSnapshot => False end)) as Hnext.
  { intros Ht. eapply runs_weaken; [apply IH; intros; apply Hl; by right|]. intros [|v|]; [|done..].
    intros Hall s p o [->|Hin]%elem_of_cons Hs; [by apply Ht; exists p, o|by eapply Hall]. }
  eapply runs_read; [by apply (subject_has_triples_reads cx sn scope validating rows term_of)|]. intros b Hb.
  destruct b; cbn [negb]; [|apply Hnext; by intros ?%Hb].
  eapply runs_read; [by apply T_typed|]. intros b Ht. destruct b; [apply Hnext; intros _; by apply Ht|]. apply runs_ret.
  split; [|done]. intros Hall. destruct (proj1 Hb eq_refl) as (p & o & Hp). by apply Hall, Ht in Hp.
Qed.

Lemma summary_spelled x :
  x ∈ inserted_subjects (summary cx) ∪ type_changed_subjects (summary cx) ∪ reachability_seeds (summary cx) ∪
      reachability_probes (summary cx) → spelled term_of x.
Proof.
  rewrite !elem_of_union. intros [[[Hx|Hx]|Hx]|Hx].
  - apply (su_inserted _ _ _ Hsum) in Hx as (t & Ht & _ & <-). by apply Htouched.
  - apply (su_typed _ _ _ Hsum) in Hx as (t & Ht & _ & <-). by apply Htouched.
  - apply (su_seeds _ _ _ Hsum) in Hx as (t & Ht & [[_ <-]|(_ & _ & <-)]); by apply Htouched.
  - apply (su_probes _ _ _ Hsum) in Hx as (t & Ht & _ & <-). by apply Htouched.
Qed.

Lemma type_candidate : (changed → rule_holds EntityType graph B) → runs (check_candidate EntityTypeRule cx) (verdict EntityType).
Proof.
  intros Hheld. cbn [check_candidate EntityTypeRule]. destruct (delta_is_empty cx) eqn:Hempty; [by apply runs_ret|].
  eapply runs_read; [apply untyped_candidates_reads|].
  { intros s Hs%elem_of_btree_elems. apply summary_spelled. set_solver. }
  intros Y HY. cbv beta in HY. eapply runs_weaken; [apply check_typed_runs|].
  { intros s [Hs|[Hs _]]%elem_of_btree_elems%HY; apply summary_spelled; [set_solver|].
    apply elem_of_btree_elems in Hs. set_solver. }
  intros [|v|]; [|done..]. cbn [verdict]. intros Hall s p o Hs. destruct (set_choose_or_empty (objects P s RDF_TYPE)) as [(t & (c & -> & Hc)%elem_of_objects)|Hno].
  - by exists c.
  - apply (Hall s p o); [|done]. apply elem_of_btree_elems, HY.
    destruct (untyped_touched graph ts B P (summary cx) Hchanged Hsum s p o (Hheld eq_refl) Hs) as [?|[Hi Hb]]; [|by left|right].
    + intros c Hc. apply (not_elem_of_empty (C := gset Triple) (s, RDF_TYPE, c)), Hno, elem_of_objects. by exists c.
    + split; [by apply elem_of_btree_elems|]. intros (p' & o' & Hp). by apply (Hb p' o').
Qed.

(** ** Reachability *)

Lemma entity_spelled e : crate_entity root P e → spelled term_of e.
Proof.
  pose proof (said_spelled term_of rows) as Hsp. pose proof (cv_hash (view := rule_view cx)) as Hh.
  intros (_ & [He|[He|(y & [He|He])]]); by destruct (Hsp _ _ _ Hh He) as (? & ? & ?).
Qed.

(** The search decides what it searches for. *)
Lemma reached_or_not e : spelled term_of e → ∀ c, context_ok sn scope validating c → checks_left c = None →
  rtc (has_part P) root e ∨ ¬ rtc (has_part P) root e.
Proof.
  intros He c Hc Hn.
  destruct (is_reachable_wk cx sn scope validating rows term_of Hbytes Hgraph Hpart Hbound e new_walk) with (c := c)
    as (_ & _ & b & _ & _ & _ & Hb & _); [apply new_walk_ok|done..|].
  destruct b; [left; by apply Hb|right; by intros ?%Hb].
Qed.

Lemma reach_candidate :
  (changed → rule_holds Reachability graph B) → runs (check_candidate ReachabilityRule cx) (verdict Reachability).
Proof.
  intros Hheld. cbn [check_candidate ReachabilityRule]. destruct (delta_is_empty cx) eqn:Hempty; [by apply runs_ret|].
  specialize (Hheld eq_refl). destruct (touches_reachability (summary cx)) eqn:E; cbn [negb].
  2: { apply runs_ret. by apply (reach_stays graph ts B P (summary cx)). }
  intros c Hc Hn.
  destruct (first_orphan_wk cx sn scope validating rows term_of Hbytes Hgraph Hpart Hbound Htype Hdataset Hmedia) with (c := c)
    as (c' & w' & o & Hr & Hc' & Hn' & Ho); [|done..|].
  { intros e He. apply summary_spelled. set_solver. }
  rewrite Hr. exists c'. eexists. split_and!; [reflexivity|done..|]. destruct o as [e|]; cbn [verdict].
  - split; [|done]. destruct Ho as [He Hno]. intros Hall. by apply Hno, Hall.
  - intros e He. destruct (reached_or_not e (entity_spelled e He) c Hc Hn) as [?|Hno]; [done|]. exfalso.
    by destruct (Ho e (orphan_touched graph ts B P (summary cx) Hchanged Hsum e Hheld He Hno)).
Qed.

(** Every candidate check decides its rule, or asks for the snapshot. *)
Lemma candidate_decides id : (changed → rule_holds id graph B) → runs (check_candidate (rule_of id) cx) (verdict id).
Proof.
  destruct id; [apply root_candidate|apply descriptor_candidate|apply required_candidate|apply published_candidate|
    apply type_candidate|apply reach_candidate].
Qed.
End candidate.
