(* ===== verification/CrateDelta.v ===== *)
(** * A change set as text

    A change set inserts and removes triples.  The rows a change set's view of a
    graph shows are the triples of the graph, as text, with the changes made in
    order; and so are the triples of the store a local write of it leaves. *)

From S2P Require Import Prelude Clock Terms Store Codec QueryView IndexUpdate Transitions Replication Convergence.
From S2P Require Import LocalWrites IndexMirror Orphans Cursors Reads ReadRules Answers DeltaAnswers ViewRows CrateRules.
From S2P Require Import CrateViews CrateSnapshots CrateReach CrateChanges CrateCandidates.
#[local] Open Scope craqle_scope.

(** ** Changes of triples *)

Definition change_triple (c : MaterializedQuadChange) : Triple :=
  match c with Insert _ s p o | Delete _ s p o => (s, p, o) end.
Definition apply_change (T : gset Triple) (c : MaterializedQuadChange) : gset Triple :=
  if present c then {[change_triple c]} ∪ T else T ∖ {[change_triple c]}.
(** The triples of a graph after a change set. *)
Definition apply_changes (graph : GraphId) (delta : list MaterializedQuadChange) (T : gset Triple) : gset Triple :=
  foldl apply_change T (of_graph graph delta).

Lemma elem_of_apply T c x :
  x ∈ apply_change T c ↔ if decide (change_triple c = x) then present c = true else x ∈ T.
Proof. unfold apply_change. destruct (present c), (decide (change_triple c = x)); set_solver. Qed.

Lemma touched_triple c : triple_at (touched_change c) = change_triple c ∧ inserted (touched_change c) = present c.
Proof. by destruct c. Qed.

(** Only triples the changes name differ. *)
Lemma apply_changed_by T l : changed_by (touched_change <$> l) T (foldl apply_change T l).
Proof.
  induction l as [|c l [IHn IHg]] using rev_ind; [split; auto|]. rewrite foldl_app, fmap_app.
  change (touched_change <$> [c]) with [touched_change c].
  pose proof (touched_triple c) as [Ht Hi]. split; intros x Hx.
  - cbn [foldl] in Hx. apply elem_of_apply in Hx. rewrite some_snoc. case_decide.
    + right. right. rewrite Ht, Hi. done.
    + apply IHn in Hx as [?|?]; auto.
  - cbn [foldl]. rewrite some_snoc, elem_of_apply, Ht, Hi. case_decide as Hc.
    + destruct (present c); auto.
    + apply IHg in Hx as [?|?]; auto.
Qed.

(** ** The triples of a graph *)

Section store.
Context `{Blake3}.

Definition live_rows (st : Store) (graph : GraphId) : gset EncodedQuad :=
  filter (λ q, quad_graph q = gid graph) (live_set st).
Definition graph_triples (st : Store) (graph : GraphId) : gset Triple :=
  said (λ x, terms st !! x) (live_rows st graph).

Lemma elem_of_held_rows st graph q : q ∈ live_rows st graph ↔ q ∈ live_set st ∧ quad_graph q = gid graph.
Proof. unfold live_rows. rewrite elem_of_filter. tauto. Qed.

(** Rows read alike say the same. *)
Lemma said_ext (f g : TermId → option EncodedTerm) rows :
  (∀ q x, q ∈ rows → x ∈ [quad_subject q; quad_predicate q; quad_object q] → f x = g x) → said f rows = said g rows.
Proof.
  intros Heq. apply set_eq. intros [[s p] o]. rewrite !elem_of_said.
  assert (∀ q, q ∈ rows → f (quad_subject q) = g (quad_subject q) ∧ f (quad_predicate q) = g (quad_predicate q) ∧
    f (quad_object q) = g (quad_object q)) as Hq.
  { intros q Hq. split_and!; apply (Heq q); set_solver. }
  split; intros (q & Hin & H1 & H2 & H3); exists q; destruct (Hq q Hin) as (E1 & E2 & E3);
    (split_and!; [done| | |]; congruence).
Qed.
End store.

(** Terms that name a store's quads and the changes of a graph. *)
Record names_changes `{Blake3} (st : Store) (graph : GraphId) (delta : list MaterializedQuadChange)
    (term_of : TermId → option EncodedTerm) : Prop := {
  nc_base x t : terms st !! x = Some t → term_of x = Some t;
  nc_hash : hashed term_of;
  nc_change c t : c ∈ of_graph graph delta → t ∈ change_terms c → term_of (hash_term t) = Some t;
}.

Section text.
Context `{Blake3} (sn : Snapshot) (graph : GraphId) (delta : list MaterializedQuadChange).
Let st := sn_store sn.
Let g := gid graph.
Let changes := of_graph graph delta.
Context (term_of : TermId → option EncodedTerm) (Hnames : names_changes st graph delta term_of).
Context (Hcrate : crate_sound st).
Context (rows : gset EncodedQuad).
Context (Hrows : ∀ q, q ∈ rows ↔ posted sn graph delta q ∧ quad_graph q = g).

Let base_term := nc_base _ _ _ _ Hnames.
Let view_hashed := nc_hash _ _ _ _ Hnames.
Let change_term := nc_change _ _ _ _ Hnames.

Lemma base_rows_known q : q ∈ live_rows st graph → is_Some (term_of (quad_subject q)) ∧
  is_Some (term_of (quad_predicate q)) ∧ is_Some (term_of (quad_object q)).
Proof.
  intros [Hq _]%elem_of_held_rows. destruct (rs_terms _ (cs_rows _ Hcrate) q Hq) as ([? H1] & [? H2] & [? H3]).
  apply base_term in H1, H2, H3. by rewrite H1, H2, H3.
Qed.
(** The store's triples, read through the change set. *)
Lemma base_said : said term_of (live_rows st graph) = graph_triples st graph.
Proof.
  apply said_ext. intros q x [Hq _]%elem_of_held_rows Hx.
  destruct (rs_terms _ (cs_rows _ Hcrate) q Hq) as ([? H1] & [? H2] & [? H3]).
  rewrite !elem_of_cons, elem_of_nil in Hx. fold st in H1, H2, H3.
  destruct Hx as [->|[->|[->|[]]]]; rewrite ?H1, ?H2, ?H3; by apply base_term.
Qed.

(** A change names a quad exactly when it names what the quad says. *)
Lemma key_triple c q s p o :
  c ∈ changes → quad_graph q = g → triple_of term_of q = Some (s, p, o) → spelled_key g c = q ↔ change_triple c = (s, p, o).
Proof.
  intros Hc Hg (Ks & Kp & Ko)%triple_of_Some. pose proof view_hashed as Hh.
  pose proof (change_term c) as Ht. split.
  - intros <-. destruct c; cbn in *; rewrite Ht in Ks, Kp, Ko by (done || set_solver); congruence.
  - pose proof (Hh _ _ Ks) as E1. pose proof (Hh _ _ Kp) as E2. pose proof (Hh _ _ Ko) as E3.
    destruct q as [g' s' p' o']. cbn in *. subst. intros Heq. destruct c; cbn in *; by injection Heq as -> -> ->.
Qed.

(** A quad's last change is the last change of what it says. *)
Lemma last_state_triple q s p o :
  quad_graph q = g → triple_of term_of q = Some (s, p, o) →
  (s, p, o) ∈ apply_changes graph delta (graph_triples st graph) ↔
    match last_state g changes q with Some b => b = true | None => (s, p, o) ∈ graph_triples st graph end.
Proof.
  intros Hg Hq. unfold apply_changes. fold changes.
  assert (∀ c, c ∈ changes → c ∈ changes) as Hin by done. revert Hin. generalize changes at 1 3 4. intros l.
  induction l as [|c l IH] using rev_ind; intros Hin; [done|].
  rewrite foldl_app, last_state_snoc. cbn [foldl]. rewrite elem_of_apply.
  pose proof (key_triple c q s p o (Hin c ltac:(set_solver)) Hg Hq) as Hk.
  destruct (decide (spelled_key g c = q)) as [E|E]; [by rewrite decide_True by (by apply Hk)|].
  rewrite decide_False by (by intros ?%Hk). apply IH. set_solver.
Qed.

(** The view shows the changed triples. *)
Lemma view_said : said term_of rows = apply_changes graph delta (graph_triples st graph).
Proof.
  apply set_eq. intros [[s p] o]. rewrite elem_of_said. split.
  - intros (q & [Hp Hg]%Hrows & Ht). assert (triple_of term_of q = Some (s, p, o)) as Hq by by apply triple_of_Some.
    apply (last_state_triple q); [done..|]. unfold posted in Hp. fold g changes in Hp.
    destruct (last_state g changes q); [done|]. rewrite <- base_said. apply elem_of_said. exists q. split; [|done].
    by apply elem_of_held_rows.
  - intros Hx. set (q := {| quad_graph := g; quad_subject := hash_term s; quad_predicate := hash_term p; quad_object := hash_term o |}).
    assert (term_of (hash_term s) = Some s ∧ term_of (hash_term p) = Some p ∧ term_of (hash_term o) = Some o) as Hk.
    { destruct (cb_new _ _ _ (apply_changed_by _ changes) _ Hx) as [Hb|(t & (c & -> & Hc)%list_elem_of_fmap & _ & Ht)].
      - rewrite <- base_said in Hb. apply elem_of_said in Hb as (q' & Hq' & K1 & K2 & K3). pose proof view_hashed as Hh.
        by rewrite (Hh _ _ K1), (Hh _ _ K2), (Hh _ _ K3).
      - destruct (touched_triple c) as [Htr _]. rewrite Htr in Ht.
        split_and!; apply (change_term c); (done || destruct c; cbn in *; injection Ht as -> -> ->; set_solver). }
    assert (triple_of term_of q = Some (s, p, o)) as Hq by by apply triple_of_Some.
    exists q. split; [|done]. apply Hrows. split; [|done]. unfold posted. fold g changes.
    apply (last_state_triple q) in Hx; [|done..]. destruct (last_state g changes q); [done|].
    rewrite <- base_said in Hx. apply elem_of_said in Hx as (q' & [Hl Hg']%elem_of_held_rows & K1 & K2 & K3).
    pose proof view_hashed as Hh. apply Hh in K1, K2, K3. unfold q. rewrite K1, K2, K3. destruct q'; cbn in *. by subst.
Qed.
End text.

(** ** The view of a change set *)

Lemma unchanged_steps `{Blake3} st graph rt delta ix0 ix :
  try_fold (delta_step st graph rt) ix0 delta = Ok ix → of_graph graph delta = [] → ix = ix0.
Proof.
  revert ix0. unfold of_graph. induction delta as [|c l IH]; intros ix0; cbn [try_fold]; [by intros [= <-]|].
  intros (ix1 & Hstep & Hl)%bind_ok. rewrite filter_cons. case_decide as Hc; [done|]. intros Hnil.
  rewrite (IH ix1) by done.
  unfold delta_step in Hstep. destruct c; cbn in Hc, Hstep; rewrite decide_True in Hstep by done; by injection Hstep as <-.
Qed.

Section view.
Context `{Blake3} (store : StoreReadView) (graph : GraphId) (delta : list MaterializedQuadChange) (ix : DeltaIndex).
Let sn := snapshot store.
Let st := sn_store sn.
Let view : DeltaReadView := {| base := store; index := ix |}.
Context (Hs : snapshot_sound sn) (Hbytes : digest_bytes) (Hcrate : crate_sound st).
Context (Hbuilt : delta_build st graph delta = Ok ix) (Hread : readable store (Named (gid graph))).

Let Htexts : texts_of st graph delta (delta_terms ix) := build_texts _ _ _ _ Hbuilt.

Lemma view_names : names_changes st graph delta (delta_term view).
Proof.
  split; unfold delta_term; cbn [index base view]; fold sn st.
  - intros x t Hx. rewrite lookup_union, Hx. destruct (delta_terms ix !! x) as [t'|] eqn:E; cbn; [|done].
    by rewrite (to_base _ _ _ _ Htexts _ _ _ E Hx).
  - intros x t. rewrite lookup_union_Some_raw.
    intros [Hx|[_ Hx]]; [by apply (to_hash _ _ _ _ Htexts)|by apply (cs_hash _ Hcrate)].
  - intros c t [Hg Hc]%list_elem_of_filter Ht. apply lookup_union_Some_l. by apply (to_changes _ _ _ _ Htexts c).
Qed.

(** A validation of the graph shows every row of it. *)
Lemma validating_rows q :
  post_answers view (Exact {[gid graph]}) (Some (gid graph)) graph delta (Named (gid graph)) pattern_default q ↔
  posted sn graph delta q ∧ quad_graph q = gid graph.
Proof.
  unfold post_answers, selects, row_visible, visible_graph. cbn [base view]. fold sn.
  assert (matches pattern_default q = true) by by destruct q. rewrite andb_true_r, bool_decide_eq_true. tauto.
Qed.

(** The rows of a change set are within the bound of a walk. *)
Lemma posted_bound (rows : gset EncodedQuad) s :
  (∀ q, q ∈ rows → posted sn graph delta q) → size rows < walk_bound (rule_context store graph ix s).
Proof.
  intros Hrows. unfold walk_bound. cbn [rule_context rule_view base index]. fold sn st.
  pose proof (delta_build_ok _ _ _ _ Hbuilt) as Hok. rewrite <- (size_dom (D := gset EncodedQuad) (quads st)), <- (size_dom (D := gset EncodedQuad) (states ix)).
  assert (rows ⊆ dom (quads st) ∪ dom (states ix)) as Hsub%subseteq_size.
  { intros q Hq%Hrows. unfold posted in Hq. apply elem_of_union. destruct (last_state _ _ q) as [b|] eqn:E.
    - right. apply elem_of_dom. rewrite (do_states _ _ _ Hok), E. by eexists.
    - left. apply elem_of_live_set in Hq. unfold read_quad_dots in Hq. apply elem_of_dom. fold st in Hq.
      destruct (quads st !! q); [by eexists|done]. }
  rewrite size_union_alt in Hsub.
  assert (size (dom (states ix) ∖ dom (quads st) : gset EncodedQuad) ≤ size (dom (states ix) : gset EncodedQuad))
    by (apply subseteq_size; set_solver). lia.
Qed.

(** What the view shows of a validation. *)
Lemma validating_view :
  ∃ rows, CrateView view sn (Exact {[gid graph]}) (Some (gid graph)) (gid graph) rows (delta_term view) ∧
    said (delta_term view) rows = apply_changes graph delta (graph_triples st graph) ∧
    ∀ s, size rows < walk_bound (rule_context store graph ix s).
Proof.
  destruct (delta_crate_view view (Exact {[gid graph]}) (Some (gid graph)) graph delta Hs Hbytes Hcrate Hbuilt Hread)
    as (rows & Hv & Hrows).
  setoid_rewrite validating_rows in Hrows. exists rows. split; [done|]. split.
  - by apply (view_said sn graph delta (delta_term view) view_names Hcrate).
  - intros s. apply posted_bound. intros q Hq. by apply Hrows.
Qed.

Lemma shown_rows p q :
  answers (snapshot store) (Exact {[gid graph]}) (Some (gid graph)) (Named (gid graph)) p q ↔
  q ∈ live_rows st graph ∧ matches p q = true.
Proof.
  unfold answers, selects, row_visible, visible_graph. rewrite elem_of_held_rows, andb_true_r, bool_decide_eq_true. fold sn st. tauto.
Qed.

(** The base under the overlay shows the triples before. *)
Lemma before_reads s sm :
  spelled (delta_term view) s →
  reads sn (Exact {[gid graph]}) (Some (gid graph)) (subject_existed_before (rule_context store graph ix sm) s)
    (λ b, b = true ↔ ∃ p o, (s, p, o) ∈ graph_triples st graph).
Proof.
  intros Hsp. destruct validating_view as (rows & Hv & _). unfold subject_existed_before. cbn [rule_context rule_view].
  rewrite <- (base_said sn graph delta _ view_names Hcrate : _ = graph_triples st graph). pose proof (nc_hash _ _ _ _ view_names) as Hh.
  eapply reads_bind; [by apply (cv_lookup (view := view))|]. intros ? ->. fold view.
  destruct (delta_term view (hash_term s)) as [s'|] eqn:E; cbn [fmap option_fmap option_map].
  2: { apply reads_ret. split; [done|]. intros (p & o & (q & _ & Hq & _)%elem_of_said). rewrite (Hh _ _ Hq) in E. congruence. }
  unfold view_graph. cbn [rule_context rule_view index base]. rewrite (do_graph _ _ _ (delta_build_ok _ _ _ _ Hbuilt)).
  eapply reads_weaken; [apply store_exists_reads; [done| |by intros ? [= <-]; apply hash_term_fit|done]|].
  { by apply (spo_fit Hbytes (Some s) None None). }
  intros b ->. cbn [base view]. setoid_rewrite shown_rows.
  etransitivity; [apply (matching_said (delta_term view) (live_rows st graph) Hh
    (base_rows_known sn graph delta _ view_names Hcrate) s None None); done|].
  split; [intros (p & o & Hq & _); by exists p, o|]. intros (p & o & Hq). exists p, o. split_and!; [done|by intros..].
Qed.

(** The changes of the graph are spelled as they are summarised. *)
Lemma touched_spelled t : t ∈ touched_change <$> of_graph graph delta →
  spelled (delta_term view) (subject t) ∧ spelled (delta_term view) (object t).
Proof.
  intros (c & -> & Hc)%list_elem_of_fmap. pose proof (nc_hash _ _ _ _ view_names) as Hh.
  split; eapply (hashed_spelled _ _ _ Hh), (nc_change _ _ _ _ view_names c); [done| |done|]; destruct c; cbn; set_solver.
Qed.

(** No change of the graph, no impact. *)
Lemma unchanged_impact : of_graph graph delta = [] → changed_subjects (impact ix) = ∅.
Proof.
  intros Hnil. pose proof Hbuilt as Hb. unfold delta_build in Hb. apply bind_ok in Hb as ([g' t1] & _ & Hb).
  apply bind_ok in Hb as ([rt t2] & _ & Hb). by apply unchanged_steps in Hb as ->.
Qed.
End view.

(** ** Local writes *)

Section commit.
Context `{Oxrdf} `{Blake3}.
Context (actor : ActorId) (graph : GraphId) (changes : list MaterializedQuadChange) (hints : option TaggedRenderHints).
Context (now : Z) (st st' : Store) (b : Batch).
Context (Hcrate : crate_sound st) (Hcov : covered st graph).
Context (Hlocal : local_batch actor st graph changes hints now = Ok (b, st')).
Context (Hch : Forall (λ c, change_graph c = graph ∧ stored_spelling c) changes).

Let Heffect := local_batch_effect _ _ _ _ _ _ _ _ Hlocal.
Let sn : Snapshot := {| sn_store := st; sn_diagnostics := ∅; sn_views := init_views; sn_seqno := 0 |}.

Lemma written_names : names_changes st graph changes (λ x, terms st' !! x).
Proof.
  split.
  - intros x t Hx. apply (le_terms _ _ _ _ _ _ Heffect). by left.
  - intros x t [Hx|[-> _]]%(le_terms _ _ _ _ _ _ Heffect); [by apply (cs_hash _ Hcrate)|done].
  - intros c t [_ Hc]%list_elem_of_filter Ht. apply (le_terms _ _ _ _ _ _ Heffect). right. split; [done|]. right. left.
    apply list_elem_of_bind. by exists c.
Qed.

(** A write of a graph leaves the quads of the others. *)
Lemma ops_elsewhere g ops S k e : quad_graph k ≠ g → ops_result g ops S k e ↔ S k e.
Proof.
  intros Hk. unfold ops_result. revert S. induction ops as [|op ops IH]; intros S; cbn [foldl]; [done|]. rewrite IH.
  assert (k ≠ op_key g op) as Hne by (intros ->; apply Hk; by destruct op).
  destruct op; cbn [op_result]; tauto.
Qed.
Lemma elsewhere q : quad_graph q ≠ gid graph → q ∈ live_set st' ↔ q ∈ live_set st.
Proof.
  intros Hq. rewrite !elem_of_live_set. rewrite <- !no_dots_at. setoid_rewrite (le_dots _ _ _ _ _ _ Heffect).
  by setoid_rewrite (ops_elsewhere (gid graph) (batch_ops b) (dots_at st) q _ Hq).
Qed.

(** The store a local write leaves shows the changed triples. *)
Lemma written_said : graph_triples st' graph = apply_changes graph changes (graph_triples st graph).
Proof.
  apply (view_said sn graph changes _ written_names Hcrate). intros q. rewrite elem_of_held_rows.
  split; intros [Hq Hg]; (split; [|done]); by apply (posted_live sn actor graph changes hints now b st' q Hlocal).
Qed.

Lemma written_known q : q ∈ live_set st' → is_Some (terms st' !! quad_graph q) ∧ is_Some (terms st' !! quad_subject q) ∧
  is_Some (terms st' !! quad_predicate q) ∧ is_Some (terms st' !! quad_object q).
Proof.
  intros Hq. pose proof (nc_base _ _ _ _ written_names) as Hbase.
  assert (∀ x, is_Some (terms st !! x) → is_Some (terms st' !! x)) as Hgrow by (intros x [t Ht]; exists t; by apply Hbase).
  assert (q ∈ live_set st → is_Some (terms st' !! quad_graph q) ∧ is_Some (terms st' !! quad_subject q) ∧
    is_Some (terms st' !! quad_predicate q) ∧ is_Some (terms st' !! quad_object q)) as Hold.
  { intros Hl. destruct (rs_terms _ (cs_rows _ Hcrate) q Hl) as (? & ? & ?). pose proof (cs_graph _ Hcrate q Hl). auto. }
  destruct (decide (quad_graph q = gid graph)) as [Hg|Hg]; [|by apply Hold, elsewhere].
  apply (posted_live sn actor graph changes hints now b st' q Hlocal Hcov Hch Hg) in Hq. unfold posted in Hq.
  destruct (last_state _ _ q) as [[]|] eqn:E; [|done|by apply Hold].
  apply last_state_some in E as (c & Hc & <- & _). split.
  - exists (from_named_node graph). apply (le_terms _ _ _ _ _ _ Heffect). right. split; [by destruct c|by left].
  - pose proof (nc_change _ _ _ _ written_names c) as Ht.
    destruct c; cbn in *; split_and!; (eexists; apply Ht; [done|set_solver]).
Qed.

(** Local writes keep a store of triples sound. *)
Lemma written_sound : digest_bytes → crate_sound st'.
Proof.
  intros Hbytes. pose proof (nc_hash _ _ _ _ written_names) as Hh.
  assert (∀ x, is_Some (terms st' !! x) → TermId_fit x) as Hfit by (intros x [t <-%Hh]; by apply hash_term_fit).
  split; [split|done|]; intros q (? & ? & ? & ?)%written_known; [|done..]. split_and!; by apply Hfit.
Qed.
End commit.

(** C10: A local write changes a graph as text: over a store whose terms are keyed by
    their digests, [local_batch] leaves in the graph exactly the triples the
    change set gives when its insertions and deletions are made one after the
    other, whatever dots they carry, and the store is as sound as it was, its clock over
    every dot. *)
Theorem local_write_text `{Oxrdf} `{Blake3} actor graph changes hints now st st' b :
  digest_bytes → crate_sound st → covered st graph →
  local_batch actor st graph changes hints now = Ok (b, st') →
  Forall (λ c, change_graph c = graph ∧ stored_spelling c) changes →
  graph_triples st' graph = apply_changes graph changes (graph_triples st graph) ∧ crate_sound st' ∧ covered st' graph.
Proof.
  intros Hbytes Hcrate Hcov Hlocal Hch. split_and!.
  - exact (written_said actor graph changes hints now st st' b Hcrate Hcov Hlocal Hch).
  - exact (written_sound actor graph changes hints now st st' b Hcrate Hcov Hlocal Hch Hbytes).
  - exact (local_covered _ _ _ _ _ _ (local_batch_effect _ _ _ _ _ _ _ _ Hlocal) Hcov).
Qed.

(** ** A crate *)

Module DemoCrate.
Import DemoOxrdf.
#[local] Open Scope string_scope.

(** The end of a term is a digest without collisions on the words of the rules. *)
#[export] Instance demo_digest : Blake3 := λ l, (take 32 (reverse l ++ repeat 0%N 32))%list.

Definition graph : GraphId := "g".
Definition root : EncodedTerm := graph_root graph.
(** A root with a file, and its descriptor. *)
Definition contents : list MaterializedQuadChange :=
  (λ t : Triple, Insert graph t.1.1 t.1.2 t.2) <$>
  [(root, RDF_TYPE, SCHEMA_DATASET); (root, SCHEMA_NAME, "<n>"); (root, SCHEMA_DESCRIPTION, "<d>");
   (root, SCHEMA_DATE_PUBLISHED, "<2024>"); (METADATA_DESCRIPTOR, RDF_TYPE, SCHEMA_CREATIVE_WORK);
   (METADATA_DESCRIPTOR, SCHEMA_ABOUT, root);
   (METADATA_DESCRIPTOR, DCTERMS_CONFORMS_TO, from_named_node (specification_url V1_1));
   (root, SCHEMA_HAS_PART, "<a>"); ("<a>", RDF_TYPE, SCHEMA_MEDIA_OBJECT)].
(** Another file takes the place of the first. *)
Definition update : list MaterializedQuadChange :=
  [Delete graph root SCHEMA_HAS_PART "<a>"; Delete graph "<a>" RDF_TYPE SCHEMA_MEDIA_OBJECT;
   Insert graph root SCHEMA_HAS_PART "<b>"; Insert graph "<b>" RDF_TYPE SCHEMA_MEDIA_OBJECT].

Definition written (st : Store) (changes : list MaterializedQuadChange) : Batch * Store :=
  match local_batch 1 st graph changes None 0%Z with
  | Ok r => r
  | _ => ({| batch_graph := graph; batch_actor := 0; batch_counter := 0; base_clock := ∅;
             batch_ops := []; batch_timestamp := 0%Z |}, empty_store)
  end.
Definition crate : Store := (written empty_store contents).2.
Definition store : StoreReadView :=
  {| snapshot := {| sn_store := crate; sn_diagnostics := ∅; sn_views := no_views; sn_seqno := 0 |}; read_mode := Auto |}.

Lemma digest_ok : digest_bytes.
Proof.
  intros l Hl. apply Forall_take, Forall_app_2; [by apply Forall_reverse|]. apply List.Forall_forall.
  by intros x ->%List.repeat_spec.
Qed.

Lemma written_ok : local_batch 1 empty_store graph contents None 0%Z = Ok ((written empty_store contents).1, crate).
Proof.
  assert ((match local_batch 1 empty_store graph contents None 0%Z with Ok _ => true | _ => false end) = true) as Hok by (vm_compute; reflexivity).
  unfold crate, written. by destruct (local_batch _ _ _ _ _ _) as [[]| |].
Qed.
Lemma updated_ok : local_batch 1 crate graph update None 0%Z = Ok ((written crate update).1, (written crate update).2).
Proof.
  assert ((match local_batch 1 crate graph update None 0%Z with Ok _ => true | _ => false end) = true) as Hok by (vm_compute; reflexivity).
  unfold written. by destruct (local_batch 1 crate _ _ _ _) as [[]| |].
Qed.

Lemma spelled_changes l :
  forallb (λ c, bool_decide (change_graph c = graph) && forallb (λ t, bool_decide (canon t = t)) (change_terms c)) l = true →
  Forall (λ c, change_graph c = graph ∧ stored_spelling c) l.
Proof.
  rewrite forallb_forall. intros Hall. apply Forall_forall. intros c Hc%list_elem_of_In%Hall.
  apply andb_true_iff in Hc as [Hg%bool_decide_eq_true Ht]. split; [done|]. rewrite forallb_forall in Ht.
  apply Forall_forall. intros t Hin%list_elem_of_In%Ht. by apply bool_decide_eq_true in Hin.
Qed.
Lemma contents_spelled : Forall (λ c, change_graph c = graph ∧ stored_spelling c) contents.
Proof. apply spelled_changes. by vm_compute. Qed.
Lemma update_spelled : Forall (λ c, change_graph c = graph ∧ stored_spelling c) update.
Proof. apply spelled_changes. by vm_compute. Qed.

Lemma empty_covered : covered empty_store graph.
Proof. intros clock _ k e _ He. unfold dots_at, read_quad_dots in He; cbn in He. by apply elem_of_nil in He. Qed.
Lemma empty_sound : crate_sound empty_store.
Proof.
  assert (∀ q, q ∉ live_set empty_store) as Hno by (intros q Hq%elem_of_live_set; by apply Hq).
  split; [split; by intros q ?%Hno|by intros x t|by intros q ?%Hno].
Qed.
Lemma crate_ok : crate_sound crate.
Proof.
  refine (written_sound 1 graph contents None 0%Z empty_store crate _ empty_sound empty_covered written_ok contents_spelled digest_ok).
Qed.

Lemma crate_covered : covered crate graph.
Proof. exact (local_covered _ _ _ _ _ _ (local_batch_effect _ _ _ _ _ _ _ _ written_ok) empty_covered). Qed.

Lemma local_write_text_witness :
  graph_triples (written crate update).2 graph = apply_changes graph update (graph_triples crate graph) ∧
  crate_sound (written crate update).2 ∧ covered (written crate update).2 graph.
Proof.
  exact (local_write_text 1 graph update None 0%Z crate _ _ digest_ok crate_ok crate_covered updated_ok update_spelled).
Defined.
End DemoCrate.
