(* ===== verification/CrateVerdicts.v ===== *)
(** * Verdicts on change sets

    [validate_change_set] and [post_merge_violations]: with one version of the
    specification declared, the rules that fail on the triples after the change
    set are exactly the violations reported, in the order of the rules; so a
    crate that meets the rules meets them after every write that is accepted. *)

From S2P Require Import Prelude Clock Terms Store Codec QueryView IndexUpdate Transitions Replication Convergence.
From S2P Require Import LocalWrites IndexMirror Orphans Cursors Reads ReadRules Answers DeltaAnswers ViewRows CrateRules.
From S2P Require Import CrateViews CrateSnapshots CrateReach CrateChanges CrateCandidates CrateDelta.
#[local] Open Scope craqle_scope.

(** ** Profiles *)

Definition declares (T : gset Triple) (s : EncodedTerm) (v : RoCrateVersion) : Prop :=
  (s, DCTERMS_CONFORMS_TO, from_named_node (specification_url v)) ∈ T.
(** The descriptor and the root declare one version between them. *)
Definition profiled (graph : GraphId) (T : gset Triple) (v : RoCrateVersion) : Prop :=
  (∃ s, s ∈ [METADATA_DESCRIPTOR; graph_root graph] ∧ declares T s v) ∧
  ∀ s u, s ∈ [METADATA_DESCRIPTOR; graph_root graph] → declares T s u → u = v.

(** The only version that qualifies, if there is one. *)
Definition sole (Q : RoCrateVersion → Prop) (r : option RoCrateVersion) : Prop :=
  match r with Some v => Q v ∧ ∀ u, Q u → u = v | None => ∀ v, Q v → ∃ u, Q u ∧ u ≠ v end.
Lemma sole_ext Q Q' r : (∀ v, Q v ↔ Q' v) → sole Q r → sole Q' r.
Proof. intros HQ. destruct r; cbn; setoid_rewrite HQ; done. Qed.

(** ** Reports *)

(** The violations reported, a rule at a time. *)
Inductive reports (graph : GraphId) (T : gset Triple) : list RuleId → list CrateViolation → Prop :=
  | reports_nil : reports graph T [] []
  | reports_met id ids vs : rule_holds id graph T → reports graph T ids vs → reports graph T (id :: ids) vs
  | reports_broken id ids v vs :
      ¬ rule_holds id graph T → code v = rule_code id → reports graph T ids vs → reports graph T (id :: ids) (v :: vs).

Lemma reports_none graph T ids : reports graph T ids [] → ∀ id, id ∈ ids → rule_holds id graph T.
Proof.
  intros Hr. remember [] as vs eqn:Hvs. induction Hr as [|id ids vs Hid _ IH|]; [by intros ? ?%elem_of_nil| |done].
  intros id' [->|Hin]%elem_of_cons; [done|by apply IH].
Qed.
Lemma reports_some graph T ids v vs : reports graph T ids (v :: vs) → ∃ id, id ∈ ids ∧ ¬ rule_holds id graph T.
Proof.
  remember (v :: vs) as l eqn:Hl. intros Hr. revert v vs Hl. induction Hr as [|id ids l _ _ IH|id ids w l Hid]; intros v vs Hl; [done| |].
  - destruct (IH v vs Hl) as (id' & ? & ?). exists id'. split; [by right|done].
  - exists id. split; [by left|done].
Qed.

Lemma every_rule id : id ∈ ROCRATE_RULES.
Proof. destruct id; unfold ROCRATE_RULES; set_solver. Qed.
Lemma rule_in_plan v id : id ∈ rule_plan v.
Proof. destruct v; apply every_rule. Qed.

Section verdicts.
Context `{Blake3} (store : StoreReadView) (graph : GraphId) (delta : list MaterializedQuadChange) (ix : DeltaIndex).
Context (sm : DeltaSummary).
Let sn := snapshot store.
Let st := sn_store sn.
Let view : DeltaReadView := {| base := store; index := ix |}.
Let cx : RuleContext := rule_context store graph ix sm.
Let B := graph_triples st graph.
Let P := apply_changes graph delta B.
Context (Hs : snapshot_sound sn) (Hbytes : digest_bytes) (Hcrate : crate_sound st).
Context (Hbuilt : delta_build st graph delta = Ok ix) (Hread : readable store (Named (gid graph))).
Context (Hwords : ∀ t, t ∈ crate_words graph → spelled (delta_term view) t).
Context (Hsum : summary_of (graph_root graph) (touched_change <$> of_graph graph delta) sm).

#[local] Abbreviation runs := (runs sn (Exact {[gid graph]}) (Some (gid graph))) (only parsing).

(** Running in the context of a validation. *)
Lemma runs_fresh {A} (m : readm A) Q : runs m Q → ∃ a, (m (for_validation graph None)).2 = Ok a ∧ Q a.
Proof. intros Hm. destruct (Hm _ (fresh_context sn graph) eq_refl) as (c & a & -> & _ & _ & Ha). by exists a. Qed.

Lemma rule_candidate id :
  (delta_is_empty cx = false → rule_holds id graph B) →
  runs (check_candidate (rule_of id) cx) (λ r, match r with
    | Pass => rule_holds id graph P
    | Violated v => ¬ rule_holds id graph P ∧ code v = rule_code id
    | NeedSnapshot => delta_is_empty cx = true end).
Proof.
  intros Hheld. destruct (validating_view store graph delta ix Hs Hbytes Hcrate Hbuilt Hread) as (rows & Hv & Hsaid & Hsize).
  fold sn st B P view in Hv, Hsaid. rewrite <- Hsaid.
  apply (candidate_decides cx sn _ _ rows (delta_term view) Hbytes
    (do_graph _ _ _ (delta_build_ok _ _ _ _ Hbuilt)) Hwords (Hsize sm) B (touched_change <$> of_graph graph delta)); [| |..].
  - rewrite Hsaid. apply apply_changed_by.
  - exact Hsum.
  - intros t Ht. by eapply (touched_spelled store).
  - intros s Hsp. by eapply before_reads.
  - done.
Qed.

(** ** The profile *)

(** A version selected already, or declared by one of the marks to come. *)
Definition marked (selected : option RoCrateVersion) (marks : list (EncodedTerm * RoCrateVersion)) (v : RoCrateVersion) : Prop :=
  selected = Some v ∨ ∃ s, (s, v) ∈ marks ∧ declares P s v.

Lemma profile_loop_runs marks selected :
  (∀ m, m ∈ marks → spelled (delta_term view) m.1) →
  runs (profile_loop cx marks selected) (sole (marked selected marks)).
Proof.
  revert selected. induction marks as [|[s v] marks IH]; intros selected Hm; cbn [profile_loop].
  { apply runs_ret. unfold marked. destruct selected as [v|].
    - split; [by left|]. by intros u [[= ->]|(? & ?%elem_of_nil & _)].
    - by intros v [?|(? & ?%elem_of_nil & _)]. }
  destruct (validating_view store graph delta ix Hs Hbytes Hcrate Hbuilt Hread) as (rows & Hv & Hsaid & _).
  fold sn st B P view in Hv, Hsaid.
  assert (spelled (delta_term view) DCTERMS_CONFORMS_TO) as Hc by (eapply Hwords, (list_elem_of_lookup_2 _ 10); reflexivity).
  assert (spelled (delta_term view) (from_named_node (specification_url v))) as Hurl.
  { apply Hwords, elem_of_app. right. apply list_elem_of_fmap. exists v. split; [done|]. destruct v; set_solver. }
  eapply runs_read; [apply (triple_exists_reads cx sn _ _ rows (delta_term view) Hbytes
    (do_graph _ _ _ (delta_build_ok _ _ _ _ Hbuilt)) s); [apply (Hm (s, v)); by left|done|done]|].
  intros found Hf. rewrite Hsaid in Hf.
  assert (∀ u, (∃ s', (s', u) ∈ (s, v) :: marks ∧ declares P s' u) ↔ found = true ∧ u = v ∨ ∃ s', (s', u) ∈ marks ∧ declares P s' u) as Hcons.
  { intros u. setoid_rewrite elem_of_cons. rewrite Hf. unfold declares. split.
    - intros (s' & [[= -> ->]|Hin] & Hd); [by left|right; by exists s'].
    - intros [[Hd ->]|(s' & Hin & Hd)]; [exists s; auto|exists s'; auto]. }
  destruct found; cbn [negb].
  - destruct (match selected with Some current => bool_decide (current ≠ v) | None => false end) eqn:E.
    + apply runs_ret. destruct selected as [w|]; [|done]. apply bool_decide_eq_true in E. intros u _.
      destruct (decide (u = w)) as [->|]; [exists v|exists w]; unfold marked; rewrite Hcons; auto.
    + eapply runs_weaken; [apply IH; intros; apply Hm; by right|]. intros r. apply sole_ext. intros u. unfold marked.
      rewrite Hcons. destruct selected as [w|]; [apply bool_decide_eq_false in E; apply dec_stable in E as ->|].
      * split; [intros [[= ->]|?]; auto|intros [?|[[_ ->]|?]]; auto].
      * split; [intros [[= ->]|?]; auto|intros [?|[[_ ->]|?]]; auto; done].
  - eapply runs_weaken; [apply IH; intros; apply Hm; by right|]. intros r. apply sole_ext. intros u. unfold marked.
    rewrite Hcons. split; [intros [?|?]; auto|intros [?|[[? _]|?]]; auto; done].
Qed.

Lemma profile_runs : runs (profile_from_view cx) (λ r, match r with
  | Some v => profiled graph P v | None => ∀ v, ¬ profiled graph P v end).
Proof.
  unfold profile_from_view. eapply runs_weaken; [apply profile_loop_runs|].
  - intros m Hm. apply list_elem_of_bind in Hm as (s & Hm & Hin). apply list_elem_of_bind in Hm as (v & Hm & _).
    apply list_elem_of_singleton in Hm as ->. cbn. rewrite !elem_of_cons, elem_of_nil in Hin.
    destruct Hin as [->|[->|[]]]; eapply Hwords; [apply (list_elem_of_lookup_2 _ 9)|apply (list_elem_of_lookup_2 _ 11)]; reflexivity.
  - set (marks := _ ≫= _). intros r Hr. assert (∀ v, marked None marks v ↔ ∃ s, s ∈ [METADATA_DESCRIPTOR; graph_root graph] ∧ declares P s v) as Heq.
    { intros v. unfold marked, marks. split; [intros [?|(s & Hin & Hd)]; [done|]|intros (s & Hin & Hd); right]; exists s; (split; [|done]).
      - apply list_elem_of_bind in Hin as (s' & Hm & Hin). apply list_elem_of_bind in Hm as (v' & Hm & _).
        by apply list_elem_of_singleton in Hm as [= -> ->].
      - apply list_elem_of_bind. exists s. split; [|done]. apply list_elem_of_bind. exists v.
        split; [by apply list_elem_of_singleton|]. destruct v; set_solver. }
    apply (sole_ext _ _ _ Heq) in Hr. destruct r as [v|]; cbn in Hr.
    + destruct Hr as [Hex Hall]. split; [done|]. intros s u Hin Hd. apply Hall. by exists s.
    + intros v [Hex Hall]. destruct (Hr v Hex) as (u & (s & Hin & Hd) & Hne). apply Hne. by eapply Hall.
Qed.

(** ** The rules in order *)

Lemma run_rules_runs materialize v ids post vs :
  runs materialize (snapshot_of graph P) →
  (∀ id, delta_is_empty cx = false → rule_holds id graph B) →
  (∀ snapshot, post = Some snapshot → snapshot_of graph P snapshot) →
  runs (run_rules cx materialize (Some (rule_plan v)) (rule_of <$> ids) post vs)
    (λ vs', ∃ l, vs' = (vs ++ l)%list ∧ reports graph P ids l).
Proof.
  intros Hmat Hheld. revert post vs. induction ids as [|id ids IH]; intros post vs Hpost; cbn [fmap list_fmap run_rules].
  { apply runs_ret. exists []. split; [by rewrite app_nil_r|constructor]. }
  assert (rule_applies (Some (rule_plan v)) (rule_of id) = true) as ->.
  { unfold rule_applies. assert (rule_id (rule_of id) = Some id) as -> by by destruct id. apply bool_decide_eq_true, rule_in_plan. }
  cbn [negb].
  assert (∀ post, (∀ s, post = Some s → snapshot_of graph P s) → rule_holds id graph P →
    runs (run_rules cx materialize (Some (rule_plan v)) (rule_of <$> ids) post vs)
      (λ vs', ∃ l, vs' = (vs ++ l)%list ∧ reports graph P (id :: ids) l)) as Hmet.
  { intros post' Hpost' Hid. eapply runs_weaken; [by apply IH|]. intros vs' (l & -> & Hl). exists l. split; [done|by constructor]. }
  assert (∀ post w, (∀ s, post = Some s → snapshot_of graph P s) → ¬ rule_holds id graph P → code w = rule_code id →
    runs (run_rules cx materialize (Some (rule_plan v)) (rule_of <$> ids) post (vs ++ [w])%list)
      (λ vs', ∃ l, vs' = (vs ++ l)%list ∧ reports graph P (id :: ids) l)) as Hbroken.
  { intros post' w Hpost' Hid Hw. eapply runs_weaken; [by apply IH|]. intros vs' (l & -> & Hl). exists (w :: l).
    split; [by rewrite <- app_assoc|by constructor]. }
  eapply runs_bind; [by apply rule_candidate, Hheld|]. intros [|w|] Hr; [by apply Hmet|apply Hbroken; [done|apply Hr..]|].
  eapply (runs_bind _ _ _ _ _ (snapshot_of graph P)).
  { destruct post as [s|]; [by apply runs_ret, Hpost|done]. }
  intros s Hsnap. pose proof (post_state_decides graph P s Hsnap id) as Hd. revert Hd.
  assert (∀ s', Some s = Some s' → snapshot_of graph P s') as Hs' by by intros ? [= <-].
  destruct (check_post_state (rule_of id) s) as [u|w|]; cbn [decides]; [by apply Hmet|by intros [? ?]; apply Hbroken|done].
Qed.

(** Without a plan the rules of the specification are skipped. *)
Lemma run_unplanned materialize ids post vs : run_rules cx materialize None (rule_of <$> ids) post vs = st_ret vs.
Proof. induction ids as [|id ids IH]; [done|]. cbn [fmap list_fmap run_rules]. by destruct id. Qed.

Lemma checks_run materialize :
  runs materialize (snapshot_of graph P) →
  (∀ id, delta_is_empty cx = false → rule_holds id graph B) →
  runs (profile ⇐ profile_from_view cx; run_rules cx materialize (rule_plan <$> profile) default_rules None [])
    (λ vs, (∀ v, ¬ profiled graph P v) ∧ vs = [] ∨ (∃ v, profiled graph P v) ∧ reports graph P ROCRATE_RULES vs).
Proof.
  intros Hmat Hheld. eapply runs_bind; [apply profile_runs|]. change default_rules with (rule_of <$> ROCRATE_RULES).
  intros [v|] Hv; cbn [fmap option_fmap option_map].
  - eapply runs_weaken; [by apply run_rules_runs|]. intros vs (l & -> & Hl). right. split; [by exists v|done].
  - rewrite run_unplanned. apply runs_ret. by left.
Qed.

(** The view as a snapshot. *)
Lemma post_state_runs : runs (post_state_after cx) (snapshot_of graph P).
Proof.
  destruct (validating_view store graph delta ix Hs Hbytes Hcrate Hbuilt Hread) as (rows & Hv & Hsaid & _).
  fold sn st B P view in Hv, Hsaid. rewrite <- Hsaid. apply runs_reads.
  apply (from_read_view_reads view sn _ _ rows (delta_term view) graph).
  eapply Hwords, (list_elem_of_lookup_2 _ 11); reflexivity.
Qed.

Lemma held_when_changed :
  (of_graph graph delta ≠ [] → ∀ id, rule_holds id graph B) → ∀ id, delta_is_empty cx = false → rule_holds id graph B.
Proof.
  intros Hheld id Hchanged. apply Hheld. intros Hnil. apply (unchanged_impact store graph delta ix Hbuilt) in Hnil.
  unfold delta_is_empty in Hchanged. cbn [cx rule_context rule_view index] in Hchanged. by rewrite Hnil in Hchanged.
Qed.
End verdicts.

(** The snapshot of a graph of the store. *)
Lemma from_store_snapshot `{Blake3} (store : StoreReadView) graph :
  snapshot_sound (snapshot store) → crate_sound (sn_store (snapshot store)) → readable store (Named (gid graph)) →
  TermId_fit (gid graph) → spelled (λ x, terms (sn_store (snapshot store)) !! x) (graph_root graph) →
  ∃ post, from_store store graph = Ok post ∧ snapshot_of graph (graph_triples (sn_store (snapshot store)) graph) post.
Proof.
  intros Hs Hcrate Hread Hfit Hroot. set (sn := snapshot store).
  destruct (store_crate_view store (Exact {[gid graph]}) (Some (gid graph)) graph Hs Hcrate Hfit Hread) as (rows & Hv & Hrows).
  assert (rows = live_rows (sn_store sn) graph) as ->.
  { apply set_eq. intros q. rewrite Hrows, shown_rows. assert (matches pattern_default q = true) by by destruct q. tauto. }
  apply (runs_fresh store graph), runs_reads.
  by apply (from_read_view_reads store sn _ _ (live_rows (sn_store sn) graph) _ graph).
Qed.

(** ** The theorems *)

Section theorems.
Context `{Blake3} (store : StoreReadView) (graph : GraphId).
Let sn := snapshot store.
Let st := sn_store sn.
Let B := graph_triples st graph.

(** A store a validation can read, and a change set over it whose terms no word
    of the rules collides with. *)
Record validates (delta : list MaterializedQuadChange) (ix : DeltaIndex) : Prop := {
  va_sound : snapshot_sound sn;
  va_crate : crate_sound st;
  va_read : readable store (Named (gid graph));
  va_built : delta_build st graph delta = Ok ix;
  va_words t : t ∈ crate_words graph → spelled (delta_term {| base := store; index := ix |}) t;
}.

(** C7: A change set is judged by the rules as they hold after it: over a crate
    that meets the rules (or with no change of the graph), [validate_change_set]
    accepts exactly when no single version is declared after the change set or
    every rule holds of the triples it leaves; otherwise it reports the failing
    rules, each by its code, in the order of the rules -- although a check reads
    only what the change set touches.  It neither fails nor panics. *)
Theorem rules_decide delta ix :
  digest_bytes → validates delta ix → (of_graph graph delta ≠ [] → ∀ id, rule_holds id graph B) →
  let P := apply_changes graph delta B in
  match validate_change_set default_rules store graph delta with
  | Ok _ => (∀ v, ¬ profiled graph P v) ∨ ∀ id, rule_holds id graph P
  | Err (Violations vs) => vs ≠ [] ∧ (∃ v, profiled graph P v) ∧ reports graph P ROCRATE_RULES vs
  | Err (RuleStore _) | Panic => False
  end.
Proof.
  intros Hbytes [Hs Hcrate Hread Hbuilt Hwords] Hheld P.
  pose proof (held_when_changed store graph delta ix (summarize_delta graph delta) Hbuilt Hheld) as Hmet.
  pose proof (summarize_spec graph (touched_change <$> of_graph graph delta)) as Hsum.
  pose proof (post_state_runs store graph delta ix (summarize_delta graph delta) Hs Hbytes Hcrate Hbuilt Hread Hwords) as Hpost.
  pose proof (checks_run store graph delta ix (summarize_delta graph delta) Hs Hbytes Hcrate Hbuilt Hread Hwords Hsum _ Hpost Hmet) as Hrun.
  apply runs_fresh in Hrun as (vs & Hrun & Hvs). unfold validate_change_set. fold sn st. rewrite Hbuilt. cbn [map_err mbind outcome_bind].
  change (existsb _ default_rules) with true. cbv iota zeta. rewrite Hrun. cbn [map_err mbind outcome_bind].
  destruct Hvs as [[Hno ->]|[Hv Hvs]]; [by left|]. destruct vs as [|w vs]; [|done].
  right. intros id. eapply reports_none; [exact Hvs|apply every_rule].
Qed.

(** C8: An accepted write keeps a crate a crate: when a change set validates over a
    crate that meets the rules and is then written, the graph the store holds
    meets every rule again -- as long as the change set leaves one version
    declared. *)
Theorem accepted_write_keeps_rules `{Oxrdf} delta ix actor hints now b st' v :
  digest_bytes → validates delta ix → (∀ id, rule_holds id graph B) →
  validate_change_set default_rules store graph delta = Ok () →
  covered st graph → local_batch actor st graph delta hints now = Ok (b, st') →
  Forall (λ c, change_graph c = graph ∧ stored_spelling c) delta →
  profiled graph (graph_triples st' graph) v → ∀ id, rule_holds id graph (graph_triples st' graph).
Proof.
  intros Hbytes [Hs Hcrate Hread Hbuilt Hwords] Hheld Hok Hcov Hlocal Hch.
  rewrite (written_said actor graph delta hints now st st' b Hcrate Hcov Hlocal Hch).
  intros Hv. pose proof (summarize_spec graph (touched_change <$> of_graph graph delta)) as Hsum.
  pose proof (post_state_runs store graph delta ix (summarize_delta graph delta) Hs Hbytes Hcrate Hbuilt Hread Hwords) as Hpost.
  pose proof (checks_run store graph delta ix (summarize_delta graph delta) Hs Hbytes Hcrate Hbuilt Hread Hwords Hsum _ Hpost
    (λ id _, Hheld id)) as Hrun.
  apply runs_fresh in Hrun as (vs & Hrun & Hvs). revert Hok. unfold validate_change_set. fold sn st. rewrite Hbuilt.
  cbn [map_err mbind outcome_bind]. change (existsb _ default_rules) with true. cbv iota zeta. rewrite Hrun.
  cbn [map_err mbind outcome_bind]. destruct vs as [|w vs]; [intros _|done].
  destruct Hvs as [[Hno _]|[_ Hvs]]; [by destruct (Hno v)|]. intros id. eapply reports_none; [exact Hvs|apply every_rule].
Qed.

(** C11: After a merge the whole graph is judged: [post_merge_violations] reports
    the rules that fail of the graph's triples, each by its code and in order,
    when one version is declared, and nothing otherwise. *)
Theorem post_merge_exact ix :
  digest_bytes → validates [] ix →
  ∃ vs, post_merge_violations store graph = Ok vs ∧
    ((∀ v, ¬ profiled graph B v) ∧ vs = [] ∨ (∃ v, profiled graph B v) ∧ reports graph B ROCRATE_RULES vs).
Proof.
  intros Hbytes [Hs Hcrate Hread Hbuilt Hwords].
  assert (of_graph graph [] ≠ [] → ∀ id, rule_holds id graph B) as Hnone by done.
  pose proof (held_when_changed store graph [] ix summary_default Hbuilt Hnone) as Hmet.
  assert (spelled (λ x, terms st !! x) (graph_root graph)) as Hroot.
  { intros t Ht. assert (graph_root graph ∈ crate_words graph) as Hw by (apply (list_elem_of_lookup_2 _ 11); reflexivity).
    apply (Hwords _ Hw). by apply (nc_base _ _ _ _ (view_names store graph [] ix Hcrate Hbuilt)). }
  destruct (from_store_snapshot store graph Hs Hcrate Hread (hash_term_fit _ Hbytes) Hroot) as (snap & Hsnap & Hof).
  assert (runs sn (Exact {[gid graph]}) (Some (gid graph)) (st_lift (from_store store graph)) (snapshot_of graph B)) as Hmat.
  { rewrite Hsnap. apply runs_reads. by apply (reads_lift _ _ _ _ snap). }
  pose proof (checks_run store graph [] ix summary_default Hs Hbytes Hcrate Hbuilt Hread Hwords (summarize_spec graph []) _ Hmat Hmet) as Hrun.
  apply runs_fresh in Hrun as (vs & Hrun & Hvs). exists vs. split; [|done]. unfold post_merge_violations. fold sn st.
  rewrite Hbuilt. cbn [mbind outcome_bind]. exact Hrun.
Qed.

(** C9: The search for orphans ends and is exact: [first_orphan] returns, whatever
    cycles the parts form and whatever its caches remember between searches; the
    entity it returns is a data entity no chain of parts reaches from the root
    after the change set, and when it returns none no entity the change set can
    have cut off is one. *)
Theorem orphan_search_exact delta ix :
  digest_bytes → validates delta ix →
  let cx := rule_context store graph ix (summarize_delta graph delta) in
  let P := apply_changes graph delta B in
  let orphaned e := crate_entity (graph_root graph) P e ∧ ¬ rtc (has_part P) (graph_root graph) e in
  ∃ s o, first_orphan cx (for_validation graph None, new_walk) = (s, Ok o) ∧
    match o with
    | Some e => orphaned e
    | None => ∀ e, (e ∈ reachability_probes (summary cx) ∨
        ∃ seed, seed ∈ reachability_seeds (summary cx) ∧ rtc (has_part P) seed e) → ¬ orphaned e
    end.
Proof.
  intros Hbytes [Hs Hcrate Hread Hbuilt Hwords] cx P orphaned.
  destruct (validating_view store graph delta ix Hs Hbytes Hcrate Hbuilt Hread) as (rows & Hv & Hsaid & Hsize).
  assert (∀ n t, crate_words graph !! n = Some t → spelled (delta_term {| base := store; index := ix |}) t) as Hword
    by (intros n t Ht; by eapply Hwords, list_elem_of_lookup_2).
  destruct (first_orphan_wk cx sn _ _ rows _ Hbytes (do_graph _ _ _ (delta_build_ok _ _ _ _ Hbuilt)) (Hword 4 _ eq_refl) (Hsize _)
    (Hword 0 _ eq_refl) (Hword 1 _ eq_refl) (Hword 2 _ eq_refl)) with (c := for_validation graph None)
    as (c & w & o & Hr & _ & _ & Ho); [|apply fresh_context|done|].
  { pose proof (summarize_spec graph (touched_change <$> of_graph graph delta)) as Hsum.
    assert (∀ t, t ∈ touched_change <$> of_graph graph delta → spelled (delta_term {| base := store; index := ix |}) (subject t) ∧
      spelled (delta_term {| base := store; index := ix |}) (object t)) as Ht by (intros t ?; by eapply (touched_spelled store)).
    intros e [He|He]%elem_of_union.
    - apply (su_seeds _ _ _ Hsum) in He as (t & Hin & Hshape). destruct (Ht t Hin) as [Hsub Hobj].
      destruct Hshape as [[_ <-]|(_ & _ & <-)]; assumption.
    - apply (su_probes _ _ _ Hsum) in He as (t & Hin & _ & <-). destruct (Ht t Hin) as [Hsub _]. exact Hsub. }
  exists (c, w), o. split; [exact Hr|]. unfold orphan in Ho. rewrite Hsaid in Ho. exact Ho.
Qed.
End theorems.

(** ** Instances *)

Section demo.
Import DemoOxrdf DemoCrate.
#[local] Open Scope string_scope.

#[local] Opaque crate written.
Let index_of (changes : list MaterializedQuadChange) : DeltaIndex :=
  match delta_build crate graph changes with
  | Ok ix => ix
  | _ => {| delta_graph := 0; states := ∅; by_predicate_object := ∅; delta_terms := ∅; impact := impact_default |}
  end.

Lemma demo_crate_sound : snapshot_sound (snapshot store).
Proof. apply (checked_sound crate). by vm_compute. Qed.

Lemma demo_store_readable : readable store (Named (gid graph)).
Proof. by intros a _. Qed.

(** The words of the rules are spelled, by computation. *)
Definition words_checked (term_of : TermId → option EncodedTerm) (words : list EncodedTerm) : bool :=
  forallb (λ t, match term_of (hash_term t) with Some t' => bool_decide (t' = t) | None => true end) words.
Lemma checked_words term_of words : words_checked term_of words = true → ∀ t, t ∈ words → spelled term_of t.
Proof.
  unfold words_checked. rewrite forallb_forall. intros Hall t Ht%list_elem_of_In%Hall t' Ht'. rewrite Ht' in Ht.
  by apply bool_decide_eq_true in Ht.
Qed.
Lemma built_index changes :
  (match delta_build crate graph changes with Ok _ => true | _ => false end) = true →
  delta_build crate graph changes = Ok (index_of changes).
Proof. unfold index_of. generalize (delta_build crate graph changes). by intros []. Qed.

Lemma demo_validates changes :
  (match delta_build crate graph changes with Ok _ => true | _ => false end) = true →
  words_checked (delta_term {| base := store; index := index_of changes |}) (crate_words graph) = true →
  validates store graph changes (index_of changes).
Proof.
  intros Hb Hw. split; [exact demo_crate_sound|exact crate_ok|exact demo_store_readable|exact (built_index changes Hb)|].
  exact (checked_words (delta_term {| base := store; index := index_of changes |}) (crate_words graph) Hw).
Qed.
Lemma demo_update_validates : validates store graph update (index_of update).
Proof. apply demo_validates; by vm_compute. Qed.
Lemma demo_merge_validates : validates store graph [] (index_of []).
Proof. apply demo_validates; by vm_compute. Qed.

(** The rules hold of triples whose snapshot passes every check. *)
Definition rules_checked (T : gset Triple) : bool :=
  let post := {| snapshot_graph := graph; triples := elements T |} in
  forallb (λ id, match check_post_state (rule_of id) post with Ok _ => true | _ => false end) ROCRATE_RULES.
Lemma checked_rules T : rules_checked T = true → ∀ id, rule_holds id graph T.
Proof.
  unfold rules_checked. intros Hall id. rewrite forallb_forall in Hall. pose proof (every_rule id) as Hid%list_elem_of_In%Hall.
  assert (snapshot_of graph T {| snapshot_graph := graph; triples := elements T |}) as Hsnap
    by (split; cbn; [done|apply NoDup_elements|intros; apply elem_of_elements]).
  pose proof (post_state_decides graph T _ Hsnap id) as Hd. by destruct (check_post_state _ _).
Qed.
Lemma demo_rules_hold : ∀ id, rule_holds id graph (graph_triples crate graph).
Proof. apply checked_rules. by vm_compute. Qed.

(** Taking the root's name and the file's place away does not pass. *)
Example demo_verdicts_on_changes :
  match validate_change_set default_rules store graph
    [Delete graph root SCHEMA_HAS_PART "<a>"; Delete graph root SCHEMA_NAME "<n>"] with
  | Err (Violations vs) => code <$> vs = [rule_code RequiredProperties; rule_code Reachability] | _ => False end.
Proof. by vm_compute. Qed.

(** The first declaration of a profile is judged by what the change set touches:
    a graph of a descriptor alone is accepted, and its next merge finds it
    without a root. *)
Example first_profile_unchecked :
  let changes := [Insert graph METADATA_DESCRIPTOR DCTERMS_CONFORMS_TO (from_named_node (specification_url V1_1));
                  Insert graph METADATA_DESCRIPTOR RDF_TYPE SCHEMA_CREATIVE_WORK;
                  Insert graph METADATA_DESCRIPTOR SCHEMA_ABOUT root] in
  let at_store st := {| snapshot := plain_snapshot st; read_mode := Auto |} in
  validate_change_set default_rules (at_store empty_store) graph changes = Ok () ∧
  match post_merge_violations (at_store (written empty_store changes).2) graph with
  | Ok vs => code <$> vs = rule_code <$> [Root; RequiredProperties; DatePublished] | _ => False end.
Proof. split; by vm_compute. Qed.

Lemma rules_decide_witness :
  match validate_change_set default_rules store graph update with
  | Ok _ => (∀ v, ¬ profiled graph (apply_changes graph update (graph_triples crate graph)) v) ∨
            ∀ id, rule_holds id graph (apply_changes graph update (graph_triples crate graph))
  | Err (Violations vs) => vs ≠ [] ∧ (∃ v, profiled graph (apply_changes graph update (graph_triples crate graph)) v) ∧
      reports graph (apply_changes graph update (graph_triples crate graph)) ROCRATE_RULES vs
  | Err (RuleStore _) | Panic => False
  end.
Proof. exact (rules_decide store graph update _ digest_ok demo_update_validates (λ _, demo_rules_hold)). Defined.

(** Triples that declare one version, by computation. *)
Definition profile_checked (T : gset Triple) (v : RoCrateVersion) : bool :=
  forallb (λ s, forallb (λ u, bool_decide ((s, DCTERMS_CONFORMS_TO, from_named_node (specification_url u)) ∉ T) || bool_decide (u = v))
    [V1_1; V1_2; V1_3]) [METADATA_DESCRIPTOR; graph_root graph] &&
  bool_decide ((METADATA_DESCRIPTOR, DCTERMS_CONFORMS_TO, from_named_node (specification_url v)) ∈ T).
Lemma checked_profile T v : profile_checked T v = true → profiled graph T v.
Proof.
  unfold profile_checked. intros [Hall Hin%bool_decide_eq_true]%andb_true_iff. split; [exists METADATA_DESCRIPTOR; split; [left|exact Hin]|].
  intros s u Hs Hd. rewrite forallb_forall in Hall. apply list_elem_of_In, Hall in Hs. rewrite forallb_forall in Hs.
  assert (u ∈ [V1_1; V1_2; V1_3]) as Hu%list_elem_of_In%Hs by (destruct u; set_solver).
  apply orb_true_iff in Hu as [Hu%bool_decide_eq_true|Hu%bool_decide_eq_true]; [by destruct Hu|exact Hu].
Qed.
Lemma demo_profiled : profiled graph (graph_triples (written crate update).2 graph) V1_1.
Proof. apply checked_profile. by vm_compute. Qed.
Lemma demo_update_accepted : validate_change_set default_rules store graph update = Ok ().
Proof. by vm_compute. Qed.

Lemma accepted_write_keeps_rules_witness :
  Forall (λ id, rule_holds id graph (graph_triples (written crate update).2 graph)) ROCRATE_RULES.
Proof.
  apply Forall_forall. intros id _. revert id.
  exact (accepted_write_keeps_rules store graph update (index_of update) 1 None 0%Z (written crate update).1 (written crate update).2
    V1_1 digest_ok demo_update_validates demo_rules_hold demo_update_accepted crate_covered updated_ok update_spelled demo_profiled).
Defined.

Lemma post_merge_exact_witness :
  ∃ vs, post_merge_violations store graph = Ok vs ∧
    ((∀ v, ¬ profiled graph (graph_triples crate graph) v) ∧ vs = [] ∨
     (∃ v, profiled graph (graph_triples crate graph) v) ∧ reports graph (graph_triples crate graph) ROCRATE_RULES vs).
Proof. exact (post_merge_exact store graph _ digest_ok demo_merge_validates). Defined.

Lemma orphan_search_exact_witness :
  ∃ s o, first_orphan (rule_context store graph (index_of update) (summarize_delta graph update)) (for_validation graph None, new_walk) = (s, Ok o).
Proof.
  destruct (orphan_search_exact store graph update _ digest_ok demo_update_validates) as (s & o & Hr & _). by exists s, o.
Defined.
End demo.
