(* ===== verification/Requests.v ===== *)
(** * Cancellation of requests ([src/internal/query/context.rs])

    A [QueryCancellation] shares one flag and a registry of the requests it
    reaches; registrations, cancellations, deadlines and drops run on any
    threads.  A [RequestState] is shared by reference: requests hold its
    address in a heap.  Each critical section of the source and each atomic
    access outside one is a step, and threads interleave them; [register] reads
    the flag twice while it holds the registry's lock.  The write of [closed] is
    inside the critical section of [cause] and its readers take that lock next,
    so it is part of the same step. *)

From S2P Require Import Prelude.
#[local] Open Scope N_scope.

(** ** Operations *)

Inductive RequestOutcome :=
  Active | Explicit | Deadline | QueryCapacity | DeadlineCapacity | DeadlineUnavailable.
#[export] Instance request_outcome_eq_dec : EqDecision RequestOutcome.
Proof. solve_decision. Defined.

(** [evaluator]: the evaluator's token is cancelled. *)
Record RequestState := { closed : bool; cause : RequestOutcome; evaluator : bool }.
Definition request_new : RequestState := {| closed := false; cause := Active; evaluator := false |}.

(** [mark]: the critical section, then the token. *)
Definition mark_cause (o : RequestOutcome) (r : RequestState) : RequestState :=
  let cause := if decide (o = Explicit ∨ cause r = Active) then o else cause r in
  {| closed := if decide (cause = Active) then closed r else true; cause := cause; evaluator := evaluator r |}.
Definition cancel_evaluator (o : RequestOutcome) (r : RequestState) : RequestState :=
  {| closed := closed r; cause := cause r; evaluator := if decide (o = Active) then evaluator r else true |}.
Definition mark (o : RequestOutcome) (r : RequestState) : RequestState := cancel_evaluator o (mark_cause o r).

Definition outcome (r : RequestState) : RequestOutcome := if closed r then cause r else Active.

Definition MAX_QUERY_REGISTRATIONS : nat := N.to_nat 65536.
Definition u128_max : N := 2 ^ 128 - 1.

(** [QueryCancellationInner] with the heap of request states; [lock] is the
    thread that holds the registry. *)
Record Cancellation := {
  cancelled : bool;
  next_id : N;
  evaluators : gmap N N;
  requests : gmap N RequestState;
  lock : option N;
}.
Definition cancellation_new : Cancellation :=
  {| cancelled := false; next_id := 0; evaluators := ∅; requests := ∅; lock := None |}.

Record CancelRegistration := { reg_id : option N; reg_state : N }.

Definition with_request (s : N) (f : RequestState → RequestState) (c : Cancellation) : Cancellation :=
  {| cancelled := cancelled c; next_id := next_id c; evaluators := evaluators c;
     requests := alter f s (requests c); lock := lock c |}.
Definition with_lock (l : option N) (c : Cancellation) : Cancellation :=
  {| cancelled := cancelled c; next_id := next_id c; evaluators := evaluators c; requests := requests c; lock := l |}.
Definition with_cancelled (c : Cancellation) : Cancellation :=
  {| cancelled := true; next_id := next_id c; evaluators := evaluators c; requests := requests c; lock := lock c |}.

(** [register_with_limit] up to the identifier: a new state at address [s]. *)
Definition register_admit (limit : nat) (s : N) (c : Cancellation) : CancelRegistration * Cancellation :=
  let requests := <[s := request_new]> (requests c) in
  if decide (cancelled c = true ∨ (limit ≤ size (evaluators c))%nat) then
    ({| reg_id := None; reg_state := s |},
     {| cancelled := cancelled c; next_id := next_id c; evaluators := evaluators c; requests := requests;
        lock := lock c |})
  else if decide (next_id c < u128_max) then
    ({| reg_id := Some (next_id c); reg_state := s |},
     {| cancelled := cancelled c; next_id := next_id c + 1; evaluators := <[next_id c := s]> (evaluators c);
        requests := requests; lock := lock c |})
  else
    ({| reg_id := None; reg_state := s |},
     {| cancelled := cancelled c; next_id := next_id c; evaluators := evaluators c; requests := requests;
        lock := lock c |}).

Definition register_outcome (c : Cancellation) (r : CancelRegistration) : RequestOutcome :=
  if cancelled c then Explicit else match reg_id r with None => QueryCapacity | Some _ => Active end.

(** [Drop for CancelRegistration]. *)
Definition drop_registration (r : CancelRegistration) (c : Cancellation) : Cancellation :=
  match reg_id r with
  | Some id =>
      if decide (evaluators c !! id = Some (reg_state r)) then
        {| cancelled := cancelled c; next_id := next_id c; evaluators := delete id (evaluators c);
           requests := requests c; lock := lock c |}
      else c
  | None => c
  end.

(** [RequestClock::outcome]. *)
Definition clock_outcome (c : Cancellation) (r : CancelRegistration) : RequestOutcome :=
  let o := from_option outcome Active (requests c !! reg_state r) in
  if cancelled c then Explicit else o.

(** ** Threads *)

(** Where a thread is in [register], in [cancel], or in one [mark] of the
    deadline service. *)
Inductive Task :=
  | RegLocked (r : CancelRegistration)
  | RegMark (r : CancelRegistration) (o : RequestOutcome)
  | RegEval (r : CancelRegistration) (o : RequestOutcome)
  | Registered (r : CancelRegistration)
  | Released
  | CancelScan
  | CancelMark (l : list N)
  | CancelEval (s : N) (l : list N)
  | CancelDone
  | Expiring (s : N) (o : RequestOutcome)
  | ExpireEval (s : N) (o : RequestOutcome)
  | ExpireDone.

Section steps.
Context (limit : nat).

Inductive request_step : Cancellation * gmap N Task → Cancellation * gmap N Task → Prop :=
  | step_admit c T t s r c' :
      T !! t = None → lock c = None → requests c !! s = None → register_admit limit s c = (r, c') →
      request_step (c, T) (with_lock (Some t) c', <[t := RegLocked r]> T)
  | step_publish c T t r :
      T !! t = Some (RegLocked r) →
      request_step (c, T) (with_lock None c, <[t := RegMark r (register_outcome c r)]> T)
  | step_reg_mark c T t r o :
      T !! t = Some (RegMark r o) →
      request_step (c, T) (with_request (reg_state r) (mark_cause o) c, <[t := RegEval r o]> T)
  | step_reg_eval c T t r o :
      T !! t = Some (RegEval r o) →
      request_step (c, T) (with_request (reg_state r) (cancel_evaluator o) c, <[t := Registered r]> T)
  | step_drop c T t r :
      T !! t = Some (Registered r) → lock c = None →
      request_step (c, T) (drop_registration r c, <[t := Released]> T)
  | step_cancel c T t :
      T !! t = None → request_step (c, T) (with_cancelled c, <[t := CancelScan]> T)
  | step_scan c T t l :
      T !! t = Some CancelScan → lock c = None → l ≡ₚ (map_to_list (evaluators c)).*2 →
      request_step (c, T) (c, <[t := CancelMark l]> T)
  | step_cancel_mark c T t s l :
      T !! t = Some (CancelMark (s :: l)) →
      request_step (c, T) (with_request s (mark_cause Explicit) c, <[t := CancelEval s l]> T)
  | step_cancel_eval c T t s l :
      T !! t = Some (CancelEval s l) →
      request_step (c, T) (with_request s (cancel_evaluator Explicit) c, <[t := CancelMark l]> T)
  | step_cancel_done c T t :
      T !! t = Some (CancelMark []) → request_step (c, T) (c, <[t := CancelDone]> T)
  | step_expire c T t s o :
      T !! t = None → o ∈ [Deadline; DeadlineCapacity; DeadlineUnavailable] →
      request_step (c, T) (c, <[t := Expiring s o]> T)
  | step_expire_mark c T t s o :
      T !! t = Some (Expiring s o) →
      request_step (c, T) (with_request s (mark_cause o) c, <[t := ExpireEval s o]> T)
  | step_expire_eval c T t s o :
      T !! t = Some (ExpireEval s o) →
      request_step (c, T) (with_request s (cancel_evaluator o) c, <[t := ExpireDone]> T).

Definition requests_reachable (s : Cancellation * gmap N Task) : Prop :=
  rtc request_step (cancellation_new, ∅) s.

(** ** Requests only move on *)

(** A closed request stays closed, and an explicit cancellation stands. *)
Definition later (r r' : RequestState) : Prop :=
  (cause r ≠ Active → cause r' = cause r ∨ cause r' = Explicit) ∧ (evaluator r = true → evaluator r' = true).

Definition closed_ok (r : RequestState) : Prop := closed r = negb (bool_decide (cause r = Active)).

Lemma later_refl r : later r r.
Proof. split; auto. Qed.
Lemma later_mark o r : later r (mark_cause o r).
Proof. split; cbn; [|done]. intros Hne. case_decide as Ho; [|by left]. destruct Ho as [->|?]; [by right|done]. Qed.
Lemma later_cancel o r : later r (cancel_evaluator o r).
Proof. split; cbn; [by left|]. by case_decide. Qed.
Lemma later_explicit r r' : later r r' → cause r = Explicit → cause r' = Explicit.
Proof. intros [Hc _] He. rewrite He in Hc. by destruct Hc. Qed.
Lemma later_closed r r' : later r r' → cause r ≠ Active → cause r' ≠ Active.
Proof. intros [Hc _] Hne. destruct (Hc Hne) as [->| ->]; done. Qed.

Lemma closed_mark o r : closed_ok r → closed_ok (mark_cause o r).
Proof.
  unfold closed_ok. cbn. intros ->. set (x := if decide (o = Explicit ∨ _) then o else cause r).
  case_decide as Hx; rewrite ?(bool_decide_eq_true_2 _ Hx), ?(bool_decide_eq_false_2 _ Hx); [|done].
  unfold x in Hx. case_decide as Ho; [|by rewrite bool_decide_eq_true_2].
  destruct Ho as [->|Hc]; [done|]. by rewrite bool_decide_eq_true_2.
Qed.

(** ** The invariant *)

(** What a step leaves of the shared state, but for the identifier [gone]. *)
Record extends (gone : option N) (c c' : Cancellation) : Prop := {
  ext_cancelled : cancelled c = true → cancelled c' = true;
  ext_next : next_id c ≤ next_id c';
  ext_evals id s : gone ≠ Some id → evaluators c !! id = Some s → evaluators c' !! id = Some s;
  ext_requests s r : requests c !! s = Some r → ∃ r', requests c' !! s = Some r' ∧ later r r';
}.

Lemma extends_refl c : extends None c c.
Proof. split; [done|lia|done|]. intros s r Hr. exists r. split; [done|apply later_refl]. Qed.

Lemma extends_request s f c : (∀ r, later r (f r)) → extends None c (with_request s f c).
Proof.
  intros Hf. split; cbn; [done|lia|done|]. intros s' r Hr. destruct (decide (s' = s)) as [->|Hne].
  - exists (f r). rewrite lookup_alter_eq, Hr. split; [done|apply Hf].
  - exists r. rewrite lookup_alter_ne by done. split; [done|apply later_refl].
Qed.

Definition reg_of (p : Task) : option CancelRegistration :=
  match p with RegLocked r | RegMark r _ | RegEval r _ | Registered r => Some r | _ => None end.

Definition has (c : Cancellation) (s : N) (P : RequestState → Prop) : Prop :=
  ∃ r, requests c !! s = Some r ∧ P r.
Definition explicit (r : RequestState) : Prop := cause r = Explicit.
Definition settled (r : RequestState) : Prop := cause r = Explicit ∧ evaluator r = true.
Definition stopped (r : RequestState) : Prop := cause r ≠ Active ∧ evaluator r = true.

Definition known (c : Cancellation) (l : list N) : Prop := ∀ s, s ∈ l → is_Some (requests c !! s).

(** What holds of a thread by itself. *)
Definition task_ok (c : Cancellation) (p : Task) : Prop :=
  (∀ r, reg_of p = Some r → is_Some (requests c !! reg_state r) ∧
    ∀ id, reg_id r = Some id → id < next_id c ∧ evaluators c !! id = Some (reg_state r)) ∧
  match p with
  | RegMark r o => reg_id r = None → o ≠ Active
  | RegEval r o => reg_id r = None → o ≠ Active ∧ has c (reg_state r) (λ r, cause r ≠ Active)
  | Registered r => reg_id r = None → has c (reg_state r) stopped
  | CancelScan | CancelDone => cancelled c = true
  | CancelMark l => cancelled c = true ∧ known c l
  | CancelEval s l => cancelled c = true ∧ known c l ∧ has c s explicit
  | _ => True
  end.

(** The requests a cancellation has still to mark, once it has read the
    registry. *)
Definition todo (p : Task) : option (list N) :=
  match p with
  | CancelMark l => Some l
  | CancelEval s l => Some (s :: l)
  | CancelDone => Some []
  | _ => None
  end.

(** A registered request is reached by a cancellation that has [D] to do. *)
Definition reached (c : Cancellation) (D : list N) (p : Task) : Prop :=
  match p with
  | RegLocked r => reg_id r = None
  | RegMark r o => reg_id r = None ∨ reg_state r ∈ D ∨ o = Explicit ∨ has c (reg_state r) settled
  | RegEval r o =>
      reg_id r = None ∨ reg_state r ∈ D ∨ (o = Explicit ∧ has c (reg_state r) explicit) ∨
      has c (reg_state r) settled
  | Registered r => reg_id r = None ∨ reg_state r ∈ D ∨ has c (reg_state r) settled
  | _ => True
  end.

Record requests_ok (c : Cancellation) (T : gmap N Task) : Prop := {
  ro_task t p : T !! t = Some p → task_ok c p;
  ro_reached t t' p p' D : T !! t = Some p → T !! t' = Some p' → todo p = Some D → reached c D p';
  ro_distinct t t' p p' r r' id : T !! t = Some p → T !! t' = Some p' → t ≠ t' →
    reg_of p = Some r → reg_of p' = Some r' → reg_id r = Some id → reg_id r' ≠ Some id;
  ro_lock t : lock c = Some t ↔ ∃ r, T !! t = Some (RegLocked r);
  ro_closed s r : requests c !! s = Some r → closed_ok r;
  ro_ids id s : evaluators c !! id = Some s → id < next_id c ∧ is_Some (requests c !! s);
}.

Lemma has_extends gone c c' s (P : RequestState → Prop) :
  extends gone c c' → (∀ r r', later r r' → P r → P r') → has c s P → has c' s P.
Proof.
  intros Hx HP (r & Hr & Hp). destruct (ext_requests _ _ _ Hx s r Hr) as (r' & Hr' & Hl).
  exists r'. split; [done|]. by eapply HP.
Qed.
Lemma has_explicit gone c c' s : extends gone c c' → has c s explicit → has c' s explicit.
Proof. intros Hx. apply (has_extends _ _ _ _ _ Hx). apply later_explicit. Qed.
Lemma has_settled gone c c' s : extends gone c c' → has c s settled → has c' s settled.
Proof.
  intros Hx. apply (has_extends _ _ _ _ _ Hx). intros r r' Hl [He Hv].
  split; [by eapply later_explicit|by apply Hl].
Qed.
Lemma has_closed gone c c' s :
  extends gone c c' → has c s (λ r, cause r ≠ Active) → has c' s (λ r, cause r ≠ Active).
Proof. intros Hx. apply (has_extends _ _ _ _ _ Hx). apply later_closed. Qed.
Lemma has_stopped gone c c' s : extends gone c c' → has c s stopped → has c' s stopped.
Proof.
  intros Hx. apply (has_extends _ _ _ _ _ Hx). intros r r' Hl [He Hv].
  split; [by eapply later_closed|by apply Hl].
Qed.

Lemma known_extends gone c c' l : extends gone c c' → known c l → known c' l.
Proof.
  intros Hx Hk s Hs. destruct (Hk s Hs) as [r Hr]. destruct (ext_requests _ _ _ Hx s r Hr) as (r' & ? & _). eauto.
Qed.

(** The registration of a thread is not the one a step removes. *)
Definition spared (gone : option N) (p : Task) : Prop :=
  ∀ r id, reg_of p = Some r → reg_id r = Some id → gone ≠ Some id.

Lemma task_extends gone c c' p : extends gone c c' → spared gone p → task_ok c p → task_ok c' p.
Proof.
  intros Hx Hs [Hreg Hp]. split.
  - intros r Hr. destruct (Hreg r Hr) as [[st Hst] Hid]. split.
    + destruct (ext_requests _ _ _ Hx _ _ Hst) as (st' & ? & _). eauto.
    + intros id Hi. destruct (Hid id Hi) as [Hlt He]. pose proof (ext_next _ _ _ Hx). split; [lia|].
      apply (ext_evals _ _ _ Hx); [by eapply Hs|done].
  - destruct p; try done; cbn in *.
    + intros Hn. destruct (Hp Hn). split; [done|]. by eapply has_closed.
    + intros Hn. eapply has_stopped; [done|]. by apply Hp.
    + by apply Hx.
    + destruct Hp. split; [by apply Hx|by eapply known_extends].
    + destruct Hp as (? & ? & ?). split_and!; [by apply Hx|by eapply known_extends|by eapply has_explicit].
    + by apply Hx.
Qed.

Lemma reached_extends gone c c' D p : extends gone c c' → reached c D p → reached c' D p.
Proof.
  intros Hx. pose proof (λ s, has_settled _ _ _ s Hx). pose proof (λ s, has_explicit _ _ _ s Hx).
  destruct p; cbn; naive_solver.
Qed.

(** A thread steps from [p] to [p'], leaving the rest of the threads alone. *)
Lemma requests_ok_move gone c c' T t p' :
  requests_ok c T → extends gone c c' →
  (∀ t' q, t' ≠ t → T !! t' = Some q → spared gone q) →
  task_ok c' p' →
  (∀ t' q D, t' ≠ t → T !! t' = Some q → todo q = Some D → reached c' D p') →
  (∀ t' q D, t' ≠ t → T !! t' = Some q → todo p' = Some D → reached c' D q) →
  (∀ t' q r r' id, t' ≠ t → T !! t' = Some q → reg_of p' = Some r → reg_of q = Some r' →
    reg_id r = Some id → reg_id r' ≠ Some id) →
  (∀ t', lock c' = Some t' ↔ ∃ r, <[t := p']> T !! t' = Some (RegLocked r)) →
  (∀ s r, requests c' !! s = Some r → closed_ok r) →
  (∀ id s, evaluators c' !! id = Some s → id < next_id c' ∧ is_Some (requests c' !! s)) →
  requests_ok c' (<[t := p']> T).
Proof.
  intros [H1 H2 H3 _ _ _] Hx Hsp Htask Hr1 Hr2 Hd Hlock Hcl Hids. split; [| | |done..].
  - intros t' q [[<- <-]|[Hne Hq]]%lookup_insert_Some; [done|]. eapply task_extends; [done| |by eapply H1].
    by eapply (Hsp t').
  - intros t1 t2 q1 q2 D [[<- <-]|[Hne1 Hq1]]%lookup_insert_Some [[<- <-]|[Hne2 Hq2]]%lookup_insert_Some HD.
    + by destruct p'.
    + by eapply (Hr2 t2).
    + by eapply (Hr1 t1).
    + eapply reached_extends; [exact Hx|]. by apply (H2 t1 t2 q1 q2 D).
  - intros t1 t2 q1 q2 r1 r2 id [[<- <-]|[Hne1 Hq1]]%lookup_insert_Some [[<- <-]|[Hne2 Hq2]]%lookup_insert_Some Hne.
    + done.
    + intros Ho1 Ho2. by eapply (Hd t2).
    + intros Ho1 Ho2 Hi1 Hi2. by eapply (Hd t1 q1 r2 r1 id).
    + by eapply H3.
Qed.

Lemma lock_kept c T t p p' :
  requests_ok c T → T !! t = p → (∀ r, p ≠ Some (RegLocked r)) → (∀ r, p' ≠ RegLocked r) →
  ∀ t', lock c = Some t' ↔ ∃ r, <[t := p']> T !! t' = Some (RegLocked r).
Proof.
  intros Hok Hp Hno Hno' t'. rewrite (ro_lock _ _ Hok). destruct (decide (t' = t)) as [->|Hne].
  - rewrite lookup_insert_eq, Hp. split; intros [r Hr]; [by destruct (Hno r)|]. injection Hr as Hr.
    by destruct (Hno' r).
  - by rewrite lookup_insert_ne.
Qed.

Lemma closed_request c T s f :
  requests_ok c T → (∀ r, closed_ok r → closed_ok (f r)) →
  ∀ s' r, requests (with_request s f c) !! s' = Some r → closed_ok r.
Proof.
  intros Hok Hf s' r. cbn. rewrite lookup_alter_Some.
  intros [(-> & r0 & Hr0 & ->)|[_ Hr]]; [apply Hf|]; by eapply ro_closed.
Qed.
Lemma closed_cancel o r : closed_ok r → closed_ok (cancel_evaluator o r).
Proof. done. Qed.

Lemma has_marked c s o : is_Some (requests c !! s) → o ≠ Active →
  has (with_request s (mark_cause o) c) s (λ r, cause r ≠ Active).
Proof.
  intros [r Hr] Ho. exists (mark_cause o r). cbn. rewrite lookup_alter_eq, Hr. split; [done|]. cbn. case_decide; [done|].
  naive_solver.
Qed.
Lemma has_marked_explicit c s : is_Some (requests c !! s) → has (with_request s (mark_cause Explicit) c) s explicit.
Proof.
  intros [r Hr]. exists (mark_cause Explicit r). cbn. rewrite lookup_alter_eq, Hr. split; [done|].
  unfold explicit. cbn. by rewrite decide_True by auto.
Qed.
Lemma has_cancelled c s o (P : RequestState → Prop) :
  has c s P → o ≠ Active → (∀ r, P r → P (cancel_evaluator o r)) →
  has (with_request s (cancel_evaluator o) c) s (λ r, P r ∧ evaluator r = true).
Proof.
  intros (r & Hr & HP) Ho Hf. exists (cancel_evaluator o r). cbn. rewrite lookup_alter_eq, Hr. split; [done|].
  split; [by apply Hf|]. cbn. by rewrite decide_False.
Qed.

(** ** Every step keeps it *)

Lemma todo_cancelled c T t p D : requests_ok c T → T !! t = Some p → todo p = Some D → cancelled c = true.
Proof. intros Hok Hp HD. destruct (ro_task _ _ Hok t p Hp) as [_ Ht]. destruct p; try done; by destruct Ht. Qed.

Lemma spared_none q : spared None q.
Proof. by intros ????. Qed.

(** The rest of the map is as it was, and the thread's registration too. *)
Lemma same_reg c T t p p' :
  requests_ok c T → T !! t = Some p → reg_of p' = reg_of p →
  ∀ t' q r r' id, t' ≠ t → T !! t' = Some q → reg_of p' = Some r → reg_of q = Some r' →
    reg_id r = Some id → reg_id r' ≠ Some id.
Proof.
  intros Hok Hp Hreg t' q r r' id Hne Hq Hr Hr'. rewrite Hreg in Hr.
  by apply (ro_distinct _ _ Hok t t' p q r r' id).
Qed.
Lemma no_reg (T : gmap N Task) t p' : reg_of p' = None →
  ∀ t' q r r' id, t' ≠ t → T !! t' = Some q → reg_of p' = Some r → reg_of q = Some r' →
    reg_id r = Some id → reg_id r' ≠ Some id.
Proof. congruence. Qed.

Lemma admit_extends s c r c' T :
  requests_ok c T → requests c !! s = None → register_admit limit s c = (r, c') →
  extends None c c' ∧ lock c' = lock c ∧ requests c' = <[s := request_new]> (requests c) ∧ reg_state r = s ∧
  (cancelled c = true → reg_id r = None) ∧
  (∀ id, reg_id r = Some id → id = next_id c ∧ id < next_id c' ∧ evaluators c' !! id = Some s) ∧
  (∀ id s, evaluators c' !! id = Some s → id < next_id c' ∧ is_Some (requests c' !! s)).
Proof.
  intros Hok Hs Ha.
  assert (∀ id s', evaluators c !! id = Some s' →
    id < next_id c ∧ is_Some (<[s := request_new]> (requests c) !! s')) as Hids.
  { intros id s' [? ?]%(ro_ids _ _ Hok). split; [done|]. by apply lookup_insert_is_Some'; right. }
  assert (∀ s' x, requests c !! s' = Some x → ∃ x', <[s := request_new]> (requests c) !! s' = Some x' ∧ later x x')
    as Hreq.
  { intros s' x Hx. exists x. rewrite lookup_insert_ne by congruence. split; [done|apply later_refl]. }
  unfold register_admit in Ha. case_decide as Hc; [|case_decide as Hn]; injection Ha as <- <-; cbn.
  - by split_and!.
  - split_and!; try done.
    + split; cbn; [done|lia| |done]. intros id s' _ He. rewrite lookup_insert_ne; [done|].
      intros <-. apply Hids in He as [? _]. lia.
    + intros Ht. destruct Hc. by left.
    + intros id [= <-]. rewrite lookup_insert_eq. split_and!; [done|lia|done].
    + intros id s'. rewrite lookup_insert_Some. intros [[<- <-]|[_ [? ?]%Hids]]; (split; [lia|]); [|done].
      rewrite lookup_insert_eq. eauto.
  - by split_and!.
Qed.

Lemma ok_admit c T t s r c' :
  requests_ok c T → T !! t = None → lock c = None → requests c !! s = None → register_admit limit s c = (r, c') →
  requests_ok (with_lock (Some t) c') (<[t := RegLocked r]> T).
Proof.
  intros Hok Ht Hl Hs Ha.
  destruct (admit_extends s c r c' T Hok Hs Ha) as (Hx & _ & Hreq & Hst & Hcan & Hid & Hids).
  assert (extends None c (with_lock (Some t) c')) as Hx' by (destruct Hx; by split).
  apply (requests_ok_move None c); [done|done|intros; apply spared_none| | | | | | |exact Hids].
  - split; [|done]. intros ? [= <-]. cbn. rewrite Hreq, Hst, lookup_insert_eq. split; [done|].
    intros id Hi. destruct (Hid id Hi) as (_ & ? & ?). done.
  - intros t' q D _ Hq HD. cbn. apply Hcan. by eapply todo_cancelled.
  - done.
  - intros t' q r1 r2 id Hne Hq [= <-] Hr2 Hi1 Hi2. destruct (Hid id Hi1) as (-> & _).
    destruct (ro_task _ _ Hok t' q Hq) as [Hreg _]. destruct (Hreg r2 Hr2) as [_ Hlt].
    destruct (Hlt _ Hi2). lia.
  - intros t'. cbn. split.
    + intros [= <-]. exists r. by rewrite lookup_insert_eq.
    + intros [r' [[<- _]|[_ Hr']]%lookup_insert_Some]; [done|].
      assert (lock c = Some t') by (apply (ro_lock _ _ Hok); eauto). congruence.
  - intros s' x. cbn. rewrite Hreq, lookup_insert_Some. intros [[_ <-]|[_ Hx1]]; [done|by eapply ro_closed].
Qed.

Lemma ok_publish c T t r :
  requests_ok c T → T !! t = Some (RegLocked r) →
  requests_ok (with_lock None c) (<[t := RegMark r (register_outcome c r)]> T).
Proof.
  intros Hok Ht. assert (extends None c (with_lock None c)) as Hx by (destruct (extends_refl c); by split).
  apply (requests_ok_move None c); [done|done|intros; apply spared_none| | |done| | |by apply Hok|by apply Hok].
  - destruct (ro_task _ _ Hok _ _ Ht) as [Hreg _]. split; [exact Hreg|]. unfold register_outcome. intros ->.
    by destruct (cancelled c).
  - intros t' q D _ Hq HD. left. by apply (ro_reached _ _ Hok t' t q (RegLocked r) D).
  - by eapply same_reg.
  - intros t'. cbn. split; [done|]. intros [r' [[_ ?]|[Hne Hr']]%lookup_insert_Some]; [done|].
    assert (lock c = Some t') as H1 by (apply (ro_lock _ _ Hok); eauto).
    assert (lock c = Some t) as H2 by (apply (ro_lock _ _ Hok); eauto). congruence.
Qed.

(** A thread's step inside [mark]. *)
Lemma ok_request c T t p p' s f :
  requests_ok c T → T !! t = Some p → (∀ r, p ≠ RegLocked r) → (∀ r, p' ≠ RegLocked r) →
  reg_of p' = None ∨ reg_of p' = reg_of p → (∀ r, later r (f r)) → (∀ r, closed_ok r → closed_ok (f r)) →
  (let c' := with_request s f c in
   task_ok c' p' ∧ (∀ t' q D, t' ≠ t → T !! t' = Some q → todo q = Some D → reached c' D p') ∧
   (∀ t' q D, t' ≠ t → T !! t' = Some q → todo p' = Some D → reached c' D q)) →
  requests_ok (with_request s f c) (<[t := p']> T).
Proof.
  intros Hok Ht Hp Hp' Hreg Hl Hcl (Htask & H1 & H2).
  pose proof (extends_request s f c Hl) as Hx.
  apply (requests_ok_move None c); [done|done|intros; apply spared_none|done|done|done| | | |].
  - destruct Hreg; [by apply no_reg|by eapply same_reg].
  - eapply (lock_kept c); [done|by rewrite Ht|naive_solver|done].
  - by eapply closed_request.
  - intros id s' [? Hs']%(ro_ids _ _ Hok). split; [done|].
    apply (known_extends None c _ [s'] Hx); [|by left]. by intros x ->%list_elem_of_singleton.
Qed.

Lemma task_reg c c' p :
  extends None c c' → task_ok c p →
  ∀ r, reg_of p = Some r → is_Some (requests c' !! reg_state r) ∧
    ∀ id, reg_id r = Some id → id < next_id c' ∧ evaluators c' !! id = Some (reg_state r).
Proof. intros Hx Hp. by apply (task_extends _ _ _ _ Hx (spared_none p) Hp). Qed.

Lemma ok_reg_mark c T t r o :
  requests_ok c T → T !! t = Some (RegMark r o) →
  requests_ok (with_request (reg_state r) (mark_cause o) c) (<[t := RegEval r o]> T).
Proof.
  intros Hok Ht. pose proof (ro_task _ _ Hok _ _ Ht) as Htask.
  pose proof (extends_request (reg_state r) (mark_cause o) c (later_mark o)) as Hx.
  pose proof (task_reg c _ _ Hx Htask) as Hreg. destruct Htask as [Hr0 Ho]. destruct (Hr0 r eq_refl) as [Hst _].
  eapply (ok_request c T t (RegMark r o)); try done; [by right|apply later_mark|apply closed_mark|].
  split_and!; [| |done].
  - split; [exact Hreg|]. intros Hn. specialize (Ho Hn). split; [done|]. by apply has_marked.
  - intros t' q D Hne Hq HD.
    destruct (ro_reached _ _ Hok t' t q (RegMark r o) D Hq Ht HD) as [?|[?|[->|?]]]; cbn; [by left|by right; left| |].
    + right; right; left. split; [done|]. by apply has_marked_explicit.
    + right; right; right. by eapply has_settled.
Qed.

Lemma ok_reg_eval c T t r o :
  requests_ok c T → T !! t = Some (RegEval r o) →
  requests_ok (with_request (reg_state r) (cancel_evaluator o) c) (<[t := Registered r]> T).
Proof.
  intros Hok Ht. pose proof (ro_task _ _ Hok _ _ Ht) as Htask.
  pose proof (extends_request (reg_state r) (cancel_evaluator o) c (later_cancel o)) as Hx.
  pose proof (task_reg c _ _ Hx Htask) as Hreg. destruct Htask as [_ Ho].
  eapply (ok_request c T t (RegEval r o)); try done; [by right|apply later_cancel|].
  split_and!; [| |done].
  - split; [exact Hreg|]. intros Hn. destruct (Ho Hn) as [Hne Hh]. by apply has_cancelled.
  - intros t' q D Hne Hq HD.
    destruct (ro_reached _ _ Hok t' t q (RegEval r o) D Hq Ht HD) as [?|[?|[[-> Hh]|?]]]; cbn; [by left|by right; left| |].
    + right; right. by apply has_cancelled.
    + right; right. by eapply has_settled.
Qed.

Lemma drop_extends r c :
  extends (reg_id r) c (drop_registration r c) ∧ requests (drop_registration r c) = requests c ∧
  lock (drop_registration r c) = lock c ∧
  (∀ id s, evaluators (drop_registration r c) !! id = Some s → evaluators c !! id = Some s) ∧
  next_id (drop_registration r c) = next_id c.
Proof.
  unfold drop_registration. assert (∀ s x, requests c !! s = Some x → ∃ x', requests c !! s = Some x' ∧ later x x') as Hr
    by (intros s x Hx; exists x; split; [done|apply later_refl]).
  destruct (reg_id r) as [id|]; [case_decide|]; (split_and!; [split; cbn; try done; try lia|done|done| |done]); try done; cbn.
  - intros id' s Hne He. rewrite lookup_delete_ne; [done|]. congruence.
  - intros id' s [_ ?]%lookup_delete_Some. done.
Qed.

Lemma ok_drop c T t r :
  requests_ok c T → T !! t = Some (Registered r) → requests_ok (drop_registration r c) (<[t := Released]> T).
Proof.
  intros Hok Ht. destruct (drop_extends r c) as (Hx & Hreq & Hl & Hev & Hn).
  apply (requests_ok_move (reg_id r) c); [done|done| |by split|done|done|done| | |].
  - intros t' q Hne Hq r' id Hr' Hi'. destruct (reg_id r) as [id'|] eqn:Hi; [|done]. intros [= ->].
    by apply (ro_distinct _ _ Hok t t' (Registered r) q r r' id).
  - rewrite Hl. by eapply (lock_kept c).
  - intros s x. rewrite Hreq. by apply Hok.
  - intros id s He%Hev. rewrite Hn, Hreq. by eapply ro_ids.
Qed.

Lemma ok_cancel c T t : requests_ok c T → T !! t = None → requests_ok (with_cancelled c) (<[t := CancelScan]> T).
Proof.
  intros Hok Ht. assert (extends None c (with_cancelled c)) as Hx by (destruct (extends_refl c); by split).
  apply (requests_ok_move None c); [done|done|intros; apply spared_none|by split|done|done|done| |by apply Hok|by apply Hok].
  apply (lock_kept c T t None); [done|done|done|done].
Qed.

(** A step that only moves the thread. *)
Lemma ok_local c T t p p' :
  requests_ok c T → T !! t = p → (∀ r, p ≠ Some (RegLocked r)) → reg_of p' = None → task_ok c p' →
  (∀ t' q D, t' ≠ t → T !! t' = Some q → todo p' = Some D → reached c D q) →
  requests_ok c (<[t := p']> T).
Proof.
  intros Hok Hp Hno Hreg Htask H2.
  apply (requests_ok_move None c); [done|apply extends_refl|intros; apply spared_none|done|by destruct p'|done| | |
    by apply Hok|by apply Hok].
  - by apply no_reg.
  - eapply (lock_kept c); [done|done|done|]. intros r ->. done.
Qed.

Lemma ok_scan c T t l :
  requests_ok c T → T !! t = Some CancelScan → lock c = None → l ≡ₚ (map_to_list (evaluators c)).*2 →
  requests_ok c (<[t := CancelMark l]> T).
Proof.
  intros Hok Ht Hl Hperm. eapply ok_local; [done|done|done|done| |].
  - split; [done|]. split; [apply (ro_task _ _ Hok _ _ Ht)|]. intros s Hs. rewrite Hperm in Hs.
    apply list_elem_of_fmap in Hs as ([id s'] & -> & He%elem_of_map_to_list). by eapply ro_ids.
  - intros t' q D Hne Hq [= <-]. destruct (ro_task _ _ Hok _ _ Hq) as [Hreg _].
    assert (∀ r, reg_of q = Some r → reg_id r = None ∨ reg_state r ∈ l) as Hin.
    { intros r Hr. destruct (reg_id r) as [id|] eqn:Hi; [right|by left].
      destruct (Hreg r Hr) as [_ Hid]. destruct (Hid id Hi) as [_ He]. rewrite Hperm.
      apply list_elem_of_fmap. exists (id, reg_state r). split; [done|]. by apply elem_of_map_to_list. }
    destruct q; cbn in *; try done; [|naive_solver..].
    assert (lock c = Some t') by (apply (ro_lock _ _ Hok); eauto). congruence.
Qed.

Lemma ok_cancel_mark c T t s l :
  requests_ok c T → T !! t = Some (CancelMark (s :: l)) →
  requests_ok (with_request s (mark_cause Explicit) c) (<[t := CancelEval s l]> T).
Proof.
  intros Hok Ht. destruct (ro_task _ _ Hok _ _ Ht) as (_ & Hc & Hk).
  eapply ok_request; [done|exact Ht|done|done|by left|apply later_mark|apply closed_mark|].
  split_and!; [|done|].
  - split; [done|]. split_and!; [done| |apply has_marked_explicit, Hk; by left].
    eapply known_extends; [apply extends_request, later_mark|]. intros x Hx. apply Hk. by right.
  - intros t' q D Hne Hq [= <-]. eapply reached_extends; [apply extends_request, later_mark|].
    by apply (ro_reached _ _ Hok t t' _ q (s :: l) Ht).
Qed.

Lemma ok_cancel_eval c T t s l :
  requests_ok c T → T !! t = Some (CancelEval s l) →
  requests_ok (with_request s (cancel_evaluator Explicit) c) (<[t := CancelMark l]> T).
Proof.
  intros Hok Ht. destruct (ro_task _ _ Hok _ _ Ht) as (_ & Hc & Hk & He).
  eapply ok_request; [done|exact Ht|done|done|by left|apply later_cancel|apply closed_cancel|].
  assert (has (with_request s (cancel_evaluator Explicit) c) s settled) as Hset by by apply has_cancelled.
  split_and!; [|done|].
  { split; [done|]. split; [done|]. by eapply known_extends; [apply extends_request, later_cancel|]. }
  intros t' q D Hne Hq [= <-].
  pose proof (ro_reached _ _ Hok t t' _ q (s :: l) Ht Hq eq_refl) as Hr.
  apply (reached_extends None c (with_request s (cancel_evaluator Explicit) c)) in Hr; [|apply extends_request, later_cancel].
  assert (∀ x, x ∈ s :: l → x ∈ l ∨ has (with_request s (cancel_evaluator Explicit) c) x settled) as Hsplit
    by (intros x [->|?]%elem_of_cons; auto).
  destruct q as [r|r o|r o|r| | | | | | | |]; cbn [reached] in *; try (pose proof (Hsplit (reg_state r))); tauto.
Qed.


Lemma requests_ok_init : requests_ok cancellation_new ∅.
Proof.
  split; cbn; [by intros ? ? ?%lookup_empty_Some|by intros ? ? ? ? ? ?%lookup_empty_Some| | | |].
  - by intros ? ? ? ? ? ? ? ?%lookup_empty_Some.
  - intros t. split; [done|]. by intros [r ?%lookup_empty_Some].
  - by intros ? ? ?%lookup_empty_Some.
  - by intros ? ? ?%lookup_empty_Some.
Qed.

Lemma requests_ok_step c T c' T' : request_step (c, T) (c', T') → requests_ok c T → requests_ok c' T'.
Proof.
  intros Hstep Hok. remember (c, T) as s eqn:Es. remember (c', T') as s' eqn:Es'.
  destruct Hstep; simplify_eq.
  - by eapply ok_admit.
  - by apply ok_publish.
  - by apply ok_reg_mark.
  - by apply ok_reg_eval.
  - by apply ok_drop.
  - by apply ok_cancel.
  - by apply ok_scan.
  - by apply ok_cancel_mark.
  - by apply ok_cancel_eval.
  - eapply ok_local; [done|done|done|done| |].
    + split; [done|]. by destruct (ro_task _ _ Hok _ _ H) as (_ & ? & _).
    + intros t' q D Hne Hq [= <-]. by apply (ro_reached _ _ Hok t t' (CancelMark []) q []).
  - by eapply ok_local.
  - by eapply ok_request; [|done|..|apply later_mark|apply closed_mark|]; [..|by split_and!]; try done; left.
  - by eapply ok_request; [|done|..|apply later_cancel|apply closed_cancel|]; [..|by split_and!]; try done; left.
Qed.

Lemma requests_reachable_ok c T : requests_reachable (c, T) → requests_ok c T.
Proof.
  unfold requests_reachable. intros Hr.
  refine (rtc_ind_r (λ s, requests_ok s.1 s.2) (cancellation_new, ∅) _ _ (c, T) Hr).
  - apply requests_ok_init.
  - intros [c1 T1] [c2 T2] _ Hs. by apply requests_ok_step.
Qed.

Lemma settled_outcome c T s :
  requests_ok c T → has c s settled →
  ∃ st, requests c !! s = Some st ∧ outcome st = Explicit ∧ evaluator st = true.
Proof.
  intros Hok (st & Hst & He & Hv). exists st. split_and!; [done| |done].
  pose proof (ro_closed _ _ Hok _ _ Hst) as Hc. unfold outcome. rewrite Hc, He. done.
Qed.
End steps.

(** C30: Once a call of [cancel] has returned, no request can miss it: every
    request whose registration has returned -- before the call, after it or
    while it ran -- has its evaluator's token cancelled and is not active, is
    [Explicit] by its clock, and is [Explicit] itself unless the registry had
    refused it. *)
Theorem cancel_reaches_requests limit c T tc t r :
  requests_reachable limit (c, T) → T !! tc = Some CancelDone → T !! t = Some (Registered r) →
  ∃ st, requests c !! reg_state r = Some st ∧ evaluator st = true ∧ outcome st ≠ Active ∧
    clock_outcome c r = Explicit ∧ (reg_id r ≠ None → outcome st = Explicit).
Proof.
  intros Hok%requests_reachable_ok Hc Hr.
  destruct (ro_task _ _ Hok _ _ Hc) as [_ Hcan]. destruct (ro_task _ _ Hok _ _ Hr) as [_ Hreg]. cbn in Hcan, Hreg.
  assert (clock_outcome c r = Explicit) as Hclock by (unfold clock_outcome; by rewrite Hcan).
  destruct (ro_reached _ _ Hok _ _ _ _ [] Hc Hr eq_refl) as [Hn|[[]%elem_of_nil|Hs]].
  - destruct (Hreg Hn) as (st & Hst & Hca & Hev). exists st. split_and!; [done|done| |done|by rewrite Hn].
    pose proof (ro_closed _ _ Hok _ _ Hst) as Hcl. unfold outcome. by rewrite Hcl, bool_decide_eq_false_2.
  - destruct (settled_outcome c T _ Hok Hs) as (st & Hst & Ho & Hv). exists st. split_and!; try done. by rewrite Ho.
Qed.

Lemma step_extends limit c T c' T' :
  requests_ok c T → request_step limit (c, T) (c', T') → ∃ gone, extends gone c c'.
Proof.
  intros Hok Hstep. remember (c, T) as s eqn:Es. remember (c', T') as s' eqn:Es'.
  destruct Hstep as [? ? ? ? ? c1 Ht Hl Hs Ha| | | |? ? ? r Hr Hl| | | | | | | |]; simplify_eq.
  all: try (exists None; apply extends_refl).
  all: try (exists None; apply extends_request; first [apply later_mark|apply later_cancel]).
  - destruct (admit_extends _ _ _ _ _ _ Hok Hs Ha) as [Hx _]. exists None. destruct Hx. by split.
  - exists None. destruct (extends_refl c). by split.
  - exists (reg_id r). apply drop_extends.
  - exists None. destruct (extends_refl c). by split.
Qed.

(** The outcome of a request, once it is no longer active, never changes again
    except to [Explicit]; and a cancelled token stays cancelled. *)
Theorem outcome_settles limit c T c' T' s st :
  requests_reachable limit (c, T) → request_step limit (c, T) (c', T') → requests c !! s = Some st →
  ∃ st', requests c' !! s = Some st' ∧ (evaluator st = true → evaluator st' = true) ∧
    (outcome st ≠ Active → outcome st' = outcome st ∨ outcome st' = Explicit).
Proof.
  intros Hr%requests_reachable_ok Hstep Hst. destruct (step_extends _ _ _ _ _ Hr Hstep) as [gone Hx].
  destruct (ext_requests _ _ _ Hx s st Hst) as (st' & Hst' & Hcause & Hev). exists st'. split_and!; [done|done|].
  pose proof (ro_closed _ _ Hr _ _ Hst) as Hc.
  pose proof (ro_closed _ _ (requests_ok_step _ _ _ _ _ Hstep Hr) _ _ Hst') as Hc'.
  assert (∀ x, closed_ok x → outcome x = cause x) as Hout.
  { intros x Hx'. unfold outcome. rewrite Hx'. by case_bool_decide. }
  rewrite !Hout by done. exact Hcause.
Qed.

(** *** A cancellation completes *)

Definition cancelling (p : Task) : Prop := p = CancelScan ∨ ∃ D, todo p = Some D.

Lemma marks_complete limit l c T tc :
  T !! tc = Some (CancelMark l) →
  ∃ c' T', rtc (request_step limit) (c, T) (c', T') ∧ T' !! tc = Some CancelDone.
Proof.
  revert c T. induction l as [|s l IH]; intros c T Ht.
  - eexists c, _. split; [apply rtc_once; by eapply step_cancel_done|]. apply lookup_insert_eq.
  - set (c1 := with_request s (mark_cause Explicit) c). set (T1 := <[tc := CancelEval s l]> T).
    assert (T1 !! tc = Some (CancelEval s l)) as Ht1 by apply lookup_insert_eq.
    destruct (IH (with_request s (cancel_evaluator Explicit) c1) (<[tc := CancelMark l]> T1)) as (c' & T' & Hr & Hd).
    { apply lookup_insert_eq. }
    exists c', T'. split; [|done]. eapply rtc_l; [by apply step_cancel_mark|].
    eapply rtc_l; [by apply step_cancel_eval|]. exact Hr.
Qed.

(** C31: A call of [cancel] is never stuck: from every state it can be in, however
    the threads interleaved before, it completes -- the lock it waits for is
    held only between two steps of a registration, and the requests it marks
    are those it read. *)
Theorem cancel_completes limit c T tc p :
  requests_reachable limit (c, T) → T !! tc = Some p → cancelling p →
  ∃ c' T', rtc (request_step limit) (c, T) (c', T') ∧ T' !! tc = Some CancelDone.
Proof.
  intros Hok%requests_reachable_ok Ht [->|[D HD]].
  - assert (∃ c1 T1, rtc (request_step limit) (c, T) (c1, T1) ∧ T1 !! tc = Some CancelScan ∧ lock c1 = None)
      as (c1 & T1 & Hr1 & Ht1 & Hl1).
    { destruct (lock c) as [t|] eqn:Hl; [|by eexists c, T].
      destruct (proj1 (ro_lock _ _ Hok t) Hl) as [r Hr].
      eexists _, _. split; [apply rtc_once; by eapply step_publish|]. split; [|done].
      rewrite lookup_insert_ne; [done|]. congruence. }
    destruct (marks_complete limit (map_to_list (evaluators c1)).*2 c1
      (<[tc := CancelMark (map_to_list (evaluators c1)).*2]> T1) tc) as (c' & T' & Hr & Hd); [apply lookup_insert_eq|].
    exists c', T'. split; [|done]. etrans; [exact Hr1|]. eapply rtc_l; [by apply step_scan|]. exact Hr.
  - destruct p; try done.
    + by eapply marks_complete.
    + destruct (marks_complete limit l (with_request s (cancel_evaluator Explicit) c) (<[tc := CancelMark l]> T) tc)
        as (c' & T' & Hr & Hd); [apply lookup_insert_eq|].
      exists c', T'. split; [|done]. eapply rtc_l; [by apply step_cancel_eval|]. exact Hr.
    + by exists c, T.
Qed.

(** ** Concrete inputs *)

Section demo.

(** Thread 1 registers; thread 2 cancels. *)
Definition demo_reg : CancelRegistration := {| reg_id := Some 0; reg_state := 7 |}.
Let admitted : Cancellation := (register_admit 8 7 cancellation_new).2.
Let c1 := with_lock None (with_lock (Some 1) admitted).
Let c2 := with_request 7 (mark_cause Active) c1.
Let c3 := with_request 7 (cancel_evaluator Active) c2.
Let c4 := with_cancelled c3.
Let c5 := with_request 7 (mark_cause Explicit) c4.
Let c6 := with_request 7 (cancel_evaluator Explicit) c5.
Let T3 : gmap N Task :=
  <[1 := Registered demo_reg]> (<[1 := RegEval demo_reg Active]>
    (<[1 := RegMark demo_reg Active]> (<[1 := RegLocked demo_reg]> ∅))).
Let T4 := <[2 := CancelScan]> T3.
Let T5 := <[2 := CancelMark [7]]> T4.
Let T6 := <[2 := CancelMark []]> (<[2 := CancelEval 7 []]> T5).
Let T7 := <[2 := CancelDone]> T6.

Lemma demo_registered : requests_reachable 8 (c3, T3).
Proof.
  eapply rtc_l; [by apply (step_admit 8 cancellation_new ∅ 1 7 demo_reg admitted)|].
  eapply rtc_l; [by eapply (step_publish 8 _ _ 1 demo_reg)|].
  eapply rtc_l; [by eapply (step_reg_mark 8 _ _ 1 demo_reg)|].
  eapply rtc_l; [by eapply (step_reg_eval 8 _ _ 1 demo_reg Active)|]. reflexivity.
Qed.

Lemma demo_scanning : requests_reachable 8 (c4, T4).
Proof. eapply rtc_r; [exact demo_registered|]. by apply step_cancel. Qed.

Lemma demo_cancelled : requests_reachable 8 (c6, T7).
Proof.
  eapply rtc_r; [|by apply step_cancel_done].
  eapply rtc_r; [|by apply step_cancel_eval].
  eapply rtc_r; [|by apply step_cancel_mark].
  eapply rtc_r; [exact demo_scanning|]. by apply step_scan.
Qed.

Example cancel_reaches_requests_witness :
  ∃ st, requests c6 !! reg_state demo_reg = Some st ∧ evaluator st = true ∧ outcome st ≠ Active ∧
    clock_outcome c6 demo_reg = Explicit ∧ (reg_id demo_reg ≠ None → outcome st = Explicit).
Proof. apply (cancel_reaches_requests 8 c6 T7 2 1 demo_reg demo_cancelled); reflexivity. Defined.

Example outcome_settles_witness :
  ∃ st', requests c5 !! 7 = Some st' ∧ (false = true → evaluator st' = true) ∧
    (Active ≠ Active → outcome st' = Active ∨ outcome st' = Explicit).
Proof.
  apply (outcome_settles 8 c4 T5 c5 (<[2 := CancelEval 7 []]> T5) 7 {| closed := false; cause := Active; evaluator := false |}).
  - eapply rtc_r; [exact demo_scanning|]. by apply step_scan.
  - by apply step_cancel_mark.
  - reflexivity.
Defined.

Example cancel_completes_witness :
  ∃ c' T', rtc (request_step 8) (c4, T4) (c', T') ∧ T' !! 2 = Some CancelDone.
Proof. apply (cancel_completes 8 c4 T4 2 CancelScan demo_scanning); [reflexivity|by left]. Defined.
End demo.
