(* ===== verification/Deadlines.v ===== *)
(** * Deadlines of requests ([src/internal/query/deadline.rs])

    The schedule of the deadline service -- registrations by expiry and by
    identifier --, the worker that expires them, and the start of a request's
    clock.  An instant is a number; [instant_max] is the last one the platform
    represents.  The worker holds the schedule's lock from one look at the
    schedule to the next but for the marks it makes between. *)

From S2P Require Import Prelude Requests.
#[local] Open Scope N_scope.

Definition MAX_DEADLINE_REGISTRATIONS : nat := N.to_nat 65536.

(** [deadlines] maps an instant to the identifiers that expire then, [index] an
    identifier to its instant; both hold the address of the request. *)
Record DeadlineSchedule := {
  sched_next : N;
  deadlines : gmap N (gmap N N);
  index : gmap N (N * N);
}.
Definition schedule_default : DeadlineSchedule := {| sched_next := 0; deadlines := ∅; index := ∅ |}.

Definition admit_entry (expires state : N) (limit : nat) (s : DeadlineSchedule) : option N * DeadlineSchedule :=
  if decide (limit ≤ size (index s))%nat then (None, s)
  else if decide (sched_next s < u128_max) then
    (Some (sched_next s),
     {| sched_next := sched_next s + 1;
        deadlines := <[expires := <[sched_next s := state]> (default ∅ (deadlines s !! expires))]> (deadlines s);
        index := <[sched_next s := (expires, state)]> (index s) |})
  else (None, s).

(** [entries.remove(&id)], and the bucket itself once it is empty. *)
Definition remove_entry (id expires : N) (m : gmap N (gmap N N)) : gmap N (gmap N N) :=
  match m !! expires with
  | Some entries =>
      let entries := delete id entries in
      if decide (entries = ∅) then delete expires m else <[expires := entries]> m
  | None => m
  end.
Definition remove (id state : N) (s : DeadlineSchedule) : bool * DeadlineSchedule :=
  match index s !! id with
  | None => (false, s)
  | Some (expires, registered) =>
      if decide (registered ≠ state) then (false, s)
      else (true, {| sched_next := sched_next s; deadlines := remove_entry id expires (deadlines s);
                     index := delete id (index s) |})
  end.

(** One due row: it expires if the index still holds it. *)
Definition expire_row (acc : gmap N (N * N) * list N) (row : N * N) : gmap N (N * N) * list N :=
  match acc.1 !! row.1 with
  | Some (_, registered) =>
      if decide (registered = row.2) then (delete row.1 acc.1, acc.2 ++ [row.2]) else acc
  | None => acc
  end.

(** The loop body of [run_deadlines] while it holds the lock: [None] when it
    would wait. *)
Definition next_due (now : N) (s : DeadlineSchedule) : option (list N * DeadlineSchedule) :=
  match head (btree_keys (deadlines s)) with
  | None => None
  | Some expires =>
      if decide (now < expires) then None
      else
        let '(index, expired) :=
          foldl expire_row (index s, []) (map_to_list (default ∅ (deadlines s !! expires))) in
        Some (expired, {| sched_next := sched_next s; deadlines := delete expires (deadlines s); index := index |})
  end.

(** [for state in expired { state.mark_deadline() }]. *)
Definition mark_all (expired : list N) (h : gmap N RequestState) : gmap N RequestState :=
  foldl (λ h s, alter (mark Deadline) s h) h expired.

(** The worker's loop until it waits. *)
Fixpoint run_deadlines (fuel : nat) (now : N) (s : DeadlineSchedule) (h : gmap N RequestState)
    : option (DeadlineSchedule * gmap N RequestState) :=
  match fuel with
  | O => None
  | S fuel =>
      match next_due now s with
      | None => Some (s, h)
      | Some (expired, s) => run_deadlines fuel now s (mark_all expired h)
      end
  end.
(** One instant expires on each turn. *)
Definition deadline_fuel (s : DeadlineSchedule) : nat := S (size (deadlines s)).

(** [DeadlineService::register]. *)
Definition service_register (available : bool) (limit : nat) (now expires state : N)
    (c : Cancellation) (s : DeadlineSchedule) : option N * Cancellation * DeadlineSchedule :=
  if decide (expires ≤ now) then (None, with_request state (mark Deadline) c, s)
  else if negb available then (None, with_request state (mark DeadlineUnavailable) c, s)
  else match admit_entry expires state limit s with
       | (Some id, s) => (Some id, c, s)
       | (None, s) => (None, with_request state (mark DeadlineCapacity) c, s)
       end.

(** [register_with_limit], uninterrupted. *)
Definition register (limit : nat) (state : N) (c : Cancellation) : CancelRegistration * Cancellation :=
  let '(r, c) := register_admit limit state c in
  (r, with_request state (mark (register_outcome c r)) c).

Record ClockEnv := {
  instant_max : N; query_limit : nat; deadline_limit : nat; available : bool; now : N;
}.

(** [RequestClock::start] with a new state at address [state]. *)
Definition clock_start (e : ClockEnv) (timeout : option N) (started state : N) (c : Cancellation)
    (s : DeadlineSchedule) : CancelRegistration * option N * Cancellation * DeadlineSchedule :=
  let '(r, c) := register (query_limit e) state c in
  let expires := timeout ≫= λ d, if decide (started + d ≤ instant_max e) then Some (started + d) else None in
  let c := match timeout, expires with
           | Some _, None => with_request state (mark Deadline) c
           | _, _ => c
           end in
  if decide (from_option outcome Active (requests c !! state) = Active) then
    match expires with
    | Some expires =>
        let '(id, c, s) := service_register (available e) (deadline_limit e) (now e) expires state c s in
        (r, id, c, s)
    | None => (r, None, c, s)
    end
  else (r, None, c, s).

(** ** The schedule's invariant *)

Record schedule_ok (s : DeadlineSchedule) : Prop := {
  so_index id t a : index s !! id = Some (t, a) ↔ ∃ b, deadlines s !! t = Some b ∧ b !! id = Some a;
  so_bucket t b : deadlines s !! t = Some b → b ≠ ∅;
  so_ids id x : index s !! id = Some x → id < sched_next s;
}.

Lemma schedule_ok_default : schedule_ok schedule_default.
Proof.
  split; cbn; [|by intros ? ? ?%lookup_empty_Some..]. intros id t a. rewrite lookup_empty.
  split; [done|]. by intros (b & Hb%lookup_empty_Some & _).
Qed.

Lemma admit_ok expires a limit s id s' :
  schedule_ok s → admit_entry expires a limit s = (id, s') → schedule_ok s'.
Proof.
  intros [H1 H2 H3] Ha. unfold admit_entry in Ha. case_decide; [by injection Ha as <- <-|].
  case_decide; [|by injection Ha as <- <-]. injection Ha as <- <-. set (n := sched_next s) in *.
  assert (index s !! n = None) as Hfresh.
  { destruct (index s !! n) as [x|] eqn:E; [|done]. apply H3 in E. unfold n in E. lia. }
  assert (∀ t b, deadlines s !! t = Some b → b !! n = None) as Hnb.
  { intros t b Hb. destruct (b !! n) as [a'|] eqn:E; [|done]. assert (index s !! n = Some (t, a')); [|congruence].
    apply H1. eauto. }
  split; cbn.
  - intros id t a'. rewrite lookup_insert_Some, H1. setoid_rewrite lookup_insert_Some. split.
    + intros [[<- [= <- <-]]|[Hne (b & Hb & Hi)]].
      * eexists. split; [by left|]. by rewrite lookup_insert_eq.
      * destruct (decide (expires = t)) as [->|Hnt]; [|eauto 10]. eexists. split; [by left|].
        by rewrite lookup_insert_ne, Hb.
    + intros (b & [[<- <-]|[Hnt Hb]] & Hi).
      * apply lookup_insert_Some in Hi as [[<- <-]|[Hne Hi]]; [by left|right]. split; [done|].
        destruct (deadlines s !! expires) as [b|] eqn:Eb; [by exists b|].
        cbn in Hi. by apply lookup_empty_Some in Hi.
      * right. split; [|eauto]. intros <-. apply Hnb in Hb. congruence.
  - intros t b. rewrite lookup_insert_Some. intros [[<- <-]|[_ Hb]]; [apply insert_non_empty|by eapply H2].
  - intros id x. rewrite lookup_insert_Some. intros [[<- _]|[_ Hx%H3]]; unfold n in *; lia.
Qed.

Lemma remove_entry_spec id t m t' b :
  (∀ t b, m !! t = Some b → b ≠ ∅) →
  remove_entry id t m !! t' = Some b ↔
    if decide (t' = t) then b ≠ ∅ ∧ ∃ b0, m !! t = Some b0 ∧ b = delete id b0 else m !! t' = Some b.
Proof.
  intros Hne. unfold remove_entry. destruct (m !! t) as [b0|] eqn:Eb.
  - case_decide as He; case_decide as Ht; subst.
    + rewrite lookup_delete_eq. naive_solver.
    + by rewrite lookup_delete_ne.
    + rewrite lookup_insert_eq. naive_solver.
    + by rewrite lookup_insert_ne.
  - case_decide; [|done]. subst. rewrite Eb. naive_solver.
Qed.

Lemma schedule_remove_ok id a s b s' : schedule_ok s → remove id a s = (b, s') → schedule_ok s'.
Proof.
  intros [H1 H2 H3] Hr. unfold remove in Hr. destruct (index s !! id) as [[t x]|] eqn:Ei; [|by injection Hr as <- <-].
  case_decide; [by injection Hr as <- <-|]. injection Hr as <- <-. split; cbn.
  - intros id' t' a'. rewrite lookup_delete_Some, H1. setoid_rewrite remove_entry_spec; [|done].
    split.
    + intros [Hne (b0 & Hb & Hi)]. case_decide as Ht; [subst|eauto]. exists (delete id b0).
      rewrite lookup_delete_ne by done. split; [|done]. split; [|eauto]. intros He.
      assert (delete id b0 !! id' = Some a') as Hx by by rewrite lookup_delete_ne. by rewrite He in Hx.
    + intros (b' & Hb' & Hi'). case_decide as Ht.
      * subst. destruct Hb' as (_ & b0 & Hb0 & ->). apply lookup_delete_Some in Hi' as [Hne Hi']. eauto.
      * split; [|eauto]. intros <-. apply Ht. assert (index s !! id = Some (t', a')) by (apply H1; eauto). congruence.
  - intros t' b'. rewrite remove_entry_spec by done. case_decide; [by intros [? _]|apply H2].
  - intros id' x' [_ Hx]%lookup_delete_Some. by eapply H3.
Qed.

(** ** The worker *)

Lemma expire_rows l ix acc :
  NoDup l.*1 → (∀ id a, (id, a) ∈ l → ∃ t, ix !! id = Some (t, a)) →
  ∃ ix', foldl expire_row (ix, acc) l = (ix', acc ++ l.*2) ∧
    ∀ id x, ix' !! id = Some x ↔ ix !! id = Some x ∧ id ∉ l.*1.
Proof.
  revert ix acc. induction l as [|[id a] l IH]; intros ix acc Hnd Hin; cbn [foldl].
  - exists ix. rewrite app_nil_r. split; [done|]. intros id x. cbn. rewrite elem_of_nil. tauto.
  - apply NoDup_cons in Hnd as [Hid Hnd]. destruct (Hin id a (list_elem_of_here _ _)) as [t Ht].
    unfold expire_row at 2. cbn [fst snd]. rewrite Ht, decide_True by done.
    destruct (IH (delete id ix) (acc ++ [a]) Hnd) as (ix' & -> & Hix).
    { intros id' a' Hin'. destruct (Hin id' a') as [t' Ht']; [by right|]. exists t'.
      rewrite lookup_delete_ne; [done|]. intros <-. apply Hid, list_elem_of_fmap. by exists (id, a'). }
    exists ix'. split; [by rewrite <- app_assoc|]. intros id' x. rewrite Hix, lookup_delete_Some. cbn.
    rewrite not_elem_of_cons. naive_solver.
Qed.

Lemma next_due_some now s expired s' :
  schedule_ok s → next_due now s = Some (expired, s') →
  schedule_ok s' ∧ (size (deadlines s') < size (deadlines s))%nat ∧ ∃ t0, t0 ≤ now ∧
    (∀ id x, index s' !! id = Some x ↔ index s !! id = Some x ∧ x.1 ≠ t0) ∧
    (∀ a, a ∈ expired ↔ ∃ id, index s !! id = Some (t0, a)).
Proof.
  intros [H1 H2 H3] Hn. unfold next_due in Hn. destruct (head (btree_keys (deadlines s))) as [t0|] eqn:Eh; [|done].
  case_decide as Hle; [done|]. apply N.nlt_ge in Hle.
  assert (is_Some (deadlines s !! t0)) as [b Hb] by (apply elem_of_btree_keys; by apply head_Some_elem_of).
  rewrite Hb in Hn. change (default ∅ (Some b)) with b in Hn.
  destruct (expire_rows (map_to_list b) (index s) []) as (ix & Hf & Hix).
  { apply NoDup_fst_map_to_list. }
  { intros id a Hin%elem_of_map_to_list. exists t0. apply H1. eauto. }
  rewrite Hf in Hn. injection Hn as <- <-. cbn.
  assert (∀ id x, ix !! id = Some x ↔ index s !! id = Some x ∧ x.1 ≠ t0) as Hix'.
  { intros id [t a]. rewrite Hix. split; intros [Hi Hnot]; (split; [done|]); cbn in *.
    - intros ->. apply H1 in Hi as (b' & Hb' & Hi). rewrite Hb in Hb'. injection Hb' as <-.
      apply Hnot, list_elem_of_fmap. exists (id, a). split; [done|]. by apply elem_of_map_to_list.
    - intros ([id' a'] & -> & Hin%elem_of_map_to_list)%list_elem_of_fmap. cbn in Hi.
      assert (index s !! id' = Some (t0, a')) by (apply H1; eauto). congruence. }
  split_and!.
  - split; cbn.
    + intros id t a. rewrite Hix', H1. cbn. setoid_rewrite lookup_delete_Some. naive_solver.
    + intros t b' [_ Hb']%lookup_delete_Some. by eapply H2.
    + intros id x [Hx _]%Hix'. by eapply H3.
  - rewrite map_size_delete_Some by eauto. apply Nat.lt_pred_l.
    intros Hz%map_size_empty_inv. by rewrite Hz in Hb.
  - exists t0. split; [done|]. split; [done|]. intros a. rewrite list_elem_of_fmap. split.
    + intros ([id a'] & -> & Hin%elem_of_map_to_list). exists id. apply H1. eauto.
    + intros [id Hi]. apply H1 in Hi as (b' & Hb' & Hi). rewrite Hb in Hb'. injection Hb' as <-.
      exists (id, a). split; [done|]. by apply elem_of_map_to_list.
Qed.

Lemma next_due_none now s : schedule_ok s → next_due now s = None → ∀ id t a, index s !! id = Some (t, a) → now < t.
Proof.
  intros [H1 _ _] Hn id t a (b & Hb & _)%H1. unfold next_due in Hn.
  assert (t ∈ btree_keys (deadlines s)) as Hin by (apply elem_of_btree_keys; eauto).
  pose proof (btree_keys_sorted (deadlines s)) as Hs.
  destruct (btree_keys (deadlines s)) as [|t0 l]; [by apply elem_of_nil in Hin|]. cbn [head] in Hn.
  case_decide as Hlt; [|by destruct (foldl _ _ _)]. apply elem_of_cons in Hin as [->|Hin]; [done|].
  apply StronglySorted_inv in Hs as [_ Hall]. rewrite Forall_forall in Hall. specialize (Hall t Hin).
  assert (t0 < t) by exact Hall. lia.
Qed.

Lemma mark_deadline_idem r : mark Deadline (mark Deadline r) = mark Deadline r.
Proof.
  unfold mark, cancel_evaluator, mark_cause. cbn. f_equal; repeat case_decide; naive_solver.
Qed.

Lemma mark_all_lookup expired h a :
  mark_all expired h !! a = if decide (a ∈ expired) then mark Deadline <$> h !! a else h !! a.
Proof.
  unfold mark_all. revert h. induction expired as [|s l IH]; intros h; cbn [foldl]; [done|].
  rewrite IH. destruct (decide (a = s)) as [->|Hne].
  - rewrite lookup_alter_eq, (decide_True (P := s ∈ s :: l)) by left. case_decide; [|done].
    destruct (h !! s); cbn; [|done]. by rewrite mark_deadline_idem.
  - rewrite lookup_alter_ne by done. destruct (decide (a ∈ l)).
    + by rewrite decide_True by by right.
    + rewrite decide_False; [done|]. by intros [->|?]%elem_of_cons.
Qed.

(** C32: The worker's loop ends, and when it waits exactly the registrations that
    are due have left the schedule, their requests marked with the deadline and
    no other request touched; the invariant of the schedule is kept. *)
Theorem due_deadlines_fire now s h :
  schedule_ok s →
  ∃ s' h', run_deadlines (deadline_fuel s) now s h = Some (s', h') ∧ schedule_ok s' ∧
    (∀ id x, index s' !! id = Some x ↔ index s !! id = Some x ∧ now < x.1) ∧
    (∀ a, (∃ id t, index s !! id = Some (t, a) ∧ t ≤ now) → h' !! a = mark Deadline <$> h !! a) ∧
    (∀ a, (∀ id t, index s !! id = Some (t, a) → now < t) → h' !! a = h !! a).
Proof.
  unfold deadline_fuel. remember (S (size (deadlines s))) as fuel eqn:Ef.
  assert (size (deadlines s) < fuel)%nat as Hf by lia. clear Ef. revert s h Hf.
  induction fuel as [|fuel IH]; intros s h Hf Hok; [lia|]. cbn [run_deadlines].
  destruct (next_due now s) as [[expired s1]|] eqn:En.
  - destruct (next_due_some _ _ _ _ Hok En) as (Hok1 & Hsize & t0 & Ht0 & Hix & Hexp).
    destruct (IH s1 (mark_all expired h) ltac:(lia) Hok1) as (s' & h' & -> & Hok' & Hix' & Hdue & Hrest).
    exists s', h'. split; [done|]. split; [done|]. split; [|split].
    + intros id x. rewrite Hix', Hix. split; [naive_solver|]. intros [? ?]. split_and!; [done|lia|done].
    + intros a (id & t & Hi & Hle). destruct (decide (t = t0)) as [->|Hne].
      * assert (a ∈ expired) as Hin by (apply Hexp; eauto).
        assert (h' !! a = mark Deadline <$> mark_all expired h !! a ∨ h' !! a = mark_all expired h !! a) as Ha.
        { destruct (decide (Exists (λ row, row.2.2 = a ∧ row.2.1 ≤ now) (map_to_list (index s1)))) as [He|Hno].
          - left. apply Hdue. apply Exists_exists in He as ([id' [t' a']] & Hin'%elem_of_map_to_list & [Ha' Hle']).
            cbn in *. subst a'. eauto.
          - right. apply Hrest. intros id' t' Hi'. apply N.nle_gt. intros Hle'. apply Hno, Exists_exists.
            exists (id', (t', a)). split; [by apply elem_of_map_to_list|done]. }
        rewrite mark_all_lookup, decide_True in Ha by done. destruct Ha as [->| ->]; [|done].
        destruct (h !! a); cbn; [|done]. by rewrite mark_deadline_idem.
      * rewrite Hdue by (exists id, t; split; [by apply Hix|done]). rewrite mark_all_lookup. case_decide; [|done].
        destruct (h !! a); cbn; [|done]. by rewrite mark_deadline_idem.
    + intros a Ha. rewrite Hrest by (intros id t [Hi _]%Hix; by eapply Ha). rewrite mark_all_lookup.
      rewrite decide_False; [done|]. intros [id Hi]%Hexp. apply Ha in Hi. lia.
  - pose proof (next_due_none _ _ Hok En) as Hnone. exists s, h. split; [done|]. split; [done|]. split; [|split; [|done]].
    + intros id [t a]. cbn. naive_solver.
    + intros a (id & t & Hi & Hle). apply Hnone in Hi. lia.
Qed.

(** ** All uses of the schedule *)

Inductive schedule_step (limit : nat) : DeadlineSchedule → DeadlineSchedule → Prop :=
  | do_admit s expires a r s' : admit_entry expires a limit s = (r, s') → schedule_step limit s s'
  | do_remove s id a b s' : remove id a s = (b, s') → schedule_step limit s s'
  | do_expire s now expired s' : next_due now s = Some (expired, s') → schedule_step limit s s'.

Lemma schedule_remove_size id a s b s' : remove id a s = (b, s') → (size (index s') ≤ size (index s))%nat.
Proof.
  unfold remove. destruct (index s !! id) as [[t x]|] eqn:Ei; [|by intros [= <- <-]].
  case_decide; [by intros [= <- <-]|]. intros [= <- <-]. cbn. rewrite map_size_delete, Ei. cbn. lia.
Qed.

Lemma next_due_size now s expired s' :
  schedule_ok s → next_due now s = Some (expired, s') → (size (index s') ≤ size (index s))%nat.
Proof.
  intros Hok Hn. destruct (next_due_some _ _ _ _ Hok Hn) as (_ & _ & t0 & _ & Hix & _).
  apply map_subseteq_size, map_subseteq_spec. intros id x Hx. by apply Hix in Hx as [? _].
Qed.

(** However registrations, removals and expirations are mixed, an identifier is
    in the index exactly when its bucket holds it, no bucket is empty, and
    there are never more registrations than the limit. *)
Theorem schedule_bounded limit s :
  rtc (schedule_step limit) schedule_default s → schedule_ok s ∧ (size (index s) ≤ limit)%nat.
Proof.
  intros Hr. refine (rtc_ind_r (λ s, schedule_ok s ∧ (size (index s) ≤ limit)%nat) schedule_default _ _ s Hr).
  - split; [apply schedule_ok_default|cbn; rewrite map_size_empty; lia].
  - intros s1 s2 _ [] [Hok Hsz].
    + split; [by eapply admit_ok|]. unfold admit_entry in H. case_decide as Hl; [by injection H as <- <-|].
      case_decide; injection H as <- <-; [|done]. cbn. rewrite map_size_insert_None; [lia|].
      destruct (index s0 !! sched_next s0) as [x|] eqn:E; [|done]. apply (so_ids _ Hok) in E. lia.
    + split; [by eapply schedule_remove_ok|]. apply schedule_remove_size in H. lia.
    + split; [by apply (next_due_some _ _ _ _ Hok H)|]. pose proof (next_due_size _ _ _ _ Hok H). lia.
Qed.

(** ** Starting a clock *)

(** The registry refuses: it is full, or out of identifiers. *)
Definition registry_full (limit : nat) (c : Cancellation) : Prop :=
  (limit ≤ size (evaluators c))%nat ∨ u128_max ≤ next_id c.
Definition schedule_full (limit : nat) (s : DeadlineSchedule) : Prop :=
  (limit ≤ size (index s))%nat ∨ u128_max ≤ sched_next s.

(** What a started request is, and whether the service watches it. *)
Inductive start_result (e : ClockEnv) (timeout : option N) (started : N) (c : Cancellation) (s : DeadlineSchedule)
    : RequestOutcome → option N → Prop :=
  | start_cancelled : cancelled c = true → start_result e timeout started c s Explicit None
  | start_refused :
      cancelled c = false → registry_full (query_limit e) c →
      start_result e timeout started c s QueryCapacity None
  | start_unbounded :
      cancelled c = false → ¬ registry_full (query_limit e) c → timeout = None →
      start_result e timeout started c s Active None
  | start_late d :
      cancelled c = false → ¬ registry_full (query_limit e) c → timeout = Some d →
      instant_max e < started + d ∨ started + d ≤ now e → start_result e timeout started c s Deadline None
  | start_unavailable d :
      cancelled c = false → ¬ registry_full (query_limit e) c → timeout = Some d →
      started + d ≤ instant_max e → now e < started + d → available e = false →
      start_result e timeout started c s DeadlineUnavailable None
  | start_full d :
      cancelled c = false → ¬ registry_full (query_limit e) c → timeout = Some d →
      started + d ≤ instant_max e → now e < started + d → available e = true →
      schedule_full (deadline_limit e) s → start_result e timeout started c s DeadlineCapacity None
  | start_watched d :
      cancelled c = false → ¬ registry_full (query_limit e) c → timeout = Some d →
      started + d ≤ instant_max e → now e < started + d → available e = true →
      ¬ schedule_full (deadline_limit e) s → start_result e timeout started c s Active (Some (started + d)).

Lemma admit_cases t a limit s :
  (schedule_full limit s ∧ admit_entry t a limit s = (None, s)) ∨
  (¬ schedule_full limit s ∧ ∃ s', admit_entry t a limit s = (Some (sched_next s), s') ∧
     index s' !! sched_next s = Some (t, a)).
Proof.
  unfold admit_entry, schedule_full. case_decide; [left; split; [by left|done]|]. case_decide.
  - right. split; [lia|]. eexists. split; [done|]. cbn. by rewrite lookup_insert_eq.
  - left. split; [lia|done].
Qed.

Lemma mark_request o s (c : Cancellation) r :
  requests c !! s = Some r → requests (with_request s (mark o) c) !! s = Some (mark o r).
Proof. intros Hr. cbn. by rewrite lookup_alter_eq, Hr. Qed.

Lemma register_start limit a c r c1 :
  register limit a c = (r, c1) →
  ∃ o, requests c1 !! a = Some (mark o request_new) ∧ reg_state r = a ∧
    ((cancelled c = true ∧ o = Explicit) ∨
     (cancelled c = false ∧ registry_full limit c ∧ o = QueryCapacity) ∨
     (cancelled c = false ∧ ¬ registry_full limit c ∧ o = Active)).
Proof.
  unfold register, register_admit, registry_full. intros Hr.
  case_decide as Hfull; [|case_decide as Hid]; injection Hr as <- <-; eexists;
    (split; [apply mark_request; cbn; by rewrite lookup_insert_eq|]); (split; [done|]);
    unfold register_outcome; cbn; destruct (cancelled c) eqn:Ec; [by left| | | | |].
  - right; left. split_and!; [done| |done]. left. by destruct Hfull.
  - destruct Hfull. by left.
  - right; right. split_and!; [done| |done]. intros [?|?]; [|lia]. apply Hfull. by right.
  - destruct Hfull. by left.
  - right; left. split_and!; [done| |done]. right. lia.
Qed.

(** A request's clock starts as the first refusal says, in the order: an
    explicit cancellation, the registry's capacity, a deadline that cannot be
    represented or has passed, a service without its thread, the schedule's
    capacity; it is active in the other cases, watched exactly when it has a
    deadline. *)
Theorem clock_start_outcome e timeout started a c s :
  match clock_start e timeout started a c s with
  | (r, id, c', s') => ∃ st due, requests c' !! reg_state r = Some st ∧
      start_result e timeout started c s (outcome st) due ∧
      match due with
      | Some t => ∃ i, id = Some i ∧ index s' !! i = Some (t, a)
      | None => id = None ∧ s' = s
      end
  end.
Proof.
  unfold clock_start. destruct (register (query_limit e) a c) as [r c1] eqn:Er.
  destruct (register_start _ _ _ _ _ Er) as (o & Hr & Hra & Hcase).
  pose proof (mark_request Deadline a c1 _ Hr) as Hlate.
  (* a request that is already refused is not watched *)
  assert (∀ c2, c2 = c1 ∨ c2 = with_request a (mark Deadline) c1 → o ≠ Active →
    ∃ st, requests c2 !! a = Some st ∧ outcome st = o) as Hstands.
  { assert (o ≠ Active → outcome (mark Deadline (mark o request_new)) = o ∧ outcome (mark o request_new) = o) as Ho.
    { destruct Hcase as [[_ ->]|[(_ & _ & ->)|(_ & _ & ->)]]; done. }
    intros c2 [->| ->] [H1 H2]%Ho; eauto. }
  set (expires := timeout ≫= _). set (c2 := match timeout with Some _ => _ | None => _ end).
  assert (c2 = c1 ∨ c2 = with_request a (mark Deadline) c1) as Hc2.
  { unfold c2. repeat case_match; auto. }
  destruct (decide (o = Active)) as [Ho|Ho].
  2: { destruct (Hstands c2 Hc2 Ho) as (st & Hst & Hout). rewrite Hst. cbn [from_option].
       rewrite decide_False by congruence. exists st, None. rewrite Hra, Hout. split; [done|]. split; [|done].
       destruct Hcase as [[? ->]|[(? & ? & ->)|(_ & _ & ->)]]; [by constructor..|done]. }
  destruct Hcase as [[_ ->]|[(_ & _ & ->)|(Hc & Hf & _)]]; [done|done|]. subst o. clear Hstands Hc2.
  unfold c2, expires in *. clear c2 expires. destruct timeout as [d|]; cbn [mbind option_bind].
  2: { rewrite Hr. cbn [from_option]. rewrite decide_True by done. exists (mark Active request_new), None. rewrite Hra. split_and!; try done. by constructor. }
  destruct (decide (started + d ≤ instant_max e)) as [Hmax|Hmax].
  2: { rewrite Hlate. cbn [from_option]. rewrite decide_False by done. eexists _, None. rewrite Hra. split; [exact Hlate|]. split; [|done].
       eapply start_late; [done|done|done|]. lia. }
  rewrite Hr. cbn [from_option]. rewrite decide_True by done. unfold service_register. case_decide as Hnow; [|destruct (available e) eqn:Ea; cbn [negb]].
  - eexists _, None. rewrite Hra. split; [exact Hlate|]. split; [|done]. eapply start_late; eauto.
  - destruct (admit_cases (started + d) a (deadline_limit e) s) as [[Hfull ->]|(Hfull & s' & -> & Hs')].
    + eexists _, None. rewrite Hra. split; [by apply mark_request|]. split; [|done].
      eapply start_full; eauto. lia.
    + eexists _, (Some (started + d)). rewrite Hra. split; [exact Hr|]. split; [|eauto].
      eapply start_watched; eauto. lia.
  - eexists _, None. rewrite Hra. split; [by apply mark_request|]. split; [|done].
    eapply start_unavailable; eauto. lia.
Qed.

(** ** Concrete inputs *)

Section demo.
Let s1 : DeadlineSchedule := (admit_entry 5 7 8 schedule_default).2.
Let h0 : gmap N RequestState := {[7 := request_new]}.

Example schedule_bounded_witness : schedule_ok s1 ∧ (size (index s1) ≤ 8)%nat.
Proof. apply (schedule_bounded 8), rtc_once. by eapply (do_admit 8 schedule_default 5 7 (Some 0)). Defined.

Example due_deadlines_fire_witness :
  ∃ s' h', run_deadlines (deadline_fuel s1) 6 s1 h0 = Some (s', h') ∧ schedule_ok s' ∧
    (∀ id x, index s' !! id = Some x ↔ index s1 !! id = Some x ∧ 6 < x.1) ∧
    (∀ a, (∃ id t, index s1 !! id = Some (t, a) ∧ t ≤ 6) → h' !! a = mark Deadline <$> h0 !! a) ∧
    (∀ a, (∀ id t, index s1 !! id = Some (t, a) → 6 < t) → h' !! a = h0 !! a).
Proof.
  apply (due_deadlines_fire 6 s1). apply (admit_ok 5 7 8 schedule_default (Some 0)); [apply schedule_ok_default|done].
Defined.
End demo.
