(* ===== verification/Budget.v ===== *)
(** * Query budgets ([src/internal/query/budget.rs], [src/internal/query/worker.rs])

    The work and the results of one query are counted by atomic counters that
    the threads of the query share.  Every observation is a sequence of atomic
    accesses: a look at the request's clock, and additions that fail above a
    limit; threads interleave them.  The allocator decides the capacities that
    byte estimates add up, so they are arguments. *)

From S2P Require Import Prelude Requests Deadlines.
#[local] Open Scope N_scope.
#[local] Open Scope string_scope.

(** [std::result::Result]; [outcome] is that of a request here. *)
Abbreviation result := Prelude.outcome (only parsing).

(** ** Limits *)

Record QueryLimits := {
  max_query_bytes : N; max_result_rows : N; max_result_cells : N; max_result_bytes : N; max_graph_triples : N;
  max_intermediate_rows : N; max_hash_entries : N; max_hash_bytes : N; max_property_path_edges : N;
  max_property_path_depth : N; deadline : option N;
}.
(** [QueryLimits::production]; the deadline is in seconds. *)
Definition production : QueryLimits :=
  {| max_query_bytes := 1048576; max_result_rows := 100000; max_result_cells := 1000000; max_result_bytes := 64 * 1048576;
     max_graph_triples := 100000; max_intermediate_rows := 1000000; max_hash_entries := 1000000;
     max_hash_bytes := 128 * 1048576; max_property_path_edges := 1000000; max_property_path_depth := 64; deadline := Some 30 |}.

Record BudgetShape := { property_path : bool; property_path_depth : N; guarded_hash : bool; estimated_rows : N }.

Inductive QueryLimitExceeded := Limit (resource : string) (limit : N) | QueryCancelled.

Definition HASH_ROW_ESTIMATE : N := 128.
Definition DENSE_CACHE_ENTRIES : N := 8192.
Definition DENSE_CACHE_BYTES : N := 1048576.

Definition clock_error (o : RequestOutcome) : option QueryLimitExceeded :=
  match o with
  | Active => None
  | Explicit => Some QueryCancelled
  | Deadline => Some (Limit "query deadline" 0)
  | QueryCapacity => Some (Limit "active query registrations" (N.of_nat MAX_QUERY_REGISTRATIONS))
  | DeadlineCapacity => Some (Limit "active deadline registrations" (N.of_nat MAX_DEADLINE_REGISTRATIONS))
  | DeadlineUnavailable => Some (Limit "deadline service" 0)
  end.

(** ** Counters *)

Inductive Counter := IntermediateRows | PropertyPathEdges | ResultRows | ResultCells | ResultBytes | GraphTriples.
#[export] Instance counter_eq_dec : EqDecision Counter.
Proof. solve_decision. Defined.

Definition limit_of (l : QueryLimits) (c : Counter) : N :=
  match c with
  | IntermediateRows => max_intermediate_rows l
  | PropertyPathEdges => max_property_path_edges l
  | ResultRows => max_result_rows l
  | ResultCells => max_result_cells l
  | ResultBytes => max_result_bytes l
  | GraphTriples => max_graph_triples l
  end.
Definition resource_of (c : Counter) : string :=
  match c with
  | IntermediateRows => "intermediate rows"
  | PropertyPathEdges => "property path edges"
  | ResultRows => "result rows"
  | ResultCells => "result cells"
  | ResultBytes => "estimated result bytes"
  | GraphTriples => "graph triples"
  end.

Record QueryBudget := { limits : QueryLimits; shape : BudgetShape; counters : Counter → N }.

Definition query_budget_new (s : BudgetShape) (l : QueryLimits) (clock : RequestOutcome) : result QueryLimitExceeded QueryBudget :=
  match clock_error clock with
  | Some e => Err e
  | None =>
      if decide (max_property_path_depth l < property_path_depth s) then
        Err (Limit "property path depth" (max_property_path_depth l))
      else if decide (max_intermediate_rows l < estimated_rows s) then
        Err (Limit "estimated intermediate rows" (max_intermediate_rows l))
      else if guarded_hash s && bool_decide (max_hash_entries l < estimated_rows s) then
        Err (Limit "estimated hash entries" (max_hash_entries l))
      else if guarded_hash s && bool_decide (max_hash_bytes l < sat_mul 64 (estimated_rows s) HASH_ROW_ESTIMATE) then
        Err (Limit "estimated hash bytes" (max_hash_bytes l))
      else Ok {| limits := l; shape := s; counters := λ _, 0 |}
  end.

Definition resume (b : QueryBudget) (s : BudgetShape) (clock : RequestOutcome) : result QueryLimitExceeded QueryBudget :=
  n ← query_budget_new s (limits b) clock; Ok {| limits := limits n; shape := shape n; counters := counters b |}.

Definition dense_cache_limits (b : QueryBudget) : N * N :=
  (N.min (max_hash_entries (limits b)) DENSE_CACHE_ENTRIES, N.min (max_hash_bytes (limits b)) DENSE_CACHE_BYTES).

Definition set_counter (b : QueryBudget) (c : Counter) (n : N) : QueryBudget :=
  {| limits := limits b; shape := shape b; counters := λ d, if decide (d = c) then n else counters b d |}.

(** [add_limited]: [fetch_add] wraps, the total it is judged by saturates. *)
Definition add_limited (c : Counter) (amount : N) (b : QueryBudget) : QueryBudget * result QueryLimitExceeded N :=
  let previous := counters b c in
  let total := sat_add 64 previous amount in
  (set_counter b c (wrap_add 64 previous amount),
   if decide (limit_of (limits b) c < total) then Err (Limit (resource_of c) (limit_of (limits b) c)) else Ok total).

(** ** Observations *)

(** The atomic accesses of an observation. *)
Inductive Access :=
  | CheckClock
  | AddLimited (c : Counter) (amount : N) (then_ : N → option QueryLimitExceeded).

Definition nothing (total : N) : option QueryLimitExceeded := None.

(** What the total of intermediate rows means for a hash join. *)
Definition hash_guard (b : QueryBudget) (total : N) : option QueryLimitExceeded :=
  if guarded_hash (shape b) then
    if decide (max_hash_entries (limits b) < total) then Some (Limit "hash entries" (max_hash_entries (limits b)))
    else if decide (max_hash_bytes (limits b) < sat_mul 64 total HASH_ROW_ESTIMATE) then
      Some (Limit "estimated hash bytes" (max_hash_bytes (limits b)))
    else None
  else None.

Definition observe_intermediate (b : QueryBudget) (rows : N) : list Access :=
  ([CheckClock; AddLimited IntermediateRows rows (hash_guard b)] ++
   if property_path (shape b) then [AddLimited PropertyPathEdges rows nothing] else [])%list.
Definition observe_result (cells bytes : N) : list Access :=
  [CheckClock; AddLimited ResultRows 1 nothing; AddLimited ResultCells cells nothing; AddLimited ResultBytes bytes nothing].

(** [row_entry] is the size of a map entry; the entries are the capacities of
    their variable and term. *)
Definition observe_solution (row_entry capacity : N) (row : list (N * N)) : list Access :=
  observe_result (N.of_nat (length row))
    (foldl (λ bytes e, sat_add 64 (sat_add 64 bytes e.1) e.2) (sat_mul 64 capacity row_entry) row).
Definition observe_capacity (size previous current : N) : list Access :=
  [AddLimited ResultBytes (sat_mul 64 (sat_sub current previous) size) nothing].
Definition observe_graph (subject predicate object : N) : list Access :=
  (AddLimited GraphTriples 1 nothing :: observe_result 3 (sat_add 64 (sat_add 64 subject predicate) object))%list.
Definition observe_boolean : list Access := observe_result 1 1.

Definition check_hash (b : QueryBudget) (clock : RequestOutcome) (entries bytes : N) : result QueryLimitExceeded () :=
  match clock_error clock with
  | Some e => Err e
  | None =>
      if decide (max_hash_entries (limits b) < entries) then Err (Limit "hash entries" (max_hash_entries (limits b)))
      else if decide (max_hash_bytes (limits b) < bytes) then Err (Limit "hash bytes" (max_hash_bytes (limits b)))
      else Ok ()
  end.

(** One access, seeing the clock as it is then. *)
Definition access (clock : RequestOutcome) (a : Access) (b : QueryBudget) : QueryBudget * result QueryLimitExceeded () :=
  match a with
  | CheckClock => (b, match clock_error clock with Some e => Err e | None => Ok () end)
  | AddLimited c amount then_ =>
      let r := add_limited c amount b in
      (r.1, total ← r.2; match then_ total with Some e => Err e | None => Ok () end)
  end.

(** ** Threads *)

(** A thread is inside an observation, with the accesses it has left, or has
    ended one. *)
Inductive Thread := Observing (rest : list Access) | Ended (r : result QueryLimitExceeded ()).

(** Observations of the budget's own code. *)
Inductive observation (b : QueryBudget) : list Access → Prop :=
  | obs_intermediate rows : observation b (observe_intermediate b rows)
  | obs_solution row_entry capacity row : observation b (observe_solution row_entry capacity row)
  | obs_capacity size previous current : observation b (observe_capacity size previous current)
  | obs_graph s p o : observation b (observe_graph s p o)
  | obs_boolean : observation b observe_boolean.

(** What the accesses have added, and whether they were let through; the latest
    first. *)
Definition is_ok {E A} (r : result E A) : bool := match r with Ok _ => true | _ => false end.
Record Added := { on : Counter; amount : N; let_through : bool }.
Inductive budget_step : QueryBudget * gmap N Thread → list Added → QueryBudget * gmap N Thread → Prop :=
  | step_begin b T t rest :
      (∀ k, T !! t ≠ Some (Observing k)) → observation b rest → budget_step (b, T) [] (b, <[t := Observing rest]> T)
  | step_check b T t rest clock r :
      T !! t = Some (Observing (CheckClock :: rest)) → (access clock CheckClock b).2 = r →
      budget_step (b, T) [] (b, <[t := match r with Ok _ => Observing rest | r => Ended r end]> T)
  | step_add b T t c n then_ rest clock b' r :
      T !! t = Some (Observing (AddLimited c n then_ :: rest)) → access clock (AddLimited c n then_) b = (b', r) →
      budget_step (b, T) [{| on := c; amount := n; let_through := is_ok (add_limited c n b).2 |}]
        (b', <[t := match r with Ok _ => Observing rest | r => Ended r end]> T)
  | step_end b T t : T !! t = Some (Observing []) → budget_step (b, T) [] (b, <[t := Ended (Ok ())]> T).

Inductive budget_run (b : QueryBudget) : list Added → QueryBudget * gmap N Thread → Prop :=
  | run_start : budget_run b [] (b, ∅)
  | run_step log new s s' : budget_run b log s → budget_step s new s' → budget_run b (new ++ log)%list s'.

(** ** Workers *)

Definition MAX_QUERY_WORKERS : N := 4.
(** [available] is the parallelism the platform reports, [built] whether the pool
    could be made. *)
Definition worker_count (available : option N) (built : bool) : N :=
  if built then N.min (default 1 available) MAX_QUERY_WORKERS else 1.

(** ** Rules *)

(** The amounts on a counter: all that were added, and those let through. *)
Definition spent (c : Counter) (log : list Added) : N :=
  foldr (λ a n, if decide (on a = c) then amount a + n else n) 0 log.
Definition kept (c : Counter) (log : list Added) : N :=
  foldr (λ a n, if decide (on a = c) then (if let_through a then amount a else 0) + n else n) 0 log.

Lemma kept_spent c log : kept c log <= spent c log.
Proof. unfold kept, spent. induction log as [|a log IH]; cbn; [done|]. case_decide; [|done]. destruct (let_through a); lia. Qed.

(** Every addition was let through exactly when the sum it made is in the limit. *)
Definition judged (l : QueryLimits) (c : Counter) (log : list Added) : Prop :=
  ∀ newer a older, log = (newer ++ a :: older)%list → on a = c →
    let_through a = true ↔ spent c (a :: older) <= limit_of l c.

Record accounted (l : QueryLimits) (log : list Added) (b : QueryBudget) : Prop := {
  ac_limits : limits b = l;
  ac_counts c : spent c log <= u64_max → counters b c = spent c log ∧ kept c log <= limit_of l c ∧ judged l c log;
}.

Lemma accounted_add l log b c n : accounted l log b →
  accounted l ({| on := c; amount := n; let_through := is_ok (add_limited c n b).2 |} :: log) (add_limited c n b).1.
Proof.
  intros [Hl Hc]. split; [done|]. intros d Hd. unfold add_limited. cbn [fst snd set_counter counters spent kept foldr on amount let_through] in *.
  destruct (decide (c = d)) as [<-|Hne].
  2: { rewrite decide_False by congruence. destruct (Hc d Hd) as (Hn & Hk & Hj). split_and!; [done|done|].
       intros [|x newer] a older E Ha; injection E as <- E; [by subst|by eapply Hj]. }
  fold (spent c log) (kept c log) in *. assert (spent c log <= u64_max) as Hs by lia. destruct (Hc c Hs) as (Hn & Hk & Hj).
  rewrite Hn, Hl. rewrite sat_add_exact by lia. pose proof (kept_spent c log). rewrite decide_True by done. split_and!.
  - unfold wrap_add, max_of in *. rewrite N.mod_small; lia.
  - case_decide; cbn; lia.
  - intros [|x newer] a older E Ha; injection E as <- E; [|by eapply Hj]. subst older. cbn [on amount let_through spent foldr].
    destruct (decide (c = c)) as [_|]; [|done].
    fold (spent c log). case_decide; cbn [is_ok]; (split; intros Hx; first [done | lia | exfalso; lia]).
Qed.

Lemma run_accounted l b log b' T : budget_run b log (b', T) → limits b = l → (∀ c, counters b c = 0) → accounted l log b'.
Proof.
  intros Hrun Hl H0. remember (b', T) as s eqn:Es. revert b' T Es.
  induction Hrun as [|log new [b1 T1] s' Hrun IH Hstep]; intros b' T Es.
  - injection Es as <- <-. split; [done|]. intros c _. split_and!; [apply H0|cbn; lia|]. by intros [] ? ? ?.
  - subst s'. specialize (IH b1 T1 eq_refl). inversion Hstep; subst; try done. cbn [app].
    match goal with H : access _ _ _ = _ |- _ => cbn in H; injection H as <- _ end. by apply accounted_add.
Qed.

(** C34: however the threads of a query interleave, and as long as the additions
    made do not overflow a counter: what all additions that were let through
    add to a counter is within its limit, the counter holds the sum of all
    additions, and an addition was refused exactly when the sum it made exceeds
    the limit. *)
Theorem budget_bounds_work s l clock b log b' T c :
  query_budget_new s l clock = Ok b → budget_run b log (b', T) → spent c log <= u64_max →
  kept c log <= limit_of l c ∧ counters b' c = spent c log ∧ judged l c log.
Proof.
  intros Hb Hrun Hs. assert (limits b = l ∧ ∀ c, counters b c = 0) as [Hl H0].
  { revert Hb. unfold query_budget_new. repeat case_match; try done. by intros [= <-]. }
  destruct (ac_counts _ _ _ (run_accounted l b log b' T Hrun Hl H0) c Hs) as (? & ? & ?). done.
Qed.

(** A query that ends on its first refusal does not overflow; one that goes on
    adding does, and the sum wraps to one that is let through. *)
Definition one_row : QueryLimits :=
  {| max_query_bytes := 100; max_result_rows := 1; max_result_cells := 10; max_result_bytes := 100; max_graph_triples := 10;
     max_intermediate_rows := 10; max_hash_entries := 10; max_hash_bytes := 10000; max_property_path_edges := 10;
     max_property_path_depth := 3; deadline := None |}.
Definition plain_shape : BudgetShape := {| property_path := false; property_path_depth := 0; guarded_hash := false; estimated_rows := 2 |}.
Definition demo_budget : QueryBudget := {| limits := one_row; shape := plain_shape; counters := λ _, 0 |}.
Example wrapped_sum_let_through :
  let b := (add_limited ResultBytes 100 demo_budget).1 in
  (add_limited ResultBytes (u64_max - 99) b).2 = Err (Limit "estimated result bytes" 100) ∧
  (add_limited ResultBytes 100 (add_limited ResultBytes (u64_max - 99) b).1).2 = Ok 100.
Proof. by vm_compute. Qed.

(** Two threads count bytes; the second goes over the limit. *)
Definition adding (n : N) : list Access := observe_capacity 1 0 n.
Definition threads_started : gmap N Thread := <[2 := Observing (adding 1)]> (<[1 := Observing (adding 100)]> ∅).
Definition threads_done : gmap N Thread :=
  <[2 := Ended (Err (Limit "estimated result bytes" 100))]> (<[1 := Observing []]> threads_started).
Definition byte_log : list Added :=
  [{| on := ResultBytes; amount := 1; let_through := false |}; {| on := ResultBytes; amount := 100; let_through := true |}].
Definition spent_budget : QueryBudget := (add_limited ResultBytes 1 (add_limited ResultBytes 100 demo_budget).1).1.

Lemma byte_run : budget_run demo_budget byte_log (spent_budget, threads_done).
Proof.
  pose proof (run_start demo_budget) as R0.
  assert (budget_step (demo_budget, ∅) [] (demo_budget, <[1 := Observing (adding 100)]> ∅)) as S1.
  { apply step_begin; [by intros k|apply obs_capacity]. }
  pose proof (run_step _ _ _ _ _ R0 S1) as R1.
  assert (budget_step (demo_budget, <[1 := Observing (adding 100)]> ∅) [] (demo_budget, threads_started)) as S2.
  { apply step_begin; [by intros k|apply obs_capacity]. }
  pose proof (run_step _ _ _ _ _ R1 S2) as R2.
  pose proof (run_step _ _ _ _ _ R2
    (step_add demo_budget threads_started 1 ResultBytes 100 nothing [] Active _ _ eq_refl eq_refl)) as R3.
  pose proof (run_step _ _ _ _ _ R3
    (step_add (add_limited ResultBytes 100 demo_budget).1 (<[1 := Observing []]> threads_started) 2 ResultBytes 1 nothing [] Active _ _
       eq_refl eq_refl)) as R4.
  exact R4.
Qed.
Lemma budget_bounds_work_witness :
  kept ResultBytes byte_log <= limit_of one_row ResultBytes ∧
  counters spent_budget ResultBytes = spent ResultBytes byte_log ∧ judged one_row ResultBytes byte_log.
Proof.
  apply (budget_bounds_work plain_shape one_row Active demo_budget byte_log spent_budget threads_done ResultBytes); [reflexivity|apply byte_run|].
  by vm_compute.
Defined.
