(* ===== verification/Grants.v ===== *)
(** * Grants ([src/auth.rs])

    Who may read or write a graph: the built-in authorizer compiles the patterns
    of its grants on the first request that needs them, keeps the compiled set or
    the error, and answers every request from it.  Patterns are compiled and
    matched by the [globset] crate, which is a parameter. *)

From S2P Require Import Prelude Clock.
#[local] Open Scope craqle_scope.
#[local] Open Scope string_scope.

Module Action.
Inductive t := Read | Write.
#[global] Instance action_eq_dec : EqDecision t.
Proof. solve_decision. Defined.
End Action.

Module PermissionLevel.
Inductive t := Read | Write.
Definition allows (level : t) (action : Action.t) : bool :=
  match level, action with
  | Write, _ | Read, Action.Read => true
  | Read, Action.Write => false
  end.
End PermissionLevel.

Record PermissionGrant := { pattern : string; level : PermissionLevel.t }.

Inductive AuthorizationError :=
  | PermissionDenied (action : Action.t) (graph : string)
  | InvalidPattern (pattern message : string).

(** [Authorizer]; an implementation answers from its arguments. *)
Record Authorizer := {
  authorize : GraphId → GraphPolicy → Action.t → outcome AuthorizationError ();
  reads_all : bool;
}.

Definition AllowAllAuthorizer : Authorizer := {| authorize := λ _ _ _, Ok (); reads_all := true |}.
Definition DenyAllAuthorizer : Authorizer :=
  {| authorize := λ graph _ action, Err (PermissionDenied action graph); reads_all := false |}.
(** A closure. *)
Definition closure_authorizer (f : GraphId → GraphPolicy → Action.t → outcome AuthorizationError ()) : Authorizer :=
  {| authorize := f; reads_all := false |}.

(** [Glob::new], [GlobSetBuilder::build] of the globs added, [GlobSet::is_match]
    and the text of an error. *)
Class Globset := {
  Glob : Type;
  GlobSet : Type;
  GlobError : Type;
  glob_new : string → GlobError + Glob;
  glob_build : list Glob → GlobError + GlobSet;
  is_match : GlobSet → string → bool;
  glob_message : GlobError → string;
}.

(** [map_err] and [?] on a result of the crate. *)
Definition glob_result {E A} (pattern : string) (message : E → string) (r : E + A) : outcome AuthorizationError A :=
  match r with inl e => Err (InvalidPattern pattern (message e)) | inr a => Ok a end.

(** A request to authorize. *)
Abbreviation request := (GraphId * GraphPolicy * Action.t)%type.

Section authorizer.
Context `{Globset}.

Definition usable (grants : list PermissionGrant) (action : Action.t) : list PermissionGrant :=
  filter (λ g, PermissionLevel.allows (level g) action = true) grants.

Definition compile_grant_matcher (grants : list PermissionGrant) (action : Action.t)
    : outcome AuthorizationError GlobSet :=
  builder ← try_fold (λ builder g,
    glob ← glob_result (pattern g) glob_message (glob_new (pattern g)); Ok (builder ++ [glob])%list)
    [] (usable grants action);
  glob_result "<globset>" glob_message (glob_build builder).

(** A [OnceLock] is empty until it is first initialised. *)
Record GrantAuthorizer := {
  grants : list PermissionGrant;
  read_matcher : option (outcome AuthorizationError GlobSet);
  write_matcher : option (outcome AuthorizationError GlobSet);
}.
Definition grant_authorizer_new (l : list PermissionGrant) : GrantAuthorizer :=
  {| grants := l; read_matcher := None; write_matcher := None |}.
Definition grant_clone (a : GrantAuthorizer) : GrantAuthorizer := grant_authorizer_new (grants a).

Definition cache (a : GrantAuthorizer) (action : Action.t) : option (outcome AuthorizationError GlobSet) :=
  match action with Action.Read => read_matcher a | Action.Write => write_matcher a end.
Definition set_cache (a : GrantAuthorizer) (action : Action.t) (m : outcome AuthorizationError GlobSet) : GrantAuthorizer :=
  match action with
  | Action.Read => {| grants := grants a; read_matcher := Some m; write_matcher := write_matcher a |}
  | Action.Write => {| grants := grants a; read_matcher := read_matcher a; write_matcher := Some m |}
  end.

(** [get_or_init]: other threads wait for the initialisation, so it is one step. *)
Definition matcher (action : Action.t) : stm GrantAuthorizer AuthorizationError GlobSet := λ a,
  match cache a action with
  | Some m => (a, m)
  | None => let m := compile_grant_matcher (grants a) action in (set_cache a action m, m)
  end.

Definition grant_authorize (graph : GraphId) (policy : GraphPolicy) (action : Action.t)
    : stm GrantAuthorizer AuthorizationError () := λ a,
  if bool_decide (action = Action.Read) && public policy then (a, Ok ())
  else
    let has_usable_grant := existsb (λ g, PermissionLevel.allows (level g) action) (grants a) in
    if negb has_usable_grant || bool_decide (permission_paths policy = []) then (a, Err (PermissionDenied action graph))
    else
      (m ⇐ matcher action;
       if existsb (is_match m) (permission_paths policy) then st_ret () else st_err (PermissionDenied action graph)) a.

(** ** Requests one after another, from any thread *)

Fixpoint run_requests (a : GrantAuthorizer) (l : list request) : list (outcome AuthorizationError ()) :=
  match l with
  | [] => []
  | (graph, policy, action) :: l => let r := grant_authorize graph policy action a in r.2 :: run_requests r.1 l
  end.

(** The authorizer as its callers see it. *)
Definition GrantAuthorizer_of (l : list PermissionGrant) : Authorizer :=
  {| authorize := λ graph policy action, (grant_authorize graph policy action (grant_authorizer_new l)).2; reads_all := false |}.

(** ** What a grant gives *)

(** A group of globs matches what one of them matches. *)
Class GlobsetLaws (glob_match : Glob → string → bool) : Prop :=
  glob_union gs s path : glob_build gs = inr s → is_match s path = existsb (λ g, glob_match g path) gs.

Section rules.
Context (glob_match : Glob → string → bool).

Definition matches_path (g : PermissionGrant) (path : string) : bool :=
  match glob_new (pattern g) with inr glob => glob_match glob path | inl _ => false end.

(** Some grant of the level covers a path of the graph. *)
Definition covers (l : list PermissionGrant) (policy : GraphPolicy) (action : Action.t) : Prop :=
  ∃ g path, g ∈ l ∧ PermissionLevel.allows (level g) action = true ∧ path ∈ permission_paths policy ∧ matches_path g path = true.
Definition open_to (policy : GraphPolicy) (action : Action.t) : Prop := action = Action.Read ∧ public policy = true.
(** The request is decided without the patterns. *)
Definition needs_patterns (l : list PermissionGrant) (policy : GraphPolicy) (action : Action.t) : Prop :=
  ¬ open_to policy action ∧ usable l action ≠ [] ∧ permission_paths policy ≠ [].

(** A pattern of the level, or the group of them, is refused with this error. *)
Definition refused (l : list PermissionGrant) (action : Action.t) (p message : string) : Prop :=
  (∃ g e, g ∈ usable l action ∧ pattern g = p ∧ glob_new p = inl e ∧ message = glob_message e) ∨
  (∃ globs e, Forall2 (λ g glob, glob_new (pattern g) = inr glob) (usable l action) globs ∧
     glob_build globs = inl e ∧ p = "<globset>" ∧ message = glob_message e).
Definition compiles (l : list PermissionGrant) (action : Action.t) : Prop := ¬ ∃ p message, refused l action p message.

Record verdict (l : list PermissionGrant) (graph : GraphId) (policy : GraphPolicy) (action : Action.t)
    (r : outcome AuthorizationError ()) : Prop := {
  vd_granted : r = Ok () ↔ open_to policy action ∨ compiles l action ∧ covers l policy action;
  vd_refused p message : r = Err (InvalidPattern p message) → needs_patterns l policy action ∧ refused l action p message;
  vd_denied : (∀ p message, r ≠ Err (InvalidPattern p message)) → r ≠ Ok () → r = Err (PermissionDenied action graph);
  vd_malformed : needs_patterns l policy action → ¬ compiles l action → ∃ p message, r = Err (InvalidPattern p message);
}.

Record cached (a : GrantAuthorizer) : Prop := {
  ca_cache action m : cache a action = Some m → m = compile_grant_matcher (grants a) action;
}.

Lemma cached_new l : cached (grant_authorizer_new l).
Proof. split. by intros []. Qed.

Lemma matcher_cached a action : cached a →
  (matcher action a).2 = compile_grant_matcher (grants a) action ∧
  cached (matcher action a).1 ∧ grants (matcher action a).1 = grants a.
Proof.
  intros [Ha]. unfold matcher. destruct (cache a action) as [m|] eqn:E; cbn.
  { split_and!; [by apply Ha|by split|done]. }
  split_and!; [done| |by destruct action]. split. intros action' m. destruct action, action'; cbn; intros Hm;
    first [by injection Hm as <- | by apply (Ha Action.Read) | by apply (Ha Action.Write)].
Qed.

(** What a request answers, and what it leaves in the caches. *)
Lemma grant_authorize_cached a graph policy action : cached a →
  (grant_authorize graph policy action a).2 = authorize (GrantAuthorizer_of (grants a)) graph policy action ∧
  cached (grant_authorize graph policy action a).1 ∧ grants (grant_authorize graph policy action a).1 = grants a.
Proof.
  intros Ha. unfold GrantAuthorizer_of, grant_authorize. cbn [authorize grants grant_authorizer_new].
  destruct (_ && _); [done|]. destruct (_ || _); [done|]. unfold st_bind.
  destruct (matcher_cached a action Ha) as (E & Ha' & Hg).
  destruct (matcher_cached (grant_authorizer_new (grants a)) action (cached_new _)) as (E' & _).
  destruct (matcher action a) as [a1 r1], (matcher action _) as [a2 r2]. cbn [fst snd grants grant_authorizer_new] in *. subst r1 r2.
  destruct (compile_grant_matcher (grants a) action) as [m| |]; [|done..]. cbn. by destruct (existsb (is_match m) _).
Qed.

Lemma run_requests_pure a l : cached a →
  run_requests a l = (λ '(graph, policy, action), authorize (GrantAuthorizer_of (grants a)) graph policy action) <$> l.
Proof.
  revert a. induction l as [|[[graph policy] action] l IH]; intros a Ha; [done|]. cbn [run_requests fmap list_fmap].
  destruct (grant_authorize_cached a graph policy action Ha) as (-> & Ha' & Hg). rewrite (IH _ Ha'), Hg. done.
Qed.

(** *** Compiling *)

Lemma compile_globs l acc :
  match try_fold (λ builder g, glob ← glob_result (pattern g) glob_message (glob_new (pattern g)); Ok (builder ++ [glob])%list) acc l with
  | Ok gs => ∃ globs, gs = (acc ++ globs)%list ∧ Forall2 (λ g glob, glob_new (pattern g) = inr glob) l globs
  | Err e => ∃ g x, g ∈ l ∧ glob_new (pattern g) = inl x ∧ e = InvalidPattern (pattern g) (glob_message x)
  | Panic => False
  end.
Proof.
  revert acc. induction l as [|g l IH]; intros acc; cbn [try_fold].
  { exists []. by rewrite app_nil_r. }
  destruct (glob_new (pattern g)) as [x|glob] eqn:E; cbn.
  { exists g, x. split_and!; [by left|done..]. }
  specialize (IH (acc ++ [glob])%list). destruct (try_fold _ _ l) as [gs|e|]; [| |done].
  - destruct IH as (globs & -> & Hg). exists (glob :: globs). rewrite <- app_assoc. split; [done|]. by constructor.
  - destruct IH as (g' & x & Hg & Hx & ->). exists g', x. split_and!; [by right|done..].
Qed.

(** Compiling fails with a reason, or gives the set of the grants' globs. *)
Lemma compile_outcome l action :
  (∃ p message, compile_grant_matcher l action = Err (InvalidPattern p message) ∧ refused l action p message) ∨
  (∃ globs s, compile_grant_matcher l action = Ok s ∧ glob_build globs = inr s ∧
     Forall2 (λ g glob, glob_new (pattern g) = inr glob) (usable l action) globs).
Proof.
  unfold compile_grant_matcher. pose proof (compile_globs (usable l action) []) as Hc.
  destruct (try_fold _ _ _) as [gs|e|]; [| |done]; cbn.
  - destruct Hc as (globs & -> & Hg). cbn [app]. destruct (glob_build globs) as [x|s] eqn:E; cbn.
    + left. exists "<globset>", (glob_message x). split; [done|]. right. exists globs, x. done.
    + right. exists globs, s. done.
  - destruct Hc as (g & x & Hg & Hx & ->). left. do 2 eexists. split; [done|]. left. exists g, x. done.
Qed.

Lemma forall2_same {A B} (f : A → B → Prop) l ks ks' :
  (∀ x y y', f x y → f x y' → y = y') → Forall2 f l ks → Forall2 f l ks' → ks = ks'.
Proof.
  intros Hf H1. revert ks'. induction H1 as [|x y l ks Hx _ IH]; intros ks' H2; inversion H2; simplify_eq; [done|].
  f_equal; eauto.
Qed.

(** No reason stands once they compile. *)
Lemma compiled l action globs s :
  Forall2 (λ g glob, glob_new (pattern g) = inr glob) (usable l action) globs → glob_build globs = inr s → compiles l action.
Proof.
  intros Hg Hs (p & message & [(g & e & Hin & <- & He & _)|(globs' & e & Hg' & He & _)]).
  - apply list_elem_of_lookup in Hin as (i & Hi). destruct (Forall2_lookup_l _ _ _ _ _ Hg Hi) as (glob & _ & Hn). congruence.
  - assert (globs' = globs) as ->; [|congruence]. eapply forall2_same; [|exact Hg'|exact Hg]. cbn. congruence.
Qed.

Context `{!GlobsetLaws glob_match}.

Lemma globs_cover l policy action globs s :
  Forall2 (λ g glob, glob_new (pattern g) = inr glob) (usable l action) globs → glob_build globs = inr s →
  existsb (is_match s) (permission_paths policy) = true ↔ covers l policy action.
Proof.
  intros Hg Hs. rewrite existsb_exists. setoid_rewrite (glob_union globs s _ Hs). setoid_rewrite existsb_exists.
  setoid_rewrite <- list_elem_of_In. unfold covers, matches_path. split.
  - intros (path & Hp & glob & Hin & Hm). apply list_elem_of_lookup in Hin as (i & Hi).
    destruct (Forall2_lookup_r _ _ _ _ _ Hg Hi) as (g & Hl & Hn). exists g, path.
    apply list_elem_of_lookup_2, list_elem_of_filter in Hl as [Ha Hl]. rewrite Hn. done.
  - intros (g & path & Hin & Ha & Hp & Hm). exists path. split; [done|].
    assert (g ∈ usable l action) as (i & Hi)%list_elem_of_lookup by by apply list_elem_of_filter.
    destruct (Forall2_lookup_l _ _ _ _ _ Hg Hi) as (glob & Hl & Hn). rewrite Hn in Hm. exists glob.
    split; [by eapply list_elem_of_lookup_2|done].
Qed.

Lemma usable_exists l action : existsb (λ g, PermissionLevel.allows (level g) action) l = true ↔ usable l action ≠ [].
Proof.
  rewrite existsb_exists. setoid_rewrite <- list_elem_of_In. split.
  - intros (g & Hg & Ha) E. assert (g ∈ usable l action) as Hu by by apply list_elem_of_filter. rewrite E in Hu. set_solver.
  - intros Hne. destruct (usable l action) as [|g k] eqn:E; [done|]. exists g.
    assert (g ∈ usable l action) as [Ha Hg]%list_elem_of_filter by (rewrite E; by left). done.
Qed.

Lemma covers_needed l policy action : covers l policy action → usable l action ≠ [] ∧ permission_paths policy ≠ [].
Proof.
  intros (g & path & Hg & Ha & Hp & _). split; [|by intros E; rewrite E in Hp; set_solver].
  apply usable_exists, existsb_exists. exists g. split; [by apply list_elem_of_In|done].
Qed.

Lemma grants_verdict l graph policy action :
  verdict l graph policy action (authorize (GrantAuthorizer_of l) graph policy action).
Proof.
  unfold GrantAuthorizer_of, grant_authorize. cbn [authorize grants grant_authorizer_new].
  destruct (bool_decide (action = Action.Read) && public policy) eqn:Ep.
  { apply andb_true_iff in Ep as [Ha%bool_decide_eq_true Ep]. split; unfold needs_patterns, open_to; naive_solver. }
  assert (¬ open_to policy action) as Ho.
  { intros [-> Hp]. by rewrite bool_decide_true, Hp in Ep. }
  destruct (negb _ || _) eqn:E.
  { assert (¬ needs_patterns l policy action ∧ ¬ covers l policy action) as [Hn Hc]; [|split; cbn; naive_solver].
    apply orb_true_iff in E. rewrite negb_true_iff, bool_decide_eq_true in E.
    split; [intros (_ & Hu & Hp)|intros (Hu & Hp)%covers_needed]; apply usable_exists in Hu; destruct E; congruence. }
  apply orb_false_iff in E. rewrite negb_false_iff, bool_decide_eq_false in E. destruct E as [Hu%usable_exists Hp].
  unfold st_bind. destruct (matcher_cached (grant_authorizer_new l) action (cached_new _)) as (E' & _).
  destruct (matcher action _) as [a1 r1]; cbn [fst snd grants grant_authorizer_new] in E'; subst r1.
  destruct (compile_outcome l action) as [(p & message & -> & Href)|(globs & s & -> & Hs & Hg)].
  { split; cbn; unfold compiles, needs_patterns; naive_solver. }
  pose proof (compiled _ _ _ _ Hg Hs) as Hok. pose proof (globs_cover l policy _ globs s Hg Hs) as Hcov.
  destruct (existsb (is_match s) _); split; cbn; naive_solver.
Qed.
End rules.
End authorizer.

(** Who may write may read, unless a pattern of a read grant is malformed. *)
Lemma write_reads `{Globset} glob_match `{!GlobsetLaws glob_match} l graph policy :
  authorize (GrantAuthorizer_of l) graph policy Action.Write = Ok () →
  (∀ p message, authorize (GrantAuthorizer_of l) graph policy Action.Read ≠ Err (InvalidPattern p message)) →
  authorize (GrantAuthorizer_of l) graph policy Action.Read = Ok ().
Proof.
  intros Hw Hr. pose proof (grants_verdict glob_match l graph policy Action.Write) as Vw.
  pose proof (grants_verdict glob_match l graph policy Action.Read) as Vr.
  apply (vd_granted _ _ _ _ _ _ Vw) in Hw as [[? _]|[_ Hc]]; [done|]. apply (vd_granted _ _ _ _ _ _ Vr).
  assert (covers glob_match l policy Action.Read) as Hcr.
  { destruct Hc as (g & path & Hg & Ha & ?). exists g, path. split_and!; [done| |naive_solver..]. by destruct (level g). }
  destruct (decide (open_to policy Action.Read)) as [?|Ho]; [by left|]. right. split; [|done].
  intros Hbad. destruct (vd_malformed _ _ _ _ _ _ Vr) as (p & message & E).
  - split; [done|]. by eapply covers_needed.
  - unfold compiles. tauto.
  - by apply (Hr p message).
Qed.

(** ** The property *)

(** C15: however many requests one authorizer has answered, and whatever its
    two caches hold after them, every request gets the answer its grants give
    it: a public graph is open to reading; otherwise it is granted exactly when
    the patterns of the level compile and one of them matches a path of the
    graph; a malformed pattern refuses the request, with its own error, only
    where the patterns are needed, and nothing else is refused but by
    [PermissionDenied] for that graph and action. *)
Theorem grants_decide `{Globset} glob_match `{!GlobsetLaws glob_match} (l : list PermissionGrant) requests i graph policy action :
  requests !! i = Some (graph, policy, action) →
  ∃ r, run_requests (grant_authorizer_new l) requests !! i = Some r ∧ verdict glob_match l graph policy action r.
Proof.
  intros Hi. exists (authorize (GrantAuthorizer_of l) graph policy action). split; [|by apply grants_verdict].
  rewrite run_requests_pure by apply cached_new. by rewrite list_lookup_fmap, Hi.
Qed.

(** Globs that match themselves or, for a star, everything. *)
Module DemoGlobs.
#[export] Instance demo_globset : Globset := {|
  Glob := string; GlobSet := list string; GlobError := string;
  glob_new s := if decide (s = "[") then inl "unclosed character class" else inr s;
  glob_build l := inr l;
  is_match l path := existsb (λ g, bool_decide (g = "*" ∨ g = path)) l;
  glob_message e := e;
|}.
Definition star_match : Glob → string → bool := λ g path : string, bool_decide (g = "*" ∨ g = path).
#[export] Instance demo_laws : GlobsetLaws star_match.
Proof. by intros gs s path [= <-]. Qed.

Definition readers : list PermissionGrant :=
  [{| pattern := "a/b"; level := PermissionLevel.Read |}; {| pattern := "c"; level := PermissionLevel.Write |}].
Definition private : GraphPolicy := {| public := false; permission_paths := ["x"; "a/b"] |}.
Definition asked : list request := [("g", private, Action.Write); ("g", private, Action.Read); ("h", private, Action.Read)].

Example answered :
  run_requests (grant_authorizer_new readers) asked = [Err (PermissionDenied Action.Write "g"); Ok (); Ok ()].
Proof. reflexivity. Qed.
(** One malformed read pattern refuses every reader the patterns decide for. *)
Example malformed :
  run_requests (grant_authorizer_new ({| pattern := "["; level := PermissionLevel.Read |} :: readers)) asked =
    [Err (PermissionDenied Action.Write "g"); Err (InvalidPattern "[" "unclosed character class");
     Err (InvalidPattern "[" "unclosed character class")].
Proof. reflexivity. Qed.

Lemma grants_decide_witness :
  ∃ r, run_requests (grant_authorizer_new readers) asked !! 2%nat = Some r ∧
       verdict star_match readers "h" private Action.Read r.
Proof. apply (grants_decide star_match readers asked 2). reflexivity. Defined.
End DemoGlobs.
