(* ===== verification/ShapeGraphs.v ===== *)
(** * The graphs of a SHACL schema ([src/internal/shacl/compile.rs])

    A schema is compiled from a shapes graph and all it imports:
    [visit_shape_graph] collects their snapshots depth first, refuses a cycle of
    imports, and [graph_versions] fixes the state of each.  A compiled schema is
    current while no graph of it has changed.

    The recursion has fuel from the number of graphs, which bounds its depth. *)

From S2P Require Import Prelude Clock Terms Store Codec QueryView IndexUpdate Transitions Replication Convergence.
From S2P Require Import LocalWrites IndexMirror Orphans Cursors Reads ReadRules Answers DeltaAnswers ViewRows.
From stdpp Require Import relations.
#[local] Open Scope craqle_scope.
#[local] Open Scope string_scope.

Definition OWL_IMPORTS : EncodedTerm := "<http://www.w3.org/2002/07/owl#imports>".
Definition RDF_TYPE : EncodedTerm := "<http://www.w3.org/1999/02/22-rdf-syntax-ns#type>".
Definition SH_CONSTRAINT_COMPONENT : EncodedTerm := "<http://www.w3.org/ns/shacl#ConstraintComponent>".
Definition SH_TARGET_TYPE : EncodedTerm := "<http://www.w3.org/ns/shacl#TargetType>".
Definition SH_SPARQL : EncodedTerm := "<http://www.w3.org/ns/shacl#sparql>".
Definition SH_RULE : EncodedTerm := "<http://www.w3.org/ns/shacl#rule>".
Definition SH_EXPRESSION : EncodedTerm := "<http://www.w3.org/ns/shacl#expression>".
Definition SH_JS_PREFIX : string := "<http://www.w3.org/ns/shacl#js".

(** The text of a message is left out. *)
Inductive ShapesError :=
  | ImportCycle (graphs : list string)
  | ShapesGraphNotFound (graph : string)
  | UnsupportedRdfStarTerm (term : string)
  | UnsupportedComponent (shape component : string)
  | ImportsDisabled (graph import : string)
  | ImportNotLocal (graph import : string)
  | IllFormedShapes (graph : string) (object : EncodedTerm)
  | SchemaChangedDuringValidation (graph : string)
  | ReadFailed (e : StoreError).

(** ** Reading the objects of a pattern *)

Section objects.
Context `{Blake3} {E A : Type} (failed : StoreError → E).

Definition lift_read {B} (m : readm B) : stm ReadContext E B := λ cx, let '(cx', r) := m cx in (cx', map_err failed r).

(** [for quad in view.scan(..)? { let object = view.decode_term(quad?.object)?; .. }] *)
Fixpoint each_object (body : A → EncodedTerm → outcome E A) (fuel : nat) (view : StoreReadView) (c : QueryCursor) (acc : A)
    : stm ReadContext E A :=
  match fuel with
  | O => λ cx, (cx, Panic)
  | S fuel =>
      next ⇐ lift_read (cursor_next c);
      match next.1 with
      | None => st_ret acc
      | Some q =>
          object ⇐ lift_read (view_decode_term view (quad_object q));
          acc ⇐ (λ cx, (cx, body acc object));
          each_object body fuel view next.2 acc
      end
  end.

Definition scan_objects (body : A → EncodedTerm → outcome E A) (view : StoreReadView) (graph predicate : TermId) (acc : A)
    : stm ReadContext E A :=
  c ⇐ lift_read (scan view (Named graph)
         {| pat_graph := None; pat_subject := None; pat_predicate := Some predicate; pat_object := None |});
  each_object body (S (cursor_len c)) view c acc.
End objects.

(** ** The walk *)

(** [named_iri]. *)
Definition named_iri (t : EncodedTerm) : option string := bytes_string <$> to_named_node t.

Definition unsupported_component (q : SnapshotQuadState) : option string :=
  if decide (sq_predicate q = SH_SPARQL) then Some "http://www.w3.org/ns/shacl#SPARQLConstraintComponent"
  else if decide (sq_predicate q = SH_RULE) then Some "http://www.w3.org/ns/shacl#rule"
  else if decide (sq_predicate q = SH_EXPRESSION) then Some "http://www.w3.org/ns/shacl#expression"
  else if starts_with (string_bytes SH_JS_PREFIX) (string_bytes (sq_predicate q)) then
    Some "http://www.w3.org/ns/shacl#JSConstraint"
  else if decide (sq_predicate q = RDF_TYPE ∧ (sq_object q = SH_CONSTRAINT_COMPONENT ∨ sq_object q = SH_TARGET_TYPE)) then
    named_iri (sq_object q)
  else None.

Definition reject_unsupported_raw (snapshot : GraphReplicaSnapshot) : outcome ShapesError () :=
  try_fold (λ _ q,
    if is_rdf_star (sq_subject q) || is_rdf_star (sq_object q) then
      Err (UnsupportedRdfStarTerm (if is_rdf_star (sq_subject q) then sq_subject q else sq_object q))
    else match unsupported_component q with
         | Some component => Err (UnsupportedComponent (sq_subject q) component)
         | None => Ok ()
         end) () (snap_quads snapshot).

Section walk.
Context `{Blake3} (sn : Snapshot) (allow_local_imports : bool).
Let st := sn_store sn.
(** [StoreReadView::new]; the graphs do not change while they are read. *)
Definition fresh_view : StoreReadView := {| snapshot := sn; read_mode := Auto |}.

Definition imports (graph : GraphId) : outcome ShapesError (list string) :=
  l ← (scan_objects ReadFailed (λ l object,
         match named_iri object with
         | Some import => Ok (l ++ [import])%list
         | None => Err (IllFormedShapes graph object)
         end) fresh_view (hash_term (from_named_node graph)) (hash_term OWL_IMPORTS) [] (for_validation graph None)).2;
  Ok (dedup (sort l)).

Abbreviation Graphs := (gmap string GraphReplicaSnapshot) (only parsing).

Fixpoint visit_shape_graph (fuel : nat) (graph : GraphId) (stack : list string) (graphs : Graphs) : outcome ShapesError Graphs :=
  match fuel with
  | O => Panic
  | S fuel =>
      match list_find (λ candidate, candidate = graph) stack with
      | Some (cycle_start, _) => Err (ImportCycle (drop cycle_start stack ++ [graph])%list)
      | None =>
          if decide (is_Some (graphs !! graph)) then Ok graphs
          else
            here ← map_err ReadFailed (Store.contains_graph st graph);
            if negb here then Err (ShapesGraphNotFound graph)
            else
              snapshot ← map_err ReadFailed (graph_snapshot st graph);
              _ ← reject_unsupported_raw snapshot;
              l ← imports graph;
              graphs ← try_fold (λ graphs import,
                if negb allow_local_imports then Err (ImportsDisabled graph import)
                else
                  here ← map_err ReadFailed (Store.contains_graph st import);
                  if negb here then Err (ImportNotLocal graph import)
                  else visit_shape_graph fuel import (stack ++ [graph])%list graphs) graphs l;
              Ok (<[graph := snapshot]> graphs)
      end
  end.

(** Deeper than there are graphs. *)
Definition visit_fuel : nat := 2 + size (graph_metas st).

(** [materialize_shapes] up to the versions; [clock_postcard] is the encoding of
    a clock by the [postcard] crate. *)
Context (clock_postcard : VectorClock.t → bytes).
Definition graph_version (clock : VectorClock.t) : bytes := blake3 (clock_postcard clock).

Definition shape_graphs (root : GraphId) : outcome ShapesError Graphs := visit_shape_graph visit_fuel root [] ∅.
Definition graph_versions (graphs : Graphs) : list (GraphId * bytes) :=
  (λ '(_, snapshot), (snap_graph snapshot, graph_version (snap_clock snapshot))) <$> btree_iter graphs.
Definition shape_versions (root : GraphId) : outcome ShapesError (list (GraphId * bytes)) := graph_versions <$> shape_graphs root.

Definition versions_are_current (versions : list (GraphId * bytes)) : bool :=
  forallb (λ '(graph, version),
    let graph := hash_term (from_named_node graph) in
    contains_graph_id st graph && bool_decide (graph_version (vector_clock_id st graph) = version)) versions.
Definition ensure_schema_current (versions : list (GraphId * bytes)) : outcome ShapesError () :=
  if versions_are_current versions then Ok ()
  else Err (SchemaChangedDuringValidation (default "compiled schema" (fst <$> head versions))).
End walk.

(** ** What a scan of objects reads *)

Section scans.
Context `{Blake3} (sn : Snapshot) (scope : GraphVisibility) (validating : option TermId).
Let st := sn_store sn.
Context {E : Type} (failed : StoreError → E).

(** What a computation that nobody cancels ends with. *)
Definition settles {A} (m : stm ReadContext E A) (Q : outcome E A → Prop) : Prop :=
  ∀ c, context_ok sn scope validating c → checks_left c = None →
  ∃ c' r, m c = (c', r) ∧ context_ok sn scope validating c' ∧ checks_left c' = None ∧ Q r.

Lemma settles_ret {A} (a : A) (Q : outcome E A → Prop) : Q (Ok a) → settles (st_ret a) Q.
Proof. intros HQ c Hc Hn. by exists c, (Ok a). Qed.
Lemma settles_pure {A} (r : outcome E A) (Q : outcome E A → Prop) : Q r → settles (λ c, (c, r)) Q.
Proof. intros HQ c Hc Hn. by exists c, r. Qed.
Lemma settles_weaken {A} (m : stm ReadContext E A) (P Q : outcome E A → Prop) :
  settles m P → (∀ r, P r → Q r) → settles m Q.
Proof. intros Hm HPQ c Hc Hn. destruct (Hm c Hc Hn) as (c1 & r & ? & ? & ? & ?). exists c1, r. auto. Qed.
(** An error, or a panic, ends the whole. *)
Definition stopped {A B} (r : outcome E A) : outcome E B :=
  match r with Ok _ | Panic => Panic | Err e => Err e end.
Lemma settles_bind {A B} (m : stm ReadContext E A) (f : A → stm ReadContext E B) P Q :
  settles m P → (∀ a, P (Ok a) → settles (f a) Q) → (∀ r, P r → (∀ a, r ≠ Ok a) → Q (stopped r)) →
  settles (st_bind m f) Q.
Proof.
  intros Hm Hf He c Hc Hn. destruct (Hm c Hc Hn) as (c1 & r & Hr & Hc1 & Hn1 & HP). unfold st_bind. rewrite Hr.
  destruct r as [a|e|]; [by apply Hf|..]; do 2 eexists; (split_and!; [done..|]); by apply (He _ HP).
Qed.
Lemma settles_read {A B} (m : readm A) (f : A → stm ReadContext E B) P Q :
  runs sn scope validating m P → (∀ a, P a → settles (f a) Q) → settles (st_bind (lift_read failed m) f) Q.
Proof.
  intros Hm Hf c Hc Hn. destruct (Hm c Hc Hn) as (c1 & a & Hr & Hc1 & Hn1 & Ha). unfold st_bind, lift_read. rewrite Hr.
  by apply Hf.
Qed.

Context (Hs : snapshot_sound sn) (Hdata : rows_sound st).

Lemma each_object_settles {A} (body : A → EncodedTerm → outcome E A) fuel c l ts acc :
  (length l < fuel)%nat → pending sn scope validating c l → Forall2 (λ q t, terms st !! quad_object q = Some t) l ts →
  settles (each_object failed body fuel (fresh_view sn) c acc) (λ r, r = try_fold body acc ts).
Proof.
  revert c l ts acc. induction fuel as [|fuel IH]; intros c l ts acc Hf Hc Hts; [lia|]. cbn [each_object].
  eapply settles_read; [apply runs_reads, cursor_next_read; [apply Hs..|exact Hc]|]. intros [q c'] [Hq Hc'].
  cbn [fst snd] in *. subst q. inversion Hts as [|q t l' ts' Ht Hts']; subst; cbn [head tail length try_fold] in *.
  { by apply settles_ret. }
  eapply settles_read; [by apply runs_reads, (store_decode (fresh_view sn))|]. intros ? ->.
  eapply settles_bind; [by apply (settles_pure _ (λ r, r = body acc t))| |].
  - intros acc' Hb. eapply settles_weaken; [apply (IH c' l'); [lia|done..]|]. intros r ->. by rewrite <- Hb.
  - intros r -> Hr. destruct (body acc t); [by destruct (Hr a)|done..].
Qed.

(** The rows of a graph with a predicate. *)
Definition by_predicate (predicate : TermId) : QuadPattern :=
  {| pat_graph := None; pat_subject := None; pat_predicate := Some predicate; pat_object := None |}.

Lemma scan_objects_settles {A} (body : A → EncodedTerm → outcome E A) graph predicate acc :
  TermId_fit graph → TermId_fit predicate →
  settles (scan_objects failed body (fresh_view sn) graph predicate acc) (λ r, ∃ ts, r = try_fold body acc ts ∧
    (length ts ≤ size (quads st))%nat ∧
    ∀ t, t ∈ ts ↔ ∃ q, answers sn scope validating (Named graph) (by_predicate predicate) q ∧ terms st !! quad_object q = Some t).
Proof.
  intros Hg Hp. assert (pattern_fit (by_predicate predicate)) as Hfit by by repeat constructor.
  unfold scan_objects. fold (by_predicate predicate).
  eapply settles_read; [apply runs_reads, (store_scan_reads (fresh_view sn) scope validating Hs (Named graph));
    [done|by intros ? [= <-]|by intros ?]|].
  intros c (l & Hc & Hnd & Hl).
  assert (∃ ts, Forall2 (λ q t, terms st !! quad_object q = Some t) l ts) as (ts & Hts).
  { apply forall2_exists, Forall_forall. intros q Hq%Hl. destruct Hq as (Hq & _).
    destruct (rs_terms _ Hdata q Hq) as (_ & _ & [t Ht]). eauto. }
  eapply settles_weaken; [eapply (each_object_settles body _ c l ts); [|exact Hc|exact Hts]|].
  { pose proof (pending_length _ _ _ _ _ Hc). lia. }
  intros r ->. exists ts. split_and!; [done| |].
  - rewrite <- (Forall2_length _ _ _ Hts), <- (size_list_to_set (C := gset EncodedQuad) l Hnd), <- (size_dom (D := gset EncodedQuad)).
    apply subseteq_size. intros q Hq%elem_of_list_to_set%Hl. destruct Hq as (Hq & _).
    unfold live_set in Hq. apply elem_of_dom in Hq as [dots Hd%map_lookup_filter_Some]. apply elem_of_dom. exists dots. tauto.
  - intros t. setoid_rewrite <- Hl. split.
    + intros (i & Hi)%list_elem_of_lookup. destruct (Forall2_lookup_r _ _ _ _ _ Hts Hi) as (q & Hq & Ht).
      exists q. split; [by eapply list_elem_of_lookup_2|done].
    + intros (q & (i & Hi)%list_elem_of_lookup & Ht). destruct (Forall2_lookup_l _ _ _ _ _ Hts Hi) as (t' & Hi' & Ht').
      rewrite Ht in Ht'. injection Ht' as <-. by eapply list_elem_of_lookup_2.
Qed.
End scans.

(** ** The imports of a graph *)

Section walk_rules.
Context `{Blake3} (sn : Snapshot) (allow_local_imports : bool).
Let st := sn_store sn.
Context (Hs : snapshot_sound sn) (Hdata : rows_sound st) (Hbytes : digest_bytes).

(** A live row of the graph has this object under [owl:imports]. *)
Definition says (graph : GraphId) (t : EncodedTerm) : Prop :=
  ∃ q, q ∈ live_set st ∧ quad_graph q = gid graph ∧ quad_predicate q = hash_term OWL_IMPORTS ∧ terms st !! quad_object q = Some t.
Definition imported : relation GraphId := λ g h, ∃ t, says g t ∧ named_iri t = Some h.

Lemma answers_says graph t :
  says graph t ↔ ∃ q, answers sn (Exact {[gid graph]}) (Some (gid graph)) (Named (gid graph)) (by_predicate (hash_term OWL_IMPORTS)) q ∧
                 terms st !! quad_object q = Some t.
Proof.
  unfold says, answers, row_visible, visible_graph. setoid_rewrite matches_true. cbn. split.
  - intros (q & Hq & Hg & Hp & Ht). exists q. split_and!; [done|done|naive_solver..| |done]. rewrite Hg. by rewrite bool_decide_true.
  - intros (q & (Hq & Hg & (_ & _ & Hp & _) & _) & Ht). exists q. split_and!; [done|done|symmetry; by apply Hp|done].
Qed.

Lemma collect_imports graph ts acc :
  match try_fold (λ l object, match named_iri object with
                              | Some import => Ok (l ++ [import])%list
                              | None => Err (IllFormedShapes graph object) end) acc ts with
  | Ok l => (∀ t, t ∈ ts → is_Some (named_iri t)) ∧ ∀ h, h ∈ l ↔ h ∈ acc ∨ ∃ t, t ∈ ts ∧ named_iri t = Some h
  | Err e => ∃ t, t ∈ ts ∧ named_iri t = None ∧ e = IllFormedShapes graph t
  | Panic => False
  end.
Proof.
  revert acc. induction ts as [|t ts IH]; intros acc; cbn [try_fold]; [set_solver|].
  destruct (named_iri t) as [h|] eqn:E; cbn.
  - specialize (IH (acc ++ [h])%list). destruct (try_fold _ _ ts) as [l|e|]; [| |done].
    + destruct IH as [Hn Hl]. split; [set_solver|]. intros h'. rewrite Hl. set_solver.
    + destruct IH as (t' & ? & ? & ?). exists t'. split_and!; [by right|done..].
  - exists t. split_and!; [by left|done..].
Qed.

Lemma imports_spec graph :
  match imports sn graph with
  | Ok l => (∀ t, says graph t → is_Some (named_iri t)) ∧ ∀ h, h ∈ l ↔ imported graph h
  | Err e => ∃ t, says graph t ∧ named_iri t = None ∧ e = IllFormedShapes graph t
  | Panic => False
  end.
Proof.
  unfold imports. match goal with |- context [scan_objects ReadFailed ?f _ _ _ _] => set (body := f) end.
  destruct (scan_objects_settles sn (Exact {[gid graph]}) (Some (gid graph)) ReadFailed Hs Hdata body (gid graph) (hash_term OWL_IMPORTS) []
    (hash_term_fit _ Hbytes) (hash_term_fit _ Hbytes) _ (fresh_context sn graph) eq_refl)
    as (c & r & Hr & _ & _ & ts & -> & _ & Hts). fold (gid graph). rewrite Hr. cbn [snd].
  pose proof (collect_imports graph ts []) as Hc. fold body in Hc.
  assert (∀ t, t ∈ ts ↔ says graph t) as Hsaid by (intros t; rewrite Hts; symmetry; apply answers_says). clear Hts.
  destruct (try_fold body [] ts) as [l|e|]; [| |done]; cbn.
  - destruct Hc as [Hn Hl]. split; [by intros t Ht%Hsaid; apply Hn|]. intros h. rewrite elem_of_dedup, elem_of_sort, Hl.
    unfold imported. setoid_rewrite Hsaid. set_solver.
  - destruct Hc as (t & Ht%Hsaid & ? & ->). by exists t.
Qed.

(** ** The walk *)

(** Why a graph is refused. *)
Inductive fault (g : GraphId) : ShapesError → Prop :=
  | fault_absent : Store.contains_graph st g = Ok false → fault g (ShapesGraphNotFound g)
  | fault_unread e : Store.contains_graph st g = Err e ∨ graph_snapshot st g = Err e → fault g (ReadFailed e)
  | fault_raw snapshot e : graph_snapshot st g = Ok snapshot → reject_unsupported_raw snapshot = Err e → fault g e
  | fault_object t : says g t → named_iri t = None → fault g (IllFormedShapes g t)
  | fault_disabled h : imported g h → allow_local_imports = false → fault g (ImportsDisabled g h)
  | fault_remote h : imported g h → Store.contains_graph st h = Ok false → fault g (ImportNotLocal g h)
  | fault_lookup h e : imported g h → Store.contains_graph st h = Err e → fault g (ReadFailed e).

Definition local (g : GraphId) : Prop := Store.contains_graph st g = Ok true.

Record usable_graph (g : GraphId) (s : GraphReplicaSnapshot) : Prop := {
  us_local : local g;
  us_snapshot : graph_snapshot st g = Ok s;
  us_raw : reject_unsupported_raw s = Ok ();
  us_objects t : says g t → is_Some (named_iri t);
  us_imports h : imported g h → allow_local_imports = true ∧ local h;
}.

Definition linked (l : list GraphId) : Prop := ∀ i x y, l !! i = Some x → l !! S i = Some y → imported x y.

(** Where a walk stands: what it has collected is closed under imports, without
    cycles, and apart from the graphs it is still inside. *)
Record walked (root : GraphId) (stack : list string) (G : gmap string GraphReplicaSnapshot) : Prop := {
  wa_graph x s : G !! x = Some s → usable_graph x s ∧ rtc imported root x;
  wa_closed x h : is_Some (G !! x) → imported x h → is_Some (G !! h);
  wa_acyclic x : is_Some (G !! x) → ¬ tc imported x x;
  wa_stack x : x ∈ stack → G !! x = None;
}.

Definition blamed (root : GraphId) (e : ShapesError) : Prop :=
  (∃ x mid, e = ImportCycle (x :: mid ++ [x])%list ∧ linked (x :: mid ++ [x])%list ∧ rtc imported root x) ∨
  (∃ x, rtc imported root x ∧ fault x e).

Lemma local_named g : local g → terms st !! gid g = Some (from_named_node g) ∧ is_Some (graph_metas st !! gid g).
Proof.
  unfold local, Store.contains_graph. intros (o & Ho & Hc)%bind_ok. apply graph_id_for_ok in Ho as [[-> Ht]|[-> _]]; [|done].
  split; [done|]. injection Hc as Hc. by apply bool_decide_eq_true in Hc.
Qed.
Lemma local_inj g h : local g → local h → gid g = gid h → g = h.
Proof.
  intros [Hg _]%local_named [Hh _]%local_named E. rewrite E, Hh in Hg. apply (inj Some), (f_equal to_named_node) in Hg.
  rewrite !to_named_node_from in Hg. apply (inj Some) in Hg. symmetry. by apply (inj string_bytes) in Hg.
Qed.

Lemma stack_bound l : NoDup l → (∀ x, x ∈ l → local x) → (length l ≤ size (graph_metas st))%nat.
Proof.
  intros Hnd Hl. rewrite <- (length_fmap gid), <- (size_dom (D := gset TermId)).
  assert (NoDup (gid <$> l)) as Hn.
  { clear - Hnd Hl. induction Hnd as [|x l Hx Hnd IH]; cbn; constructor; [|apply IH; intros; apply Hl; by right].
    intros (y & Hy & Hin)%list_elem_of_fmap. apply Hx. rewrite (local_inj x y); [done|apply Hl; by left|apply Hl; by right|done]. }
  rewrite <- (size_list_to_set (C := gset TermId) _ Hn). apply subseteq_size. intros i Hi%elem_of_list_to_set.
  apply list_elem_of_fmap in Hi as (x & -> & Hx). apply elem_of_dom. by apply local_named, Hl.
Qed.

Lemma contains_quiet g : Store.contains_graph st g ≠ Panic.
Proof.
  unfold Store.contains_graph, graph_id_for, lookup_term. destruct (terms st !! _); [case_decide|]; done.
Qed.
Lemma try_map_quiet {E A B} (f : A → outcome E B) l : (∀ x, f x ≠ Panic) → try_map f l ≠ Panic.
Proof.
  intros Hf. induction l as [|x l IH]; [done|]. cbn. specialize (Hf x). destruct (f x); [|done..]. cbn.
  by destruct (try_map f l).
Qed.
Lemma snapshot_quiet g : graph_snapshot st g ≠ Panic.
Proof.
  unfold graph_snapshot, graph_id_for, lookup_term. destruct (terms st !! hash_term _); [case_decide|]; [|done..]. cbn.
  pose proof (try_map_quiet (snapshot_row st) (graph_rows st (hash_term (from_named_node g)))) as Hq.
  destruct (try_map _ _); [done..|]. exfalso. apply Hq; [|done]. intros row. unfold snapshot_row, decode_term.
  by destruct (terms st !! quad_subject row.1), (terms st !! quad_predicate row.1), (terms st !! quad_object row.1).
Qed.
Lemma reject_quiet s : reject_unsupported_raw s ≠ Panic.
Proof.
  unfold reject_unsupported_raw. generalize (snap_quads s) as l. induction l as [|q l IH]; cbn [try_fold]; [done|].
  destruct (_ || _); [done|]. by destruct (unsupported_component q).
Qed.

Lemma find_stack (g : string) stack k x : list_find (λ candidate, candidate = g) stack = Some (k, x) → stack !! k = Some g.
Proof. intros (Hk & -> & _)%list_find_Some. done. Qed.

Lemma linked_drop k l : linked l → linked (drop k l).
Proof. intros Hl i x y. rewrite !lookup_drop, <- plus_n_Sm. apply Hl. Qed.
Lemma linked_snoc l g h : linked (l ++ [g]) → imported g h → linked ((l ++ [g]) ++ [h]).
Proof.
  intros Hl Hgh i x y Hx Hy. destruct (decide (S i < length (l ++ [g]))%nat) as [Hi|Hi].
  - rewrite lookup_app_l in Hx, Hy by lia. by apply (Hl i).
  - pose proof (lookup_lt_Some _ _ _ Hy) as Hlen. rewrite !length_app in *. cbn in *.
    assert (i = length l) as -> by lia. rewrite lookup_app_l, list_lookup_middle in Hx by (done || (rewrite length_app; cbn; lia)).
    rewrite lookup_app_r, length_app in Hy by (rewrite length_app; cbn; lia). cbn in Hy.
    replace (S (length l) - (length l + 1))%nat with O in Hy by lia. cbn in Hy. congruence.
Qed.

(** A cycle closes on the stack. *)
Lemma stack_cycle root stack g k x :
  list_find (λ candidate, candidate = g) stack = Some (k, x) → linked (stack ++ [g]) → rtc imported root g →
  blamed root (ImportCycle (drop k stack ++ [g])).
Proof.
  intros Hk%find_stack Hl Hr. left. exists g, (drop (S k) stack). rewrite app_comm_cons, <- (drop_S _ _ _ Hk).
  split_and!; [done| |done]. replace (drop k stack ++ [g])%list with (drop k (stack ++ [g])) by
    (apply drop_app_le; apply lookup_lt_Some in Hk; lia). by apply linked_drop.
Qed.

Definition visit_ok (root : GraphId) (stack : list string) (g : GraphId) (G : gmap string GraphReplicaSnapshot)
    (r : outcome ShapesError (gmap string GraphReplicaSnapshot)) : Prop :=
  match r with
  | Ok G' => walked root stack G' ∧ G ⊆ G' ∧ is_Some (G' !! g)
  | Err e => blamed root e
  | Panic => False
  end.

(** The imports of one graph, one after another. *)
Lemma visit_imports root stack g fuel l G :
  (∀ h, h ∈ l → imported g h) → rtc imported root g → walked root stack G →
  (∀ h G, imported g h → local h → walked root stack G →
     visit_ok root stack h G (visit_shape_graph sn allow_local_imports fuel h stack G)) →
  match try_fold (λ graphs import,
          if negb allow_local_imports then Err (ImportsDisabled g import)
          else
            here ← map_err ReadFailed (Store.contains_graph (sn_store sn) import);
            if negb here then Err (ImportNotLocal g import)
            else visit_shape_graph sn allow_local_imports fuel import stack graphs) G l with
  | Ok G' => walked root stack G' ∧ G ⊆ G' ∧ ∀ h, h ∈ l → is_Some (G' !! h) ∧ allow_local_imports = true ∧ local h
  | Err e => blamed root e
  | Panic => False
  end.
Proof.
  intros Hl Hr Hw Hvisit. revert G Hw. induction l as [|h l IH]; intros G Hw; cbn [try_fold]; [set_solver|].
  assert (imported g h) as Hgh by (apply Hl; by left).
  destruct allow_local_imports eqn:Ha; cbn [negb]; [|right; exists g; split; [done|by apply fault_disabled]].
  fold st. destruct (Store.contains_graph st h) as [[]|e|] eqn:Hc; cbn.
  - specialize (Hvisit h G Hgh Hc Hw). destruct (visit_shape_graph _ _ fuel h _ G) as [G1|e|]; cbn in *; [|done..].
    destruct Hvisit as (Hw1 & Hsub & Hh). specialize (IH ltac:(intros; apply Hl; by right) G1 Hw1).
    destruct (try_fold _ G1 l) as [G2|e|]; [|done..]. destruct IH as (Hw2 & Hsub2 & Hin).
    split_and!; [done|by etransitivity|]. intros h' [->|Hh']%elem_of_cons; [|by apply Hin].
    split_and!; [|done|done]. destruct Hh as [s Hs']. exists s. by eapply lookup_weaken.
  - right. exists g. split; [done|by apply fault_remote].
  - right. exists g. split; [done|by eapply fault_lookup].
  - by apply contains_quiet in Hc.
Qed.

(** A graph whose imports are collected is collected. *)
Lemma walked_insert root stack g s G :
  g ∉ stack → usable_graph g s → rtc imported root g → (∀ h, imported g h → is_Some (G !! h)) →
  walked root (stack ++ [g]) G → walked root stack (<[g := s]> G).
Proof.
  intros Hg Hu Hr Himp [Wg Wc Wa Ws]. assert (G !! g = None) as Hng by (apply Ws; set_solver).
  assert (∀ x y, is_Some (G !! x) → rtc imported x y → is_Some (G !! y)) as Hclosed.
  { intros x y Hx Hxy. induction Hxy; eauto. }
  split.
  - intros x s' [[<- <-]|[Hne Hx]]%lookup_insert_Some; [done|by apply Wg].
  - intros x h Hx Hxh. destruct (decide (h = g)) as [->|Hne]; [by rewrite lookup_insert_eq|].
    rewrite lookup_insert_ne by done. destruct (decide (g = x)) as [<-|Hnx]; [by apply Himp|].
    rewrite lookup_insert_ne in Hx by done. by eapply Wc.
  - intros x Hx. destruct (decide (g = x)) as [<-|Hnx].
    + intros Hcyc. assert (∃ h, imported g h ∧ rtc imported h g) as (h & Hgh & Hhg).
      { inversion Hcyc; subst; eauto using tc_rtc. }
      destruct (Hclosed h g (Himp h Hgh) Hhg). congruence.
    + rewrite lookup_insert_ne in Hx by done. by apply Wa.
  - intros x Hx. rewrite lookup_insert_ne by (intros ->; done). apply Ws. set_solver.
Qed.

Lemma visit_walks root fuel g stack G :
  (1 + size (graph_metas st) < length stack + fuel)%nat → NoDup stack → (∀ x, x ∈ stack → local x) →
  linked (stack ++ [g]) → rtc imported root g → walked root stack G →
  visit_ok root stack g G (visit_shape_graph sn allow_local_imports fuel g stack G).
Proof.
  revert g stack G. induction fuel as [|fuel IH]; intros g stack G Hf Hnd Hloc Hlink Hr Hw.
  { pose proof (stack_bound stack Hnd Hloc). lia. }
  cbn [visit_shape_graph]. destruct (list_find _ stack) as [[k x]|] eqn:Efind; [by eapply stack_cycle|].
  assert (g ∉ stack) as Hg.
  { intros Hin. apply list_find_None, Forall_forall with (x := g) in Efind; done. }
  case_decide as Hin; [by split_and!|].
  destruct (Store.contains_graph (sn_store sn) g) as [[]|e|] eqn:Hc; fold st in Hc; cbn;
    [|by right; exists g; eauto using fault..|by apply contains_quiet in Hc].
  destruct (graph_snapshot (sn_store sn) g) as [s|e|] eqn:Hsnap; fold st in Hsnap; cbn;
    [|by right; exists g; eauto using fault|by apply snapshot_quiet in Hsnap].
  destruct (reject_unsupported_raw s) as [[]|e|] eqn:Hraw; cbn;
    [|by right; exists g; eauto using fault|by apply reject_quiet in Hraw].
  pose proof (imports_spec g) as Himp. destruct (imports sn g) as [l|e|]; [|destruct Himp as (t & ? & ? & ->)|done]; cbn;
    [|by right; exists g; eauto using fault].
  destruct Himp as [Hobj Hl].
  assert (walked root (stack ++ [g]) G) as Hw'.
  { destruct Hw as [Wg Wc Wa Ws]. split; [done..|]. intros x [Hx|Hx%list_elem_of_singleton]%elem_of_app; [by apply Ws|].
    subst. by apply eq_None_not_Some. }
  assert (∀ h G', imported g h → local h → walked root (stack ++ [g]) G' →
    visit_ok root (stack ++ [g]) h G' (visit_shape_graph sn allow_local_imports fuel h (stack ++ [g]) G')) as Hvisit.
  { intros h G' Hgh Hh HG'. apply IH; [rewrite length_app; cbn; lia| | |by apply linked_snoc|by eapply rtc_r|done].
    - apply NoDup_app. split_and!; [done|set_solver|apply NoDup_singleton].
    - intros x [Hx|Hx%list_elem_of_singleton]%elem_of_app; [by apply Hloc|by subst]. }
  pose proof (visit_imports root (stack ++ [g]) g fuel l G (λ h, proj1 (Hl h)) Hr Hw' Hvisit) as Hfold.
  destruct (try_fold _ G l) as [G1|e|]; [|done..]. destruct Hfold as (Hw1 & Hsub & Hdone). cbn. split_and!.
  - apply walked_insert; [done| |done| |done].
    + split; [done..|]. intros h Hh%Hl. by destruct (Hdone h Hh) as (_ & ?).
    + intros h Hh%Hl. by apply Hdone.
  - etransitivity; [done|]. apply insert_subseteq. apply (wa_stack _ _ _ Hw1). set_solver.
  - by rewrite lookup_insert_eq.
Qed.
End walk_rules.

(** ** The properties *)

(** A local graph's snapshot carries its name and clock. *)
Lemma snapshot_version `{Blake3} sn allow g s :
  usable_graph sn allow g s → snap_graph s = g ∧ snap_clock s = vector_clock_id (sn_store sn) (gid g).
Proof.
  intros [Hl Hs _ _ _]. apply local_named in Hl as [Ht _]. unfold graph_snapshot, graph_id_for, lookup_term in Hs.
  fold (gid g) in Hs. rewrite Ht, decide_True in Hs by done. cbn in Hs. by apply bind_ok in Hs as (rows & _ & [= <-]).
Qed.

(** What [visit_shape_graph] collects from an empty start. *)
Lemma shape_graphs_walk `{Blake3} sn allow root :
  snapshot_sound sn → rows_sound (sn_store sn) → digest_bytes →
  match shape_graphs sn allow root with
  | Ok G => (∀ g, is_Some (G !! g) ↔ rtc (imported sn) root g) ∧ (∀ g s, G !! g = Some s → usable_graph sn allow g s) ∧
            ∀ g, rtc (imported sn) root g → ¬ tc (imported sn) g g
  | Err e => blamed sn allow root e
  | Panic => False
  end.
Proof.
  intros Hs Hdata Hb. unfold shape_graphs.
  assert (walked sn allow root [] ∅) as Hw0.
  { split; [by intros ? ? ?%lookup_empty_Some|by intros ? ? [? ?%lookup_empty_Some]|by intros ? [? ?%lookup_empty_Some]|].
    by intros ? ?%elem_of_nil. }
  pose proof (visit_walks sn allow Hs Hdata Hb root (visit_fuel sn) root [] ∅) as Hv. unfold visit_ok in Hv.
  destruct (visit_shape_graph _ _ _ _ _ _) as [G|e|].
  2, 3: apply Hv; [unfold visit_fuel; cbn; lia|constructor|by intros ? ?%elem_of_nil|by intros [|] ? ? ? ?|done|done].
  destruct Hv as (Hw & _ & Hr); [unfold visit_fuel; cbn; lia|constructor|by intros ? ?%elem_of_nil|by intros [|] ? ? ? ?|done|done|].
  assert (∀ x y, rtc (imported sn) x y → is_Some (G !! x) → is_Some (G !! y)) as Hin.
  { induction 1; [done|]. intros Hx. apply IHrtc. by eapply (wa_closed _ _ _ _ _ Hw). }
  split_and!.
  - intros g. split; [|by intros Hg; apply (Hin root)]. intros [s Hg]. by apply (wa_graph _ _ _ _ _ Hw g s).
  - intros g s Hg. by apply (wa_graph _ _ _ _ _ Hw g s).
  - intros g Hg. apply (wa_acyclic _ _ _ _ _ Hw). by apply (Hin root).
Qed.

(** C14: the graphs a schema is compiled from are found by a walk that ends:
    with enough fuel for its depth it never runs out, it collects exactly the
    graphs reached from the root along [owl:imports], each with the snapshot the
    store holds, and only when all of them are local, free of what the compiler
    refuses, and without a cycle; when it fails, the error names a graph that is
    reached and what is wrong with it, or a real cycle of imports. *)
Theorem shape_graphs_exact `{Blake3} sn allow root :
  snapshot_sound sn → rows_sound (sn_store sn) → digest_bytes →
  match shape_graphs sn allow root with
  | Ok G => (∀ g, is_Some (G !! g) ↔ rtc (imported sn) root g) ∧ (∀ g s, G !! g = Some s → usable_graph sn allow g s) ∧
            ∀ g, rtc (imported sn) root g → ¬ tc (imported sn) g g
  | Err e => blamed sn allow root e
  | Panic => False
  end.
Proof. apply shape_graphs_walk. Qed.

(** C18: the versions a schema is compiled with are those of the graphs it is
    compiled from; [versions_are_current] accepts them against a later store
    exactly when every one of these graphs still exists and its clock still has
    the version it had, and so against the store itself. *)
Theorem shape_versions_fence `{Blake3} clock_postcard sn allow root vs :
  snapshot_sound sn → rows_sound (sn_store sn) → digest_bytes → shape_versions sn allow clock_postcard root = Ok vs →
  (∀ sn', versions_are_current sn' clock_postcard vs = true ↔
     ∀ g, rtc (imported sn) root g → contains_graph_id (sn_store sn') (gid g) = true ∧
       graph_version clock_postcard (vector_clock_id (sn_store sn') (gid g)) =
       graph_version clock_postcard (vector_clock_id (sn_store sn) (gid g))) ∧
  ensure_schema_current sn clock_postcard vs = Ok ().
Proof.
  intros Hs Hdata Hb Hvs. pose proof (shape_graphs_walk sn allow root Hs Hdata Hb) as Hw. unfold shape_versions in Hvs.
  apply fmap_ok in Hvs as (G & HG & ->). rewrite HG in Hw. destruct Hw as (Hdom & Hu & _).
  assert (∀ sn', versions_are_current sn' clock_postcard (graph_versions clock_postcard G) = true ↔
     ∀ g, rtc (imported sn) root g → contains_graph_id (sn_store sn') (gid g) = true ∧
       graph_version clock_postcard (vector_clock_id (sn_store sn') (gid g)) =
       graph_version clock_postcard (vector_clock_id (sn_store sn) (gid g))) as Hcur.
  { intros sn'. unfold versions_are_current, graph_versions. rewrite forallb_forall. split.
    - intros Hall g Hg. apply Hdom in Hg as [s Hg]. destruct (snapshot_version _ _ _ _ (Hu g s Hg)) as [Hn Hc].
      specialize (Hall (g, graph_version clock_postcard (vector_clock_id (sn_store sn) (gid g)))).
      cbn in Hall. fold (gid g) in Hall. rewrite andb_true_iff, bool_decide_eq_true in Hall. apply Hall.
      apply list_elem_of_In, list_elem_of_fmap. exists (g, s). rewrite Hn, Hc. split; [done|]. by apply elem_of_btree_iter.
    - intros Hall [g v] Hin%list_elem_of_In%list_elem_of_fmap. destruct Hin as ([k s] & E & Hk%elem_of_btree_iter).
      injection E as -> ->. destruct (snapshot_version _ _ _ _ (Hu k s Hk)) as [-> ->]. fold (gid k).
      rewrite andb_true_iff, bool_decide_eq_true. apply Hall, Hdom. by exists s. }
  split; [done|]. unfold ensure_schema_current. rewrite (proj2 (Hcur sn)); [done|]. intros g Hg. split; [|done].
  apply Hdom in Hg as [s Hg]. apply bool_decide_eq_true. by apply (local_named sn), (us_local _ _ _ _ (Hu g s Hg)).
Qed.

(** Three graphs in a chain of imports, and one that imports itself. *)
Module DemoShapes.
(** The end of a term is a digest without collisions on these terms. *)
#[export] Instance demo_digest : Blake3 := λ l, (take 32 (reverse l ++ repeat 0%N 32))%list.

Lemma shapes_digest_ok : digest_bytes.
Proof.
  intros l Hl. apply Forall_take, Forall_app_2; [by apply Forall_reverse|]. apply List.Forall_forall.
  by intros x ->%List.repeat_spec.
Qed.

Definition meta_of (p : GraphPolicy) : StoredGraphMeta :=
  {| meta_policy := p; meta_policy_tag := PolicyTag.GENESIS; meta_clock := VectorClock.new; irokle_topic := None;
     rocrate_context := None; rocrate_license := None; rocrate_license_digest := None; context_tag := ContextTag.GENESIS |}.
Definition open_policy : GraphPolicy := {| public := true; permission_paths := [] |}.
Definition closed_policy : GraphPolicy := {| public := false; permission_paths := ["private"] |}.

(** A store with these triples and graphs. *)
Definition holding (graphs : list (GraphId * GraphPolicy)) (l : list (GraphId * EncodedTerm * EncodedTerm * EncodedTerm)) : Store :=
  {| terms := list_to_map ((λ t, (hash_term t, t)) <$>
       (((λ g, from_named_node g.1) <$> graphs) ++ (l ≫= λ '(_, s, p, o), [s; p; o]))%list);
     quads := list_to_map ((λ '(g, s, p, o), ({| quad_graph := gid g; quad_subject := hash_term s; quad_predicate := hash_term p;
       quad_object := hash_term o |}, [{| dot_actor := 1; dot_counter := 1 |}%N])) <$> l);
     graph_metas := list_to_map ((λ g, (gid g.1, meta_of g.2)) <$> graphs);
     graph_clocks := ∅; graph_tombstones := ∅; deleted_policies := ∅; log_heads := ∅ |}.

Definition shapes : Store :=
  holding [("a", open_policy); ("b", open_policy); ("c", closed_policy); ("d", open_policy)]
    [("a", "<a>", OWL_IMPORTS, "<b>"); ("b", "<b>", OWL_IMPORTS, "<c>"); ("c", "<s>", "<p>", "<<secret");
     ("d", "<d>", OWL_IMPORTS, "<e>"); ("d", "<d>", OWL_IMPORTS, "<d>")].
Definition sn : Snapshot := plain_snapshot shapes.
(** Without the triple of [c] the compiler refuses. *)
Definition plain : Store :=
  holding [("a", open_policy); ("b", open_policy); ("c", closed_policy)]
    [("a", "<a>", OWL_IMPORTS, "<b>"); ("b", "<b>", OWL_IMPORTS, "<c>"); ("a", "<a>", OWL_IMPORTS, "<c>")].

Lemma sn_sound : snapshot_sound sn.
Proof. apply checked_sound. by vm_compute. Qed.
Lemma shapes_sound : rows_sound (sn_store sn).
Proof. apply (checked_rows shapes). by vm_compute. Qed.
Lemma plain_sound : snapshot_sound (plain_snapshot plain).
Proof. apply checked_sound. by vm_compute. Qed.
Lemma plain_rows : rows_sound (sn_store (plain_snapshot plain)).
Proof. apply (checked_rows plain). by vm_compute. Qed.

Example collected : (btree_keys <$> shape_graphs (plain_snapshot plain) true "a") = Ok ["a"; "b"; "c"].
Proof. by vm_compute. Qed.
Example refused_term : shape_graphs sn true "a" = Err (UnsupportedRdfStarTerm "<<secret").
Proof. by vm_compute. Qed.
Example self_import : shape_graphs sn true "d" = Err (ImportCycle ["d"; "d"]).
Proof. by vm_compute. Qed.

Lemma shape_graphs_exact_witness :
  match shape_graphs sn true "a" with
  | Ok G => (∀ g, is_Some (G !! g) ↔ rtc (imported sn) "a" g) ∧ (∀ g s, G !! g = Some s → usable_graph sn true g s) ∧
            ∀ g, rtc (imported sn) "a" g → ¬ tc (imported sn) g g
  | Err e => blamed sn true "a" e
  | Panic => False
  end.
Proof. exact (shape_graphs_exact sn true "a" sn_sound shapes_sound shapes_digest_ok). Defined.

(** The postcard bytes of a clock do not matter to the demonstration. *)
Definition versions : list (GraphId * bytes) :=
  match shape_versions (plain_snapshot plain) true (λ _, []) "a" with Ok vs => vs | _ => [] end.
Lemma versions_ok : shape_versions (plain_snapshot plain) true (λ _, []) "a" = Ok versions.
Proof.
  assert ((match shape_versions (plain_snapshot plain) true (λ _, []) "a" with Ok _ => true | _ => false end) = true) as Hok by by vm_compute.
  unfold versions. by destruct (shape_versions _ _ _ _).
Qed.
Lemma shape_versions_fence_witness :
  (∀ sn', versions_are_current sn' (λ _, []) versions = true ↔
     ∀ g, rtc (imported (plain_snapshot plain)) "a" g → contains_graph_id (sn_store sn') (gid g) = true ∧
       graph_version (λ _, []) (vector_clock_id (sn_store sn') (gid g)) =
       graph_version (λ _, []) (vector_clock_id (sn_store (plain_snapshot plain)) (gid g))) ∧
  ensure_schema_current (plain_snapshot plain) (λ _, []) versions = Ok ().
Proof. exact (shape_versions_fence (λ _, []) (plain_snapshot plain) true "a" versions plain_sound plain_rows shapes_digest_ok versions_ok). Defined.
End DemoShapes.
