(* ===== verification/Access.v ===== *)
(** * Who may see a graph ([src/lib.rs], [src/history.rs])

    Every entry point finds the policy of the graph it touches and asks the
    authorizer: the current policy, that of a snapshot, or, for a deleted graph,
    the one it had.  A schema is compiled only from graphs its caller may read,
    and a query sees only the graphs its caller may read. *)

From S2P Require Import Prelude Clock Terms Store Codec QueryView IndexUpdate Transitions Replication Convergence.
From S2P Require Import LocalWrites IndexMirror Orphans Cursors Reads ReadRules Answers DeltaAnswers ViewRows Grants ShapeGraphs.
From stdpp Require Import relations.
#[local] Open Scope craqle_scope.
#[local] Open Scope string_scope.

(** [CraqleError]; the text of a message is left out. *)
Inductive CraqleError :=
  | Denied (e : AuthorizationError)
  | StoreFailed (e : StoreError)
  | ShapesFailed (e : ShapesError)
  | SyncInputRejected.

(** ** Policies *)

Section policies.
Context `{Blake3}.

Definition graph_policy (st : Store) (graph : GraphId) : outcome StoreError GraphPolicy :=
  policy <$> graph_tagged_policy st graph.

Definition deleted_graph_policy (st : Store) (graph : GraphId) : outcome StoreError (option GraphPolicy) :=
  id ← graph_id_for st graph;
  match id with Some graph_id => Ok (deleted_policies st !! graph_id) | None => Ok None end.

(** [StoreReadSnapshot::graph_policy]. *)
Definition snapshot_policy (sn : Snapshot) (graph : GraphId) : outcome StoreError (option GraphPolicy) :=
  id ← lookup_term (sn_store sn) (from_named_node graph);
  match id with
  | None => Ok None
  | Some graph_id => Ok (meta_policy <$> read_graph_meta (sn_store sn) graph_id)
  end.
End policies.

(** ** The checks *)

Section checks.
Context `{Blake3} (auth : Authorizer).

Definition authorized (graph : GraphId) (p : GraphPolicy) (action : Action.t) : outcome CraqleError () :=
  map_err Denied (authorize auth graph p action).
Definition stored {A} (r : outcome StoreError A) : outcome CraqleError A := map_err StoreFailed r.

Definition default_policy : GraphPolicy := {| public := false; permission_paths := [] |}.

Definition ensure_graph_action (st : Store) (graph : GraphId) (action : Action.t) : outcome CraqleError () :=
  p ← stored (graph_policy st graph); authorized graph p action.

Definition ensure_policy_action (st : Store) (graph : GraphId) (next_policy : GraphPolicy) (action : Action.t)
    : outcome CraqleError () :=
  here ← stored (Store.contains_graph st graph);
  p ← (if here : bool then stored (graph_policy st graph) else Ok next_policy);
  authorized graph p action.

Definition authorize_view_action (sn : Snapshot) (graph : GraphId) (action : Action.t) : outcome CraqleError () :=
  p ← stored (snapshot_policy sn graph); authorized graph (default default_policy p) action.

Definition authorize_view_schema (sn : Snapshot) (data_graph : GraphId) (versions : list (GraphId * bytes))
    : outcome CraqleError () :=
  _ ← authorize_view_action sn data_graph Action.Read;
  try_fold (λ _ v, authorize_view_action sn v.1 Action.Read) () versions.

Definition authorize_shape_versions (st : Store) (versions : list (GraphId * bytes)) : outcome CraqleError () :=
  try_fold (λ _ v, ensure_graph_action st v.1 Action.Read) () versions.

(** [authorize_rejection_record] of the record's graph. *)
Definition authorize_rejection_record (st : Store) (graph : option GraphId) (action : Action.t) : outcome CraqleError () :=
  graph ← ok_or SyncInputRejected graph; ensure_graph_action st graph action.

(** *** Deleted graphs *)

Definition history_policy (st : Store) (graph : GraphId) : outcome CraqleError GraphPolicy :=
  dead ← stored (graph_tombstoned st graph);
  if negb dead then stored (graph_policy st graph)
  else p ← stored (deleted_graph_policy st graph); ok_or (Denied (PermissionDenied Action.Read graph)) p.

(** The check of [graph_heads], [history_log] and [project_history]. *)
Definition authorize_history (st : Store) (graph : GraphId) (action : Action.t) : outcome CraqleError () :=
  p ← history_policy st graph; authorized graph p action.

(** The check of [mutation_status] ([dead_action] is [Write]) and of
    [reconcile_graph] (both actions are that of the mode). *)
Definition authorize_deleted (st : Store) (graph : GraphId) (dead_action action : Action.t) : outcome CraqleError () :=
  dead ← stored (graph_tombstoned st graph);
  if dead : bool then
    p ← stored (deleted_graph_policy st graph);
    p ← ok_or (Denied (PermissionDenied dead_action graph)) p;
    authorized graph p dead_action
  else ensure_graph_action st graph action.
Definition authorize_status (st : Store) (graph : GraphId) : outcome CraqleError () :=
  authorize_deleted st graph Action.Write Action.Read.

(** [apply_delete_record] and [ReplicationEngine::delete_graph] on the store: a
    graph deleted already is left as it is. *)
Definition apply_delete (st : Store) (tombstone : GraphTombstone) : outcome StoreError Store :=
  dead ← graph_tombstoned st (tomb_graph tombstone);
  here ← (if dead : bool then Store.contains_graph st (tomb_graph tombstone) else Ok true);
  if dead && negb here then Ok st else delete_graph st tombstone.

(** *** Visible graphs *)

Definition visible_graphs (st : Store) : outcome CraqleError (list GraphId) :=
  try_fold (λ visible graph_id,
    term ← stored (decode_term st graph_id);
    match to_named_node term with
    | None => Ok visible
    | Some iri =>
        let graph := bytes_string iri in
        p ← stored (graph_policy st graph);
        match authorize auth graph p Action.Read with
        | Ok _ => Ok (visible ++ [graph])%list
        | Err _ => Ok visible
        | Panic => Panic
        end
    end) [] (btree_keys (graph_metas st)).

(** [PolicyVisibility]: the first policy that could not be read is kept. *)
Record PolicyVisibility := { failure : option StoreError }.
Definition policy_visible (sn : Snapshot) (graph : GraphId) : stm PolicyVisibility CraqleError bool := λ v,
  match snapshot_policy sn graph with
  | Ok None => (v, Ok false)
  | Ok (Some p) =>
      (v, match authorize auth graph p Action.Read with Ok _ => Ok true | Err _ => Ok false | Panic => Panic end)
  | Err e => ({| failure := Some (default e (failure v)) |}, Ok false)
  | Panic => (v, Panic)
  end.
Definition policy_finish {A} (v : PolicyVisibility) (result : outcome CraqleError A) : outcome CraqleError A :=
  match failure v with Some e => Err (StoreFailed e) | None => result end.

(** The scope a query reads in. *)
Definition policy_scope (sn : Snapshot) : GraphVisibility :=
  PredicateScope (λ graph, match (policy_visible sn graph {| failure := None |}).2 with Ok b => b | _ => false end).

(** *** Schemas *)

(** [authorize_shape_graphs]: [pending] is a stack, its top first; the read
    context is the one of the root throughout. *)
Fixpoint shape_loop (fuel : nat) (sn : Snapshot) (pending : list GraphId) (visited : gset string)
    : stm ReadContext CraqleError () :=
  match pending with
  | [] => st_ret ()
  | graph :: pending =>
      match fuel with
      | O => λ cx, (cx, Panic)
      | S fuel =>
          if decide (graph ∈ visited) then shape_loop fuel sn pending visited
          else
            let visited := {[graph]} ∪ visited in
            _ ⇐ (λ cx, (cx, ensure_graph_action (sn_store sn) graph Action.Read));
            here ⇐ (λ cx, (cx, stored (Store.contains_graph (sn_store sn) graph)));
            if negb here then shape_loop fuel sn pending visited
            else
              pending ⇐ scan_objects StoreFailed (λ pending object,
                match named_iri object with
                | None => Ok pending
                | Some imported =>
                    here ← stored (Store.contains_graph (sn_store sn) imported);
                    Ok (if here : bool then imported :: pending else pending)
                end) (fresh_view sn) (gid graph) (hash_term OWL_IMPORTS) pending;
              shape_loop fuel sn pending visited
      end
  end.

(** The root, and every row of it that may name another graph. *)
Definition shape_fuel (sn : Snapshot) : nat := 1 + size (quads (sn_store sn)).
Definition authorize_shape_graphs (sn : Snapshot) (shapes_graph : GraphId) : outcome CraqleError () :=
  (shape_loop (shape_fuel sn) sn [shapes_graph] ∅ (for_validation shapes_graph None)).2.

(** [compile_shacl] up to the graphs it compiles: what becomes of their union
    afterwards touches no graph. *)
Definition compile_shacl (sn : Snapshot) (allow_local_imports : bool) (clock_postcard : VectorClock.t → bytes)
    (shapes_graph : GraphId) : outcome CraqleError (list (GraphId * bytes)) :=
  _ ← authorize_shape_graphs sn shapes_graph;
  versions ← map_err ShapesFailed (shape_versions sn allow_local_imports clock_postcard shapes_graph);
  _ ← authorize_shape_versions (sn_store sn) versions;
  Ok versions.
End checks.

(** ** Rules *)

(** An authorizer that answers every request. *)
Class Answering (auth : Authorizer) : Prop := answering graph p action : authorize auth graph p action ≠ Panic.

#[export] Instance answering_all : Answering AllowAllAuthorizer.
Proof. by intros ? ? ?. Qed.
#[export] Instance answering_none : Answering DenyAllAuthorizer.
Proof. by intros ? ? ?. Qed.
#[export] Instance answering_grants `{Globset} l : Answering (GrantAuthorizer_of l).
Proof.
  intros graph p action. unfold GrantAuthorizer_of, grant_authorize. cbn [authorize grants grant_authorizer_new].
  destruct (_ && _); [done|]. cbn zeta. destruct (negb _ || _); [done|]. unfold st_bind.
  destruct (matcher_cached (grant_authorizer_new l) action (cached_new _)) as (E & _).
  destruct (matcher action _) as [a r]. cbn [fst snd grants grant_authorizer_new] in E. subst r.
  destruct (compile_outcome l action) as [(pt & message & -> & _)|(globs & m & -> & _)]; cbn; [done|].
  by destruct (existsb (is_match m) _).
Qed.

Section rules.
Context `{Blake3} (auth : Authorizer) `{!Answering auth}.

Definition may_read (st : Store) (g : GraphId) : Prop := ensure_graph_action auth st g Action.Read = Ok ().

Lemma policy_quiet st g : graph_policy st g ≠ Panic.
Proof.
  unfold graph_policy, graph_tagged_policy, graph_id_for, lookup_term. destruct (terms st !! _); [case_decide|]; done.
Qed.
Lemma ensure_quiet st g action : ensure_graph_action auth st g action ≠ Panic.
Proof.
  unfold ensure_graph_action, stored. pose proof (policy_quiet st g). destruct (graph_policy st g) as [p| |]; cbn; [|done..].
  unfold authorized. pose proof (answering g p action) as Ha. by destruct (authorize auth g p action).
Qed.

(** *** The graphs a schema is authorized for *)

Section shapes.
Context (sn : Snapshot) (Hs : snapshot_sound sn) (Hdata : rows_sound (sn_store sn)) (Hbytes : digest_bytes).
Context (root : GraphId).
Let st := sn_store sn.
#[local] Abbreviation settles := (settles sn (Exact {[gid root]}) (Some (gid root))) (only parsing).

Definition push_import (pending : list GraphId) (object : EncodedTerm) : outcome CraqleError (list GraphId) :=
  match named_iri object with
  | None => Ok pending
  | Some imported =>
      here ← stored (Store.contains_graph st imported);
      Ok (if here : bool then imported :: pending else pending)
  end.

Lemma push_imports ts pending :
  match try_fold push_import pending ts with
  | Ok l => (length l ≤ length pending + length ts)%nat ∧
            (∀ t h, t ∈ ts → named_iri t = Some h → ∃ b, Store.contains_graph st h = Ok b) ∧
            ∀ h, h ∈ l ↔ h ∈ pending ∨ ∃ t, t ∈ ts ∧ named_iri t = Some h ∧ local sn h
  | Err _ => ∃ t h e, t ∈ ts ∧ named_iri t = Some h ∧ Store.contains_graph st h = Err e
  | Panic => False
  end.
Proof.
  revert pending. induction ts as [|t ts IH]; intros pending; cbn [try_fold].
  { split_and!; [cbn; lia|set_solver|set_solver]. }
  destruct (named_iri t) as [h|] eqn:Et.
  2: { assert (push_import pending t = Ok pending) as -> by (unfold push_import; by rewrite Et). cbn [mbind outcome_bind].
       specialize (IH pending). destruct (try_fold push_import pending ts) as [l|e|]; [| |done].
       - destruct IH as (Hlen & Hk & Hin). cbn [length]. split_and!; [lia|set_solver|]. intros h. rewrite Hin. set_solver.
       - destruct IH as (t' & h & e' & ? & ? & ?). exists t', h, e'. set_solver. }
  destruct (Store.contains_graph st h) as [b|e|] eqn:Hc; [| |by apply (contains_quiet sn) in Hc].
  2: { assert (push_import pending t = Err (StoreFailed e)) as -> by (unfold push_import; rewrite Et; by rewrite Hc).
       exists t, h, e. set_solver. }
  assert (push_import pending t = Ok (if b then h :: pending else pending)) as -> by (unfold push_import; rewrite Et; by rewrite Hc).
  cbn [mbind outcome_bind]. specialize (IH (if b then h :: pending else pending)).
  destruct (try_fold push_import _ ts) as [l|e|]; [|destruct IH as (t' & h' & e' & ? & ? & ?); exists t', h', e'; set_solver|done].
  destruct IH as (Hlen & Hk & Hin). split_and!.
  - destruct b; cbn in *; lia.
  - intros t' h' [->|Ht']%elem_of_cons Ht; [|by apply (Hk t')]. rewrite Et in Ht. injection Ht as <-. by exists b.
  - intros h'. rewrite Hin. destruct b; unfold local; [set_solver|].
    split; [set_solver|]. intros [Hp|(t' & [->|Ht']%elem_of_cons & En & Hl)]; [by left| |right; by exists t'].
    rewrite Et in En. injection En as <-. fold st in Hl. congruence.
Qed.

(** Another graph shows no rows in the context of the root. *)
Lemma others_hidden g predicate q :
  local sn root → local sn g → g ≠ root → ¬ answers sn (Exact {[gid root]}) (Some (gid root)) (Named (gid g)) (by_predicate predicate) q.
Proof.
  intros Hr Hg Hne (_ & Hsel & _ & Hv). cbn in Hsel. unfold row_visible, visible_graph in Hv. rewrite Hsel in Hv.
  apply andb_true_iff in Hv as [Hv%bool_decide_eq_true _]. by apply Hne, (local_inj sn).
Qed.

Lemma drain fuel pending visited :
  (length pending ≤ fuel)%nat → local sn root → root ∈ visited → (∀ g, g ∈ pending → local sn g) →
  settles (shape_loop auth fuel sn pending visited)
    (λ r, r ≠ Panic ∧ (r = Ok () ↔ ∀ g, g ∈ pending → g ∉ visited → may_read st g)).
Proof.
  revert pending visited. induction fuel as [|fuel IH]; intros [|g pending] visited Hf Hr Hv Hl; cbn [length] in Hf; [|lia| |].
  1, 2: apply settles_ret; split; [done|]; split; [by intros _ g ?%elem_of_nil|done].
  cbn [shape_loop]. case_decide as Hg.
  { eapply settles_weaken; [apply IH; [lia|done|done|intros; apply Hl; by right]|]. intros r [Hp Hok]. split; [done|].
    rewrite Hok. set_solver. }
  assert (local sn g) as Hloc by (apply Hl; by left). assert (g ≠ root) as Hne by (intros ->; done).
  eapply settles_bind; [by apply (settles_pure _ _ _ _ (λ r, r = ensure_graph_action auth st g Action.Read))| |].
  2: { intros r -> Hno. pose proof (ensure_quiet st g Action.Read) as Hq. split.
       - destruct (ensure_graph_action _ _ _ _) eqn:E; [by destruct (Hno a)|done..].
       - split; [by destruct (ensure_graph_action _ _ _ _)|]. intros Hall. destruct (Hno ()). apply Hall; [by left|done]. }
  intros [] Hok. eapply settles_bind; [by apply (settles_pure _ _ _ _ (λ r, r = Ok true)); unfold local in Hloc; rewrite Hloc| |by intros r -> Hx; destruct (Hx true)].
  intros here [= ->]. cbn [negb].
  eapply settles_bind; [apply (scan_objects_settles sn _ _ StoreFailed Hs Hdata push_import (gid g) (hash_term OWL_IMPORTS) pending);
    by apply hash_term_fit| |].
  2: { intros r (ts & -> & _ & Hts) Hno. destruct ts as [|t ts]; [by destruct (Hno pending)|].
       destruct (proj1 (Hts t)) as (q & Hq & _); [by left|]. by apply (others_hidden g _ q) in Hq. }
  intros pending' (ts & Hpend & _ & Hts). destruct ts as [|t ts].
  2: { destruct (proj1 (Hts t)) as (q & Hq & _); [by left|]. by apply (others_hidden g _ q) in Hq. }
  injection Hpend as <-.
  eapply settles_weaken; [apply IH; [lia|done|set_solver|intros; apply Hl; by right]|]. intros r [Hp Hr']. split; [done|].
  rewrite Hr'. split.
  - intros Hall h [->|Hh]%elem_of_cons Hnv; [done|]. destruct (decide (h = g)) as [->|?]; [done|]. apply Hall; set_solver.
  - intros Hall h Hh Hnv. apply Hall; set_solver.
Qed.

(** The graphs the check consults: the root and what it imports itself. *)
Definition consulted_readable : Prop :=
  may_read st root ∧ ∃ b, Store.contains_graph st root = Ok b ∧
    (b = true → ∀ h, imported sn root h → ∃ c, Store.contains_graph st h = Ok c ∧ (c = true → may_read st h)).

Lemma shape_loop_start :
  settles (shape_loop auth (shape_fuel sn) sn [root] ∅) (λ r, r ≠ Panic ∧ (r = Ok () ↔ consulted_readable)).
Proof.
  unfold shape_fuel, consulted_readable. cbn [Nat.add shape_loop]. rewrite decide_False by set_solver.
  eapply settles_bind; [by apply (settles_pure _ _ _ _ (λ r, r = ensure_graph_action auth st root Action.Read))| |].
  2: { intros r -> Hno. pose proof (ensure_quiet st root Action.Read) as Hq. unfold may_read.
       destruct (ensure_graph_action _ _ _ _) as [[]| |]; [by destruct (Hno ())| |done]. split; [done|]. by split; [|intros [? _]]. }
  intros [] Hok. eapply settles_bind; [by apply (settles_pure _ _ _ _ (λ r, r = stored (Store.contains_graph st root)))| |].
  2: { intros r -> Hno. pose proof (contains_quiet sn root) as Hq. fold st in Hq. revert Hq Hno.
       destruct (Store.contains_graph st root) as [b| |] eqn:Ec; intros Hq Hno; [by destruct (Hno b)| |by destruct Hq].
       split; [done|]. split; [done|]. intros (_ & b & Hb & _). congruence. }
  intros here Hhere. assert (Store.contains_graph st root = Ok here) as Hroot.
  { revert Hhere. destruct (Store.contains_graph st root); cbn; congruence. }
  destruct here; cbn [negb].
  2: { destruct (size (quads (sn_store sn))); apply settles_ret; (split; [done|]); split; [|done|..|done]; intros _;
       (split; [done|]); by exists false. }
  eapply settles_bind; [apply (scan_objects_settles sn _ _ StoreFailed Hs Hdata push_import (gid root) (hash_term OWL_IMPORTS) []);
    by apply hash_term_fit| |].
  - intros pending (ts & Hpend & Hlen & Hts). pose proof (push_imports ts []) as Hpush. rewrite <- Hpend in Hpush.
    destruct Hpush as (Hl & Hk & Hin). assert (∀ t, t ∈ ts ↔ says sn root t) as Hsaid by (intros t; rewrite Hts; symmetry; apply answers_says).
    eapply settles_weaken; [apply drain; [cbn in Hl; lia|done|set_solver|]|].
    { intros g [Hg|(t & _ & _ & Hg)]%Hin; [by apply elem_of_nil in Hg|done]. }
    intros r [Hp Hr]. split; [done|]. rewrite Hr. split.
    + intros Hall. split; [done|]. exists true. split; [done|]. intros _ h (t & Ht%Hsaid & Hn).
      destruct (Hk t h Ht Hn) as (c & Hc). exists c. split; [done|]. intros ->.
      destruct (decide (h = root)) as [->|?]; [done|]. apply Hall; [|set_solver]. apply Hin. right. by exists t.
    + intros (_ & b & Hb & Himp) g Hg _. rewrite Hroot in Hb. injection Hb as <-.
      apply Hin in Hg as [Hg|(t & Ht%Hsaid & Hn & Hl')]; [by apply elem_of_nil in Hg|].
      destruct (Himp eq_refl g) as (c & Hc & Hm); [by exists t|]. unfold local in Hl'. fold st in Hl'. rewrite Hl' in Hc.
      injection Hc as <-. by apply Hm.
  - intros r (ts & -> & _ & Hts) Hno. pose proof (push_imports ts []) as Hpush.
    assert (∀ t, t ∈ ts ↔ says sn root t) as Hsaid by (intros t; rewrite Hts; symmetry; apply answers_says).
    destruct (try_fold push_import [] ts) as [l| |]; [by destruct (Hno l)| |done].
    destruct Hpush as (t & h & e' & Ht%Hsaid & Hn & He). split; [done|]. split; [done|].
    intros (_ & b & Hb & Himp). rewrite Hroot in Hb. injection Hb as <-.
    destruct (Himp eq_refl h) as (c & Hc & _); [by exists t|]. congruence.
Qed.

Lemma authorize_shapes_spec :
  authorize_shape_graphs auth sn root ≠ Panic ∧ (authorize_shape_graphs auth sn root = Ok () ↔ consulted_readable).
Proof.
  unfold authorize_shape_graphs. destruct (shape_loop_start _ (fresh_context sn root) eq_refl) as (c & r & -> & _ & _ & Hr). done.
Qed.

Lemma shape_versions_readable vs g :
  authorize_shape_versions auth st vs = Ok () → g ∈ vs.*1 → may_read st g.
Proof.
  unfold authorize_shape_versions. induction vs as [|v vs IH]; cbn [try_fold fmap list_fmap]; [by intros _ ?%elem_of_nil|].
  intros ([] & Hv & Hvs)%bind_ok [->|Hg]%elem_of_cons; [done|by apply IH].
Qed.
Lemma shape_versions_named allow postcard vs :
  shape_versions sn allow postcard root = Ok vs → ∀ g, g ∈ vs.*1 ↔ rtc (imported sn) root g.
Proof.
  unfold shape_versions. intros (G & HG & ->)%fmap_ok g. pose proof (shape_graphs_walk sn allow root Hs Hdata Hbytes) as Hw.
  rewrite HG in Hw. destruct Hw as (Hdom & Hu & _). rewrite <- Hdom. unfold graph_versions. rewrite <- list_fmap_compose. split.
  - intros ([k s] & -> & Hk%elem_of_btree_iter)%list_elem_of_fmap. cbn. destruct (snapshot_version _ _ _ _ (Hu k s Hk)) as [-> _]. by exists s.
  - intros [s Hg]. apply list_elem_of_fmap. exists (g, s). cbn. destruct (snapshot_version _ _ _ _ (Hu g s Hg)) as [-> _].
    split; [done|]. by apply elem_of_btree_iter.
Qed.
Lemma shape_versions_distinct allow postcard vs :
  shape_versions sn allow postcard root = Ok vs → NoDup vs.*1.
Proof.
  unfold shape_versions. intros (G & HG & ->)%fmap_ok. pose proof (shape_graphs_walk sn allow root Hs Hdata Hbytes) as Hw.
  rewrite HG in Hw. destruct Hw as (_ & Hu & _). unfold graph_versions. rewrite <- list_fmap_compose.
  assert (((λ e : GraphId * GraphReplicaSnapshot, snap_graph e.2) <$> btree_iter G) = (btree_iter G).*1) as Hkeys.
  { apply list_fmap_ext. intros i [k s] Hk%list_elem_of_lookup_2%elem_of_btree_iter. cbn.
    by destruct (snapshot_version _ _ _ _ (Hu k s Hk)). }
  match goal with |- NoDup ?l => assert (l = (btree_iter G).*1) as -> end.
  { rewrite <- Hkeys. apply list_fmap_ext. by intros i [k s]. }
  apply btree_iter_nodup.
Qed.
End shapes.

(** *** Visible graphs *)

(** The graphs of a store are interned under their names. *)
Definition graphs_named (st : Store) : Prop :=
  ∀ i, is_Some (graph_metas st !! i) → ∃ g, i = gid g ∧ terms st !! i = Some (from_named_node g).

Section listing.
Context (st : Store) (Hnamed : graphs_named st).

Lemma named_policy g : terms st !! gid g = Some (from_named_node g) → is_Some (graph_metas st !! gid g) →
  Store.contains_graph st g = Ok true ∧
  graph_policy st g = Ok (meta_policy (default StoredGraphMeta_default (graph_metas st !! gid g))).
Proof.
  intros Ht Hm. unfold Store.contains_graph, graph_policy, graph_tagged_policy, graph_id_for, lookup_term. fold (gid g).
  rewrite Ht, decide_True by done. cbn. split; [|done]. unfold contains_graph_id. by rewrite bool_decide_true.
Qed.

Definition visible_step (visible : list GraphId) (graph_id : TermId) : outcome CraqleError (list GraphId) :=
  term ← stored (decode_term st graph_id);
  match to_named_node term with
  | None => Ok visible
  | Some iri =>
      let graph := bytes_string iri in
      p ← stored (graph_policy st graph);
      match authorize auth graph p Action.Read with
      | Ok _ => Ok (visible ++ [graph])%list
      | Err _ => Ok visible
      | Panic => Panic
      end
  end.

Lemma visible_step_named visible g :
  terms st !! gid g = Some (from_named_node g) → is_Some (graph_metas st !! gid g) →
  ∃ l, visible_step visible (gid g) = Ok l ∧ ((may_read st g ∧ l = visible ++ [g])%list ∨ (¬ may_read st g ∧ l = visible)).
Proof.
  intros Ht Hm. destruct (named_policy g Ht Hm) as [_ Hp]. unfold visible_step, decode_term, may_read, ensure_graph_action.
  rewrite Ht. cbn [ok_or stored map_err mbind outcome_bind]. rewrite to_named_node_from, bytes_string_bytes, Hp. cbn.
  unfold authorized. pose proof (answering g (meta_policy (default StoredGraphMeta_default (graph_metas st !! gid g))) Action.Read) as Ha.
  destruct (authorize auth g _ Action.Read) as [[]|e|]; [| |done]; eexists; (split; [done|]); [by left|by right].
Qed.

Lemma visible_loop ids acc :
  (∀ i, i ∈ ids → is_Some (graph_metas st !! i)) → NoDup (acc ++ ids) →
  ∀ visible, (∀ g, g ∈ visible → gid g ∈ acc) → NoDup visible →
  ∃ l, try_fold visible_step visible ids = Ok l ∧ NoDup l ∧
    ∀ g, g ∈ l ↔ g ∈ visible ∨ gid g ∈ ids ∧ terms st !! gid g = Some (from_named_node g) ∧ may_read st g.
Proof.
  revert acc. induction ids as [|i ids IH]; intros acc Hids Hnd visible Hacc Hv; cbn [try_fold].
  { exists visible. split_and!; [done|done|]. set_solver. }
  assert (is_Some (graph_metas st !! i)) as Hi by (apply Hids; by left). destruct (Hnamed i Hi) as (g & -> & Ht).
  assert (∀ h, gid h = gid g → terms st !! gid h = Some (from_named_node h) → h = g) as Hinj.
  { intros h E Hh. rewrite E, Ht in Hh. apply (inj Some), (f_equal to_named_node) in Hh. rewrite !to_named_node_from in Hh.
    apply (inj Some) in Hh. by apply (inj string_bytes). }
  destruct (visible_step_named visible g Ht Hi) as (l & -> & Hl). cbn [mbind outcome_bind].
  assert (gid g ∉ acc) as Hga by (apply NoDup_app in Hnd as (_ & Hd & _); intros Hin; apply (Hd _ Hin); by left).
  destruct (IH (acc ++ [gid g])%list) with (visible := l) as (l' & Hr & Hnd' & Hin).
  - intros j Hj. apply Hids. by right.
  - by rewrite <- app_assoc.
  - intros h Hh. destruct Hl as [[_ ->]|[_ ->]]; [apply elem_of_app in Hh as [Hh|Hh%list_elem_of_singleton]|]; set_solver.
  - destruct Hl as [[_ ->]|[_ ->]]; [|done]. apply NoDup_app. split_and!; [done| |apply NoDup_singleton].
    intros h Hh ->%list_elem_of_singleton. by apply Hga, Hacc.
  - exists l'. split_and!; [done|done|]. intros h. rewrite Hin. destruct Hl as [[Hm ->]|[Hm ->]].
    + rewrite elem_of_app, list_elem_of_singleton. split; [intros [[?| ->]|?]; [by left|right; set_solver|right; set_solver]|].
      intros [?|([E|?]%elem_of_cons & Hh & ?)]; [by left; left| |by right]. left. right. by apply Hinj.
    + split; [intros [?|?]; [by left|right; set_solver]|]. intros [?|([E|?]%elem_of_cons & Hh & Hmr)]; [by left| |by right].
      apply Hinj in E as ->; done.
Qed.
End listing.

(** *** The scope of a query *)

Section scope.
Context (sn : Snapshot).
Let st := sn_store sn.

(** The snapshot holds a policy for the graph that lets it be read. *)
Definition granted (g : GraphId) : Prop :=
  ∃ p, snapshot_policy sn g = Ok (Some p) ∧ authorize auth g p Action.Read = Ok ().

Definition scope_visible (g : GraphId) : bool :=
  match (policy_visible auth sn g {| failure := None |}).2 with Ok b => b | _ => false end.
Lemma scope_granted g : scope_visible g = true ↔ granted g.
Proof.
  unfold scope_visible, policy_visible, granted.
  destruct (snapshot_policy sn g) as [[p|]| |]; cbn; [|by split; [|intros (? & ? & ?)]..].
  destruct (authorize auth g p Action.Read) as [[]| |] eqn:E; cbn; (split; [intros Hx; try done; by exists p|]); [done|..];
    intros (p' & [= <-] & Hx); congruence.
Qed.

(** Graphs consulted one after another during one request. *)
Fixpoint consult (v : PolicyVisibility) (gs : list GraphId) : PolicyVisibility * list (outcome CraqleError bool) :=
  match gs with
  | [] => (v, [])
  | g :: gs => let r := policy_visible auth sn g v in let k := consult r.1 gs in (k.1, r.2 :: k.2)
  end.

(** The answers do not depend on the failures before, and the request fails with
    the first policy that could not be read. *)
Lemma consult_answers v gs :
  (consult v gs).2 = (λ g, Ok (scope_visible g)) <$> gs ∧
  failure (consult v gs).1 =
    match failure v with
    | Some e => Some e
    | None => head (omap (λ g, match snapshot_policy sn g with Err e => Some e | _ => None end) gs)
    end.
Proof.
  revert v. induction gs as [|g gs IH]; intros v; [split; [done|]; by destruct v as [[]]|].
  cbn [consult fst snd fmap list_fmap]. destruct (IH (policy_visible auth sn g v).1) as [-> ->].
  unfold scope_visible at 2, policy_visible. assert (snapshot_policy sn g ≠ Panic) as Hq.
  { unfold snapshot_policy, lookup_term. destruct (terms (sn_store sn) !! _); [case_decide|]; done. }
  cbn [omap list_omap]. destruct (snapshot_policy sn g) as [[p|]|e|]; [| | |done]; cbn.
  - pose proof (answering g p Action.Read) as Ha. destruct (authorize auth g p Action.Read) as [[]| |]; done.
  - done.
  - split; [done|]. by destruct v as [[]].
Qed.

Context (view : StoreReadView) (Hview : snapshot view = sn) (Hs : snapshot_sound sn).

Lemma scoped_rows s p :
  pattern_fit p → (∀ g, s = Named g → TermId_fit g) → readable view s →
  reads sn (policy_scope auth sn) None (c ⇐ scan view s p; collect c) (exact_rows sn (policy_scope auth sn) None s p).
Proof.
  intros Hp Hg Hr. subst sn. pose proof (store_scan_reads view (policy_scope auth (snapshot view)) None Hs s p Hp Hg Hr) as Hscan.
  by apply collect_scan_read; [apply Hs..|].
Qed.

Lemma scoped_answer s p q : answers sn (policy_scope auth sn) None s p q →
  q ∈ live_set st ∧ matches p q = true ∧
  ∃ t g, terms st !! quad_graph q = Some t ∧ named_iri t = Some g ∧ granted g.
Proof.
  intros (Hq & _ & Hm & Hv). split_and!; [done..|]. unfold row_visible, visible_graph, policy_scope in Hv.
  apply andb_true_iff in Hv as [Hv _]. apply andb_true_iff in Hv as [_ Hv]. fold st in Hv.
  destruct (terms st !! quad_graph q) as [t|]; [|done]. cbn in Hv. destruct (to_named_node t) as [iri|] eqn:Ei; [|done].
  exists t, (bytes_string iri). split_and!; [done|unfold named_iri; by rewrite Ei|]. by apply scope_granted.
Qed.
Lemma granted_answer g p q :
  terms st !! gid g = Some (from_named_node g) → granted g → q ∈ live_set st → quad_graph q = gid g → matches p q = true →
  quad_subject q ∉ hidden sn (gid g) → quad_object q ∉ hidden sn (gid g) →
  answers sn (policy_scope auth sn) None (Named (gid g)) p q.
Proof.
  intros Ht Hg Hq Hqg Hm Hsub Hobj. split_and!; [done|done|done|]. unfold row_visible, visible_graph, policy_scope. rewrite Hqg.
  fold st. rewrite Ht. cbn [mbind option_bind]. rewrite to_named_node_from, bytes_string_bytes.
  apply andb_true_iff. split; [|by apply bool_decide_eq_true]. apply andb_true_iff. split.
  - destruct Hg as (po & Hpo & _). unfold snapshot_policy, lookup_term in Hpo. fold (gid g) st in Hpo.
    rewrite Ht, decide_True in Hpo by done. cbn in Hpo. unfold contains_graph_id. apply bool_decide_eq_true.
    unfold read_graph_meta in Hpo. destruct (graph_metas st !! gid g); [by eexists|done].
  - by apply scope_granted.
Qed.
End scope.
End rules.

(** *** Deleted graphs *)

Section deleted.
Context `{Blake3}.

(** A write that leaves names, records and tombstones alone. *)
Definition quad_write (w : Write) : Prop :=
  match w with PutQuad _ _ | DelQuad _ | DelHead _ _ => True | _ => False end.

Lemma quad_writes_frame l st : Forall quad_write l →
  let st' := foldl apply_write st l in
  terms st' = terms st ∧ graph_metas st' = graph_metas st ∧ graph_tombstones st' = graph_tombstones st ∧
  deleted_policies st' = deleted_policies st.
Proof.
  intros Hl. revert st. induction Hl as [|w l Hw _ IH]; intros st; [done|]. cbn [foldl].
  destruct (IH (apply_write st w)) as (-> & -> & -> & ->). by destruct w, st.
Qed.

Lemma rows_staged st (rows : list (EncodedQuad * list Dot)) b :
  ∃ l, inner (foldl (λ b row, (write_quad_state st b row.1 []).1) b rows) = (inner b ++ l)%list ∧ Forall quad_write l.
Proof.
  revert b. induction rows as [|row rows IH]; intros b; cbn [foldl]; [exists []; by rewrite app_nil_r|].
  destruct (IH (write_quad_state st b row.1 []).1) as (l & -> & Hl).
  assert (∃ w, inner (write_quad_state st b row.1 []).1 = (inner b ++ [w])%list ∧ quad_write w) as (w & -> & Hw).
  { unfold write_quad_state. destruct (bool_decide (current_quad_dots _ _ _ ≠ [])), (bool_decide (normalize_dots [] ≠ [])); by eexists. }
  exists (w :: l). rewrite <- app_assoc. split; [done|]. by constructor.
Qed.
Lemma heads_staged (heads : list (TermId * ActorId)) b :
  ∃ l, inner (foldl (λ b ga, stage b (DelHead ga.1 ga.2)) b heads) = (inner b ++ l)%list ∧ Forall quad_write l.
Proof.
  revert b. induction heads as [|h heads IH]; intros b; cbn [foldl]; [exists []; by rewrite app_nil_r|].
  destruct (IH (stage b (DelHead h.1 h.2))) as (l & -> & Hl). exists (DelHead h.1 h.2 :: l). cbn.
  rewrite <- app_assoc. split; [done|]. by constructor.
Qed.

(** What is left of a deleted graph. *)
Record left_behind (st : Store) (g : GraphId) (p : GraphPolicy) : Prop := {
  lb_term : terms st !! gid g = Some (from_named_node g);
  lb_meta : graph_metas st !! gid g = None;
  lb_tombstone : is_Some (graph_tombstones st !! gid g);
  lb_policy : deleted_policies st !! gid g = Some p;
}.

Lemma delete_leaves st tomb st' : delete_graph st tomb = Ok st' →
  let g := tomb_graph tomb in
  left_behind st' g (normalized (meta_policy (default StoredGraphMeta_default (graph_metas st !! gid g)))).
Proof.
  unfold delete_graph. intros (id & Hid & Hr)%bind_ok. apply bind_ok in Hr as ([g b] & Hb & Hr). cbn zeta. injection Hr as <-.
  set (graph := tomb_graph tomb) in *.
  assert (g = gid graph ∧ (inner b = [] ∧ terms st !! gid graph = Some (from_named_node graph) ∨
    inner b = [PutTerm (gid graph) (from_named_node graph)])) as [-> Hb'].
  { apply graph_id_for_ok in Hid as [[-> Ht]|[-> Ht]].
    - injection Hb as <- <-. split; [done|]. by left.
    - unfold encode_term_batch in Hb. cbn [pending_terms new_batch] in Hb. rewrite lookup_empty in Hb. fold (gid graph) in Hb.
      rewrite Ht in Hb. injection Hb as <- <-. split; [done|]. by right. }
  match goal with |- context [foldl (λ b row, (write_quad_state st b row.1 []).1) ?b0 ?rows] =>
    set (b1 := b0); destruct (rows_staged st rows b1) as (l1 & E1 & H1) end.
  unfold commit. match goal with |- context [foldl (λ b ga, stage b (DelHead ga.1 ga.2)) ?b0 ?heads] =>
    destruct (heads_staged heads b0) as (l2 & -> & H2) end.
  cbn [inner stage]. rewrite E1. unfold b1. cbn [inner stage]. rewrite !foldl_app. cbn [foldl].
  match goal with |- context [foldl apply_write ?s0 l2] => destruct (quad_writes_frame l2 s0 H2) as (T2 & M2 & B2 & P2) end.
  match goal with |- context [foldl apply_write ?s0 l1] => destruct (quad_writes_frame l1 s0 H1) as (T1 & M1 & B1 & P1);
    set (s1 := foldl apply_write s0 l1) in * end.
  split; rewrite ?T2, ?M2, ?B2, ?P2; destruct s1 as [ts qs ms cs tb dp lh]; cbn in T1, M1, B1, P1 |- *; subst.
  - destruct Hb' as [[-> Ht]| ->]; cbn; destruct st; cbn in *; [done|by rewrite lookup_insert_eq].
  - by rewrite lookup_delete_eq.
  - destruct Hb' as [[-> _]| ->]; cbn; destruct st; cbn; by rewrite lookup_insert_eq.
  - destruct Hb' as [[-> _]| ->]; cbn; destruct st; cbn; by rewrite lookup_insert_eq.
Qed.

Lemma left_dead st g p : left_behind st g p →
  graph_tombstoned st g = Ok true ∧ Store.contains_graph st g = Ok false ∧ deleted_graph_policy st g = Ok (Some p).
Proof.
  intros [Ht Hm Hb Hp]. unfold graph_tombstoned, graph_tombstone, Store.contains_graph, deleted_graph_policy, graph_id_for, lookup_term.
  fold (gid g). rewrite Ht, decide_True by done. cbn. rewrite bool_decide_true by done. split; [done|].
  unfold contains_graph_id. rewrite Hm, bool_decide_false by by intros []. by rewrite Hp.
Qed.

Lemma known_policy st g p : store_wf st → graph_policy st g = Ok p →
  meta_policy (default StoredGraphMeta_default (graph_metas st !! gid g)) = p.
Proof.
  intros Hwf. unfold graph_policy, graph_tagged_policy. intros (tp & (o & Ho & Htp)%bind_ok & ->)%fmap_ok.
  apply graph_id_for_ok in Ho as [[-> _]|[-> Hn]]; injection Htp as <-; [done|].
  assert (graph_metas st !! gid g = None) as ->; [|done]. apply eq_None_not_Some. intros Hm%(sw_metas _ Hwf). rewrite Hn in Hm.
  by destruct Hm.
Qed.

(** Later deletions change nothing. *)
Lemma deletes_stay st g p tombs : left_behind st g p → (∀ t, t ∈ tombs → tomb_graph t = g) → try_fold apply_delete st tombs = Ok st.
Proof.
  intros Hl. destruct (left_dead _ _ _ Hl) as (Hd & Hc & _). induction tombs as [|t tombs IH]; intros Ht; [done|]. cbn [try_fold].
  assert (apply_delete st t = Ok st) as ->.
  { unfold apply_delete. rewrite (Ht t) by (by left). rewrite Hd. cbn [mbind outcome_bind]. by rewrite Hc. }
  cbn [mbind outcome_bind]. apply IH. intros; apply Ht; by right.
Qed.
End deleted.

(** ** The properties *)

(** C13: a schema reaches its caller only when the caller may read every graph it
    was compiled from: whatever the walk before the compilation checked, a
    result carries a version for exactly the graphs reached from the shapes
    graph along [owl:imports], each once, and each of them has a policy that
    lets the caller read it. *)
Theorem compile_reads_permitted `{Blake3} auth sn allow clock_postcard root vs :
  snapshot_sound sn → rows_sound (sn_store sn) → digest_bytes →
  compile_shacl auth sn allow clock_postcard root = Ok vs →
  NoDup vs.*1 ∧
  ∀ g, (g ∈ vs.*1 ↔ rtc (imported sn) root g) ∧
       (g ∈ vs.*1 → ensure_graph_action auth (sn_store sn) g Action.Read = Ok ()).
Proof.
  intros Hs Hdata Hb. unfold compile_shacl. intros ([] & _ & Hr)%bind_ok. apply bind_ok in Hr as (vs' & Hvs & Hr).
  apply map_err_ok in Hvs. apply bind_ok in Hr as ([] & Hauth & [= <-]). split.
  - by eapply shape_versions_distinct.
  - intros g. split; [by apply (shape_versions_named sn Hs Hdata Hb root _ _ _ Hvs g)|].
    intros Hg. by eapply (shape_versions_readable auth sn).
Qed.

(** C17: the check before a compilation ends, and passes exactly when the caller
    may read the shapes graph and, if it is in the store, every graph of the
    store that it imports itself; what those import in turn it does not look at,
    because it reads in the context of the shapes graph. *)
Theorem shape_check_direct `{Blake3} auth `{!Answering auth} sn root :
  snapshot_sound sn → rows_sound (sn_store sn) → digest_bytes →
  authorize_shape_graphs auth sn root ≠ Panic ∧
  (authorize_shape_graphs auth sn root = Ok () ↔
   ensure_graph_action auth (sn_store sn) root Action.Read = Ok () ∧
   ∃ b, Store.contains_graph (sn_store sn) root = Ok b ∧
     (b = true → ∀ h, imported sn root h → ∃ c, Store.contains_graph (sn_store sn) h = Ok c ∧
        (c = true → ensure_graph_action auth (sn_store sn) h Action.Read = Ok ()))).
Proof. intros Hs Hdata Hb. by apply authorize_shapes_spec. Qed.

(** the listing of graphs always succeeds over a store whose graphs are
    interned under their names, and holds, once each, exactly the graphs of the
    store that the caller may read. *)
Theorem visible_graphs_exact `{Blake3} auth `{!Answering auth} st :
  graphs_named st →
  ∃ l, visible_graphs auth st = Ok l ∧ NoDup l ∧
    ∀ g, g ∈ l ↔ Store.contains_graph st g = Ok true ∧ ensure_graph_action auth st g Action.Read = Ok ().
Proof.
  intros Hn. destruct (visible_loop auth st Hn (btree_keys (graph_metas st)) []) with (visible := @nil GraphId) as (l & Hl & Hnd & Hin).
  - intros i Hi. by apply elem_of_btree_keys.
  - apply lt_sorted_nodup, btree_keys_sorted.
  - by intros ? ?%elem_of_nil.
  - constructor.
  - exists l. split_and!; [done|done|]. intros g. rewrite Hin, elem_of_btree_keys. split.
    + intros [?%elem_of_nil|(Hm & Ht & Hr)]; [done|]. split; [by apply named_policy|done].
    + intros [(o & Ho & Hc)%bind_ok Hr]. right. apply graph_id_for_ok in Ho as [[-> Ht]|[-> _]]; [|done].
      split_and!; [|done|done]. injection Hc as Hc. by apply bool_decide_eq_true in Hc.
Qed.

(** C12: whatever a query scans, every row it gets is a live row that matches, in
    a graph whose policy in the same snapshot lets the caller read it; and of a
    graph the caller may read, a scan of it gets every such row that no orphan
    hides. *)
Theorem query_sees_permitted `{Blake3} auth view s p :
  snapshot_sound (snapshot view) → pattern_fit p → (∀ g, s = Named g → TermId_fit g) → readable view s →
  reads (snapshot view) (policy_scope auth (snapshot view)) None (c ⇐ scan view s p; collect c) (λ l,
    (∀ q, q ∈ l → q ∈ live_set (sn_store (snapshot view)) ∧ matches p q = true ∧
       ∃ t g, terms (sn_store (snapshot view)) !! quad_graph q = Some t ∧ named_iri t = Some g ∧ granted auth (snapshot view) g) ∧
    ∀ g q, s = Named (gid g) → terms (sn_store (snapshot view)) !! gid g = Some (from_named_node g) →
      granted auth (snapshot view) g → q ∈ live_set (sn_store (snapshot view)) → quad_graph q = gid g → matches p q = true →
      quad_subject q ∉ hidden (snapshot view) (gid g) → quad_object q ∉ hidden (snapshot view) (gid g) → q ∈ l).
Proof.
  intros Hs Hp Hg Hr. eapply reads_weaken; [by apply (scoped_rows auth (snapshot view) view eq_refl Hs s p)|]. intros l Hl. split.
  - intros q Hq. apply (scoped_answer auth (snapshot view) s p q). destruct s; cbn in Hl; [by apply Hl|by apply Hl|].
    by apply (proj1 (proj2 Hl)).
  - intros g q -> Ht Hgr Hq Hqg Hm Hsub Hobj. apply Hl. by apply granted_answer.
Qed.

(** C16: a deletion keeps the policy: after the first deletion of a graph and any
    deletions of it that follow, from whatever replica, its history and its
    mutations are open to exactly those its policy admitted before, now by the
    write permission for a mutation's status. *)
Theorem deletion_keeps_policy `{Blake3} auth st graph p t tombs st' :
  store_wf st → graph_tombstoned st graph = Ok false → graph_policy st graph = Ok p →
  tomb_graph t = graph → (∀ t', t' ∈ tombs → tomb_graph t' = graph) → try_fold apply_delete st (t :: tombs) = Ok st' →
  history_policy st' graph = Ok (normalized p) ∧
  (∀ action, authorize_history auth st' graph action = authorized auth graph (normalized p) action) ∧
  authorize_status auth st' graph = authorized auth graph (normalized p) Action.Write.
Proof.
  intros Hwf Hdead Hp Ht Hts Hr. cbn [try_fold] in Hr. apply bind_ok in Hr as (st1 & Hd & Hr).
  unfold apply_delete in Hd. rewrite Ht, Hdead in Hd. cbn in Hd. pose proof (delete_leaves _ _ _ Hd) as Hl. cbn zeta in Hl.
  rewrite Ht, (known_policy st graph p Hwf Hp) in Hl. rewrite (deletes_stay _ _ _ _ Hl Hts) in Hr. injection Hr as <-.
  destruct (left_dead _ _ _ Hl) as (Hd1 & _ & Hp1).
  assert (history_policy st1 graph = Ok (normalized p)) as Hh by (unfold history_policy; rewrite Hd1; cbn; by rewrite Hp1).
  split_and!; [done|intros action; unfold authorize_history; by rewrite Hh|].
  unfold authorize_status, authorize_deleted. rewrite Hd1. cbn. by rewrite Hp1.
Qed.

(** Readers of the demonstration's shapes. *)
Module DemoAccess.
Import DemoShapes DemoGlobs.

(** One caller reads public graphs only; the other may also read [c]. *)
Definition guest : Authorizer := GrantAuthorizer_of [].
Definition member : Authorizer := GrantAuthorizer_of [{| pattern := "private"; level := PermissionLevel.Read |}].

(** The walk before the compilation does not reach [c], so the guest learns a term
    of a graph it may not read. *)
Example unread_graph_reported :
  ensure_graph_action guest shapes "c" Action.Read = Err (Denied (PermissionDenied Action.Read "c")) ∧
  authorize_shape_graphs guest sn "a" = Ok () ∧
  compile_shacl guest sn true (λ _, []) "a" = Err (ShapesFailed (UnsupportedRdfStarTerm "<<secret")).
Proof. split_and!; by vm_compute. Qed.
(** Without an error in it, the graph stays closed. *)
Example unread_graph_denied :
  compile_shacl guest (plain_snapshot plain) true (λ _, []) "b" = Err (Denied (PermissionDenied Action.Read "c")).
Proof. by vm_compute. Qed.

Lemma member_compiles : compile_shacl member (plain_snapshot plain) true (λ _, []) "a" = Ok versions.
Proof. by vm_compute. Qed.
Lemma compile_reads_permitted_witness :
  NoDup versions.*1 ∧
  ∀ g, (g ∈ versions.*1 ↔ rtc (imported (plain_snapshot plain)) "a" g) ∧
       (g ∈ versions.*1 → ensure_graph_action member (sn_store (plain_snapshot plain)) g Action.Read = Ok ()).
Proof.
  exact (compile_reads_permitted member (plain_snapshot plain) true (λ _, []) "a" versions plain_sound plain_rows shapes_digest_ok
    member_compiles).
Defined.

Lemma shape_check_direct_witness :
  authorize_shape_graphs guest sn "a" ≠ Panic ∧
  (authorize_shape_graphs guest sn "a" = Ok () ↔
   ensure_graph_action guest (sn_store sn) "a" Action.Read = Ok () ∧
   ∃ b, Store.contains_graph (sn_store sn) "a" = Ok b ∧
     (b = true → ∀ h, imported sn "a" h → ∃ c, Store.contains_graph (sn_store sn) h = Ok c ∧
        (c = true → ensure_graph_action guest (sn_store sn) h Action.Read = Ok ()))).
Proof. exact (shape_check_direct guest sn "a" sn_sound shapes_sound shapes_digest_ok). Defined.

(** A store's graphs are named, by computation. *)
Definition named_check (names : list GraphId) (st : Store) : bool :=
  forallb (λ r : TermId * StoredGraphMeta, existsb (λ g, bool_decide (r.1 = gid g) && bool_decide (terms st !! r.1 = Some (from_named_node g))) names)
    (map_to_list (graph_metas st)).
Lemma named_checked names st : named_check names st = true → graphs_named st.
Proof.
  unfold named_check. rewrite forallb_forall. intros Hall i [m Hm].
  apply elem_of_map_to_list, list_elem_of_In, Hall, existsb_exists in Hm as (g & _ & [Hi Ht]%andb_true_iff).
  apply bool_decide_eq_true in Hi, Ht. by exists g.
Qed.
Lemma shapes_named : graphs_named shapes.
Proof. apply (named_checked ["a"; "b"; "c"; "d"]). by vm_compute. Qed.
Example guest_sees : visible_graphs guest shapes = Ok ["a"; "b"; "d"].
Proof. by vm_compute. Qed.
Lemma visible_graphs_exact_witness :
  ∃ l, visible_graphs guest shapes = Ok l ∧ NoDup l ∧
    ∀ g, g ∈ l ↔ Store.contains_graph shapes g = Ok true ∧ ensure_graph_action guest shapes g Action.Read = Ok ().
Proof. exact (visible_graphs_exact guest shapes shapes_named). Defined.

Lemma imports_fit : pattern_fit (by_predicate (hash_term OWL_IMPORTS)).
Proof. repeat constructor; by apply hash_term_fit, shapes_digest_ok. Qed.
Lemma query_sees_permitted_witness :
  reads sn (policy_scope guest sn) None (c ⇐ scan (fresh_view sn) Cursors.Union (by_predicate (hash_term OWL_IMPORTS)); collect c) (λ l,
    (∀ q, q ∈ l → q ∈ live_set (sn_store sn) ∧ matches (by_predicate (hash_term OWL_IMPORTS)) q = true ∧
       ∃ t g, terms (sn_store sn) !! quad_graph q = Some t ∧ named_iri t = Some g ∧ granted guest sn g) ∧
    ∀ g q, Cursors.Union = Named (gid g) → terms (sn_store sn) !! gid g = Some (from_named_node g) →
      granted guest sn g → q ∈ live_set (sn_store sn) → quad_graph q = gid g →
      matches (by_predicate (hash_term OWL_IMPORTS)) q = true →
      quad_subject q ∉ hidden sn (gid g) → quad_object q ∉ hidden sn (gid g) → q ∈ l).
Proof.
  refine (query_sees_permitted guest (fresh_view sn) Cursors.Union (by_predicate (hash_term OWL_IMPORTS)) sn_sound imports_fit _ _).
  - intros g Hg. discriminate Hg.
  - intros a _. exact I.
Defined.

(** A store of one dot a quad is well formed when its graphs are interned. *)
Lemma holding_wf graphs l :
  forallb (λ p : TermId * StoredGraphMeta, bool_decide (is_Some (terms (holding graphs l) !! p.1)))
    (map_to_list (graph_metas (holding graphs l))) = true → store_wf (holding graphs l).
Proof.
  rewrite forallb_forall. intros Hg. split.
  - intros q dots Hq%elem_of_list_to_map_2%list_elem_of_fmap. destruct Hq as ([[[g s] p] o] & [= _ ->] & _).
    split; [done|]. repeat constructor.
  - intros g [m Hm%elem_of_map_to_list%list_elem_of_In%Hg]. by apply bool_decide_eq_true in Hm.
  - intros g Hm. cbn in Hm. rewrite lookup_empty in Hm. by destruct Hm.
Qed.
Lemma shapes_wf : store_wf shapes.
Proof. apply holding_wf. by vm_compute. Qed.

(** Two replicas delete [c]. *)
Definition tombstone (event : EventId) : GraphTombstone :=
  {| tomb_graph := "c"; delete_event := event; delete_actor := 1%N; delete_clock := VectorClock.new |}.
Definition deleted : Store := match try_fold apply_delete shapes [tombstone 7; tombstone 9]%N with Ok st => st | _ => empty_store end.
Lemma deleted_ok : try_fold apply_delete shapes [tombstone 7; tombstone 9]%N = Ok deleted.
Proof.
  assert ((match try_fold apply_delete shapes [tombstone 7; tombstone 9]%N with Ok _ => true | _ => false end) = true) as Hok by by vm_compute.
  unfold deleted. by destruct (try_fold _ _ _).
Qed.
Lemma deletion_keeps_policy_witness :
  history_policy deleted "c" = Ok (normalized closed_policy) ∧
  (∀ action, authorize_history guest deleted "c" action = authorized guest "c" (normalized closed_policy) action) ∧
  authorize_status guest deleted "c" = authorized guest "c" (normalized closed_policy) Action.Write.
Proof.
  refine (deletion_keeps_policy guest shapes "c" closed_policy (tombstone 7) [tombstone 9] deleted shapes_wf _ _ eq_refl _ deleted_ok).
  - by vm_compute.
  - by vm_compute.
  - by intros t ->%list_elem_of_singleton.
Defined.
End DemoAccess.
