(* ===== verification/ShaclPaths.v ===== *)
(** * SHACL property paths ([src/internal/shacl/paths.rs])

    The walk of a property path from a focus node within the budgets of a
    validation, and the two cardinality constraints that read its size
    ([src/internal/shacl/eval.rs]).  A walk is proved against any view whose
    scans of the data graph answer with a fixed set of rows; the store's view
    and a change set's view are two such views. *)

From S2P Require Import Prelude Clock Terms Store Codec QueryView IndexUpdate Transitions Replication Convergence.
From S2P Require Import LocalWrites IndexMirror Orphans Cursors Reads ReadRules Answers DeltaAnswers ViewRows.
#[local] Open Scope craqle_scope.

(** ** Definitions *)

Inductive ResolvedPath :=
  | Predicate (predicate : TermId)
  | Alternative (paths : list ResolvedPath)
  | Sequence (paths : list ResolvedPath)
  | Inverse (path : ResolvedPath)
  | ZeroOrMore (path : ResolvedPath)
  | OneOrMore (path : ResolvedPath)
  | ZeroOrOne (path : ResolvedPath).

(** The fields of [ShaclValidationOptions] a walk reads. *)
Record PathOptions := { max_path_edges : N; max_path_depth : nat }.

Inductive PathError :=
  | StoreFailed (e : StoreError)
  | PathBudgetExceeded (limit : N)
  | PathDepthExceeded (limit : nat).

(** The state of a walk is the read context and [PathWork::edges_read]. *)
Abbreviation pathm := (stm (ReadContext * N) PathError).

Definition liftr {A} (m : readm A) : pathm A := λ s, let '(cx, r) := m s.1 in ((cx, s.2), map_err StoreFailed r).
Definition path_panic {A} : pathm A := λ s, (s, Panic).

(** [cap.is_some_and(|cap| output.len() >= cap)] and
    [cap.map(|cap| cap.saturating_sub(n))]. *)
Definition cap_reached (cap : option nat) (X : gset TermId) : bool :=
  match cap with Some cap => bool_decide (cap ≤ size X) | None => false end.
Definition remaining (cap : option nat) (n : nat) : option nat := (λ cap, cap - n) <$> cap.

(** A walk of one path in one direction. *)
Definition Walker : Type := TermId → option nat → pathm (gset TermId).

Section walk.
Context `{Blake3} {V : Type} `{RdfReadView V} (view : V) (graph : TermId) (options : PathOptions).

Definition count_edge : pathm () := λ s,
  let edges_read := sat_add 64 s.2 1 in
  ((s.1, edges_read),
   if decide (max_path_edges options < edges_read)%N then Err (PathBudgetExceeded (max_path_edges options)) else Ok ()).

(** [for quad in cursor { ... }]. *)
Fixpoint edge_loop (fuel : nat) (inverted : bool) (cap : option nat) (c : QueryCursor) (output : gset TermId)
    : pathm (gset TermId) :=
  match fuel with
  | O => path_panic
  | S fuel =>
      next ⇐ liftr (cursor_next c);
      match next.1 with
      | None => st_ret output
      | Some quad =>
          _ ⇐ count_edge;
          let output := {[if inverted then quad_subject quad else quad_object quad]} ∪ output in
          if cap_reached cap output then st_ret output else edge_loop fuel inverted cap next.2 output
      end
  end.

Definition predicate_values (predicate : TermId) (inverted : bool) : Walker := λ focus cap,
  c ⇐ liftr (if inverted then inverse_predicate view (Named graph) predicate focus
             else forward_predicate view (Named graph) focus predicate);
  edge_loop (S (cursor_len c)) inverted cap c ∅.

(** [ResolvedPath::Alternative]. *)
Fixpoint alternative_loop (walks : list Walker) (focus : TermId) (cap : option nat) (output : gset TermId)
    : pathm (gset TermId) :=
  match walks with
  | [] => st_ret output
  | walk :: walks =>
      X ⇐ walk focus (remaining cap (size output));
      let output := output ∪ X in
      if cap_reached cap output then st_ret output else alternative_loop walks focus cap output
  end.

(** [for node in frontier] of one step of a sequence. *)
Fixpoint step_loop (walk : Walker) (final_step : bool) (cap : option nat) (frontier : list TermId)
    (next : gset TermId) : pathm (gset TermId) :=
  match frontier with
  | [] => st_ret next
  | node :: frontier =>
      X ⇐ walk node (if final_step then remaining cap (size next) else None);
      let next := next ∪ X in
      if final_step && cap_reached cap next then st_ret next else step_loop walk final_step cap frontier next
  end.

(** [ResolvedPath::Sequence], over its steps in the order they are taken. *)
Fixpoint sequence_loop (walks : list Walker) (cap : option nat) (frontier : gset TermId) : pathm (gset TermId) :=
  match walks with
  | [] => st_ret frontier
  | walk :: walks =>
      next ⇐ step_loop walk (match walks with [] => true | _ => false end) cap (btree_elems frontier) ∅;
      if decide (next = ∅) then st_ret next else sequence_loop walks cap next
  end.

(** The values of one node of [repeat]: [visited], [next] and [output]. *)
Fixpoint note_values (cap : option nat) (values : list TermId) (acc : gset TermId * gset TermId * gset TermId)
    : gset TermId * gset TermId * gset TermId :=
  match values with
  | [] => acc
  | value :: values =>
      let '(visited, next, output) := acc in
      if decide (value ∈ visited) then note_values cap values acc
      else
        let acc := ({[value]} ∪ visited, {[value]} ∪ next, {[value]} ∪ output) in
        if cap_reached cap ({[value]} ∪ output) then acc else note_values cap values acc
  end.

(** [for node in frontier] of [repeat]. *)
Fixpoint expand (walk : Walker) (cap : option nat) (frontier : list TermId)
    (acc : gset TermId * gset TermId * gset TermId) : pathm (gset TermId * gset TermId * gset TermId) :=
  match frontier with
  | [] => st_ret acc
  | node :: frontier =>
      X ⇐ walk node None;
      let acc := note_values cap (btree_elems X) acc in
      if cap_reached cap acc.2 then st_ret acc else expand walk cap frontier acc
  end.

(** [while !frontier.is_empty() && !cap reached]. *)
Fixpoint repeat_loop (fuel : nat) (walk : Walker) (cap : option nat) (depth : nat)
    (visited output frontier : gset TermId) : pathm (gset TermId) :=
  match fuel with
  | O => path_panic
  | S fuel =>
      if decide (frontier = ∅) then st_ret output
      else if cap_reached cap output then st_ret output
      else if decide (max_path_depth options ≤ depth) then st_err (PathDepthExceeded (max_path_depth options))
      else
        acc ⇐ expand walk cap (btree_elems frontier) (visited, ∅, output);
        let '(visited, next, output) := acc in
        repeat_loop fuel walk cap (S depth) visited output next
  end.

(** Each turn raises the depth, which is checked against its limit. *)
Definition repeat (walk : Walker) (include_focus : bool) : Walker := λ focus cap,
  repeat_loop (S (max_path_depth options)) walk cap 0 {[focus]} (if include_focus then {[focus]} else ∅) {[focus]}.

(** [ResolvedPath::ZeroOrOne]. *)
Definition zero_or_one (walk : Walker) : Walker := λ focus cap,
  if decide (cap = Some 1) then st_ret {[focus]}
  else X ⇐ walk focus (remaining cap 1); st_ret ({[focus]} ∪ X).

Fixpoint walk (path : ResolvedPath) (inverted : bool) {struct path} : Walker := λ focus cap,
  _ ⇐ liftr check_cancelled;
  if decide (cap = Some 0) then st_ret ∅
  else match path with
       | Predicate predicate => predicate_values predicate inverted focus cap
       | Alternative paths => alternative_loop (map (λ path, walk path inverted) paths) focus cap ∅
       | Sequence paths =>
           let steps := map (λ path, walk path inverted) paths in
           sequence_loop (if inverted then rev steps else steps) cap {[focus]}
       | Inverse path => walk path (negb inverted) focus cap
       | ZeroOrOne path => zero_or_one (walk path inverted) focus cap
       | ZeroOrMore path => repeat (walk path inverted) true focus cap
       | OneOrMore path => repeat (walk path inverted) false focus cap
       end.

Definition values (focus : TermId) (path : ResolvedPath) (cap : option nat) : pathm (gset TermId) :=
  walk path false focus cap.

(** [ResolvedConstraint::MinCount] and [MaxCount] of a shape with a path: the
    walk they ask for and the answer they give. *)
Definition min_count_conforms (focus : TermId) (path : ResolvedPath) (minimum : nat) : pathm bool :=
  X ⇐ values focus path (Some minimum); st_ret (bool_decide (minimum ≤ size X)).
Definition max_count_conforms (focus : TermId) (path : ResolvedPath) (maximum : nat) : pathm bool :=
  X ⇐ values focus path (if decide (N.of_nat maximum < usize_max)%N then Some (S maximum) else None);
  st_ret (bool_decide (size X ≤ maximum)).
End walk.

(** ** The values a path has *)

(** The rows of the data graph as edges, and composition and union of lists of
    relations. *)
Definition edge (rows : gset EncodedQuad) (predicate : TermId) : relation TermId := λ a b,
  ∃ q, q ∈ rows ∧ quad_subject q = a ∧ quad_predicate q = predicate ∧ quad_object q = b.
Definition alt_rel (Rs : list (relation TermId)) : relation TermId :=
  foldr (λ R S a b, R a b ∨ S a b) (λ _ _, False) Rs.
Definition seq_rel (Rs : list (relation TermId)) : relation TermId :=
  foldr (λ R S a b, ∃ c, R a c ∧ S c b) eq Rs.

Section relations.
Context (plus : relation TermId → relation TermId) (rows : gset EncodedQuad).

Fixpoint rel_with (p : ResolvedPath) : relation TermId :=
  match p with
  | Predicate predicate => edge rows predicate
  | Alternative paths => alt_rel (map rel_with paths)
  | Sequence paths => seq_rel (map rel_with paths)
  | Inverse path => flip (rel_with path)
  | ZeroOrMore path => rtc (rel_with path)
  | OneOrMore path => plus (rel_with path)
  | ZeroOrOne path => λ a b, b = a ∨ rel_with path a b
  end.
End relations.

(** What SPARQL says a path relates, and what a walk yields: a walk of
    [OneOrMore] never returns its focus. *)
Definition path_rel : gset EncodedQuad → ResolvedPath → relation TermId := rel_with tc.
Definition proper_plus (R : relation TermId) : relation TermId := λ a b, rtc R a b ∧ b ≠ a.
Definition values_rel : gset EncodedQuad → ResolvedPath → relation TermId := rel_with proper_plus.

(** Induction on paths, through the lists they hold. *)
Lemma path_ind (P : ResolvedPath → Prop) :
  (∀ i, P (Predicate i)) → (∀ l, Forall P l → P (Alternative l)) → (∀ l, Forall P l → P (Sequence l)) →
  (∀ p, P p → P (Inverse p)) → (∀ p, P p → P (ZeroOrMore p)) → (∀ p, P p → P (OneOrMore p)) →
  (∀ p, P p → P (ZeroOrOne p)) → ∀ p, P p.
Proof.
  intros H1 H2 H3 H4 H5 H6 H7. fix IH 1. intros [i|l|l|p|p|p|p]; [apply H1|apply H2|apply H3|apply H4|apply H5|apply H6|apply H7].
  1, 2: induction l; constructor; [apply IH|done].
  all: apply IH.
Qed.

Definition dir (inverted : bool) (R : relation TermId) : relation TermId := if inverted then flip R else R.

Lemma alt_rel_elem Rs a b : alt_rel Rs a b ↔ ∃ R, R ∈ Rs ∧ R a b.
Proof.
  induction Rs as [|R Rs IH]; cbn; [split; [done|]|].
  - by intros (R & ?%elem_of_nil & _).
  - rewrite IH. setoid_rewrite elem_of_cons. naive_solver.
Qed.

Lemma seq_rel_app Rs Ss a b : seq_rel (Rs ++ Ss) a b ↔ ∃ c, seq_rel Rs a c ∧ seq_rel Ss c b.
Proof.
  revert a. induction Rs as [|R Rs IH]; intros a; cbn; [naive_solver|]. setoid_rewrite IH. naive_solver.
Qed.

Lemma alt_rel_dir inverted (f : ResolvedPath → relation TermId) l a b :
  alt_rel (map (λ p, dir inverted (f p)) l) a b ↔ dir inverted (alt_rel (map f l)) a b.
Proof. destruct inverted; unfold dir; [|done]. unfold flip. induction l; cbn; [done|]. naive_solver. Qed.

(** The converse of a composition is the composition of the converses,
    reversed. *)
Lemma seq_rel_flip (f : ResolvedPath → relation TermId) l a b :
  seq_rel (map (λ p, flip (f p)) (rev l)) a b ↔ seq_rel (map f l) b a.
Proof.
  revert a b. induction l as [|p l IH]; intros a b; cbn [rev map]; [split; by intros ->|].
  rewrite map_app, seq_rel_app. cbn. setoid_rewrite IH. unfold flip. naive_solver.
Qed.

Lemma rtc_flip (R : relation TermId) a b : rtc (flip R) a b ↔ rtc R b a.
Proof.
  split; (induction 1 as [x|x y z Hxy Hyz IH]; [done|]); eapply rtc_r; try exact IH; exact Hxy.
Qed.

(** ** Walks *)

Section walks.
Context `{Blake3} {V : Type} `{RdfReadView V} (view : V) (sn : Snapshot) (scope : GraphVisibility).
Context (validating : option TermId) (graph : TermId) (rows : gset EncodedQuad) (options : PathOptions).
Context `{!AnswersView view sn scope validating graph rows}.

(** The nodes of the data graph. *)
Definition nodes : gset TermId := set_map quad_subject rows ∪ set_map quad_object rows.

(** [walks k m P]: [m] has a value that satisfies [P] and reads at most [k]
    edges, or it is cancelled, or the limit of edges is below [k] more than
    those read before, or the limit of depth is at most the number of nodes. *)
Definition walks {A} (k : N) (m : pathm A) (P : A → Prop) : Prop :=
  ∀ cx w, context_ok sn scope validating cx → (w ≤ u64_max)%N →
  ∃ cx' w' r, m (cx, w) = ((cx', w'), r) ∧ context_ok sn scope validating cx' ∧ (w' ≤ u64_max)%N ∧
    (checks_left cx = None → checks_left cx' = None) ∧
    ((∃ a, r = Ok a ∧ P a ∧ (w' ≤ w + k)%N) ∨
     (r = Err (StoreFailed Cancelled) ∧ checks_left cx ≠ None) ∨
     (r = Err (PathBudgetExceeded (max_path_edges options)) ∧
      (max_path_edges options < w + k ∧ max_path_edges options < u64_max)%N) ∨
     (r = Err (PathDepthExceeded (max_path_depth options)) ∧ max_path_depth options ≤ size nodes)).

Lemma walks_ret {A} k (a : A) (P : A → Prop) : P a → walks k (st_ret a) P.
Proof. intros HP cx w Hcx Hw. exists cx, w, (Ok a). split_and!; try done. left. exists a. split_and!; [done|done|lia]. Qed.

Lemma walks_bind {A B} k1 k2 k (m : pathm A) (f : A → pathm B) P Q :
  walks k1 m P → (∀ a, P a → walks k2 (f a) Q) → (k1 + k2 ≤ k)%N → walks k (st_bind m f) Q.
Proof.
  intros Hm Hf Hk cx w Hcx Hw. destruct (Hm cx w Hcx Hw) as (cx1 & w1 & r & Hr & Hcx1 & Hw1 & Hn & Hres).
  destruct Hres as [(a & -> & Ha & Hle)|Hres].
  - destruct (Hf a Ha cx1 w1 Hcx1 Hw1) as (cx2 & w2 & r2 & Hr2 & Hcx2 & Hw2 & Hn2 & Hres2).
    exists cx2, w2, r2. unfold st_bind. rewrite Hr. split_and!; [done|done|done|auto|].
    destruct Hres2 as [(b & -> & Hb & Hle2)|[[-> Hc]|[[-> Hb]|Hd]]].
    + left. exists b. split_and!; [done|done|lia].
    + right; left. split; [done|]. intros Hnone. by apply Hc, Hn.
    + right; right; left. split; [done|lia].
    + by do 3 right.
  - exists cx1, w1. destruct Hres as [[-> Hc]|[[-> Hb]|[-> Hd]]].
    + exists (Err (StoreFailed Cancelled)). unfold st_bind. rewrite Hr. eauto 10.
    + exists (Err (PathBudgetExceeded (max_path_edges options))). unfold st_bind. rewrite Hr.
      split_and!; try done. do 2 right. left. split; [done|lia].
    + exists (Err (PathDepthExceeded (max_path_depth options))). unfold st_bind. rewrite Hr.
      split_and!; try done. by do 3 right.
Qed.

Lemma walks_weaken {A} k k' (m : pathm A) (P Q : A → Prop) :
  walks k m P → (k ≤ k')%N → (∀ a, P a → Q a) → walks k' m Q.
Proof.
  intros Hm Hk HPQ cx w Hcx Hw. destruct (Hm cx w Hcx Hw) as (cx' & w' & r & ? & ? & ? & ? & Hr).
  exists cx', w', r. split_and!; try done. destruct Hr as [(a & -> & Ha & ?)|[?|[[-> ?]|?]]].
  - left. exists a. split_and!; [done|auto|lia].
  - by right; left.
  - right; right; left. split; [done|lia].
  - by do 3 right.
Qed.

Lemma walks_read {A} (m : readm A) P : reads sn scope validating m P → walks 0 (liftr m) P.
Proof.
  intros Hm cx w Hcx Hw. destruct (Hm cx Hcx) as (cx' & r & Hr & Hcx' & Hn & Hres).
  exists cx', w, (map_err StoreFailed r). unfold liftr. cbn. rewrite Hr. split_and!; try done.
  destruct Hres as [(a & -> & Ha)|[-> Hc]]; [left|by right; left]. exists a. split_and!; [done|done|lia].
Qed.

Lemma walks_edge : walks 1 (count_edge options) (λ _, True).
Proof.
  intros cx w Hcx Hw. exists cx, (sat_add 64 w 1). eexists. unfold count_edge. cbn [fst snd]. split; [done|].
  pose proof (sat_add_le 64 w 1) as Hle. split_and!; [done|done|done|].
  assert (sat_add 64 w 1 ≤ w + 1)%N by (unfold sat_add; lia).
  case_decide; [|left; exists (); by split_and!]. do 2 right. left. split; [done|lia].
Qed.

(** What a walk returns: some of the values, and all of them when it stopped
    below its cap; a walk that is not [exact] promises that only without one. *)
Definition good (exact : bool) (cap : option nat) (Y : TermId → Prop) (X : gset TermId) : Prop :=
  (∀ x, x ∈ X → Y x) ∧
  (match exact with true => cap_reached cap X = false | false => cap = None end → ∀ x, Y x → x ∈ X).

Lemma good_weaken exact cap Y X : good true cap Y X → good exact cap Y X.
Proof. intros [Hs Hc]. split; [done|]. destruct exact; [done|]. intros ->. by apply Hc. Qed.

Lemma good_ext exact cap (Y Y' : TermId → Prop) X : (∀ x, Y x ↔ Y' x) → good exact cap Y X → good exact cap Y' X.
Proof. intros HY [Hs Hc]. split; intros *; setoid_rewrite <- HY; eauto. Qed.

Record walker_ok (exact : bool) (k : N) (R : relation TermId) (walk : Walker) : Prop := {
  wo_range a b : R a b → b = a ∨ b ∈ nodes;
  wo_walks focus cap : TermId_fit focus → walks k (walk focus cap) (good exact cap (R focus));
}.

Lemma nodes_fit a : a ∈ nodes → TermId_fit a.
Proof.
  unfold nodes. rewrite elem_of_union, !elem_of_map.
  intros [(q & -> & Hq)|(q & -> & Hq)]; by apply (av_fit (view := view)) in Hq as [? ?].
Qed.

Lemma range_fit e k R w a b : walker_ok e k R w → R a b → TermId_fit a → TermId_fit b.
Proof. intros Hw Hab Ha. apply (wo_range _ _ _ _ Hw) in Hab as [->|Hb]; [done|by apply nodes_fit]. Qed.

(** *** One edge *)

Definition edge_value (inverted : bool) (q : EncodedQuad) : TermId := if inverted then quad_subject q else quad_object q.

Lemma edge_loop_walks fuel inverted cap c out l :
  length l < fuel → pending sn scope validating c l →
  walks (N.of_nat (length l)) (edge_loop options fuel inverted cap c out)
    (good true cap (λ x, x ∈ out ∨ ∃ q, q ∈ l ∧ x = edge_value inverted q)).
Proof.
  pose proof (av_sound (view := view)) as Hs.
  revert c out l. induction fuel as [|fuel IH]; intros c out l Hf Hc; [lia|]. cbn [edge_loop].
  eapply (walks_bind 0 (N.of_nat (length l))); [apply walks_read, cursor_next_read; [apply Hs..|exact Hc]| |lia].
  intros [q c'] [Hq Hc']. cbn [fst snd] in *. subst q. destruct l as [|q l]; cbn [head tail] in *.
  - apply walks_ret. split; [by left|]. intros _ x [Hx|(q & Hq%elem_of_nil & _)]; done.
  - eapply (walks_bind 1 (N.of_nat (length l))); [apply walks_edge| |cbn [length]; lia]. intros _ _.
    change (if inverted then quad_subject q else quad_object q) with (edge_value inverted q).
    destruct (cap_reached cap _) eqn:Hcap.
    + apply walks_ret. split; [|by rewrite Hcap]. intros x [->%elem_of_singleton|Hx]%elem_of_union; [|by left].
      right. exists q. split; [by left|done].
    + eapply walks_weaken; [apply (IH c' _ l); [cbn [length] in Hf; lia|done]|lia|]. intros X HX.
      eapply good_ext; [|exact HX]. intros x. cbv beta. rewrite elem_of_union, elem_of_singleton. setoid_rewrite elem_of_cons.
      naive_solver.
Qed.

Lemma elem_rows_bound l : NoDup l → (∀ q, q ∈ l → q ∈ rows) → (length l ≤ size rows)%nat.
Proof.
  intros Hnd Hl. rewrite <- (size_list_to_set (C := gset EncodedQuad)) by done.
  apply subseteq_size. intros q. rewrite elem_of_list_to_set. apply Hl.
Qed.

Lemma edge_range predicate inverted a b : dir inverted (edge rows predicate) a b → b = a ∨ b ∈ nodes.
Proof.
  intros Hab. right. unfold nodes. rewrite elem_of_union, !elem_of_map.
  destruct inverted; destruct Hab as (q & Hq & Hs & Hp & Ho); subst; eauto.
Qed.

Lemma predicate_walker predicate inverted :
  TermId_fit predicate →
  walker_ok true (N.of_nat (size rows)) (dir inverted (edge rows predicate))
    (predicate_values view graph options predicate inverted).
Proof.
  intros Hp. split; [apply edge_range|]. intros focus cap Hfit. unfold predicate_values.
  set (p := if inverted then {| pat_graph := None; pat_subject := None; pat_predicate := Some predicate; pat_object := Some focus |}
            else {| pat_graph := None; pat_subject := Some focus; pat_predicate := Some predicate; pat_object := None |}).
  replace (if inverted then _ else _) with (scan view (Named graph) p) by by destruct inverted.
  assert (pattern_fit p) as Hpf by (unfold p; destruct inverted; by repeat constructor).
  eapply (walks_bind 0 (N.of_nat (size rows))); [apply walks_read, (av_scan (view := view) _ Hpf)| |lia].
  intros c (l & Hc & Hnd & Hl). assert (length l ≤ size rows) by (apply elem_rows_bound; [done|]; intros q Hq; by apply Hl).
  pose proof (pending_length _ _ _ _ _ Hc). eapply walks_weaken; [apply (edge_loop_walks _ _ _ _ _ l); [lia|done]|lia|].
  intros X HX. eapply good_ext; [|exact HX]. intros x. cbv beta. setoid_rewrite Hl. setoid_rewrite matches_true.
  rewrite elem_of_empty. unfold p, edge_value, dir, edge. clear. destruct inverted; cbn; split.
  1, 3: intros [?|(q & (Hq & _ & Hm1 & Hm2 & Hm3) & ->)]; [done|]; exists q; split_and!; [done|try symmetry; auto..].
  all: intros (q & Hq & <- & <- & <-); right; exists q; split_and!; try done; by intros ? [= <-].
Qed.

(** *** Alternatives and sequences *)

(** A list of paths, the walk of each and what is known of it. *)
Section lists.
Context (f : ResolvedPath → Walker) (R : ResolvedPath → relation TermId) (k : ResolvedPath → N).
Let oks (l : list ResolvedPath) : Prop := Forall (λ p, walker_ok false (k p) (R p) (f p)) l.
Let total (l : list ResolvedPath) : N := foldr N.add 0%N (map k l).

Lemma alternative_walks l focus cap out :
  TermId_fit focus → oks l →
  walks (total l) (alternative_loop (map f l) focus cap out)
    (good false cap (λ x, x ∈ out ∨ alt_rel (map R l) focus x)).
Proof.
  intros Hfit Hl. revert out. induction Hl as [|p l Hp Hl IH]; intros out.
  { apply walks_ret. split; [by left|]. by intros _ x [?|[]]. }
  cbn [map alternative_loop]. eapply (walks_bind (k p) (total l)); [by apply (wo_walks _ _ _ _ Hp)| |done].
  intros X [HX1 HX2]. destruct (cap_reached cap (out ∪ X)) eqn:Hcap.
  - apply walks_ret. split; [|by intros ->]. intros x [?|?%HX1]%elem_of_union; cbn; auto.
  - eapply walks_weaken; [apply IH|done|]. intros Y [HY1 HY2]. split.
    + intros x Hx%HY1. rewrite elem_of_union in Hx. cbn. naive_solver.
    + intros -> x. cbn. intros [Hx|[Hx|Hx]]; apply HY2; try done; rewrite elem_of_union; auto.
Qed.

Lemma alternative_range l a b : oks l → alt_rel (map R l) a b → b = a ∨ b ∈ nodes.
Proof.
  intros Hl (S & HS & Hab)%alt_rel_elem. apply list_elem_of_fmap in HS as (p & -> & Hp).
  unfold oks in Hl. rewrite Forall_forall in Hl. by apply (wo_range _ _ _ _ (Hl p Hp)).
Qed.

Lemma step_walks p final cap frontier next :
  walker_ok false (k p) (R p) (f p) → Forall TermId_fit frontier →
  walks (N.of_nat (length frontier) * k p) (step_loop (f p) final cap frontier next)
    (good false (if final then cap else None) (λ x, x ∈ next ∨ ∃ n, n ∈ frontier ∧ R p n x)).
Proof.
  intros Hp Hfit. revert next. induction Hfit as [|n frontier Hn Hfit IH]; intros next.
  { apply walks_ret. split; [by left|]. intros _ x [Hx|(n & ?%elem_of_nil & _)]; done. }
  eapply (walks_weaken _ _ _ (good _ _ (λ x, x ∈ next ∨ R p n x ∨ ∃ m, m ∈ frontier ∧ R p m x))); [|reflexivity|].
  2: { intros X. apply good_ext. intros x. setoid_rewrite elem_of_cons. clear. naive_solver. }
  cbn [step_loop length]. rewrite Nat2N.inj_succ, N.mul_succ_l, N.add_comm.
  eapply walks_bind; [by apply (wo_walks _ _ _ _ Hp)| |reflexivity].
  intros X [HX1 HX2]. destruct (final && cap_reached cap (next ∪ X)) eqn:Hcap.
  - apply walks_ret. apply andb_true_iff in Hcap as [-> Hcap]. split; [|by intros ->].
    intros x [?|?%HX1]%elem_of_union; auto.
  - eapply walks_weaken; [apply IH|done|]. intros Y [HY1 HY2]. split.
    + intros x Hx%HY1. rewrite elem_of_union in Hx. naive_solver.
    + intros Hc x Hx. apply HY2; [done|]. rewrite elem_of_union.
      destruct Hx as [Hx|[Hx|Hx]]; [by left; left| |by right].
      left; right. apply HX2; [|done]. destruct final; [by rewrite Hc|done].
Qed.

(** A frontier holds at most the focus and the nodes. *)
Lemma frontier_bound focus (F : gset TermId) :
  (∀ x, x ∈ F → x = focus ∨ x ∈ nodes) → (size F ≤ S (size nodes))%nat.
Proof.
  intros HF. transitivity (size ({[focus]} ∪ nodes)).
  - apply subseteq_size. intros x Hx%HF. rewrite elem_of_union, elem_of_singleton. done.
  - rewrite size_union_alt, size_singleton. pose proof (subseteq_size (nodes ∖ {[focus]}) nodes). set_solver by lia.
Qed.

Lemma sequence_walks l cap focus F :
  (∀ x, x ∈ F → x = focus ∨ x ∈ nodes) → TermId_fit focus → oks l →
  walks (N.of_nat (S (size nodes)) * total l) (sequence_loop (map f l) cap F)
    (good false cap (λ x, ∃ n, n ∈ F ∧ seq_rel (map R l) n x)).
Proof.
  intros HF Hfit Hl. revert F HF. induction Hl as [|p l Hp Hl IH]; intros F HF; cbn [map sequence_loop].
  { apply walks_ret. split; [intros x Hx; by exists x|]. by intros _ x (n & Hn & <-). }
  assert (Forall TermId_fit (btree_elems F)) as HFf.
  { apply Forall_forall. intros x [->|Hx]%elem_of_btree_elems%HF; [done|by apply nodes_fit]. }
  pose proof (frontier_bound focus F HF) as HFb.
  generalize (match map f l with [] => true | _ => false end). intros final.
  eapply (walks_bind (N.of_nat (size F) * k p) (N.of_nat (S (size nodes)) * total l)); [rewrite <- btree_elems_length; by apply step_walks| |].
  2: { unfold total. cbn [map foldr]. fold (total l). rewrite N.mul_add_distr_l; apply N.add_le_mono_r, N.mul_le_mono_r; lia. }
  intros X [HX1 HX2]. assert (∀ x, x ∈ X → ∃ n, n ∈ F ∧ R p n x) as HXF.
  { intros x [?%elem_of_empty|(n & Hn%elem_of_btree_elems & Hx)]%HX1; [done|eauto]. }
  assert (cap = None → ∀ n x, n ∈ F → R p n x → x ∈ X) as HXc.
  { intros -> n x Hn Hx. apply HX2; [by destruct final|]. right. exists n. by rewrite elem_of_btree_elems. }
  clear HX1 HX2. case_decide as HXe.
  - apply walks_ret. split.
    + intros x Hx. subst. by apply elem_of_empty in Hx.
    + intros Hc x (n & Hn & m & Hm & _). exfalso. apply (HXc Hc n m Hn) in Hm. subst. by apply elem_of_empty in Hm.
  - eapply walks_weaken; [apply IH|done|].
    + intros x (n & Hn & Hx)%HXF. destruct (wo_range _ _ _ _ Hp _ _ Hx) as [->|?]; auto.
    + intros Y [HY1 HY2]. split.
      * intros x (m & (n & Hn & Hm)%HXF & Hx)%HY1. exists n. split; [done|]. by exists m.
      * intros Hc x (n & Hn & m & Hm & Hx). apply HY2; [done|]. exists m. split; [|done]. by apply (HXc Hc n).
Qed.

Lemma sequence_range l a b : oks l → seq_rel (map R l) a b → b = a ∨ b ∈ nodes.
Proof.
  intros Hl. revert a. induction Hl as [|p l Hp Hl IH]; intros a; cbn; [by left|].
  intros (c & Hac & [->|?]%IH); [|by right]. by apply (wo_range _ _ _ _ Hp).
Qed.
End lists.

(** *** Repetition *)

Lemma note_values_spec cap vs (vis next out : gset TermId) :
  ∃ X, note_values cap vs (vis, next, out) = (X ∪ vis, X ∪ next, X ∪ out) ∧
    (∀ x, x ∈ X → x ∈ vs ∧ x ∉ vis) ∧
    (cap_reached cap (X ∪ out) = false → ∀ x, x ∈ vs → x ∈ X ∪ vis).
Proof.
  revert vis next out. induction vs as [|v vs IH]; intros vis next out; cbn [note_values].
  { exists ∅. rewrite !union_empty_l_L. split_and!; [done|by intros x ?%elem_of_empty|]. by intros _ x ?%elem_of_nil. }
  case_decide as Hv; [|destruct (cap_reached cap ({[v]} ∪ out)) eqn:Hcap].
  - destruct (IH vis next out) as (X & -> & HX1 & HX2). exists X. split_and!; [done| |].
    + intros x [? ?]%HX1. split; [by right|done].
    + intros Hc x [->|Hx]%elem_of_cons; [by apply elem_of_union_r|by apply HX2].
  - exists {[v]}. split_and!; [done| |by rewrite Hcap]. intros x ->%elem_of_singleton. split; [by left|done].
  - destruct (IH ({[v]} ∪ vis) ({[v]} ∪ next) ({[v]} ∪ out)) as (X & -> & HX1 & HX2). exists (X ∪ {[v]}).
    rewrite <- !union_assoc_L. split_and!; [done| |].
    + intros x [[Hx Hn]%HX1| ->%elem_of_singleton]%elem_of_union; [|by split; [left|]].
      split; [by right|]. intros Hvis. by apply Hn, elem_of_union_r.
    + intros Hc x [->|Hx]%elem_of_cons; [|by apply HX2]. apply elem_of_union_r, elem_of_union_l. by apply elem_of_singleton.
Qed.

Section repetition.
Context (k : N) (R : relation TermId) (w : Walker) (Hw : walker_ok false k R w) (cap : option nat).

(** What expanding a list of nodes adds to the three sets. *)
Definition expanded (fl : list TermId) (vis next out : gset TermId) (acc : gset TermId * gset TermId * gset TermId)
    : Prop :=
  ∃ X, acc = (X ∪ vis, X ∪ next, X ∪ out) ∧
    (∀ x, x ∈ X → (x ∉ vis) ∧ (∃ n, n ∈ fl ∧ R n x)) ∧
    (cap_reached cap (X ∪ out) = false → ∀ n x, n ∈ fl → R n x → x ∈ X ∪ vis).

Lemma expand_walks fl vis next out :
  Forall TermId_fit fl →
  walks (N.of_nat (length fl) * k) (expand w cap fl (vis, next, out)) (expanded fl vis next out).
Proof.
  intros Hfl. revert vis next out. induction Hfl as [|n fl Hn Hfl IH]; intros vis next out; cbn [expand].
  { apply walks_ret. exists ∅. rewrite !union_empty_l_L.
    split_and!; [done|by intros x ?%elem_of_empty|]. by intros _ n x ?%elem_of_nil. }
  cbn [length]. rewrite Nat2N.inj_succ, N.mul_succ_l, N.add_comm.
  eapply walks_bind; [by apply (wo_walks _ _ _ _ Hw n None)| |reflexivity].
  intros Y [HY1 HY2]. destruct (note_values_spec cap (btree_elems Y) vis next out) as (X & -> & HX1 & HX2).
  setoid_rewrite elem_of_btree_elems in HX1. setoid_rewrite elem_of_btree_elems in HX2. cbn [snd].
  assert (∀ x, x ∈ X → (x ∉ vis) ∧ R n x) as HXn by (intros x [? ?]%HX1; split; [done|by apply HY1]).
  destruct (cap_reached cap (X ∪ out)) eqn:Hcap.
  - apply walks_ret. exists X. split_and!; [done| |by rewrite Hcap].
    intros x [? ?]%HXn. split; [done|]. exists n. split; [by left|done].
  - eapply walks_weaken; [apply IH|done|]. intros acc (Z & -> & HZ1 & HZ2). exists (Z ∪ X).
    rewrite <- !union_assoc_L. split_and!; [done| |].
    + intros x [(Hx & m & Hm & Hmx)%HZ1|[Hx Hnx]%HXn]%elem_of_union.
      * split; [by intros ?; apply Hx, elem_of_union_r|]. exists m. split; [by right|done].
      * split; [done|]. exists n. split; [by left|done].
    + intros Hc m x [->|Hm]%elem_of_cons Hmx; [|by apply (HZ2 Hc m)].
      apply elem_of_union_r, (HX2 eq_refl). by apply HY2.
Qed.

Context (focus : TermId) (include_focus : bool) (Hfocus : TermId_fit focus).

Definition output_of (vis : gset TermId) : gset TermId := if include_focus then vis else vis ∖ {[focus]}.

(** Between two turns: [done] nodes are expanded, the frontier is the rest of
    the visited ones. *)
Record repeat_ok (depth : nat) (done vis out frontier : gset TermId) : Prop := {
  rp_split : vis = done ∪ frontier;
  rp_disjoint : done ## frontier;
  rp_focus : focus ∈ vis;
  rp_reached x : x ∈ vis → rtc R focus x;
  rp_out : out = output_of vis;
  rp_closed : cap_reached cap out = false → ∀ x y, x ∈ done → R x y → y ∈ vis;
  rp_depth : depth ≤ size done;
}.

Lemma reached_range x : rtc R focus x → x = focus ∨ x ∈ nodes.
Proof.
  revert x. apply (rtc_ind_r (λ x, x = focus ∨ x ∈ nodes)); [by left|]. intros y z _ Hyz IH.
  destruct (wo_range _ _ _ _ Hw _ _ Hyz) as [->|?]; [done|by right].
Qed.

Lemma repeat_bound depth done vis out frontier :
  repeat_ok depth done vis out frontier → size done + size frontier ≤ S (size nodes).
Proof.
  intros [-> Hd _ Hr _ _ _]. rewrite <- size_union by done. apply (frontier_bound focus). intros x Hx. by apply reached_range, Hr.
Qed.

Lemma output_union X vis : (∀ x, x ∈ X → x ∉ vis) → focus ∈ vis → X ∪ output_of vis = output_of (X ∪ vis).
Proof. intros HX Hf. unfold output_of. destruct include_focus; [done|]. set_solver. Qed.

Lemma repeat_expand depth done vis out frontier acc :
  repeat_ok depth done vis out frontier → frontier ≠ ∅ → cap_reached cap out = false →
  expanded (btree_elems frontier) vis ∅ out acc →
  repeat_ok (S depth) (done ∪ frontier) acc.1.1 acc.2 acc.1.2.
Proof.
  intros [Hs Hd Hf Hr Ho Hc Hz] Hne Hcap (X & -> & HX1 & HX2). cbn [fst snd]. rewrite union_empty_r_L.
  split.
  - rewrite Hs. by rewrite union_comm_L.
  - rewrite <- Hs. intros x Hx [Hn _]%HX1. done.
  - by apply elem_of_union_r.
  - intros x [[_ (n & Hn & Hnx)]%HX1|Hx]%elem_of_union; [|by apply Hr]. apply elem_of_btree_elems in Hn.
    eapply rtc_r; [apply Hr|exact Hnx]. rewrite Hs. by apply elem_of_union_r.
  - rewrite Ho. apply output_union; [|done]. by intros x [? _]%HX1.
  - intros Hcap' x y [Hx|Hx]%elem_of_union Hxy; [by apply elem_of_union_r, (Hc Hcap x)|].
    apply (HX2 Hcap' x); [by apply elem_of_btree_elems|done].
  - rewrite size_union by done. assert (size frontier ≠ 0) by by intros ?%size_empty_inv%leibniz_equiv. lia.
Qed.

Lemma repeat_done depth done vis out :
  repeat_ok depth done vis out ∅ →
  good true cap (λ x, rtc R focus x ∧ (include_focus = false → x ≠ focus)) out.
Proof.
  intros [Hs _ Hf Hr -> Hc _]. rewrite union_empty_r_L in Hs. subst done. split.
  - intros x Hx. unfold output_of in Hx. destruct include_focus; [by split; [apply Hr|]|].
    apply elem_of_difference in Hx as [Hx Hn]. split; [by apply Hr|]. intros _ ->. by apply Hn, elem_of_singleton.
  - intros Hcap x [Hx Hn]. assert (x ∈ vis) as Hvis.
    { clear Hn. revert x Hx. apply (rtc_ind_r (λ x, x ∈ vis)); [done|]. intros y z _ Hyz Hy. by apply (Hc Hcap y). }
    unfold output_of. destruct include_focus; [done|]. apply elem_of_difference. split; [done|].
    intros ->%elem_of_singleton. by apply Hn.
Qed.

Lemma repeat_sound depth done vis out frontier x :
  repeat_ok depth done vis out frontier → x ∈ out → rtc R focus x ∧ (include_focus = false → x ≠ focus).
Proof.
  intros [_ _ _ Hr -> _ _] Hx. unfold output_of in Hx. destruct include_focus; [by split; [apply Hr|]|].
  apply elem_of_difference in Hx as [Hx Hn]. split; [by apply Hr|]. intros _ ->. by apply Hn, elem_of_singleton.
Qed.

Lemma repeat_loop_walks fuel depth done vis out frontier :
  repeat_ok depth done vis out frontier → (max_path_depth options - depth < fuel)%nat →
  walks (N.of_nat (S (size nodes) - size done) * k) (repeat_loop options fuel w cap depth vis out frontier)
    (good true cap (λ x, rtc R focus x ∧ (include_focus = false → x ≠ focus))).
Proof.
  revert depth done vis out frontier. induction fuel as [|fuel IH]; intros depth done vis out frontier Hok Hfuel; [lia|].
  cbn [repeat_loop]. pose proof (repeat_bound _ _ _ _ _ Hok) as Hb.
  case_decide as He; [subst; by apply walks_ret, (repeat_done depth done vis)|].
  assert (size frontier ≠ 0) as Hne by by intros ?%size_empty_inv%leibniz_equiv.
  destruct (cap_reached cap out) eqn:Hcap.
  { apply walks_ret. split; [intros x; by apply (repeat_sound _ _ _ _ _ x Hok)|by rewrite Hcap]. }
  case_decide as Hdepth.
  { intros cx e Hcx He'. exists cx, e. eexists. split; [done|]. split_and!; try done. do 3 right. split; [done|].
    pose proof (rp_depth _ _ _ _ _ Hok). lia. }
  assert (Forall TermId_fit (btree_elems frontier)) as Hfit.
  { apply Forall_forall. intros x Hx%elem_of_btree_elems. destruct (reached_range x) as [->|?]; [|done|by apply nodes_fit].
    apply (rp_reached _ _ _ _ _ Hok). rewrite (rp_split _ _ _ _ _ Hok). by apply elem_of_union_r. }
  eapply walks_bind; [by apply expand_walks| |].
  - intros [[vis' next] out'] Hacc. pose proof (repeat_expand _ _ _ _ _ _ Hok He Hcap Hacc) as Hok'. cbn [fst snd] in Hok'.
    apply (IH (S depth) (done ∪ frontier)); [done|lia].
  - rewrite btree_elems_length, size_union by apply Hok. nia.
Qed.

Lemma repeat_walks :
  walks (N.of_nat (S (size nodes)) * k) (repeat options w include_focus focus cap)
    (good true cap (λ x, rtc R focus x ∧ (include_focus = false → x ≠ focus))).
Proof.
  pose proof (repeat_loop_walks (S (max_path_depth options)) 0 ∅ {[focus]} (if include_focus then {[focus]} else ∅)
    {[focus]}) as Hl. rewrite size_empty, Nat.sub_0_r in Hl. apply Hl; [|lia]. split.
  - by rewrite union_empty_l_L.
  - apply disjoint_empty_l.
  - by apply elem_of_singleton.
  - by intros x ->%elem_of_singleton.
  - unfold output_of. destruct include_focus; [done|]. by rewrite difference_diag_L.
  - by intros _ x y ?%elem_of_empty.
  - lia.
Qed.
End repetition.

(** *** Paths *)

Definition edges_of_graph : N := N.of_nat (size rows).
Definition nodes_of_walk : N := N.of_nat (S (size nodes)).

(** A bound on the edges a walk reads: a sequence may walk each of its steps
    from every node, a repetition walks its path once from every node. *)
Fixpoint path_cost (p : ResolvedPath) : N :=
  match p with
  | Predicate _ => edges_of_graph
  | Alternative paths => foldr N.add 0%N (map path_cost paths)
  | Sequence paths => nodes_of_walk * foldr N.add 0%N (map path_cost paths)
  | Inverse path | ZeroOrOne path => path_cost path
  | ZeroOrMore path | OneOrMore path => nodes_of_walk * path_cost path
  end.

Fixpoint path_predicates (p : ResolvedPath) : list TermId :=
  match p with
  | Predicate predicate => [predicate]
  | Alternative paths | Sequence paths => concat (map path_predicates paths)
  | Inverse path | ZeroOrMore path | OneOrMore path | ZeroOrOne path => path_predicates path
  end.
Definition path_fit (p : ResolvedPath) : Prop := Forall TermId_fit (path_predicates p).

(** The paths whose capped walks count exactly: the others pass their own cap
    less what they hold to walks that may return values they hold already. *)
Fixpoint cap_exact (p : ResolvedPath) : bool :=
  match p with
  | Predicate _ | ZeroOrMore _ | OneOrMore _ => true
  | Inverse path => cap_exact path
  | Alternative _ | Sequence _ | ZeroOrOne _ => false
  end.

Lemma walks_enter k e cap (m : pathm (gset TermId)) Y :
  walks k m (good e cap Y) →
  walks k (_ ⇐ liftr check_cancelled; if decide (cap = Some 0) then st_ret ∅ else m) (good e cap Y).
Proof.
  intros Hm. eapply (walks_bind 0 k); [apply walks_read, reads_check| |lia]. intros _ _.
  case_decide as Hc; [|done]. apply walks_ret. split; [by intros x ?%elem_of_empty|]. subst. by destruct e.
Qed.

Lemma zero_or_one_walks k R w focus cap :
  walker_ok false k R w → TermId_fit focus →
  walks k (zero_or_one w focus cap) (good false cap (λ x, x = focus ∨ R focus x)).
Proof.
  intros Hw Hf. unfold zero_or_one. case_decide as Hc.
  - apply walks_ret. split; [|by subst]. intros x ->%elem_of_singleton. by left.
  - eapply (walks_bind k 0); [by apply (wo_walks _ _ _ _ Hw)| |lia]. intros X [HX1 HX2]. apply walks_ret. split.
    + intros x. rewrite elem_of_union, elem_of_singleton. intros [?|?]; auto.
    + intros -> x. rewrite elem_of_union, elem_of_singleton. intros [?|?]; auto.
Qed.

Lemma walker_weaken e k R w : walker_ok e k R w → walker_ok false k R w.
Proof.
  intros [Hr Hw]. split; [done|]. intros focus cap Hf. eapply walks_weaken; [by apply Hw|done|].
  intros X. destruct e; [apply good_weaken|done].
Qed.

Lemma path_fit_all l : Forall TermId_fit (concat (map path_predicates l)) → Forall path_fit l.
Proof. induction l; cbn; [done|]. rewrite Forall_app. intros [? ?]. constructor; [done|auto]. Qed.

Lemma path_cost_rev l : foldr N.add 0%N (map path_cost (rev l)) = foldr N.add 0%N (map path_cost l).
Proof.
  apply (foldr_permutation_proper' eq N.add 0%N), Permutation_map. symmetry. apply Permutation_rev.
Qed.

(** The steps of a sequence in the order a walk takes them. *)
Lemma sequence_steps inverted l a b :
  seq_rel (map (λ p, dir inverted (values_rel rows p)) (if inverted then rev l else l)) a b ↔
  dir inverted (values_rel rows (Sequence l)) a b.
Proof. destruct inverted; [apply seq_rel_flip|done]. Qed.

Lemma walk_repeat_ok p inverted include_focus :
  walker_ok false (path_cost p) (dir inverted (values_rel rows p)) (walk view graph options p inverted) →
  walker_ok true (nodes_of_walk * path_cost p)
    (λ a b, rtc (dir inverted (values_rel rows p)) a b ∧ (include_focus = false → b ≠ a))
    (λ focus cap, _ ⇐ liftr check_cancelled;
       if decide (cap = Some 0) then st_ret ∅
       else repeat options (walk view graph options p inverted) include_focus focus cap).
Proof.
  intros Hw. split; [intros a b [Hab _]; by apply (reached_range _ _ _ Hw)|].
  intros focus cap Hf. apply walks_enter. by apply repeat_walks.
Qed.

Lemma walker_ext e k R R' w : (∀ a b, R a b ↔ R' a b) → walker_ok e k R w → walker_ok e k R' w.
Proof.
  intros HR [Hr Hw]. split; [intros a b; rewrite <- HR; apply Hr|]. intros focus cap Hf.
  eapply walks_weaken; [by apply Hw|done|]. intros X. apply good_ext. intros x. apply HR.
Qed.

Lemma dir_rtc inverted R a b : rtc (dir inverted R) a b ↔ dir inverted (rtc R) a b.
Proof. destruct inverted; [apply rtc_flip|done]. Qed.

Definition path_ok (exact : bool) (p : ResolvedPath) (inverted : bool) : Prop :=
  walker_ok exact (path_cost p) (dir inverted (values_rel rows p)) (walk view graph options p inverted).

Lemma alternative_ok l inverted : Forall (λ p, path_ok false p inverted) l → path_ok false (Alternative l) inverted.
Proof.
  intros Hl. pose proof (alt_rel_dir inverted (values_rel rows) l) as Hdir. split.
  - intros a b Hab. apply Hdir in Hab. exact (alternative_range _ _ _ l a b Hl Hab).
  - intros focus cap Hf. apply walks_enter. eapply walks_weaken; [exact (alternative_walks _ _ _ l focus cap ∅ Hf Hl)|done|].
    intros X. apply good_ext. intros x. rewrite elem_of_empty, Hdir. unfold values_rel. cbn [rel_with]. tauto.
Qed.

Lemma sequence_ok l inverted : Forall (λ p, path_ok false p inverted) l → path_ok false (Sequence l) inverted.
Proof.
  intros Hl. pose proof (sequence_steps inverted l) as Hdir. set (l' := if inverted then rev l else l) in *.
  assert (Forall (λ p, path_ok false p inverted) l') as Hl'.
  { unfold l'. destruct inverted; [|done]. by apply Forall_rev. }
  split.
  - intros a b Hab. apply Hdir in Hab. exact (sequence_range _ _ _ l' a b Hl' Hab).
  - intros focus cap Hf. apply walks_enter.
    set (f := λ p, walk view graph options p inverted).
    match goal with |- walks ?k _ ?P =>
      change (walks k (sequence_loop (if inverted then rev (map f l) else map f l) cap {[focus]}) P) end.
    replace (if inverted then rev _ else _) with (map f l') by (unfold l'; destruct inverted; by rewrite ?map_rev).
    eapply walks_weaken; [refine (sequence_walks _ _ _ l' cap focus {[focus]} _ Hf Hl')| |].
    + intros x ->%elem_of_singleton. by left.
    + unfold l'. destruct inverted; [by rewrite path_cost_rev|done].
    + intros X. apply good_ext. intros x. rewrite <- Hdir. setoid_rewrite elem_of_singleton. split; [by intros (n & -> & ?)|eauto].
Qed.

(** A walk of a path, in either direction. *)
Lemma walk_ok p inverted : path_fit p → path_ok (cap_exact p) p inverted.
Proof.
  revert inverted. induction p as [i|l IH|l IH|p IH|p IH|p IH|p IH] using path_ind; intros inverted Hfit.
  2, 3: assert (Forall (λ p, path_ok false p inverted) l)
    by (apply path_fit_all in Hfit; rewrite Forall_forall in *; intros p Hp; eapply walker_weaken, IH; auto).
  - destruct (predicate_walker i inverted (proj1 (Forall_singleton _ _) Hfit)) as [Hr Hw].
    split; [done|]. intros focus cap Hf. apply walks_enter, Hw, Hf.
  - by apply alternative_ok.
  - by apply sequence_ok.
  - specialize (IH (negb inverted) Hfit). split.
    + intros a b Hab. apply (wo_range _ _ _ _ IH). by destruct inverted.
    + intros focus cap Hf. apply walks_enter. eapply walks_weaken; [by apply (wo_walks _ _ _ _ IH)|done|].
      intros X. apply good_ext. intros x. by destruct inverted.
  - eapply walker_ext, (walk_repeat_ok p inverted true); [|eapply walker_weaken, (IH inverted Hfit)].
    intros a b. cbv beta. rewrite dir_rtc. unfold dir. cbn. destruct inverted; cbn; naive_solver.
  - eapply walker_ext, (walk_repeat_ok p inverted false); [|eapply walker_weaken, (IH inverted Hfit)].
    intros a b. cbv beta. rewrite dir_rtc. unfold values_rel. cbn [rel_with]. fold (values_rel rows p).
    unfold dir, flip, proper_plus. destruct inverted.
    all: split; intros [? Hn]; (split; [done|]); [intros ->; by apply Hn|intros _ ->; by apply Hn].
  - specialize (IH inverted Hfit). apply walker_weaken in IH. split.
    + intros a b Hab. assert (b = a ∨ dir inverted (values_rel rows p) a b) as [->|?] by (destruct inverted; naive_solver); [by left|].
      by apply (wo_range _ _ _ _ IH).
    + intros focus cap Hf. apply walks_enter. eapply walks_weaken; [by apply (zero_or_one_walks _ _ _ _ _ IH)|done|].
      intros X. apply good_ext. intros x. destruct inverted; naive_solver.
Qed.

End walks.

(** ** SPARQL's reading of a path *)

Fixpoint plus_free (p : ResolvedPath) : bool :=
  match p with
  | Predicate _ => true
  | Alternative paths | Sequence paths => forallb plus_free paths
  | Inverse path | ZeroOrMore path | ZeroOrOne path => plus_free path
  | OneOrMore _ => false
  end.

Lemma alt_rel_mono (f g : ResolvedPath → relation TermId) l a b :
  Forall (λ p, ∀ a b, f p a b → g p a b) l → alt_rel (map f l) a b → alt_rel (map g l) a b.
Proof. induction 1; cbn; [done|]. naive_solver. Qed.
Lemma seq_rel_mono (f g : ResolvedPath → relation TermId) l a b :
  Forall (λ p, ∀ a b, f p a b → g p a b) l → seq_rel (map f l) a b → seq_rel (map g l) a b.
Proof. intros Hl. revert a. induction Hl; intros a; cbn; [done|]. naive_solver. Qed.
Lemma rtc_mono (R S : relation TermId) a b : (∀ a b, R a b → S a b) → rtc R a b → rtc S a b.
Proof. intros HRS. induction 1; [done|]. eapply rtc_l; eauto. Qed.
Lemma rtc_proper (R : relation TermId) a b : rtc R a b → b ≠ a → tc R a b.
Proof. intros [->|?]%rtc_tc; done. Qed.

(** What a walk yields is a value in SPARQL's sense. *)
Lemma values_rel_sound rows p a b : values_rel rows p a b → path_rel rows p a b.
Proof.
  unfold values_rel, path_rel. revert a b.
  induction p as [i|l IH|l IH|p IH|p IH|p IH|p IH] using path_ind; intros a b; cbn [rel_with].
  - done.
  - by apply alt_rel_mono.
  - by apply seq_rel_mono.
  - apply IH.
  - by apply rtc_mono.
  - intros [Hab Hne]. apply rtc_proper; [|done]. by eapply rtc_mono.
  - intros [?|?]; [by left|right; auto].
Qed.

Lemma plus_free_all l : forallb plus_free l = true → Forall (λ p, plus_free p = true) l.
Proof. intros Hl. apply Forall_forall. rewrite forallb_forall in Hl. intros p Hp%list_elem_of_In. by apply Hl. Qed.

Lemma values_rel_complete rows p a b : plus_free p = true → path_rel rows p a b → values_rel rows p a b.
Proof.
  unfold values_rel, path_rel. revert a b.
  induction p as [i|l IH|l IH|p IH|p IH|p IH|p IH] using path_ind; intros a b Hp; cbn [rel_with plus_free] in *.
  - done.
  - apply plus_free_all in Hp. apply alt_rel_mono. rewrite Forall_forall in *. auto.
  - apply plus_free_all in Hp. apply seq_rel_mono. rewrite Forall_forall in *. auto.
  - by apply IH.
  - apply rtc_mono. auto.
  - done.
  - intros [?|?]; [by left|right; auto].
Qed.

(** ** The values and the counts of a path *)

Section paths.
Context `{Blake3} {V : Type} `{RdfReadView V} (view : V) (sn : Snapshot) (scope : GraphVisibility).
Context (validating : option TermId) (graph : TermId) (rows : gset EncodedQuad) (options : PathOptions).
Context `{Hview : !AnswersView view sn scope validating graph rows}.

Lemma values_walks focus p cap :
  path_fit p → TermId_fit focus →
  walks sn scope validating rows options (path_cost rows p) (values view graph options focus p cap)
    (good (cap_exact p) cap (values_rel rows p focus)).
Proof. intros Hp Hf. by apply (wo_walks _ _ _ _ _ _ _ _ _ (walk_ok view sn scope validating graph rows options p false Hp)). Qed.

Lemma good_subset e cap (Y : TermId → Prop) X (S : gset TermId) :
  good e cap Y X → (∀ x, x ∈ S ↔ Y x) → (size X ≤ size S)%nat.
Proof. intros [HX _] HS. apply subseteq_size. intros x Hx. by apply HS, HX. Qed.

(** Below its cap an exact walk has all values. *)
Lemma good_size e cap (Y : TermId → Prop) X (S : gset TermId) :
  good e cap Y X → (∀ x, x ∈ S ↔ Y x) →
  match e with true => cap_reached cap X = false | false => cap = None end → size X = size S.
Proof.
  intros [HX1 HX2] HS Hc. f_equal. apply set_eq. intros x. rewrite HS. split; [apply HX1|by apply HX2].
Qed.
End paths.

(** C36: A walk without a cap returns exactly the values of its path: what
    SPARQL's reading of the path relates to the focus in the data graph, except
    that a [OneOrMore] does not return the node it starts from.  The walk
    always returns: its other outcomes are [Cancelled], a budget of edges below
    the bound [path_cost] and a budget of depth not above the number of
    nodes. *)
Theorem path_values_exact `{Blake3} {V : Type} `{RdfReadView V} (view : V) sn scope validating graph rows options
    `{!AnswersView view sn scope validating graph rows} focus p :
  path_fit p → TermId_fit focus →
  walks sn scope validating rows options (path_cost rows p) (values view graph options focus p None)
    (λ X, (∀ x, x ∈ X ↔ values_rel rows p focus x) ∧ (∀ x, x ∈ X → path_rel rows p focus x) ∧
          (plus_free p = true → ∀ x, path_rel rows p focus x → x ∈ X)).
Proof.
  intros Hp Hf. eapply walks_weaken; [by apply values_walks|done|]. intros X [HX1 HX2].
  assert (∀ x, values_rel rows p focus x → x ∈ X) as HX by (apply HX2; by destruct (cap_exact p)).
  split_and!; [by split; auto|intros x Hx; by apply values_rel_sound, HX1|].
  intros Hpf x Hx. by apply HX, values_rel_complete.
Qed.

(** C37: Of a path whose capped walks are exact -- a predicate, its inverse, a
    repetition -- the constraints on the number of values hold exactly when
    the path has that many values, although their walks stop at the count they
    need. *)
Theorem counts_exact `{Blake3} {V : Type} `{RdfReadView V} (view : V) sn scope validating graph rows options
    `{!AnswersView view sn scope validating graph rows} focus p n (Y : gset TermId) :
  path_fit p → TermId_fit focus → cap_exact p = true → (∀ x, x ∈ Y ↔ values_rel rows p focus x) →
  walks sn scope validating rows options (path_cost rows p) (min_count_conforms view graph options focus p n)
    (λ b, b = true ↔ n ≤ size Y) ∧
  walks sn scope validating rows options (path_cost rows p) (max_count_conforms view graph options focus p n)
    (λ b, b = true ↔ size Y ≤ n).
Proof.
  intros Hp Hf He HY.
  assert (∀ cap, walks sn scope validating rows options (path_cost rows p) (values view graph options focus p cap)
    (good true cap (values_rel rows p focus))) as Hw by (intros cap; rewrite <- He; by apply values_walks).
  unfold min_count_conforms, max_count_conforms.
  split; (eapply (walks_bind _ _ _ _ _ (path_cost rows p) 0); [apply Hw| |lia]); intros X HX; apply walks_ret;
    rewrite bool_decide_eq_true; pose proof (good_subset _ _ _ _ _ HX HY) as Hle; pose proof (good_size _ _ _ _ _ HX HY) as Hsz.
  - split; [lia|]. intros Hn. destruct (decide (n ≤ size X)) as [|Hx]; [done|]. rewrite Hsz; [done|].
    cbn. by apply bool_decide_eq_false.
  - split; [|lia]. intros Hn. rewrite <- Hsz; [done|]. case_decide; [|done]. cbn. apply bool_decide_eq_false. lia.
Qed.

(** ** Concrete inputs *)

Section witness.
Import DemoBlake3.
#[local] Open Scope N_scope.

(** Node 10 has the values 11 by predicate 5, and 11 and 12 by predicate 6;
    node 20 is its own value by predicate 5. *)
Let row (s p o : N) : EncodedQuad := {| quad_graph := 1; quad_subject := s; quad_predicate := p; quad_object := o |}.
Let dots : list Dot := [{| dot_actor := 1; dot_counter := 1 |}].
Let st1 : Store :=
  {| terms := {[1 := from_named_node "urn:g"]};
     quads := list_to_map [(row 10 5 11, dots); (row 10 6 11, dots); (row 10 6 12, dots); (row 20 5 20, dots)];
     graph_metas := {[1 := StoredGraphMeta_default]}; graph_clocks := ∅; graph_tombstones := ∅;
     deleted_policies := ∅; log_heads := ∅ |}.
Let view1 : StoreReadView :=
  {| snapshot := {| sn_store := st1; sn_diagnostics := ∅; sn_views := no_views; sn_seqno := 0 |}; read_mode := Auto |}.
Let options1 : PathOptions := {| max_path_edges := 1000; max_path_depth := 64 |}.
Let scope1 : GraphVisibility := Exact {[1]}.
Let cx1 : ReadContext :=
  {| visibility := scope1; validation_graph := Some 1; graph_visibility := ∅; orphaned := ∅; checks_left := None |}.
Let run {A} (m : pathm A) : outcome PathError A := (m (cx1, 0)).2.

(** A capped alternative asks its second path for as many values as the first
    has left to find; a value both have is counted once and not replaced. *)
Lemma capped_alternative_undercounts :
  let p := Alternative [Predicate 5; Predicate 6] in
  run (values view1 1 options1 10 p None) = Ok {[11; 12]} ∧
  run (min_count_conforms view1 1 options1 10 p 2) = Ok false ∧
  run (max_count_conforms view1 1 options1 10 p 1) = Ok true.
Proof. split_and!; by vm_compute. Qed.

(** A node that reaches itself by its path is a value of [OneOrMore] and not
    of its walk. *)
Lemma one_or_more_misses_cycle :
  run (values view1 1 options1 20 (OneOrMore (Predicate 5)) None) = Ok ∅ ∧
  path_rel (live_set st1) (OneOrMore (Predicate 5)) 20 20.
Proof.
  split; [by vm_compute|]. apply tc_once. by exists (row 20 5 20).
Qed.

Lemma demo_sound : snapshot_sound (snapshot view1).
Proof.
  split.
  - intros g Hg. unfold contains_graph_id in Hg. apply bool_decide_eq_true in Hg as [mt Hm].
    cbn in Hm. apply lookup_singleton_Some in Hm as [<- _]. by eexists.
  - intros t t' Ht Hl. exfalso. cbn [view1 snapshot sn_store st1 terms] in Hl.
    apply lookup_singleton_Some in Hl as [Hh _].
    destruct Ht as [Ht|(g & r & Hr & _)]; [|by cbn in Hr; apply lookup_empty_Some in Hr].
    cbn in Ht. rewrite !elem_of_cons in Ht. destruct Ht as [->|[->|[->|[->|Ht]]]]; [by vm_compute in Hh..|].
    by apply elem_of_nil in Ht.
  - by exists (untrusted "metadata-missing").
Qed.

Lemma demo_live q : q ∈ live_set st1 ↔ q ∈ [row 10 5 11; row 10 6 11; row 10 6 12; row 20 5 20].
Proof.
  rewrite <- elem_of_elements. assert (elements (live_set st1) ≡ₚ [row 10 5 11; row 10 6 11; row 10 6 12; row 20 5 20]) as ->; [|done].
  apply NoDup_Permutation; [apply NoDup_elements|by apply (bool_decide_unpack _); vm_compute|].
  intros r. split; intros Hr; revert r Hr; apply Forall_forall; by apply (bool_decide_unpack _); vm_compute.
Qed.

Lemma demo_rows : ∃ rows, AnswersView view1 (snapshot view1) scope1 (Some 1) 1 rows ∧
  ∀ q, q ∈ rows ↔ q ∈ [row 10 5 11; row 10 6 11; row 10 6 12; row 20 5 20].
Proof.
  destruct (store_answers_rows view1 scope1 (Some 1) 1 demo_sound) as (rows & Hv & Hr).
  - done.
  - intros a _. done.
  - intros q Hq%demo_live. revert q Hq. by apply Forall_forall; repeat constructor.
  - exists rows. split; [done|]. intros q. rewrite Hr. unfold answers. change (sn_store (snapshot view1)) with st1. rewrite demo_live. split; [by intros []|].
    intros Hq. split; [done|]. revert q Hq. apply Forall_forall. by repeat constructor.
Qed.

Lemma path_values_exact_witness :
  ∃ rows, AnswersView view1 (snapshot view1) scope1 (Some 1) 1 rows ∧
    walks (snapshot view1) scope1 (Some 1) rows options1 (path_cost rows (OneOrMore (Predicate 6)))
      (values view1 1 options1 10 (OneOrMore (Predicate 6)) None)
      (λ X, (∀ x, x ∈ X ↔ values_rel rows (OneOrMore (Predicate 6)) 10 x) ∧
            (∀ x, x ∈ X → path_rel rows (OneOrMore (Predicate 6)) 10 x) ∧
            (false = true → ∀ x, path_rel rows (OneOrMore (Predicate 6)) 10 x → x ∈ X)).
Proof.
  destruct demo_rows as (rows & Hv & _). exists rows. split; [exact Hv|].
  apply (path_values_exact view1 _ _ _ 1 rows options1 10 (OneOrMore (Predicate 6))); by repeat constructor.
Defined.

Lemma demo_values rows x :
  (∀ q, q ∈ rows ↔ q ∈ [row 10 5 11; row 10 6 11; row 10 6 12; row 20 5 20]) →
  x ∈ ({[11; 12]} : gset N) ↔ values_rel rows (Predicate 6) 10 x.
Proof.
  intros Hr. unfold values_rel. cbn [rel_with]. unfold edge. setoid_rewrite Hr.
  rewrite elem_of_union, !elem_of_singleton. split.
  - intros [->| ->]; [exists (row 10 6 11)|exists (row 10 6 12)]; split_and!; try done; set_solver.
  - intros (q & Hq & Hs & Hp & <-). repeat (apply elem_of_cons in Hq as [->|Hq]; [by auto|]). by apply elem_of_nil in Hq.
Qed.

Lemma counts_exact_witness :
  ∃ rows, AnswersView view1 (snapshot view1) scope1 (Some 1) 1 rows ∧
    walks (snapshot view1) scope1 (Some 1) rows options1 (path_cost rows (Predicate 6))
      (min_count_conforms view1 1 options1 10 (Predicate 6) 2) (λ b, b = true ↔ 2 ≤ 2)%nat.
Proof.
  destruct demo_rows as (rows & Hv & Hr). exists rows. split; [exact Hv|].
  refine (proj1 (counts_exact view1 _ _ _ 1 rows options1 10 (Predicate 6) 2 {[11; 12]} _ _ eq_refl _)).
  - by repeat constructor.
  - done.
  - intros x. by apply demo_values.
Defined.
End witness.
