(* ===== verification/ShaclTerms.v ===== *)
(** * Term metadata for SHACL ([src/internal/shacl/term_meta.rs],
    [src/internal/shacl/constraints.rs])

    What a validation looks at in a term: its kind, datatype, language, lexical
    form and the value it compares by.  The data types of [oxsdatatypes] are
    not code of the repository: [Oxsd] lists what is used of them.  Texts are
    bytes (UTF-8). *)

From S2P Require Import Prelude Clock Terms Store.

(** ** The interface of [oxsdatatypes] *)

Class Oxsd `{Oxrdf} := {
  literal_datatype : Literal → bytes;
  Integer : Type;
  Decimal : Type;
  Float : Type;
  Double : Type;
  DateTime : Type;
  Date : Type;
  Time : Type;
  integer_from_str : bytes → option Integer;
  decimal_from_str : bytes → option Decimal;
  float_from_str : bytes → option Float;
  double_from_str : bytes → option Double;
  date_time_from_str : bytes → option DateTime;
  date_from_str : bytes → option Date;
  time_from_str : bytes → option Time;
  integer_cmp : Integer → Integer → option comparison;
  decimal_cmp : Decimal → Decimal → option comparison;
  float_cmp : Float → Float → option comparison;
  double_cmp : Double → Double → option comparison;
  date_time_cmp : DateTime → DateTime → option comparison;
  date_cmp : Date → Date → option comparison;
  time_cmp : Time → Time → option comparison;
  decimal_of_integer : Integer → Decimal;
  float_of_integer : Integer → Float;
  float_of_decimal : Decimal → Float;
  double_of_integer : Integer → Double;
  double_of_decimal : Decimal → Double;
  double_of_float : Float → Double;
}.

(** ** Definitions *)

Inductive TermKind := KindIri | KindBlankNode | KindLiteral.
#[export] Instance term_kind_eq_dec : EqDecision TermKind.
Proof. solve_decision. Defined.

Section meta.
Context `{Oxrdf, !Oxsd} `{Blake3}.

Inductive ComparableValue :=
  | CString (value : bytes) (language : option bytes)
  | CInteger (value : Integer)
  | CDecimal (value : Decimal)
  | CFloat (value : Float)
  | CDouble (value : Double)
  | CDateTime (value : DateTime)
  | CDate (value : Date)
  | CTime (value : Time).

Record TermMeta := {
  kind : TermKind;
  datatype : option TermId;
  language : option bytes;
  lexical : option bytes;
  lexical_length : nat;
  comparable_value : option ComparableValue;
}.

(** [str::chars().count()]: every byte but the continuation bytes. *)
Definition chars_count (l : bytes) : nat := length (filter (λ b, (b < 128 ∨ 192 ≤ b)%N) l).

Definition XSD : bytes := string_bytes "http://www.w3.org/2001/XMLSchema#".
Definition one_of (l : bytes) (names : list string) : bool := bool_decide (l ∈ string_bytes <$> names).

Definition comparable (datatype lexical : bytes) (language : option bytes) : option ComparableValue :=
  match strip_prefix XSD datatype with
  | Some name =>
      if one_of name ["integer"; "long"; "int"; "short"; "byte"; "nonPositiveInteger"; "negativeInteger";
                      "nonNegativeInteger"; "positiveInteger"; "unsignedLong"; "unsignedInt"; "unsignedShort";
                      "unsignedByte"]%string
      then CInteger <$> integer_from_str lexical
      else if one_of name ["decimal"%string] then CDecimal <$> decimal_from_str lexical
      else if one_of name ["float"%string] then CFloat <$> float_from_str lexical
      else if one_of name ["double"%string] then CDouble <$> double_from_str lexical
      else if one_of name ["dateTime"; "dateTimeStamp"]%string then CDateTime <$> date_time_from_str lexical
      else if one_of name ["date"%string] then CDate <$> date_from_str lexical
      else if one_of name ["time"%string] then CTime <$> time_from_str lexical
      else if one_of name ["string"%string] then Some (CString lexical None)
      else None
  | None => match language with Some _ => Some (CString lexical language) | None => None end
  end.

Definition comparable_cmp (l r : ComparableValue) : option comparison :=
  match l, r with
  | CString l l_language, CString r r_language =>
      if decide (l_language = r_language) then Some (cmp l r) else None
  | CInteger l, CInteger r => integer_cmp l r
  | CInteger l, CDecimal r => decimal_cmp (decimal_of_integer l) r
  | CDecimal l, CInteger r => decimal_cmp l (decimal_of_integer r)
  | CDecimal l, CDecimal r => decimal_cmp l r
  | CFloat l, CFloat r => float_cmp l r
  | CFloat l, CDouble r => double_cmp (double_of_float l) r
  | CFloat l, CInteger r => float_cmp l (float_of_integer r)
  | CFloat l, CDecimal r => float_cmp l (float_of_decimal r)
  | CDouble l, CFloat r => double_cmp l (double_of_float r)
  | CDouble l, CDouble r => double_cmp l r
  | CDouble l, CInteger r => double_cmp l (double_of_integer r)
  | CDouble l, CDecimal r => double_cmp l (double_of_decimal r)
  | CInteger l, CFloat r => float_cmp (float_of_integer l) r
  | CInteger l, CDouble r => double_cmp (double_of_integer l) r
  | CDecimal l, CFloat r => float_cmp (float_of_decimal l) r
  | CDecimal l, CDouble r => double_cmp (double_of_decimal l) r
  | CDateTime l, CDateTime r => date_time_cmp l r
  | CDate l, CDate r => date_cmp l r
  | CTime l, CTime r => time_cmp l r
  | _, _ => None
  end.

Definition meta_cmp (l r : TermMeta) : option comparison :=
  a ← comparable_value l; b ← comparable_value r; comparable_cmp a b.

(** [EncodedTerm::from_named_node] of a datatype's IRI. *)
Definition datatype_id (iri : bytes) : TermId := hash_term (from_named_node (bytes_string iri)).

Definition term_meta (t : Term) : TermMeta :=
  match t with
  | NamedNode iri =>
      {| kind := KindIri; datatype := None; language := None; lexical := Some iri;
         lexical_length := chars_count iri; comparable_value := Some (CString iri None) |}
  | BlankNode _ =>
      {| kind := KindBlankNode; datatype := None; language := None; lexical := None; lexical_length := 0;
         comparable_value := None |}
  | LiteralTerm literal =>
      let value := literal_value literal in
      let lang := to_ascii_lowercase <$> literal_language literal in
      {| kind := KindLiteral; datatype := Some (datatype_id (literal_datatype literal)); language := lang;
         lexical := Some value; lexical_length := chars_count value;
         comparable_value := comparable (literal_datatype literal) value lang |}
  end.

Definition from_encoded {E} (t : EncodedTerm) : outcome E (option TermMeta) :=
  (λ term : option Term, term_meta <$> term) <$> to_term t.

(** [language_matches]: the range [*], the tag itself, or a prefix of it that
    ends at a hyphen. *)
Definition language_matches (language : bytes) (ranges : list bytes) : bool :=
  let language := to_ascii_lowercase language in
  existsb (λ range,
    bool_decide (range = string_bytes "*") || bool_decide (language = range) ||
    match strip_prefix range language with
    | Some suffix => starts_with (string_bytes "-") suffix
    | None => false
    end) ranges.
End meta.

Inductive NodeKindPlan := NkIri | NkLiteral | NkBlankNode | NkBlankOrIri | NkBlankOrLiteral | NkIriOrLiteral.

Definition node_kind_matches (expected : NodeKindPlan) (actual : option TermKind) : bool :=
  match expected with
  | NkIri => bool_decide (actual = Some KindIri)
  | NkLiteral => bool_decide (actual = Some KindLiteral)
  | NkBlankNode => bool_decide (actual = Some KindBlankNode)
  | NkBlankOrIri => bool_decide (actual = Some KindBlankNode ∨ actual = Some KindIri)
  | NkBlankOrLiteral => bool_decide (actual = Some KindBlankNode ∨ actual = Some KindLiteral)
  | NkIriOrLiteral => bool_decide (actual = Some KindIri ∨ actual = Some KindLiteral)
  end.

(** ** A concrete instance *)

Module DemoOxsd.
Import DemoOxrdf.

(** Data types that parse nothing. *)
#[export] Instance demo_oxsd : Oxsd := {
  literal_datatype l :=
    match l with
    | LTyped _ dt => dt
    | LLang _ _ => string_bytes "http://www.w3.org/1999/02/22-rdf-syntax-ns#langString"
    | LSimple _ => string_bytes "http://www.w3.org/2001/XMLSchema#string"
    end;
  Integer := (); Decimal := (); Float := (); Double := (); DateTime := (); Date := (); Time := ();
  integer_from_str _ := None; decimal_from_str _ := None; float_from_str _ := None; double_from_str _ := None;
  date_time_from_str _ := None; date_from_str _ := None; time_from_str _ := None;
  integer_cmp _ _ := None; decimal_cmp _ _ := None; float_cmp _ _ := None; double_cmp _ _ := None;
  date_time_cmp _ _ := None; date_cmp _ _ := None; time_cmp _ _ := None;
  decimal_of_integer _ := (); float_of_integer _ := (); float_of_decimal _ := (); double_of_integer _ := ();
  double_of_decimal _ := (); double_of_float _ := ();
}.
End DemoOxsd.
