(* ===== verification/ShaclModel.v ===== *)
(** * SHACL plans ([src/internal/shacl/model.rs],
    [src/internal/shacl/dependencies.rs])

    What the compiler makes of shapes: their targets, paths, constraints and
    nested shapes, and what of a graph each of them reads.  Hashes and size
    estimates of plans are left out. *)

From S2P Require Import Prelude Clock Terms Store ShaclTerms.
#[local] Open Scope craqle_scope.

(** ** Plans *)

(** [ShapeId]: the place of a shape in its schema. *)
Abbreviation ShapeId := nat (only parsing).

Inductive PathPlan :=
  | PlanPredicate (predicate : EncodedTerm)
  | PlanAlternative (paths : list PathPlan)
  | PlanSequence (paths : list PathPlan)
  | PlanInverse (path : PathPlan)
  | PlanZeroOrMore (path : PathPlan)
  | PlanOneOrMore (path : PathPlan)
  | PlanZeroOrOne (path : PathPlan).

Inductive SeverityPlan := Trace | Debug | Info | Warning | Violation | Custom (term : EncodedTerm).
Inductive ShapeKind := NodeShape | PropertyShape.
#[export] Instance shape_kind_eq_dec : EqDecision ShapeKind.
Proof. solve_decision. Defined.

(** [MessagePlan], and the [ShaclMessage] made of it. *)
Record ShaclMessage := { message_language : option string; message_text : string }.

Inductive TargetPlan :=
  | PlanNode (node : EncodedTerm)
  | PlanClass (class : EncodedTerm)
  | PlanSubjectsOf (predicate : EncodedTerm)
  | PlanObjectsOf (predicate : EncodedTerm)
  | PlanImplicitClass (class : EncodedTerm).

Inductive ConstraintPlan :=
  | KClass (class : EncodedTerm)
  | KDatatype (datatype : EncodedTerm)
  | KNodeKind (kind : NodeKindPlan)
  | KMinCount (minimum : nat)
  | KMaxCount (maximum : nat)
  | KMinExclusive (boundary : EncodedTerm)
  | KMaxExclusive (boundary : EncodedTerm)
  | KMinInclusive (boundary : EncodedTerm)
  | KMaxInclusive (boundary : EncodedTerm)
  | KMinLength (minimum : nat)
  | KMaxLength (maximum : nat)
  | KPattern (pattern : string) (flags : option string)
  | KUniqueLang (required : bool)
  | KLanguageIn (languages : list string)
  | KEquals (predicate : EncodedTerm)
  | KDisjoint (predicate : EncodedTerm)
  | KLessThan (predicate : EncodedTerm)
  | KLessOrEqual (predicate : EncodedTerm)
  | KOr (shapes : list ShapeId)
  | KAnd (shapes : list ShapeId)
  | KNot (shape : ShapeId)
  | KXone (shapes : list ShapeId)
  | KNode (shape : ShapeId)
  | KHasValue (expected : EncodedTerm)
  | KIn (allowed : list EncodedTerm)
  | KQualified (shape : ShapeId) (min_count max_count : option nat) (disjoint : bool) (siblings : list ShapeId)
  | KClosed (ignored_properties : list EncodedTerm).

Record ShapeDependencies := {
  forward_predicates : list EncodedTerm;
  inverse_predicates : list EncodedTerm;
  target_classes : list EncodedTerm;
  nested_shapes : list ShapeId;
  reads_rdf_type : bool;
  reads_all_predicates : bool;
  has_transitive_path : bool;
  requires_global_work : bool;
}.

Record CompiledShape := {
  shape_id : ShapeId;
  label : EncodedTerm;
  shape_kind : ShapeKind;
  plan_targets : list TargetPlan;
  plan_path : option PathPlan;
  plan_constraints : list ConstraintPlan;
  property_shapes : list ShapeId;
  severity : SeverityPlan;
  shape_messages : list ShaclMessage;
  deactivated : bool;
  dependencies : ShapeDependencies;
}.

(** ** Dependencies *)

(** The sets [analyze] gathers. *)
Record Dependencies := {
  forward : gset EncodedTerm;
  inverse : gset EncodedTerm;
  classes : gset EncodedTerm;
  nested : gset ShapeId;
  rdf_type_read : bool;
  all_outgoing : bool;
  transitive : bool;
}.
Definition no_dependencies : Dependencies :=
  {| forward := ∅; inverse := ∅; classes := ∅; nested := ∅; rdf_type_read := false; all_outgoing := false;
     transitive := false |}.

Definition add_forward (p : EncodedTerm) (d : Dependencies) : Dependencies :=
  {| forward := {[p]} ∪ forward d; inverse := inverse d; classes := classes d; nested := nested d;
     rdf_type_read := rdf_type_read d; all_outgoing := all_outgoing d; transitive := transitive d |}.
Definition add_inverse (p : EncodedTerm) (d : Dependencies) : Dependencies :=
  {| forward := forward d; inverse := {[p]} ∪ inverse d; classes := classes d; nested := nested d;
     rdf_type_read := rdf_type_read d; all_outgoing := all_outgoing d; transitive := transitive d |}.
Definition add_class (c : EncodedTerm) (d : Dependencies) : Dependencies :=
  {| forward := forward d; inverse := inverse d; classes := {[c]} ∪ classes d; nested := nested d;
     rdf_type_read := true; all_outgoing := all_outgoing d; transitive := transitive d |}.
Definition add_nested (ids : list ShapeId) (d : Dependencies) : Dependencies :=
  {| forward := forward d; inverse := inverse d; classes := classes d; nested := list_to_set ids ∪ nested d;
     rdf_type_read := rdf_type_read d; all_outgoing := all_outgoing d; transitive := transitive d |}.
Definition read_rdf_type (d : Dependencies) : Dependencies :=
  {| forward := forward d; inverse := inverse d; classes := classes d; nested := nested d;
     rdf_type_read := true; all_outgoing := all_outgoing d; transitive := transitive d |}.
Definition read_all_outgoing (d : Dependencies) : Dependencies :=
  {| forward := forward d; inverse := inverse d; classes := classes d; nested := nested d;
     rdf_type_read := rdf_type_read d; all_outgoing := true; transitive := transitive d |}.
Definition set_transitive (d : Dependencies) : Dependencies :=
  {| forward := forward d; inverse := inverse d; classes := classes d; nested := nested d;
     rdf_type_read := rdf_type_read d; all_outgoing := all_outgoing d; transitive := true |}.

Definition target_dependencies (d : Dependencies) (t : TargetPlan) : Dependencies :=
  match t with
  | PlanClass class | PlanImplicitClass class => add_class class d
  | PlanSubjectsOf predicate => add_forward predicate d
  | PlanObjectsOf predicate => add_inverse predicate d
  | PlanNode _ => d
  end.

Fixpoint collect_path (p : PathPlan) (inverted : bool) (d : Dependencies) : Dependencies :=
  match p with
  | PlanPredicate predicate => if inverted then add_inverse predicate d else add_forward predicate d
  | PlanAlternative paths | PlanSequence paths => fold_left (λ d p, collect_path p inverted d) paths d
  | PlanInverse path => collect_path path (negb inverted) d
  | PlanZeroOrMore path | PlanOneOrMore path => collect_path path inverted (set_transitive d)
  | PlanZeroOrOne path => collect_path path inverted d
  end.

Definition constraint_dependencies (d : Dependencies) (c : ConstraintPlan) : Dependencies :=
  match c with
  | KClass _ => read_rdf_type d
  | KEquals predicate | KDisjoint predicate | KLessThan predicate | KLessOrEqual predicate => add_forward predicate d
  | KOr shapes | KAnd shapes | KXone shapes => add_nested shapes d
  | KNot shape | KNode shape => add_nested [shape] d
  | KQualified shape _ _ _ siblings => add_nested (shape :: siblings) d
  | KClosed _ => read_all_outgoing d
  | _ => d
  end.

Definition is_local_path (p : PathPlan) : bool :=
  match p with PlanPredicate _ | PlanInverse (PlanPredicate _) => true | _ => false end.

Definition analyze (targets : list TargetPlan) (path : option PathPlan) (constraints : list ConstraintPlan)
    : ShapeDependencies :=
  let d := fold_left target_dependencies targets no_dependencies in
  let d := match path with Some p => collect_path p false d | None => d end in
  let d := fold_left constraint_dependencies constraints d in
  {| forward_predicates := btree_elems (forward d);
     inverse_predicates := btree_elems (inverse d);
     target_classes := btree_elems (classes d);
     nested_shapes := btree_elems (nested d);
     reads_rdf_type := rdf_type_read d;
     reads_all_predicates := all_outgoing d;
     has_transitive_path := transitive d;
     requires_global_work := from_option (λ p, negb (is_local_path p)) false path || bool_decide (nested d ≠ ∅) |}.
