(* ===== verification/ShaclEval.v ===== *)
(** * SHACL evaluation ([src/internal/shacl/eval.rs],
    [src/internal/shacl/report.rs], [src/internal/shacl/targets.rs])

    The targets of the shapes, the evaluation of a shape at a focus node with
    its caches, its constraints, and the report it builds.  Times and counters
    of the statistics are left out.  A compiled regular expression is the
    predicate it decides. *)

From S2P Require Import Prelude Clock Terms Store Codec QueryView IndexUpdate Transitions Replication Convergence.
From S2P Require Import LocalWrites IndexMirror Orphans Cursors Reads ReadRules Answers DeltaAnswers ViewRows ShaclPaths ShaclTerms ShaclModel.
#[local] Open Scope craqle_scope.

(** ** Schemas *)

Inductive ResolvedTarget :=
  | TargetNode (node : TermId)
  | TargetClass (class : TermId)
  | TargetSubjectsOf (predicate : TermId)
  | TargetObjectsOf (predicate : TermId)
  | TargetImplicitClass (class : TermId).

Section data.
Context `{Oxrdf, !Oxsd}.

Inductive ResolvedConstraint :=
  | CClass (class : TermId)
  | CDatatype (datatype : TermId)
  | CNodeKind (kind : NodeKindPlan)
  | CMinCount (minimum : nat)
  | CMaxCount (maximum : nat)
  | CMinExclusive (boundary : TermMeta)
  | CMaxExclusive (boundary : TermMeta)
  | CMinInclusive (boundary : TermMeta)
  | CMaxInclusive (boundary : TermMeta)
  | CMinLength (minimum : nat)
  | CMaxLength (maximum : nat)
  | CPattern (is_match : bytes → bool)
  | CUniqueLang (required : bool)
  | CLanguageIn (ranges : list bytes)
  | CEquals (predicate : TermId)
  | CDisjoint (predicate : TermId)
  | CLessThan (predicate : TermId)
  | CLessOrEqual (predicate : TermId)
  | COr (shapes : list ShapeId)
  | CAnd (shapes : list ShapeId)
  | CNot (shape : ShapeId)
  | CXone (shapes : list ShapeId)
  | CNode (shape : ShapeId)
  | CHasValue (expected : TermId)
  | CIn (allowed : gset TermId)
  | CQualified (shape : ShapeId) (min_count max_count : option nat) (disjoint : bool) (siblings : list ShapeId)
  | CClosed (ignored_properties : gset TermId).

Record ResolvedShape := {
  targets : list ResolvedTarget;
  path : option ResolvedPath;
  constraints : list ResolvedConstraint;
}.

(** [ResolvedSchema]: [portable.shapes] and [shapes]. *)
Record ResolvedSchema := { portable : list CompiledShape; shapes : list ResolvedShape }.

(** ** Reports *)

Definition SH : string := "http://www.w3.org/ns/shacl#".

Definition component_iri (c : ResolvedConstraint) : string :=
  SH +:+ match c with
  | CClass _ => "ClassConstraintComponent"
  | CDatatype _ => "DatatypeConstraintComponent"
  | CNodeKind _ => "NodeKindConstraintComponent"
  | CMinCount _ => "MinCountConstraintComponent"
  | CMaxCount _ => "MaxCountConstraintComponent"
  | CMinExclusive _ => "MinExclusiveConstraintComponent"
  | CMaxExclusive _ => "MaxExclusiveConstraintComponent"
  | CMinInclusive _ => "MinInclusiveConstraintComponent"
  | CMaxInclusive _ => "MaxInclusiveConstraintComponent"
  | CMinLength _ => "MinLengthConstraintComponent"
  | CMaxLength _ => "MaxLengthConstraintComponent"
  | CPattern _ => "PatternConstraintComponent"
  | CUniqueLang _ => "UniqueLangConstraintComponent"
  | CLanguageIn _ => "LanguageInConstraintComponent"
  | CEquals _ => "EqualsConstraintComponent"
  | CDisjoint _ => "DisjointConstraintComponent"
  | CLessThan _ => "LessThanConstraintComponent"
  | CLessOrEqual _ => "LessThanOrEqualsConstraintComponent"
  | COr _ => "OrConstraintComponent"
  | CAnd _ => "AndConstraintComponent"
  | CNot _ => "NotConstraintComponent"
  | CXone _ => "XoneConstraintComponent"
  | CNode _ => "NodeConstraintComponent"
  | CHasValue _ => "HasValueConstraintComponent"
  | CIn _ => "InConstraintComponent"
  | CQualified _ (Some _) _ _ _ => "QualifiedMinCountConstraintComponent"
  | CQualified _ None _ _ _ => "QualifiedMaxCountConstraintComponent"
  | CClosed _ => "ClosedConstraintComponent"
  end%string.
Definition QUALIFIED_MIN : string := SH +:+ "QualifiedMinCountConstraintComponent".
Definition QUALIFIED_MAX : string := SH +:+ "QualifiedMaxCountConstraintComponent".

Definition severity_term (s : SeverityPlan) : EncodedTerm :=
  match s with
  | Custom term => term
  | _ => "<" +:+ SH +:+ match s with
         | Trace => "Trace" | Debug => "Debug" | Info => "Info" | Warning => "Warning" | _ => "Violation"
         end +:+ ">"
  end%string.

Fixpoint path_label (p : PathPlan) : string :=
  match p with
  | PlanPredicate predicate => predicate
  | PlanAlternative paths => "(" +:+ String.concat " | " (map path_label paths) +:+ ")"
  | PlanSequence paths => "(" +:+ String.concat " / " (map path_label paths) +:+ ")"
  | PlanInverse path => "^" +:+ path_label path
  | PlanZeroOrMore path => path_label path +:+ "*"
  | PlanOneOrMore path => path_label path +:+ "+"
  | PlanZeroOrOne path => path_label path +:+ "?"
  end%string.

Inductive PendingPath := Portable (path : string) | PathPredicate (predicate : TermId).

Record PendingResult := {
  pr_focus : TermId;
  pr_value : option TermId;
  pr_path : option PendingPath;
  pr_shape : EncodedTerm;
  pr_component : string;
  pr_severity : EncodedTerm;
  pr_messages : list ShaclMessage;
}.

(** ** The validator *)

Record ShaclValidationOptions := { max_results : nat; path_options : PathOptions; stop_after_first : bool }.

Inductive ShaclError :=
  | WalkFailed (e : PathError)
  | CyclicShapeEvaluation (shape : EncodedTerm) (focus : TermId)
  | ResultLimitExceeded (limit : nat)
  | DataGraphNotFound (graph : GraphId).

Inductive CachedConformance := InProgress | Conforms | Violates.

(** The fields of [Validator] that change, the read context among them. *)
Record Validator := {
  vd_context : ReadContext;
  path_work : N;
  results : list PendingResult;
  term_metas : gmap TermId TermMeta;
  path_cache : gmap (ShapeId * TermId) (gset TermId);
  conformance_cache : gmap (ShapeId * TermId) CachedConformance;
  halted : bool;
}.
End data.

Abbreviation validm := (stm Validator ShaclError).

Section eval.
Context `{Oxrdf, !Oxsd} `{Blake3} {V : Type} `{RdfReadView V}.
Context (view : V) (graph rdf_type : TermId) (schema : ResolvedSchema) (options : ShaclValidationOptions).

(** ** State *)

Definition vd_walk {A} (m : pathm A) : validm A := λ s,
  let '((cx, w), r) := m (vd_context s, path_work s) in
  ({| vd_context := cx; path_work := w; results := results s; term_metas := term_metas s;
      path_cache := path_cache s; conformance_cache := conformance_cache s; halted := halted s |},
   map_err WalkFailed r).
Definition vd_read {A} (m : readm A) : validm A := vd_walk (liftr m).

Definition remember_meta (term : TermId) (m : TermMeta) (s : Validator) : Validator :=
  {| vd_context := vd_context s; path_work := path_work s; results := results s;
     term_metas := <[term := m]> (term_metas s); path_cache := path_cache s;
     conformance_cache := conformance_cache s; halted := halted s |}.
Definition remember_path (key : ShapeId * TermId) (X : gset TermId) (s : Validator) : Validator :=
  {| vd_context := vd_context s; path_work := path_work s; results := results s; term_metas := term_metas s;
     path_cache := <[key := X]> (path_cache s); conformance_cache := conformance_cache s; halted := halted s |}.
Definition remember_conformance (key : ShapeId * TermId) (c : CachedConformance) (s : Validator) : Validator :=
  {| vd_context := vd_context s; path_work := path_work s; results := results s; term_metas := term_metas s;
     path_cache := path_cache s; conformance_cache := <[key := c]> (conformance_cache s); halted := halted s |}.
Definition push_result (r : PendingResult) (s : Validator) : Validator :=
  {| vd_context := vd_context s; path_work := path_work s; results := results s ++ [r];
     term_metas := term_metas s; path_cache := path_cache s; conformance_cache := conformance_cache s;
     halted := stop_after_first options |}.

Definition vd_get {A} (f : Validator → A) : validm A := λ s, (s, Ok (f s)).
Definition vd_set (f : Validator → Validator) : validm () := λ s, (f s, Ok ()).
Definition vd_panic {A} : validm A := λ s, (s, Panic).

(** [schema.portable.shapes[index]] and [schema.shapes[index]]. *)
Definition portable_shape (id : ShapeId) : validm CompiledShape :=
  match portable schema !! id with Some shape => st_ret shape | None => vd_panic end.
Definition resolved_shape (id : ShapeId) : validm ResolvedShape :=
  match shapes schema !! id with Some shape => st_ret shape | None => vd_panic end.

(** [TermMetaCache::get]. *)
Definition get_meta (term : TermId) : validm (option TermMeta) :=
  known ⇐ vd_get (λ s, term_metas s !! term);
  match known with
  | Some m => st_ret (Some m)
  | None =>
      encoded ⇐ vd_read (view_decode_term view term);
      decoded ⇐ (λ s, (s, from_encoded encoded) : Validator * outcome ShaclError (option TermMeta));
      match decoded with
      | None => st_ret None
      | Some m => _ ⇐ vd_set (remember_meta term m); st_ret (Some m)
      end
  end.

(** [violate] with [ReportBuilder::emit] and [emit_with_component]. *)
Definition violate (id : ShapeId) (c : ResolvedConstraint) (focus : TermId) (value : option TermId)
    (result_path : option PendingPath) (component : option string) (emit : bool) : validm () :=
  if negb emit then st_ret ()
  else
    shape ⇐ portable_shape id;
    count ⇐ vd_get (λ s, length (results s));
    if decide (max_results options ≤ count) then st_err (ResultLimitExceeded (max_results options))
    else vd_set (push_result {|
           pr_focus := focus; pr_value := value;
           pr_path := match result_path with Some p => Some p | None => Portable ∘ path_label <$> plan_path shape end;
           pr_shape := label shape;
           pr_component := default (component_iri c) component;
           pr_severity := severity_term (severity shape);
           pr_messages := shape_messages shape |}).

(** [shape_values]. *)
Definition shape_values (id : ShapeId) (focus : TermId) (cap : option nat) : validm (gset TermId) :=
  shape ⇐ resolved_shape id;
  match path shape with
  | None => st_ret {[focus]}
  | Some p =>
      known ⇐ vd_get (λ s, path_cache s !! (id, focus));
      match cap, known with
      | None, Some X => st_ret X
      | _, _ =>
          X ⇐ vd_walk (values view graph (path_options options) focus p cap);
          match cap with
          | None => _ ⇐ vd_set (remember_path (id, focus) X); st_ret X
          | Some _ => st_ret X
          end
      end
  end.

Definition exists_edge (subject predicate object : TermId) : validm bool :=
  vd_read (exists_row view (Named graph)
    {| pat_graph := None; pat_subject := Some subject; pat_predicate := Some predicate; pat_object := Some object |}).

Definition has_value (id : ShapeId) (focus expected : TermId) : validm bool :=
  shape ⇐ resolved_shape id;
  match path shape with
  | None => st_ret (bool_decide (focus = expected))
  | Some (Predicate predicate) => exists_edge focus predicate expected
  | Some (Inverse (Predicate predicate)) => exists_edge expected predicate focus
  | Some _ => X ⇐ shape_values id focus None; st_ret (bool_decide (expected ∈ X))
  end.

(** [for quad in cursor] gathering one column of the rows. *)
Fixpoint column_loop (column : EncodedQuad → TermId) (fuel : nat) (c : QueryCursor) (acc : gset TermId)
    : readm (gset TermId) :=
  match fuel with
  | O => st_panic
  | S fuel =>
      next ⇐ cursor_next c;
      match next.1 with
      | None => st_ret acc
      | Some quad => column_loop column fuel next.2 ({[column quad]} ∪ acc)
      end
  end.

(** [Validator::predicate_values]. *)
Definition object_values (focus predicate : TermId) : validm (gset TermId) :=
  vd_read (c ⇐ forward_predicate view (Named graph) focus predicate;
           column_loop quad_object (S (cursor_len c)) c ∅).

(** ** Constraints *)

(** A loop that judges its elements one by one and stops at the first
    violation when it does not report, and when the report is full. *)
Fixpoint each_judged {A} (judge : A → validm bool) (emit : bool) (l : list A) (conforms : bool) : validm bool :=
  match l with
  | [] => st_ret conforms
  | x :: l =>
      b ⇐ judge x;
      if b : bool then each_judged judge emit l conforms
      else
        stop ⇐ vd_get halted;
        if stop || negb emit then st_ret false else each_judged judge emit l false
  end.

(** A check whose failure is reported. *)
Definition reported (check : validm bool) (report : validm ()) : validm bool :=
  valid ⇐ check;
  if valid : bool then st_ret true else _ ⇐ report; st_ret false.

(** [for value in values] of a constraint on values. *)
Definition each_value (check : TermId → validm bool) (report : TermId → validm ()) (emit : bool)
    (vs : list TermId) : validm bool :=
  each_judged (λ value, reported (check value) (report value)) emit vs true.

(** [meta.filter(..)] as a check. *)
Definition meta_check (f : option TermMeta → bool) (value : TermId) : validm bool :=
  m ⇐ get_meta value; st_ret (f m).

Definition ordered (f : comparison → bool) (l r : option TermMeta) : bool :=
  match l, r with Some l, Some r => from_option f false (meta_cmp l r) | _, _ => false end.
Definition is_lt (c : comparison) : bool := match c with Lt => true | _ => false end.
Definition is_le (c : comparison) : bool := match c with Gt => false | _ => true end.
Definition is_gt (c : comparison) : bool := match c with Gt => true | _ => false end.
Definition is_ge (c : comparison) : bool := match c with Lt => false | _ => true end.

(** [for right in &other] of [LessThan]. *)
Fixpoint all_ordered (f : comparison → bool) (m : TermMeta) (others : list TermId) : validm bool :=
  match others with
  | [] => st_ret true
  | other :: others =>
      r ⇐ get_meta other;
      if ordered f (Some m) r then all_ordered f m others else st_ret false
  end.
Definition less_check (f : comparison → bool) (other : gset TermId) (value : TermId) : validm bool :=
  m ⇐ get_meta value;
  match m with None => st_ret false | Some m => all_ordered f m (btree_elems other) end.

(** [UniqueLang]. *)
Fixpoint unique_lang (report : validm ()) (emit : bool) (vs : list TermId) (seen : gset bytes)
    (reported : gset bytes) (conforms : bool) : validm bool :=
  match vs with
  | [] => st_ret conforms
  | value :: vs =>
      m ⇐ get_meta value;
      match m ≫= language with
      | None => unique_lang report emit vs seen reported conforms
      | Some tag =>
          if decide (tag ∈ seen) then
            if decide (tag ∈ reported) then unique_lang report emit vs seen reported conforms
            else
              _ ⇐ report;
              stop ⇐ vd_get halted;
              if stop || negb emit then st_ret false
              else unique_lang report emit vs seen ({[tag]} ∪ reported) false
          else unique_lang report emit vs ({[tag]} ∪ seen) reported conforms
      end
  end.

(** [for shape in shapes], counting those a value conforms to. *)
Fixpoint matching (conforms_to : ShapeId → TermId → validm bool) (value : TermId) (ids : list ShapeId) (n : nat)
    : validm nat :=
  match ids with
  | [] => st_ret n
  | id :: ids =>
      b ⇐ conforms_to id value;
      matching conforms_to value ids (if b : bool then S n else n)
  end.

(** [for sibling in siblings]. *)
Fixpoint any_match (conforms_to : ShapeId → TermId → validm bool) (value : TermId) (ids : list ShapeId)
    : validm bool :=
  match ids with
  | [] => st_ret false
  | id :: ids =>
      b ⇐ conforms_to id value;
      if b : bool then st_ret true else any_match conforms_to value ids
  end.

(** The count of [QualifiedValueShape]. *)
Fixpoint qualified_count (conforms_to : ShapeId → TermId → validm bool) (shape : ShapeId) (disjoint : bool)
    (siblings : list ShapeId) (vs : list TermId) (n : nat) : validm nat :=
  match vs with
  | [] => st_ret n
  | value :: vs =>
      b ⇐ conforms_to shape value;
      if negb b then qualified_count conforms_to shape disjoint siblings vs n
      else
        sibling ⇐ (if disjoint then any_match conforms_to value siblings else st_ret false);
        qualified_count conforms_to shape disjoint siblings vs (if sibling : bool then n else S n)
  end.

(** [evaluate_value_constraint]. *)
Definition evaluate_value_constraint (conforms_to : ShapeId → TermId → validm bool) (id : ShapeId) (focus : TermId)
    (c : ResolvedConstraint) (emit : bool) : validm bool :=
  X ⇐ shape_values id focus None;
  let report value := violate id c focus (Some value) None None emit in
  let each check := each_value check report emit (btree_elems X) in
  let boundary f b := each (meta_check (λ m, ordered f m (Some b))) in
  let length_is f := each (meta_check (λ m, match m with
    | Some m => match lexical m with Some _ => f (lexical_length m) | None => false end
    | None => false end)) in
  match c with
  | CClass class => each (λ value, exists_edge value rdf_type class)
  | CDatatype datatype => each (meta_check (λ m, bool_decide ((m ≫= ShaclTerms.datatype) = Some datatype)))
  | CNodeKind kind => each (meta_check (λ m, node_kind_matches kind (ShaclTerms.kind <$> m)))
  | CMinExclusive b => boundary is_gt b
  | CMaxExclusive b => boundary is_lt b
  | CMinInclusive b => boundary is_ge b
  | CMaxInclusive b => boundary is_le b
  | CMinLength n => length_is (λ l, bool_decide (n ≤ l))
  | CMaxLength n => length_is (λ l, bool_decide (l ≤ n))
  | CPattern is_match => each (meta_check (λ m, from_option is_match false (m ≫= lexical)))
  | CUniqueLang required =>
      if required then unique_lang (violate id c focus None None None emit) emit (btree_elems X) ∅ ∅ true
      else st_ret true
  | CLanguageIn ranges =>
      each (meta_check (λ m, from_option (λ l, language_matches l ranges) false (m ≫= language)))
  | CIn allowed => each (λ value, st_ret (bool_decide (value ∈ allowed)))
  | CEquals predicate =>
      other ⇐ object_values focus predicate;
      each_value (λ _, st_ret false) report emit (btree_elems ((X ∖ other) ∪ (other ∖ X)))
  | CDisjoint predicate =>
      other ⇐ object_values focus predicate;
      each_value (λ _, st_ret false) report emit (btree_elems (X ∩ other))
  | CLessThan predicate => other ⇐ object_values focus predicate; each (less_check is_lt other)
  | CLessOrEqual predicate => other ⇐ object_values focus predicate; each (less_check is_le other)
  | CNode shape => each (λ value, conforms_to shape value)
  | CNot shape => each (λ value, b ⇐ conforms_to shape value; st_ret (negb b))
  | CAnd ids => each (λ value, n ⇐ matching conforms_to value ids 0; st_ret (bool_decide (n = length ids)))
  | COr ids => each (λ value, n ⇐ matching conforms_to value ids 0; st_ret (bool_decide (0 < n)))
  | CXone ids => each (λ value, n ⇐ matching conforms_to value ids 0; st_ret (bool_decide (n = 1)))
  | CMinCount _ | CMaxCount _ | CHasValue _ | CQualified _ _ _ _ _ | CClosed _ => vd_panic
  end.

(** [evaluate_closed]. *)
Definition allowed_properties (id : ShapeId) (ignored : gset TermId) : validm (gset TermId) :=
  shape ⇐ portable_shape id;
  st_fold (λ allowed property,
    resolved ⇐ resolved_shape property;
    st_ret (match path resolved with Some (Predicate predicate) => {[predicate]} ∪ allowed | _ => allowed end))
    ignored (property_shapes shape).
Fixpoint closed_loop (fuel : nat) (report : EncodedQuad → validm ()) (emit : bool) (allowed : gset TermId)
    (c : QueryCursor) (conforms : bool) : validm bool :=
  match fuel with
  | O => vd_panic
  | S fuel =>
      next ⇐ vd_read (cursor_next c);
      match next.1 with
      | None => st_ret conforms
      | Some quad =>
          if decide (quad_predicate quad ∈ allowed) then closed_loop fuel report emit allowed next.2 conforms
          else
            _ ⇐ report quad;
            stop ⇐ vd_get halted;
            if stop || negb emit then st_ret false else closed_loop fuel report emit allowed next.2 false
      end
  end.
Definition evaluate_closed (id : ShapeId) (focus : TermId) (c : ResolvedConstraint) (ignored : gset TermId)
    (emit : bool) : validm bool :=
  allowed ⇐ allowed_properties id ignored;
  cursor ⇐ vd_read (scan view (Named graph)
    {| pat_graph := None; pat_subject := Some focus; pat_predicate := None; pat_object := None |});
  closed_loop (S (cursor_len cursor))
    (λ quad, violate id c focus (Some (quad_object quad)) (Some (PathPredicate (quad_predicate quad))) None emit)
    emit allowed cursor true.

(** One side of [QualifiedValueShape]. *)
Definition qualified_bound (broken : bool) (id : ShapeId) (c : ResolvedConstraint) (focus : TermId)
    (component : string) (emit conforms : bool) : validm bool :=
  if broken then _ ⇐ violate id c focus None None (Some component) emit; st_ret false else st_ret conforms.

(** [evaluate_constraint]. *)
Definition evaluate_constraint (conforms_to : ShapeId → TermId → validm bool) (id : ShapeId) (focus : TermId)
    (c : ResolvedConstraint) (emit : bool) : validm bool :=
  let decided conforms := reported (st_ret conforms) (violate id c focus None None None emit) in
  match c with
  | CMinCount minimum => X ⇐ shape_values id focus (Some minimum); decided (bool_decide (minimum ≤ size X))
  | CMaxCount maximum =>
      X ⇐ shape_values id focus (if decide (N.of_nat maximum < usize_max)%N then Some (S maximum) else None);
      decided (bool_decide (size X ≤ maximum))
  | CHasValue expected => b ⇐ has_value id focus expected; decided b
  | CClosed ignored => evaluate_closed id focus c ignored emit
  | CQualified shape min_count max_count disjoint siblings =>
      X ⇐ shape_values id focus None;
      count ⇐ qualified_count conforms_to shape disjoint siblings (btree_elems X) 0;
      let below := match min_count with Some minimum => bool_decide (count < minimum) | None => false end in
      let above := match max_count with Some maximum => bool_decide (maximum < count) | None => false end in
      conforms ⇐ qualified_bound below id c focus QUALIFIED_MIN emit true;
      qualified_bound above id c focus QUALIFIED_MAX emit conforms
  | _ => evaluate_value_constraint conforms_to id focus c emit
  end.

(** ** Shapes *)

(** [evaluate_shape] behind its cache. *)
Definition evaluate_shape_at (evaluate : ShapeId → TermId → bool → validm bool) (id : ShapeId) (focus : TermId)
    (emit : bool) : validm bool :=
  shape ⇐ portable_shape id;
  resolved ⇐ resolved_shape id;
  conforms ⇐ each_judged
    (λ c, evaluate_constraint (λ id value, evaluate id value false) id focus c emit) emit
    (constraints resolved) true;
  stop ⇐ vd_get halted;
  let nested := negb emit || bool_decide (shape_kind shape = PropertyShape) in
  if nested && bool_decide (property_shapes shape ≠ []) && (conforms || emit) && negb stop then
    X ⇐ (match shape_kind shape with
         | NodeShape => st_ret {[focus]}
         | PropertyShape => shape_values id focus None
         end);
    each_judged (λ '(value, property), evaluate property value emit) emit
      (value ← btree_elems X; (λ property, (value, property)) <$> property_shapes shape) conforms
  else st_ret conforms.

Fixpoint evaluate_shape (fuel : nat) (id : ShapeId) (focus : TermId) (emit : bool) : validm bool :=
  match fuel with
  | O => vd_panic
  | S fuel =>
      shape ⇐ portable_shape id;
      if deactivated shape then st_ret true
      else if emit then evaluate_shape_at (evaluate_shape fuel) id focus true
      else
        known ⇐ vd_get (λ s, conformance_cache s !! (id, focus));
        match known with
        | Some Conforms => st_ret true
        | Some Violates => st_ret false
        | Some InProgress => st_err (CyclicShapeEvaluation (label shape) focus)
        | None =>
            _ ⇐ vd_set (remember_conformance (id, focus) InProgress);
            conforms ⇐ evaluate_shape_at (evaluate_shape fuel) id focus false;
            _ ⇐ vd_set (remember_conformance (id, focus) (if conforms : bool then Conforms else Violates));
            st_ret conforms
        end
  end.

(** ** Targets *)

(** [resolve_targets]: the focus nodes one target declares. *)
Definition scan_column (column : EncodedQuad → TermId) (predicate object : option TermId) (acc : gset TermId)
    : readm (gset TermId) :=
  c ⇐ scan view (Named graph)
    {| pat_graph := None; pat_subject := None; pat_predicate := predicate; pat_object := object |};
  column_loop column (S (cursor_len c)) c acc.
Definition target_nodes (acc : gset TermId) (t : ResolvedTarget) : readm (gset TermId) :=
  match t with
  | TargetNode node => st_ret ({[node]} ∪ acc)
  | TargetClass class | TargetImplicitClass class => scan_column quad_subject (Some rdf_type) (Some class) acc
  | TargetSubjectsOf predicate => scan_column quad_subject (Some predicate) None acc
  | TargetObjectsOf predicate => scan_column quad_object (Some predicate) None acc
  end.
Definition shape_targets (acc : list (gset TermId)) (shape : ResolvedShape) : readm (list (gset TermId)) :=
  X ⇐ st_fold target_nodes ∅ (targets shape); st_ret (acc ++ [X]).

(** One turn of the loop that hands the focus nodes of a node shape to its
    property shapes. *)
Definition inherit_into (inherited : gset TermId) (acc : list (gset TermId) * bool) (property : ShapeId)
    : outcome StoreError (list (gset TermId) * bool) :=
  match acc.1 !! property with
  | None => Panic
  | Some X =>
      let Y := X ∪ inherited in
      Ok (<[property := Y]> acc.1, acc.2 || bool_decide (size Y ≠ size X))
  end.
Definition inherit_shape (acc : list (gset TermId) * bool) (shape : CompiledShape)
    : outcome StoreError (list (gset TermId) * bool) :=
  if deactivated shape || bool_decide (shape_kind shape = PropertyShape) then Ok acc
  else match acc.1 !! shape_id shape with
       | None => Panic
       | Some inherited => try_fold (inherit_into inherited) acc (property_shapes shape)
       end.
Fixpoint inherit_loop (fuel : nat) (targets : list (gset TermId)) : outcome StoreError (list (gset TermId)) :=
  match fuel with
  | O => Panic
  | S fuel =>
      turn ← try_fold inherit_shape (targets, false) (portable schema);
      if turn.2 : bool then inherit_loop fuel turn.1 else Ok turn.1
  end.
(** Each turn but the last adds a focus node to a shape. *)
Definition inherit_fuel (targets : list (gset TermId)) : nat := S (length targets * size (⋃ targets)).

Definition resolve_targets : readm (list (gset TermId)) :=
  declared ⇐ st_fold shape_targets [] (shapes schema);
  st_lift (inherit_loop (inherit_fuel declared) declared).

(** ** Reports *)

(** [option]'s derived order. *)
#[local] Instance option_ord {A} `{Ord A} : Ord (option A) := λ x y,
  match x, y with
  | None, None => Eq | None, Some _ => Lt | Some _, None => Gt
  | Some x, Some y => cmp x y
  end.
#[local] Instance message_ord : Ord ShaclMessage := λ m n,
  cmp (message_language m, message_text m) (message_language n, message_text n).

Record ShaclValidationResult := {
  focus_node : EncodedTerm;
  result_value : option EncodedTerm;
  result_path : option string;
  source_shape : EncodedTerm;
  source_constraint_component : string;
  result_severity : EncodedTerm;
  result_messages : list ShaclMessage;
}.
#[export] Instance result_ord : Ord ShaclValidationResult := λ r t,
  let key r := (focus_node r, result_value r, result_path r, source_shape r, source_constraint_component r,
                result_severity r, result_messages r) in
  cmp (key r) (key t).

Inductive ShaclBlockingSeverity := AnyResult | WarningOrViolation | ViolationOnly.
Definition severity_rank (s : EncodedTerm) : option nat :=
  (if decide (s = "<" +:+ SH +:+ "Trace>") then Some 0
   else if decide (s = "<" +:+ SH +:+ "Debug>") then Some 1
   else if decide (s = "<" +:+ SH +:+ "Info>") then Some 2
   else if decide (s = "<" +:+ SH +:+ "Warning>") then Some 3
   else if decide (s = "<" +:+ SH +:+ "Violation>") then Some 4
   else None)%string.
Definition severity_blocks (s : EncodedTerm) (threshold : ShaclBlockingSeverity) : bool :=
  let minimum := match threshold with AnyResult => 0 | WarningOrViolation => 3 | ViolationOnly => 4 end in
  match severity_rank s with None => true | Some rank => bool_decide (minimum ≤ rank) end.

Record ShaclValidationReport := {
  report_conforms : bool;
  accepted_by_write_policy : bool;
  report_results : list ShaclValidationResult;
}.
(** [refresh_outcomes]. *)
Definition report_of (l : list ShaclValidationResult) (threshold : ShaclBlockingSeverity) : ShaclValidationReport :=
  {| report_conforms := bool_decide (l = []);
     accepted_by_write_policy := negb (existsb (λ r, severity_blocks (result_severity r) threshold) l);
     report_results := l |}.

(** [ReportBuilder::finish]. *)
Definition decode_result (acc : list ShaclValidationResult) (r : PendingResult)
    : readm (list ShaclValidationResult) :=
  result_path ⇐ (match pr_path r with
    | Some (Portable p) => st_ret (Some p)
    | Some (PathPredicate predicate) => t ⇐ view_decode_term view predicate; st_ret (Some t)
    | None => st_ret None
    end : readm (option string));
  focus ⇐ view_decode_term view (pr_focus r);
  value ⇐ (match pr_value r with
    | Some value => t ⇐ view_decode_term view value; st_ret (Some t)
    | None => st_ret None
    end : readm (option EncodedTerm));
  st_ret (acc ++ [{| focus_node := focus; result_value := value; result_path := result_path;
                     source_shape := pr_shape r; source_constraint_component := pr_component r;
                     result_severity := pr_severity r; result_messages := pr_messages r |}]).
Definition finish_report (threshold : ShaclBlockingSeverity) (l : list PendingResult) : readm ShaclValidationReport :=
  decoded ⇐ st_fold decode_result [] l; st_ret (report_of (sort decoded) threshold).

(** ** Validation *)

(** [for focus in focus_nodes]: [true] once the report is full. *)
Fixpoint each_focus (eval : TermId → validm bool) (focus_nodes : list TermId) : validm bool :=
  match focus_nodes with
  | [] => st_ret false
  | focus :: focus_nodes =>
      _ ⇐ eval focus;
      stop ⇐ vd_get halted;
      if stop : bool then st_ret true else each_focus eval focus_nodes
  end.

(** A schema without recursion is no deeper than it has shapes. *)
Definition shape_fuel : nat := S (length (portable schema)).

(** [for (shape_index, focus_nodes) in targets.iter().enumerate()]. *)
Fixpoint each_shape (id : ShapeId) (targets : list (gset TermId)) : validm () :=
  match targets with
  | [] => st_ret ()
  | focus_nodes :: targets =>
      shape ⇐ portable_shape id;
      if deactivated shape then each_shape (S id) targets
      else if decide (focus_nodes = ∅) then each_shape (S id) targets
      else
        stop ⇐ each_focus (λ focus, evaluate_shape shape_fuel id focus true) (btree_elems focus_nodes);
        if stop : bool then st_ret () else each_shape (S id) targets
  end.

(** [validate_view] once the graph and [rdf:type] are known. *)
Definition validate_targets (preset_targets : option (list (gset TermId))) (threshold : ShaclBlockingSeverity)
    : validm ShaclValidationReport :=
  targets ⇐ (match preset_targets with
             | Some targets => st_ret targets
             | None => vd_read resolve_targets
             end);
  _ ⇐ each_shape 0 targets;
  found ⇐ vd_get results;
  vd_read (finish_report threshold found).
End eval.

Definition RDF_TYPE : EncodedTerm := "<http://www.w3.org/1999/02/22-rdf-syntax-ns#type>".

Definition new_validator `{Oxrdf, !Oxsd} (cx : ReadContext) : Validator :=
  {| vd_context := cx; path_work := 0; results := []; term_metas := ∅; path_cache := ∅;
     conformance_cache := ∅; halted := false |}.

Definition validate_view `{Oxrdf, !Oxsd} `{Blake3} {V : Type} `{RdfReadView V} (view : V) (schema : ResolvedSchema)
    (data_graph : GraphId) (options : ShaclValidationOptions) (preset_targets : option (list (gset TermId)))
    (threshold : ShaclBlockingSeverity) : validm ShaclValidationReport :=
  let graph_term := from_named_node data_graph in
  graph ⇐ vd_read (view_lookup_term view graph_term);
  let graph := default (hash_term graph_term) graph in
  here ⇐ vd_read (st_lift (contains_graph view data_graph));
  visible ⇐ (if here : bool then vd_read (graph_is_visible view graph) else st_ret false);
  if negb visible then st_err (DataGraphNotFound data_graph)
  else
    rdf_type ⇐ vd_read (view_lookup_term view RDF_TYPE);
    let rdf_type := default (hash_term RDF_TYPE) rdf_type in
    validate_targets view graph rdf_type schema options preset_targets threshold.
