(* ===== verification/ShaclConforms.v ===== *)
(** * Validation decides conformance

    The conditions a shape puts on a focus node, stated over the rows of the
    data graph alone, and that an evaluation -- with its caches, its early
    exits and its caps -- decides them.  The views an evaluation reads through
    are known by the interface [DataView] only. *)

From S2P Require Import Prelude Clock Terms Store Codec QueryView IndexUpdate Transitions Replication Convergence.
From S2P Require Import LocalWrites IndexMirror Orphans Cursors Reads ReadRules Answers DeltaAnswers ViewRows ShaclPaths ShaclTerms.
From S2P Require Import ShaclModel ShaclEval.
#[local] Open Scope craqle_scope.

(** ** The data a validation reads *)

(** A view that answers with [rows] and decodes terms by [term_of]. *)
Class DataView `{Oxrdf, !Oxsd} `{Blake3} {V : Type} `{RdfReadView V} (view : V) (sn : Snapshot)
    (scope : GraphVisibility) (validating : option TermId) (graph : TermId) (rows : gset EncodedQuad)
    (term_of : TermId → option EncodedTerm) : Prop := {
  dv_rows :: RowsView view sn scope validating graph rows term_of;
  dv_readable x t : term_of x = Some t → ∃ m, (from_encoded t : outcome ShaclError _) = Ok m;
}.

Section conforms.
Context `{Oxrdf, !Oxsd} `{Blake3} (rows : gset EncodedQuad) (term_of : TermId → option EncodedTerm).
Context (rdf_type : TermId) (schema : ResolvedSchema).

Definition meta (x : TermId) : option TermMeta :=
  term_of x ≫= λ t, match (from_encoded t : outcome ShaclError _) with Ok m => m | _ => None end.

(** ** What a shape asks for *)

(** The value nodes of a shape at a focus. *)
Definition value_of (id : ShapeId) (f x : TermId) : Prop :=
  match shapes schema !! id ≫= path with Some p => values_rel rows p f x | None => x = f end.

(** The finite set of the nodes that satisfy [P]. *)
Definition counted (P : TermId → Prop) (Y : gset TermId) : Prop := ∀ x, x ∈ Y ↔ P x.

Definition meta_sat (P : TermMeta → Prop) (x : TermId) : Prop := ∃ m, meta x = Some m ∧ P m.
Definition boundary_sat (f : comparison → bool) (b m : TermMeta) : Prop :=
  ∃ c, meta_cmp m b = Some c ∧ f c = true.

Section constraint.
Context (conforms : ShapeId → TermId → Prop) (id : ShapeId) (f : TermId).
Let every (P : TermId → Prop) : Prop := ∀ x, value_of id f x → P x.

Definition allowed_predicate (ignored : gset TermId) (predicate : TermId) : Prop :=
  predicate ∈ ignored ∨
  ∃ s p r, portable schema !! id = Some s ∧ p ∈ property_shapes s ∧ shapes schema !! p = Some r ∧
           path r = Some (Predicate predicate).

Definition constraint_sat (c : ResolvedConstraint) : Prop :=
  match c with
  | CClass class => every (λ x, edge rows rdf_type x class)
  | CDatatype datatype => every (meta_sat (λ m, ShaclTerms.datatype m = Some datatype))
  | CNodeKind kind => every (meta_sat (λ m, node_kind_matches kind (Some (ShaclTerms.kind m)) = true))
  | CMinCount n => ∃ Y, counted (value_of id f) Y ∧ n ≤ size Y
  | CMaxCount n => ∃ Y, counted (value_of id f) Y ∧ size Y ≤ n
  | CMinExclusive b => every (meta_sat (boundary_sat is_gt b))
  | CMaxExclusive b => every (meta_sat (boundary_sat is_lt b))
  | CMinInclusive b => every (meta_sat (boundary_sat is_ge b))
  | CMaxInclusive b => every (meta_sat (boundary_sat is_le b))
  | CMinLength n => every (meta_sat (λ m, is_Some (lexical m) ∧ n ≤ lexical_length m))
  | CMaxLength n => every (meta_sat (λ m, is_Some (lexical m) ∧ lexical_length m ≤ n))
  | CPattern is_match => every (meta_sat (λ m, ∃ l, lexical m = Some l ∧ is_match l = true))
  | CUniqueLang required => required = true →
      ∀ x y, value_of id f x → value_of id f y → x ≠ y →
        ∀ mx my l, meta x = Some mx → meta y = Some my → language mx = Some l → language my ≠ Some l
  | CLanguageIn ranges => every (meta_sat (λ m, ∃ l, language m = Some l ∧ language_matches l ranges = true))
  | CEquals predicate => ∀ x, value_of id f x ↔ edge rows predicate f x
  | CDisjoint predicate => every (λ x, ¬ edge rows predicate f x)
  | CLessThan predicate => every (λ x, ∃ m, meta x = Some m ∧ ∀ y, edge rows predicate f y →
      meta_sat (λ n, boundary_sat is_lt n m) y)
  | CLessOrEqual predicate => every (λ x, ∃ m, meta x = Some m ∧ ∀ y, edge rows predicate f y →
      meta_sat (λ n, boundary_sat is_le n m) y)
  | COr ids => every (λ x, Exists (λ i, conforms i x) ids)
  | CAnd ids => every (λ x, Forall (λ i, conforms i x) ids)
  | CNot i => every (λ x, ¬ conforms i x)
  | CXone ids => every (λ x, ∃ pre i post, ids = pre ++ i :: post ∧ conforms i x ∧
      Forall (λ j, ¬ conforms j x) pre ∧ Forall (λ j, ¬ conforms j x) post)
  | CNode i => every (conforms i)
  | CHasValue expected => value_of id f expected
  | CIn allowed => every (λ x, x ∈ allowed)
  | CQualified i min_count max_count disjoint siblings =>
      ∃ Y, counted (λ x, value_of id f x ∧ conforms i x ∧
                         (disjoint = true → Forall (λ j, ¬ conforms j x) siblings)) Y ∧
           from_option (λ n, n ≤ size Y) True min_count ∧ from_option (λ n, size Y ≤ n) True max_count
  | CClosed ignored => ∀ q, q ∈ rows → quad_subject q = f → allowed_predicate ignored (quad_predicate q)
  end.
End constraint.

(** A shape holds at a focus when its constraints do, and its property shapes
    at the value nodes (of a node shape: the focus). *)
Definition shape_sat (conforms : ShapeId → TermId → Prop) (id : ShapeId) (f : TermId) : Prop :=
  ∀ s r, portable schema !! id = Some s → shapes schema !! id = Some r → deactivated s = false →
    (∀ c, c ∈ constraints r → constraint_sat conforms id f c) ∧
    (∀ p x, p ∈ property_shapes s →
            (match shape_kind s with NodeShape => x = f | PropertyShape => value_of id f x end) → conforms p x).

Fixpoint conforms_at (n : nat) (id : ShapeId) (f : TermId) : Prop :=
  match n with O => False | S n => shape_sat (conforms_at n) id f end.
Definition conforms : ShapeId → TermId → Prop := conforms_at (shape_fuel schema).
End conforms.

(** ** Schemas without recursion *)

Definition constraint_refs `{Oxrdf, !Oxsd} (c : ResolvedConstraint) : list ShapeId :=
  match c with
  | COr ids | CAnd ids | CXone ids => ids
  | CNot i | CNode i => [i]
  | CQualified i _ _ disjoint siblings => i :: (if disjoint then siblings else [])
  | _ => []
  end.
Definition constraint_terms `{Oxrdf, !Oxsd} (c : ResolvedConstraint) : list TermId :=
  match c with
  | CClass i | CEquals i | CDisjoint i | CLessThan i | CLessOrEqual i | CHasValue i => [i]
  | _ => []
  end.
Definition target_terms (t : ResolvedTarget) : list TermId :=
  match t with TargetNode i | TargetClass i | TargetSubjectsOf i | TargetObjectsOf i | TargetImplicitClass i => [i] end.
(** A constraint that counts its values under a cap. *)
Definition counts `{Oxrdf, !Oxsd} (c : ResolvedConstraint) : bool :=
  match c with CMinCount _ | CMaxCount _ => true | _ => false end.

(** The schemas the theorems about validations speak of.  The compiler numbers
    shapes by their place and makes property shapes of property shapes, and the
    resolver's identifiers are digests.  That no shape refers back to itself
    ([rank] decreases) the compiler checks, but for the disjoint siblings of a
    qualified shape ([ShaclCycles.sibling_cycle]).  That minimum and maximum
    counts are over paths with exact capped walks -- a predicate, its inverse or
    a repetition -- nothing checks: on an alternative, a sequence or a
    zero-or-one path a count can be wrong
    ([ShaclPaths.capped_alternative_undercounts]). *)
Record schema_ok `{Oxrdf, !Oxsd} (schema : ResolvedSchema) (rank : ShapeId → nat) : Prop := {
  sk_length : length (shapes schema) = length (portable schema);
  sk_id id s : portable schema !! id = Some s → shape_id s = id;
  sk_rank id : id < length (portable schema) → rank id < shape_fuel schema;
  sk_properties id s p : portable schema !! id = Some s → p ∈ property_shapes s →
    rank p < rank id ∧ ∃ s', portable schema !! p = Some s' ∧ shape_kind s' = PropertyShape;
  sk_refs id r c i : shapes schema !! id = Some r → c ∈ constraints r → i ∈ constraint_refs c →
    rank i < rank id ∧ i < length (portable schema);
  sk_terms id r c t : shapes schema !! id = Some r → c ∈ constraints r → t ∈ constraint_terms c → TermId_fit t;
  sk_targets id r t i : shapes schema !! id = Some r → t ∈ targets r → i ∈ target_terms t → TermId_fit i;
  sk_path id r p : shapes schema !! id = Some r → path r = Some p → path_fit p;
  sk_counts id r p c : shapes schema !! id = Some r → path r = Some p → c ∈ constraints r → counts c = true →
    cap_exact p = true;
}.

Section schema.
Context `{Oxrdf, !Oxsd} `{Blake3} (rows : gset EncodedQuad) (term_of : TermId → option EncodedTerm).
Context (rdf_type : TermId) (schema : ResolvedSchema) (rank : ShapeId → nat) (Hschema : schema_ok schema rank).

Lemma constraint_sat_ext (C D : ShapeId → TermId → Prop) id f c :
  (∀ i x, i ∈ constraint_refs c → C i x ↔ D i x) →
  constraint_sat rows term_of rdf_type schema C id f c ↔ constraint_sat rows term_of rdf_type schema D id f c.
Proof.
  intros Hext. destruct c; cbn [constraint_sat constraint_refs] in *; try done.
  - setoid_rewrite Exists_exists. naive_solver.
  - setoid_rewrite Forall_forall. naive_solver.
  - setoid_rewrite (Hext shape); [done|by left].
  - assert (∀ ids x, (∀ i, i ∈ ids → C i x ↔ D i x) → Forall (λ j, ¬ C j x) ids ↔ Forall (λ j, ¬ D j x) ids) as Hall.
    { intros ids x Hi. rewrite !Forall_forall. naive_solver. }
    split; intros Hx x Hv; destruct (Hx x Hv) as (pre & i & post & -> & Hi & Hpre & Hpost); exists pre, i, post.
    all: (split_and!; [done|apply Hext; [set_solver|done]| |]).
    all: eapply Hall; [|eassumption]; intros j Hj; rewrite ?Hext by set_solver; done.
  - setoid_rewrite (Hext shape); [done|by left].
  - assert (∀ x, (value_of rows schema id f x ∧ C shape x ∧ (disjoint = true → Forall (λ j, ¬ C j x) siblings)) ↔
      (value_of rows schema id f x ∧ D shape x ∧ (disjoint = true → Forall (λ j, ¬ D j x) siblings))) as Heq.
    { intros x. rewrite (Hext shape x) by by left. rewrite !Forall_forall. destruct disjoint; [|naive_solver].
      assert (∀ j, j ∈ siblings → C j x ↔ D j x) by (intros j Hj; apply Hext; by right). naive_solver. }
    unfold counted. setoid_rewrite Heq. done.
Qed.

Lemma shape_sat_ext (C D : ShapeId → TermId → Prop) id f :
  (∀ i x, rank i < rank id → i < length (portable schema) → C i x ↔ D i x) →
  shape_sat rows term_of rdf_type schema C id f ↔ shape_sat rows term_of rdf_type schema D id f.
Proof.
  intros Hext. unfold shape_sat.
  assert (∀ s p x, portable schema !! id = Some s → p ∈ property_shapes s → C p x ↔ D p x) as Hp.
  { intros s p x Hs Hp. destruct (sk_properties _ _ Hschema id s p Hs Hp) as [Hr (s' & Hs' & _)].
    apply Hext; [done|]. by eapply lookup_lt_Some. }
  assert (∀ r c, shapes schema !! id = Some r → c ∈ constraints r →
    constraint_sat rows term_of rdf_type schema C id f c ↔ constraint_sat rows term_of rdf_type schema D id f c) as Hc.
  { intros r c Hr Hc. apply constraint_sat_ext. intros i x Hi. by apply Hext; eapply (sk_refs _ _ Hschema). }
  split; intros Hs s r Es Er Hd; destruct (Hs s r Es Er Hd) as [Hcs Hps]; (split;
    [intros c Hin; eapply Hc; eauto|intros p x Hin Hx; eapply Hp; eauto]).
Qed.

Lemma conforms_stable n m id f :
  rank id < n → rank id < m → id < length (portable schema) →
  conforms_at rows term_of rdf_type schema n id f ↔ conforms_at rows term_of rdf_type schema m id f.
Proof.
  revert m id f. induction n as [|n IH]; intros [|m] id f Hn Hm Hl; [lia..|]. cbn [conforms_at].
  apply shape_sat_ext. intros i x Hi Hil. apply IH; [lia|lia|done].
Qed.

(** [conforms] satisfies the equation of its definition. *)
Lemma conforms_unfold id f :
  id < length (portable schema) →
  conforms rows term_of rdf_type schema id f ↔
  shape_sat rows term_of rdf_type schema (conforms rows term_of rdf_type schema) id f.
Proof.
  intros Hid. pose proof (sk_rank _ _ Hschema id Hid). unfold conforms at 1, shape_fuel. cbn [conforms_at].
  apply shape_sat_ext. intros i x Hi Hl. unfold conforms. apply conforms_stable; [|by apply (sk_rank _ _ Hschema)|done].
  unfold shape_fuel in *. lia.
Qed.
End schema.

(** ** Evaluations *)

Section evaluation.
Context `{Oxrdf, !Oxsd} `{Blake3} {V : Type} `{RdfReadView V} (view : V) (sn : Snapshot) (scope : GraphVisibility).
Context (validating : option TermId) (graph : TermId) (rows : gset EncodedQuad) (term_of : TermId → option EncodedTerm).
Context (rdf_type : TermId) (schema : ResolvedSchema) (rank : ShapeId → nat) (options : ShaclValidationOptions).
Context `{Hview : !DataView view sn scope validating graph rows term_of}.
Context (Hschema : schema_ok schema rank) (Htype : TermId_fit rdf_type) (cancellable : Prop).

Let conf : ShapeId → TermId → Prop := conforms rows term_of rdf_type schema.
Let value (id : ShapeId) (f x : TermId) : Prop := value_of rows schema id f x.
Let metadata : TermId → option TermMeta := meta term_of.
Let sat : ShapeId → TermId → ResolvedConstraint → Prop := constraint_sat rows term_of rdf_type schema conf.

(** The nodes an evaluation meets: terms it can decode. *)
Definition known (x : TermId) : Prop := is_Some (term_of x) ∧ TermId_fit x.

(** A result whose terms can be decoded. *)
Definition decodable (r : PendingResult) : Prop :=
  is_Some (term_of (pr_focus r)) ∧ (∀ x, pr_value r = Some x → is_Some (term_of x)) ∧
  (∀ p, pr_path r = Some (PathPredicate p) → is_Some (term_of p)).

(** The caches hold what is true; the shapes in progress have rank [k] or
    more. *)
Record state_ok (k : nat) (s : Validator) : Prop := {
  so_context : context_ok sn scope validating (vd_context s);
  so_cancel : checks_left (vd_context s) ≠ None → cancellable;
  so_work : (path_work s ≤ u64_max)%N;
  so_metas x m : term_metas s !! x = Some m → metadata x = Some m;
  so_paths id f X : path_cache s !! (id, f) = Some X → ∀ x, x ∈ X ↔ value id f x;
  so_conforms id f : conformance_cache s !! (id, f) = Some Conforms → conf id f;
  so_violates id f : conformance_cache s !! (id, f) = Some Violates → ¬ conf id f;
  so_progress id f : conformance_cache s !! (id, f) = Some InProgress → k ≤ rank id;
  so_results : Forall decodable (results s);
}.

(** The errors an evaluation of such a schema may end with. *)
Inductive limit_error (s : Validator) : ShaclError → Prop :=
  | limit_cancelled : cancellable → limit_error s (WalkFailed (StoreFailed Cancelled))
  | limit_edges : (max_path_edges (path_options options) < u64_max)%N →
      limit_error s (WalkFailed (PathBudgetExceeded (max_path_edges (path_options options))))
  | limit_depth : max_path_depth (path_options options) ≤ size (nodes rows) →
      limit_error s (WalkFailed (PathDepthExceeded (max_path_depth (path_options options))))
  | limit_results : max_results options ≤ length (results s) →
      limit_error s (ResultLimitExceeded (max_results options)).

(** [wp k m Q s]: from [s] the evaluation ends in a good state with a value
    that satisfies [Q], or with a limit. *)
Definition wp {A} (k : nat) (m : validm A) (Q : A → Validator → Prop) (s : Validator) : Prop :=
  ∃ s' r, m s = (s', r) ∧
    match r with Ok a => state_ok k s' ∧ Q a s' | Err e => limit_error s' e | Panic => False end.

Lemma wp_bind {A B} k (m : validm A) (f : A → validm B) Q s :
  wp k m (λ a s', state_ok k s' → wp k (f a) Q s') s → wp k (st_bind m f) Q s.
Proof.
  intros (s' & r & Hr & Hm). destruct r as [a|e|]; [|by exists s', (Err e); unfold st_bind; rewrite Hr|done].
  destruct Hm as [Hok Hm]. destruct (Hm Hok) as (s'' & r & Hr' & Hm'). exists s'', r. unfold st_bind. by rewrite Hr.
Qed.

Lemma wp_ret {A} k (a : A) (Q : A → Validator → Prop) s : state_ok k s → Q a s → wp k (st_ret a) Q s.
Proof. intros Hok HQ. by exists s, (Ok a). Qed.

Lemma wp_weaken {A} k (m : validm A) (P Q : A → Validator → Prop) s :
  wp k m P s → (∀ a s', state_ok k s' → P a s' → Q a s') → wp k m Q s.
Proof.
  intros (s' & r & Hr & Hm) HPQ. exists s', r. split; [done|]. destruct r as [a|e|]; [|done|done].
  destruct Hm as [Hok Hm]. split; [done|auto].
Qed.

(** What an evaluation does to the results: none if it conforms or does not
    report, some if it reports a violation. *)
Definition progress (emit conforms : bool) (s s' : Validator) : Prop :=
  (∀ key, conformance_cache s' !! key = Some InProgress → conformance_cache s !! key = Some InProgress) ∧
  if emit && negb conforms then ∃ l, l ≠ [] ∧ results s' = results s ++ l
  else results s' = results s ∧ halted s' = halted s.

Lemma progress_refl emit s : progress emit true s s.
Proof. split; [done|]. by rewrite andb_false_r. Qed.

Lemma progress_trans emit b1 b2 s0 s1 s2 :
  progress emit b1 s0 s1 → progress emit b2 s1 s2 → progress emit (b1 && b2) s0 s2.
Proof.
  intros [Hp1 Hr1] [Hp2 Hr2]. split; [auto|]. destruct emit, b1, b2; cbn in *.
  2: { destruct Hr1 as [Hr1 _], Hr2 as (l & Hl & Hr2). exists l. by rewrite Hr2, Hr1. }
  2: { destruct Hr1 as (l & Hl & Hr1), Hr2 as [Hr2 _]. exists l. by rewrite Hr2, Hr1. }
  2: { destruct Hr1 as (l & Hl & Hr1), Hr2 as (l' & Hl' & Hr2). exists (l ++ l'). rewrite Hr2, Hr1, <- app_assoc.
       split; [|done]. by intros [-> _]%app_nil. }
  all: destruct Hr1, Hr2; split; congruence.
Qed.

(** Without a report the verdict does not matter. *)
Lemma progress_silent emit b s s' : progress emit true s s' → emit && negb b = false → progress emit b s s'.
Proof. intros [Hp Hr] He. split; [done|]. rewrite He. by rewrite andb_false_r in Hr. Qed.

(** Computations that report nothing, and computations that judge. *)
Definition quiet {A} (k : nat) (m : validm A) (P : A → Prop) : Prop :=
  ∀ s, state_ok k s → halted s = false → wp k m (λ a s', P a ∧ progress true true s s') s.
Definition judges (k : nat) (emit : bool) (m : validm bool) (C : Prop) : Prop :=
  ∀ s, state_ok k s → halted s = false → wp k m (λ b s', (b = true ↔ C) ∧ progress emit b s s') s.
Definition reporter (k : nat) (emit : bool) (m : validm ()) : Prop :=
  ∀ s, state_ok k s → halted s = false → wp k m (λ _ s', progress emit false s s') s.

Lemma progress_halted emit s s' : progress emit true s s' → halted s = false → halted s' = false.
Proof. intros [_ Hr] Hh. rewrite andb_false_r in Hr. by destruct Hr as [_ ->]. Qed.
Lemma progress_true emit emit' s s' : progress emit true s s' → progress emit' true s s'.
Proof. intros [Hp Hr]. split; [done|]. by rewrite andb_false_r in *. Qed.

Lemma quiet_ret {A} k (a : A) (P : A → Prop) : P a → quiet k (st_ret a) P.
Proof. intros HP s Hok Hh. apply wp_ret; [done|]. split; [done|apply progress_refl]. Qed.

Lemma quiet_bind {A B} k (m : validm A) (f : A → validm B) P Q :
  quiet k m P → (∀ a, P a → quiet k (f a) Q) → quiet k (st_bind m f) Q.
Proof.
  intros Hm Hf s Hok Hh. apply wp_bind. eapply wp_weaken; [by apply Hm|]. intros a s1 _ [Ha Hp] Hok1. cbn.
  eapply wp_weaken; [apply (Hf a Ha s1 Hok1); by eapply progress_halted|]. intros b s2 _ [Hb Hp2]. split; [done|].
  exact (progress_trans true true true _ _ _ Hp Hp2).
Qed.

Lemma quiet_weaken {A} k (m : validm A) (P Q : A → Prop) : quiet k m P → (∀ a, P a → Q a) → quiet k m Q.
Proof. intros Hm HPQ s Hok Hh. eapply wp_weaken; [by apply Hm|]. intros a s' _ [? ?]. split; auto. Qed.

Lemma quiet_judges k emit m C : quiet k m (λ b, b = true ↔ C) → emit = false → judges k emit m C.
Proof.
  intros Hm -> s Hok Hh. eapply wp_weaken; [by apply Hm|]. intros b s' _ [Hb Hp]. split; [done|].
  apply progress_silent; [by eapply progress_true|done].
Qed.

Lemma judges_quiet k m C : judges k false m C → quiet k m (λ b, b = true ↔ C).
Proof.
  intros Hm s Hok Hh. eapply wp_weaken; [by apply Hm|]. intros b s' _ [Hb Hp]. split; [done|].
  destruct Hp as [Hp Hr]. by split.
Qed.

(** After a quiet computation. *)
Lemma judges_bind {A} k emit (m : validm A) (f : A → validm bool) P C :
  quiet k m P → (∀ a, P a → judges k emit (f a) C) → judges k emit (st_bind m f) C.
Proof.
  intros Hm Hf s Hok Hh. apply wp_bind. eapply wp_weaken; [by apply Hm|]. intros a s1 _ [Ha Hp] Hok1. cbn.
  eapply wp_weaken; [apply (Hf a Ha s1 Hok1); by eapply progress_halted|]. intros b s2 _ [Hb Hp2]. split; [done|].
  exact (progress_trans emit true b _ _ _ (progress_true _ _ _ _ Hp) Hp2).
Qed.

Lemma judges_iff k emit m C D : judges k emit m C → (C ↔ D) → judges k emit m D.
Proof. intros Hm HCD s Hok Hh. eapply wp_weaken; [by apply Hm|]. intros b s' _ [Hb Hp]. by rewrite <- HCD. Qed.

(** A check whose failure is reported. *)
Lemma reported_judges k emit check report C :
  quiet k check (λ b, b = true ↔ C) → reporter k emit report → judges k emit (reported check report) C.
Proof.
  intros Hc Hr. unfold reported. eapply judges_bind; [exact Hc|]. intros b Hb s Hok Hh. destruct b.
  - apply wp_ret; [done|]. split; [done|apply progress_refl].
  - apply wp_bind. eapply wp_weaken; [by apply Hr|]. intros [] s1 _ Hp Hok1. by apply wp_ret.
Qed.

(** The loop of all checks, from a verdict so far. *)
Lemma each_judged_wp {A} k emit (judge : A → validm bool) (C : A → Prop) l s0 s b0 :
  (∀ x, x ∈ l → judges k emit (judge x) (C x)) → state_ok k s → halted s = false → (b0 = false → emit = true) →
  progress emit b0 s0 s →
  wp k (each_judged judge emit l b0) (λ b s', (b = true ↔ b0 = true ∧ ∀ x, x ∈ l → C x) ∧ progress emit b s0 s') s.
Proof.
  revert s b0. induction l as [|x l IH]; intros s b0 Hl Hok Hh Hf Hp0; cbn [each_judged].
  { apply wp_ret; [done|]. split; [|done]. split; [|by intros []]. intros ->. split; [done|]. by intros x ?%elem_of_nil. }
  apply wp_bind. eapply wp_weaken; [apply (Hl x); [by left|done|done]|]. intros b s1 _ [Hb Hp] Hok1. cbn.
  pose proof (progress_trans _ _ _ _ _ _ Hp0 Hp) as Hp1. destruct b.
  - rewrite andb_true_r in Hp1. pose proof (progress_halted _ _ _ Hp Hh) as Hh1.
    eapply wp_weaken; [apply (IH s1 b0); try done|].
    + intros y Hy. apply Hl. by right.
    + intros b s2 _ [Hb2 Hp2]. split; [|done]. rewrite Hb2. setoid_rewrite elem_of_cons. naive_solver.
  - rewrite andb_false_r in Hp1. assert (¬ C x) as Hx by (intros Hx; by apply Hb in Hx).
    apply wp_bind. exists s1, (Ok (halted s1)). split; [done|]. split; [done|]. intros _.
    destruct (halted s1 || negb emit) eqn:Hstop.
    + apply wp_ret; [done|]. split; [|done]. split; [done|]. intros [_ Hall]. destruct Hx. apply Hall. by left.
    + apply orb_false_iff in Hstop as [Hh1 He]. apply negb_false_iff in He.
      eapply wp_weaken; [apply (IH s1 false); try done; intros y Hy; apply Hl; by right|].
      intros b s2 _ [Hb2 Hp2]. split; [|done]. rewrite Hb2. split; [by intros [? _]|].
      intros [_ Hall]. destruct Hx. apply Hall. by left.
Qed.

Lemma each_judged_judges {A} k emit (judge : A → validm bool) (C : A → Prop) l :
  (∀ x, x ∈ l → judges k emit (judge x) (C x)) → judges k emit (each_judged judge emit l true) (∀ x, x ∈ l → C x).
Proof.
  intros Hl s Hok Hh. eapply wp_weaken; [apply (each_judged_wp k emit judge C l s s true); try done|].
  - apply progress_refl.
  - intros b s' _ [Hb Hp]. split; [|done]. rewrite Hb. tauto.
Qed.

(** *** Reads *)

Lemma quiet_walk {A} k c (m : pathm A) P :
  walks sn scope validating rows (path_options options) c m P → quiet k (vd_walk m) P.
Proof.
  intros Hm s Hok Hh. destruct (Hm (vd_context s) (path_work s) (so_context _ _ Hok) (so_work _ _ Hok))
    as (cx & w & r & Hr & Hcx & Hw & Hn & Hres).
  unfold wp, vd_walk. rewrite Hr. eexists _, _. split; [done|].
  assert (checks_left cx ≠ None → cancellable) as Hc.
  { intros Hc. apply (so_cancel _ _ Hok). intros Hs. by apply Hc, Hn. }
  destruct Hres as [(a & -> & Ha & _)|[[-> Hc']|[[-> [_ Hb]]|[-> Hd]]]]; cbn [map_err].
  - split; [|by split]. destruct Hok. by split.
  - constructor. by apply (so_cancel _ _ Hok).
  - by constructor.
  - by constructor.
Qed.

Lemma quiet_read {A} k (m : readm A) P : reads sn scope validating m P → quiet k (vd_read m) P.
Proof. intros Hm. by apply (quiet_walk k 0), walks_read. Qed.

Lemma quiet_get {A} k (f : Validator → A) (P : A → Prop) :
  (∀ s, state_ok k s → P (f s)) → quiet k (vd_get f) P.
Proof. intros HP s Hok Hh. exists s, (Ok (f s)). split_and!; [done|done|auto|apply progress_refl]. Qed.

Lemma quiet_set k (f : Validator → Validator) :
  (∀ s, state_ok k s → state_ok k (f s) ∧ progress true true s (f s)) → quiet k (vd_set f) (λ _, True).
Proof. intros Hf s Hok Hh. exists (f s), (Ok ()). destruct (Hf s Hok). by split_and!. Qed.

Lemma portable_quiet k id s : portable schema !! id = Some s → quiet k (portable_shape schema id) (λ s', s' = s).
Proof. intros Hs. unfold portable_shape. rewrite Hs. by apply quiet_ret. Qed.
Lemma resolved_quiet k id r : shapes schema !! id = Some r → quiet k (resolved_shape schema id) (λ r', r' = r).
Proof. intros Hs. unfold resolved_shape. rewrite Hs. by apply quiet_ret. Qed.

Lemma get_meta_quiet k x : known x → quiet k (get_meta view x) (λ m, m = metadata x).
Proof.
  intros [[t Ht] _]. unfold get_meta.
  eapply quiet_bind; [apply (quiet_get _ _ (λ c, ∀ m, c = Some m → metadata x = Some m))|].
  { intros s Hok m Hm. by apply (so_metas _ _ Hok). }
  intros [m|] Hc; [apply quiet_ret; by rewrite (Hc m eq_refl)|]. clear Hc.
  eapply quiet_bind; [by apply quiet_read, (rv_decode (view := view) _ _ Ht)|]. intros ? ->.
  destruct (dv_readable (view := view) (term_of := term_of) _ _ Ht) as [m Hm].
  assert (metadata x = m) as Hx by (unfold metadata, meta; rewrite Ht; cbn; by rewrite Hm).
  eapply (quiet_bind _ _ _ (λ d, d = m)).
  { intros s Hok Hh. exists s, (Ok m). rewrite Hm. split_and!; [done..|apply progress_refl]. }
  intros ? ->. destruct m as [m|]; [|by apply quiet_ret].
  eapply quiet_bind; [|intros _ _; by apply quiet_ret].
  apply quiet_set. intros s []. split; [|by split]. split; try done. cbn.
  intros y my. rewrite lookup_insert_Some. intros [[<- <-]|[_ ?]]; auto.
Qed.

Lemma meta_check_quiet k f x : known x → quiet k (meta_check view f x) (λ b, b = f (metadata x)).
Proof. intros Hx. eapply quiet_bind; [by apply get_meta_quiet|]. intros ? ->. by apply quiet_ret. Qed.

(** What is asked of a list of values, one at a time. *)
Lemma value_known id f x : known f → value id f x → known x.
Proof.
  intros Hf Hx. unfold value, value_of in Hx. destruct (shapes schema !! id ≫= path) as [p|] eqn:E; [|by subst].
  assert (path_fit p) as Hp.
  { apply bind_Some in E as (r & Hr & Hp). by apply (sk_path _ _ Hschema id r). }
  pose proof (walk_ok view sn scope validating graph rows (path_options options) p false Hp) as [Hr _].
  destruct (Hr f x Hx) as [->|Hn]; [done|]. split; [|by eapply (nodes_fit view sn scope validating graph rows)].
  unfold nodes in Hn. rewrite elem_of_union, !elem_of_map in Hn.
  destruct Hn as [(q & -> & Hq)|(q & -> & Hq)]; by apply (rv_known (view := view)) in Hq as (? & ? & ?).
Qed.

Lemma shape_of id : id < length (portable schema) →
  ∃ s r, portable schema !! id = Some s ∧ shapes schema !! id = Some r.
Proof.
  intros Hid. destruct (lookup_lt_is_Some_2 (portable schema) id Hid) as [s Hs].
  rewrite <- (sk_length _ _ Hschema) in Hid. destruct (lookup_lt_is_Some_2 (shapes schema) id Hid) as [r Hr]. eauto.
Qed.

Lemma value_path id r : shapes schema !! id = Some r →
  value id = match path r with Some p => values_rel rows p | None => λ f x, x = f end.
Proof. intros Hr. unfold value, value_of. rewrite Hr. cbn. by destruct (path r). Qed.

(** Whether the capped walks of a shape are exact. *)
Definition shape_exact (r : ResolvedShape) : bool := from_option cap_exact true (path r).

Lemma shape_values_quiet k id r f cap :
  shapes schema !! id = Some r → known f →
  quiet k (shape_values view graph schema options id f cap)
    (λ X, match cap with
          | None => ∀ x, x ∈ X ↔ value id f x
          | Some n => (∀ x, x ∈ X → value id f x) ∧
                      (shape_exact r = true → n ≤ size X ∨ ∀ x, value id f x → x ∈ X)
          end).
Proof.
  intros Hr Hf. unfold shape_values. eapply quiet_bind; [by apply resolved_quiet|]. intros ? ->.
  pose proof (value_path id r Hr) as Hval. destruct (path r) as [p|] eqn:Hp.
  2: { apply quiet_ret. rewrite Hval. destruct cap; [|intros x; apply elem_of_singleton].
       split; [by intros x ->%elem_of_singleton|]. right. intros x ->. by apply elem_of_singleton. }
  eapply quiet_bind; [apply (quiet_get _ _ (λ c, ∀ X, c = Some X → ∀ x, x ∈ X ↔ value id f x))|].
  { intros s Hok X HX. by apply (so_paths _ _ Hok). }
  intros c Hc. assert (∀ cap, quiet k (vd_walk (values view graph (path_options options) f p cap))
    (good (cap_exact p) cap (values_rel rows p f))) as Hw.
  { intros cap'. eapply quiet_walk, values_walks; [apply _|by apply (sk_path _ _ Hschema id r)|apply Hf]. }
  destruct cap as [n|]; [|destruct c as [X|]; [by apply quiet_ret, Hc|]].
  - eapply quiet_bind; [apply Hw|]. intros X [HX1 HX2]. apply quiet_ret. rewrite Hval. split; [done|].
    unfold shape_exact. rewrite Hp. cbn. intros He. rewrite He in HX2. cbn in HX2.
    destruct (decide (n ≤ size X)) as [|Hn]; [by left|right]. apply HX2. by apply bool_decide_eq_false.
  - eapply quiet_bind; [apply Hw|]. intros X [HX1 HX2].
    assert (∀ x, x ∈ X ↔ value id f x) as HX.
    { rewrite Hval. intros x. split; [auto|]. apply HX2. by destruct (cap_exact p). }
    eapply (quiet_bind _ _ _ (λ _, True)); [|intros _ _; by apply quiet_ret].
    apply quiet_set. intros s []. split; [|by split]. split; try done. cbn.
    intros id' f' X'. rewrite lookup_insert_Some. intros [[[= <- <-] <-]|[_ ?]]; eauto.
Qed.

Lemma exists_edge_quiet k s p o :
  TermId_fit s → TermId_fit p → TermId_fit o →
  quiet k (exists_edge view graph s p o) (λ b, b = true ↔ edge rows p s o).
Proof.
  intros Hs Hp Ho. apply quiet_read. eapply reads_weaken.
  { apply (rv_exists (view := view) (rows := rows)). by repeat constructor. }
  intros b ->. setoid_rewrite matches_true. unfold edge. cbn. split.
  - intros (q & Hq & _ & H3 & H4 & H5). exists q. split_and!; [done|symmetry; auto..].
  - intros (q & Hq & <- & <- & <-). exists q. split_and!; [done|by intros ? [= <-]..].
Qed.

Lemma column_loop_reads column fuel c l acc :
  length l < fuel → pending sn scope validating c l →
  reads sn scope validating (column_loop column fuel c acc)
    (λ X, ∀ x, x ∈ X ↔ x ∈ acc ∨ ∃ q, q ∈ l ∧ x = column q).
Proof.
  pose proof (av_sound (view := view)) as Hs.
  revert c l acc. induction fuel as [|fuel IH]; intros c l acc Hf Hc; [lia|]. cbn [column_loop].
  eapply reads_bind; [apply cursor_next_read; [apply Hs..|exact Hc]|]. intros [q c'] [Hq Hc']. cbn [fst snd] in *. subst q.
  destruct l as [|q l]; cbn [head tail length] in *.
  - apply reads_ret. intros x. split; [by left|]. by intros [?|(q & ?%elem_of_nil & _)].
  - eapply reads_weaken; [apply (IH c' l); [lia|done]|]. cbv beta. intros X HX x. rewrite HX, elem_of_union, elem_of_singleton.
    setoid_rewrite elem_of_cons. naive_solver.
Qed.

(** The rows of one scan, gathered by a column. *)
Lemma scan_column_reads column p acc :
  pattern_fit p →
  reads sn scope validating (c ⇐ scan view (Named graph) p; column_loop column (S (cursor_len c)) c acc)
    (λ X, ∀ x, x ∈ X ↔ x ∈ acc ∨ ∃ q, q ∈ rows ∧ matches p q = true ∧ x = column q).
Proof.
  intros Hp. eapply reads_bind; [by apply (av_scan (view := view))|]. intros c (l & Hc & _ & Hl).
  pose proof (pending_length _ _ _ _ _ Hc). eapply reads_weaken; [by apply (column_loop_reads _ _ _ l); [lia|]|].
  cbv beta. intros X HX x. rewrite HX. setoid_rewrite Hl. naive_solver.
Qed.

Lemma object_values_quiet k f p :
  TermId_fit f → TermId_fit p →
  quiet k (object_values view graph f p) (λ X, ∀ x, x ∈ X ↔ edge rows p f x).
Proof.
  intros Hf Hp. apply quiet_read. eapply reads_weaken; [apply scan_column_reads; by repeat constructor|].
  cbv beta. intros X HX x. rewrite HX, elem_of_empty. setoid_rewrite matches_true. unfold edge. cbn. split.
  - intros [?|(q & Hq & (_ & H3 & H4 & _) & ->)]; [done|]. exists q. split_and!; [done|symmetry; auto..|done].
  - intros (q & Hq & <- & <- & <-). right. exists q. split_and!; [done|done|by intros ? [= <-]..|done|done].
Qed.

Lemma has_value_quiet k id r f expected :
  shapes schema !! id = Some r → known f → TermId_fit expected →
  quiet k (has_value view graph schema options id f expected) (λ b, b = true ↔ value id f expected).
Proof.
  intros Hr Hf He. pose proof (value_path id r Hr) as Hval. unfold has_value.
  eapply quiet_bind; [by apply resolved_quiet|]. intros ? ->.
  assert (quiet k (X ⇐ shape_values view graph schema options id f None; st_ret (bool_decide (expected ∈ X)))
    (λ b, b = true ↔ value id f expected)) as Hgen.
  { eapply quiet_bind; [by apply shape_values_quiet|]. cbn. intros X HX. apply quiet_ret.
    by rewrite bool_decide_eq_true, HX. }
  destruct (path r) as [p|] eqn:Hp.
  2: { apply quiet_ret. rewrite Hval, bool_decide_eq_true. done. }
  pose proof (sk_path _ _ Hschema id r p Hr Hp) as Hpf. rewrite Hval. rewrite Hval in Hgen.
  destruct p as [i|l|l|p|p|p|p]; try exact Hgen.
  - apply (proj1 (Forall_singleton TermId_fit i)) in Hpf. apply exists_edge_quiet; first [exact (proj2 Hf)|done].
  - destruct p as [i|l|l|p|p|p|p]; try exact Hgen. apply (proj1 (Forall_singleton TermId_fit i)) in Hpf.
    apply exists_edge_quiet; first [exact (proj2 Hf)|done].
Qed.

(** *** Reports *)

Lemma violate_wp k emit id c f x p component s :
  id < length (portable schema) → known f → (∀ y, x = Some y → known y) →
  (∀ q, p = Some (PathPredicate q) → is_Some (term_of q)) → state_ok k s →
  wp k (violate schema options id c f x p component emit) (λ _ s', progress emit false s s') s.
Proof.
  intros Hid Hf Hx Hp Hok. destruct (shape_of id Hid) as (sh & r & Hs & _). unfold violate. destruct emit; cbn [negb].
  2: { apply wp_ret; [done|]. apply progress_silent; [apply progress_refl|done]. }
  unfold portable_shape. rewrite Hs. apply wp_bind, wp_ret; [done|]. intros _. apply wp_bind.
  exists s, (Ok (length (results s))). split; [done|]. split; [done|]. intros _. case_decide as Hm.
  - exists s. eexists. split; [done|]. by constructor.
  - eexists _, (Ok ()). split; [done|]. destruct Hok. split; [|split; [done|cbn; eexists [_]; by split]].
    split; try done. cbn. apply Forall_app. split; [done|]. apply Forall_singleton. split_and!; cbn.
    + apply Hf.
    + intros y Hy. by apply Hx.
    + intros q. destruct p; [apply Hp|]. by destruct (plan_path sh).
Qed.
Lemma violate_reporter k emit id c f x component :
  id < length (portable schema) → known f → (∀ y, x = Some y → known y) →
  reporter k emit (violate schema options id c f x None component emit).
Proof. intros Hid Hf Hx s Hok _. by apply violate_wp. Qed.

(** *** Constraints on values *)

Section values.
Context (k : nat) (emit : bool).

Lemma each_value_judges check report (X : gset TermId) (C : TermId → Prop) :
  (∀ x, x ∈ X → quiet k (check x) (λ b, b = true ↔ C x)) → (∀ x, x ∈ X → reporter k emit (report x)) →
  judges k emit (each_value check report emit (btree_elems X)) (∀ x, x ∈ X → C x).
Proof.
  intros Hx Hrep. unfold each_value. eapply judges_iff.
  - apply (each_judged_judges _ _ _ C). intros x Hin%elem_of_btree_elems. apply reported_judges; auto.
  - setoid_rewrite elem_of_btree_elems. done.
Qed.

Lemma meta_sat_true (P : TermMeta → Prop) (g : option TermMeta → bool) x :
  g None = false → (∀ m, g (Some m) = true ↔ P m) → g (metadata x) = true ↔ meta_sat term_of P x.
Proof.
  intros Hn Hs. unfold meta_sat. fold metadata. destruct (metadata x) as [m|].
  - rewrite Hs. split; [by eauto|]. by intros (m' & [= <-] & ?).
  - rewrite Hn. split; [done|]. by intros (m' & ? & _).
Qed.

(** A check of the metadata of a value. *)
Lemma meta_check_sat (P : TermMeta → Prop) (g : option TermMeta → bool) x :
  known x → g None = false → (∀ m, g (Some m) = true ↔ P m) →
  quiet k (meta_check view g x) (λ b, b = true ↔ meta_sat term_of P x).
Proof.
  intros Hx Hn Hs. eapply quiet_weaken; [by apply meta_check_quiet|]. intros b ->. by apply meta_sat_true.
Qed.

Lemma ordered_true g m n : ordered g (Some m) (Some n) = true ↔ boundary_sat g n m.
Proof.
  unfold ordered, boundary_sat. destruct (meta_cmp m n) as [d|]; cbn; [|by split; [|intros (? & ? & _)]].
  split; [by eauto|]. by intros (d' & [= <-] & ?).
Qed.

Lemma all_ordered_quiet g m others :
  (∀ y, y ∈ others → known y) →
  quiet k (all_ordered view g m others)
    (λ b, b = true ↔ ∀ y, y ∈ others → meta_sat term_of (λ n, boundary_sat g n m) y).
Proof.
  intros Hk. induction others as [|y others IH]; cbn [all_ordered].
  { apply quiet_ret. split; [|done]. by intros _ y ?%elem_of_nil. }
  eapply quiet_bind; [apply get_meta_quiet, Hk; by left|]. intros ? ->.
  pose proof (meta_sat_true (λ n, boundary_sat g n m) (ordered g (Some m)) y eq_refl (ordered_true g m)) as Hy.
  destruct (ordered g (Some m) (metadata y)).
  - eapply quiet_weaken; [apply IH; intros z Hz; apply Hk; by right|]. intros b ->.
    setoid_rewrite elem_of_cons. naive_solver.
  - apply quiet_ret. split; [done|]. intros Hall. apply Hy, Hall. by left.
Qed.

Lemma less_check_quiet g (other : gset TermId) x :
  known x → (∀ y, y ∈ other → known y) →
  quiet k (less_check view g other x)
    (λ b, b = true ↔ ∃ m, meta term_of x = Some m ∧ ∀ y, y ∈ other → meta_sat term_of (λ n, boundary_sat g n m) y).
Proof.
  intros Hx Hk. unfold less_check. eapply quiet_bind; [by apply get_meta_quiet|]. intros ? ->.
  fold metadata. destruct (metadata x) as [m|].
  - eapply quiet_weaken; [apply all_ordered_quiet; intros y Hy%elem_of_btree_elems; auto|]. intros b ->.
    setoid_rewrite elem_of_btree_elems. split; [by eauto|]. by intros (m' & [= <-] & ?).
  - apply quiet_ret. split; [done|]. by intros (m & ? & _).
Qed.

End values.

(** *** Logical constraints *)

Section constraint.
Context (k : nat) (conforms_to : ShapeId → TermId → validm bool) (c : ResolvedConstraint).
Context (Hconf : ∀ i x, i ∈ constraint_refs c → known x → quiet k (conforms_to i x) (λ b, b = true ↔ conf i x)).

Definition trues (bs : list bool) : nat := length (filter (λ b, b = true) bs).
Lemma trues_cons b bs : trues (b :: bs) = if b then S (trues bs) else trues bs.
Proof. by destruct b. Qed.
Lemma trues_le bs : trues bs ≤ length bs.
Proof. apply length_filter. Qed.

Lemma matching_quiet x ids n :
  known x → (∀ i, i ∈ ids → i ∈ constraint_refs c) →
  quiet k (matching conforms_to x ids n)
    (λ m, ∃ bs, Forall2 (λ i b, b = true ↔ conf i x) ids bs ∧ m = n + trues bs).
Proof.
  intros Hx. revert n. induction ids as [|i ids IH]; intros n Hi; cbn [matching].
  { apply quiet_ret. exists []. split; [constructor|]. cbn. lia. }
  eapply quiet_bind; [apply Hconf; [apply Hi; by left|done]|]. intros b Hb.
  eapply quiet_weaken; [apply IH; intros j Hj; apply Hi; by right|]. intros m (bs & Hbs & ->).
  exists (b :: bs). split; [by constructor|]. rewrite trues_cons. destruct b; lia.
Qed.

Lemma trues_all ids bs x :
  Forall2 (λ i b, b = true ↔ conf i x) ids bs → trues bs = length ids ↔ Forall (λ i, conf i x) ids.
Proof.
  induction 1 as [|i b ids bs Hi Hbs IH]; [done|]. rewrite trues_cons, Forall_cons.
  rewrite <- Hi, <- IH. pose proof (trues_le bs). apply Forall2_length in Hbs.
  destruct b; cbn; (split; [intros ?; split; [done || lia|lia]|intros [? ?]; done || lia]).
Qed.
Lemma trues_none ids bs x :
  Forall2 (λ i b, b = true ↔ conf i x) ids bs → trues bs = 0 ↔ Forall (λ i, ¬ conf i x) ids.
Proof.
  induction 1 as [|i b ids bs Hi Hbs IH]; [done|]. rewrite trues_cons, Forall_cons, <- Hi, <- IH.
  destruct b; cbn; (split; [intros ?; split; [done || lia|lia]|intros [? ?]; done || lia]).
Qed.
Lemma trues_some ids bs x :
  Forall2 (λ i b, b = true ↔ conf i x) ids bs → 0 < trues bs ↔ Exists (λ i, conf i x) ids.
Proof.
  induction 1 as [|i b ids bs Hi Hbs IH]; [by split; [cbn; lia|inversion 1]|].
  rewrite trues_cons, Exists_cons, <- Hi, <- IH.
  destruct b; cbn; (split; [intros ?; try (by left); by right|intros [?|?]; done || lia]).
Qed.
Lemma trues_one ids bs x :
  Forall2 (λ i b, b = true ↔ conf i x) ids bs →
  trues bs = 1 ↔ ∃ pre i post, ids = pre ++ i :: post ∧ conf i x ∧
    Forall (λ j, ¬ conf j x) pre ∧ Forall (λ j, ¬ conf j x) post.
Proof.
  induction 1 as [|i b ids bs Hi Hbs IH].
  { split; [done|]. by intros ([] & ? & ? & ? & _). }
  pose proof (trues_none _ _ _ Hbs) as Hnone. rewrite trues_cons. destruct b.
  - split.
    + intros [= Ht]. exists [], i, ids. split_and!; [done|by apply Hi|constructor|by apply Hnone].
    + intros ([|j pre] & i' & post & Heq & Hi' & Hpre & Hpost); injection Heq as -> ->.
      * f_equal. by apply Hnone.
      * apply Forall_cons in Hpre as [Hj _]. destruct Hj. by apply Hi.
  - rewrite IH. split.
    + intros (pre & j & post & -> & Hj & Hpre & Hpost). exists (i :: pre), j, post. split_and!; try done.
      constructor; [|done]. intros Hc'. by apply Hi in Hc'.
    + intros ([|j pre] & i' & post & Heq & Hi' & Hpre & Hpost); injection Heq as -> ->.
      * by apply Hi in Hi'.
      * apply Forall_cons in Hpre as [_ Hpre]. eauto 10.
Qed.

Lemma any_match_quiet x ids :
  known x → (∀ i, i ∈ ids → i ∈ constraint_refs c) →
  quiet k (any_match conforms_to x ids) (λ b, b = true ↔ Exists (λ i, conf i x) ids).
Proof.
  intros Hx. induction ids as [|i ids IH]; intros Hi; cbn [any_match].
  { apply quiet_ret. split; [done|]. by inversion 1. }
  eapply quiet_bind; [apply Hconf; [apply Hi; by left|done]|]. intros b Hb. destruct b.
  - apply quiet_ret. split; [|done]. intros _. left. by apply Hb.
  - eapply quiet_weaken; [apply IH; intros j Hj; apply Hi; by right|]. intros b ->. rewrite Exists_cons. naive_solver.
Qed.

(** What a qualified value shape counts. *)
Definition qualified (i : ShapeId) (disjoint : bool) (siblings : list ShapeId) (x : TermId) : Prop :=
  conf i x ∧ (disjoint = true → Forall (λ j, ¬ conf j x) siblings).

Lemma qualified_count_quiet i disjoint siblings vs n :
  i ∈ constraint_refs c → (∀ j, disjoint = true → j ∈ siblings → j ∈ constraint_refs c) →
  NoDup vs → (∀ x, x ∈ vs → known x) →
  quiet k (qualified_count conforms_to i disjoint siblings vs n)
    (λ m, ∃ Y : gset TermId, (∀ x, x ∈ Y ↔ x ∈ vs ∧ qualified i disjoint siblings x) ∧ m = n + size Y).
Proof.
  intros Hi Hsib Hnd Hk. revert n. induction Hnd as [|x vs Hx Hnd IH]; intros n; cbn [qualified_count].
  { apply quiet_ret. exists ∅. rewrite size_empty. split; [|lia]. intros x.
    by split; [intros ?%elem_of_empty|intros [?%elem_of_nil _]]. }
  eapply quiet_bind; [apply Hconf; [done|apply Hk; by left]|]. intros b Hb.
  specialize (IH (λ y Hy, Hk y ltac:(by right))).
  assert (∀ m, (∃ Y : gset TermId, (∀ y, y ∈ Y ↔ y ∈ vs ∧ qualified i disjoint siblings y) ∧ m = n + size Y) →
    ¬ qualified i disjoint siblings x →
    ∃ Y : gset TermId, (∀ y, y ∈ Y ↔ y ∈ x :: vs ∧ qualified i disjoint siblings y) ∧ m = n + size Y) as Hskip.
  { intros m (Y & HY & ->) Hn. exists Y. split; [|done]. intros y. rewrite HY, elem_of_cons. naive_solver. }
  destruct b; cbn [negb].
  2: { eapply quiet_weaken; [apply IH|]. intros m Hm. apply Hskip; [done|]. intros [Hq _]. by apply Hb in Hq. }
  eapply (quiet_bind _ _ _ (λ b, b = true ↔ disjoint = true ∧ Exists (λ j, conf j x) siblings)).
  { destruct disjoint; [|by apply quiet_ret; split; [|intros []]].
    eapply quiet_weaken; [apply any_match_quiet; [apply Hk; by left|auto]|]. intros b ->. naive_solver. }
  intros s Hs. eapply quiet_weaken; [apply IH|]. intros m (Y & HY & ->).
  assert (qualified i disjoint siblings x ↔ s = false) as Hq.
  { unfold qualified. rewrite <- Hb. transitivity (¬ (disjoint = true ∧ Exists (λ j, conf j x) siblings)).
    - rewrite Forall_Exists_neg. naive_solver.
    - rewrite <- Hs. by destruct s. }
  destruct s; [apply Hskip; [eauto|by rewrite Hq]|]. exists ({[x]} ∪ Y). split.
  - intros y. rewrite elem_of_union, elem_of_singleton, HY, elem_of_cons. naive_solver.
  - rewrite size_union, size_singleton; [lia|]. intros y ->%elem_of_singleton Hy. by apply HY in Hy as [? _].
Qed.

End constraint.

(** *** Unique languages *)

Definition tag_of (x : TermId) : option bytes := metadata x ≫= language.
Fixpoint tags_new (seen : gset bytes) (vs : list TermId) : Prop :=
  match vs with
  | [] => True
  | x :: vs => match tag_of x with Some l => (l ∉ seen) ∧ tags_new ({[l]} ∪ seen) vs | None => tags_new seen vs end
  end.

Lemma tags_new_spec seen vs :
  NoDup vs →
  tags_new seen vs ↔
  (∀ x l, x ∈ vs → tag_of x = Some l → l ∉ seen) ∧
  (∀ x y l, x ∈ vs → y ∈ vs → x ≠ y → tag_of x = Some l → tag_of y ≠ Some l).
Proof.
  intros Hnd. revert seen. induction Hnd as [|x vs Hx Hnd IH]; intros seen; cbn [tags_new].
  { split; [|done]. intros _. split; [by intros ? ? ?%elem_of_nil|by intros ? ? ? ?%elem_of_nil]. }
  setoid_rewrite elem_of_cons. destruct (tag_of x) as [l|] eqn:Ex; rewrite IH.
  - setoid_rewrite elem_of_union. setoid_rewrite elem_of_singleton. split.
    + intros (Hl & H5 & H6). split; [naive_solver|].
      intros y z l' [->|Hy] [->|Hz] Hne Hty Htz; try done; try naive_solver.
    + intros [H5 H6]. split_and!; [naive_solver| |naive_solver]. intros y l' Hy Ht [->|Hs]; [|naive_solver].
      by apply (H6 y x l); auto; intros ->.
  - split; [|naive_solver]. intros [H5 H6]. split; [naive_solver|].
    intros y z l' [->|Hy] [->|Hz] Hne Hty Htz; try done; try naive_solver; congruence.
Qed.

(** The loop, from a set of tags already reported: they are violations. *)
Lemma unique_lang_wp k emit report vs s0 s seen said b0 :
  reporter k emit report → (∀ x, x ∈ vs → known x) → state_ok k s → halted s = false →
  progress emit b0 s0 s → (b0 = false → emit = true) → (b0 = true → said = ∅) →
  wp k (unique_lang view report emit vs seen said b0)
    (λ b s', (b = true ↔ b0 = true ∧ tags_new seen vs) ∧ progress emit b s0 s') s.
Proof.
  intros Hrep. revert s seen said b0. induction vs as [|x vs IH]; intros s seen said b0 Hk Hok Hh Hp0 He Hsaid;
    cbn [unique_lang tags_new].
  { apply wp_ret; [done|]. split; [|done]. split; [|by intros []]. by intros ->. }
  specialize (λ s seen said b0, IH s seen said b0 (λ y Hy, Hk y ltac:(by right))).
  apply wp_bind. eapply wp_weaken; [apply (get_meta_quiet k x); [apply Hk; by left|done|done]|].
  intros m s1 Hok1 [-> Hp] _. fold (tag_of x). pose proof (progress_halted _ _ _ Hp Hh) as Hh1.
  pose proof (progress_trans _ _ _ _ _ _ Hp0 (progress_true _ emit _ _ Hp)) as Hp1. rewrite andb_true_r in Hp1.
  destruct (tag_of x) as [l|]; [|by apply IH]. case_decide as Hseen.
  2: { eapply wp_weaken; [by apply IH|]. intros b s2 _ [Hb Hp2]. split; [|done]. rewrite Hb. tauto. }
  case_decide as Hrp.
  { assert (b0 = false) as -> by (destruct b0; [rewrite Hsaid in Hrp by done; by apply elem_of_empty in Hrp|done]).
    eapply wp_weaken; [by apply IH|]. intros b s2 _ [Hb Hp2]. split; [|done]. rewrite Hb. naive_solver. }
  apply wp_bind. eapply wp_weaken; [by apply Hrep|]. intros [] s2 _ Hpr Hok2.
  pose proof (progress_trans _ _ _ _ _ _ Hp1 Hpr) as Hp2. rewrite andb_false_r in Hp2.
  apply wp_bind. exists s2, (Ok (halted s2)). split; [done|]. split; [done|]. intros _.
  destruct (halted s2 || negb emit) eqn:Hstop.
  - apply wp_ret; [done|]. split; [|done]. split; [done|]. by intros (_ & Hn & _).
  - apply orb_false_iff in Hstop as [Hh2 He2]. apply negb_false_iff in He2.
    eapply wp_weaken; [by apply IH|]. intros b s3 _ [Hb Hp3]. split; [|done]. rewrite Hb. naive_solver.
Qed.

(** *** Closed shapes *)

Lemma quiet_fold {S A} k (g : S → A → validm S) (I : list A → S → Prop) l s :
  I [] s → (∀ pre x s, x ∈ l → I pre s → quiet k (g s x) (I (pre ++ [x]))) → quiet k (st_fold g s l) (I l).
Proof.
  enough (∀ pre s, I pre s → (∀ pre x s, x ∈ l → I pre s → quiet k (g s x) (I (pre ++ [x]))) →
    quiet k (st_fold g s l) (I (pre ++ l))) as Hl by exact (Hl [] s).
  clear s. induction l as [|x l IH]; intros pre s Hs Hg; cbn [st_fold].
  - apply quiet_ret. by rewrite app_nil_r.
  - eapply quiet_bind; [apply Hg; [by left|done]|]. intros s' Hs'.
    rewrite (cons_middle x pre l), app_assoc. apply IH; [done|]. intros pre' y s'' Hy. apply Hg. by right.
Qed.

Lemma allowed_quiet k id sh ignored :
  portable schema !! id = Some sh →
  quiet k (allowed_properties schema id ignored) (λ X, ∀ i, i ∈ X ↔ allowed_predicate schema id ignored i).
Proof.
  intros Hsh. unfold allowed_properties. eapply quiet_bind; [by apply portable_quiet|]. intros ? ->.
  eapply quiet_weaken; [apply (quiet_fold _ _ (λ pre X, ∀ i, i ∈ X ↔ i ∈ ignored ∨
    ∃ p r, p ∈ pre ∧ shapes schema !! p = Some r ∧ path r = Some (Predicate i)))|].
  - intros i. split; [by left|]. by intros [?|(p & r & ?%elem_of_nil & _)].
  - intros pre p X Hp HX. destruct (sk_properties _ _ Hschema id sh p Hsh Hp) as [_ (s' & Hs' & _)].
    destruct (shape_of p) as (_ & r & _ & Hr); [by eapply lookup_lt_Some|].
    eapply quiet_bind; [by apply resolved_quiet|]. intros ? ->. apply quiet_ret. cbv beta in HX |- *. intros i.
    assert ((∃ p' r', p' ∈ pre ++ [p] ∧ shapes schema !! p' = Some r' ∧ path r' = Some (Predicate i)) ↔
      (∃ p' r', p' ∈ pre ∧ shapes schema !! p' = Some r' ∧ path r' = Some (Predicate i)) ∨ path r = Some (Predicate i)) as ->.
    { setoid_rewrite elem_of_app. setoid_rewrite elem_of_cons. split.
      - intros (p' & r' & [?|[->|?%elem_of_nil]] & ? & ?); [left; eauto|right; congruence|done].
      - intros [(p' & r' & ? & ? & ?)|?]; eauto 10. }
    specialize (HX i). destruct (path r) as [[j| | | | | |]|]; rewrite ?elem_of_union, ?elem_of_singleton, HX; naive_solver.
  - cbv beta. intros X HX i. rewrite HX. unfold allowed_predicate. naive_solver.
Qed.

Lemma closed_loop_wp k emit report allowed fuel c l s0 s b0 :
  (∀ q, q ∈ l → reporter k emit (report q)) → length l < fuel → pending sn scope validating c l →
  state_ok k s → halted s = false → progress emit b0 s0 s → (b0 = false → emit = true) →
  wp k (closed_loop fuel report emit allowed c b0)
    (λ b s', (b = true ↔ b0 = true ∧ ∀ q, q ∈ l → quad_predicate q ∈ allowed) ∧ progress emit b s0 s') s.
Proof.
  pose proof (av_sound (view := view)) as Hs.
  revert c l s b0. induction fuel as [|fuel IH]; intros c l s b0 Hrep Hf Hc Hok Hh Hp0 He; [lia|]. cbn [closed_loop].
  apply wp_bind. eapply wp_weaken.
  { apply (quiet_read k _ _ (cursor_next_read sn scope validating (ss_terms _ Hs) (ss_graphs _ Hs) c l Hc)); done. }
  intros [q c'] s1 _ [[Hq Hc'] Hp] Hok1. cbn [fst snd] in *. subst q. pose proof (progress_halted _ _ _ Hp Hh) as Hh1.
  pose proof (progress_trans _ _ _ _ _ _ Hp0 (progress_true _ emit _ _ Hp)) as Hp1. rewrite andb_true_r in Hp1.
  destruct l as [|q l]; cbn [head tail length] in *.
  { apply wp_ret; [done|]. split; [|done]. split; [|by intros []]. intros ->. split; [done|]. by intros q ?%elem_of_nil. }
  specialize (λ s b0, IH c' l s b0 (λ q' Hq', Hrep q' ltac:(by right))). case_decide as Hin.
  { eapply wp_weaken; [apply (IH s1 b0); [lia|done..]|]. intros b s2 _ [Hb Hp2]. split; [|done].
    rewrite Hb, cons_all. tauto. }
  apply wp_bind. eapply wp_weaken; [apply Hrep; [by left|done|done]|]. intros [] s2 _ Hpr Hok2.
  pose proof (progress_trans _ _ _ _ _ _ Hp1 Hpr) as Hp2. rewrite andb_false_r in Hp2.
  apply wp_bind. exists s2, (Ok (halted s2)). split; [done|]. split; [done|]. intros _.
  destruct (halted s2 || negb emit) eqn:Hstop.
  - apply wp_ret; [done|]. split; [|done]. split; [done|]. by intros [_ [? _]%cons_all].
  - apply orb_false_iff in Hstop as [Hh2 He2]. apply negb_false_iff in He2.
    eapply wp_weaken; [apply (IH s2 false); [lia|done..]|]. intros b s3 _ [Hb Hp3]. split; [|done].
    rewrite Hb, cons_all. naive_solver.
Qed.

Lemma closed_judges k emit id sh f c ignored :
  portable schema !! id = Some sh → known f → c = CClosed ignored →
  judges k emit (evaluate_closed view graph schema options id f c ignored emit) (sat id f c).
Proof.
  intros Hsh Hf ->. unfold evaluate_closed. eapply judges_bind; [by eapply allowed_quiet|]. cbv beta. intros X HX.
  eapply judges_bind; [apply quiet_read, (av_scan (view := view)); repeat constructor; apply Hf|].
  intros cur (l & Hl & _ & Hrows) s Hok Hh. pose proof (pending_length _ _ _ _ _ Hl).
  eapply wp_weaken; [apply (closed_loop_wp _ _ _ _ _ _ l s s true); try done|].
  - intros q Hq%Hrows s1 Hs1 _. destruct Hq as [Hq _]. pose proof (rv_known (view := view) q Hq) as (_ & Hqp & Hqo).
    apply violate_wp; [by eapply lookup_lt_Some|done| |by intros ? [= <-]|done]. intros y [= <-]. split; [done|].
    by apply (av_fit (view := view)) in Hq as [_ ?].
  - lia.
  - apply progress_refl.
  - intros b s' _ [Hb Hp]. split; [|done]. rewrite Hb. setoid_rewrite Hrows. setoid_rewrite matches_true. cbn.
    setoid_rewrite HX. split.
    + intros [_ Hall] q Hq Hqf. apply Hall. split_and!; [done|by intros ? [=]|by intros ? [= <-]|by intros ? [=]..].
    + intros Hall. split; [done|]. intros q (Hq & _ & Hs & _). apply Hall; [done|]. symmetry. by apply Hs.
Qed.

(** *** One constraint *)

(** The verdicts a constraint asks of other shapes. *)
Definition decides (k : nat) (conforms_to : ShapeId → TermId → validm bool) (c : ResolvedConstraint) : Prop :=
  ∀ i x, i ∈ constraint_refs c → known x → quiet k (conforms_to i x) (λ b, b = true ↔ conf i x).

Section one.
Context (k : nat) (emit : bool) (id : ShapeId) (sh : CompiledShape) (r : ResolvedShape) (f : TermId).
Context (Hsh : portable schema !! id = Some sh) (Hr : shapes schema !! id = Some r) (Hf : known f).
Context (conforms_to : ShapeId → TermId → validm bool).

(** A property every value is checked for. *)
Lemma every_value_judges c check (X : gset TermId) (C : TermId → Prop) :
  (∀ x, x ∈ X ↔ value id f x) → (∀ x, known x → quiet k (check x) (λ b, b = true ↔ C x)) →
  judges k emit (each_value check (λ x, violate schema options id c f (Some x) None None emit) emit (btree_elems X))
    (∀ x, value id f x → C x).
Proof.
  intros HX Hcheck. eapply judges_iff; [apply (each_value_judges k emit _ _ X C)|by setoid_rewrite HX].
  - intros x Hx. apply Hcheck. by apply (value_known id f), HX.
  - intros x Hx. apply violate_reporter; [by eapply lookup_lt_Some|done|]. intros y [= <-]. by apply (value_known id f), HX.
Qed.

(** A property no node of a set may have. *)
Lemma no_value_judges c (X : gset TermId) (C : TermId → Prop) :
  (∀ x, x ∈ X ↔ C x) → (∀ x, C x → known x) →
  judges k emit
    (each_value (λ _, st_ret false) (λ x, violate schema options id c f (Some x) None None emit) emit (btree_elems X))
    (∀ x, ¬ C x).
Proof.
  intros HX Hk. eapply judges_iff; [apply (each_value_judges k emit _ _ X (λ _, False))|].
  - intros x Hx. by apply quiet_ret.
  - intros x Hx. apply violate_reporter; [by eapply lookup_lt_Some|done|]. intros y [= <-]. by apply Hk, HX.
  - setoid_rewrite HX. naive_solver.
Qed.

Lemma unique_lang_judges c (X : gset TermId) :
  (∀ x, x ∈ X ↔ value id f x) →
  judges k emit (unique_lang view (violate schema options id c f None None None emit) emit (btree_elems X) ∅ ∅ true)
    (sat id f (CUniqueLang true)).
Proof.
  intros HX s Hok Hh. eapply wp_weaken; [apply (unique_lang_wp k emit _ _ s s ∅ ∅ true); try done|].
  - apply violate_reporter; [by eapply lookup_lt_Some|done|by intros ? [=]].
  - intros x Hx%elem_of_btree_elems. by apply (value_known id f), HX.
  - apply progress_refl.
  - intros b s' _ [Hb Hp]. split; [|done]. rewrite Hb, tags_new_spec by apply btree_elems_nodup.
    setoid_rewrite elem_of_btree_elems. setoid_rewrite HX. unfold sat, tag_of. cbn [constraint_sat]. fold metadata value.
    split.
    + intros (_ & _ & Hu) _ x y Hx Hy Hne mx my l Hmx Hmy Hl Hl'. apply (Hu x y l Hx Hy Hne); [by rewrite Hmx|by rewrite Hmy].
    + intros Hu. split; [done|]. split; [by intros ? ? _ _ ?%elem_of_empty|].
      intros x y l Hx Hy Hne (mx & Hmx & Hl)%bind_Some (my & Hmy & Hl')%bind_Some. by eapply (Hu eq_refl x y).
Qed.

Lemma other_known p (other : gset TermId) : (∀ x, x ∈ other ↔ edge rows p f x) → ∀ x, x ∈ other → known x.
Proof.
  intros Ho x Hx. apply Ho in Hx as (q & Hq & _ & _ & <-). split; [by apply (rv_known (view := view))|].
  by apply (av_fit (view := view)) in Hq as [_ ?].
Qed.

(** The values of the shape and of another predicate agree, or are apart. *)
Lemma equals_judges c p (X : gset TermId) :
  TermId_fit p → (∀ x, x ∈ X ↔ value id f x) →
  judges k emit
    (other ⇐ object_values view graph f p;
     each_value (λ _, st_ret false) (λ x, violate schema options id c f (Some x) None None emit) emit
       (btree_elems ((X ∖ other) ∪ (other ∖ X))))
    (∀ x, value id f x ↔ edge rows p f x).
Proof.
  intros Hp HX. eapply judges_bind; [apply object_values_quiet; [apply Hf|done]|]. cbv beta. intros other Ho.
  pose proof (other_known p other Ho) as Hk.
  assert (∀ x, x ∈ X → known x) as HkX by (intros x Hx; by apply (value_known id f), HX).
  eapply judges_iff; [apply (no_value_judges _ _ (λ x, x ∈ (X ∖ other) ∪ (other ∖ X))); [done|]|].
  - clear - Hk HkX. set_solver.
  - transitivity (∀ x, x ∈ X ↔ x ∈ other).
    + clear. split; [|set_solver]. intros Hn x. specialize (Hn x). destruct (decide (x ∈ X)), (decide (x ∈ other)); set_solver.
    + split; intros Hn x; specialize (Hn x); specialize (HX x); specialize (Ho x); tauto.
Qed.

Lemma disjoint_judges c p (X : gset TermId) :
  TermId_fit p → (∀ x, x ∈ X ↔ value id f x) →
  judges k emit
    (other ⇐ object_values view graph f p;
     each_value (λ _, st_ret false) (λ x, violate schema options id c f (Some x) None None emit) emit
       (btree_elems (X ∩ other)))
    (∀ x, value id f x → ¬ edge rows p f x).
Proof.
  intros Hp HX. eapply judges_bind; [apply object_values_quiet; [apply Hf|done]|]. cbv beta. intros other Ho.
  eapply judges_iff; [apply (no_value_judges _ _ (λ x, x ∈ X ∩ other)); [done|]|].
  - intros x [Hx _]%elem_of_intersection. by apply (value_known id f), HX.
  - split; intros Hn x; specialize (Hn x); rewrite elem_of_intersection, HX, Ho in *; tauto.
Qed.

(** The comparison with the values of another predicate. *)
Lemma less_judges c g p (X : gset TermId) :
  TermId_fit p → (∀ x, x ∈ X ↔ value id f x) →
  judges k emit
    (other ⇐ object_values view graph f p;
     each_value (less_check view g other) (λ x, violate schema options id c f (Some x) None None emit) emit (btree_elems X))
    (∀ x, value id f x → ∃ m, meta term_of x = Some m ∧
       ∀ y, edge rows p f y → meta_sat term_of (λ n, boundary_sat g n m) y).
Proof.
  intros Hp HX. eapply judges_bind; [apply object_values_quiet; [apply Hf|done]|]. cbv beta. intros other Ho.
  eapply judges_iff.
  { apply (every_value_judges c (less_check view g other) X (λ x, ∃ m, meta term_of x = Some m ∧
      ∀ y, y ∈ other → meta_sat term_of (λ n, boundary_sat g n m) y) HX).
    intros x Hx. apply less_check_quiet; [done|]. by eapply other_known. }
  by setoid_rewrite Ho.
Qed.

(** A constraint on the metadata of every value. *)
Lemma meta_judges c (X : gset TermId) (P : TermMeta → Prop) (g : option TermMeta → bool) :
  (∀ x, x ∈ X ↔ value id f x) → g None = false → (∀ m, g (Some m) = true ↔ P m) →
  judges k emit
    (each_value (meta_check view g) (λ x, violate schema options id c f (Some x) None None emit) emit (btree_elems X))
    (∀ x, value id f x → meta_sat term_of P x).
Proof.
  intros HX Hn Hs. apply every_value_judges; [done|]. intros x Hx. by apply meta_check_sat.
Qed.

(** A constraint on how many of some shapes every value conforms to. *)
Lemma matching_judges c ids (X : gset TermId) (g : nat → bool) (C : TermId → Prop) :
  (∀ x, x ∈ X ↔ value id f x) → decides k conforms_to c → (∀ i, i ∈ ids → i ∈ constraint_refs c) →
  (∀ x bs, Forall2 (λ i b, b = true ↔ conf i x) ids bs → g (trues bs) = true ↔ C x) →
  judges k emit
    (each_value (λ x, n ⇐ matching conforms_to x ids 0; st_ret (g n))
       (λ x, violate schema options id c f (Some x) None None emit) emit (btree_elems X))
    (∀ x, value id f x → C x).
Proof.
  intros HX Hd Hi Hg. apply every_value_judges; [done|]. intros x Hx.
  eapply quiet_bind; [by apply (matching_quiet k conforms_to c Hd x ids 0 Hx)|].
  intros n (bs & Hbs & ->). apply quiet_ret. by apply Hg.
Qed.

(** Constraints [evaluate_value_constraint] decides. *)
Definition on_values (c : ResolvedConstraint) : bool :=
  match c with
  | CMinCount _ | CMaxCount _ | CHasValue _ | CQualified _ _ _ _ _ | CClosed _ => false
  | _ => true
  end.

Lemma length_sat (g : nat → bool) (P : nat → Prop) m :
  (∀ l, g l = true ↔ P l) →
  match lexical m with Some _ => g (lexical_length m) | None => false end = true ↔
  is_Some (lexical m) ∧ P (lexical_length m).
Proof.
  intros Hg. destruct (lexical m); [rewrite Hg; naive_solver|]. split; [done|]. by intros [[? ?] _].
Qed.

Lemma from_option_true {A} (g : A → bool) (o : option A) :
  from_option g false o = true ↔ ∃ x, o = Some x ∧ g x = true.
Proof. destruct o; cbn; naive_solver. Qed.

Lemma value_constraint_judges c :
  on_values c = true → c ∈ constraints r → decides k conforms_to c →
  judges k emit (evaluate_value_constraint view graph rdf_type schema options conforms_to id f c emit) (sat id f c).
Proof.
  intros Hon Hc Hd. assert (∀ t, t ∈ constraint_terms c → TermId_fit t) as Hfit.
  { intros t. by apply (sk_terms _ _ Hschema id r c). }
  unfold evaluate_value_constraint. eapply judges_bind; [by apply (shape_values_quiet k id r f None)|].
  cbv beta zeta. intros X HX. unfold sat.
  assert (∀ x, known x → TermId_fit x) as Hkf by by intros x [].
  destruct c; try done; cbn [constraint_sat].
  - apply every_value_judges; [done|]. intros x Hx. apply exists_edge_quiet; [by apply Hkf|done|]. apply Hfit. by left.
  - apply meta_judges; [done|done|]. intros m. cbn. by rewrite bool_decide_eq_true.
  - by apply meta_judges; [|by destruct kind|].
  - apply meta_judges; [done|done|]. intros m. apply ordered_true.
  - apply meta_judges; [done|done|]. intros m. apply ordered_true.
  - apply meta_judges; [done|done|]. intros m. apply ordered_true.
  - apply meta_judges; [done|done|]. intros m. apply ordered_true.
  - apply meta_judges; [done|done|]. intros m.
    refine (length_sat (λ l : nat, bool_decide (minimum ≤ l)) (λ l : nat, minimum ≤ l) m _). intros l. by rewrite bool_decide_eq_true.
  - apply meta_judges; [done|done|]. intros m.
    refine (length_sat (λ l : nat, bool_decide (l ≤ maximum)) (λ l : nat, l ≤ maximum) m _). intros l. by rewrite bool_decide_eq_true.
  - apply meta_judges; [done|done|]. intros m. apply from_option_true.
  - destruct required; [by apply unique_lang_judges|]. intros s Hok Hh. apply wp_ret; [done|].
    split; [done|apply progress_refl].
  - apply meta_judges; [done|done|]. intros m. apply from_option_true.
  - apply equals_judges; [|done]. apply Hfit. by left.
  - apply disjoint_judges; [|done]. apply Hfit. by left.
  - apply less_judges; [|done]. apply Hfit. by left.
  - apply less_judges; [|done]. apply Hfit. by left.
  - apply (matching_judges _ shapes); try done. intros x bs Hb. rewrite bool_decide_eq_true. by apply trues_some.
  - apply (matching_judges _ shapes); try done. intros x bs Hb. rewrite bool_decide_eq_true. by apply trues_all.
  - apply every_value_judges; [done|]. intros x Hx. eapply quiet_bind; [apply Hd; [by left|done]|].
    intros b Hb. apply quiet_ret. rewrite negb_true_iff. destruct b; naive_solver.
  - apply (matching_judges _ shapes); try done. intros x bs Hb. rewrite bool_decide_eq_true. by apply trues_one.
  - apply every_value_judges; [done|]. intros x Hx. apply Hd; [by left|done].
  - apply every_value_judges; [done|]. intros x Hx. apply quiet_ret. by rewrite bool_decide_eq_true.
Qed.

Lemma decided_judges c b C :
  (b = true ↔ C) → judges k emit (reported (st_ret b) (violate schema options id c f None None None emit)) C.
Proof.
  intros Hb. apply reported_judges; [by apply quiet_ret|]. apply violate_reporter; [by eapply lookup_lt_Some|done|by intros ? [=]].
Qed.

(** The value nodes are a finite set. *)
Lemma value_set : ∃ Y, counted (value id f) Y.
Proof.
  rewrite (value_path id r Hr). destruct (path r) as [p|] eqn:Hp.
  2: { exists {[f]}. intros x. apply elem_of_singleton. }
  set (o := {| max_path_edges := u64_max; max_path_depth := S (size (nodes rows)) |}).
  set (cx := {| visibility := scope; validation_graph := validating; graph_visibility := ∅; orphaned := ∅;
                checks_left := None |}).
  assert (context_ok sn scope validating cx) as Hcx.
  { split; try done; intros g x; cbn; by rewrite lookup_empty. }
  destruct (values_walks view sn scope validating graph rows o f p None (sk_path _ _ Hschema id r p Hr Hp) (proj2 Hf)
    cx 0%N Hcx ltac:(done)) as (_ & _ & w & _ & _ & _ & _ & [(X & _ & [HX1 HX2] & _)|[[_ Hc]|[[_ [_ Hb]]|[_ Hd]]]]).
  - exists X. intros x. split; [apply HX1|]. apply HX2. by destruct (cap_exact p).
  - done.
  - cbn in Hb. lia.
  - cbn in Hd. lia.
Qed.

Lemma counted_size P (X Y : gset TermId) : counted P X → counted P Y → size X = size Y.
Proof. intros HX HY. f_equal. apply set_eq. intros x. by rewrite (HX x), (HY x). Qed.

Lemma counts_shape_exact c : c ∈ constraints r → counts c = true → shape_exact r = true.
Proof.
  intros Hc Hn. unfold shape_exact. destruct (path r) as [p|] eqn:Hp; [|done]. by apply (sk_counts _ _ Hschema id r p c).
Qed.

Lemma min_count_judges n :
  CMinCount n ∈ constraints r →
  judges k emit (evaluate_constraint view graph rdf_type schema options conforms_to id f (CMinCount n) emit)
    (sat id f (CMinCount n)).
Proof.
  intros Hc. cbn [evaluate_constraint]. eapply judges_bind; [by apply (shape_values_quiet k id r f (Some n))|].
  intros X [HX1 HX2]. apply decided_judges. rewrite bool_decide_eq_true. destruct value_set as [Y HY]. split.
  - intros Hn. exists Y. split; [done|]. assert (size X ≤ size Y); [|lia]. apply subseteq_size. intros x Hx. by apply HY, HX1.
  - intros (Z & HZ & Hn). destruct (HX2 (counts_shape_exact _ Hc eq_refl)) as [|Hall]; [done|].
    rewrite (counted_size (value id f) X Z); [done| |done]. intros x. split; auto.
Qed.

Lemma max_count_judges n :
  CMaxCount n ∈ constraints r →
  judges k emit (evaluate_constraint view graph rdf_type schema options conforms_to id f (CMaxCount n) emit)
    (sat id f (CMaxCount n)).
Proof.
  intros Hc. cbn [evaluate_constraint]. eapply judges_bind; [by eapply shape_values_quiet|].
  intros X HX. apply decided_judges. rewrite bool_decide_eq_true. destruct value_set as [Y HY].
  assert ((∀ x, x ∈ X → value id f x) ∧ (S n ≤ size X ∨ ∀ x, value id f x → x ∈ X)) as [HX1 HX2].
  { case_decide; [|split; [|right]; intros x; by apply HX].
    destruct HX as [HX1 HX2]. split; [done|]. by apply HX2, (counts_shape_exact _ Hc). }
  split.
  - intros Hn. exists X. split; [|done]. destruct HX2 as [|HX2]; [lia|]. intros x. split; [apply HX1|apply HX2].
  - intros (Z & HZ & Hn). assert (size X ≤ size Z); [|lia]. apply subseteq_size. intros x Hx. by apply HZ, HX1.
Qed.

Lemma qualified_bound_wp broken c component b0 s0 s :
  state_ok k s → progress emit b0 s0 s →
  wp k (qualified_bound schema options broken id c f component emit b0)
    (λ b s', b = (b0 && negb broken) ∧ progress emit b s0 s') s.
Proof.
  intros Hok Hp0. unfold qualified_bound. destruct broken; cbn [negb].
  - apply wp_bind. eapply wp_weaken; [apply violate_wp; [by eapply lookup_lt_Some|done|by intros ? [=]|by intros ? [=]|done]|].
    intros [] s1 _ Hp Hok1. apply wp_ret; [done|]. rewrite andb_false_r. split; [done|].
    pose proof (progress_trans _ _ _ _ _ _ Hp0 Hp) as Hp1. by rewrite andb_false_r in Hp1.
  - apply wp_ret; [done|]. by rewrite andb_true_r.
Qed.

Lemma qualified_judges i min_count max_count disjoint siblings :
  decides k conforms_to (CQualified i min_count max_count disjoint siblings) →
  judges k emit
    (evaluate_constraint view graph rdf_type schema options conforms_to id f
       (CQualified i min_count max_count disjoint siblings) emit)
    (sat id f (CQualified i min_count max_count disjoint siblings)).
Proof.
  intros Hd. cbn [evaluate_constraint]. eapply judges_bind; [by apply (shape_values_quiet k id r f None)|].
  cbv beta. intros X HX. eapply judges_bind.
  { apply (qualified_count_quiet k conforms_to _ Hd).
    - by left.
    - intros j -> Hj. by right.
    - apply btree_elems_nodup.
    - intros x Hx%elem_of_btree_elems. by apply (value_known id f), HX. }
  intros count (Y & HY & ->) s Hok Hh. cbn [Nat.add].
  apply wp_bind. eapply wp_weaken; [apply (qualified_bound_wp _ _ _ true s s); [done|apply progress_refl]|].
  intros b1 s1 _ [-> Hp1] Hok1. eapply wp_weaken; [by apply (qualified_bound_wp _ _ _ _ s s1)|].
  intros b2 s2 _ [-> Hp2]. split; [|done]. cbn [andb]. rewrite andb_true_iff, !negb_true_iff.
  assert (counted (λ x, value id f x ∧ qualified i disjoint siblings x) Y) as HYc.
  { intros x. rewrite HY, elem_of_btree_elems. naive_solver. }
  transitivity (from_option (λ n, n ≤ size Y) True min_count ∧ from_option (λ n, size Y ≤ n) True max_count).
  - destruct min_count, max_count; cbn; rewrite ?bool_decide_eq_false; (split; intros [? ?]; split; lia || done).
  - split; [intros []; by exists Y|]. intros (Z & HZ & H5 & H6). pose proof (counted_size _ Y Z HYc HZ) as ->. by split.
Qed.

(** Every constraint is decided. *)
Lemma constraint_judges c :
  c ∈ constraints r → decides k conforms_to c →
  judges k emit (evaluate_constraint view graph rdf_type schema options conforms_to id f c emit) (sat id f c).
Proof.
  intros Hc Hd. destruct (on_values c) eqn:Hon.
  - pose proof (value_constraint_judges c Hon Hc Hd). by destruct c.
  - destruct c; try done.
    + by apply min_count_judges.
    + by apply max_count_judges.
    + cbn [evaluate_constraint]. eapply judges_bind; [eapply has_value_quiet; [done|done|]|].
      * eapply (sk_terms _ _ Hschema id r _ _ Hr Hc). by left.
      * intros b Hb. by apply decided_judges.
    + by apply qualified_judges.
    + by eapply closed_judges.
Qed.
End one.

(** *** Shapes *)

(** The verdict of an evaluation: one that reports leaves the property shapes
    of a node shape to their own targets. *)
Definition judged (emit : bool) (id : ShapeId) (f : TermId) : Prop :=
  ∀ sh r, portable schema !! id = Some sh → shapes schema !! id = Some r → deactivated sh = false →
    (∀ c, c ∈ constraints r → sat id f c) ∧
    (emit = false ∨ shape_kind sh = PropertyShape →
       ∀ p x, p ∈ property_shapes sh →
              (match shape_kind sh with NodeShape => x = f | PropertyShape => value id f x end) → conf p x).

Lemma judged_silent id f : id < length (portable schema) → judged false id f ↔ conf id f.
Proof.
  intros Hid. unfold conf. rewrite (conforms_unfold _ _ _ _ rank Hschema) by done.
  unfold judged, shape_sat. fold conf. split; intros Hj sh r Hs Hr Hd; destruct (Hj sh r Hs Hr Hd); split; auto.
Qed.
Lemma judged_property emit id sh f :
  portable schema !! id = Some sh → shape_kind sh = PropertyShape → judged emit id f ↔ conf id f.
Proof.
  intros Hs Hk. rewrite <- judged_silent by by eapply lookup_lt_Some. unfold judged.
  split; intros Hj sh' r Hs' Hr Hd; destruct (Hj sh' r Hs' Hr Hd) as [Hc Hp]; simplify_eq; split; auto.
Qed.

(** The pairs of a value and a property shape. *)
Lemma elem_of_pairs (X : list TermId) (ps : list ShapeId) x p :
  (x, p) ∈ (value ← X; (λ p, (value, p)) <$> ps) ↔ x ∈ X ∧ p ∈ ps.
Proof. rewrite list_elem_of_bind. setoid_rewrite list_elem_of_fmap. naive_solver. Qed.

Section shape.
Context (k : nat) (emit : bool) (id : ShapeId) (sh : CompiledShape) (r : ResolvedShape) (f : TermId).
Context (Hsh : portable schema !! id = Some sh) (Hr : shapes schema !! id = Some r) (Hf : known f).
Context (Hd : deactivated sh = false) (evaluate : ShapeId → TermId → bool → validm bool).
Context (Hsilent : ∀ i x, rank i < rank id → i < length (portable schema) → known x →
  judges k false (evaluate i x false) (conf i x)).
Context (Hemit : ∀ i x, i ∈ property_shapes sh → known x → judges k emit (evaluate i x emit) (conf i x)).

Lemma judged_here :
  judged emit id f ↔ (∀ c, c ∈ constraints r → sat id f c) ∧
    (emit = false ∨ shape_kind sh = PropertyShape →
       ∀ p x, p ∈ property_shapes sh →
              (match shape_kind sh with NodeShape => x = f | PropertyShape => value id f x end) → conf p x).
Proof. split; [intros Hj; by apply Hj|]. intros Hj sh' r' Hs' Hr' _. by simplify_eq. Qed.

Lemma shape_nodes_quiet :
  quiet k (match shape_kind sh with NodeShape => st_ret {[f]} | PropertyShape => shape_values view graph schema options id f None end)
    (λ X : gset TermId, ∀ x, x ∈ X ↔ (match shape_kind sh with NodeShape => x = f | PropertyShape => value id f x end)).
Proof.
  destruct (shape_kind sh); [|by apply (shape_values_quiet k id r f None)]. apply quiet_ret. intros x. apply elem_of_singleton.
Qed.

Lemma shape_nodes_known x :
  (match shape_kind sh with NodeShape => x = f | PropertyShape => value id f x end) → known x.
Proof. destruct (shape_kind sh); [by intros ->|by apply value_known]. Qed.

(** [evaluate_shape] behind its cache judges the shape. *)
Lemma evaluate_at_judges :
  judges k emit (evaluate_shape_at view graph rdf_type schema options evaluate id f emit) (judged emit id f).
Proof.
  unfold evaluate_shape_at. eapply judges_bind; [by apply portable_quiet|]. intros ? ->.
  eapply judges_bind; [by apply resolved_quiet|]. intros ? ->. eapply judges_iff; [|symmetry; exact judged_here].
  intros s Hok Hh. apply wp_bind. eapply wp_weaken.
  { apply (each_judged_judges k emit _ (λ c, sat id f c)); [|done|done]. intros c Hc.
    apply (constraint_judges k emit id sh r f Hsh Hr Hf _ c Hc). intros i x Hi Hx.
    destruct (sk_refs _ _ Hschema id r c i Hr Hc Hi) as [Hrk Hl]. by apply judges_quiet, Hsilent. }
  intros b s1 _ [Hb Hp] Hok1. apply wp_bind. exists s1, (Ok (halted s1)). split; [done|]. split; [done|]. intros _.
  destruct (_ && negb (halted s1)) eqn:Hcond.
  - apply andb_true_iff in Hcond as [[[Hn Hps]%andb_true_iff Hbe]%andb_true_iff Hh1%negb_true_iff].
    apply wp_bind. eapply wp_weaken; [by apply shape_nodes_quiet|]. intros X s2 _ [HX Hp2] Hok2.
    pose proof (progress_trans _ _ _ _ _ _ Hp (progress_true _ emit _ _ Hp2)) as Hp12. rewrite andb_true_r in Hp12.
    eapply wp_weaken; [apply (each_judged_wp k emit _ (λ '(x, p), conf p x) _ s s2 b); try done|].
    + intros [x p] [Hx Hpp]%elem_of_pairs. apply Hemit; [done|]. by apply shape_nodes_known, HX, elem_of_btree_elems.
    + by eapply progress_halted.
    + intros ->. by destruct emit.
    + intros b' s3 _ [Hb' Hp3]. split; [|done]. rewrite Hb', Hb. apply and_iff_compat_l. split.
      * intros Hall _ p x Hpp Hx. apply (Hall (x, p)), elem_of_pairs. split; [|done]. by apply elem_of_btree_elems, HX.
      * intros Hall [x p] [Hx Hpp]%elem_of_pairs. apply (Hall ltac:(destruct emit; [right|by left]; by destruct (shape_kind sh)) p x Hpp).
        by apply HX, elem_of_btree_elems.
  - apply wp_ret; [done|]. split; [|done]. rewrite Hb. split; [|by intros []]. intros Hc. split; [done|].
    intros Hn p x Hpp. exfalso. rewrite (proj2 Hb Hc) in *. rewrite (progress_halted _ _ _ Hp Hh) in Hcond.
    apply not_true_iff_false in Hcond. apply Hcond. cbn. rewrite !andb_true_r. apply andb_true_iff. split.
    + destruct Hn as [->| ->]; [done|]. by apply orb_true_r.
    + rewrite bool_decide_eq_true. intros Hnil. rewrite Hnil in Hpp. by apply elem_of_nil in Hpp.
Qed.
End shape.

(** An evaluation that does not report, behind the cache of verdicts. *)
Lemma evaluate_silent n id f k :
  rank id < n → rank id < k → id < length (portable schema) → known f →
  judges k false (evaluate_shape view graph rdf_type schema options n id f false) (conf id f).
Proof.
  revert id f k. induction n as [|n IH]; intros id f k Hn Hk Hid Hf; [lia|].
  destruct (shape_of id Hid) as (sh & r & Hsh & Hr). cbn [evaluate_shape].
  eapply judges_bind; [by apply portable_quiet|]. intros ? ->.
  destruct (deactivated sh) eqn:Hd.
  { intros s Hok Hh. apply wp_ret; [done|]. split; [|apply progress_refl]. split; [|done]. intros _.
    apply judged_silent; [done|]. intros sh' r' Hs' _ Hd'. congruence. }
  eapply judges_bind; [apply (quiet_get _ _ (λ c, match c with
    | Some Conforms => conf id f | Some Violates => ¬ conf id f | Some InProgress => False | None => True end))|].
  { intros s Hok. destruct (conformance_cache s !! (id, f)) as [[]|] eqn:E;
      [|by apply (so_conforms _ _ Hok)|by apply (so_violates _ _ Hok)|done].
    apply (so_progress _ _ Hok) in E. lia. }
  intros [[]|] Hc; [done| | |].
  1,2: (intros s Hok Hh; apply wp_ret; [done|]; split; [by split|apply progress_silent; [apply progress_refl|done]]).
  clear Hc. intros s Hok Hh.
  assert (state_ok (rank id) (remember_conformance (id, f) InProgress s)) as Hok1.
  { destruct Hok. split; try done; cbn.
    - intros i x. rewrite lookup_insert_Some. naive_solver.
    - intros i x. rewrite lookup_insert_Some. naive_solver.
    - intros i x. rewrite lookup_insert_Some. intros [[[= <- <-] _]|[_ ?]]; [done|]. assert (k ≤ rank i); [eauto|lia]. }
  destruct (evaluate_at_judges (rank id) false id sh r f Hsh Hr Hf Hd (evaluate_shape view graph rdf_type schema options n)
    (λ i x Hi Hl Hx, IH i x (rank id) ltac:(lia) Hi Hl Hx)) with (s := remember_conformance (id, f) InProgress s)
    as (s2 & res & Hrun & Hres).
  { intros i x Hi Hx. destruct (sk_properties _ _ Hschema id sh i Hsh Hi) as [Hri (s' & Hs' & _)].
    apply IH; [lia|done|by eapply lookup_lt_Some|done]. }
  { done. }
  { done. }
  unfold wp, st_bind, vd_set. rewrite Hrun. destruct res as [b|e|]; [|by eexists _, _|done].
  destruct Hres as [Hok2 [Hb [Hpg Hpr]]]. eexists _, (Ok b). split; [done|].
  rewrite judged_silent in Hb by done. cbn in Hpg, Hpr.
  assert (∀ key, conformance_cache (remember_conformance (id, f) (if b then Conforms else Violates) s2) !! key = Some InProgress →
    conformance_cache s !! key = Some InProgress) as Hprog.
  { intros key. cbn. rewrite lookup_insert_Some. intros [[_ ?]|[Hne Hkey]]; [by destruct b|].
    apply Hpg in Hkey. by rewrite lookup_insert_ne in Hkey. }
  split; [|split; [done|by split]]. destruct Hok2. split; try assumption.
  - cbn [conformance_cache remember_conformance]. intros i x. rewrite lookup_insert_Some.
    intros [[[= <- <-] ?]|[_ ?]]; [|eauto]. destruct b; [|done]. by apply Hb.
  - cbn [conformance_cache remember_conformance]. intros i x. rewrite lookup_insert_Some.
    intros [[[= <- <-] ?]|[_ ?]]; [|eauto]. destruct b; [done|].
    intros Hc%Hb. done.
  - intros i x Hi%Hprog. by apply (so_progress _ _ Hok _ x).
Qed.

(** An evaluation that reports. *)
Lemma evaluate_emit n id f k :
  rank id < n → rank id < k → id < length (portable schema) → known f →
  judges k true (evaluate_shape view graph rdf_type schema options n id f true) (judged true id f).
Proof.
  revert id f. induction n as [|n IH]; intros id f Hn Hk Hid Hf; [lia|].
  destruct (shape_of id Hid) as (sh & r & Hsh & Hr). cbn [evaluate_shape].
  eapply judges_bind; [by apply portable_quiet|]. intros ? ->.
  destruct (deactivated sh) eqn:Hd.
  { intros s Hok Hh. apply wp_ret; [done|]. split; [|apply progress_refl]. split; [|done]. intros _ sh' r' Hs' _ Hd'.
    congruence. }
  apply (evaluate_at_judges k true id sh r f Hsh Hr Hf Hd).
  - intros i x Hi Hl Hx. apply evaluate_silent; [lia|lia|done|done].
  - intros i x Hi Hx. destruct (sk_properties _ _ Hschema id sh i Hsh Hi) as [Hri (s' & Hs' & Hkind)].
    eapply judges_iff; [|exact (judged_property true i s' x Hs' Hkind)]. apply IH; [lia|lia|by eapply lookup_lt_Some|done].
Qed.
End evaluation.
