(* ===== verification/ShaclReports.v ===== *)
(** * Reports of a validation

    The focus nodes of the shapes, the loop over them and the report: a
    validation that completes finds the data graph conforming exactly when
    every declared focus of every active shape conforms, and nothing but a
    limit of its options keeps it from completing. *)

From S2P Require Import Prelude Clock Terms Store Codec QueryView IndexUpdate Transitions Replication Convergence.
From S2P Require Import LocalWrites IndexMirror Orphans Cursors Reads ReadRules Answers DeltaAnswers ViewRows ShaclPaths ShaclTerms.
From S2P Require Import ShaclModel ShaclEval ShaclConforms.
#[local] Open Scope craqle_scope.

(** ** Inherited focus nodes *)

Section inherit.
Context `{Oxrdf, !Oxsd}.

Fixpoint total (l : list (gset TermId)) : nat :=
  match l with [] => 0 | X :: l => size X + total l end.

Lemma total_insert l i (X Y : gset TermId) :
  l !! i = Some X → X ⊆ Y → total (<[i := Y]> l) = total l + (size Y - size X).
Proof.
  intros Hi Hs. apply subseteq_size in Hs.
  revert i Hi. induction l as [|Z l IH]; intros [|i] Hi; [done|done| |].
  - injection Hi as ->. cbn. lia.
  - change (<[S i := Y]> (Z :: l)) with (Z :: <[i := Y]> l). cbn [total]. rewrite (IH i Hi). lia.
Qed.

Section turn.
Context (T : list (gset TermId)).

(** The sets after some of the focus nodes [src] were handed over. *)
Record grown (src : ShapeId → TermId → Prop) (acc : list (gset TermId) * bool) : Prop := {
  gr_length : length acc.1 = length T;
  gr_sets id X0 : T !! id = Some X0 → ∃ X, acc.1 !! id = Some X ∧ ∀ x, x ∈ X ↔ x ∈ X0 ∨ src id x;
  gr_same : acc.2 = false → acc.1 = T;
  gr_more : acc.2 = true → total T < total acc.1;
}.

Lemma grown_ext src src' acc : (∀ id x, src id x ↔ src' id x) → grown src acc → grown src' acc.
Proof. intros He []. split; try done. intros id X0 Hi. setoid_rewrite <- He. auto. Qed.

Lemma grown_total src acc : grown src acc → total T ≤ total acc.1.
Proof. intros []. destruct (acc.2); [specialize (gr_more0 eq_refl); lia|by rewrite gr_same0]. Qed.

Lemma inherit_into_grown inherited src acc p :
  p < length T → grown src acc →
  ∃ acc', inherit_into inherited acc p = Ok acc' ∧ grown (λ id x, src id x ∨ id = p ∧ x ∈ inherited) acc'.
Proof.
  intros Hp Hg. pose proof (grown_total _ _ Hg) as Htot. destruct Hg as [Hl Hsets Hsame Hmore].
  destruct acc as [l flag]. cbn [fst snd] in *. unfold inherit_into. cbn [fst snd].
  destruct (lookup_lt_is_Some_2 T p Hp) as [X0 HX0]. destruct (Hsets p X0 HX0) as (X & HX & HXs). rewrite HX. cbn.
  eexists. split; [done|]. assert (X ⊆ X ∪ inherited) as Hsub by set_solver.
  pose proof (total_insert l p X _ HX Hsub) as Ht. pose proof (subseteq_size _ _ Hsub) as Hsz.
  split; cbn [fst snd].
  - by rewrite length_insert.
  - intros id Z0 HZ0. destruct (decide (id = p)) as [->|Hne].
    + simplify_eq. exists (X ∪ inherited). rewrite list_lookup_insert_eq by by eapply lookup_lt_Some.
      split; [done|]. intros x. rewrite elem_of_union, HXs. naive_solver.
    + rewrite list_lookup_insert_ne by done. destruct (Hsets id Z0 HZ0) as (Z & HZ & HZs). exists Z. split; [done|].
      intros x. rewrite HZs. naive_solver.
  - intros [-> Hd%bool_decide_eq_false]%orb_false_iff. rewrite <- (Hsame eq_refl).
    assert (X ∪ inherited = X) as ->; [|by apply list_insert_id]. symmetry. apply leibniz_equiv, set_subseteq_size_equiv; [done|].
    destruct (decide (size (X ∪ inherited) = size X)); [lia|done].
  - intros [->|Hd%bool_decide_eq_true]%orb_true_iff; [specialize (Hmore eq_refl)|]; rewrite Ht; lia.
Qed.

(** The focus nodes the node shapes of [l] hand to the property shape [id]. *)
Definition handed (l : list CompiledShape) (id : ShapeId) (x : TermId) : Prop :=
  ∃ s X, s ∈ l ∧ deactivated s = false ∧ shape_kind s = NodeShape ∧ id ∈ property_shapes s ∧
         T !! shape_id s = Some X ∧ x ∈ X.

Context (schema : ResolvedSchema) (rank : ShapeId → nat) (Hschema : schema_ok schema rank).
Context (Hlen : length T = length (portable schema)).

Lemma handed_property l id x s : l ⊆ portable schema → portable schema !! id = Some s → handed l id x → shape_kind s = PropertyShape.
Proof.
  intros Hl Hs (t & X & Ht & _ & _ & Hin & _). apply Hl, list_elem_of_lookup in Ht as [j Hj].
  destruct (sk_properties _ _ Hschema j t id Hj Hin) as [_ (s' & Hs' & ?)]. by simplify_eq.
Qed.

Lemma inherit_shape_grown pre s acc :
  s ∈ portable schema → pre ⊆ portable schema → grown (handed pre) acc →
  ∃ acc', inherit_shape acc s = Ok acc' ∧ grown (handed (pre ++ [s])) acc'.
Proof.
  intros Hs Hpre Hg. unfold inherit_shape.
  assert (∀ id x, handed (pre ++ [s]) id x ↔ handed pre id x ∨ handed [s] id x) as Happ.
  { intros id x. unfold handed. setoid_rewrite elem_of_app. naive_solver. }
  destruct (deactivated s || bool_decide (shape_kind s = PropertyShape)) eqn:Hskip.
  { exists acc. split; [done|]. eapply grown_ext; [|done]. intros id x. rewrite Happ. split; [by left|].
    intros [?|(t & X & Ht & Hd & Hk & _)]; [done|]. apply list_elem_of_singleton in Ht as ->.
    rewrite Hd, Hk in Hskip. by rewrite bool_decide_eq_false_2 in Hskip. }
  apply orb_false_iff in Hskip as [Hd Hk%bool_decide_eq_false].
  assert (shape_kind s = NodeShape) as Hkind by by destruct (shape_kind s).
  pose proof Hs as [j Hj]%list_elem_of_lookup. pose proof (sk_id _ _ Hschema j s Hj) as Hid.
  destruct (lookup_lt_is_Some_2 T j) as [X HX]; [rewrite Hlen; by eapply lookup_lt_Some|].
  destruct (gr_sets _ _ Hg j X HX) as (X' & HX' & Heq). rewrite Hid, HX'.
  assert (X' = X) as ->.
  { apply set_eq. intros x. rewrite Heq. split; [|by left]. intros [?|Hh]; [done|].
    eapply handed_property in Hh; [|done|done]. congruence. }
  destruct (try_fold_ok (inherit_into X)
    (λ ps acc, grown (λ id x, handed pre id x ∨ id ∈ ps ∧ x ∈ X) acc) (property_shapes s) acc) as (acc' & -> & Hacc').
  - eapply grown_ext; [|done]. intros id x. split; [by left|]. by intros [?|[?%elem_of_nil _]].
  - intros ps p a Hp Ha. destruct (sk_properties _ _ Hschema j s p Hj Hp) as [_ (s' & Hs' & _)].
    assert (p < length T) as Hlt by (rewrite Hlen; by eapply lookup_lt_Some).
    destruct (inherit_into_grown X _ a p Hlt Ha) as (a' & -> & Ha').
    exists a'. split; [done|]. eapply grown_ext; [|done]. intros id x. cbn.
    rewrite elem_of_app, list_elem_of_singleton. naive_solver.
  - exists acc'. split; [done|]. eapply grown_ext; [|done]. intros id x. rewrite Happ. cbn. unfold handed at 3.
    setoid_rewrite list_elem_of_singleton. split; [|].
    + intros [?|[? ?]]; [by left|right]. exists s, X. by rewrite Hid.
    + intros [?|(t & Z & -> & _ & _ & ? & HZ & ?)]; [by left|right]. rewrite Hid, HX in HZ. by simplify_eq.
Qed.

Lemma inherit_turn :
  ∃ turn, try_fold inherit_shape (T, false) (portable schema) = Ok turn ∧ grown (handed (portable schema)) turn.
Proof.
  destruct (try_fold_ok inherit_shape (λ pre acc, pre ⊆ portable schema ∧ grown (handed pre) acc)
    (portable schema) (T, false)) as (turn & Ht & _ & Hg).
  - split; [set_solver|]. split; try done. intros id X0 Hi. exists X0. split; [done|]. intros x. split; [by left|].
    intros [?|(s & X & ?%elem_of_nil & _)]; done.
  - intros pre s acc Hs [Hpre Hg]. destruct (inherit_shape_grown pre s acc Hs Hpre Hg) as (acc' & Ha & Hg').
    exists acc'. split; [done|]. split; [set_solver|done].
  - by exists turn.
Qed.
End turn.

(** The loop ends by its second turn: node shapes hand over what they declare,
    to property shapes, which hand over nothing. *)
Lemma inherit_loop_ok T schema rank :
  schema_ok schema rank → length T = length (portable schema) →
  ∃ T', inherit_loop schema (inherit_fuel T) T = Ok T' ∧ length T' = length T ∧
    ∀ id X, T !! id = Some X → ∃ X', T' !! id = Some X' ∧ ∀ x, x ∈ X' ↔ x ∈ X ∨ handed T (portable schema) id x.
Proof.
  intros Hschema Hlen. unfold inherit_fuel. cbn [inherit_loop].
  destruct (inherit_turn T schema rank Hschema Hlen) as ([T1 flag] & -> & [Hl1 Hs1 Hsame Hmore]). cbn in *.
  destruct flag; [|by exists T1].
  assert (∃ n, length T * size (⋃ T) = S n) as [n ->].
  { specialize (Hmore eq_refl). destruct (decide (⋃ T = ∅)) as [He|He].
    - assert (T1 = T) as ->; [|lia]. apply list_eq. intros id. destruct (T !! id) as [X|] eqn:HX.
      + destruct (Hs1 id X HX) as (X' & -> & HX'). f_equal. apply set_eq. intros x. rewrite HX'. split; [|by left].
        intros [?|(s & Z & _ & _ & _ & _ & HZ & Hx)]; [done|]. exfalso. assert (x ∈ ⋃ T) as Hin.
        { apply elem_of_union_list. exists Z. split; [|done]. by eapply list_elem_of_lookup_2. }
        rewrite He in Hin. by apply elem_of_empty in Hin.
      + apply lookup_ge_None_2. rewrite Hl1. by apply lookup_ge_None_1.
    - assert (size (⋃ T) ≠ 0) by (intros ?%size_empty_inv; set_solver). assert (length T ≠ 0).
      { intros ->%nil_length_inv. done. }
      destruct (length T * size (⋃ T)) eqn:E; [lia|eauto]. }
  cbn [inherit_loop].
  assert (∀ id x, handed T1 (portable schema) id x ↔ handed T (portable schema) id x) as Hh.
  { assert (∀ s X, s ∈ portable schema → shape_kind s = NodeShape → T1 !! shape_id s = Some X ↔ T !! shape_id s = Some X) as Hnode.
    { intros s X Hs Hk. pose proof Hs as [j Hj]%list_elem_of_lookup. rewrite (sk_id _ _ Hschema j s Hj).
      destruct (lookup_lt_is_Some_2 T j) as [Y HY]; [rewrite Hlen; by eapply lookup_lt_Some|].
      destruct (Hs1 j Y HY) as (Y' & HY' & Heq). rewrite HY, HY'. assert (Y' = Y) as ->; [|done].
      apply set_eq. intros x. rewrite Heq. split; [|by left]. intros [?|Hx]; [done|].
      eapply handed_property in Hx; [|done..]. congruence. }
    intros id x. split; intros (s & X & Hs & Hd & Hk & Hin & HX & Hx); exists s, X; (split_and!; [done..|by apply Hnode|done]). }
  destruct (inherit_turn T1 schema rank Hschema ltac:(congruence)) as ([T2 flag] & -> & [Hl2 Hs2 Hsame2 Hmore2]).
  cbn in *.
  assert (T2 = T1) as ->.
  { apply list_eq. intros id. destruct (T1 !! id) as [X|] eqn:HX.
    - destruct (Hs2 id X HX) as (X' & -> & HX'). f_equal. apply set_eq. intros x. rewrite HX'. split; [|by left].
      intros [?|Hx%Hh]; [done|]. destruct (lookup_lt_is_Some_2 T id) as [Y HY]; [rewrite <- Hl1; by eapply lookup_lt_Some|].
      destruct (Hs1 id Y HY) as (Y' & HY' & Heq). simplify_eq. apply Heq. by right.
    - apply lookup_ge_None_2. rewrite Hl2. by apply lookup_ge_None_1. }
  destruct flag; [specialize (Hmore2 eq_refl); lia|]. by exists T1.
Qed.
End inherit.

(** ** Validations *)

Section validation.
Context `{Oxrdf, !Oxsd} `{Blake3} {V : Type} `{RdfReadView V} (view : V) (sn : Snapshot) (scope : GraphVisibility).
Context (validating : option TermId) (graph : TermId) (rows : gset EncodedQuad) (term_of : TermId → option EncodedTerm).
Context (rdf_type : TermId) (schema : ResolvedSchema) (rank : ShapeId → nat) (options : ShaclValidationOptions).
Context `{Hview : !DataView view sn scope validating graph rows term_of}.
Context (Hschema : schema_ok schema rank) (Htype : TermId_fit rdf_type) (cancellable : Prop).

#[local] Abbreviation reads := (reads sn scope validating) (only parsing).
#[local] Abbreviation state_ok := (state_ok sn scope validating rows term_of rdf_type schema rank cancellable (shape_fuel schema)) (only parsing).
#[local] Abbreviation wp := (wp sn scope validating rows term_of rdf_type schema rank options cancellable (shape_fuel schema)) (only parsing).
#[local] Abbreviation conforms := (conforms rows term_of rdf_type schema) (only parsing).
#[local] Abbreviation judged := (judged rows term_of rdf_type schema true) (only parsing).
#[local] Abbreviation known := (known term_of) (only parsing).

(** *** Focus nodes *)

(** The focus nodes a target declares. *)
Definition target_rel (t : ResolvedTarget) (x : TermId) : Prop :=
  match t with
  | TargetNode node => x = node
  | TargetClass class | TargetImplicitClass class => edge rows rdf_type x class
  | TargetSubjectsOf predicate => ∃ y, edge rows predicate x y
  | TargetObjectsOf predicate => ∃ y, edge rows predicate y x
  end.
Definition declared (id : ShapeId) (x : TermId) : Prop :=
  ∃ r t, shapes schema !! id = Some r ∧ t ∈ targets r ∧ target_rel t x.

Lemma scan_targets column p o acc (R : TermId → Prop) :
  TermId_fit p → from_option TermId_fit True o →
  (∀ x, R x ↔ ∃ q, q ∈ rows ∧ quad_predicate q = p ∧ (∀ y, o = Some y → quad_object q = y) ∧ x = column q) →
  reads (scan_column view graph column (Some p) o acc) (λ X, ∀ x, x ∈ X ↔ x ∈ acc ∨ R x).
Proof.
  intros Hp Ho HR. eapply reads_weaken; [apply (scan_column_reads view sn scope validating graph rows term_of rdf_type schema)|].
  { repeat constructor; [done|]. by destruct o. }
  cbv beta. intros X HX x. rewrite HX, HR. setoid_rewrite matches_true. cbn. split.
  - intros [?|(q & Hq & (_ & _ & Hqp & Hqo) & ->)]; [by left|right]. exists q. split_and!; [done|by rewrite <- (Hqp p)| |done].
    intros y Hy. symmetry. auto.
  - intros [?|(q & Hq & <- & Hqo & ->)]; [by left|right]. exists q.
    split_and!; [done|by intros ? [=]|by intros ? [=]|by intros ? [= <-]| |done]. intros y Hy. symmetry. auto.
Qed.

Lemma target_nodes_reads id r t acc :
  shapes schema !! id = Some r → t ∈ targets r →
  reads (target_nodes view graph rdf_type acc t) (λ X, ∀ x, x ∈ X ↔ x ∈ acc ∨ target_rel t x).
Proof.
  intros Hr Ht. assert (∀ i, i ∈ target_terms t → TermId_fit i) as Hfit.
  { intros i. by apply (sk_targets _ _ Hschema id r t i). }
  destruct t as [node|class|predicate|predicate|class]; cbn [target_nodes target_rel target_terms] in *;
    [|apply scan_targets..]; try done; try (apply Hfit; by left); unfold edge.
  - apply reads_ret. intros x. rewrite elem_of_union, elem_of_singleton. tauto.
  - intros x. split; [intros (q & ? & <- & ? & <-); exists q; split_and!; [done..|by intros ? [= <-]|done]|].
    intros (q & ? & ? & Hq & ->). exists q. split_and!; [done..|by apply Hq].
  - intros x. split; [intros (y & q & ? & <- & ? & <-); exists q; by split_and!|]. intros (q & ? & ? & _ & ->). by eexists _, q.
  - intros x. split; [intros (y & q & ? & <- & ? & <-); exists q; by split_and!|]. intros (q & ? & ? & _ & ->). by eexists _, q.
  - intros x. split; [intros (q & ? & <- & ? & <-); exists q; split_and!; [done..|by intros ? [= <-]|done]|].
    intros (q & ? & ? & Hq & ->). exists q. split_and!; [done..|by apply Hq].
Qed.

Lemma declared_reads :
  reads (st_fold (shape_targets view graph rdf_type) [] (shapes schema))
    (λ T, length T = length (shapes schema) ∧ ∀ id X x, T !! id = Some X → x ∈ X ↔ declared id x).
Proof.
  eapply reads_weaken; [apply (reads_fold_in _ _ _ _ (λ pre T, Forall2
    (λ r (X : gset TermId), ∀ x, x ∈ X ↔ ∃ t, t ∈ targets r ∧ target_rel t x) pre T))|].
  - constructor.
  - intros pre r T Hr HT. apply list_elem_of_lookup in Hr as [id Hr]. unfold shape_targets.
    eapply reads_bind; [apply (reads_fold_in _ _ _ _ (λ ts (X : gset TermId), ∀ x, x ∈ X ↔ ∃ t, t ∈ ts ∧ target_rel t x))|].
    + intros x. split; [by intros ?%elem_of_empty|]. by intros (t & ?%elem_of_nil & _).
    + intros ts t X Ht HX. eapply reads_weaken; [by eapply target_nodes_reads|]. cbv beta in HX |- *. intros Y HY x.
      rewrite HY, HX.
      setoid_rewrite elem_of_app. setoid_rewrite list_elem_of_singleton. naive_solver.
    + intros X HX. apply reads_ret. apply Forall2_app; [done|]. by constructor.
  - intros T HT. split; [symmetry; by eapply Forall2_length|]. intros id X x HX.
    destruct (Forall2_lookup_r _ _ _ _ _ HT HX) as (r & Hr & Heq). rewrite Heq. unfold declared.
    split; [intros (t & ? & ?); by exists r, t|]. intros (r' & t & Hr' & ? & ?). simplify_eq. by exists t.
Qed.

(** The focus nodes a shape is evaluated at. *)
Definition focus (id : ShapeId) (x : TermId) : Prop :=
  declared id x ∨ ∃ i s, portable schema !! i = Some s ∧ deactivated s = false ∧ shape_kind s = NodeShape ∧
                         id ∈ property_shapes s ∧ declared i x.

Lemma resolve_targets_reads :
  reads (resolve_targets view graph rdf_type schema)
    (λ T, length T = length (portable schema) ∧ ∀ id X x, T !! id = Some X → x ∈ X ↔ focus id x).
Proof.
  unfold resolve_targets. eapply reads_bind; [apply declared_reads|]. intros T [Hl HT].
  rewrite (sk_length _ _ Hschema) in Hl.
  destruct (inherit_loop_ok T schema rank Hschema Hl) as (T' & HT' & Hl' & Hsets). rewrite HT'. apply reads_ret.
  split; [congruence|]. intros id X' x HX'.
  destruct (lookup_lt_is_Some_2 T id) as [X HX]; [rewrite <- Hl'; by eapply lookup_lt_Some|].
  destruct (Hsets id X HX) as (Y & HY & Heq). simplify_eq. rewrite Heq. unfold focus. rewrite (HT id X x HX).
  apply or_iff_compat_l. unfold handed. split.
  - intros (s & Z & Hs & ? & ? & ? & HZ & Hx). apply list_elem_of_lookup in Hs as [i Hi].
    rewrite (sk_id _ _ Hschema i s Hi) in HZ. exists i, s. split_and!; try done. by apply (HT i Z x HZ).
  - intros (i & s & Hi & ? & ? & ? & Hx).
    destruct (lookup_lt_is_Some_2 T i) as [Z HZ]; [rewrite Hl; by eapply lookup_lt_Some|].
    exists s, Z. split_and!; try done; [by eapply list_elem_of_lookup_2|by rewrite (sk_id _ _ Hschema i s Hi)|].
    by apply (HT i Z x HZ).
Qed.

(** The evaluations at all focus nodes amount to conformance of those that
    are declared. *)
Lemma deactivated_conforms id s x : portable schema !! id = Some s → deactivated s = true → conforms id x.
Proof.
  intros Hs Hd. apply (judged_silent _ _ _ _ rank Hschema); [by eapply lookup_lt_Some|].
  intros s' r Hs' _ Hd'. congruence.
Qed.

Lemma judged_weaken id x : id < length (portable schema) → conforms id x → judged id x.
Proof.
  intros Hid Hc s r Hs Hr Hd. apply (judged_silent _ _ _ _ rank Hschema _ _ Hid) in Hc.
  destruct (Hc s r Hs Hr Hd) as [? Hp]. split; [done|]. intros _. apply Hp. by left.
Qed.

Lemma all_judged :
  (∀ id x, id < length (portable schema) → focus id x → judged id x) ↔ (∀ id x, declared id x → conforms id x).
Proof.
  assert (∀ id x, declared id x → id < length (portable schema)) as Hlt.
  { intros id x (r & t & Hr & _). rewrite <- (sk_length _ _ Hschema). by eapply lookup_lt_Some. }
  split.
  - intros Hall id x Hx. pose proof (Hlt id x Hx) as Hid. apply (judged_silent _ _ _ _ rank Hschema _ _ Hid).
    intros s r Hs Hr Hd. destruct (Hall id x Hid (or_introl Hx) s r Hs Hr Hd) as [Hc Hp]. split; [done|].
    intros _ p y Hpp Hy. destruct (shape_kind s) eqn:Hk; [|apply Hp; [by right|done|done]]. subst y.
    destruct (sk_properties _ _ Hschema id s p Hs Hpp) as [_ (s' & Hs' & Hk')].
    apply (judged_property _ _ _ _ rank Hschema true p s' x Hs' Hk'), Hall; [by eapply lookup_lt_Some|].
    right. by exists id, s.
  - intros Hall id x Hid [Hx|(i & s & Hs & Hd & Hk & Hin & Hx)]; [by apply judged_weaken, Hall|].
    apply judged_weaken; [done|]. pose proof (Hall i x Hx) as Hc.
    apply (judged_silent _ _ _ _ rank Hschema) in Hc; [|by eapply lookup_lt_Some].
    destruct (lookup_lt_is_Some_2 (shapes schema) i) as [r Hr].
    { rewrite (sk_length _ _ Hschema). by eapply lookup_lt_Some. }
    destruct (Hc s r Hs Hr Hd) as [_ Hp]. apply Hp; [by left|done|]. by rewrite Hk.
Qed.

(** *** The loops *)

Context (Hnodes : ∀ id r node, shapes schema !! id = Some r → TargetNode node ∈ targets r → known node).

Lemma declared_known id x : declared id x → known x.
Proof.
  intros (r & t & Hr & Ht & Hx).
  assert (∀ q, q ∈ rows → known (quad_subject q) ∧ known (quad_object q)) as Hq.
  { intros q Hq. pose proof (rv_known (view := view) (rows := rows) q Hq) as (? & _ & ?).
    apply (av_fit (view := view)) in Hq as [? ?]. by repeat split. }
  destruct t as [node| | | |]; cbn in Hx; unfold edge in Hx.
  - subst x. by apply (Hnodes id r).
  - destruct Hx as (q & ? & <- & _). by apply Hq.
  - destruct Hx as (y & q & ? & <- & _). by apply Hq.
  - destruct Hx as (y & q & ? & _ & _ & <-). by apply Hq.
  - destruct Hx as (q & ? & <- & _). by apply Hq.
Qed.

Lemma focus_known id x : focus id x → known x.
Proof. intros [Hx|(i & s & _ & _ & _ & _ & Hx)]; by eapply declared_known. Qed.

Lemma each_focus_wp id l s :
  id < length (portable schema) → (∀ x, x ∈ l → known x) → state_ok s → halted s = false →
  wp (each_focus (λ x, evaluate_shape view graph rdf_type schema options (shape_fuel schema) id x true) l)
    (λ stop s', ∃ b, (b = true ↔ ∀ x, x ∈ l → judged id x) ∧ progress true b s s' ∧ stop = halted s') s.
Proof.
  intros Hid. pose proof (sk_rank _ _ Hschema id Hid). revert s. induction l as [|x l IH]; intros s Hk Hok Hh; cbn [each_focus].
  { apply wp_ret; [done|]. exists true. split_and!; [|apply progress_refl|done]. split; [|done]. by intros _ x ?%elem_of_nil. }
  apply wp_bind. eapply wp_weaken.
  { apply (evaluate_emit view sn scope validating graph rows term_of rdf_type schema rank options Hschema Htype cancellable
      (shape_fuel schema) id x (shape_fuel schema)); try done. apply Hk. by left. }
  intros b s1 _ [Hb Hp] Hok1. apply wp_bind. exists s1, (Ok (halted s1)). split; [done|]. split; [done|]. intros _.
  destruct (halted s1) eqn:Hh1.
  - apply wp_ret; [done|]. assert (b = false) as ->.
    { destruct b; [|done]. apply progress_halted in Hp; [congruence|done]. }
    exists false. split_and!; [|done|done]. split; [done|]. intros Hall. apply Hb, Hall. by left.
  - eapply wp_weaken; [apply (IH s1); [intros y Hy; apply Hk; by right|done|done]|].
    intros stop s2 _ (b' & Hb' & Hp' & Hstop). exists (b && b'). split_and!; [|by eapply progress_trans|done].
    rewrite andb_true_iff, Hb, Hb', cons_all. done.
Qed.

Lemma each_shape_wp T n s :
  n + length T ≤ length (portable schema) → (∀ id X x, T !! id = Some X → x ∈ X → known x) → state_ok s → halted s = false →
  wp (each_shape view graph rdf_type schema options n T)
    (λ _ s', ∃ b, (b = true ↔ ∀ i X x, T !! i = Some X → x ∈ X → judged (n + i) x) ∧ progress true b s s') s.
Proof.
  revert n s. induction T as [|X T IH]; intros n s Hn Hk Hok Hh; cbn [each_shape length] in *.
  { apply wp_ret; [done|]. exists true. split; [|apply progress_refl]. split; [|done]. intros _ i X x. by rewrite lookup_nil. }
  specialize (λ s, IH (S n) s ltac:(lia) (λ i, Hk (S i))).
  destruct (lookup_lt_is_Some_2 (portable schema) n ltac:(lia)) as [sh Hsh].
  apply wp_bind. unfold portable_shape. rewrite Hsh. apply wp_ret; [done|]. intros _.
  assert (∀ P : Prop, (P ↔ ∀ x, x ∈ X → judged n x) → ∀ Q : Prop, (Q ↔ ∀ i Y x, T !! i = Some Y → x ∈ Y → judged (S n + i) x) →
    P ∧ Q ↔ ∀ i Y x, (X :: T) !! i = Some Y → x ∈ Y → judged (n + i) x) as Hcons.
  { intros P HP Q HQ. rewrite HP, HQ. split.
    - intros [HX HT] [|i] Y x HY Hx; cbn in HY; [simplify_eq; rewrite Nat.add_0_r; auto|].
      rewrite <- plus_n_Sm. by apply (HT i Y).
    - intros Hall. split; [intros x Hx; rewrite <- (Nat.add_0_r n); by apply (Hall 0 X)|].
      intros i Y x HY Hx. rewrite plus_Sn_m, plus_n_Sm. by apply (Hall (S i) Y). }
  assert ((∀ x, x ∈ X → judged n x) → wp (each_shape view graph rdf_type schema options (S n) T)
    (λ _ s', ∃ b, (b = true ↔ ∀ i Y x, (X :: T) !! i = Some Y → x ∈ Y → judged (n + i) x) ∧ progress true b s s') s) as Hskip.
  { intros HX. eapply wp_weaken; [by apply IH|]. intros _ s' _ (b & Hb & Hp). exists b. split; [|done].
    rewrite <- (Hcons True ltac:(tauto) _ Hb). tauto. }
  destruct (deactivated sh) eqn:Hd.
  { apply Hskip. intros x _ s' r Hs' _ Hd'. congruence. }
  case_decide as He; [apply Hskip; intros x Hx; rewrite He in Hx; by apply elem_of_empty in Hx|]. clear Hskip.
  apply wp_bind. eapply wp_weaken.
  { apply (each_focus_wp n (btree_elems X)); [lia| |done|done]. intros x Hx%elem_of_btree_elems. by apply (Hk 0 X). }
  intros stop s1 _ (b & Hb & Hp & Hstop) Hok1. setoid_rewrite elem_of_btree_elems in Hb. destruct stop.
  - apply wp_ret; [done|]. assert (b = false) as ->.
    { destruct b; [|done]. apply progress_halted in Hp; [congruence|done]. }
    exists false. split; [|done]. rewrite <- (Hcons _ Hb _ ltac:(reflexivity)). naive_solver.
  - eapply wp_weaken; [by apply IH|]. intros _ s2 _ (b' & Hb' & Hp'). exists (b && b'). split; [|by eapply progress_trans].
    by rewrite andb_true_iff, (Hcons _ Hb _ Hb').
Qed.

(** *** The report *)

Lemma decode_reads x : is_Some (term_of x) → reads (view_decode_term view x) (λ _, True).
Proof. intros [t Ht]. eapply reads_weaken; [by apply (rv_decode (view := view))|done]. Qed.

Lemma finish_reads threshold l :
  Forall (decodable term_of) l → reads (finish_report view threshold l) (λ rep, report_conforms rep = true ↔ l = []).
Proof.
  intros Hl. unfold finish_report. eapply reads_bind.
  { apply (reads_fold_in _ _ _ _ (λ pre acc, length acc = length pre)); [done|]. intros pre r acc Hr Hacc.
    rewrite Forall_forall in Hl. destruct (Hl r Hr) as (Hf & Hv & Hp). unfold decode_result.
    eapply (reads_bind _ _ _ _ _ (λ _, True)).
    { destruct (pr_path r) as [[p|p]|]; [by apply reads_ret| |by apply reads_ret].
      eapply reads_bind; [apply decode_reads; auto|]. intros t _. by apply reads_ret. }
    intros path _. eapply reads_bind; [by apply decode_reads|]. intros t _. eapply (reads_bind _ _ _ _ _ (λ _, True)).
    { destruct (pr_value r) as [v|]; [|by apply reads_ret].
      eapply reads_bind; [apply decode_reads; auto|]. intros v' _. by apply reads_ret. }
    intros v _. apply reads_ret. rewrite !length_app. cbn. by rewrite Hacc. }
  intros decoded Hd. apply reads_ret. cbn [report_of report_conforms]. rewrite bool_decide_eq_true.
  pose proof (Permutation_length (sort_perm decoded)) as Hs. rewrite Hd in Hs. split.
  - intros He. rewrite He in Hs. by apply nil_length_inv.
  - intros ->. by apply nil_length_inv.
Qed.

(** A read keeps the results. *)
Lemma read_wp {A} (m : readm A) P s :
  reads m P → state_ok s → halted s = false → wp (vd_read m) (λ a s', P a ∧ results s' = results s ∧ halted s' = false) s.
Proof.
  intros Hm Hok Hh. eapply wp_weaken; [by apply quiet_read|]. intros a s' _ [Ha Hp]. split; [done|].
  split; [apply Hp|by eapply progress_halted].
Qed.

(** The report too is read when the evaluation is over. *)
Lemma read_halted_wp {A} (m : readm A) P s :
  reads m P → state_ok s → wp (vd_read m) (λ a _, P a) s.
Proof.
  intros Hm Hok.
  set (s0 := {| vd_context := vd_context s; path_work := path_work s; results := results s; term_metas := term_metas s;
    path_cache := path_cache s; conformance_cache := conformance_cache s; halted := false |}).
  assert (state_ok s0) as Hok0 by (destruct Hok; by split).
  destruct (read_wp m P s0 Hm Hok0 eq_refl) as (s' & r & Hrun & Hr). unfold vd_read, vd_walk, ShaclConforms.wp in *. cbn in Hrun.
  destruct (liftr m (vd_context s, path_work s)) as [[cx w] res]. injection Hrun as <- <-. eexists _, _. split; [done|].
  destruct (map_err WalkFailed res) as [a|e|]; [|by destruct Hr; constructor|done].
  destruct Hr as [Hok' [Ha _]]. split; [by destruct Hok'; split|done].
Qed.

(** The evaluations of a validation with the given focus nodes. *)
Definition judged_at (T : list (gset TermId)) : Prop := ∀ id X x, T !! id = Some X → x ∈ X → judged id x.

Lemma validate_with_wp (T : list (gset TermId)) threshold s :
  length T ≤ length (portable schema) → (∀ id X x, T !! id = Some X → x ∈ X → known x) →
  state_ok s → halted s = false → results s = [] →
  wp (_ ⇐ each_shape view graph rdf_type schema options 0 T;
      found ⇐ vd_get results;
      vd_read (finish_report view threshold found))
    (λ rep _, report_conforms rep = true ↔ judged_at T) s.
Proof.
  intros Hl Hk Hok Hh Hr. apply wp_bind. eapply wp_weaken; [by apply each_shape_wp|].
  intros _ s1 Hok1 (b & Hb & _ & Hp) _. apply wp_bind. exists s1, (Ok (results s1)). split; [done|]. split; [done|]. intros _.
  eapply wp_weaken; [apply read_halted_wp; [|done]; apply finish_reads; by apply (so_results _ _ _ _ _ _ _ _ _ _ _ Hok1)|].
  intros rep _ _ ->. unfold judged_at. rewrite <- Hb. destruct b; cbn in Hp.
  - destruct Hp as [-> _]. done.
  - destruct Hp as (l & Hne & ->). rewrite Hr. by destruct l.
Qed.

Lemma new_validator_ok cx :
  context_ok sn scope validating cx → (checks_left cx ≠ None → cancellable) → state_ok (new_validator cx).
Proof.
  intros Hcx Hc. split; try done; cbn; try (intros *; by rewrite lookup_empty).
Qed.
End validation.
