(* ===== verification/ShaclVerdicts.v ===== *)
(** * Verdicts of a validation

    The two views as data of a validation, and what a validation through them
    decides: of a graph of the store, and of the graph a change set leaves. *)

From S2P Require Import Prelude Clock Terms Store Codec QueryView IndexUpdate Transitions Replication Convergence.
From S2P Require Import LocalWrites IndexMirror Orphans Cursors Reads ReadRules Answers DeltaAnswers ViewRows ShaclPaths ShaclTerms.
From S2P Require Import ShaclModel ShaclEval ShaclConforms ShaclReports.
#[local] Open Scope craqle_scope.

(** A view in which the graph to validate is shown or not. *)
Class DataGraph `{Oxrdf} `{Blake3} {V : Type} `{RdfReadView V} (view : V) (sn : Snapshot) (scope : GraphVisibility)
    (validating : option TermId) (data_graph : GraphId) (shown : bool) : Prop := {
  dg_graph : reads sn scope validating (view_lookup_term view (from_named_node data_graph))
    (λ o, default (gid data_graph) o = gid data_graph);
  dg_type : reads sn scope validating (view_lookup_term view RDF_TYPE)
    (λ o, default (hash_term RDF_TYPE) o = hash_term RDF_TYPE);
  dg_shown : ∃ here visible, contains_graph view data_graph = Ok here ∧ here && visible = shown ∧
    reads sn scope validating (graph_is_visible view (gid data_graph)) (λ b, b = visible);
}.

(** The verdict of a validation: with an answer, whether every declared focus
    conforms; without one, a graph that is not shown or a limit. *)
Definition verdict `{Oxrdf, !Oxsd} `{Blake3} (rows : gset EncodedQuad) (term_of : TermId → option EncodedTerm)
    (schema : ResolvedSchema) (options : ShaclValidationOptions) (data_graph : GraphId) (shown : bool) (cancellable : Prop)
    (o : Validator * outcome ShaclError ShaclValidationReport) : Prop :=
  match o.2 with
  | Ok report => shown = true ∧
      (report_conforms report = true ↔ ∀ id x, declared rows (hash_term RDF_TYPE) schema id x →
                                               conforms rows term_of (hash_term RDF_TYPE) schema id x)
  | Err (DataGraphNotFound g) => shown = false ∧ g = data_graph
  | Err e => limit_error rows options cancellable o.1 e
  | Panic => False
  end.

Section view.
Context `{Oxrdf, !Oxsd} `{Blake3} {V : Type} `{RdfReadView V} (view : V) (sn : Snapshot) (scope : GraphVisibility).
Context (validating : option TermId) (data_graph : GraphId) (rows : gset EncodedQuad).
Context (term_of : TermId → option EncodedTerm) (schema : ResolvedSchema) (rank : ShapeId → nat).
Context (options : ShaclValidationOptions) (shown : bool).
Context `{Hview : !DataView view sn scope validating (gid data_graph) rows term_of}.
Context `{Hgraph : !DataGraph view sn scope validating data_graph shown}.
Context (Hschema : schema_ok schema rank) (Htype : TermId_fit (hash_term RDF_TYPE)).
Context (Hnodes : ∀ id r node, shapes schema !! id = Some r → TargetNode node ∈ targets r → known term_of node).

#[local] Abbreviation state_ok c := (state_ok sn scope validating rows term_of (hash_term RDF_TYPE) schema rank c
  (shape_fuel schema)) (only parsing).
#[local] Abbreviation wp c := (wp sn scope validating rows term_of (hash_term RDF_TYPE) schema rank options c
  (shape_fuel schema)) (only parsing).
#[local] Abbreviation verdict := (verdict rows term_of schema options data_graph shown) (only parsing).

Lemma limit_verdict c s e : limit_error rows options c s e → verdict c (s, Err e).
Proof. intros He. unfold ShaclVerdicts.verdict. by destruct He; constructor. Qed.

Lemma verdict_bind {A} c (m : validm A) (f : A → validm ShaclValidationReport) Q s :
  wp c m Q s → (∀ a s', state_ok c s' → Q a s' → verdict c (f a s')) → verdict c (st_bind m f s).
Proof.
  intros (s' & r & Hr & Hm) Hf. unfold st_bind. rewrite Hr. destruct r as [a|e|]; [|by apply limit_verdict|done].
  destruct Hm as [Hok HQ]. by apply Hf.
Qed.

Lemma verdict_read {A} c (m : readm A) (f : A → validm ShaclValidationReport) P s :
  reads sn scope validating m P → state_ok c s → halted s = false → results s = [] →
  (∀ a s', P a → state_ok c s' → halted s' = false → results s' = [] → verdict c (f a s')) →
  verdict c (st_bind (vd_read m) f s).
Proof.
  intros Hm Hok Hh Hr Hf. eapply verdict_bind; [by apply read_wp|]. intros a s' Hok' (Ha & Hr' & Hh'). apply Hf; congruence.
Qed.

Lemma verdict_wp c (m : validm ShaclValidationReport) s :
  shown = true →
  wp c m (λ report _, report_conforms report = true ↔
    ∀ id x, declared rows (hash_term RDF_TYPE) schema id x → conforms rows term_of (hash_term RDF_TYPE) schema id x) s →
  verdict c (m s).
Proof.
  intros Hs (s' & r & -> & Hr). destruct r as [rep|e|]; [|by apply limit_verdict|done]. by destruct Hr.
Qed.

Lemma validate_targets_verdict c threshold s :
  shown = true → state_ok c s → halted s = false → results s = [] →
  verdict c (validate_targets view (gid data_graph) (hash_term RDF_TYPE) schema options None threshold s).
Proof.
  intros Hs Hok Hh Hr. unfold validate_targets.
  eapply verdict_read; [by eapply resolve_targets_reads|done..|]. intros T s' [Hl HT] Hok' Hh' Hr'. apply verdict_wp; [done|].
  assert (∀ id X x, T !! id = Some X → x ∈ X → known term_of x) as Hk.
  { intros id X x HX Hx%(HT id X x HX). by eapply focus_known. }
  eapply wp_weaken; [apply (validate_with_wp view _ _ _ _ _ _ _ _ rank); try done; lia|]. intros rep s1 _ Hrep. cbn in Hrep.
  rewrite Hrep. rewrite <- (all_judged rows term_of (hash_term RDF_TYPE) schema rank Hschema). unfold judged_at. split.
  - intros Hall id x Hid Hx. rewrite <- Hl in Hid. destruct (lookup_lt_is_Some_2 T id Hid) as [X HX].
    apply (Hall id X); [done|]. by apply (HT id X x HX).
  - intros Hall id X x HX Hx. apply Hall; [rewrite <- Hl; by eapply lookup_lt_Some|]. by apply (HT id X x HX).
Qed.

(** The validation gives the verdict. *)
Lemma validate_view_verdict threshold cx :
  context_ok sn scope validating cx →
  verdict (checks_left cx ≠ None) (validate_view view schema data_graph options None threshold (new_validator cx)).
Proof.
  intros Hcx. set (c := checks_left cx ≠ None). assert (state_ok c (new_validator cx)) as Hok by by apply new_validator_ok.
  unfold validate_view. fold (gid data_graph). destruct dg_shown as (here & visible & Hhere & Hshown & Hvis).
  eapply verdict_read; [exact dg_graph|done..|]. intros o s1 Ho Hok1 Hh1 Hr1. rewrite Ho. clear o Ho.
  eapply (verdict_read _ _ _ (λ b, b = here)); [by apply (reads_lift _ _ _ _ here)|done..|]. intros ? s2 -> Hok2 Hh2 Hr2.
  eapply (verdict_bind _ _ _ (λ b s', b = shown ∧ halted s' = false ∧ results s' = [])).
  { destruct here; [|by apply wp_ret]. eapply wp_weaken; [by apply read_wp|]. cbn in Hshown. intros b s' _ (-> & Hr & Hh).
    split_and!; congruence. }
  intros ? s3 Hok3 (-> & Hh3 & Hr3). destruct (negb shown) eqn:Hneg; [by apply negb_true_iff in Hneg|].
  apply negb_false_iff in Hneg.
  eapply verdict_read; [exact dg_type|done..|]. intros o s4 Ho Hok4 Hh4 Hr4. rewrite Ho. by apply validate_targets_verdict.
Qed.
End view.

(** ** The data of the two views *)

Section data.
Context `{Oxrdf, !Oxsd} `{Blake3}.

(** The terms of the live quads are interned, and are text a validation can
    read. *)
Record data_sound (st : Store) : Prop := {
  ds_rows : rows_sound st;
  ds_readable x t : terms st !! x = Some t → ∃ m, (from_encoded t : outcome ShaclError _) = Ok m;
}.

Lemma RDF_TYPE_vocab : RDF_TYPE = from_named_node vocab.rdf_type.
Proof. by vm_compute. Qed.

Lemma type_looked_up sn : looked_up sn RDF_TYPE.
Proof. left. rewrite RDF_TYPE_vocab. apply list_elem_of_fmap. eexists. split; [done|]. by left. Qed.

Section store.
Context (view : StoreReadView) (scope : GraphVisibility) (validating : option TermId).
Let sn := snapshot view.
Let st := sn_store sn.
Context (Hs : snapshot_sound sn) (Hdata : data_sound st).

(** The rows of a graph of the store. *)
Lemma store_data_view graph :
  TermId_fit graph → readable view (Named graph) →
  ∃ rows, DataView view sn scope validating graph rows (λ x, terms st !! x) ∧
    ∀ q, q ∈ rows ↔ answers sn scope validating (Named graph) pattern_default q.
Proof.
  intros Hg Hr. destruct (store_rows_view view scope validating Hs (ds_rows _ Hdata) graph Hg Hr) as (rows & Hv & Hrows).
  exists rows. split; [|done]. split; [done|]. apply (ds_readable _ Hdata).
Qed.

Lemma store_data_graph graph o :
  lookup_term st (from_named_node graph) = Ok o →
  DataGraph view sn scope validating graph
    (from_option (contains_graph_id st) false o && visible_graph sn scope validating (gid graph)).
Proof.
  intros Ho. split.
  - eapply reads_weaken; [by apply store_lookup|]. intros ? ->. by apply lookup_term_default in Ho.
  - destruct (lookup_total sn (ss_terms _ Hs) RDF_TYPE (type_looked_up sn)) as [o' Ho'].
    eapply reads_weaken; [by apply store_lookup|]. intros ? ->. by apply lookup_term_default in Ho'.
  - eexists _, _. split; [by apply contains_graph_ok|]. split; [by destruct o|]. by apply store_visible.
Qed.
End store.

Section delta.
Context (view : DeltaReadView) (scope : GraphVisibility) (validating : option TermId) (graph : GraphId).
Context (delta : list MaterializedQuadChange).
Let sn := snapshot (base view).
Let st := sn_store sn.
Context (Hs : snapshot_sound sn) (Hbytes : digest_bytes) (Hdata : data_sound st).
Context (Hbuilt : delta_build st graph delta = Ok (index view)).
Context (Hreadable : ∀ x t, delta_terms (index view) !! x = Some t → ∃ m, (from_encoded t : outcome ShaclError _) = Ok m).

(** The rows of the graph of a change set. *)
Lemma delta_data_view :
  readable (base view) (Named (gid graph)) →
  ∃ rows, DataView view sn scope validating (gid graph) rows (delta_term view) ∧
    ∀ q, q ∈ rows ↔ post_answers view scope validating graph delta (Named (gid graph)) pattern_default q.
Proof.
  intros Hr. destruct (delta_rows_view view scope validating graph delta Hs Hbytes (ds_rows _ Hdata) Hbuilt Hr) as (rows & Hv & Hrows).
  exists rows. split; [|done]. split; [done|].
  intros x t. unfold delta_term. rewrite lookup_union_Some_raw. intros [Hx|[_ Hx]]; [by eapply Hreadable|].
  by apply (ds_readable _ Hdata x).
Qed.

(** The graph is there before the change set, or the change set inserts. *)
Definition delta_shown : bool :=
  (contains_graph_id st (gid graph) || bool_decide (map_Exists (λ _ present, present = true) (states (index view)))) &&
  visible_graph sn scope validating (gid graph).

Lemma lookup_graph_known o : graphs_interned sn → lookup_term st (from_named_node graph) = Ok o →
  from_option (contains_graph_id st) false o = contains_graph_id st (gid graph).
Proof.
  intros Hg. unfold lookup_term. fold (gid graph). destruct (terms st !! gid graph) as [t|] eqn:E.
  - case_decide; [|done]. by intros [= <-].
  - intros [= <-]. cbn. destruct (contains_graph_id st (gid graph)) eqn:Ec; [|done]. apply Hg in Ec. unfold st in E.
    rewrite E in Ec. by destruct Ec.
Qed.

Lemma delta_contains :
  contains_graph view graph =
  Ok (contains_graph_id st (gid graph) || bool_decide (map_Exists (λ _ present, present = true) (states (index view)))).
Proof.
  destruct (delta_build_terms _ _ _ _ Hbuilt) as (_ & _ & o & Ho).
  transitivity (here ← Store.contains_graph st graph;
    Ok (here || bool_decide (gid graph = delta_graph (index view) ∧ map_Exists (λ _ present, present = true) (states (index view))))
    : outcome StoreError bool); [done|].
  rewrite (contains_graph_ok _ _ _ Ho). cbn. rewrite <- (lookup_graph_known o (ss_graphs _ Hs) Ho).
  rewrite (do_graph _ _ _ (delta_build_ok _ _ _ _ Hbuilt)). fold (gid graph).
  f_equal. rewrite (bool_decide_ext (gid graph = gid graph ∧ map_Exists (λ _ present, present = true) (states (index view)))
    (map_Exists (λ _ present, present = true) (states (index view)))) by tauto. by destruct o.
Qed.

Lemma delta_data_graph : DataGraph view sn scope validating graph delta_shown.
Proof.
  destruct (delta_build_terms _ _ _ _ Hbuilt) as (Hg & Ht & _). rewrite <- RDF_TYPE_vocab in Ht. split.
  - eapply reads_weaken; [by apply delta_lookup|]. by intros ? ->.
  - eapply reads_weaken; [by apply delta_lookup|]. by intros ? ->.
  - eexists _, _. split; [exact delta_contains|]. split; [done|]. by apply store_visible.
Qed.
End delta.
End data.

(** ** The theorems *)

(** C5: A validation through any view decides the data graph, for the schemas
    and data [schema_ok] and [DataView] describe: no shape of the schema is
    evaluated with itself, its minimum and maximum counts are over predicates,
    inverses and repetitions, whose capped walks are exact, its target nodes are
    known to the view, and the terms of the data are text that is parsed without
    a panic.  (The compiler accepts more: see
    [ShaclPaths.capped_alternative_undercounts], [ShaclCycles.sibling_cycle] and
    [Terms.hex_escape_panics].)  Then it answers only for a graph that is shown,
    and reports conformance exactly when every declared focus node of every
    active shape conforms to the shape, whatever its caches hold and wherever it
    stops early; it does not panic, and all that keeps it from answering is a
    graph that is not shown, a cancellation, a budget of edges or depth below
    what the graph needs, or the limit of results. *)
Theorem validation_decides `{Oxrdf, !Oxsd} `{Blake3} {V : Type} `{RdfReadView V} (view : V) sn scope validating
    (data_graph : GraphId) rows (term_of : TermId → option EncodedTerm) (schema : ResolvedSchema)
    (rank : ShapeId → nat) options shown threshold cx :
  DataView view sn scope validating (gid data_graph) rows term_of →
  DataGraph view sn scope validating data_graph shown →
  schema_ok schema rank → TermId_fit (hash_term RDF_TYPE) →
  (∀ id r node, shapes schema !! id = Some r → TargetNode node ∈ targets r → known term_of node) →
  context_ok sn scope validating cx →
  verdict rows term_of schema options data_graph shown (checks_left cx ≠ None)
    (validate_view view schema data_graph options None threshold (new_validator cx)).
Proof. intros Hv Hg Hschema Ht Hnodes Hcx. by eapply validate_view_verdict. Qed.

(** The rows of the graph of a change set are those a local write of it leaves
    live. *)
Lemma post_rows_live `{Oxrdf} `{Blake3} (view : DeltaReadView) actor graph changes hints now b st' rows :
  let sn := snapshot (base view) in
  local_batch actor (sn_store sn) graph changes hints now = Ok (b, st') → covered (sn_store sn) graph →
  Forall (λ c, change_graph c = graph ∧ stored_spelling c) changes →
  (∀ q, q ∈ rows ↔ post_answers view (Exact {[gid graph]}) (Some (gid graph)) graph changes (Named (gid graph)) pattern_default q) →
  rows = filter (λ q, quad_graph q = gid graph) (live_set st').
Proof.
  intros sn Hb Hcov Hch Hrows. apply set_eq. intros q. rewrite Hrows, elem_of_filter. unfold post_answers, selects. split.
  - intros (Hq & Hg & _). split; [done|]. by apply (posted_live sn actor graph changes hints now b st' q Hb Hcov Hch Hg).
  - intros [Hg Hq]. apply (posted_live sn actor graph changes hints now b st' q Hb Hcov Hch Hg) in Hq.
    split_and!; [done..|by destruct q|]. unfold row_visible, visible_graph. by rewrite andb_true_r, bool_decide_eq_true.
Qed.

(** C6: The validation of a change set decides the graph a commit would leave,
    under the same conditions on schemas and terms -- no shape
    evaluated with itself, minimum and maximum counts over paths with exact capped
    walks, target nodes known, terms of the store and of the change set that are
    parsed without a panic -- and for changes in canonical spelling, as they
    reach a validation.  Through the change set over the store the report
    conforms exactly when every declared focus node conforms in the live quads
    of the graph after a local write of the same changes. *)
Theorem change_validation_decides `{Oxrdf, !Oxsd} `{Blake3} (view : DeltaReadView) actor graph changes hints now b st'
    (schema : ResolvedSchema) (rank : ShapeId → nat) options threshold cx :
  let sn := snapshot (base view) in
  let rows := filter (λ q, quad_graph q = gid graph) (live_set st') in
  snapshot_sound sn → digest_bytes → data_sound (sn_store sn) → readable (base view) (Named (gid graph)) →
  delta_build (sn_store sn) graph changes = Ok (index view) →
  (∀ x t, delta_terms (index view) !! x = Some t → ∃ m, (from_encoded t : outcome ShaclError _) = Ok m) →
  local_batch actor (sn_store sn) graph changes hints now = Ok (b, st') → covered (sn_store sn) graph →
  Forall (λ c, change_graph c = graph ∧ stored_spelling c) changes →
  schema_ok schema rank →
  (∀ id r node, shapes schema !! id = Some r → TargetNode node ∈ targets r → known (delta_term view) node) →
  context_ok sn (Exact {[gid graph]}) (Some (gid graph)) cx →
  verdict rows (delta_term view) schema options graph
    (delta_shown view (Exact {[gid graph]}) (Some (gid graph)) graph) (checks_left cx ≠ None)
    (validate_view view schema graph options None threshold (new_validator cx)).
Proof.
  intros sn rows Hs Hbytes Hdata Hread Hbuilt Hterms Hb Hcov Hch Hschema Hnodes Hcx.
  destruct (delta_data_view view (Exact {[gid graph]}) (Some (gid graph)) graph changes Hs Hbytes Hdata Hbuilt Hterms Hread)
    as (rows' & Hv & Hrows).
  pose proof (post_rows_live view actor graph changes hints now b st' rows' Hb Hcov Hch Hrows) as ->.
  pose proof (delta_data_graph view (Exact {[gid graph]}) (Some (gid graph)) graph changes Hs Hbuilt) as Hg.
  pose proof (hash_term_fit RDF_TYPE Hbytes) as Htype. by eapply validate_view_verdict.
Qed.

(** ** Concrete inputs *)

Section demo.
Import DemoOxrdf DemoBlake3 DemoOxsd.
#[local] Open Scope string_scope.

(** Subjects of [p] are IRIs with [n] values or more, among them [o] only. *)
Let node_shape : CompiledShape :=
  {| shape_id := 0; label := "<N>"; shape_kind := NodeShape; plan_targets := [PlanSubjectsOf "<p>"]; plan_path := None;
     plan_constraints := [KNodeKind NkIri]; property_shapes := [1]; severity := Violation; shape_messages := [];
     deactivated := false; dependencies := analyze [PlanSubjectsOf "<p>"] None [KNodeKind NkIri] |}.
Let property_shape (n : nat) : CompiledShape :=
  {| shape_id := 1; label := "<P>"; shape_kind := PropertyShape; plan_targets := [];
     plan_path := Some (PlanPredicate "<p>"); plan_constraints := [KMinCount n; KIn ["<o>"]]; property_shapes := [];
     severity := Violation; shape_messages := []; deactivated := false;
     dependencies := analyze [] (Some (PlanPredicate "<p>")) [KMinCount n; KIn ["<o>"]] |}.
Let schema (n : nat) : ResolvedSchema :=
  {| portable := [node_shape; property_shape n];
     shapes := [{| targets := [TargetSubjectsOf (hash_term "<p>")]; path := None; constraints := [CNodeKind NkIri] |};
                {| targets := []; path := Some (Predicate (hash_term "<p>"));
                   constraints := [CMinCount n; CIn {[hash_term "<o>"]}] |}] |}.
Let store0 : StoreReadView :=
  {| snapshot := {| sn_store := empty_store; sn_diagnostics := ∅; sn_views := init_views; sn_seqno := 0 |};
     read_mode := Auto |}.
Let built : outcome StoreError DeltaIndex := delta_build empty_store "g" demo_changes.
Let view0 : DeltaReadView :=
  {| base := store0;
     index := match built with
              | Ok ix => ix
              | _ => {| delta_graph := 0; states := ∅; by_predicate_object := ∅; delta_terms := ∅; impact := impact_default |}
              end |}.
Let scope0 : GraphVisibility := Exact {[gid "g"]}.
Let cx0 : ReadContext :=
  {| visibility := scope0; validation_graph := Some (gid "g"); graph_visibility := ∅; orphaned := ∅; checks_left := None |}.
Let options0 : ShaclValidationOptions :=
  {| max_results := 10; path_options := {| max_path_edges := 1000; max_path_depth := 64 |}; stop_after_first := false |}.
Let run (n : nat) : outcome ShaclError ShaclValidationReport :=
  (validate_view view0 (schema n) "g" options0 None AnyResult (new_validator cx0)).2.

(** One value is enough for one, and not for two. *)
Example demo_verdicts :
  report_conforms <$> run 1 = Ok true ∧
  ((λ r, (focus_node <$> report_results r, report_conforms r)) <$> run 2) = Ok (["<s>"], false).
Proof. split; by vm_compute. Qed.

Lemma demo_delta_built : delta_build empty_store "g" demo_changes = Ok (index view0).
Proof.
  assert ((match built with Ok _ => true | _ => false end) = true) as Hok by (vm_compute; reflexivity).
  unfold view0. cbn [index]. unfold built in *. by destruct (delta_build _ _ _).
Qed.

Lemma demo_schema_ok n : schema_ok (schema n) (λ id, 1 - id)%nat.
Proof.
  assert (∀ t, TermId_fit (hash_term t)) as Hfit by (intros t; apply hash_term_fit, demo_digest_bytes).
  split; cbn [schema portable shapes].
  - done.
  - by intros [|[|id]] s [= <-].
  - intros id _. change (1 - id < 3)%nat. lia.
  - intros [|[|id]] s p [= <-] Hp; cbn in Hp; [|by apply elem_of_nil in Hp].
    apply list_elem_of_singleton in Hp as ->. split; [cbn; lia|]. by exists (property_shape n).
  - intros [|[|id]] r c i [= <-] Hc Hi; cbn in Hc; rewrite !elem_of_cons in Hc;
      repeat (destruct Hc as [->|Hc]; [by apply elem_of_nil in Hi|]); by apply elem_of_nil in Hc.
  - intros [|[|id]] r c i [= <-] Hc Hi; cbn in Hc; rewrite !elem_of_cons in Hc;
      repeat (destruct Hc as [->|Hc]; [by apply elem_of_nil in Hi|]); by apply elem_of_nil in Hc.
  - intros [|[|id]] r t i [= <-] Ht Hi; cbn in Ht; [|by apply elem_of_nil in Ht].
    apply list_elem_of_singleton in Ht as ->. apply list_elem_of_singleton in Hi as ->. exact (Hfit "<p>").
  - intros [|[|id]] r p [= <-] [= <-]. constructor; [exact (Hfit "<p>")|constructor].
  - intros [|[|id]] r p c [= <-] [= <-] _ _. done.
Qed.

Lemma demo_nodes n id r node :
  shapes (schema n) !! id = Some r → TargetNode node ∈ targets r → known (delta_term view0) node.
Proof.
  destruct id as [|[|id]]; intros [= <-] Ht; cbn in Ht; [|by apply elem_of_nil in Ht].
  by apply list_elem_of_singleton in Ht.
Qed.

Lemma demo_readable x t :
  delta_terms (index view0) !! x = Some t → ∃ m, (from_encoded t : outcome ShaclError _) = Ok m.
Proof.
  assert (forallb (λ p : TermId * EncodedTerm, match (from_encoded p.2 : outcome ShaclError _) with Ok _ => true | _ => false end)
    (map_to_list (delta_terms (index view0))) = true) as Hall by by vm_compute.
  rewrite forallb_forall in Hall. intros Hx%elem_of_map_to_list%list_elem_of_In%Hall. cbn in Hx.
  destruct (from_encoded t); [by eexists|done..].
Qed.

Lemma demo_data_sound : data_sound empty_store.
Proof.
  assert (∀ q, q ∉ live_set empty_store) as Hno.
  { intros q Hq%elem_of_live_set. by apply Hq. }
  split; [split; by intros q ?%Hno|]. by intros x t Hx.
Qed.

Lemma demo_context : context_ok (snapshot store0) scope0 (Some (gid "g")) cx0.
Proof. split; try done; intros g x; cbn; by rewrite lookup_empty. Qed.

Lemma validation_decides_witness :
  ∃ rows, DataView view0 (snapshot store0) scope0 (Some (gid "g")) (gid "g") rows (delta_term view0) ∧
    verdict rows (delta_term view0) (schema 2) options0 "g" (delta_shown view0 scope0 (Some (gid "g")) "g") (None ≠ @None nat)
      (validate_view view0 (schema 2) "g" options0 None AnyResult (new_validator cx0)).
Proof.
  destruct (delta_data_view view0 scope0 (Some (gid "g")) "g" demo_changes sn2_sound demo_digest_bytes demo_data_sound
    demo_delta_built demo_readable ltac:(done)) as (rows & Hv & _).
  exists rows. split; [exact Hv|].
  refine (validation_decides view0 _ _ _ "g" rows _ (schema 2) _ options0 _ AnyResult cx0 Hv _ (demo_schema_ok 2) _
    (demo_nodes 2) demo_context).
  - exact (delta_data_graph view0 scope0 (Some (gid "g")) "g" demo_changes sn2_sound demo_delta_built).
  - apply hash_term_fit, demo_digest_bytes.
Defined.

Lemma change_validation_decides_witness :
  verdict (filter (λ q, quad_graph q = gid "g") (live_set demo_result.2)) (delta_term view0) (schema 1) options0 "g"
    (delta_shown view0 scope0 (Some (gid "g")) "g") (None ≠ @None nat)
    (validate_view view0 (schema 1) "g" options0 None AnyResult (new_validator cx0)).
Proof.
  refine (change_validation_decides view0 1 "g" demo_changes None 0%Z demo_result.1 demo_result.2 (schema 1) _ options0
    AnyResult cx0 sn2_sound demo_digest_bytes demo_data_sound _ demo_delta_built demo_readable _ (covered_empty "g") _
    (demo_schema_ok 1) (demo_nodes 1) demo_context).
  - done.
  - rewrite <- surjective_pairing. exact demo_local_ok.
  - repeat constructor.
Defined.
End demo.
