(* ===== verification/ShaclResolve.v ===== *)
(** * Resolution of SHACL plans ([src/internal/shacl/resolve.rs])

    A compiled schema resolved against a store: terms become identifiers,
    boundaries term metadata, patterns regular expressions.  The [regex] crate
    is a parameter. *)

From S2P Require Import Prelude Clock Terms Store Codec QueryView IndexUpdate Transitions Replication Convergence.
From S2P Require Import LocalWrites IndexMirror Orphans Cursors Reads ReadRules Answers DeltaAnswers ViewRows ShaclPaths ShaclTerms.
From S2P Require Import ShaclModel ShaclEval ShaclConforms.
#[local] Open Scope craqle_scope.

(** [regex::escape], and [RegexBuilder] with its four options: the matcher it
    builds, or none. *)
Class Regex := {
  regex_escape : bytes → bytes;
  regex_build : forall (case_insensitive multi_line dot_matches_new_line ignore_whitespace : bool),
    bytes → option (bytes → bool);
}.

(** The errors of a resolution; message texts are left out. *)
Inductive ResolveError :=
  | LookupFailed (e : StoreError)
  | IllFormedShapes (shape : EncodedTerm)
  | InvalidPattern (shape : EncodedTerm) (pattern flags : string).

Section resolve.
Context `{Oxrdf, !Oxsd} `{Blake3} `{Regex} (st : Store).

Definition resolve_term (term : EncodedTerm) : outcome ResolveError TermId :=
  default (hash_term term) <$> map_err LookupFailed (lookup_term st term).

Definition resolve_target (target : TargetPlan) : outcome ResolveError ResolvedTarget :=
  match target with
  | PlanNode term => TargetNode <$> resolve_term term
  | PlanClass term => TargetClass <$> resolve_term term
  | PlanSubjectsOf term => TargetSubjectsOf <$> resolve_term term
  | PlanObjectsOf term => TargetObjectsOf <$> resolve_term term
  | PlanImplicitClass term => TargetImplicitClass <$> resolve_term term
  end.

Fixpoint resolve_path (p : PathPlan) : outcome ResolveError ResolvedPath :=
  match p with
  | PlanPredicate predicate => Predicate <$> resolve_term predicate
  | PlanAlternative paths => Alternative <$> try_map resolve_path paths
  | PlanSequence paths => Sequence <$> try_map resolve_path paths
  | PlanInverse path => Inverse <$> resolve_path path
  | PlanZeroOrMore path => ZeroOrMore <$> resolve_path path
  | PlanOneOrMore path => OneOrMore <$> resolve_path path
  | PlanZeroOrOne path => ZeroOrOne <$> resolve_path path
  end.

Definition resolve_boundary (shape term : EncodedTerm) : outcome ResolveError TermMeta :=
  m ← from_encoded term; ok_or (IllFormedShapes shape) m.

Definition is_pattern_flag (b : N) : bool := bool_decide (b ∈ string_bytes "imsxq").
Definition has_flag (flag : string) (flags : string) : bool := existsb (λ b, bool_decide (string_bytes flag = [b])) (string_bytes flags).
Definition compile_pattern (shape : EncodedTerm) (pattern flags : string) : outcome ResolveError (bytes → bool) :=
  if existsb (λ b, negb (is_pattern_flag b)) (string_bytes flags) then Err (InvalidPattern shape pattern flags)
  else
    let source := if has_flag "q" flags then regex_escape (string_bytes pattern) else string_bytes pattern in
    ok_or (InvalidPattern shape pattern flags)
      (regex_build (has_flag "i" flags) (has_flag "m" flags) (has_flag "s" flags) (has_flag "x" flags) source).

Definition resolve_constraint (shape : EncodedTerm) (c : ConstraintPlan) : outcome ResolveError ResolvedConstraint :=
  match c with
  | KClass term => CClass <$> resolve_term term
  | KDatatype term => CDatatype <$> resolve_term term
  | KNodeKind kind => Ok (CNodeKind kind)
  | KMinCount n => Ok (CMinCount n)
  | KMaxCount n => Ok (CMaxCount n)
  | KMinExclusive term => CMinExclusive <$> resolve_boundary shape term
  | KMaxExclusive term => CMaxExclusive <$> resolve_boundary shape term
  | KMinInclusive term => CMinInclusive <$> resolve_boundary shape term
  | KMaxInclusive term => CMaxInclusive <$> resolve_boundary shape term
  | KMinLength n => Ok (CMinLength n)
  | KMaxLength n => Ok (CMaxLength n)
  | KPattern pattern flags => CPattern <$> compile_pattern shape pattern (default ""%string flags)
  | KUniqueLang value => Ok (CUniqueLang value)
  | KLanguageIn languages => Ok (CLanguageIn (to_ascii_lowercase ∘ string_bytes <$> languages))
  | KEquals predicate => CEquals <$> resolve_term predicate
  | KDisjoint predicate => CDisjoint <$> resolve_term predicate
  | KLessThan predicate => CLessThan <$> resolve_term predicate
  | KLessOrEqual predicate => CLessOrEqual <$> resolve_term predicate
  | KOr ids => Ok (COr ids)
  | KAnd ids => Ok (CAnd ids)
  | KNot i => Ok (CNot i)
  | KXone ids => Ok (CXone ids)
  | KNode i => Ok (CNode i)
  | KHasValue term => CHasValue <$> resolve_term term
  | KIn terms => (λ l : list TermId, CIn (list_to_set l)) <$> try_map resolve_term terms
  | KQualified i min_count max_count disjoint siblings => Ok (CQualified i min_count max_count disjoint siblings)
  | KClosed terms => (λ l : list TermId, CClosed (list_to_set l)) <$> try_map resolve_term terms
  end.

(** [transpose] of an optional result. *)
Definition transpose {E A} (o : option (outcome E A)) : outcome E (option A) :=
  match o with Some m => Some <$> m | None => Ok None end.

Definition resolve_shape (shape : CompiledShape) : outcome ResolveError ResolvedShape :=
  ts ← try_map resolve_target (plan_targets shape);
  p ← transpose (resolve_path <$> plan_path shape);
  cs ← try_map (resolve_constraint (label shape)) (plan_constraints shape);
  Ok {| targets := ts; path := p; constraints := cs |}.

Definition resolve (schema : list CompiledShape) : outcome ResolveError ResolvedSchema :=
  l ← try_map resolve_shape schema; Ok {| portable := schema; shapes := l |}.
End resolve.

(** ** A resolved schema does not depend on the store *)

Lemma path_plan_ind (P : PathPlan → Prop) :
  (∀ i, P (PlanPredicate i)) → (∀ l, Forall P l → P (PlanAlternative l)) → (∀ l, Forall P l → P (PlanSequence l)) →
  (∀ p, P p → P (PlanInverse p)) → (∀ p, P p → P (PlanZeroOrMore p)) → (∀ p, P p → P (PlanOneOrMore p)) →
  (∀ p, P p → P (PlanZeroOrOne p)) → ∀ p, P p.
Proof.
  intros H1 H2 H3 H4 H5 H6 H7. fix IH 1. intros [i|l|l|p|p|p|p].
  - apply H1.
  - apply H2. induction l as [|p l IHl]; constructor; [apply IH|exact IHl].
  - apply H3. induction l as [|p l IHl]; constructor; [apply IH|exact IHl].
  - apply H4, IH.
  - apply H5, IH.
  - apply H6, IH.
  - apply H7, IH.
Qed.

Section facts.
Context `{Oxrdf, !Oxsd} `{Blake3} `{Regex}.

Lemma resolve_term_hash st t i : resolve_term st t = Ok i → i = hash_term t.
Proof.
  unfold resolve_term. rewrite fmap_ok. intros (o & Ho & ->). unfold lookup_term in Ho.
  destruct (terms st !! hash_term t); [case_decide; [|done]|]; by injection Ho as <-.
Qed.

(** Two runs that succeed element by element have the same results. *)
Lemma try_map_same {E A B} (f g : A → outcome E B) l ys zs :
  Forall (λ x, ∀ y z, f x = Ok y → g x = Ok z → y = z) l → try_map f l = Ok ys → try_map g l = Ok zs → ys = zs.
Proof.
  rewrite !try_map_ok. intros Hl Hy. revert zs. induction Hy as [|x y l ys Hx _ IH]; intros zs Hz; inversion Hz; subst; [done|].
  apply Forall_cons in Hl as [Hfg Hl]. f_equal; eauto.
Qed.

Lemma try_map_each {E A B} (f g : A → outcome E B) l ys zs :
  (∀ x y z, f x = Ok y → g x = Ok z → y = z) → try_map f l = Ok ys → try_map g l = Ok zs → ys = zs.
Proof. intros Hfg. apply try_map_same, Forall_true. eauto. Qed.

Lemma fmap_same {E A B} (f : A → B) (m n : outcome E A) y z :
  (∀ a b, m = Ok a → n = Ok b → a = b) → f <$> m = Ok y → f <$> n = Ok z → y = z.
Proof. intros Hmn. rewrite !fmap_ok. intros (a & Ha & ->) (b & Hb & ->). f_equal. eauto. Qed.

Context (st st' : Store).

Lemma resolve_term_same t i j : resolve_term st t = Ok i → resolve_term st' t = Ok j → i = j.
Proof. by intros ->%resolve_term_hash ->%resolve_term_hash. Qed.

Lemma resolve_target_same t x y : resolve_target st t = Ok x → resolve_target st' t = Ok y → x = y.
Proof. destruct t; cbn [resolve_target]; apply fmap_same; apply resolve_term_same. Qed.

Lemma resolve_path_same p x y : resolve_path st p = Ok x → resolve_path st' p = Ok y → x = y.
Proof.
  revert x y. induction p using path_plan_ind; intros x y; cbn [resolve_path]; apply fmap_same; try done.
  - apply resolve_term_same.
  - intros a b. by apply try_map_same.
  - intros a b. by apply try_map_same.
Qed.

Lemma resolve_constraint_same shape c x y : resolve_constraint st shape c = Ok x → resolve_constraint st' shape c = Ok y → x = y.
Proof.
  destruct c; cbn [resolve_constraint]; try (apply fmap_same; apply resolve_term_same); try congruence.
  all: apply fmap_same; intros a b; apply try_map_each, resolve_term_same.
Qed.

Lemma resolve_shape_same s x y : resolve_shape st s = Ok x → resolve_shape st' s = Ok y → x = y.
Proof.
  unfold resolve_shape. intros (ts & Ht & (p & Hp & (cs & Hc & [= <-])%bind_ok)%bind_ok)%bind_ok.
  intros (ts' & Ht' & (p' & Hp' & (cs' & Hc' & [= <-])%bind_ok)%bind_ok)%bind_ok.
  assert (ts = ts') as -> by (eapply try_map_each; [apply resolve_target_same|done..]).
  assert (cs = cs') as -> by (eapply try_map_each; [apply resolve_constraint_same|done..]).
  assert (p = p') as ->; [|done]. destruct (plan_path s) as [q|]; cbn in Hp, Hp'; [|congruence].
  eapply (fmap_same Some); [apply resolve_path_same|done..].
Qed.
End facts.

(** ** What resolution preserves *)

Fixpoint plan_exact (p : PathPlan) : bool :=
  match p with
  | PlanPredicate _ | PlanZeroOrMore _ | PlanOneOrMore _ => true
  | PlanInverse path => plan_exact path
  | PlanAlternative _ | PlanSequence _ | PlanZeroOrOne _ => false
  end.
Definition plan_refs (c : ConstraintPlan) : list ShapeId :=
  match c with
  | KOr ids | KAnd ids | KXone ids => ids
  | KNot i | KNode i => [i]
  | KQualified i _ _ disjoint siblings => i :: (if disjoint then siblings else [])
  | _ => []
  end.
Definition counted_plan (c : ConstraintPlan) : bool := match c with KMinCount _ | KMaxCount _ => true | _ => false end.

(** The compiled schemas the theorems about validations speak of: numbered by
    place, with property shapes of their kind, which the compiler sees to; no
    shape evaluated with itself, which it checks but for the siblings of
    qualified shapes; and minimum and maximum counts only over paths whose
    capped walks are exact, which it does not check. *)
Record portable_ok (schema : list CompiledShape) (rank : ShapeId → nat) : Prop := {
  po_id id s : schema !! id = Some s → shape_id s = id;
  po_rank id : id < length schema → rank id < S (length schema);
  po_properties id s p : schema !! id = Some s → p ∈ property_shapes s →
    rank p < rank id ∧ ∃ s', schema !! p = Some s' ∧ shape_kind s' = PropertyShape;
  po_refs id s c i : schema !! id = Some s → c ∈ plan_constraints s → i ∈ plan_refs c →
    rank i < rank id ∧ i < length schema;
  po_counts id s p c : schema !! id = Some s → plan_path s = Some p → c ∈ plan_constraints s → counted_plan c = true →
    plan_exact p = true;
}.

Section typed.
Context `{Oxrdf, !Oxsd} `{Blake3} `{Regex} (st : Store) (Hbytes : digest_bytes).

Lemma resolve_term_fit t i : resolve_term st t = Ok i → TermId_fit i.
Proof. intros ->%resolve_term_hash. by apply hash_term_fit. Qed.

Lemma resolve_target_fit t t' i : resolve_target st t = Ok t' → i ∈ target_terms t' → TermId_fit i.
Proof.
  destruct t; cbn [resolve_target]; rewrite fmap_ok; intros (j & Hj%resolve_term_fit & ->) ->%list_elem_of_singleton; done.
Qed.

Lemma resolve_path_fit p p' : resolve_path st p = Ok p' → path_fit p' ∧ cap_exact p' = plan_exact p.
Proof.
  assert (∀ l l', Forall (λ p, ∀ p', resolve_path st p = Ok p' → path_fit p' ∧ cap_exact p' = plan_exact p) l →
    try_map (resolve_path st) l = Ok l' → Forall TermId_fit (concat (map path_predicates l'))) as Hall.
  { intros l l' Hl Hm%try_map_ok. induction Hm as [|x y l l' Hx _ IH]; cbn; [constructor|].
    apply Forall_cons in Hl as [Hxy Hl]. apply Forall_app. split; [by apply Hxy|auto]. }
  revert p'. induction p as [i|l IH|l IH|p IH|p IH|p IH|p IH] using path_plan_ind; intros p'; cbn [resolve_path]; rewrite fmap_ok.
  - intros (j & Hj%resolve_term_fit & ->). split; [by constructor|done].
  - intros (l' & Hl' & ->). split; [by eapply Hall|done].
  - intros (l' & Hl' & ->). split; [by eapply Hall|done].
  - intros (q & Hq & ->). by apply IH in Hq.
  - intros (q & Hq & ->). split; [by apply IH in Hq as []|done].
  - intros (q & Hq & ->). split; [by apply IH in Hq as []|done].
  - intros (q & Hq & ->). split; [by apply IH in Hq as []|done].
Qed.

Lemma resolve_constraint_typed shape c c' :
  resolve_constraint st shape c = Ok c' →
  constraint_refs c' = plan_refs c ∧ counts c' = counted_plan c ∧ Forall TermId_fit (constraint_terms c').
Proof.
  destruct c; cbn [resolve_constraint]; try (intros [= <-]; split_and!; [done|done|constructor]); rewrite fmap_ok.
  all: intros (x & Hx & ->); cbn [constraint_refs counts constraint_terms plan_refs counted_plan].
  all: split_and!; [done|done|]; repeat constructor; by eapply resolve_term_fit.
Qed.

Lemma resolved_at schema r id rs :
  try_map (resolve_shape st) schema = Ok r → r !! id = Some rs → ∃ s, schema !! id = Some s ∧ resolve_shape st s = Ok rs.
Proof. intros Hr%try_map_ok Hid. destruct (Forall2_lookup_r _ _ _ _ _ Hr Hid) as (s & Hs & ?). eauto. Qed.

Lemma resolved_constraint s rs c' :
  resolve_shape st s = Ok rs → c' ∈ constraints rs → ∃ c, c ∈ plan_constraints s ∧ resolve_constraint st (label s) c = Ok c'.
Proof.
  unfold resolve_shape. intros (ts & _ & (p & _ & (cs & Hcs%try_map_ok & [= <-])%bind_ok)%bind_ok)%bind_ok. cbn.
  intros [j Hj]%list_elem_of_lookup. destruct (Forall2_lookup_r _ _ _ _ _ Hcs Hj) as (c & Hc & ?).
  exists c. split; [by eapply list_elem_of_lookup_2|done].
Qed.
Lemma resolved_target s rs t' :
  resolve_shape st s = Ok rs → t' ∈ targets rs → ∃ t, resolve_target st t = Ok t'.
Proof.
  unfold resolve_shape. intros (ts & Hts%try_map_ok & (p & _ & (cs & _ & [= <-])%bind_ok)%bind_ok)%bind_ok. cbn.
  intros [j Hj]%list_elem_of_lookup. destruct (Forall2_lookup_r _ _ _ _ _ Hts Hj) as (t & _ & ?). by exists t.
Qed.
Lemma resolved_path s rs p' :
  resolve_shape st s = Ok rs → path rs = Some p' → ∃ p, plan_path s = Some p ∧ resolve_path st p = Ok p'.
Proof.
  unfold resolve_shape. intros (ts & _ & (p & Hp & (cs & _ & [= <-])%bind_ok)%bind_ok)%bind_ok. cbn. intros ->.
  destruct (plan_path s) as [q|]; cbn in Hp; [|done]. apply fmap_ok in Hp as (q' & Hq & [= ->]). by exists q.
Qed.

Lemma resolve_schema_ok schema rank r : portable_ok schema rank → resolve st schema = Ok r → schema_ok r rank.
Proof.
  intros [Hid Hrank Hprops Hrefs Hcounts] (l & Hl & [= <-])%bind_ok. pose proof Hl as Hlen%try_map_ok%Forall2_length.
  split; cbn [portable shapes]; try done.
  - intros id rs c i Hrs Hc Hi. destruct (resolved_at _ _ _ _ Hl Hrs) as (s & Hs & Hres).
    destruct (resolved_constraint _ _ _ Hres Hc) as (k & Hk & Hkc). apply resolve_constraint_typed in Hkc as (He & _).
    rewrite He in Hi. by eapply Hrefs.
  - intros id rs c t Hrs Hc Ht. destruct (resolved_at _ _ _ _ Hl Hrs) as (s & Hs & Hres).
    destruct (resolved_constraint _ _ _ Hres Hc) as (k & Hk & Hkc). apply resolve_constraint_typed in Hkc as (_ & _ & Hfit).
    rewrite Forall_forall in Hfit. by apply Hfit.
  - intros id rs t i Hrs Ht Hi. destruct (resolved_at _ _ _ _ Hl Hrs) as (s & Hs & Hres).
    destruct (resolved_target _ _ _ Hres Ht) as (k & Hk). by eapply resolve_target_fit.
  - intros id rs p Hrs Hp. destruct (resolved_at _ _ _ _ Hl Hrs) as (s & Hs & Hres).
    destruct (resolved_path _ _ _ Hres Hp) as (q & _ & Hq). by apply resolve_path_fit in Hq as [].
  - intros id rs p c Hrs Hp Hc Hn. destruct (resolved_at _ _ _ _ Hl Hrs) as (s & Hs & Hres).
    destruct (resolved_path _ _ _ Hres Hp) as (q & Hsp & Hq). apply resolve_path_fit in Hq as [_ ->].
    destruct (resolved_constraint _ _ _ Hres Hc) as (k & Hk & Hkc). apply resolve_constraint_typed in Hkc as (_ & Hkn & _).
    rewrite Hkn in Hn. by eapply Hcounts.
Qed.
End typed.

(** ** Stability *)

(** A resolved schema does not depend on the store: two resolutions of a
    compiled schema that succeed, against whatever stores, have the same
    result, so a resolved schema stays valid while the store changes. *)
Theorem resolve_stable `{Oxrdf, !Oxsd} `{Blake3} `{Regex} st st' (schema : list CompiledShape) r r' :
  resolve st schema = Ok r → resolve st' schema = Ok r' → r = r'.
Proof.
  intros (l & Hl & [= <-])%bind_ok (l' & Hl' & [= <-])%bind_ok. f_equal.
  eapply try_map_each; [apply resolve_shape_same|done..].
Qed.

(** ** Concrete inputs *)

Section demo.
Import DemoOxrdf DemoBlake3 DemoOxsd.
#[local] Open Scope string_scope.

(** No pattern compiles. *)
#[local] Instance demo_regex : Regex := { regex_escape l := l; regex_build _ _ _ _ _ := None }.

Let shape (id : nat) (kind : ShapeKind) (ts : list TargetPlan) (p : option PathPlan) (cs : list ConstraintPlan)
    (ps : list nat) : CompiledShape :=
  {| shape_id := id; label := "<N>"; shape_kind := kind; plan_targets := ts; plan_path := p; plan_constraints := cs;
     property_shapes := ps; severity := Violation; shape_messages := []; deactivated := false;
     dependencies := analyze ts p cs |}.
Let schema : list CompiledShape :=
  [shape 0 NodeShape [PlanSubjectsOf "<p>"] None [KNodeKind NkIri; KNode 2] [1];
   shape 1 PropertyShape [] (Some (PlanInverse (PlanPredicate "<p>"))) [KMinCount 1; KIn ["<o>"]] [];
   shape 2 NodeShape [] None [KClass "<c>"] []].
Let resolved : ResolvedSchema := match resolve empty_store schema with Ok r => r | _ => {| portable := []; shapes := [] |} end.

Lemma demo_resolved : resolve empty_store schema = Ok resolved.
Proof.
  assert ((match resolve empty_store schema with Ok _ => true | _ => false end) = true) as Hok by by vm_compute.
  unfold resolved. by destruct (resolve empty_store schema).
Qed.

Lemma resolve_stable_witness : resolved = resolved.
Proof. exact (resolve_stable empty_store empty_store schema resolved resolved demo_resolved demo_resolved). Defined.

End demo.
