(* ===== verification/ShaclMeaning.v ===== *)
(** * What a compiled schema means ([src/internal/shacl/resolve.rs])

    The conditions a compiled schema puts on a graph, read over its triples as
    text, without identifiers or stores; and that resolution against a store
    keeps them: a term meets the resolved shapes by its identifier exactly
    when it meets the compiled shapes by its text. *)

From S2P Require Import Prelude Clock Terms Store Codec QueryView IndexUpdate Transitions Replication Convergence.
From S2P Require Import LocalWrites IndexMirror Orphans Cursors Reads ReadRules Answers DeltaAnswers ViewRows ShaclPaths ShaclTerms.
From S2P Require Import ShaclModel ShaclEval ShaclConforms ShaclReports ShaclVerdicts ShaclResolve ShapeGraphs.
#[local] Open Scope craqle_scope.

(** ** The meaning of plans *)

Section meaning.
Context `{Oxrdf, !Oxsd} `{Blake3} `{Regex} (says : EncodedTerm → EncodedTerm → EncodedTerm → Prop) (schema : list CompiledShape).

(** The values of a path; one or more steps never lead back to the focus. *)
Definition union_rel (Rs : list (relation EncodedTerm)) : relation EncodedTerm :=
  foldr (λ R S a b, R a b ∨ S a b) (λ _ _, False) Rs.
Definition chain_rel (Rs : list (relation EncodedTerm)) : relation EncodedTerm :=
  foldr (λ R S a b, ∃ c, R a c ∧ S c b) eq Rs.
Fixpoint plan_rel (p : PathPlan) : relation EncodedTerm :=
  match p with
  | PlanPredicate predicate => λ a b, says a predicate b
  | PlanAlternative paths => union_rel (map plan_rel paths)
  | PlanSequence paths => chain_rel (map plan_rel paths)
  | PlanInverse path => flip (plan_rel path)
  | PlanZeroOrMore path => rtc (plan_rel path)
  | PlanOneOrMore path => λ a b, rtc (plan_rel path) a b ∧ b ≠ a
  | PlanZeroOrOne path => λ a b, b = a ∨ plan_rel path a b
  end.

Definition plan_value (id : ShapeId) (f x : EncodedTerm) : Prop :=
  match schema !! id ≫= plan_path with Some p => plan_rel p f x | None => x = f end.

Definition node_meta (t : EncodedTerm) : option TermMeta :=
  match (from_encoded t : outcome ShaclError _) with Ok m => m | _ => None end.
Definition has_meta (t : EncodedTerm) (P : TermMeta → Prop) : Prop := ∃ m, node_meta t = Some m ∧ P m.
(** Two terms compare, and their order is among [P]. *)
Definition compares (x y : EncodedTerm) (P : comparison → Prop) : Prop :=
  has_meta x (λ m, has_meta y (λ n, ∃ c, meta_cmp m n = Some c ∧ P c)).

(** The pattern with its flags matches; [q] takes it literally. *)
Definition pattern_matches (pattern : string) (flags : option string) (l : bytes) : Prop :=
  let has flag := bool_decide (flag ∈ string_bytes (default ""%string flags)) in
  ∃ is_match, is_match l = true ∧
    regex_build (has 105%N) (has 109%N) (has 115%N) (has 120%N)
      (if has 113%N then regex_escape (string_bytes pattern) else string_bytes pattern) = Some is_match.

(** Exactly one of the shapes. *)
Definition exactly_one (C : ShapeId → Prop) (ids : list ShapeId) : Prop :=
  ∃ pre i post, ids = pre ++ i :: post ∧ C i ∧ Forall (λ j, ¬ C j) pre ∧ Forall (λ j, ¬ C j) post.

Section constraint.
Context (conforms : ShapeId → EncodedTerm → Prop) (id : ShapeId) (f : EncodedTerm).
Let every (P : EncodedTerm → Prop) : Prop := ∀ x, plan_value id f x → P x.

Definition plan_sat (c : ConstraintPlan) : Prop :=
  match c with
  | KClass class => every (λ x, says x RDF_TYPE class)
  | KDatatype d => every (λ x, has_meta x (λ m, ShaclTerms.datatype m = Some (hash_term d)))
  | KNodeKind kind => every (λ x, has_meta x (λ m, node_kind_matches kind (Some (ShaclTerms.kind m)) = true))
  | KMinCount n => ∃ Y : gset EncodedTerm, (∀ x, x ∈ Y ↔ plan_value id f x) ∧ n ≤ size Y
  | KMaxCount n => ∃ Y : gset EncodedTerm, (∀ x, x ∈ Y ↔ plan_value id f x) ∧ size Y ≤ n
  | KMinExclusive b => every (λ x, compares x b (λ c, c = Gt))
  | KMaxExclusive b => every (λ x, compares x b (λ c, c = Lt))
  | KMinInclusive b => every (λ x, compares x b (λ c, c ≠ Lt))
  | KMaxInclusive b => every (λ x, compares x b (λ c, c ≠ Gt))
  | KMinLength n => every (λ x, has_meta x (λ m, is_Some (lexical m) ∧ n ≤ lexical_length m))
  | KMaxLength n => every (λ x, has_meta x (λ m, is_Some (lexical m) ∧ lexical_length m ≤ n))
  | KPattern pattern flags => every (λ x, has_meta x (λ m, ∃ l, lexical m = Some l ∧ pattern_matches pattern flags l))
  | KUniqueLang required => required = true →
      ∀ x y mx my l, plan_value id f x → plan_value id f y → x ≠ y →
        node_meta x = Some mx → node_meta y = Some my → language mx = Some l → language my ≠ Some l
  | KLanguageIn languages => every (λ x, has_meta x (λ m, ∃ l, language m = Some l ∧
      language_matches l (to_ascii_lowercase ∘ string_bytes <$> languages) = true))
  | KEquals predicate => ∀ x, plan_value id f x ↔ says f predicate x
  | KDisjoint predicate => every (λ x, ¬ says f predicate x)
  | KLessThan predicate => every (λ x, has_meta x (λ _, ∀ y, says f predicate y → compares x y (λ c, c = Lt)))
  | KLessOrEqual predicate => every (λ x, has_meta x (λ _, ∀ y, says f predicate y → compares x y (λ c, c ≠ Gt)))
  | KOr ids => every (λ x, ∃ i, i ∈ ids ∧ conforms i x)
  | KAnd ids => every (λ x, ∀ i, i ∈ ids → conforms i x)
  | KNot i => every (λ x, ¬ conforms i x)
  | KXone ids => every (λ x, exactly_one (λ i, conforms i x) ids)
  | KNode i => every (conforms i)
  | KHasValue expected => plan_value id f expected
  | KIn allowed => every (λ x, x ∈ allowed)
  | KQualified i min_count max_count disjoint siblings =>
      ∃ Y : gset EncodedTerm,
        (∀ x, x ∈ Y ↔ plan_value id f x ∧ conforms i x ∧ (disjoint = true → ∀ j, j ∈ siblings → ¬ conforms j x)) ∧
        from_option (λ n, n ≤ size Y) True min_count ∧ from_option (λ n, size Y ≤ n) True max_count
  | KClosed ignored => ∀ p o, says f p o → p ∈ ignored ∨
      ∃ s i s', schema !! id = Some s ∧ i ∈ property_shapes s ∧ schema !! i = Some s' ∧ plan_path s' = Some (PlanPredicate p)
  end.
End constraint.

Definition plan_shape_sat (conforms : ShapeId → EncodedTerm → Prop) (id : ShapeId) (f : EncodedTerm) : Prop :=
  ∀ s, schema !! id = Some s → deactivated s = false →
    (∀ c, c ∈ plan_constraints s → plan_sat conforms id f c) ∧
    (∀ p x, p ∈ property_shapes s →
            (match shape_kind s with NodeShape => x = f | PropertyShape => plan_value id f x end) → conforms p x).
Fixpoint plan_conforms_at (n : nat) (id : ShapeId) (f : EncodedTerm) : Prop :=
  match n with O => False | S n => plan_shape_sat (plan_conforms_at n) id f end.
(** A term conforms to a shape; nesting is no deeper than the shapes are many. *)
Definition plan_conforms : ShapeId → EncodedTerm → Prop := plan_conforms_at (S (length schema)).

(** A term is a focus node of a shape. *)
Definition plan_target (t : TargetPlan) (x : EncodedTerm) : Prop :=
  match t with
  | PlanNode node => x = node
  | PlanClass class | PlanImplicitClass class => says x RDF_TYPE class
  | PlanSubjectsOf predicate => ∃ y, says x predicate y
  | PlanObjectsOf predicate => ∃ y, says y predicate x
  end.
Definition plan_declared (id : ShapeId) (x : EncodedTerm) : Prop :=
  ∃ s t, schema !! id = Some s ∧ t ∈ plan_targets s ∧ plan_target t x.
End meaning.

(** The triples of rows, by the terms of a store. *)
Definition row_triples (st : Store) (rows : gset EncodedQuad) (s p o : EncodedTerm) : Prop :=
  ∃ q, q ∈ rows ∧ terms st !! quad_subject q = Some s ∧ terms st !! quad_predicate q = Some p ∧
       terms st !! quad_object q = Some o.

(** ** Identifiers and texts *)

(** Parsing a term never fails with an error of the caller's. *)
Lemma read_value_any {E F} fuel s value r :
  read_value fuel s value = (Ok r : outcome E _) → read_value fuel s value = (Ok r : outcome F _).
Proof.
  revert s value. induction fuel as [|fuel IH]; intros s value; cbn [read_value]; [by intros [= <-]|].
  destruct s as [|b s]; [by intros [= <-]|]. case_decide; [by intros [= <-]|]. case_decide; [|apply IH].
  destruct s as [|e s]; [by intros [= <-]|]. destruct (simple_escape e); [apply IH|]. destruct (numeric_escape e) as [w|]; [|by intros [= <-]].
  unfold parse_hex_escape, slice_to. case_decide; cbn; [by intros [= <-]|]. destruct (is_char_boundary s w); cbn; [|done].
  destruct (from_str_radix_16 (take w s) ≫= char_from_u32); [apply IH|by intros [= <-]].
Qed.
Lemma to_term_any `{Oxrdf} {E F} t o : to_term t = (Ok o : outcome E _) → to_term t = (Ok o : outcome F _).
Proof.
  unfold to_term, parse_ntriples_literal. case_match; [by intros [= <-]|]. case_match; [|case_match; by intros [= <-]].
  destruct (term_bytes t) as [|b s]; [by intros [= <-]|]. case_decide; [|by intros [= <-]].
  rewrite !fmap_ok. intros (a & (read & Hr & [= <-])%bind_ok & ->). eexists. split; [|done].
  apply (read_value_any (F := F)) in Hr as ->. done.
Qed.

(** A finite set under a map that is injective on it. *)
Lemma counted_image {A B} `{Countable A, Countable B} (f : A → B) (P : A → Prop) (Q : B → Prop) (Y : gset A) :
  (∀ a, a ∈ Y ↔ P a) → (∀ a, P a → Q (f a)) → (∀ b, Q b → ∃ a, P a ∧ b = f a) →
  (∀ a a', P a → P a' → f a = f a' → a = a') →
  ∃ Z : gset B, (∀ b, b ∈ Z ↔ Q b) ∧ size Z = size Y.
Proof.
  intros HY Hf Hg Hinj. exists (list_to_set (f <$> elements Y)). split.
  - intros b. rewrite elem_of_list_to_set, list_elem_of_fmap. setoid_rewrite elem_of_elements. setoid_rewrite HY. naive_solver.
  - rewrite size_list_to_set, length_fmap; [done|]. apply NoDup_fmap_2_strong; [|apply NoDup_elements].
    intros a a'. rewrite !elem_of_elements, !HY. auto.
Qed.

Section terms.
Context `{Oxrdf, !Oxsd} `{Blake3} `{Regex} (st : Store) (rows : gset EncodedQuad).
Context (Hhash : ∀ x t, terms st !! x = Some t → x = hash_term t).
Context (Hknown : ∀ q, q ∈ rows → is_Some (terms st !! quad_subject q) ∧ is_Some (terms st !! quad_predicate q) ∧
                                  is_Some (terms st !! quad_object q)).
Let says : EncodedTerm → EncodedTerm → EncodedTerm → Prop := row_triples st rows.

(** The store knows [t] as [x]. *)
Definition is_term (x : TermId) (t : EncodedTerm) : Prop := terms st !! x = Some t.
Definition known_id (x : TermId) : Prop := is_Some (terms st !! x).
Definition interned (t : EncodedTerm) : Prop := is_term (hash_term t) t.

Lemma term_interned x t : is_term x t → interned t.
Proof. unfold interned, is_term. intros Hx. by rewrite <- (Hhash x t Hx). Qed.
Lemma term_inj x y t : is_term x t → is_term y t → x = y.
Proof. by intros ->%Hhash ->%Hhash. Qed.
Lemma term_fun x t u : is_term x t → is_term x u → t = u.
Proof. unfold is_term. congruence. Qed.

(** A term of a schema that resolved: the store has no other one under its
    identifier. *)
Definition resolved_to (t : EncodedTerm) (i : TermId) : Prop := i = hash_term t ∧ ∀ u, is_term i u → u = t.

Lemma resolve_term_to t i : resolve_term st t = Ok i → resolved_to t i.
Proof.
  intros Hr. pose proof (resolve_term_hash _ _ _ Hr) as ->. split; [done|]. intros u Hu. revert Hr.
  unfold resolve_term, lookup_term. unfold is_term in Hu. rewrite Hu. by case_decide.
Qed.

Lemma resolved_term t i x u : resolved_to t i → is_term x u → x = i ↔ u = t.
Proof. intros [-> Hc] Hu. split; [|by intros ->; apply Hhash]. intros ->. by apply Hc. Qed.

(** A set of identifiers and a set of terms that are each other's names. *)
Record same_set (P : TermId → Prop) (Q : EncodedTerm → Prop) : Prop := {
  ss_ids x : P x → known_id x;
  ss_texts t : Q t → interned t;
  ss_same x t : is_term x t → P x ↔ Q t;
}.
(** The same for relations; reflexive ones relate what is unknown to itself. *)
Record same_rel (R : relation TermId) (S : relation EncodedTerm) : Prop := {
  sr_ids a b : R a b → known_id a ↔ known_id b;
  sr_texts t u : S t u → interned t ↔ interned u;
  sr_same a t b u : is_term a t → is_term b u → R a b ↔ S t u;
}.

Lemma same_rel_set R S f t : same_rel R S → is_term f t → same_set (R f) (S t).
Proof.
  intros [Hi Ht Hs] Hf. split.
  - intros x Hx. apply (Hi f x Hx). by exists t.
  - intros u Hu. apply (Ht t u Hu). by eapply term_interned.
  - intros x u Hx. by apply Hs.
Qed.

Lemma same_forall P Q (A : TermId → Prop) (B : EncodedTerm → Prop) :
  same_set P Q → (∀ x t, is_term x t → A x ↔ B t) → (∀ x, P x → A x) ↔ (∀ t, Q t → B t).
Proof.
  intros [Hi Ht Hs] HAB. split.
  - intros HA t HQ. pose proof (Ht t HQ) as Hn. apply (HAB _ _ Hn), HA. by apply (Hs _ _ Hn).
  - intros HB x HP. destruct (Hi x HP) as [t Hx]. apply (HAB x t Hx), HB. by apply (Hs x t Hx).
Qed.
Lemma same_exists P Q : same_set P Q → (∃ x, P x) ↔ (∃ t, Q t).
Proof.
  intros [Hi Ht Hs]. split.
  - intros [x Hx]. destruct (Hi x Hx) as [t Hxt]. exists t. by apply (Hs x t Hxt).
  - intros [t Hq]. exists (hash_term t). by apply (Hs _ t (Ht t Hq)).
Qed.

(** Sets of the same size. *)
Lemma same_count P Q (F : nat → Prop) :
  same_set P Q →
  (∃ Y : gset TermId, (∀ x, x ∈ Y ↔ P x) ∧ F (size Y)) ↔ (∃ Z : gset EncodedTerm, (∀ t, t ∈ Z ↔ Q t) ∧ F (size Z)).
Proof.
  intros [Hi Ht Hs]. split.
  - intros (Y & HY & HF). destruct (counted_image (λ x, default ""%string (terms st !! x)) P Q Y) as (Z & HZ & Hsize).
    + done.
    + intros x Hx. destruct (Hi x Hx) as [t E]. rewrite E. by apply (Hs x t).
    + intros t Hq. exists (hash_term t). pose proof (Ht t Hq) as Hn. split; [by apply (Hs _ _ Hn)|]. by rewrite Hn.
    + intros x y Hx Hy. destruct (Hi x Hx) as [t Ex], (Hi y Hy) as [u Ey]. rewrite Ex, Ey. cbn. intros <-. by eapply term_inj.
    + exists Z. by rewrite Hsize.
  - intros (Z & HZ & HF). destruct (counted_image hash_term Q P Z) as (Y & HY & Hsize).
    + done.
    + intros t Hq. by apply (Hs _ _ (Ht t Hq)).
    + intros x Hx. destruct (Hi x Hx) as [t E]. exists t. split; [by apply (Hs x t E)|by apply Hhash].
    + intros t u Ht' Hu Heq. pose proof (Ht t Ht') as E1. pose proof (Ht u Hu) as E2. unfold interned in *.
      rewrite Heq in E1. by eapply term_fun.
    + exists Y. by rewrite Hsize.
Qed.

(** *** Relations *)

Lemma edge_same p i : resolved_to p i → same_rel (edge rows i) (λ a b, says a p b).
Proof.
  intros Hp. split.
  - intros a b (q & Hq & <- & _ & <-). destruct (Hknown q Hq) as (? & ? & ?). by split.
  - intros t u (q & _ & Ht & _ & Hu). split; intros _; by eapply term_interned.
  - intros a t b u Ha Hb. split.
    + intros (q & Hq & <- & Hi & <-). destruct (Hknown q Hq) as (_ & [v Hv] & _). exists q. split_and!; [done..| |done].
      by rewrite <- (proj1 (resolved_term p i (quad_predicate q) v Hp Hv) Hi).
    + intros (q & Hq & Ht & Hv & Hu). exists q. split_and!; [done|by eapply term_inj| |by eapply term_inj].
      by apply (resolved_term p i (quad_predicate q) p Hp Hv).
Qed.

Lemma eq_same : same_rel (λ a b, b = a) (λ t u, u = t).
Proof.
  split; [by intros a b ->|by intros t u ->|]. intros a t b u Ha Hb. split; [intros ->|intros ->].
  - by eapply term_fun.
  - by eapply term_inj.
Qed.
Lemma flip_same R S : same_rel R S → same_rel (flip R) (flip S).
Proof.
  intros [Hi Ht Hs]. split.
  - intros a b Hab. symmetry. by apply Hi.
  - intros a b Hab. symmetry. by apply Ht.
  - intros a t b u Ha Hb. by apply Hs.
Qed.
Lemma or_same R S R' S' : same_rel R S → same_rel R' S' → same_rel (λ a b, R a b ∨ R' a b) (λ a b, S a b ∨ S' a b).
Proof.
  intros [Hi Ht Hs] [Hi' Ht' Hs']. split; [intros a b []; auto|intros a b []; auto|].
  intros a t b u Ha Hb. by rewrite (Hs a t b u), (Hs' a t b u).
Qed.
Lemma compose_same R S R' S' :
  same_rel R S → same_rel R' S' → same_rel (λ a b, ∃ c, R a c ∧ R' c b) (λ a b, ∃ c, S a c ∧ S' c b).
Proof.
  intros [Hi Ht Hs] [Hi' Ht' Hs']. split.
  - intros a b (c & Hac & Hcb). by rewrite (Hi a c), (Hi' c b).
  - intros a b (c & Hac & Hcb). by rewrite (Ht a c), (Ht' c b).
  - intros a t b u Ha Hb. split.
    + intros (c & Hac & Hcb). destruct (proj1 (Hi a c Hac)) as [v Hv]; [by exists t|]. exists v.
      by rewrite <- (Hs a t c v), <- (Hs' c v b u).
    + intros (v & Hac & Hcb). pose proof (proj1 (Ht t v Hac) (term_interned a t Ha)) as Hv. exists (hash_term v).
      by rewrite (Hs a t _ v), (Hs' _ v b u).
Qed.
Lemma rtc_same R S : same_rel R S → same_rel (rtc R) (rtc S).
Proof.
  intros [Hi Ht Hs]. split.
  - induction 1 as [a|a b c Hab _ IH]; [done|]. by rewrite (Hi a b).
  - induction 1 as [a|a b c Hab _ IH]; [done|]. by rewrite (Ht a b).
  - intros a t b u Ha Hb. split; intros Hr.
    + revert t Ha. induction Hr as [a|a c b Hac _ IH]; intros t Ha; [by rewrite (term_fun a t u)|].
      destruct (proj1 (Hi a c Hac)) as [v Hv]; [by exists t|]. eapply rtc_l; [by apply (Hs a t c v)|by apply IH].
    + revert a Ha. induction Hr as [t|t v u Htv _ IH]; intros a Ha; [by rewrite (term_inj a b t)|].
      pose proof (proj1 (Ht t v Htv) (term_interned a t Ha)) as Hv. eapply rtc_l; [by apply (Hs a t _ v)|by apply IH].
Qed.
Lemma proper_same R S : same_rel R S → same_rel (proper_plus R) (λ a b, rtc S a b ∧ b ≠ a).
Proof.
  intros HR%rtc_same. destruct HR as [Hi Ht Hs]. split; [by intros a b [? _]; apply Hi|by intros a b [? _]; apply Ht|].
  intros a t b u Ha Hb. unfold proper_plus. rewrite (Hs a t b u) by done. by rewrite (sr_same _ _ eq_same a t b u).
Qed.

Lemma path_same p p' : resolve_path st p = Ok p' → same_rel (values_rel rows p') (plan_rel says p).
Proof.
  revert p'. induction p as [i|l IH|l IH|p IH|p IH|p IH|p IH] using path_plan_ind; intros p'; cbn [resolve_path plan_rel]; rewrite fmap_ok.
  - intros (j & Hj%resolve_term_to & ->). by apply edge_same.
  - intros (l' & Hl'%try_map_ok & ->). unfold values_rel. cbn [rel_with]. induction Hl' as [|x y l l' Hx _ IHl]; [by split|].
    apply Forall_cons in IH as [Hxy Hl]. apply or_same; [by apply Hxy|by apply IHl].
  - intros (l' & Hl'%try_map_ok & ->). unfold values_rel. cbn [rel_with]. induction Hl' as [|x y l l' Hx _ IHl].
    { destruct eq_same as [Hi Ht Hs]. split; cbn; [by intros a b ->|by intros a b ->|]. intros a t b u Ha Hb.
      rewrite (eq_comm a), (eq_comm t). by apply Hs. }
    apply Forall_cons in IH as [Hxy Hl]. apply compose_same; [by apply Hxy|by apply IHl].
  - intros (q & Hq & ->). by apply flip_same, IH.
  - intros (q & Hq & ->). by apply rtc_same, IH.
  - intros (q & Hq & ->). by apply proper_same, IH.
  - intros (q & Hq & ->). apply or_same; [apply eq_same|by apply IH].
Qed.

(** What a focus is related to, also when the store has no such term. *)
Lemma object_same R S k z x u : same_rel R S → resolved_to k z → is_term x u → R x z ↔ S u k.
Proof.
  intros [Hi Ht Hs] [-> Hk] Hx. split.
  - intros Hr. destruct (proj1 (Hi x _ Hr)) as [v Hv]; [by exists u|]. rewrite <- (Hk v Hv). by apply (Hs x u (hash_term k) v).
  - intros Hr. apply (Hs x u _ k Hx); [|done]. apply (Ht u k Hr). by eapply term_interned.
Qed.
Lemma same_iff P Q P' Q' : same_set P Q → same_set P' Q' → (∀ x, P x ↔ P' x) ↔ (∀ t, Q t ↔ Q' t).
Proof.
  intros HP HP'. split.
  - intros Hall t. split; intros Ht; [pose proof (ss_texts _ _ HP t Ht) as Hn|pose proof (ss_texts _ _ HP' t Ht) as Hn].
    all: apply (ss_same _ _ HP _ _ Hn), Hall || apply (ss_same _ _ HP' _ _ Hn), Hall.
    all: by apply (ss_same _ _ HP _ _ Hn) || by apply (ss_same _ _ HP' _ _ Hn).
  - intros Hall x. split; intros Hx; [destruct (ss_ids _ _ HP x Hx) as [t Hn]|destruct (ss_ids _ _ HP' x Hx) as [t Hn]].
    all: apply (ss_same _ _ HP _ _ Hn), Hall || apply (ss_same _ _ HP' _ _ Hn), Hall.
    all: by apply (ss_same _ _ HP _ _ Hn) || by apply (ss_same _ _ HP' _ _ Hn).
Qed.
End terms.

Section schema.
Context `{Oxrdf, !Oxsd} `{Blake3} `{Regex} (st : Store) (rows : gset EncodedQuad).
Context (Hhash : ∀ x t, terms st !! x = Some t → x = hash_term t).
Context (Hknown : ∀ q, q ∈ rows → is_Some (terms st !! quad_subject q) ∧ is_Some (terms st !! quad_predicate q) ∧
                                  is_Some (terms st !! quad_object q)).
Context (schema : list CompiledShape) (l : list ResolvedShape) (Hres : try_map (resolve_shape st) schema = Ok l).
Context (Htype : resolved_to st RDF_TYPE (hash_term RDF_TYPE)).
Let says : EncodedTerm → EncodedTerm → EncodedTerm → Prop := row_triples st rows.
Let resolved : ResolvedSchema := {| portable := schema; shapes := l |}.
Let term_of : TermId → option EncodedTerm := λ x, terms st !! x.

Lemma shape_at id :
  match schema !! id with
  | Some s => ∃ r, l !! id = Some r ∧ resolve_shape st s = Ok r
  | None => l !! id = None
  end.
Proof.
  pose proof (proj1 (try_map_ok _ _ _) Hres) as Hl. apply Forall2_lookup with (i := id) in Hl. destruct Hl; eauto.
Qed.

Lemma shape_path s r : resolve_shape st s = Ok r → path r = None ∧ plan_path s = None ∨
  ∃ p p', path r = Some p' ∧ plan_path s = Some p ∧ resolve_path st p = Ok p'.
Proof.
  unfold resolve_shape. intros (ts & _ & (p' & Hp & (cs & _ & [= <-])%bind_ok)%bind_ok)%bind_ok. cbn.
  destruct (plan_path s) as [p|]; cbn in Hp; [right|left; by injection Hp as <-].
  apply fmap_ok in Hp as (q & Hq & ->). by exists p, q.
Qed.

Lemma value_same id : same_rel st (value_of rows resolved id) (plan_value says schema id).
Proof.
  unfold value_of, plan_value. cbn [shapes resolved]. pose proof (shape_at id) as Hid.
  destruct (schema !! id) as [s|]; [|rewrite Hid; by apply eq_same].
  destruct Hid as (r & -> & Hr). cbn. destruct (shape_path s r Hr) as [[-> ->]|(p & p' & -> & -> & Hp)].
  - by apply eq_same.
  - by apply path_same.
Qed.

Lemma meta_term x t : is_term st x t → meta term_of x = node_meta t.
Proof. unfold is_term, meta, term_of. by intros ->. Qed.
Lemma meta_same x t (P Q : TermMeta → Prop) :
  is_term st x t → (∀ m, P m ↔ Q m) → meta_sat term_of P x ↔ has_meta t Q.
Proof. intros Hx HPQ. unfold meta_sat, has_meta. rewrite (meta_term x t Hx). naive_solver. Qed.

Lemma boundary_meta label b m : resolve_boundary label b = Ok m → node_meta b = Some m.
Proof.
  unfold resolve_boundary, node_meta, from_encoded. intros (o & (term & Hterm & ->)%fmap_ok & Ho)%bind_ok.
  apply (to_term_any (F := ShaclError)) in Hterm as ->. cbn. destruct term; cbn in *; [by injection Ho as <-|done].
Qed.
Lemma boundary_same f (P : comparison → Prop) label b m x t :
  (∀ c, f c = true ↔ P c) → resolve_boundary label b = Ok m → is_term st x t →
  meta_sat term_of (boundary_sat f m) x ↔ compares t b P.
Proof.
  intros HfP Hm%boundary_meta Hx. apply (meta_same x t); [done|]. intros n. unfold boundary_sat, has_meta.
  rewrite Hm. split; [intros (c & ? & ?%HfP)|intros (? & [= <-] & c & ? & ?%HfP)]; eauto.
Qed.
Lemma order_same f (P : comparison → Prop) x t y u :
  (∀ c, f c = true ↔ P c) → is_term st x t → is_term st y u →
  (∃ m, meta term_of x = Some m ∧ meta_sat term_of (λ n, boundary_sat f n m) y) ↔ compares t u P.
Proof.
  intros HfP Hx Hy. unfold compares, has_meta, meta_sat, boundary_sat. rewrite (meta_term x t Hx), (meta_term y u Hy).
  setoid_rewrite HfP. naive_solver.
Qed.
Lemma is_gt_iff c : is_gt c = true ↔ c = Gt. Proof. by destruct c. Qed.
Lemma is_lt_iff c : is_lt c = true ↔ c = Lt. Proof. by destruct c. Qed.
Lemma is_ge_iff c : is_ge c = true ↔ c ≠ Lt. Proof. by destruct c. Qed.
Lemma is_le_iff c : is_le c = true ↔ c ≠ Gt. Proof. by destruct c. Qed.

Lemma ordered_same f (P : comparison → Prop) p i x t fo ft :
  (∀ c, f c = true ↔ P c) → resolved_to st p i → is_term st fo ft → is_term st x t →
  (∃ m, meta term_of x = Some m ∧ ∀ y, edge rows i fo y → meta_sat term_of (λ n, boundary_sat f n m) y) ↔
  has_meta t (λ _, ∀ u, says ft p u → compares t u P).
Proof.
  intros HfP Hp Hf Hx. pose proof (same_rel_set st Hhash _ _ fo ft (edge_same st rows Hhash Hknown p i Hp) Hf) as Hset.
  assert (∀ m, meta term_of x = Some m → (∀ y, edge rows i fo y → meta_sat term_of (λ n, boundary_sat f n m) y) ↔
    (∀ u, says ft p u → compares t u P)) as Heq.
  { intros m Hm. apply (same_forall st _ _ _ _ Hset). intros y u Hy. rewrite <- (order_same f P x t y u HfP Hx Hy).
    rewrite Hm. naive_solver. }
  unfold has_meta. rewrite <- (meta_term x t Hx). split; intros (m & Hm & HQ); exists m; (split; [done|]); by apply (Heq m Hm).
Qed.

Lemma pattern_same label pattern flags is_match text :
  compile_pattern label pattern (default ""%string flags) = Ok is_match →
  is_match text = true ↔ pattern_matches pattern flags text.
Proof.
  unfold compile_pattern, pattern_matches. destruct (existsb _ _); [done|]. intros Hm.
  assert (∀ (name : string) b, string_bytes name = [b] →
    has_flag name (default ""%string flags) = bool_decide (b ∈ string_bytes (default ""%string flags))) as Hflag.
  { intros name b Hb. unfold has_flag. apply eq_bool_prop_intro. rewrite Hb, bool_decide_spec. rewrite Is_true_true, existsb_exists.
    split; [intros (c & Hc & Heq%bool_decide_eq_true)|intros Hin; exists b].
    - injection Heq as <-. by apply list_elem_of_In.
    - split; [by apply list_elem_of_In|]. by apply bool_decide_eq_true. }
  rewrite (Hflag "q"%string 113%N), (Hflag "i"%string 105%N), (Hflag "m"%string 109%N), (Hflag "s"%string 115%N),
    (Hflag "x"%string 120%N) in Hm by done.
  assert (∀ (c : bool) (a b : bytes), (if c then a else b) = (if c then a else b)) as _ by done.
  destruct (regex_build _ _ _ _ _) as [g|]; [|done]. cbn in Hm. injection Hm as ->. split; [|by intros (? & ? & [= <-])].
  intros Ht. by exists is_match.
Qed.

Lemma resolve_all_to ts js : try_map (resolve_term st) ts = Ok js → Forall2 (resolved_to st) ts js.
Proof. intros Hall%try_map_ok. eapply Forall2_impl; [exact Hall|]. intros t i. apply resolve_term_to. Qed.
Lemma member_same ts js x t :
  Forall2 (resolved_to st) ts js → is_term st x t → x ∈ (list_to_set js : gset TermId) ↔ t ∈ ts.
Proof.
  intros Hall Hx. rewrite elem_of_list_to_set. induction Hall as [|u i ts js Hu _ IH]; [by rewrite !elem_of_nil|].
  rewrite !elem_of_cons, IH. by rewrite (resolved_term st Hhash u i x t Hu Hx).
Qed.

Lemma type_same k z x u :
  resolved_to st k z → is_term st x u → edge rows (hash_term RDF_TYPE) x z ↔ says u RDF_TYPE k.
Proof.
  intros Hz Hx. apply (object_same st Hhash (edge rows (hash_term RDF_TYPE)) (λ a b, says a RDF_TYPE b) k z x u); [|done..].
  by apply edge_same.
Qed.

(** *** Constraints *)

Section constraint.
Context (C : ShapeId → TermId → Prop) (D : ShapeId → EncodedTerm → Prop).
Context (HCD : ∀ i x t, is_term st x t → C i x ↔ D i t).
Context (id : ShapeId) (f : TermId) (t : EncodedTerm) (Hf : is_term st f t).
Let Hvalue : same_set st (value_of rows resolved id f) (plan_value says schema id t) :=
  same_rel_set st Hhash _ _ f t (value_same id) Hf.

Lemma every_same (A : TermId → Prop) (B : EncodedTerm → Prop) :
  (∀ x u, is_term st x u → A x ↔ B u) →
  (∀ x, value_of rows resolved id f x → A x) ↔ (∀ u, plan_value says schema id t u → B u).
Proof. apply same_forall, Hvalue. Qed.

Lemma unique_same (required : bool) :
  (required = true → ∀ x y, value_of rows resolved id f x → value_of rows resolved id f y → x ≠ y →
     ∀ mx my l, meta term_of x = Some mx → meta term_of y = Some my → language mx = Some l → language my ≠ Some l) ↔
  (required = true → ∀ x y mx my l, plan_value says schema id t x → plan_value says schema id t y → x ≠ y →
     node_meta x = Some mx → node_meta y = Some my → language mx = Some l → language my ≠ Some l).
Proof.
  destruct Hvalue as [Hi Ht Hs]. apply forall_proper; intros _. split.
  - intros Hall u v mu mv lang Hu Hv Hne Hmu Hmv. pose proof (Ht u Hu) as Eu. pose proof (Ht v Hv) as Ev.
    apply (Hall (hash_term u) (hash_term v)).
    + by apply (Hs _ _ Eu).
    + by apply (Hs _ _ Ev).
    + intros Heq. apply Hne. unfold interned, is_term in Eu, Ev. rewrite Heq in Eu. congruence.
    + by rewrite (meta_term _ u Eu).
    + by rewrite (meta_term _ v Ev).
  - intros Hall x y Hx Hy Hne mx my lang Hmx Hmy. destruct (Hi x Hx) as [u Eu], (Hi y Hy) as [v Ev].
    apply (Hall u v).
    + by apply (Hs x u Eu).
    + by apply (Hs y v Ev).
    + intros ->. by apply Hne, (term_inj st Hhash x y v).
    + by rewrite <- (meta_term x u Eu).
    + by rewrite <- (meta_term y v Ev).
Qed.

Lemma one_same ids x u : is_term st x u →
  (∃ pre i post, ids = pre ++ i :: post ∧ C i x ∧ Forall (λ j, ¬ C j x) pre ∧ Forall (λ j, ¬ C j x) post) ↔
  exactly_one (λ i, D i u) ids.
Proof.
  intros Hx. unfold exactly_one.
  assert (∀ l, Forall (λ j, ¬ C j x) l ↔ Forall (λ j, ¬ D j u) l) as Hall.
  { intros k. rewrite !Forall_forall. by setoid_rewrite (HCD _ x u Hx). }
  setoid_rewrite Hall. by setoid_rewrite (HCD _ x u Hx).
Qed.

Lemma qualified_same i disjoint siblings :
  same_set st (λ x, value_of rows resolved id f x ∧ C i x ∧ (disjoint = true → Forall (λ j, ¬ C j x) siblings))
    (λ u, plan_value says schema id t u ∧ D i u ∧ (disjoint = true → ∀ j, j ∈ siblings → ¬ D j u)).
Proof.
  destruct Hvalue as [Hi Ht Hs]. split; [by intros x [? _]; apply Hi|by intros u [? _]; apply Ht|].
  intros x u Hx. rewrite (Hs x u Hx), (HCD i x u Hx), Forall_forall. by setoid_rewrite (HCD _ x u Hx).
Qed.

Lemma closed_same ts js :
  Forall2 (resolved_to st) ts js →
  (∀ q, q ∈ rows → quad_subject q = f → allowed_predicate resolved id (list_to_set js) (quad_predicate q)) ↔
  (∀ p o, says t p o → p ∈ ts ∨
     ∃ s i s', schema !! id = Some s ∧ i ∈ property_shapes s ∧ schema !! i = Some s' ∧ plan_path s' = Some (PlanPredicate p)).
Proof.
  intros Hall.
  assert (∀ x p, is_term st x p → allowed_predicate resolved id (list_to_set js) x ↔ p ∈ ts ∨
    ∃ s i s', schema !! id = Some s ∧ i ∈ property_shapes s ∧ schema !! i = Some s' ∧ plan_path s' = Some (PlanPredicate p)) as Heq.
  { intros x p Hx. unfold allowed_predicate. rewrite (member_same ts js x p Hall Hx). cbn [portable shapes resolved]. apply or_iff_compat_l.
    split.
    - intros (s & i & r & Hs & Hi & Hr & Hp). pose proof (shape_at i) as Hat. destruct (schema !! i) as [s'|] eqn:Es'; [|congruence].
      destruct Hat as (r' & Hr' & Hrs). rewrite Hr in Hr'. injection Hr' as <-.
      destruct (shape_path s' r Hrs) as [[Hnone _]|(q & q' & Hq' & Hq & Hqq)]; [congruence|]. exists s, i, s'. split_and!; [done..|].
      rewrite Hq' in Hp. injection Hp as ->. rewrite Hq. f_equal.
      destruct q; cbn [resolve_path] in Hqq; apply fmap_ok in Hqq as (j & Hj & Ej); try done. injection Ej as <-.
      f_equal. symmetry. by apply (resolved_term st Hhash _ _ x p (resolve_term_to st _ _ Hj) Hx).
    - intros (s & i & s' & Hs & Hi & Hs' & Hp). pose proof (shape_at i) as Hat. rewrite Hs' in Hat. destruct Hat as (r & Hr & Hrs).
      exists s, i, r. split_and!; [done..|]. destruct (shape_path s' r Hrs) as [[_ Hnone]|(q & q' & Hq' & Hq & Hqq)]; [congruence|].
      rewrite Hp in Hq. injection Hq as <-. cbn [resolve_path] in Hqq. apply fmap_ok in Hqq as (j & Hj & ->). rewrite Hq'. do 2 f_equal.
      symmetry. by apply (resolved_term st Hhash p j x p (resolve_term_to st _ _ Hj) Hx). }
  split.
  - intros Hq p o (q & Hin & Hs & Hp & _). apply (Heq _ p Hp), Hq; [done|]. by eapply term_inj.
  - intros Hq q Hin <-. destruct (Hknown q Hin) as (_ & [p Hp] & [o Ho]). apply (Heq _ p Hp), (Hq p o). by exists q.
Qed.

Lemma constraint_same label c c' :
  resolve_constraint st label c = Ok c' →
  constraint_sat rows term_of (hash_term RDF_TYPE) resolved C id f c' ↔ plan_sat says schema D id t c.
Proof.
  destruct c as [k|k|k|n|n|b|b|b|b|n|n|pattern flags|required|languages|p|p|p|p|ids|ids|i|ids|i|k|ks|i lo hi disjoint siblings|ks];
    cbn [resolve_constraint]; rewrite ?fmap_ok; first [intros [= <-]|intros (z & Hz & ->)]; cbn [constraint_sat plan_sat];
    try (apply resolve_term_to in Hz); try (apply resolve_all_to in Hz).
  - apply every_same. intros x u Hx. by apply type_same.
  - destruct Hz as [-> _]. apply every_same. intros x u Hx. by apply meta_same.
  - apply every_same. intros x u Hx. by apply meta_same.
  - apply (same_count st Hhash _ _ (λ s, n ≤ s) Hvalue).
  - apply (same_count st Hhash _ _ (λ s, s ≤ n) Hvalue).
  - apply every_same. intros x u Hx. eapply boundary_same; [apply is_gt_iff|done..].
  - apply every_same. intros x u Hx. eapply boundary_same; [apply is_lt_iff|done..].
  - apply every_same. intros x u Hx. eapply boundary_same; [apply is_ge_iff|done..].
  - apply every_same. intros x u Hx. eapply boundary_same; [apply is_le_iff|done..].
  - apply every_same. intros x u Hx. by apply meta_same.
  - apply every_same. intros x u Hx. by apply meta_same.
  - apply every_same. intros x u Hx. apply meta_same; [done|]. intros m. by setoid_rewrite (pattern_same _ _ _ _ _ Hz).
  - apply unique_same.
  - apply every_same. intros x u Hx. by apply meta_same.
  - apply (same_iff st); [exact Hvalue|].
    apply (same_rel_set st Hhash (edge rows z) (λ a b, says a p b)); [by apply edge_same|done].
  - apply every_same. intros x u Hx. by rewrite (sr_same _ _ _ (edge_same st rows Hhash Hknown p z Hz) f t x u Hf Hx).
  - apply every_same. intros x u Hx. apply ordered_same; [apply is_lt_iff|done..].
  - apply every_same. intros x u Hx. apply ordered_same; [apply is_le_iff|done..].
  - apply every_same. intros x u Hx. rewrite Exists_exists. by setoid_rewrite (HCD _ x u Hx).
  - apply every_same. intros x u Hx. rewrite Forall_forall. by setoid_rewrite (HCD _ x u Hx).
  - apply every_same. intros x u Hx. by rewrite (HCD i x u Hx).
  - apply every_same. intros x u Hx. by apply one_same.
  - apply every_same. intros x u Hx. by apply HCD.
  - apply (object_same st Hhash _ _ k z f t); [apply value_same|done..].
  - apply every_same. intros x u Hx. by apply member_same.
  - apply (same_count st Hhash _ _ (λ s, from_option (λ n, n ≤ s) True lo ∧ from_option (λ n, s ≤ n) True hi) (qualified_same i disjoint siblings)).
  - by apply closed_same.
Qed.
End constraint.

(** *** Shapes and targets *)

Lemma resolved_parts s r : resolve_shape st s = Ok r →
  Forall2 (λ t t', resolve_target st t = Ok t') (plan_targets s) (targets r) ∧
  Forall2 (λ c c', resolve_constraint st (label s) c = Ok c') (plan_constraints s) (constraints r).
Proof.
  unfold resolve_shape. intros (ts & Hts%try_map_ok & (p' & _ & (cs & Hcs%try_map_ok & [= <-])%bind_ok)%bind_ok)%bind_ok. by split.
Qed.

Lemma conforms_same n id f t :
  is_term st f t →
  conforms_at rows term_of (hash_term RDF_TYPE) resolved n id f ↔ plan_conforms_at says schema n id t.
Proof.
  revert id f t. induction n as [|n IH]; intros id f t Hf; [done|]. cbn [conforms_at plan_conforms_at].
  unfold shape_sat, plan_shape_sat. cbn [portable shapes resolved]. pose proof (shape_at id) as Hid.
  destruct (schema !! id) as [s|]; [|split; intros _; [intros ? [=]|intros ? ? [=]]]. destruct Hid as (r & Hr & Hrs).
  destruct (resolved_parts s r Hrs) as [_ Hcs].
  assert ((∀ c, c ∈ constraints r → constraint_sat rows term_of (hash_term RDF_TYPE) resolved
      (conforms_at rows term_of (hash_term RDF_TYPE) resolved n) id f c) ↔
    (∀ c, c ∈ plan_constraints s → plan_sat says schema (plan_conforms_at says schema n) id t c)) as Hall.
  { induction Hcs as [|c c' cs cs' Hc _ IHc]; [split; intros _ c; by intros ?%elem_of_nil|].
    setoid_rewrite elem_of_cons. pose proof (constraint_same _ _ (IH) id f t Hf _ _ _ Hc). naive_solver. }
  assert (∀ p, (∀ x, (match shape_kind s with NodeShape => x = f | PropertyShape => value_of rows resolved id f x end) →
       conforms_at rows term_of (hash_term RDF_TYPE) resolved n p x) ↔
    (∀ x, (match shape_kind s with NodeShape => x = t | PropertyShape => plan_value says schema id t x end) →
       plan_conforms_at says schema n p x)) as Hps.
  { intros p. destruct (shape_kind s).
    - split; intros Hx ? ->; by apply (IH p f t Hf), Hx.
    - apply (same_forall st _ _ _ _ (same_rel_set st Hhash _ _ f t (value_same id) Hf)). intros x u Hx. by apply IH. }
  split.
  - intros Hs ? [= <-] Hd. destruct (Hs s r eq_refl Hr Hd) as [Hc Hp]. split; [by apply Hall|]. intros p x Hin. apply Hps. auto.
  - intros Hs ? ? [= <-] Hr' Hd. rewrite Hr in Hr'. injection Hr' as <-. destruct (Hs s eq_refl Hd) as [Hc Hp].
    split; [by apply Hall|]. intros p x Hin. apply Hps. auto.
Qed.

Lemma target_same t t' x u :
  resolve_target st t = Ok t' → is_term st x u → target_rel rows (hash_term RDF_TYPE) t' x ↔ plan_target says t u.
Proof.
  intros Ht Hx. destruct t; cbn [resolve_target] in Ht; apply fmap_ok in Ht as (i & Hi%resolve_term_to & ->); cbn [target_rel plan_target].
  - by apply (resolved_term st Hhash).
  - by apply type_same.
  - apply (same_exists st). apply (same_rel_set st Hhash (edge rows i) (λ a b, says a predicate b)); [by apply edge_same|done].
  - apply (same_exists st (λ y, edge rows i y x) (λ y, says y predicate u)).
    apply (same_rel_set st Hhash (flip (edge rows i)) (flip (λ a b, says a predicate b))); [by apply flip_same, edge_same|done].
  - by apply type_same.
Qed.

Lemma declared_same id x u :
  is_term st x u → declared rows (hash_term RDF_TYPE) resolved id x ↔ plan_declared says schema id u.
Proof.
  intros Hx. unfold declared, plan_declared. cbn [shapes resolved]. pose proof (shape_at id) as Hid.
  destruct (schema !! id) as [s|]; [|rewrite Hid; naive_solver]. destruct Hid as (r & -> & Hrs).
  destruct (resolved_parts s r Hrs) as [Hts _].
  assert ((∃ t, t ∈ targets r ∧ target_rel rows (hash_term RDF_TYPE) t x) ↔ (∃ t, t ∈ plan_targets s ∧ plan_target says t u)) as Heq.
  { rewrite <- !Exists_exists. induction Hts as [|t t' ts ts' Ht _ IH]; [by rewrite !Exists_nil|].
    by rewrite !Exists_cons, IH, (target_same t t' x u Ht Hx). }
  naive_solver.
Qed.

(** Focus nodes are terms of the store, so all of them conform to the one
    exactly when they do to the other. *)
Lemma declared_forall :
  (∀ s node, s ∈ schema → PlanNode node ∈ plan_targets s → terms st !! hash_term node = Some node) →
  (∀ id x, declared rows (hash_term RDF_TYPE) resolved id x → conforms rows term_of (hash_term RDF_TYPE) resolved id x) ↔
  (∀ id t, plan_declared says schema id t → plan_conforms says schema id t).
Proof.
  intros Hnodes. split.
  - intros Hall id t Ht. assert (is_term st (hash_term t) t) as Hn.
    { destruct Ht as (s & tgt & Hs%list_elem_of_lookup_2 & Htgt & Ht).
      destruct tgt; cbn in Ht; [subst t; by eapply Hnodes|destruct Ht as (q & _ & Hq & _ & _)|
        destruct Ht as (y & q & _ & Hq & _ & _)|destruct Ht as (y & q & _ & _ & _ & Hq)|destruct Ht as (q & _ & Hq & _ & _)];
        by eapply term_interned. }
    apply (conforms_same _ id _ t Hn), Hall. by apply (declared_same id _ t Hn).
  - intros Hall id x Hx. assert (∃ t, is_term st x t) as [t Ht].
    { destruct Hx as (r & tgt & Hr & Htgt & Hx). cbn [shapes resolved] in Hr. pose proof (shape_at id) as Hid.
      destruct (schema !! id) as [s|] eqn:Es; [|congruence]. destruct Hid as (r' & Hr' & Hrs). rewrite Hr in Hr'. injection Hr' as <-.
      destruct (resolved_parts s r Hrs) as [Hts _]. apply list_elem_of_lookup in Htgt as [k Hk].
      destruct (Forall2_lookup_r _ _ _ _ _ Hts Hk) as (pt & Hpt & Hres'). apply list_elem_of_lookup_2 in Hpt, Es.
      destruct pt; cbn [resolve_target] in Hres'; apply fmap_ok in Hres' as (i & Hi & ->); cbn [target_rel] in Hx.
      - subst x. rewrite (resolve_term_hash _ _ _ Hi). exists node. by eapply Hnodes.
      - destruct Hx as (q & Hq & <- & _). by apply Hknown.
      - destruct Hx as (y & q & Hq & <- & _). by apply Hknown.
      - destruct Hx as (y & q & Hq & _ & _ & <-). by apply Hknown.
      - destruct Hx as (q & Hq & <- & _). by apply Hknown. }
    apply (conforms_same _ id x t Ht), Hall. by apply (declared_same id x t Ht).
Qed.
End schema.

Lemma looked_up_to `{Blake3} st t o : lookup_term st t = Ok o → resolved_to st t (hash_term t).
Proof. intros Ho. split; [done|]. intros u Hu. revert Ho. unfold lookup_term. unfold is_term in Hu. rewrite Hu. by case_decide. Qed.

(** The target nodes of a resolved schema are terms of the store. *)
Lemma nodes_known `{Oxrdf, !Oxsd} `{Blake3} `{Regex} st schema l :
  digest_bytes → try_map (resolve_shape st) schema = Ok l →
  (∀ s node, s ∈ schema → PlanNode node ∈ plan_targets s → terms st !! hash_term node = Some node) →
  ∀ id r node, l !! id = Some r → TargetNode node ∈ targets r → known (λ x, terms st !! x) node.
Proof.
  intros Hbytes Hl Hnodes id r node Hr Hnode. destruct (resolved_at _ _ _ _ _ Hl Hr) as (s & Hs & Hrs).
  destruct (resolved_parts st s r Hrs) as [Hts _]. apply list_elem_of_lookup in Hnode as [k Hk].
  destruct (Forall2_lookup_r _ _ _ _ _ Hts Hk) as (t & Ht & Hres). apply list_elem_of_lookup_2 in Hs, Ht.
  destruct t; cbn [resolve_target] in Hres; apply fmap_ok in Hres as (i & Hi & [= ->]).
  rewrite (resolve_term_hash _ _ _ Hi). split; [|by apply hash_term_fit]. exists node0. by eapply Hnodes.
Qed.

(** ** The theorems *)

(** C21: Resolution keeps the meaning of a compiled schema.  Over a store that
    keeps its terms under their digests and rows whose terms it knows, for a
    schema that resolves against the store (and [rdf:type], which a validation
    looks up as well): a term of the store meets a resolved shape, over the rows,
    exactly when it meets the compiled shape over the triples those rows stand
    for, and it is a focus node of the one exactly when it is of the other.  This
    needs no assumption that digests do not collide: a schema with a term whose
    identifier the store gives to another term does not resolve. *)
Theorem resolve_keeps_meaning `{Oxrdf, !Oxsd} `{Blake3} `{Regex} st (rows : gset EncodedQuad) schema r o :
  (∀ x t, terms st !! x = Some t → x = hash_term t) →
  (∀ q, q ∈ rows → is_Some (terms st !! quad_subject q) ∧ is_Some (terms st !! quad_predicate q) ∧
                   is_Some (terms st !! quad_object q)) →
  lookup_term st RDF_TYPE = Ok o → resolve st schema = Ok r →
  portable r = schema ∧ length (shapes r) = length schema ∧
  ∀ id x t, terms st !! x = Some t →
    (conforms rows (λ x, terms st !! x) (hash_term RDF_TYPE) r id x ↔ plan_conforms (row_triples st rows) schema id t) ∧
    (declared rows (hash_term RDF_TYPE) r id x ↔ plan_declared (row_triples st rows) schema id t).
Proof.
  intros Hhash Hknown Htype (l & Hl & [= <-])%bind_ok. apply looked_up_to in Htype.
  split_and!; [done|by apply try_map_ok, Forall2_length in Hl|]. intros id x t Hx. split.
  - by apply conforms_same.
  - by apply declared_same.
Qed.

(** The verdict of a validation by the triples of the graph. *)
Definition plan_verdict `{Oxrdf, !Oxsd} `{Blake3} `{Regex} (says : EncodedTerm → EncodedTerm → EncodedTerm → Prop)
    (rows : gset EncodedQuad) (schema : list CompiledShape) (options : ShaclValidationOptions) (data_graph : GraphId)
    (shown : bool) (cancellable : Prop) (o : Validator * outcome ShaclError ShaclValidationReport) : Prop :=
  match o.2 with
  | Ok report => shown = true ∧
      (report_conforms report = true ↔ ∀ id t, plan_declared says schema id t → plan_conforms says schema id t)
  | Err (DataGraphNotFound g) => shown = false ∧ g = data_graph
  | Err e => limit_error rows options cancellable o.1 e
  | Panic => False
  end.

(** C20: Compiled shapes are decided: a schema resolved against a store and
    validated through the store's view is reported to conform exactly when,
    over the live visible triples of the graph as text, every term a shape
    declares as a focus node conforms to the compiled shape.  It holds of
    schemas with ranks (no shape is evaluated with itself) whose minimum and
    maximum counts are over paths with exact capped walks ([portable_ok]; the
    compiler ensures neither, see [ShaclCycles.sibling_cycle] and
    [ShaclPaths.capped_alternative_undercounts]) and whose target nodes are in
    the store; of sound snapshots whose terms are kept under their digests and
    parse without a panic; and of graphs the view's mode can read, which are
    named by a term of their own.  Then only a graph that is not shown, a
    cancellation or a limit keeps the validation from answering. *)
Theorem compiled_validation_decides `{Oxrdf, !Oxsd} `{Blake3} `{Regex} (view : StoreReadView) scope validating
    (graph : GraphId) (rows : gset EncodedQuad) schema rank r options threshold cx o :
  let sn := snapshot view in
  let st := sn_store sn in
  snapshot_sound sn → data_sound st → digest_bytes → (∀ x t, terms st !! x = Some t → x = hash_term t) →
  readable view (Named (gid graph)) → lookup_term st (from_named_node graph) = Ok o →
  (∀ q, q ∈ rows ↔ answers sn scope validating (Named (gid graph)) pattern_default q) →
  portable_ok schema rank → resolve st schema = Ok r →
  (∀ s node, s ∈ schema → PlanNode node ∈ plan_targets s → terms st !! hash_term node = Some node) →
  context_ok sn scope validating cx →
  plan_verdict (row_triples st rows) rows schema options graph
    (from_option (contains_graph_id st) false o && visible_graph sn scope validating (gid graph)) (checks_left cx ≠ None)
    (validate_view view r graph options None threshold (new_validator cx)).
Proof.
  intros sn st Hs Hdata Hbytes Hhash Hread Ho Hrows Hok Hr Hnodes Hcx.
  destruct (store_data_view view scope validating Hs Hdata (gid graph) (hash_term_fit _ Hbytes) Hread) as (rows' & Hv & Hrows').
  assert (rows' = rows) as -> by (apply set_eq; intros q; by rewrite Hrows, Hrows').
  pose proof (store_data_graph view scope validating Hs graph o Ho) as Hg.
  pose proof Hr as (l & Hl & [= <-])%bind_ok. pose proof (resolve_schema_ok st Hbytes schema rank _ Hok Hr) as Hschema.
  destruct (lookup_total sn (ss_terms _ Hs) RDF_TYPE (type_looked_up sn)) as [ot Htype%looked_up_to].
  pose proof (λ q, rv_known (view := view) (rows := rows) q) as Hknown. cbn beta in Hknown.
  pose proof (nodes_known st schema l Hbytes Hl Hnodes) as Hknodes.
  pose proof (validate_view_verdict view sn scope validating graph rows (λ x, terms st !! x) _ rank options _
    Hschema (hash_term_fit _ Hbytes) Hknodes threshold cx Hcx) as Hverdict.
  unfold verdict in Hverdict. unfold plan_verdict.
  destruct (validate_view _ _ _ _ _ _ _).2 as [report|e|]; [|done..]. destruct Hverdict as [Hshown Hreport].
  split; [done|]. rewrite Hreport. apply (declared_forall st rows Hhash Hknown schema l Hl Htype Hnodes).
Qed.

(** ** Concrete inputs *)

Section demo.
Import DemoOxrdf DemoOxsd DemoShapes.
#[local] Open Scope string_scope.

(** A pattern matches its own text. *)
#[local] Instance own_text : Regex := { regex_escape l := l; regex_build _ _ _ _ l := Some (λ text, bool_decide (text = l)) }.

Let shape (id : nat) (kind : ShapeKind) (ts : list TargetPlan) (p : option PathPlan) (cs : list ConstraintPlan)
    (ps : list nat) : CompiledShape :=
  {| shape_id := id; label := "<N>"; shape_kind := kind; plan_targets := ts; plan_path := p; plan_constraints := cs;
     property_shapes := ps; severity := Violation; shape_messages := []; deactivated := false;
     dependencies := analyze ts p cs |}.
(** Instances of [C] and the node [s] have a value of [p], each of them [o]. *)
Let schema : list CompiledShape :=
  [shape 0 NodeShape [PlanClass "<C>"; PlanNode "<s>"] None [KNodeKind NkIri; KNode 2] [1];
   shape 1 PropertyShape [] (Some (PlanPredicate "<p>")) [KMinCount 1; KIn ["<o>"]] [];
   shape 2 NodeShape [] None [KPattern "s" None] []].
Let rank (id : nat) : nat := match id with 0 => 1 | _ => 0 end.
Definition meaning_data : Store :=
  holding [("g", open_policy)] [("g", "<s>", RDF_TYPE, "<C>"); ("g", "<s>", "<p>", "<o>"); ("g", "<u>", "<p>", "<s>")].
Let data : Store := meaning_data.
Let view : StoreReadView := {| snapshot := plain_snapshot data; read_mode := Auto |}.
Let scope : GraphVisibility := Exact {[gid "g"]}.
Let resolved : ResolvedSchema := match resolve data schema with Ok r => r | _ => {| portable := []; ShaclEval.shapes := [] |} end.
Let options : ShaclValidationOptions :=
  {| max_results := 10; path_options := {| max_path_edges := 1000; max_path_depth := 64 |}; stop_after_first := false |}.
Let rows : gset EncodedQuad := filter (λ q, quad_graph q = gid "g") (live_set data).

Lemma demo_resolves : resolve data schema = Ok resolved.
Proof.
  assert ((match resolve data schema with Ok _ => true | _ => false end) = true) as Hok by by vm_compute.
  unfold resolved. by destruct (resolve data schema).
Qed.
Example meaning_validates :
  report_conforms <$> (validate_view view resolved "g" options None AnyResult (new_validator (for_validation "g" None))).2 = Ok true.
Proof. by vm_compute. Qed.

Lemma demo_hashed x t : terms data !! x = Some t → x = hash_term t.
Proof.
  assert (forallb (λ p : TermId * EncodedTerm, bool_decide (p.1 = hash_term p.2)) (map_to_list (terms data)) = true) as Hall
    by by vm_compute.
  rewrite forallb_forall in Hall. intros Hx%elem_of_map_to_list%list_elem_of_In%Hall. by apply bool_decide_eq_true in Hx.
Qed.
Lemma demo_data_ok : data_sound data.
Proof.
  split; [apply checked_rows; by vm_compute|]. intros x t Hx.
  assert (forallb (λ p : TermId * EncodedTerm, match (from_encoded p.2 : outcome ShaclError _) with Ok _ => true | _ => false end)
    (map_to_list (terms data)) = true) as Hall by by vm_compute.
  rewrite forallb_forall in Hall. apply elem_of_map_to_list, list_elem_of_In, Hall in Hx. cbn in Hx.
  destruct (from_encoded t); [by eexists|done..].
Qed.
Lemma demo_rows_known q : q ∈ rows → is_Some (terms data !! quad_subject q) ∧ is_Some (terms data !! quad_predicate q) ∧
  is_Some (terms data !! quad_object q).
Proof. intros [_ Hq]%elem_of_filter. by apply (rs_terms _ (ds_rows _ demo_data_ok)). Qed.
Lemma demo_rows_answer q : q ∈ rows ↔ answers (plain_snapshot data) scope (Some (gid "g")) (Named (gid "g")) pattern_default q.
Proof.
  unfold rows, answers, selects. rewrite elem_of_filter. cbn [plain_snapshot sn_store]. split.
  - intros [Hg Hq]. split; [exact Hq|]. split; [exact Hg|]. split; [by destruct q|]. unfold row_visible, visible_graph. by rewrite andb_true_r, bool_decide_eq_true.
  - intros (Hq & Hg & _). split; [exact Hg|exact Hq].
Qed.
Lemma demo_plans_ok : portable_ok schema rank.
Proof.
  split.
  - by intros [|[|[|id]]] s [= <-].
  - intros id _. change (rank id < 4). destruct id; cbn; lia.
  - intros [|[|[|id]]] s p [= <-] Hp; cbn in Hp; try by apply elem_of_nil in Hp.
    apply list_elem_of_singleton in Hp as ->. split; [cbn; lia|]. by eexists.
  - intros [|[|[|id]]] s c i [= <-] Hc Hi; cbn in Hc; rewrite !elem_of_cons in Hc;
      repeat (destruct Hc as [->|Hc]; [first [by apply elem_of_nil in Hi|apply list_elem_of_singleton in Hi as ->; cbn; lia]|]);
      by apply elem_of_nil in Hc.
  - by intros [|[|[|id]]] s p c [= <-] [= <-] _ _.
Qed.
Lemma demo_target_nodes s node : s ∈ schema → PlanNode node ∈ plan_targets s → terms data !! hash_term node = Some node.
Proof.
  unfold schema. rewrite !elem_of_cons. intros [->|[->|[->|?%elem_of_nil]]]; cbn; [|by intros ?%elem_of_nil..|done].
  rewrite !elem_of_cons. intros [?|[[= ->]|?%elem_of_nil]]; [done| |done]. by vm_compute.
Qed.

Lemma resolve_keeps_meaning_witness :
  portable resolved = schema ∧ length (ShaclEval.shapes resolved) = length schema ∧
  ∀ id x t, terms data !! x = Some t →
    (conforms rows (λ x, terms data !! x) (hash_term RDF_TYPE) resolved id x ↔ plan_conforms (row_triples data rows) schema id t) ∧
    (declared rows (hash_term RDF_TYPE) resolved id x ↔ plan_declared (row_triples data rows) schema id t).
Proof.
  refine (resolve_keeps_meaning data rows schema resolved (Some (hash_term RDF_TYPE)) demo_hashed demo_rows_known _ demo_resolves).
  by vm_compute.
Defined.

Lemma compiled_validation_decides_witness :
  plan_verdict (row_triples data rows) rows schema options "g"
    (from_option (contains_graph_id data) false (Some (gid "g")) && visible_graph (plain_snapshot data) scope (Some (gid "g")) (gid "g"))
    (None ≠ @None nat)
    (validate_view view resolved "g" options None AnyResult (new_validator (for_validation "g" None))).
Proof.
  apply (compiled_validation_decides view scope (Some (gid "g")) "g" rows schema rank resolved options AnyResult
    (for_validation "g" None) (Some (gid "g"))).
  - apply checked_sound. by vm_compute.
  - exact demo_data_ok.
  - exact shapes_digest_ok.
  - exact demo_hashed.
  - done.
  - by vm_compute.
  - exact demo_rows_answer.
  - exact demo_plans_ok.
  - exact demo_resolves.
  - exact demo_target_nodes.
  - exact (fresh_context (plain_snapshot data) "g").
Defined.
End demo.
