(* ===== verification/ShaclCycles.v ===== *)
(** * Recursive shapes ([src/internal/shacl/compile.rs])

    The check that rejects shapes which refer back to themselves: the edges it
    gathers from a shapes graph and its search.  A graph of the [oxrdf] crate is the list
    of its triples, terms by their text. *)

From S2P Require Import Prelude Clock Terms Store Codec QueryView IndexUpdate Transitions Replication Convergence.
From S2P Require Import LocalWrites IndexMirror Orphans Cursors Reads ReadRules Answers DeltaAnswers ViewRows ShaclPaths ShaclTerms.
From S2P Require Import ShaclModel ShaclEval ShaclConforms ShaclReports ShaclVerdicts ShaclResolve.
#[local] Open Scope craqle_scope.

(** ** Definitions *)

Inductive ShapeObject := ObjectNode (text : string) | ObjectLiteral | ObjectTriple (text : string).
Record ShapeTriple := { t_subject : string; t_predicate : string; t_object : ShapeObject }.

Inductive CycleError := UnsupportedRdfStarTerm (term : string) | UnsupportedRecursiveShape (shape : string).

Module names.
#[local] Open Scope string_scope.
Definition sh (name : string) : string := "http://www.w3.org/ns/shacl#" +:+ name.
Definition rdf (name : string) : string := "http://www.w3.org/1999/02/22-rdf-syntax-ns#" +:+ name.
Definition nil : string := "<" +:+ rdf "nil" +:+ ">".
Definition direct : list string := [sh "node"; sh "not"; sh "qualifiedValueShape"; sh "property"].
Definition lists : list string := [sh "and"; sh "or"; sh "xone"].
End names.

Abbreviation edge_map := (gmap string (gset string)) (only parsing).
Definition targets_of (edges : edge_map) (shape : string) : gset string := default ∅ (edges !! shape).
Definition add_edge (a b : string) (edges : edge_map) : edge_map := <[a := {[b]} ∪ targets_of edges a]> edges.

(** What the pass over the triples gathers. *)
Record Gathered := {
  g_edges : edge_map;
  list_first : gmap string string;
  list_rest : gmap string string;
  list_references : list (string * string);
}.
Definition gather (g : Gathered) (t : ShapeTriple) : outcome CycleError Gathered :=
  match t_object t with
  | ObjectLiteral => Ok g
  | ObjectTriple text => Err (UnsupportedRdfStarTerm text)
  | ObjectNode object =>
      let subject := t_subject t in
      Ok (if decide (t_predicate t ∈ names.direct) then
            {| g_edges := add_edge subject object (g_edges g); list_first := list_first g; list_rest := list_rest g;
               list_references := list_references g |}
          else if decide (t_predicate t ∈ names.lists) then
            {| g_edges := g_edges g; list_first := list_first g; list_rest := list_rest g;
               list_references := list_references g ++ [(subject, object)] |}
          else if decide (t_predicate t = names.rdf "first") then
            {| g_edges := g_edges g; list_first := <[subject := object]> (list_first g); list_rest := list_rest g;
               list_references := list_references g |}
          else if decide (t_predicate t = names.rdf "rest") then
            {| g_edges := g_edges g; list_first := list_first g; list_rest := <[subject := object]> (list_rest g);
               list_references := list_references g |}
          else g)
  end.

(** [while list != nil && visited.insert(list)]. *)
Fixpoint list_loop (fuel : nat) (first rest : gmap string string) (shape l : string) (visited : gset string)
    (edges : edge_map) : outcome CycleError edge_map :=
  match fuel with
  | O => Panic
  | S fuel =>
      if decide (l = names.nil ∨ l ∈ visited) then Ok edges
      else
        match first !! l with
        | None => Ok edges
        | Some referenced =>
            let edges := add_edge shape referenced edges in
            match rest !! l with
            | None => Ok edges
            | Some next => list_loop fuel first rest shape next ({[l]} ∪ visited) edges
            end
        end
  end.

Definition shape_edges (triples : list ShapeTriple) : outcome CycleError edge_map :=
  g ← try_fold gather {| g_edges := ∅; list_first := ∅; list_rest := ∅; list_references := [] |} triples;
  try_fold (λ edges '(shape, l),
    list_loop (S (S (size (list_first g)))) (list_first g) (list_rest g) shape l ∅ edges)
    (g_edges g) (list_references g).

(** [recursive_shape]: its state is [active] and [complete]. *)
Definition search_state : Type := gset string * gset string.
Fixpoint search_all (search : string → search_state → outcome CycleError (option string * search_state))
    (l : list string) (s : search_state) : outcome CycleError (option string * search_state) :=
  match l with
  | [] => Ok (None, s)
  | nested :: l =>
      '(found, s) ← search nested s;
      match found with Some shape => Ok (Some shape, s) | None => search_all search l s end
  end.
Fixpoint recursive_shape (fuel : nat) (edges : edge_map) (shape : string) (s : search_state)
    : outcome CycleError (option string * search_state) :=
  match fuel with
  | O => Panic
  | S fuel =>
      let '(active, complete) := s in
      if decide (shape ∈ active) then Ok (Some shape, s)
      else if decide (shape ∈ complete) then Ok (None, s)
      else
        '(found, (active, complete)) ←
          search_all (recursive_shape fuel edges) (btree_elems (targets_of edges shape)) ({[shape]} ∪ active, complete);
        match found with
        | Some recursive => Ok (Some recursive, (active, complete))
        | None => Ok (None, (active ∖ {[shape]}, {[shape]} ∪ complete))
        end
  end.

(** The shapes a search can meet. *)
Definition mentioned (edges : edge_map) : gset string := dom edges ∪ ⋃ (map_to_list edges).*2.
Definition search_fuel (edges : edge_map) : nat := S (S (size (mentioned edges))).

Definition reject_recursive_shapes (triples : list ShapeTriple) : outcome CycleError () :=
  edges ← shape_edges triples;
  '(found, _) ← search_all (recursive_shape (search_fuel edges) edges) (btree_keys edges) (∅, ∅);
  match found with Some shape => Err (UnsupportedRecursiveShape shape) | None => Ok () end.

(** ** The search *)

Definition edge_in (edges : edge_map) : relation string := λ a b, b ∈ targets_of edges a.

Section search.
Context (edges : edge_map).
Let E := edge_in edges.

Lemma tc_first {A} (R : relation A) x y : tc R x y → R x y ∨ ∃ z, R x z ∧ tc R z y.
Proof. destruct 1; eauto. Qed.

Lemma edge_mentioned a b : E a b → a ∈ mentioned edges ∧ b ∈ mentioned edges.
Proof.
  unfold E, edge_in, targets_of, mentioned. destruct (edges !! a) as [X|] eqn:Ea; cbn; [|by intros ?%elem_of_empty].
  intros Hb. split; apply elem_of_union; [left; by apply elem_of_dom|right]. apply elem_of_union_list. exists X.
  split; [|done]. apply list_elem_of_fmap. exists (a, X). split; [done|]. by apply elem_of_map_to_list.
Qed.

(** Shapes that are done: with what they refer to, and on no cycle. *)
Record done_ok (A C : gset string) : Prop := {
  dn_closed x y : x ∈ C → E x y → y ∈ C;
  dn_acyclic x : x ∈ C → ¬ tc E x x;
  dn_apart x : x ∈ C → x ∉ A;
}.

Lemma closed_tc A C x y : done_ok A C → tc E x y → x ∈ C → y ∈ C.
Proof. intros Hd. induction 1; intros Hx; eauto using dn_closed. Qed.

(** What a search returns from [active] and [complete]. *)
Definition search_post (shape : string) (A C : gset string) (r : option string * search_state) : Prop :=
  match r.1 with
  | Some s => tc E s s
  | None => r.2.1 = A ∧ C ⊆ r.2.2 ∧ shape ∈ r.2.2 ∧ done_ok A r.2.2
  end.

Lemma search_all_ok search (l : list string) A C :
  done_ok A C →
  (∀ x C, x ∈ l → done_ok A C → ∃ r, search x (A, C) = Ok r ∧ search_post x A C r) →
  ∃ r, search_all search l (A, C) = Ok r ∧
    match r.1 with
    | Some s => tc E s s
    | None => r.2.1 = A ∧ C ⊆ r.2.2 ∧ (∀ x, x ∈ l → x ∈ r.2.2) ∧ done_ok A r.2.2
    end.
Proof.
  revert C. induction l as [|x l IH]; intros C Hd Hs; cbn [search_all].
  { eexists. split; [done|]. cbn. split_and!; [done|done|by intros ? ?%elem_of_nil|done]. }
  destruct (Hs x C ltac:(by left) Hd) as ([found [A' C']] & -> & Hpost). cbn. destruct found as [s|].
  { eexists. by split. }
  destruct Hpost as (HA & HC & Hx & Hd'). cbn in HA, HC, Hx, Hd'. subst A'.
  destruct (IH C' Hd') as (r & -> & Hr); [intros y C1 Hy; apply Hs; by right|]. exists r. split; [done|].
  destruct r as [[s|] [A2 C2]]; [done|]. destruct Hr as (HA2 & HC2 & Hl & Hd2). cbn in *.
  split_and!; [done|by transitivity C'| |done]. intros y [->|Hy]%elem_of_cons; auto.
Qed.

Lemma recursive_shape_ok fuel shape A C :
  shape ∈ mentioned edges → A ⊆ mentioned edges → size (mentioned edges) < fuel + size A →
  (∀ a, a ∈ A → tc E a shape) → done_ok A C →
  ∃ r, recursive_shape fuel edges shape (A, C) = Ok r ∧ search_post shape A C r.
Proof.
  revert shape A C. induction fuel as [|fuel IH]; intros shape A C Hm HA Hf Hchain Hd.
  { apply subseteq_size in HA. lia. }
  cbn [recursive_shape]. case_decide as Hact; [eexists; split; [done|]; by apply Hchain|].
  case_decide as Hcomp; [eexists; by repeat split; try apply Hd|].
  destruct (search_all_ok (recursive_shape fuel edges) (btree_elems (targets_of edges shape)) ({[shape]} ∪ A) C)
    as ([found [A' C']] & -> & Hr).
  { destruct Hd as [Hc Ha Hap]. split; [done|done|]. intros x Hx. apply not_elem_of_union. split; [|by apply Hap].
    intros ->%elem_of_singleton. done. }
  { intros x C1 Hx%elem_of_btree_elems Hd1. apply IH; [by apply (edge_mentioned shape)|set_solver| | |done].
    - rewrite size_union, size_singleton by set_solver. lia.
    - intros a [->%elem_of_singleton|Ha]%elem_of_union; [by apply tc_once|]. eapply tc_r; [by apply Hchain|done]. }
  cbn in Hr |- *. destruct found as [s|]; [eexists; by split|]. destruct Hr as (-> & HC & Hall & Hd').
  eexists. split; [done|]. cbn. assert (shape ∉ C') as Hns by (intros Hx; apply (dn_apart _ _ Hd') in Hx; set_solver).
  split_and!; [set_solver|set_solver|set_solver|]. destruct Hd' as [Hc Ha Hap].
  assert (∀ y, E shape y → y ∈ C') as Hsucc by (intros y Hy; by apply Hall, elem_of_btree_elems).
  split.
  - intros x y [->%elem_of_singleton|Hx]%elem_of_union Hxy; apply elem_of_union; right; eauto.
  - intros x [->%elem_of_singleton|Hx]%elem_of_union Hcyc; [|by eapply Ha].
    apply tc_first in Hcyc as [Hloop|(y & Hy & Hcyc)].
    + by apply Hns, Hsucc.
    + apply Hns. eapply (closed_tc ({[shape]} ∪ A) C' y shape); [by split|done|by apply Hsucc].
  - intros x [->%elem_of_singleton|Hx]%elem_of_union; [done|]. apply Hap in Hx. set_solver.
Qed.

(** The search from every shape finds a cycle if there is one. *)
Lemma search_exact :
  ∃ r, search_all (recursive_shape (search_fuel edges) edges) (btree_keys edges) (∅, ∅) = Ok r ∧
    match r.1 with Some s => tc E s s | None => ∀ x, ¬ tc E x x end.
Proof.
  destruct (search_all_ok (recursive_shape (search_fuel edges) edges) (btree_keys edges) ∅ ∅) as (r & Hr & Hpost).
  - split; intros *; by intros ?%elem_of_empty.
  - intros x C Hx Hd. apply recursive_shape_ok; [|set_solver| |by intros a ?%elem_of_empty|done].
    + apply elem_of_btree_keys in Hx. unfold mentioned. apply elem_of_union. left. by apply elem_of_dom.
    + unfold search_fuel. lia.
  - exists r. split; [done|]. destruct (r.1) as [s|]; [done|]. destruct Hpost as (_ & _ & Hall & Hd). intros x Hx.
    apply (dn_acyclic _ _ Hd x); [|done]. apply Hall, elem_of_btree_keys.
    assert (∃ y, E x y) as [y Hy] by (apply tc_first in Hx as [?|(y & ? & _)]; eauto).
    unfold E, edge_in, targets_of in Hy. destruct (edges !! x); [by eexists|by apply elem_of_empty in Hy].
Qed.
End search.

(** ** The edges *)

Lemma edge_add a b edges x y : edge_in (add_edge a b edges) x y ↔ (x = a ∧ y = b) ∨ edge_in edges x y.
Proof.
  unfold edge_in, add_edge, targets_of at 1. destruct (decide (x = a)) as [->|Hne].
  - rewrite lookup_insert_eq. cbn. rewrite elem_of_union, elem_of_singleton. naive_solver.
  - rewrite lookup_insert_ne by done. unfold targets_of. naive_solver.
Qed.

Section lists.
Context (first rest : gmap string string).

(** The members of a list of the graph. *)
Inductive list_member : string → string → Prop :=
  | lm_here l b : l ≠ names.nil → first !! l = Some b → list_member l b
  | lm_next l b n x : l ≠ names.nil → first !! l = Some b → rest !! l = Some n → list_member n x → list_member l x.

Lemma list_member_step l b x :
  l ≠ names.nil → first !! l = Some b →
  list_member l x ↔ x = b ∨ ∃ n, rest !! l = Some n ∧ list_member n x.
Proof.
  intros Hl Hb. split.
  - destruct 1; [left|right]; [congruence|eauto].
  - intros [->|(n & Hn & Hx)]; [by constructor|by eapply lm_next].
Qed.

(** The loop adds the members, also of a list that runs in a circle. *)
Lemma list_loop_ok shape fuel l V edges :
  V ⊆ dom first → size (dom first) < fuel + size V →
  (∀ v, v ∈ V → v ≠ names.nil ∧ ∃ b, first !! v = Some b ∧ edge_in edges shape b ∧
                (∀ n, rest !! v = Some n → n ∈ V ∨ n = l)) →
  ∃ edges', list_loop fuel first rest shape l V edges = Ok edges' ∧
    ∀ x y, edge_in edges' x y ↔ edge_in edges x y ∨ x = shape ∧ list_member l y.
Proof.
  revert l V edges. induction fuel as [|fuel IH]; intros l V edges HV Hf Hinv.
  { apply subseteq_size in HV. lia. }
  cbn [list_loop]. case_decide as Hstop.
  { exists edges. split; [done|]. intros x y. split; [by left|]. intros [?|[-> Hm]]; [done|].
    destruct Hstop as [->|Hin]; [by inversion Hm|]. induction Hm as [l b _ Hb|l b n y _ Hb Hn Hm IHm].
    - destruct (Hinv l Hin) as (_ & b' & Hb' & ? & _). congruence.
    - destruct (Hinv l Hin) as (_ & b' & Hb' & ? & Hnext). destruct (Hnext n Hn) as [HnV| ->]; [|by apply IHm].
      apply IHm; [|done]. intros v Hv. destruct (Hinv v Hv) as (? & b2 & ? & ? & Hnext2). split; [done|].
      exists b2. split_and!; [done..|]. intros m Hm2. destruct (Hnext2 m Hm2) as [?| ->]; by left. }
  assert (l ≠ names.nil ∧ l ∉ V) as [Hnil HlV] by naive_solver. destruct (first !! l) as [b|] eqn:Hb.
  2: { exists edges. split; [done|]. intros x y. split; [by left|]. intros [?|[_ Hm]]; [done|]. destruct Hm; congruence. }
  pose proof (list_member_step l b) as Hstep. destruct (rest !! l) as [n|] eqn:Hn.
  2: { eexists. split; [done|]. intros x y. rewrite edge_add, Hstep by done. naive_solver. }
  destruct (IH n ({[l]} ∪ V) (add_edge shape b edges)) as (edges' & -> & He).
  - intros v [->%elem_of_singleton|Hv]%elem_of_union; [by apply elem_of_dom|auto].
  - rewrite size_union, size_singleton by set_solver. lia.
  - intros v [->%elem_of_singleton|Hv]%elem_of_union.
    + split; [done|]. exists b. split_and!; [done|apply edge_add; by left|]. rewrite Hn. intros m [= ->]. by right.
    + destruct (Hinv v Hv) as (? & b' & ? & ? & Hnext). split; [done|]. exists b'.
      split_and!; [done|apply edge_add; by right|]. intros m Hm. destruct (Hnext m Hm) as [?| ->]; left; set_solver.
  - exists edges'. split; [done|]. intros x y. rewrite He, edge_add, Hstep by done. naive_solver.
Qed.
End lists.

Section triples.
Context (triples : list ShapeTriple).

(** A triple between nodes. *)
Definition says (l : list ShapeTriple) (a p b : string) : Prop :=
  {| t_subject := a; t_predicate := p; t_object := ObjectNode b |} ∈ l.

Definition is_star (t : ShapeTriple) : bool := match t_object t with ObjectTriple _ => true | _ => false end.
Definition no_rdf_star : Prop := ∀ t text, t ∈ triples → t_object t ≠ ObjectTriple text.

(** The node a subject was last stated to have under a predicate: what a map
    filled by the statements in order holds. *)
Definition last_said (l : list ShapeTriple) (a p : string) : option string :=
  foldl (λ m t, if decide (t_subject t = a ∧ t_predicate t = p)
                then match t_object t with ObjectNode b => Some b | _ => m end else m) None l.

(** The members of the list at a node, each of whose nodes has the member and
    the rest last stated of it. *)
Inductive said_member : string → string → Prop :=
  | sm_here l b : l ≠ names.nil → last_said triples l (names.rdf "first") = Some b → said_member l b
  | sm_next l b n x : l ≠ names.nil → last_said triples l (names.rdf "first") = Some b →
      last_said triples l (names.rdf "rest") = Some n → said_member n x → said_member l x.

(** The shapes a shape refers to. *)
Definition refers (a b : string) : Prop :=
  (∃ p, p ∈ names.direct ∧ says triples a p b) ∨
  (∃ p l, p ∈ names.lists ∧ says triples a p l ∧ said_member l b).

Context (Hstar : no_rdf_star).

Record gathered (pre : list ShapeTriple) (g : Gathered) : Prop := {
  gi_edges a b : edge_in (g_edges g) a b ↔ ∃ p, p ∈ names.direct ∧ says pre a p b;
  gi_refs a l : (a, l) ∈ list_references g ↔ ∃ p, p ∈ names.lists ∧ says pre a p l;
  gi_first a : list_first g !! a = last_said pre a (names.rdf "first");
  gi_rest a : list_rest g !! a = last_said pre a (names.rdf "rest");
}.

Lemma says_snoc pre t a p b :
  says (pre ++ [t]) a p b ↔ says pre a p b ∨ t = {| t_subject := a; t_predicate := p; t_object := ObjectNode b |}.
Proof. unfold says. rewrite elem_of_app, list_elem_of_singleton. naive_solver. Qed.

Lemma last_said_node pre s p o a q :
  last_said (pre ++ [{| t_subject := s; t_predicate := p; t_object := ObjectNode o |}]) a q =
  if decide (s = a ∧ p = q) then Some o else last_said pre a q.
Proof. unfold last_said. by rewrite foldl_app. Qed.

Lemma last_said_other pre t a q :
  (∀ text, t_object t ≠ ObjectNode text) → last_said (pre ++ [t]) a q = last_said pre a q.
Proof.
  intros Ht. unfold last_said. rewrite foldl_app. cbn. case_decide; [|done]. destruct (t_object t) eqn:E; [|done..].
  by destruct (Ht text).
Qed.

Lemma names_apart :
  (∀ p, p ∈ names.direct → (p ∉ names.lists) ∧ p ≠ names.rdf "first" ∧ p ≠ names.rdf "rest") ∧
  (∀ p, p ∈ names.lists → p ≠ names.rdf "first" ∧ p ≠ names.rdf "rest") ∧ names.rdf "first" ≠ names.rdf "rest".
Proof.
  split; [|split; [|done]]; apply Forall_forall; apply (bool_decide_unpack _); by vm_compute.
Qed.

Lemma says_node pre s p o a q b :
  says (pre ++ [{| t_subject := s; t_predicate := p; t_object := ObjectNode o |}]) a q b ↔
  says pre a q b ∨ (q = p ∧ a = s ∧ b = o).
Proof. rewrite says_snoc. split; (intros [?|He]; [by left|right]); [by injection He as -> -> ->|by destruct He as (-> & -> & ->)]. Qed.

Lemma says_in pre s p o a b (P : list string) :
  (∃ q, q ∈ P ∧ says (pre ++ [{| t_subject := s; t_predicate := p; t_object := ObjectNode o |}]) a q b) ↔
  (∃ q, q ∈ P ∧ says pre a q b) ∨ (p ∈ P ∧ a = s ∧ b = o).
Proof.
  setoid_rewrite says_node. split.
  - intros (q & Hq & [?|(-> & ? & ?)]); [left; by exists q|by right].
  - intros [(q & ? & ?)|(? & ? & ?)]; [exists q|exists p]; auto.
Qed.

Lemma says_other pre t a p b :
  (∀ text, t_object t ≠ ObjectNode text) → says (pre ++ [t]) a p b ↔ says pre a p b.
Proof. intros Ht. rewrite says_snoc. split; [|by left]. intros [?|He]; [done|]. by destruct (Ht b); subst. Qed.

Lemma gathered_other pre t g : (∀ text, t_object t ≠ ObjectNode text) → gathered pre g → gathered (pre ++ [t]) g.
Proof.
  intros Ht [He Hr Hf Hre]. split; intros; rewrite ?last_said_other by done; auto; setoid_rewrite says_other; auto.
Qed.

Ltac gathered_tac :=
  cbn; intros; rewrite ?last_said_node, ?lookup_insert, ?edge_add, ?elem_of_app, ?list_elem_of_singleton,
    ?pair_equal_spec, ?says_in, ?says_node;
  match goal with
  | He : ∀ a b, edge_in _ a b ↔ _, Hr : ∀ a l, (a, l) ∈ _ ↔ _, Hf : ∀ a, list_first _ !! a = _,
    Hre : ∀ a, list_rest _ !! a = _ |- _ => rewrite ?He, ?Hr, ?Hf, ?Hre
  end; repeat case_decide; intuition congruence.

Lemma gather_ok pre t g :
  t ∈ triples → gathered pre g → ∃ g', gather g t = Ok g' ∧ gathered (pre ++ [t]) g'.
Proof.
  intros Ht Hg. destruct names_apart as (Hdirect & Hlists & Hneq).
  destruct t as [s p [o| |text]]; unfold gather; cbn [t_object t_subject t_predicate].
  2: { exists g. split; [done|]. by apply gathered_other. }
  2: { by destruct (Hstar _ text Ht). }
  destruct Hg as [He Hr Hf Hre]. eexists. split; [done|].
  destruct (decide (p ∈ names.direct)) as [Hd|Hnd].
  { destruct (Hdirect p Hd) as (? & ? & ?). clear Hdirect Hlists. split; gathered_tac. }
  destruct (decide (p ∈ names.lists)) as [Hl|Hnl].
  { destruct (Hlists p Hl) as (? & ?). clear Hdirect Hlists. split; gathered_tac. }
  clear Hdirect Hlists. case_decide as Hpf; [|case_decide as Hpr]; try subst p; split; gathered_tac.
Qed.

Lemma gather_all :
  ∃ g, try_fold gather {| g_edges := ∅; list_first := ∅; list_rest := ∅; list_references := [] |} triples = Ok g ∧
    gathered triples g.
Proof.
  destruct (try_fold_ok gather gathered triples
    {| g_edges := ∅; list_first := ∅; list_rest := ∅; list_references := [] |}) as (g & Hg & Hgi).
  - split; intros; cbn; unfold says, edge_in, targets_of; rewrite ?lookup_empty; set_solver.
  - intros pre t g Ht Hg. by apply gather_ok.
  - by exists g.
Qed.

Lemma member_said g l b : gathered triples g → list_member (list_first g) (list_rest g) l b ↔ said_member l b.
Proof.
  intros [_ _ Hf Hr]. split; (induction 1 as [l b Hl Hb|l b n x Hl Hb Hn _ IH]; [constructor 1|econstructor 2]);
    rewrite ?Hf, ?Hr in *; eauto; by rewrite ?Hf, ?Hr.
Qed.

(** The edges gathered are the references of the graph. *)
Lemma shape_edges_ok : ∃ edges, shape_edges triples = Ok edges ∧ ∀ a b, edge_in edges a b ↔ refers a b.
Proof.
  unfold shape_edges. destruct gather_all as (g & -> & Hg). cbn [mbind outcome_bind].
  destruct (try_fold_ok (λ edges '(shape, l),
    list_loop (S (S (size (list_first g)))) (list_first g) (list_rest g) shape l ∅ edges)
    (λ pre edges, ∀ a b, edge_in edges a b ↔ edge_in (g_edges g) a b ∨
       ∃ l, (a, l) ∈ pre ∧ list_member (list_first g) (list_rest g) l b) (list_references g) (g_edges g)) as (edges & -> & He).
  - intros a b. split; [by left|]. by intros [?|(l & ?%elem_of_nil & _)].
  - intros pre [shape l] edges _ He.
    destruct (list_loop_ok (list_first g) (list_rest g) shape (S (S (size (list_first g)))) l ∅ edges) as (edges' & -> & He').
    + set_solver.
    + rewrite size_dom, size_empty. lia.
    + by intros v ?%elem_of_empty.
    + exists edges'. split; [done|]. intros a b. rewrite He', He. setoid_rewrite elem_of_app.
      setoid_rewrite list_elem_of_singleton. naive_solver.
  - exists edges. split; [done|]. intros a b. rewrite He, (gi_edges _ _ Hg). setoid_rewrite (gi_refs _ _ Hg).
    setoid_rewrite (member_said g _ _ Hg). unfold refers. naive_solver.
Qed.
End triples.

(** A graph with a triple term is refused for one. *)
Lemma gather_star triples g t text :
  t ∈ triples → t_object t = ObjectTriple text →
  ∃ u other, u ∈ triples ∧ t_object u = ObjectTriple other ∧ try_fold gather g triples = Err (UnsupportedRdfStarTerm other).
Proof.
  intros Ht Htext. revert g. induction triples as [|u l IH]; intros g; [by apply elem_of_nil in Ht|].
  destruct (t_object u) as [o| |other] eqn:Eu.
  3: { exists u, other. split_and!; [by left|done|]. cbn [try_fold].
       assert (gather g u = Err (UnsupportedRdfStarTerm other)) as -> by (unfold gather; by rewrite Eu). done. }
  all: apply elem_of_cons in Ht as [<-|Ht]; [congruence|].
  all: assert (∃ g', gather g u = Ok g') as [g' Hg'] by (unfold gather; rewrite Eu; by eexists).
  all: destruct (IH Ht g') as (v & other & Hv & He & Hrun); exists v, other; cbn [try_fold]; rewrite Hg'.
  all: split_and!; [by right|done|done].
Qed.

(** With one [rdf:first] and one [rdf:rest] of a node the members of a list are
    all that are stated. *)
Definition lists_functional (triples : list ShapeTriple) : Prop :=
  ∀ a p b c, p = names.rdf "first" ∨ p = names.rdf "rest" → says triples a p b → says triples a p c → b = c.

Lemma last_said_says l a p b : last_said l a p = Some b → says l a p b.
Proof.
  induction l as [|t l IH] using rev_ind; [done|]. unfold last_said. rewrite foldl_app. cbn. fold (last_said l a p).
  rewrite says_snoc. destruct t as [s q o]; cbn. case_decide as Hsp; [|by left; apply IH]. destruct Hsp as [<- <-].
  destruct o; [intros [= <-]; by right|by left; apply IH..].
Qed.

Lemma says_last_said l a p b : says l a p b → is_Some (last_said l a p).
Proof.
  induction l as [|t l IH] using rev_ind; [by intros ?%elem_of_nil|]. unfold last_said. rewrite foldl_app. cbn.
  fold (last_said l a p). intros [Hl| ->]%says_snoc; [|by cbn; rewrite decide_True]. case_decide; [|by apply IH].
  destruct (t_object t); [by eexists|by apply IH..].
Qed.

Lemma functional_members triples a p b :
  lists_functional triples → p = names.rdf "first" ∨ p = names.rdf "rest" →
  last_said triples a p = Some b ↔ says triples a p b.
Proof.
  intros Hf Hp. split; [apply last_said_says|]. intros Hb. destruct (says_last_said _ _ _ _ Hb) as [c Hc].
  rewrite Hc. f_equal. by apply (Hf a p); [|apply last_said_says|].
Qed.

(** ** The theorem *)

(** C19: The check of a shapes graph ends on every graph, also one whose lists
    run in a circle.  A graph with a triple term is refused, naming one.  Of the
    others exactly those pass in which no shape refers to itself, directly or
    through others, by [sh:node], [sh:not], [sh:property],
    [sh:qualifiedValueShape] or a member of a list under [sh:and], [sh:or] or
    [sh:xone], where a node of a list has the one [rdf:first] and the one
    [rdf:rest] that were last stated of it ([functional_members]: all of them
    in a well-formed list); what is rejected names a shape that does. *)
Theorem recursion_check_exact triples :
  match reject_recursive_shapes triples with
  | Ok _ => no_rdf_star triples ∧ ∀ s, ¬ tc (refers triples) s s
  | Err (UnsupportedRecursiveShape s) => no_rdf_star triples ∧ tc (refers triples) s s
  | Err (UnsupportedRdfStarTerm text) => ∃ t, t ∈ triples ∧ t_object t = ObjectTriple text
  | Panic => False
  end.
Proof.
  unfold reject_recursive_shapes.
  destruct (decide (Exists (λ t, is_star t = true) triples)) as [(t & Ht & Hstar)%Exists_exists|Hno].
  { destruct (t_object t) as [| |text] eqn:Etext; unfold is_star in Hstar; rewrite Etext in Hstar; try done.
    unfold shape_edges. edestruct (gather_star triples) as (u & other & Hu & Hother & ->); [done..|]. by exists u. }
  assert (no_rdf_star triples) as Hs.
  { intros t text Ht Hc. apply Hno, Exists_exists. exists t. unfold is_star. by rewrite Hc. }
  destruct (shape_edges_ok triples Hs) as (edges & -> & Hedges).
  cbn [mbind outcome_bind]. destruct (search_exact edges) as ([found s] & -> & Hfound). cbn in Hfound |- *.
  assert (∀ x y, tc (edge_in edges) x y ↔ tc (refers triples) x y) as Htc.
  { intros x y. split; intros Ht; eapply (tc_congruence (λ x, x)); try exact Ht; intros a b; apply Hedges. }
  destruct found as [x|]; (split; [done|]); [by apply Htc|]. intros x. rewrite <- Htc. apply Hfound.
Qed.

(** ** Concrete inputs *)

Section demo.
Import DemoOxrdf DemoBlake3 DemoOxsd.
#[local] Open Scope string_scope.

Let says_that (s p o : string) : ShapeTriple := {| t_subject := s; t_predicate := p; t_object := ObjectNode o |}.

(** A list that runs in a circle, and a shape that reaches itself through it. *)
Let circular : list ShapeTriple :=
  [says_that "<A>" (names.sh "and") "_:l"; says_that "_:l" (names.rdf "first") "<B>";
   says_that "_:l" (names.rdf "rest") "_:l"; says_that "<B>" (names.sh "node") "<A>"].
(** A node with two members: only the one stated last is followed, and a shape
    among its own members is accepted. *)
Let two_members : list ShapeTriple :=
  [says_that "<A>" (names.sh "and") "_:l"; says_that "_:l" (names.rdf "first") "<A>";
   says_that "_:l" (names.rdf "first") "<B>"; says_that "_:l" (names.rdf "rest") names.nil].

Example checked_graphs :
  reject_recursive_shapes circular = Err (UnsupportedRecursiveShape "<A>") ∧
  reject_recursive_shapes two_members = Ok () ∧ says two_members "_:l" (names.rdf "first") "<A>".
Proof. split_and!; [by vm_compute..|]. right. left. Qed.

Let shape (id : nat) (name : string) (kind : ShapeKind) (ts : list TargetPlan) (p : option PathPlan)
    (cs : list ConstraintPlan) (ps : list nat) : CompiledShape :=
  {| shape_id := id; label := name; shape_kind := kind; plan_targets := ts; plan_path := p; plan_constraints := cs;
     property_shapes := ps; severity := Violation; shape_messages := []; deactivated := false;
     dependencies := analyze ts p cs |}.
(** The check does not see that a qualified value shape is also evaluated with
    the shapes of its siblings: it accepts these shapes, and evaluating them
    reports a cycle. *)
Let siblings : list ShapeTriple :=
  [says_that "<N>" (names.sh "property") "<P>"; says_that "<B>" (names.sh "property") "<P>";
   says_that "<P>" (names.sh "qualifiedValueShape") "<A>"; says_that "<N>" (names.sh "property") "<Q>";
   says_that "<Q>" (names.sh "qualifiedValueShape") "<B>"].
Let sibling_schema : ResolvedSchema :=
  {| portable :=
       [shape 0 "<A>" NodeShape [] None [] []; shape 1 "<B>" NodeShape [] None [] [3];
        shape 2 "<N>" NodeShape [PlanSubjectsOf "<p>"] None [] [3];
        shape 3 "<P>" PropertyShape [] (Some (PlanPredicate "<p>")) [KQualified 0 None (Some 0) true [1]] []];
     shapes :=
       [{| targets := []; path := None; constraints := [] |}; {| targets := []; path := None; constraints := [] |};
        {| targets := [TargetSubjectsOf (hash_term "<p>")]; path := None; constraints := [] |};
        {| targets := []; path := Some (Predicate (hash_term "<p>"));
           constraints := [CQualified 0 None (Some 0) true [1]] |}] |}.
Let loop_edge : list MaterializedQuadChange := [Insert "g" "<s>" "<p>" "<s>"].
Let view1 : DeltaReadView :=
  {| base := {| snapshot := {| sn_store := empty_store; sn_diagnostics := ∅; sn_views := init_views; sn_seqno := 0 |};
               read_mode := Auto |};
     index := match delta_build empty_store "g" loop_edge with
              | Ok ix => ix
              | _ => {| delta_graph := 0; states := ∅; by_predicate_object := ∅; delta_terms := ∅; impact := impact_default |}
              end |}.

Example sibling_cycle :
  reject_recursive_shapes siblings = Ok () ∧
  (validate_view view1 sibling_schema "g"
     {| max_results := 10; path_options := {| max_path_edges := 1000; max_path_depth := 64 |}; stop_after_first := false |}
     None AnyResult
     (new_validator {| visibility := Exact {[gid "g"]}; validation_graph := Some (gid "g"); graph_visibility := ∅;
                       orphaned := ∅; checks_left := None |})).2 =
  Err (CyclicShapeEvaluation "<B>" (hash_term "<s>")).
Proof. split; by vm_compute. Qed.
End demo.
